(* ===== verification/_CoqProject ===== *)
-Q . S2P
Prelude.v
GoStd.v
Sentinels.v
Ring.v
Contract.v
Failure.v
Job.v
Control.v
Status.v
Protocol.v
Desired.v
Lifecycle.v
LifecycleSafety.v
LifecycleCommands.v
Execution.v
Routine.v
Scheduler.v
SchedulerSafety.v
SchedulerLifecycle.v
Queue.v
Codec.v
Reader.v
Records.v
Stream.v
Server.v
Scripts.v
ScriptSafety.v
Valkey.v
ValkeySafety.v
ValkeyOptions.v
ValkeyWorker.v
ValkeyWorkerSafety.v
ValkeyRecords.v
ControlCache.v
ValkeyControl.v
ValkeyControlSafety.v
Wire.v
Http.v
HttpSafety.v
Fleet.v
FleetSafety.v
Service.v
ServiceLifecycle.v
ServiceSafety.v
ServicePublish.v
RedisOptions.v
Redis.v
RedisSafety.v
RedisRecords.v
RedisControl.v
RedisControlSafety.v
RedisWorker.v
RedisWorkerSafety.v
RabbitOptions.v
Rabbit.v
RabbitSafety.v
RabbitWorker.v
RabbitWorkerSafety.v
RabbitDelivery.v
Nsq.v
NsqSafety.v
NsqRecords.v
Handoff.v
NsqWorker.v
NsqWorkerSafety.v
NsqDelivery.v
NsqLiveness.v
Nats.v
NatsSafety.v
PubSub.v
PubSubSafety.v
Regexp.v
Semver.v
SemverSafety.v
