(* ===== verification/Prelude.v ===== *)
(** Verification of go-queue, a task queue library for Go with pluggable brokers.

    * The program

    A [Queue] (queue.go) pulls tasks from a worker, runs each of them under a retry
    policy and settles it with the broker. The in-memory worker is a ring buffer
    (ring.go). A worker lifecycle (management/lifecycle.go) gates admission and counts
    the work in flight, so that an operator can pause, drain or terminate a worker; a
    reconciler (management/desired.go) brings it to a declared state. Workers report
    status and stored failures through the management contracts (management/). The
    stream workers keep tasks in streams: the Valkey worker
    (valkeystream/) reads and reclaims deliveries, settles them through scripts that run
    in the server, keeps failures and dead letters as records, and executes management
    commands on those records; the Redis worker (adapters/redisstream/) does the same with
    sequences of single commands. Operators reach all of this over HTTP (managementhttp/), one
    worker at a time or as a fleet. A service runtime hosts producers and workers through
    adapters/service/.

    * Files

    Shared:
    - [Prelude]: the outcome type [go] (a value or a panic), record update, tactics.
    - [GoStd], [Codec]: the language and standard library as the code uses it: strings,
      error values, instants, decimal and base64 text.
    - [Sentinels]: exported error values (errors.go, queue.go, management/errors.go).
    In-process queue:
    - [Ring]: ring.go. State [Ring]; [Queue], [Request], [stopIntake] in two phases.
    - [Job]: job/. The message, its options, metadata, validation and decoding.
    - [Failure]: management/classification.go. Classified errors and [ResolveFailure].
    - [Execution]: [work], [run], [handle], [settle] of queue.go for one delivery.
    - [Routine]: thread.go, metric.go.
    - [Scheduler]: [schedule], [start], [CloseAdmission], [Shutdown] of queue.go as one
      transition system of goroutines; [SchedulerSafety], [SchedulerLifecycle] have its
      theorems.
    - [Queue]: construction, submission, release and management calls (queue.go,
      options.go, pool.go, management_lifecycle.go).
    Management:
    - [Contract], [Control], [Status], [Protocol], [Records]: the contracts of
      management/ and their validation.
    - [Desired]: the reconciler. [Reader]: the status reader and its pages.
    - [Lifecycle]: management/lifecycle.go, one definition per mutex section, calls as
      threads; [LifecycleSafety], [LifecycleCommands] have its theorems.
    Stream queues:
    - [Stream]: internal/streamqueue/.
    - [Server]: what the adapters rely on of the server, as the class [Server] with its
      laws, and a reference server that satisfies them.
    - [Scripts], [ScriptSafety]: the Lua scripts of valkeystream/native_transport.go, and
      the enqueue script of adapters/redisstream/redis.go.
    - [Valkey], [ValkeySafety]: the native transport over a command client.
    - [ValkeyOptions]: valkeystream/options.go.
    - [ValkeyWorker], [ValkeyWorkerSafety]: worker.go, publisher.go and status.go of
      valkeystream/, over the class [Transport].
    - [ValkeyRecords]: valkeystream/records.go.
    - [ControlCache]: the command cache that both stream workers keep in control.go, over
      the class [ControlBackend].
    - [ValkeyControl], [ValkeyControlSafety]: the mutations of valkeystream/control.go.
    - [RedisOptions]: adapters/redisstream/options.go.
    - [Redis], [RedisSafety]: delivery, settlement, submission, statistics and construction
      (redis.go and status.go of adapters/redisstream/), over a command client.
    - [RedisWorker], [RedisWorkerSafety]: the intake of redis.go, its consumer and its
      calls as one transition system.
    - [RedisRecords]: adapters/redisstream/records.go.
    - [RedisControl], [RedisControlSafety]: adapters/redisstream/control.go.
    RabbitMQ:
    - [RabbitOptions]: adapters/rabbitmq/options.go.
    - [Rabbit], [RabbitSafety]: construction, submission and settlement of a failed delivery
      (adapter.go and rabbitmq.go of adapters/rabbitmq/), over the class [Native].
    - [RabbitWorker], [RabbitWorkerSafety], [RabbitDelivery]: the bridge between the native
      consumer and the queue, its handlers and calls as one transition system.
    NSQ:
    - [Nsq], [NsqSafety]: options, construction, submission and settlement (nsq/), over the
      class [nsqClient].
    - [NsqRecords]: the dead-letter envelope of nsq/deadletter.go and its decoder.
    - [Handoff]: handlers that select between an unbuffered channel of tasks and a stop
      channel, as the intakes of nsq/nsq.go and nats/nats.go have them.
    - [NsqWorker], [NsqWorkerSafety], [NsqDelivery], [NsqLiveness]: the intake of nsq/nsq.go,
      its handlers and calls as one transition system.
    Core NATS and Redis Pub/Sub:
    - [Nats], [NatsSafety]: nats/, construction and submission over the class [natsClient],
      and the handlers and calls as one transition system.
    - [PubSub], [PubSubSafety]: redisdb/, over the class [pubsubClient].

    Remote management:
    - [Wire]: the wire types of managementhttp/ and their conversions.
    - [Http], [HttpSafety]: the handler of a worker and the client of an operator.
    - [Fleet], [FleetSafety]: managementhttp/fleet.go.

    Service runtime:
    - [Service], [ServicePublish]: the sequential part of adapters/service/queueservice.go,
      over the class [Host].
    - [ServiceLifecycle], [ServiceSafety]: the lifecycles of its producer and worker, one
      definition per mutex section, calls as threads.

    Release helper:
    - [Regexp]: the expressions and the search of the regexp package.
    - [Semver], [SemverSafety]: internal/semver/semver.go and cmd/semvercheck/main.go.

    * What the theorems show

    - Delivery: the ring is a bounded FIFO; every received task is dispatched once and
      in order; concurrency stays within the worker count; a delivery is settled once.
    - Lifecycle: waiting transitions miss no wake-up and return at a boundary that
      holds; a command takes effect once per idempotency key; revisions only grow.
    - Shutdown: admission drains exactly, a released waiter means an idle queue, intake
      ends after it is closed; the Redis worker closes its client once, after its consumer,
      and its shutdown is never stuck. The RabbitMQ worker leaks no consumer, closes its
      producer once, and its shutdown is never stuck. The NSQ worker sends nothing on a
      closed channel, ends its consumer before it stops its producer, and its shutdown can
      always return; a consumer that failed to start never starts. The Core NATS worker is
      free of panics as long as its connection closes only when no handler runs;
      [NatsSafety.nats_late_handler_panics] is a run in which it closes earlier. The Redis
      Pub/Sub worker closes whatever it opened, also when its construction fails.
    - Stored work: acknowledgement deletes an entry only when no group needs it; retry,
      replay, rejection and dead-letter settlement never lose a job, also when a command
      raises, is refused, or is applied and its answer is lost. A message of RabbitMQ, NSQ or
      Core NATS is handed to one request, or given back: to the broker by NSQ, to its client
      by Core NATS, which may lose it, and by the RabbitMQ bridge as its configuration says,
      which may reject it.
    - Records: they read back as written, listings disclose no payload, pages are
      complete and traversal ends. A page walk with a search is the exception that
      [ValkeyRecords.search_drops_match] and [RedisRecords.redis_search_drops_match] prove.
    - Remote: nothing is served without the token; a remote command runs at most once and
      its result is the controller's; a remote listing is the worker's listing; a fleet
      reports no more than every endpoint said and routes a command to one worker.
    - Service: a resource is released once and only when nothing uses it, every call
      returns when its callbacks do, and a publish reports what happened.
    - Validation: the validators accept exactly the values their contract describes.
    - Releases: a tag is accepted exactly when it is a semantic version, and the next stable
      tag is the least later one of its kind, as far as machine integers reach.

    * How to read the model

    Integers are [Z] with their wrap-around written out where the code can reach it. A Go
    string is its bytes. A result (T, error) is a sum with the error on the left. A Go
    map is a [gmap]; where its iteration order can matter, the order is an argument.
    Concurrent code is a state with a step function whose events name the goroutine that
    moves; a theorem on runs holds for every sequence of events. The clock, the choice of
    a select and the answers of callbacks are arguments. A script is a function on the
    server state that can raise at any command and then keeps its earlier effects.

    Fuel: [Execution.handler] gives the retry loop one more than its retry count, and the
    theorem on it shows that it returns. [Failure.ResolveFailure] has the bound of the
    source, 64 nodes. [Reader.walk] and [ValkeyRecords.traverse] take one step per page,
    and their theorems give a number of steps that is enough. The loop of the fleet client
    over the pages of an endpoint has no bound in the source; [Fleet.readAllFleet] stops
    after a number of pages, and 101 are enough when no page but the last is empty.

    Assumptions are classes with instances that show they can hold together: [Server] and
    [LuaNumber] with their laws (reference server), [Connection] (a network that loses
    requests and answers), [RedisServerLaws] and [RedisConnection] (the same network over
    the commands of the Redis worker), [DurableTransport] (the native transport), [WireLaws] and
    [Exchange] (a codec and a connection for one worker), [HostLaws] (a host with
    correlation), [NsqBroker], [MarshalTotal] and [EnvelopeLaws] (a client of one nsqd, a
    codec for one envelope), [NatsHistory] (a client that remembers its publications) and
    [PubSubLaws] (a library that keeps the set of its open clients). The intake of the NSQ worker assumes of the library that its
    StopChan is closed only when no handler runs, and that none is called afterwards.

    * Not modelled

    - recovery.go and logger.go: text for people; nothing depends on it.
    - mocks/ and internal/testutil/: test support.
    - Contexts carry a deadline into the client library; a call that exceeds it is an
      error of that call here. JSON encoding, the client library and TLS are parameters.
    - A panic inside a transport while a management command is applied: the Go code
      would leave the entry of that command without a result. *)

From Stdlib Require Export ZArith Ascii String Lia ZifyBool ZifyNat.
From stdpp Require Export prelude strings gmap sorting pretty.

#[export] Set Warnings "-clear-no-such-hyp".

(** * Outcomes of Go code: a value, or a run-time panic. *)

Inductive go (A : Type) : Type :=
| Ret (a : A)
| Panic (why : string).
Arguments Ret {A} a.
Arguments Panic {A} why.

#[export] Instance go_ret : MRet go := @Ret.
#[export] Instance go_bind : MBind go :=
  fun A B f x => match x with Ret a => f a | Panic w => Panic w end.

(** * Machine integers: the wrap-around of each width the code uses. *)

Definition wrap_u32 (z : Z) : Z := (z mod 2 ^ 32)%Z.
Definition wrap_u64 (z : Z) : Z := (z mod 2 ^ 64)%Z.
Definition wrap_i64 (z : Z) : Z := ((z + 2 ^ 63) mod 2 ^ 64 - 2 ^ 63)%Z.

Declare Scope go_scope.
Notation "a == b" := (String.eqb a b) (at level 70) : go_scope.
Notation "a != b" := (negb (String.eqb a b)) (at level 70) : go_scope.
Open Scope go_scope.

(** * Record update: [r <| field := value |>] *)

Definition typed {R : Type} (_ : R) : Type := R.

(** Rebuilds a record with one of its fields replaced. *)
Ltac set_field f v :=
  let r := fresh "r" in
  intros r; change (typed r); destruct r;
  lazymatch goal with
  | |- typed ?t =>
      let x := eval cbn in (f t) in
      lazymatch t with context C [x] => let t' := context C [v] in exact t' end
  end.

Definition updated {R : Type} (r : R) (u : R -> R) : R := u r.
Arguments updated {R} r u /.

Notation "r <| f := v |>" := (updated r ltac:(set_field f v))
  (at level 1, left associativity, only parsing).

(** * Code over an environment: it runs operations one after another *)

Definition io (W A : Type) : Type := W -> A * W.
#[export] Instance io_ret {W} : MRet (io W) := fun A a w => (a, w).
#[export] Instance io_bind {W} : MBind (io W) := fun A B f m w => let '(a, w') := m w in f a w'.

Lemma io_bind_inv {W A B} (m : io W A) (f : A -> io W B) w r w' :
  (m ≫= f) w = (r, w') -> exists a w1, m w = (a, w1) /\ f a w1 = (r, w').
Proof. unfold mbind, io_bind. destruct (m w) as [a w1]. eauto. Qed.

(** * Shared tactics *)

(** Splits the boolean tests of a goal one at a time, keeping their equations. *)
Ltac case_test :=
  match goal with
  | |- context [if ?b then _ else _] => let E := fresh "E" in destruct b eqn:E
  | H : context [if ?b then _ else _] |- _ => let E := fresh "E" in destruct b eqn:E
  end.

(** Runs a sequence of Go statements as far as their values are known. *)
Ltac go_run := cbn [mbind go_bind mret go_ret].

(** * Arithmetic on circular indices *)

Lemma mod_below a b : (a < b)%nat -> a mod b = a.
Proof. apply Nat.mod_small. Qed.

Lemma mod_wrapped a b : (b <= a < 2 * b)%nat -> a mod b = (a - b)%nat.
Proof.
  intros [? ?]. replace a with ((a - b) + 1 * b)%nat at 1 by lia.
  rewrite Nat.Div0.mod_add. apply Nat.mod_small. lia.
Qed.

(** An index below twice the length wraps at most once. *)
Lemma mod_cases a b :
  (a < 2 * b)%nat ->
  (a < b /\ a mod b = a)%nat \/ (b <= a /\ a mod b = a - b)%nat.
Proof.
  intros. destruct (decide (a < b)%nat).
  - left. split; [done|]. by apply mod_below.
  - right. split; [lia|]. apply mod_wrapped. lia.
Qed.

Lemma lookup_seq_fmap {A} (f : nat -> A) n i :
  (f <$> seq 0 n) !! i = if decide (i < n)%nat then Some (f i) else None.
Proof.
  rewrite list_lookup_fmap. case_decide.
  - by rewrite lookup_seq_lt.
  - by rewrite lookup_seq_ge by lia.
Qed.

(** Elements told apart by a key. *)
Lemma nodup_fmap_inj {A B} (f : A -> B) (l : list A) x y :
  NoDup (f <$> l) -> x ∈ l -> y ∈ l -> f x = f y -> x = y.
Proof.
  intros Hl [i Hi]%list_elem_of_lookup [j Hj]%list_elem_of_lookup E.
  assert (i = j) as ->; [|congruence].
  eapply NoDup_lookup; [exact Hl|by rewrite list_lookup_fmap, Hi|].
  by rewrite list_lookup_fmap, Hj, E.
Qed.

(** A map that changes no element. *)
Lemma fmap_same {A} (f : A -> A) (l : list A) : (forall x, x ∈ l -> f x = x) -> f <$> l = l.
Proof.
  induction l as [|x l IH]; intros H; [done|].
  rewrite fmap_cons, H, IH by set_solver. done.
Qed.

(** * Sums over the threads of a transition system *)

Section tally.
Context {P : Type}.
Implicit Types (f : P -> nat) (m : gmap nat P).

Definition tally f m : nat :=
  map_fold (fun _ p n => f p + n)%nat 0%nat m.

Lemma tally_new f m t p : m !! t = None -> tally f (<[t := p]> m) = (f p + tally f m)%nat.
Proof. intros. unfold tally. rewrite map_fold_insert_L; [done|lia|done]. Qed.

Lemma tally_take f m t p : m !! t = Some p -> tally f m = (f p + tally f (delete t m))%nat.
Proof.
  intros H. rewrite <- (insert_delete_id m t p H) at 1. apply tally_new, lookup_delete_eq.
Qed.

Lemma tally_set f m t p p' :
  m !! t = Some p -> (tally f (<[t := p']> m) + f p = tally f m + f p')%nat.
Proof.
  intros H. rewrite (tally_take f m t p H), <- insert_delete_eq, tally_new by apply lookup_delete_eq. lia.
Qed.

Lemma tally_pos f m : (0 < tally f m)%nat -> exists t p, m !! t = Some p /\ (0 < f p)%nat.
Proof.
  induction m as [|t p m Hm IH] using map_ind; [by unfold tally; rewrite map_fold_empty; lia|].
  rewrite tally_new by done. intros H. destruct (f p) eqn:E.
  - destruct IH as (t' & p' & H1 & H2); [lia|]. exists t', p'. split; [|done].
    rewrite lookup_insert_ne; [done|]. congruence.
  - exists t, p. rewrite lookup_insert_eq. split; [done|lia].
Qed.

Lemma tally_le f m t p : m !! t = Some p -> (f p <= tally f m)%nat.
Proof. intros H. rewrite (tally_take f m t p H). lia. Qed.

Lemma tally_two f m t t' p p' :
  m !! t = Some p -> m !! t' = Some p' -> t <> t' -> (f p + f p' <= tally f m)%nat.
Proof.
  intros H H' Hne. rewrite (tally_take f m t p H), (tally_take f (delete t m) t' p').
  - lia.
  - by rewrite lookup_delete_ne.
Qed.

(** The only thread of its kind. *)
Lemma tally_sole f m t p :
  (tally f m <= 1)%nat -> m !! t = Some p -> f p = 1%nat ->
  forall t' q, t' <> t -> m !! t' = Some q -> f q = 0%nat.
Proof. intros H Ht Hp t' q Hne Hq. pose proof (tally_two f m t t' p q Ht Hq). lia. Qed.

(** A change of every entry that [f] does not see. *)
Lemma tally_fmap f (g : P -> P) m : (forall p, f (g p) = f p) -> tally f (g <$> m) = tally f m.
Proof.
  intros Hg. induction m as [|t p m Hm IH] using map_ind; [by rewrite fmap_empty|].
  rewrite fmap_insert, !tally_new, Hg, IH; [done|done|]. by rewrite lookup_fmap, Hm.
Qed.
End tally.
