(* ===== verification/GoStd.v ===== *)
(** The parts of the Go language and standard library that the modelled code
    uses: blank strings ([strings.TrimSpace]), byte-wise string order
    ([strings.Compare]), error values ([errors.Is], wrapping and joining),
    instants and durations ([time]), slices with their bounds checks, and the
    decimal and base64 text codecs of the status cursor. *)

From Stdlib Require Export SpecFloat.
From S2P Require Import Prelude.

(** * strings.TrimSpace

    A Go string is a byte sequence; the runes [unicode.IsSpace] accepts are
    six ASCII bytes, two two-byte and fifteen three-byte UTF-8 encodings. *)

Module Strings.

Definition byte_in (lo hi : N) (c : ascii) : bool :=
  (lo <=? N_of_ascii c)%N && (N_of_ascii c <=? hi)%N.

Definition space1 (a : ascii) : bool := byte_in 9 13 a || byte_in 32 32 a.

(** U+0085 and U+00A0. *)
Definition space2 (a b : ascii) : bool :=
  byte_in 194 194 a && (byte_in 133 133 b || byte_in 160 160 b).

(** U+1680, U+2000 to U+200A, U+2028, U+2029, U+202F, U+205F, U+3000. *)
Definition space3 (a b c : ascii) : bool :=
  (byte_in 225 225 a && byte_in 154 154 b && byte_in 128 128 c)
  || (byte_in 226 226 a && byte_in 128 128 b &&
      (byte_in 128 138 c || byte_in 168 169 c || byte_in 175 175 c))
  || (byte_in 226 226 a && byte_in 129 129 b && byte_in 159 159 c)
  || (byte_in 227 227 a && byte_in 128 128 b && byte_in 128 128 c).

(** Drops white space from the front. *)
Fixpoint TrimLeft (s : list ascii) : list ascii :=
  match s with
  | [] => []
  | a :: s1 =>
      if space1 a then TrimLeft s1
      else match s1 with
           | [] => s
           | b :: s2 =>
               if space2 a b then TrimLeft s2
               else match s2 with
                    | [] => s
                    | c :: s3 => if space3 a b c then TrimLeft s3 else s
                    end
           end
  end.

(** Drops white space from the end; the argument is the reversed string. *)
Fixpoint TrimLast (s : list ascii) : list ascii :=
  match s with
  | [] => []
  | a :: s1 =>
      if space1 a then TrimLast s1
      else match s1 with
           | [] => s
           | b :: s2 =>
               if space2 b a then TrimLast s2
               else match s2 with
                    | [] => s
                    | c :: s3 => if space3 c b a then TrimLast s3 else s
                    end
           end
  end.

Definition TrimSpace (s : string) : string :=
  string_of_list_ascii
    (reverse (TrimLast (reverse (TrimLeft (list_ascii_of_string s))))).

(** [blank s] is the test [strings.TrimSpace(s) == ""] of the source. *)
Definition blank (s : string) : bool := TrimSpace s == "".

(** [len(s)]: bytes. *)
Definition len (s : string) : Z := Z.of_nat (String.length s).

(** A string made of white-space runes only. *)
Inductive Spaces : list ascii -> Prop :=
| Spaces_nil : Spaces []
| Spaces_1 a s : space1 a = true -> Spaces s -> Spaces (a :: s)
| Spaces_2 a b s : space2 a b = true -> Spaces s -> Spaces (a :: b :: s)
| Spaces_3 a b c s : space3 a b c = true -> Spaces s -> Spaces (a :: b :: c :: s).

Lemma Spaces_app s t : Spaces s -> Spaces t -> Spaces (s ++ t).
Proof. induction 1; intros; simpl; eauto using Spaces. Qed.

(** A byte starts at most one kind of white-space encoding. *)
Lemma space1_not2 a b : space1 a = true -> space2 a b = false.
Proof. unfold space1, space2, byte_in. intros. lia. Qed.

Lemma space1_not3 a b c : space1 a = true -> space3 a b c = false.
Proof. unfold space1, space3, byte_in. intros. lia. Qed.

Lemma space2_not3 a b c : space2 a b = true -> space3 a b c = false.
Proof. unfold space2, space3, byte_in. intros. lia. Qed.

Lemma space2_not1 a b : space2 a b = true -> space1 a = false.
Proof. unfold space1, space2, byte_in. intros. lia. Qed.

Lemma space3_not1 a b c : space3 a b c = true -> space1 a = false.
Proof. unfold space1, space3, byte_in. intros. lia. Qed.

Lemma space3_not2 a b c : space3 a b c = true -> space2 a b = false.
Proof. unfold space2, space3, byte_in. intros. lia. Qed.

(** [TrimLeft] splits its argument into white space and a remainder. *)
Lemma TrimLeft_split n s :
  (length s <= n)%nat -> exists p, s = p ++ TrimLeft s /\ Spaces p.
Proof.
  revert s; induction n as [|n IH]; intros s Hn.
  { destruct s; [|simpl in Hn; lia]. exists []. eauto using Spaces. }
  destruct s as [|a s1]; [exists []; eauto using Spaces|].
  simpl in Hn. simpl.
  destruct (space1 a) eqn:H1.
  { destruct (IH s1) as (p & Hp & ?); [lia|].
    exists (a :: p). split; [simpl; congruence | eauto using Spaces]. }
  destruct s1 as [|b s2]; [exists []; eauto using Spaces|].
  destruct (space2 a b) eqn:H2.
  { destruct (IH s2) as (p & Hp & ?); [simpl in Hn; lia|].
    exists (a :: b :: p). split; [simpl; congruence | eauto using Spaces]. }
  destruct s2 as [|c s3]; [exists []; eauto using Spaces|].
  destruct (space3 a b c) eqn:H3; [|exists []; eauto using Spaces].
  destruct (IH s3) as (p & Hp & ?); [simpl in Hn; lia|].
  exists (a :: b :: c :: p). split; [simpl; congruence | eauto using Spaces].
Qed.

Lemma TrimLeft_Spaces s : Spaces s -> TrimLeft s = [].
Proof.
  induction 1 as [|a s Ha _ IH|a b s Ha _ IH|a b c s Ha _ IH]; simpl.
  - done.
  - by rewrite Ha.
  - by rewrite (space2_not1 _ _ Ha), Ha.
  - by rewrite (space3_not1 _ _ _ Ha), (space3_not2 _ _ _ Ha), Ha.
Qed.

Lemma TrimLast_split n s :
  (length s <= n)%nat ->
  exists p, reverse s = reverse (TrimLast s) ++ p /\ Spaces p.
Proof.
  revert s; induction n as [|n IH]; intros s Hn.
  { destruct s; [|simpl in Hn; lia]. exists []. eauto using Spaces. }
  destruct s as [|a s1]; [exists []; eauto using Spaces|].
  simpl in Hn. simpl.
  assert (Hdone : forall l : list ascii, exists p, reverse l = reverse l ++ p /\ Spaces p).
  { intros l. exists []. rewrite app_nil_r. eauto using Spaces. }
  destruct (space1 a) eqn:H1.
  { destruct (IH s1) as (p & Hp & ?); [lia|].
    exists (p ++ [a]). rewrite reverse_cons, Hp, app_assoc.
    eauto using Spaces_app, Spaces. }
  destruct s1 as [|b s2]; [apply Hdone|].
  destruct (space2 b a) eqn:H2.
  { destruct (IH s2) as (p & Hp & ?); [simpl in Hn; lia|].
    exists (p ++ [b; a]). rewrite !reverse_cons, Hp, <- !app_assoc.
    eauto using Spaces_app, Spaces. }
  destruct s2 as [|c s3]; [apply Hdone|].
  destruct (space3 c b a) eqn:H3; [|apply Hdone].
  destruct (IH s3) as (p & Hp & ?); [simpl in Hn; lia|].
  exists (p ++ [c; b; a]). rewrite !reverse_cons, Hp, <- !app_assoc.
  eauto using Spaces_app, Spaces.
Qed.

(** A string is blank exactly when it consists of white-space runes. *)
Lemma blank_iff s : blank s = true <-> Spaces (list_ascii_of_string s).
Proof.
  unfold blank, TrimSpace. set (l := list_ascii_of_string s).
  destruct (TrimLeft_split (length l) l (le_n _)) as (p & Hp & Hsp).
  set (m := TrimLeft l) in *.
  destruct (TrimLast_split (length (reverse m)) (reverse m) (le_n _)) as (q & Hq & Hsq).
  rewrite reverse_involutive in Hq.
  split; intros H.
  - apply String.eqb_eq in H.
    destruct (reverse (TrimLast (reverse m))) eqn:E; [|done].
    rewrite Hp, Hq. by apply Spaces_app.
  - assert (m = []) as -> by (by apply TrimLeft_Spaces). done.
Qed.

End Strings.
Export Strings.

(** * Byte-wise string order: strings.Compare and the order of slices.Sort *)

Module Order.

(** [strings.Compare(a, b) == -1]. *)
Definition Compare_lt (a b : string) : bool := String.ltb a b.

(** [slices.Sort] on strings. *)
Definition Sort (l : list string) : list string := merge_sort String.le l.

Lemma str_compare_refl a : (a ?= a)%string = Eq.
Proof.
  induction a as [|x a IH]; simpl; [done|].
  assert (Ascii.compare x x = Eq) as -> by (apply N.compare_refl). done.
Qed.

Lemma Compare_lt_iff a b : Compare_lt a b = true <-> ~ String.le b a.
Proof.
  unfold Compare_lt, String.le, String.leb, String.ltb.
  rewrite (String.compare_antisym b a). destruct (a ?= b)%string; simpl; naive_solver.
Qed.

Lemma Compare_lt_false a b : Compare_lt a b = false <-> String.le b a.
Proof.
  destruct (decide (String.le b a)) as [H|H].
  - split; [done|]. intros _. apply not_true_is_false. rewrite Compare_lt_iff. tauto.
  - pose proof (proj2 (Compare_lt_iff a b) H). split; [congruence|done].
Qed.

Lemma Compare_lt_total a b : Compare_lt a b = true \/ a = b \/ Compare_lt b a = true.
Proof.
  destruct (decide (String.le b a)) as [H|H]; [|left; by apply Compare_lt_iff].
  destruct (decide (String.le a b)) as [H'|H']; [|right; right; by apply Compare_lt_iff].
  right; left. by apply (anti_symm String.le).
Qed.

Lemma Sort_perm l : Sort l ≡ₚ l.
Proof. apply merge_sort_Permutation. Qed.

Lemma Sort_sorted l : StronglySorted String.le (Sort l).
Proof. apply StronglySorted_merge_sort; apply _. Qed.

(** Sorting forgets the order of its input. *)
Lemma Sort_perm_eq l k : l ≡ₚ k -> Sort l = Sort k.
Proof.
  intros H. apply (StronglySorted_unique String.le); try apply Sort_sorted.
  by rewrite !Sort_perm.
Qed.

End Order.
Export Order.

(** * Error values

    An interface value of type [error]: nil, a package-level sentinel (whose
    identity is its text, distinct across the repository), a fresh leaf
    ([errors.New] in an expression), the contract's [*ValidationError], a
    one-cause wrapper ([fmt.Errorf] with %w, [safeerr.Error]), a multi-cause
    wrapper ([errors.Join], [streamqueue.RequestError]) and
    [*management.Failure]. *)

Module Errors.

#[warnings="-register-all"] Inductive error : Type :=
| ErrNil
| Sentinel (text : string)
| Leaf (text : string)
| ValidationError (field problem : string)
| Wrap (text : string) (cause : error)
| Join (text : string) (errs : list error)
| FailureErr (classification code : string) (cause : error).

(** Induction through the children of [Join]. *)
Section error_induction.
Variable P : error -> Prop.
Hypothesis HNil : P ErrNil.
Hypothesis HSentinel : forall t, P (Sentinel t).
Hypothesis HLeaf : forall t, P (Leaf t).
Hypothesis HValidation : forall f p, P (ValidationError f p).
Hypothesis HWrap : forall t e, P e -> P (Wrap t e).
Hypothesis HJoin : forall t es, Forall P es -> P (Join t es).
Hypothesis HFailure : forall c k e, P e -> P (FailureErr c k e).

Fixpoint error_rect_full (e : error) : P e :=
  match e with
  | ErrNil => HNil
  | Sentinel t => HSentinel t
  | Leaf t => HLeaf t
  | ValidationError f p => HValidation f p
  | Wrap t e' => HWrap t e' (error_rect_full e')
  | Join t es =>
      HJoin t es
        ((fix go_list l : Forall P l :=
            match l with
            | [] => Forall_nil_2 P
            | x :: l' => Forall_cons_2 P x l' (error_rect_full x) (go_list l')
            end) es)
  | FailureErr c k e' => HFailure c k e' (error_rect_full e')
  end.
End error_induction.

Definition is_nil (e : error) : bool := match e with ErrNil => true | _ => false end.

Lemma is_nil_iff e : is_nil e = true <-> e = ErrNil.
Proof. by destruct e. Qed.

Lemma is_nil_nil e : negb (is_nil e) = false <-> e = ErrNil.
Proof. destruct e; done. Qed.

(** [errors.Is(err, target)] for a package-level target. *)
Fixpoint Is (e : error) (target : string) : bool :=
  match e with
  | Sentinel t => t == target
  | Wrap _ e' | FailureErr _ _ e' => Is e' target
  | Join _ es => existsb (fun x => Is x target) es
  | ErrNil | Leaf _ | ValidationError _ _ => false
  end.

(** [errors.Join]: nil arguments are dropped; all nil gives nil. *)
Definition errors_Join (es : list error) : error :=
  match List.filter (fun e => negb (is_nil e)) es with
  | [] => ErrNil
  | es' => Join "joined" es'
  end.

Definition DeadlineExceeded : string := "context deadline exceeded".
Definition Canceled : string := "context canceled".

End Errors.
Export Errors.

(** * time.Time and time.Duration

    An instant has a wall reading (nanoseconds since the zero time), possibly a
    monotonic reading, and a location; [==] compares all three, [After],
    [Before] and [Sub] use the monotonic readings when both operands have one. *)

Module GoTime.

Record Time := mkTime { wall : Z; mono : option Z; loc : nat }.

#[export] Instance Time_eq_dec : EqDecision Time.
Proof. solve_decision. Defined.

Definition zeroTime : Time := mkTime 0 None 0.
Definition IsZero (t : Time) : bool := (wall t =? 0)%Z.

(** [t.UTC()]: the same instant in UTC, without the monotonic reading. *)
Definition UTC (t : Time) : Time := mkTime (wall t) None 0.

Definition After (t u : Time) : bool :=
  match mono t, mono u with
  | Some a, Some b => (b <? a)%Z
  | _, _ => (wall u <? wall t)%Z
  end.

Definition Before (t u : Time) : bool := After u t.

Definition maxDuration : Z := (2 ^ 63 - 1)%Z.
Definition minDuration : Z := (- 2 ^ 63)%Z.

(** [t.Sub(u)] saturates at the bounds of the 64-bit duration. *)
Definition Sub (t u : Time) : Z :=
  let d := match mono t, mono u with
           | Some a, Some b => (a - b)%Z
           | _, _ => (wall t - wall u)%Z
           end in
  Z.max minDuration (Z.min maxDuration d).

Definition Nanosecond : Z := 1.
Definition Millisecond : Z := 1000000.
Definition Second : Z := 1000000000.
Definition Minute : Z := 60000000000.

End GoTime.
Export GoTime.

(** * Slices with Go's bounds checks *)

Module Slices.
Section slices.
Context {A : Type}.

Definition index (s : list A) (i : nat) : go A :=
  match s !! i with Some x => Ret x | None => Panic "index out of range" end.

Definition set_index (s : list A) (i : nat) (x : A) : go (list A) :=
  if (i <? length s)%nat then Ret (<[i := x]> s) else Panic "index out of range".

(** [s[lo:hi]], for a slice whose capacity is its length. *)
Definition slice (s : list A) (lo hi : nat) : go (list A) :=
  if (lo <=? hi)%nat && (hi <=? length s)%nat
  then Ret (take (hi - lo) (drop lo s)) else Panic "slice bounds out of range".

(** [copy(dst[off:], src)]: panics when [off] is out of range, copies as much
    as fits otherwise. *)
Definition copy_at (dst : list A) (off : nat) (src : list A) : go (list A) :=
  if (off <=? length dst)%nat
  then let n := Nat.min (length dst - off) (length src) in
       Ret (take off dst ++ take n src ++ drop (off + n) dst)
  else Panic "slice bounds out of range".

Definition modulo (a b : nat) : go nat :=
  if (b =? 0)%nat then Panic "integer divide by zero" else Ret (a mod b).

End slices.

End Slices.
Export Slices.

(** * float64: IEEE binary64 values in canonical form *)

Module Float64.

Definition float64 := spec_float.

Definition IsNaN (f : float64) : bool := match f with S754_nan => true | _ => false end.
Definition IsInf (f : float64) : bool := match f with S754_infinity _ => true | _ => false end.
Definition float_lt (a b : float64) : bool := SFltb a b.
Definition float_eq (a b : float64) : bool := SFeqb a b.

Definition zero64 : float64 := S754_zero false.
Definition one64 : float64 := S754_finite false 4503599627370496 (-52).
Definition two64 : float64 := S754_finite false 4503599627370496 (-51).

End Float64.
Export Float64.

(** * Iteration over a map[string]string: some permutation of its entries *)

Definition entries (m : option (gmap string string)) : list (string * string) :=
  match m with Some m => map_to_list m | None => [] end.

(** [len] of a possibly nil map. *)
Definition map_len (m : option (gmap string string)) : Z :=
  match m with Some m => Z.of_nat (size m) | None => 0 end.
