(* ===== verification/Sentinels.v ===== *)
(** Package-level error values of the root package ([errors.go], [queue.go]) and of
    the management contract ([management/errors.go]). *)

From S2P Require Import Prelude GoStd.

Definition ErrNoTaskInQueue : error := Sentinel "golang-queue: no task in queue".
Definition ErrQueueHasBeenClosed : error := Sentinel "golang-queue: queue has been closed".
Definition ErrMaxCapacity : error := Sentinel "golang-queue: maximum size limit reached".
Definition ErrInvalidConfiguration : error := Sentinel "golang-queue: invalid configuration".
Definition ErrHandlerPanic : error := Sentinel "golang-queue: handler panic".
Definition ErrSettlementPanic : error := Sentinel "golang-queue: settlement panic".
Definition ErrWorkerShutdownPanic : error := Sentinel "golang-queue: worker shutdown panic".
Definition ErrQueueShutdown : error := Sentinel "queue has been closed and released".

Definition ErrRecordNotFound : error := Sentinel "management: record not found".
Definition ErrUnsupportedCapability : error := Sentinel "management: unsupported capability".
Definition ErrManagementUnavailable : error := Sentinel "management: unavailable".
Definition ErrMalformedCursor : error := Sentinel "management: malformed cursor".
Definition ErrInvalidFilter : error := Sentinel "management: invalid filter".
Definition ErrStaleRecord : error := Sentinel "management: stale record".
Definition ErrMutationConflict : error := Sentinel "management: mutation conflict".
Definition ErrPartialMutation : error := Sentinel "management: partial mutation".
Definition ErrUnknownMutation : error := Sentinel "management: unknown mutation outcome".
