(* ===== verification/Ring.v ===== *)
(** The in-memory worker of [ring.go]: a circular buffer that doubles when it
    is full and halves at half occupancy, with a one-shot drained signal.

    The file has the code's operations, the buffer invariant, the refinement to
    an unbounded-array-free FIFO, and the interleavings of [Queue], [Request]
    and the two phases of [stopIntake]. *)

From S2P Require Import Prelude GoStd Sentinels.

(** Errors of [errors.go] and [queue.go] that the ring returns. *)

Section ring.
Context {T : Type}.

(** A [core.TaskMessage] interface value; [None] is nil. *)
Abbreviation TaskMessage := (option T).

Record Ring := mkRing {
  taskQueue : list TaskMessage;
  capacity : Z;
  count : nat;
  head : nat;
  tail : nat;
  exit_closed : bool;
  exitOnce : bool;
  stopFlag : bool
}.

(** [NewRing], for the [queueSize] selected by its options. *)
Definition NewRing (queueSize : Z) : go Ring :=
  if (queueSize <? 0)%Z then Panic "queue size cannot be negative"
  else Ret (mkRing [None; None] queueSize 0 0 0 false false false).

Definition signalExit (s : Ring) : go Ring :=
  if exitOnce s then Ret s
  else if exit_closed s then Panic "close of closed channel"
  else Ret (mkRing (taskQueue s) (capacity s) (count s) (head s) (tail s)
              true true (stopFlag s)).

Definition resize (n : nat) (q : Ring) : go Ring :=
  let nodes := replicate n None in
  nodes ← (if (head q <? tail q)%nat then
             part ← slice (taskQueue q) (head q) (tail q);
             copy_at nodes 0 part
           else
             part1 ← slice (taskQueue q) (head q) (length (taskQueue q));
             nodes ← copy_at nodes 0 part1;
             part2 ← slice (taskQueue q) 0 (tail q);
             copy_at nodes (length (taskQueue q) - head q) part2);
  t ← modulo (count q) n;
  Ret (mkRing nodes (capacity q) (count q) 0 t (exit_closed q) (exitOnce q) (stopFlag q)).

Definition Queue (task : TaskMessage) (s : Ring) : go (Ring * error) :=
  if stopFlag s then Ret (s, ErrQueueShutdown)
  else if (0 <? capacity s)%Z && (capacity s <=? Z.of_nat (count s))%Z
  then Ret (s, ErrMaxCapacity)
  else
    s ← (if (count s =? length (taskQueue s))%nat then resize (count s * 2) s else Ret s);
    q ← set_index (taskQueue s) (tail s) task;
    t ← modulo (tail s + 1) (length q);
    Ret (mkRing q (capacity s) (count s + 1) (head s) t
           (exit_closed s) (exitOnce s) (stopFlag s), ErrNil).

(** [Request] loads the stop flag twice; [flag1] and [flag2] are what it saw. *)
Definition Request_at (flag1 flag2 : bool) (s : Ring) : go (Ring * TaskMessage * error) :=
  if flag1 && (count s =? 0)%nat
  then s ← signalExit s; Ret (s, None, ErrQueueHasBeenClosed)
  else if (count s =? 0)%nat then Ret (s, None, ErrNoTaskInQueue)
  else
    data ← index (taskQueue s) (head s);
    q ← set_index (taskQueue s) (head s) None;
    h ← modulo (head s + 1) (length q);
    let s1 := mkRing q (capacity s) (count s - 1) h (tail s)
                (exit_closed s) (exitOnce s) (stopFlag s) in
    s2 ← (if flag2 && (count s1 =? 0)%nat then signalExit s1 else Ret s1);
    let n := (length (taskQueue s2) / 2)%nat in
    s3 ← (if (2 <=? n)%nat && (count s2 <=? n)%nat then resize n s2 else Ret s2);
    Ret (s3, data, ErrNil).

Definition Request (s : Ring) : go (Ring * TaskMessage * error) :=
  Request_at (stopFlag s) (stopFlag s) s.

(** [stopIntake] sets the flag by compare-and-swap, then takes the lock. *)
Definition stopIntake_cas (s : Ring) : Ring * bool :=
  if stopFlag s then (s, false)
  else (mkRing (taskQueue s) (capacity s) (count s) (head s) (tail s)
          (exit_closed s) (exitOnce s) true, true).

Definition stopIntake_locked (s : Ring) : go Ring :=
  if (count s =? 0)%nat then signalExit s else Ret s.

Definition stopIntake (s : Ring) : go (Ring * bool) :=
  match stopIntake_cas s with
  | (s, false) => Ret (s, false)
  | (s, true) => s ← stopIntake_locked s; Ret (s, true)
  end.

(** [Shutdown] returns an error at once when the flag was set before; else it
    waits for the exit signal: [Some ErrNil] once the signal is there, [None]
    while it blocks. *)
Definition Shutdown (s : Ring) : go (Ring * option error) :=
  r ← stopIntake s;
  let '(s, won) := r : Ring * bool in
  Ret (s, if won then (if exit_closed s then Some ErrNil else None)
          else Some ErrQueueShutdown).

(** The queued tasks, oldest first. *)
Definition slot (q : list TaskMessage) (i : nat) : TaskMessage := default None (q !! i).

Definition contents (s : Ring) : list TaskMessage :=
  (fun i => slot (taskQueue s) ((head s + i) mod length (taskQueue s))) <$> seq 0 (count s).

(** The window between [head] and [tail] is consistent. *)
Record window (s : Ring) : Prop := {
  win_len : (2 <= length (taskQueue s))%nat;
  win_head : (head s < length (taskQueue s))%nat;
  win_count : (count s <= length (taskQueue s))%nat;
  win_tail : tail s = (head s + count s) mod length (taskQueue s)
}.

(** Slots outside the window hold no task reference. *)
Definition clear (s : Ring) : Prop :=
  forall i, (count s <= i < length (taskQueue s))%nat ->
  slot (taskQueue s) ((head s + i) mod length (taskQueue s)) = None.

(** The buffer length is a power of two, and beyond two slots more than half of
    the buffer is in use. *)
Definition shape (len cnt : nat) : Prop :=
  exists k, len = (2 * 2 ^ k)%nat /\ (k = 0%nat \/ (2 ^ k < cnt)%nat).

(** The invariant between operations: the buffer is never more than twice what
    it holds (beyond two slots), slots outside the window hold no task, the
    capacity is respected, and the exit signal means stopped and empty. *)
Record wf (s : Ring) : Prop := {
  wf_window : window s;
  wf_shape : shape (length (taskQueue s)) (count s);
  wf_clear : clear s;
  wf_capacity : (0 <= capacity s)%Z;
  wf_bound : (0 < capacity s)%Z -> (Z.of_nat (count s) <= capacity s)%Z;
  wf_once : exitOnce s = exit_closed s;
  wf_exit : exit_closed s = true -> stopFlag s = true /\ count s = 0%nat
}.

(** The contract: a bounded FIFO with a stop flag and a drained signal. *)
Record fifo := mkFifo { items : list TaskMessage; bound : Z; stopping : bool; drained : bool }.

Definition fifo_queue (t : TaskMessage) (f : fifo) : fifo * error :=
  if stopping f then (f, ErrQueueShutdown)
  else if (0 <? bound f)%Z && (bound f <=? Z.of_nat (length (items f)))%Z
  then (f, ErrMaxCapacity)
  else (mkFifo (items f ++ [t]) (bound f) (stopping f) (drained f), ErrNil).

Definition fifo_request (f : fifo) : fifo * TaskMessage * error :=
  match items f with
  | [] => if stopping f then (mkFifo [] (bound f) true true, None, ErrQueueHasBeenClosed)
          else (f, None, ErrNoTaskInQueue)
  | t :: rest =>
      (mkFifo rest (bound f) (stopping f)
         (drained f || stopping f && (length rest =? 0)%nat), t, ErrNil)
  end.

Definition fifo_stop (f : fifo) : fifo * bool :=
  if stopping f then (f, false)
  else (mkFifo (items f) (bound f) true (drained f || (length (items f) =? 0)%nat), true).

Definition abs (s : Ring) : fifo :=
  mkFifo (contents s) (capacity s) (stopFlag s) (exit_closed s).

End ring.
Arguments Ring T : clear implicits.
Arguments fifo T : clear implicits.

Section ring_facts.
Context {T : Type}.
Implicit Types (s : Ring T) (t : option T).

Lemma length_contents s : length (contents s) = count s.
Proof. unfold contents. by rewrite length_fmap, length_seq. Qed.

Lemma contents_empty s : contents s = [] <-> count s = 0%nat.
Proof. rewrite <- length_contents. destruct (contents s); naive_solver. Qed.

Lemma lookup_contents s i :
  contents s !! i =
    if decide (i < count s)%nat
    then Some (slot (taskQueue s) ((head s + i) mod length (taskQueue s))) else None.
Proof. unfold contents. by rewrite lookup_seq_fmap. Qed.

Lemma slot_lookup (q : list (option T)) i :
  (i < length q)%nat -> q !! i = Some (slot q i).
Proof. intros H. unfold slot. destruct (lookup_lt_is_Some_2 q i H) as [x ->]. done. Qed.

(** The window as one or two segments of the backing array. *)
Lemma contents_straight s :
  (head s + count s <= length (taskQueue s))%nat ->
  contents s = take (count s) (drop (head s) (taskQueue s)).
Proof.
  intros H. apply list_eq. intros i. rewrite lookup_contents. case_decide.
  - rewrite lookup_take_lt, lookup_drop, mod_below by lia.
    rewrite slot_lookup by lia. done.
  - rewrite lookup_take_ge by lia. done.
Qed.

Lemma contents_wrapped s :
  window s -> (length (taskQueue s) <= head s + count s)%nat ->
  contents s = drop (head s) (taskQueue s) ++ take (tail s) (taskQueue s).
Proof.
  intros [H1 H2 H3 H4] H. set (n := length (taskQueue s)) in *.
  apply list_eq. intros i. rewrite lookup_contents. fold n.
  assert (Ht : (tail s = head s + count s - n)%nat).
  { rewrite H4. apply mod_wrapped. lia. }
  destruct (decide (head s + i < n)%nat).
  - rewrite lookup_app_l by (rewrite length_drop; lia).
    rewrite lookup_drop, mod_below, slot_lookup by lia. by case_decide; [|lia].
  - rewrite lookup_app_r by (rewrite length_drop; lia).
    rewrite length_drop. fold n. case_decide.
    + rewrite mod_wrapped by lia. rewrite lookup_take_lt, slot_lookup by lia.
      do 2 f_equal. lia.
    + by rewrite lookup_take_ge by lia.
Qed.

Lemma copy_at_replicate (n off : nat) (front src : list (option T)) :
  length front = off -> (off + length src <= n)%nat ->
  copy_at (front ++ replicate (n - off) None) off src
  = Ret (front ++ src ++ replicate (n - off - length src) None).
Proof.
  intros <- H. unfold copy_at.
  rewrite !length_app, length_replicate.
  destruct (_ <=? _)%nat eqn:E; [|lia].
  replace (Nat.min _ _) with (length src) by lia.
  rewrite take_app_length, (firstn_all src).
  rewrite drop_app_ge by lia.
  replace (_ - _)%nat with (length src) by lia.
  by rewrite drop_replicate.
Qed.

Lemma copy_at_fresh (n : nat) (src : list (option T)) :
  (length src <= n)%nat ->
  copy_at (replicate n None) 0 src = Ret (src ++ replicate (n - length src) None).
Proof.
  intros H. pose proof (copy_at_replicate n 0 [] src eq_refl H) as E.
  by rewrite Nat.sub_0_r in E.
Qed.

(** [resize] moves the queued tasks to the front of a fresh buffer and never
    runs out of a slice, whenever the tasks fit and the window is not empty. *)
Lemma resize_spec s (n : nat) :
  window s -> (0 < count s <= n)%nat ->
  resize n s = Ret (mkRing (contents s ++ replicate (n - count s) None) (capacity s)
                      (count s) 0 (count s mod n) (exit_closed s) (exitOnce s) (stopFlag s)).
Proof.
  intros Hw Hn. pose proof Hw as [H1 H2 H3 H4]. unfold resize, modulo.
  destruct (n =? 0)%nat eqn:E0; [lia|].
  set (m := length (taskQueue s)) in *.
  destruct (mod_cases (head s + count s) m) as [[Hlt Hm]|[Hge Hm]]; [lia| |];
    rewrite Hm in H4.
  - destruct (head s <? tail s)%nat eqn:E; [|lia].
    unfold slice. fold m. rewrite (proj2 (andb_true_iff _ _)) by lia. go_run.
    rewrite copy_at_fresh by (rewrite length_take, length_drop; lia).
    go_run. rewrite contents_straight by lia.
    rewrite length_take, length_drop. fold m.
    do 4 f_equal; [f_equal; lia | lia..].
  - destruct (head s <? tail s)%nat eqn:E; [lia|].
    unfold slice. fold m.
    rewrite (proj2 (andb_true_iff (head s <=? m)%nat _)) by lia. go_run.
    assert (Hl : length (take (m - head s) (drop (head s) (taskQueue s))) = (m - head s)%nat).
    { rewrite length_take, length_drop. fold m. lia. }
    rewrite copy_at_fresh by lia. go_run.
    rewrite (proj2 (andb_true_iff (0 <=? tail s)%nat _)) by lia. go_run.
    rewrite Nat.sub_0_r, drop_0, Hl.
    rewrite copy_at_replicate by (rewrite ?length_take, ?length_drop; fold m; lia). go_run.
    rewrite (contents_wrapped s) by (done || (fold m; lia)).
    rewrite (take_ge (drop _ _)) by (rewrite length_drop; fold m; lia).
    rewrite length_take, <- app_assoc. fold m.
    replace (n - (m - head s) - Nat.min (tail s) m)%nat with (n - count s)%nat by lia.
    done.
Qed.

(** What [resize] leaves: the tasks at the front of a buffer of [n] slots. *)
Definition packed s (n : nat) : Ring T :=
  mkRing (contents s ++ replicate (n - count s) None) (capacity s)
    (count s) 0 (count s mod n) (exit_closed s) (exitOnce s) (stopFlag s).

Lemma packed_length s n : (count s <= n)%nat -> length (taskQueue (packed s n)) = n.
Proof. intros. simpl. rewrite length_app, length_contents, length_replicate. lia. Qed.

Lemma packed_window s n : (2 <= n)%nat -> (count s <= n)%nat -> window (packed s n).
Proof. intros. split; rewrite ?packed_length by done; simpl; lia || done. Qed.

Lemma packed_contents s n : (count s <= n)%nat -> contents (packed s n) = contents s.
Proof.
  intros H. rewrite contents_straight by (rewrite packed_length; simpl; lia).
  simpl. rewrite drop_0. rewrite <- (length_contents s). by rewrite take_app_length.
Qed.

Lemma packed_clear s n : (count s <= n)%nat -> clear (packed s n).
Proof.
  intros H i. rewrite packed_length by done. simpl. intros Hi.
  rewrite mod_below by lia. unfold slot.
  rewrite lookup_app_r by (rewrite length_contents; lia).
  rewrite length_contents. by rewrite lookup_replicate_2 by lia.
Qed.

Lemma mod_window_inj h i j n :
  (h < n)%nat -> (i < n)%nat -> (j < n)%nat ->
  (h + i) mod n = (h + j) mod n -> i = j.
Proof.
  intros. destruct (mod_cases (h + i) n); destruct (mod_cases (h + j) n); lia.
Qed.

Lemma slot_insert_ne (q : list (option T)) i j t : i <> j -> slot (<[i := t]> q) j = slot q j.
Proof. intros. unfold slot. by rewrite list_lookup_insert_ne. Qed.

Lemma slot_insert_eq (q : list (option T)) i t :
  (i < length q)%nat -> slot (<[i := t]> q) i = t.
Proof. intros. unfold slot. by rewrite list_lookup_insert_eq. Qed.

(** Storing a task at [tail] appends it. *)
Definition pushed s t : Ring T :=
  mkRing (<[tail s := t]> (taskQueue s)) (capacity s) (count s + 1) (head s)
    ((tail s + 1) mod length (taskQueue s)) (exit_closed s) (exitOnce s) (stopFlag s).

Lemma pushed_window s t :
  window s -> (count s < length (taskQueue s))%nat -> window (pushed s t).
Proof.
  intros [H1 H2 H3 H4] H. split; simpl; rewrite ?length_insert; try lia.
  rewrite H4, Nat.Div0.add_mod_idemp_l. f_equal. lia.
Qed.

Lemma pushed_contents s t :
  window s -> (count s < length (taskQueue s))%nat ->
  contents (pushed s t) = contents s ++ [t].
Proof.
  intros [H1 H2 H3 H4] H. unfold contents. simpl.
  rewrite length_insert, seq_app, fmap_app. simpl. f_equal.
  - apply list_fmap_ext. intros k i Hi%lookup_seq. rewrite slot_insert_ne; [done|].
    rewrite H4. intros E%mod_window_inj; lia.
  - by rewrite <- H4, slot_insert_eq by (rewrite H4; apply Nat.mod_upper_bound; lia).
Qed.

Lemma pushed_clear s t :
  window s -> (count s < length (taskQueue s))%nat -> clear s -> clear (pushed s t).
Proof.
  intros [H1 H2 H3 H4] H Hc i. simpl. rewrite length_insert. intros Hi.
  rewrite slot_insert_ne; [apply Hc; lia|].
  rewrite H4. intros E%mod_window_inj; lia.
Qed.

(** Taking the task at [head] removes the oldest one and clears its slot. *)
Definition popped s : Ring T :=
  mkRing (<[head s := None]> (taskQueue s)) (capacity s) (count s - 1)
    ((head s + 1) mod length (taskQueue s)) (tail s) (exit_closed s) (exitOnce s) (stopFlag s).

Lemma popped_shift s i :
  window s ->
  ((head s + 1) mod length (taskQueue s) + i) mod length (taskQueue s)
  = (head s + S i) mod length (taskQueue s).
Proof. intros [H1 H2 H3 H4]. rewrite Nat.Div0.add_mod_idemp_l. f_equal. lia. Qed.

Lemma popped_window s : window s -> (0 < count s)%nat -> window (popped s).
Proof.
  intros Hw H. pose proof Hw as [H1 H2 H3 H4].
  split; simpl; rewrite ?length_insert; try lia.
  rewrite popped_shift by done. rewrite H4. f_equal. lia.
Qed.

Lemma popped_contents s :
  window s -> (0 < count s)%nat ->
  contents s = slot (taskQueue s) (head s) :: contents (popped s).
Proof.
  intros Hw H. pose proof Hw as [H1 H2 H3 H4].
  apply list_eq. intros [|i]; rewrite lookup_contents.
  - rewrite decide_True by done. simpl. by rewrite Nat.add_0_r, mod_below.
  - simpl. rewrite lookup_contents. simpl. rewrite length_insert.
    destruct (decide (S i < count s)%nat); [rewrite decide_True by lia|by rewrite decide_False by lia].
    rewrite popped_shift by done. rewrite slot_insert_ne; [done|].
    rewrite <- (mod_below (head s) (length (taskQueue s))) at 1 by lia.
    rewrite <- (Nat.add_0_r (head s)) at 1. intros E%mod_window_inj; lia.
Qed.

Lemma popped_clear s : window s -> (0 < count s)%nat -> clear s -> clear (popped s).
Proof.
  intros Hw H Hc i. pose proof Hw as [H1 H2 H3 H4]. simpl. rewrite length_insert. intros Hi.
  rewrite popped_shift by done.
  destruct (decide (S i = length (taskQueue s))) as [E|E].
  - rewrite E. rewrite mod_wrapped by lia.
    rewrite Nat.add_sub. by apply slot_insert_eq.
  - rewrite slot_insert_ne; [apply Hc; lia|].
    rewrite <- (mod_below (head s) (length (taskQueue s))) at 1 by lia.
    rewrite <- (Nat.add_0_r (head s)) at 1. intros E'%mod_window_inj; lia.
Qed.

End ring_facts.

Section ring_refinement.
Context {T : Type}.
Implicit Types (s : Ring T) (t : option T).

Definition exited s : Ring T :=
  mkRing (taskQueue s) (capacity s) (count s) (head s) (tail s) true true (stopFlag s).

Lemma signalExit_spec s : exitOnce s = exit_closed s -> signalExit s = Ret (exited s).
Proof. destruct s as [??????[] ?]; simpl; by intros <-. Qed.

Lemma exited_contents s : contents (exited s) = contents s.
Proof. done. Qed.

(** The state in which [Queue] stores the task: grown when the buffer was full. *)
Definition roomy s : Ring T :=
  if (count s =? length (taskQueue s))%nat then packed s (count s * 2) else s.

Lemma roomy_facts s :
  window s -> clear s ->
  window (roomy s) /\ clear (roomy s) /\ contents (roomy s) = contents s /\
  (count s < length (taskQueue (roomy s)))%nat /\ count (roomy s) = count s.
Proof.
  intros Hw Hc. pose proof Hw as [H1 H2 H3 H4]. unfold roomy. case_test.
  - rewrite packed_length, packed_contents by lia.
    split_and!; try done; try lia; [apply packed_window; lia | apply packed_clear; lia].
  - split_and!; auto; lia.
Qed.

Lemma roomy_shape s :
  window s -> shape (length (taskQueue s)) (count s) ->
  shape (length (taskQueue (roomy s))) (count s + 1).
Proof.
  intros [H1 H2 H3 H4] (k & Hk & Hc). unfold roomy. case_test.
  - rewrite packed_length by lia. exists (S k). rewrite Nat.pow_succ_r'. lia.
  - exists k. lia.
Qed.

Lemma Queue_stores s t :
  window s -> clear s -> stopFlag s = false ->
  ((0 <? capacity s)%Z && (capacity s <=? Z.of_nat (count s))%Z) = false ->
  Queue t s = Ret (pushed (roomy s) t, ErrNil).
Proof.
  intros Hw Hc Hs Hb. unfold Queue. rewrite Hs, Hb.
  assert ((if (count s =? length (taskQueue s))%nat then resize (count s * 2) s else Ret s)
          = Ret (roomy s)) as ->.
  { unfold roomy. case_test; [|done]. pose proof Hw as [H1 H2 H3 H4].
    apply resize_spec; [done|lia]. }
  go_run. destruct (roomy_facts s Hw Hc) as ([H1 H2 H3 H4] & _ & _ & H5 & H6).
  unfold set_index, modulo. rewrite (proj2 (Nat.ltb_lt _ _)) by lia. go_run.
  rewrite length_insert. destruct (length (taskQueue (roomy s)) =? 0)%nat eqn:E; [lia|].
  done.
Qed.

Lemma roomy_static s :
  capacity (roomy s) = capacity s /\ stopFlag (roomy s) = stopFlag s /\
  exit_closed (roomy s) = exit_closed s /\ exitOnce (roomy s) = exitOnce s.
Proof. unfold roomy. by case_test. Qed.

Lemma Queue_refines s t :
  wf s ->
  exists s' e, Queue t s = Ret (s', e) /\ wf s' /\ fifo_queue t (abs s) = (abs s', e).
Proof.
  intros Hwf. pose proof Hwf as [Hw Ht Hc Hcap Hb Ho He].
  unfold fifo_queue. simpl. rewrite length_contents.
  destruct (stopFlag s) eqn:Es.
  { exists s, ErrQueueShutdown. unfold Queue. by rewrite Es. }
  case_test.
  { exists s, ErrMaxCapacity. unfold Queue. by rewrite Es, E. }
  exists (pushed (roomy s) t), ErrNil. rewrite Queue_stores by done.
  destruct (roomy_facts s Hw Hc) as (H1 & H2 & H3 & H4 & H5).
  destruct (roomy_static s) as (R1 & R2 & R3 & R4).
  split_and!; [done| |].
  - split; simpl; rewrite ?length_insert, ?R1, ?R2, ?R3, ?R4, ?H5.
    + apply pushed_window; [done|lia].
    + by apply roomy_shape.
    + apply pushed_clear; [done|lia|done].
    + done.
    + lia.
    + done.
    + intros Hx. destruct (He Hx). congruence.
  - unfold abs. rewrite pushed_contents by (done || lia). simpl.
    by rewrite H3, R1, R2, R3, Es.
Qed.

(** [Request] with the shrink step spelled out. *)
Definition shrunk s : Ring T :=
  let n := (length (taskQueue s) / 2)%nat in
  if (2 <=? n)%nat && (count s <=? n)%nat then packed s n else s.

Lemma shrunk_facts s :
  window s -> clear s -> shape (length (taskQueue s)) (count s + 1) ->
  (if (2 <=? length (taskQueue s) / 2)%nat && (count s <=? length (taskQueue s) / 2)%nat
   then resize (length (taskQueue s) / 2) s else Ret s) = Ret (shrunk s)
  /\ window (shrunk s) /\ clear (shrunk s) /\ contents (shrunk s) = contents s
  /\ count (shrunk s) = count s
  /\ shape (length (taskQueue (shrunk s))) (count s).
Proof.
  intros Hw Hc (k & Hk & Ht). pose proof Hw as [H1 H2 H3 H4]. unfold shrunk. cbv zeta.
  assert (length (taskQueue s) / 2 = 2 ^ k)%nat as Hn.
  { rewrite Hk, Nat.mul_comm. by apply Nat.div_mul. }
  rewrite !Hn. case_test.
  - destruct k as [|k]; [simpl in E; lia|].
    rewrite packed_contents, packed_length by lia.
    split_and!; try done.
    + apply resize_spec; [done|lia].
    + apply packed_window; lia.
    + apply packed_clear. lia.
    + exists k. rewrite Nat.pow_succ_r' in *. lia.
  - split_and!; try done. exists k. split; [done|].
    destruct k as [|k]; [by left|right].
    assert (2 <= 2 ^ S k)%nat by (rewrite Nat.pow_succ_r'; pose proof (Nat.pow_nonzero 2 k); lia).
    lia.
Qed.

(** After the dequeue: the exit signal when this was the last task of a stopped
    ring, then the shrink. *)
Definition settled (flag : bool) s : Ring T :=
  if flag && (count s =? 0)%nat then exited s else s.

Lemma settled_facts flag s :
  window s -> clear s ->
  window (settled flag s) /\ clear (settled flag s) /\ contents (settled flag s) = contents s
  /\ count (settled flag s) = count s /\ taskQueue (settled flag s) = taskQueue s.
Proof.
  intros [H1 H2 H3 H4] Hc. unfold settled. case_test; [|done].
  by split_and!; [split|..].
Qed.

Lemma Request_takes flag1 flag2 s :
  wf s -> (0 < count s)%nat ->
  Request_at flag1 flag2 s
  = Ret (shrunk (settled flag2 (popped s)), slot (taskQueue s) (head s), ErrNil).
Proof.
  intros [Hw (k & Hk & Ht) Hc Hcap Hb Ho He] Hn. pose proof Hw as [H1 H2 H3 H4].
  unfold Request_at. destruct (count s =? 0)%nat eqn:E; [lia|].
  rewrite andb_false_r. unfold index. rewrite slot_lookup by lia. go_run.
  unfold set_index, modulo. rewrite (proj2 (Nat.ltb_lt _ _)) by lia. go_run.
  rewrite length_insert. destruct (length (taskQueue s) =? 0)%nat eqn:E'; [lia|]. go_run.
  change (mkRing _ _ _ _ _ _ _ _) with (popped s).
  assert ((if flag2 && (count (popped s) =? 0)%nat
           then signalExit (popped s) else Ret (popped s)) = Ret (settled flag2 (popped s))) as ->.
  { unfold settled. case_test; [by apply signalExit_spec|done]. }
  go_run. destruct (settled_facts flag2 (popped s)) as (S1 & S2 & S3 & S4 & S5);
    [by apply popped_window | by apply popped_clear |].
  destruct (shrunk_facts (settled flag2 (popped s)) S1 S2) as (-> & _); [|done].
  rewrite S4, S5. simpl. rewrite length_insert. exists k. lia.
Qed.

Lemma shrunk_static s :
  capacity (shrunk s) = capacity s /\ stopFlag (shrunk s) = stopFlag s /\
  exit_closed (shrunk s) = exit_closed s /\ exitOnce (shrunk s) = exitOnce s.
Proof. unfold shrunk. by case_test. Qed.

Lemma settled_static flag s :
  capacity (settled flag s) = capacity s /\ stopFlag (settled flag s) = stopFlag s /\
  exit_closed (settled flag s) = exit_closed s || flag && (count s =? 0)%nat /\
  exitOnce (settled flag s) = exitOnce s || flag && (count s =? 0)%nat.
Proof.
  unfold settled. case_test; simpl.
  - by rewrite !orb_true_r.
  - by rewrite !orb_false_r.
Qed.

Lemma take_facts s :
  wf s -> (0 < count s)%nat ->
  let s' := shrunk (settled (stopFlag s) (popped s)) in
  wf s' /\ contents s = slot (taskQueue s) (head s) :: contents s' /\
  capacity s' = capacity s /\ stopFlag s' = stopFlag s /\
  exit_closed s' = exit_closed s || stopFlag s && (count s - 1 =? 0)%nat.
Proof.
  intros [Hw (k & Hk & Ht) Hc Hcap Hb Ho He] Hn s'.
  destruct (settled_facts (stopFlag s) (popped s)) as (S1 & S2 & S3 & S4 & S5);
    [by apply popped_window | by apply popped_clear |].
  destruct (shrunk_facts _ S1 S2) as (_ & W & C & Con & Cnt & Sh).
  { rewrite S4, S5. simpl. rewrite length_insert. exists k. lia. }
  destruct (shrunk_static (settled (stopFlag s) (popped s))) as (R1 & R2 & R3 & R4).
  destruct (settled_static (stopFlag s) (popped s)) as (Q1 & Q2 & Q3 & Q4).
  fold s' in W, C, Con, Cnt, Sh, R1, R2, R3, R4. rewrite S4 in Cnt, Sh. simpl in *.
  split_and!; try congruence.
  - split; rewrite ?R1, ?R2, ?R3, ?R4, ?Q1, ?Q2, ?Q3, ?Q4, ?Cnt; try done.
    + clear - Hb. lia.
    + by rewrite Ho.
    + intros [Hx|Hx]%orb_true_iff; [destruct (He Hx) as [_ Hz]; clear - Hz Hn; lia|].
      apply andb_true_iff in Hx as [? ?%Nat.eqb_eq]. auto.
  - rewrite Con, S3. by apply popped_contents.
Qed.

Lemma wf_exited s : wf s -> stopFlag s = true -> count s = 0%nat -> wf (exited s).
Proof. intros [[H1 H2 H3 H4] Hs Hc Hcap Hb Ho He] ??. by repeat split. Qed.

Lemma Request_refines s :
  wf s ->
  exists s' d e, Request s = Ret (s', d, e) /\ wf s' /\ fifo_request (abs s) = (abs s', d, e).
Proof.
  intros Hwf. unfold Request, fifo_request. simpl.
  destruct (decide (count s = 0%nat)) as [Hz|Hz].
  - rewrite (proj2 (contents_empty s) Hz). unfold Request_at. rewrite Hz. simpl.
    destruct (stopFlag s) eqn:Es; simpl.
    + rewrite signalExit_spec by apply Hwf. exists (exited s), None, ErrQueueHasBeenClosed.
      split_and!; [done | by apply wf_exited |].
      unfold abs. rewrite exited_contents, (proj2 (contents_empty s) Hz). simpl. by rewrite Es.
    + exists s, None, ErrNoTaskInQueue. split_and!; [done..|].
      unfold abs. by rewrite Es, (proj2 (contents_empty s) Hz).
  - destruct (take_facts s Hwf) as (W & Con & F1 & F2 & F3); [lia|].
    rewrite Request_takes by (done || lia). do 3 eexists. split_and!; [done|done|].
    set (s' := shrunk _) in *.
    assert (count s - 1 = length (contents s'))%nat as Hl.
    { rewrite <- (length_contents s), Con. simpl. lia. }
    rewrite Con. unfold abs. by rewrite F1, F2, F3, Hl.
Qed.

Lemma stopIntake_refines s :
  wf s ->
  exists s' b, stopIntake s = Ret (s', b) /\ wf s' /\ fifo_stop (abs s) = (abs s', b).
Proof.
  intros Hwf. unfold stopIntake, stopIntake_cas, fifo_stop. simpl. rewrite length_contents.
  destruct (stopFlag s) eqn:Es; [by exists s, false|].
  pose proof Hwf as [[H1 H2 H3 H4] Hs Hc Hcap Hb Ho He].
  assert (exit_closed s = false) as Hx.
  { destruct (exit_closed s) eqn:Hx; [|done]. destruct (He eq_refl). congruence. }
  unfold stopIntake_locked. simpl. case_test.
  - unfold signalExit. simpl. rewrite Ho, Hx. do 2 eexists. split; [done|]. split; [|done].
    apply Nat.eqb_eq in E. by repeat split.
  - do 2 eexists. split; [done|]. split; [|by rewrite orb_false_r].
    split; [by split|done..|]. simpl. congruence.
Qed.

End ring_refinement.

(** * Sequences and interleavings of ring operations *)

Section ring_runs.
Context {T : Type}.

Inductive op := OpQueue (t : option T) | OpRequest | OpStop.

Inductive res := RQueue (e : error) | RRequest (t : option T) (e : error) | RStop (won : bool).

Definition ring_op (o : op) (s : Ring T) : go (Ring T * res) :=
  match o with
  | OpQueue t => r ← Queue t s; let '(s, e) := r : Ring T * error in Ret (s, RQueue e)
  | OpRequest => r ← Request s; let '(s, t, e) := r : Ring T * option T * error in
                 Ret (s, RRequest t e)
  | OpStop => r ← stopIntake s; let '(s, b) := r : Ring T * bool in Ret (s, RStop b)
  end.

Definition fifo_op (o : op) (f : fifo T) : fifo T * res :=
  match o with
  | OpQueue t => let '(f, e) := fifo_queue t f in (f, RQueue e)
  | OpRequest => let '(f, t, e) := fifo_request f in (f, RRequest t e)
  | OpStop => let '(f, b) := fifo_stop f in (f, RStop b)
  end.

Fixpoint ring_run (ops : list op) (s : Ring T) : go (Ring T * list res) :=
  match ops with
  | [] => Ret (s, [])
  | o :: ops => r ← ring_op o s; let '(s, x) := r : Ring T * res in
                r ← ring_run ops s; let '(s, xs) := r : Ring T * list res in
                Ret (s, x :: xs)
  end.

Fixpoint fifo_run (ops : list op) (f : fifo T) : fifo T * list res :=
  match ops with
  | [] => (f, [])
  | o :: ops => let '(f, x) := fifo_op o f in
                let '(f, xs) := fifo_run ops f in (f, x :: xs)
  end.

Definition new_fifo (queueSize : Z) : fifo T := mkFifo [] queueSize false false.

(** The single goroutine that wins [stopIntake]: before the swap, between the
    swap and the critical section, after it. *)
Inductive stop_pc := StopIdle | StopCas | StopDone.

(** One atomic step of some goroutine. [Request] reads the flag twice under the
    ring's lock, and the swap is not under that lock, so it can fall between
    the two reads ([step_request_race]). *)
Inductive step : Ring T * stop_pc -> Ring T * stop_pc -> Prop :=
| step_queue t s s' e pc : Queue t s = Ret (s', e) -> step (s, pc) (s', pc)
| step_request s s' d e pc : Request s = Ret (s', d, e) -> step (s, pc) (s', pc)
| step_cas s s' : stopIntake_cas s = (s', true) -> step (s, StopIdle) (s', StopCas)
| step_request_race s s1 s' d e :
    stopIntake_cas s = (s1, true) -> Request_at false true s1 = Ret (s', d, e) ->
    step (s, StopIdle) (s', StopCas)
| step_locked s s' : stopIntake_locked s = Ret s' -> step (s, StopCas) (s', StopDone).

(** No goroutine can panic in state [c]. *)
Definition panic_free (c : Ring T * stop_pc) : Prop :=
  (forall t, exists r, Queue t c.1 = Ret r) /\ (exists r, Request c.1 = Ret r) /\
  (exists r, stopIntake_locked c.1 = Ret r) /\
  (forall s1, stopIntake_cas c.1 = (s1, true) -> exists r, Request_at false true s1 = Ret r).

Definition reachable (queueSize : Z) (c : Ring T * stop_pc) : Prop :=
  exists s0, NewRing queueSize = Ret s0 /\ rtc step (s0, StopIdle) c.

(** Dequeues until the ring is empty, with enough fuel. *)
Fixpoint drain (fuel : nat) (s : Ring T) : go (Ring T * list (option T)) :=
  match fuel with
  | O => Ret (s, [])
  | S fuel =>
      r ← Request s; let '(s, d, e) := r : Ring T * option T * error in
      match e with
      | ErrNil => r ← drain fuel s; let '(s, ds) := r : Ring T * list (option T) in
                  Ret (s, d :: ds)
      | _ => Ret (s, [])
      end
  end.

End ring_runs.
Arguments op T : clear implicits.
Arguments res T : clear implicits.

Section ring_theorems.
Context {T : Type}.
Implicit Types (s : Ring T).

Lemma NewRing_wf queueSize :
  (0 <= queueSize)%Z ->
  exists s, @NewRing T queueSize = Ret s /\ wf s /\ abs s = new_fifo queueSize.
Proof.
  intros H. unfold NewRing. destruct (queueSize <? 0)%Z eqn:E; [lia|].
  eexists. split; [done|]. split; [|done].
  split; simpl; try done; try lia.
  - split; simpl; lia || done.
  - exists 0%nat. auto.
  - intros [|[|i]]; simpl; try done. lia.
Qed.

Lemma ring_op_refines s (o : op T) :
  wf s ->
  exists s', ring_op o s = Ret (s', (fifo_op o (abs s)).2) /\ wf s' /\
             abs s' = (fifo_op o (abs s)).1.
Proof.
  intros Hwf. destruct o as [t| |]; simpl.
  - destruct (Queue_refines s t Hwf) as (s' & e & -> & ? & ->). simpl. eauto.
  - destruct (Request_refines s Hwf) as (s' & d & e & -> & ? & ->). simpl. eauto.
  - destruct (stopIntake_refines s Hwf) as (s' & b & -> & ? & ->). simpl. eauto.
Qed.

Lemma ring_run_refines (ops : list (op T)) s :
  wf s ->
  exists s', ring_run ops s = Ret (s', (fifo_run ops (abs s)).2) /\ wf s' /\
             abs s' = (fifo_run ops (abs s)).1.
Proof.
  revert s. induction ops as [|o ops IH]; intros s Hwf; simpl; [by exists s|].
  destruct (ring_op_refines s o Hwf) as (s1 & -> & Hwf1 & Habs). simpl.
  destruct (IH s1 Hwf1) as (s2 & -> & Hwf2 & Habs2). rewrite Habs in *. simpl.
  destruct (fifo_op o (abs s)) as [f x]. simpl in *.
  destruct (fifo_run ops f) as [f' xs]. simpl in *. eauto.
Qed.

(** The invariant of the interleavings. *)
Record coherent (c : Ring T * stop_pc) : Prop := {
  coh_wf : wf c.1;
  coh_flag : c.2 = StopIdle <-> stopFlag c.1 = false;
  coh_done : c.2 = StopDone -> contents c.1 = [] -> exit_closed c.1 = true
}.

Lemma coherent_stopped s pc : coherent (s, pc) -> pc <> StopIdle -> stopFlag s = true.
Proof. intros [_ Hf _] Hne. simpl in *. destruct (stopFlag s); [done|]. tauto. Qed.

Lemma coherent_queue s s' t e pc :
  coherent (s, pc) -> Queue t s = Ret (s', e) -> coherent (s', pc).
Proof.
  intros Hc0 HQ. pose proof Hc0 as [Hwf Hf Hd]. simpl in *.
  assert (Hf' : stopFlag s = false -> pc <> StopDone) by 
    (intros E ->; by rewrite (coherent_stopped _ _ Hc0) in E).
  destruct (Queue_refines s t Hwf) as (s1 & e1 & HQ' & Hwf' & Ha).
  rewrite HQ' in HQ. injection HQ as -> ->.
  unfold fifo_queue, abs in Ha. simpl in Ha.
  destruct (stopFlag s) eqn:Es; [|case_test]; injection Ha as ?????; split; simpl; try done.
  all: try (by rewrite <- H1).
  all: intros Hpc ?; rewrite <- H2.
  { apply Hd; congruence. }
  all: destruct (Hf' ltac:(congruence) Hpc).
Qed.

Lemma coherent_request s s' d e pc :
  coherent (s, pc) -> Request s = Ret (s', d, e) -> coherent (s', pc).
Proof.
  intros Hc0 HQ. pose proof Hc0 as [Hwf Hf Hd]. simpl in *.
  destruct (Request_refines s Hwf) as (s1 & d1 & e1 & HQ' & Hwf' & Ha).
  rewrite HQ' in HQ. injection HQ as -> -> ->.
  unfold fifo_request, abs in Ha. simpl in Ha.
  assert (Hflag : pc = StopDone -> stopFlag s = true).
  { intros ->. by apply (coherent_stopped _ _ Hc0). }
  destruct (contents s) as [|x l] eqn:Ec; [destruct (stopFlag s) eqn:Es|];
    injection Ha as Hc Hb Hs He _ _; split; simpl; try done; try (by rewrite <- Hs).
  - intros -> ?. by specialize (Hflag eq_refl).
  - intros -> Hnil. rewrite <- He, (Hflag eq_refl), Hc, Hnil. apply orb_true_r.
Qed.

Lemma coherent_cas s s' : coherent (s, StopIdle) -> stopIntake_cas s = (s', true) ->
  coherent (s', StopCas) /\ (count s' = 0%nat -> exit_closed s' = false).
Proof.
  intros [Hwf Hf Hd] H. simpl in *. unfold stopIntake_cas in H.
  rewrite (proj1 Hf eq_refl) in H. injection H as <-.
  destruct Hwf as [[H1 H2 H3 H4] Hs Hc Hcap Hb Ho He].
  assert (Hx : exit_closed s = false).
  { destruct (exit_closed s); [|done]. destruct (He eq_refl). rewrite (proj1 Hf) in *; done. }
  split; [|done]. split; simpl; [|done|done].
  split; simpl; [by split|done..|]. congruence.
Qed.

Lemma coherent_locked s s' :
  coherent (s, StopCas) -> stopIntake_locked s = Ret s' -> coherent (s', StopDone).
Proof.
  intros Hc0 H. pose proof Hc0 as [Hwf Hf Hd]. simpl in *. unfold stopIntake_locked in H.
  assert (stopFlag s = true) as Hs by (by apply (coherent_stopped _ _ Hc0)).
  destruct (count s =? 0)%nat eqn:E.
  - rewrite signalExit_spec in H by apply Hwf. injection H as <-.
    split; simpl; [apply wf_exited; auto; lia|by rewrite Hs|done].
  - injection H as <-. split; simpl; [done|by rewrite Hs|].
    intros _ Hc%contents_empty. lia.
Qed.

(** A request that overlaps the swap behaves like one just after it, except that
    an empty ring still answers "no task". *)
Lemma request_race_eq s :
  wf s -> stopFlag s = true ->
  Request_at false true s =
    if (count s =? 0)%nat then Ret (s, None, ErrNoTaskInQueue) else Request s.
Proof.
  intros Hwf Hs. destruct (count s =? 0)%nat eqn:E.
  - unfold Request_at. by rewrite E.
  - unfold Request. rewrite Hs. by rewrite !Request_takes by (done || lia).
Qed.

Lemma coherent_step c c' : coherent c -> step c c' -> coherent c'.
Proof.
  intros Hc Hst. destruct Hst as [t s s' e pc H|s s' d e pc H|s s' H|s s1 s' d e H1 H|s s' H].
  - by eapply coherent_queue.
  - by eapply coherent_request.
  - by eapply coherent_cas.
  - destruct (coherent_cas s s1 Hc H1) as [Hc1 _].
    assert (stopFlag s1 = true) as Hs.
    { unfold stopIntake_cas in H1. destruct (stopFlag s); [done|]. by injection H1 as <-. }
    rewrite request_race_eq in H by (done || apply Hc1).
    destruct (count s1 =? 0)%nat; [by injection H as <- _ _|].
    by eapply coherent_request.
  - by eapply coherent_locked.
Qed.

Lemma coherent_panic_free c : coherent c -> panic_free c.
Proof.
  intros Hc. destruct c as [s pc]. pose proof Hc as [Hwf Hf Hd]. simpl in *.
  split_and!; simpl.
  - intros t. destruct (Queue_refines s t Hwf) as (? & ? & -> & _). eauto.
  - destruct (Request_refines s Hwf) as (? & ? & ? & -> & _). eauto.
  - unfold stopIntake_locked. case_test; [|eauto].
    rewrite signalExit_spec by apply Hwf. eauto.
  - intros s1 H1. unfold stopIntake_cas in H1. destruct (stopFlag s) eqn:Es; [done|].
    assert (coherent (s, StopIdle)) as Hi.
    { split; simpl; [done|by rewrite Es|done]. }
    destruct (coherent_cas s s1 Hi) as [[Hwf1 _ _] _].
    { unfold stopIntake_cas. by rewrite Es. }
    injection H1 as <-. rewrite request_race_eq by done. case_test; [eauto|].
    simpl in Hwf1. destruct (Request_refines _ Hwf1) as (? & ? & ? & -> & _). eauto.
Qed.

Lemma reachable_coherent queueSize c : reachable queueSize c -> coherent c.
Proof.
  intros (s0 & Hn & Hr).
  assert (Hc : coherent (s0, StopIdle)).
  { destruct (decide (0 <= queueSize)%Z) as [Hq|Hq].
    - destruct (NewRing_wf queueSize Hq) as (s1 & Hn1 & Hwf & Ha).
      rewrite Hn in Hn1. injection Hn1 as <-. injection Ha as _ _ Hs _.
      split; simpl; [done|by rewrite Hs|done].
    - unfold NewRing in Hn. destruct (queueSize <? 0)%Z eqn:E; [done|lia]. }
  clear Hn. revert Hc Hr. generalize (s0, StopIdle). intros c0 Hc Hr.
  induction Hr; eauto using coherent_step.
Qed.

(** Under every interleaving of concurrent [Queue], [Request] and [stopIntake]
    calls, the swap racing with a running [Request] included, no call panics;
    the exit channel is closed only when intake is stopped and the buffer is
    empty; and once [stopIntake] has returned, an empty buffer implies the
    channel is closed, so [Shutdown] never misses the signal. *)
Theorem ring_exit_signal_exact (queueSize : Z) (s : Ring T) (pc : stop_pc) :
  reachable queueSize (s, pc) ->
  panic_free (s, pc) /\
  (exit_closed s = true -> stopFlag s = true /\ contents s = []) /\
  (pc = StopDone -> contents s = [] -> exit_closed s = true).
Proof.
  intros Hr%reachable_coherent. split_and!; [by apply coherent_panic_free| |apply Hr].
  intros Hx. destruct Hr as [Hwf _ _]. destruct (wf_exit s Hwf Hx).
  split; [done|]. by apply contents_empty.
Qed.

(** In every reachable state the buffer has two slots or less than twice as
    many slots as queued tasks, the configured capacity is respected, and every
    slot that holds a task reference is one of the queued tasks, so dequeued
    tasks are not retained. *)
Theorem ring_buffer_tight (queueSize : Z) (s : Ring T) (pc : stop_pc) :
  reachable queueSize (s, pc) ->
  (length (taskQueue s) = 2 \/ length (taskQueue s) < 2 * length (contents s))%nat /\
  ((0 < capacity s)%Z -> (Z.of_nat (length (contents s)) <= capacity s)%Z) /\
  (forall i x, taskQueue s !! i = Some (Some x) -> Some x ∈ contents s).
Proof.
  intros Hr%reachable_coherent. destruct Hr as [[[H1 H2 H3 H4] (k & Hk & Hs) Hc _ Hb _ _] _ _].
  simpl in *. rewrite length_contents. split_and!; [destruct Hs as [->|]; simpl in *; lia|done|].
  intros i x Hi. pose proof (lookup_lt_Some _ _ _ Hi) as Hlt.
  set (n := length (taskQueue s)) in *.
  set (j := if decide (head s <= i)%nat then (i - head s)%nat else (n + i - head s)%nat).
  assert (Hj : (j < n)%nat /\ (head s + j) mod n = i).
  { unfold j. case_decide.
    - split; [lia|]. replace (head s + (i - head s))%nat with i by lia. by apply mod_below.
    - split; [lia|]. rewrite mod_wrapped; lia. }
  destruct Hj as [Hj Hji].
  assert (Hx : slot (taskQueue s) i = Some x) by (unfold slot; by rewrite Hi).
  destruct (decide (j < count s)%nat) as [Hjc|Hjc].
  - apply list_elem_of_lookup. exists j. rewrite lookup_contents, decide_True by done.
    fold n. by rewrite Hji, Hx.
  - assert (slot (taskQueue s) ((head s + j) mod n) = None) as Hnone by (apply Hc; lia).
    rewrite Hji, Hx in Hnone. done.
Qed.

Lemma drain_spec n s :
  wf s -> (count s < n)%nat ->
  exists s', drain n s = Ret (s', contents s) /\ contents s' = [] /\ wf s' /\
             (stopFlag s = true -> exit_closed s' = true).
Proof.
  revert s. induction n as [|n IH]; intros s Hwf Hn; [lia|]. simpl.
  destruct (Request_refines s Hwf) as (s1 & d & e & -> & Hwf1 & Ha). simpl.
  pose proof (length_contents s) as Hl.
  unfold fifo_request, abs in Ha. simpl in Ha.
  destruct (contents s) as [|x l] eqn:Ec.
  - destruct (stopFlag s) eqn:Es; injection Ha as Hc Hb Hs He <- <-; simpl;
      exists s1; rewrite <- Hc; by split_and!.
  - injection Ha as Hc Hb Hs He <- <-. simpl in *.
    destruct (IH s1 Hwf1) as (s2 & -> & E & W & F).
    { rewrite <- length_contents, <- Hc. lia. }
    simpl. rewrite <- Hc. exists s2. rewrite <- Hs in F. auto.
Qed.

(** Shutdown drains. From any reachable state with intake stopped, [count + 1]
    requests return exactly the queued tasks in order, none lost or repeated,
    leave the ring empty and close the exit channel that [Shutdown] waits on. *)
Theorem ring_drain_complete (queueSize : Z) (s : Ring T) (pc : stop_pc) :
  reachable queueSize (s, pc) -> stopFlag s = true ->
  exists s', drain (S (count s)) s = Ret (s', contents s) /\
             contents s' = [] /\ exit_closed s' = true.
Proof.
  intros Hr%reachable_coherent Hs. destruct Hr as [Hwf _ _].
  destruct (drain_spec (S (count s)) s Hwf) as (s' & ? & ? & ? & ?); [lia|]. eauto.
Qed.

(** C3: A ring made by [NewRing] with a non-negative size answers every sequence
    of [Queue], [Request] and [stopIntake] calls exactly as a bounded FIFO does,
    errors and the drained signal included, and never panics: growing, shrinking
    and wrapping are invisible. *)
Theorem ring_is_fifo (queueSize : Z) (ops : list (op T)) :
  (0 <= queueSize)%Z ->
  exists s0 s', NewRing queueSize = Ret s0 /\
    ring_run ops s0 = Ret (s', (fifo_run ops (new_fifo queueSize)).2) /\
    abs s' = (fifo_run ops (new_fifo queueSize)).1.
Proof.
  intros H. destruct (NewRing_wf queueSize H) as (s0 & Hn & Hwf & Habs).
  destruct (ring_run_refines ops s0 Hwf) as (s' & Hr & _ & Ha).
  rewrite Habs in Hr, Ha. eauto.
Qed.

End ring_theorems.

Lemma ring_is_fifo_witness :
  (0 <= 2)%Z /\
  exists s0 s' : Ring nat, NewRing 2 = Ret s0 /\
    ring_run [OpQueue (Some 7); OpRequest] s0
    = Ret (s', [RQueue ErrNil; RRequest (Some 7) ErrNil]) /\
    contents s' = [].
Proof.
  split; [lia|].
  destruct (ring_is_fifo (T := nat) 2 [OpQueue (Some 7); OpRequest] ltac:(lia))
    as (s0 & s' & H1 & H2 & H3).
  exists s0, s'. split; [exact H1|]. split; [exact H2|].
  change (items (abs s') = []). rewrite H3. reflexivity.
Defined.

(** A run of queue and request calls is a path of the step relation. *)
Fixpoint intake_run {T} (ops : list (option (option T))) (s : Ring T) : go (Ring T) :=
  match ops with
  | [] => Ret s
  | Some t :: ops => r ← Queue t s; intake_run ops (r : Ring T * error).1
  | None :: ops => r ← Request s; intake_run ops (r : Ring T * option T * error).1.1
  end.

Lemma intake_run_steps {T} ops (s s' : Ring T) pc :
  intake_run ops s = Ret s' -> rtc step (s, pc) (s', pc).
Proof.
  revert s. induction ops as [|[t|] ops IH]; simpl; intros s H.
  - injection H as ->. apply rtc_refl.
  - destruct (Queue t s) as [[s1 e]|] eqn:E; [|done]. simpl in H.
    eapply rtc_l; [by eapply step_queue|]. by apply IH.
  - destruct (Request s) as [[[s1 d] e]|] eqn:E; [|done]. simpl in H.
    eapply rtc_l; [by eapply step_request|]. by apply IH.
Qed.

(** Three tasks through a ring, two taken, then stopped with one task left. *)
Definition sample_ring (stopped : bool) : Ring nat :=
  mkRing [None; Some 3] 5 1 1 0 false false stopped.

Lemma sample_reachable : reachable 5 (sample_ring true, StopDone).
Proof.
  eexists. split; [reflexivity|].
  etransitivity.
  { apply (intake_run_steps [Some (Some 1); Some (Some 2); Some (Some 3); None; None]
             _ (sample_ring false)). vm_compute. reflexivity. }
  eapply rtc_l; [apply (step_cas _ (sample_ring true)); reflexivity|].
  apply rtc_once, (step_locked _ (sample_ring true)). reflexivity.
Qed.

Lemma ring_exit_signal_exact_witness :
  panic_free (sample_ring true, StopDone).
Proof. exact (proj1 (ring_exit_signal_exact 5 _ _ sample_reachable)). Defined.

Lemma ring_buffer_tight_witness :
  (length [@None nat; Some 3] = 2 \/ length [@None nat; Some 3] < 2 * 1)%nat.
Proof. exact (proj1 (ring_buffer_tight 5 _ _ sample_reachable)). Defined.

Lemma ring_drain_complete_witness :
  exists s', drain 2 (sample_ring true)
             = Ret (s', [Some 3]) /\ exit_closed s' = true.
Proof.
  destruct (ring_drain_complete 5 _ _ sample_reachable eq_refl) as (s' & H1 & _ & H2).
  exists s'. split; [exact H1 | exact H2].
Defined.
