(* ===== verification/Contract.v ===== *)
(** Validation vocabulary shared by the management contracts: bounded identities,
    [ValidationError] values and protocol versions ([management/status.go],
    [management/protocol.go]), with the automation that turns the validators'
    chains of tests into their specifications. *)

From S2P Require Import Prelude GoStd.

Definition MaxIdentityBytes : Z := 256.

Definition invalidIdentity (value : string) : bool :=
  blank value || (MaxIdentityBytes <? len value)%Z.

Definition invalid (field problem : string) : error := ValidationError field problem.

(** What a valid identity is: not blank, at most 256 bytes. *)
Definition identity (value : string) : Prop :=
  blank value = false /\ (len value <= MaxIdentityBytes)%Z.

Lemma invalidIdentity_false value : invalidIdentity value = false <-> identity value.
Proof. unfold invalidIdentity, identity. rewrite orb_false_iff. lia. Qed.

Lemma identity_nonempty value : identity value -> value <> "".
Proof. intros [H _] ->. done. Qed.

#[export] Instance identity_dec value : Decision (identity value).
Proof. unfold identity. apply _. Defined.

(** A version pair; the zero pair is unknown. *)
Record ProtocolVersion := mkVersion { Major : Z; Minor : Z }.

#[export] Instance ProtocolVersion_eq_dec : EqDecision ProtocolVersion.
Proof. solve_decision. Defined.

Definition zeroVersion : ProtocolVersion := mkVersion 0 0.

Definition version_eqb (a b : ProtocolVersion) : bool := bool_decide (a = b).

(** A validator accepts when it returns nil. *)
Abbreviation accepts e := (e = ErrNil).

Create HintDb contract discriminated.
Create HintDb lifecycle discriminated.
Create Rewrite HintDb contract.
#[export] Hint Resolve identity_nonempty : contract.

(** Walks a validator's chain of guards: every guard that returns an error
    contradicts acceptance, and each passed guard stays as an equation. *)
Ltac guards :=
  repeat match goal with
         | H : (if ?b then invalid _ _ else _) = ErrNil |- _ =>
             let E := fresh "G" in destruct b eqn:E; [discriminate H|]
         | H : ErrNil = ErrNil |- _ => clear H
         | |- (if ?b then invalid _ _ else _) = ErrNil => replace b with false; [|symmetry]
         end.

(** One guard of a validator. *)
Lemma invalid_if (b : bool) f p rest :
  (if b then invalid f p else rest) = ErrNil <-> b = false /\ rest = ErrNil.
Proof. destruct b; unfold invalid; intuition congruence. Qed.

Lemma version_unset v : version_eqb v zeroVersion = false <-> v <> zeroVersion.
Proof. unfold version_eqb. apply bool_decide_eq_false. Qed.

(** A negated membership test of a string enumeration, as membership. *)
Lemma negb_false b : negb b = false <-> b = true.
Proof. destruct b; naive_solver. Qed.

#[export] Hint Rewrite invalid_if invalidIdentity_false version_unset negb_false
  orb_false_iff andb_true_iff Z.eqb_neq Z.ltb_ge Z.leb_gt : contract.

(** [fmt.Sprintf("%d", i)] for an index. *)
Definition Itoa (i : nat) : string := pretty (N.of_nat i).

(** [items[i].field] and the like: a validator run over a list, the first error
    reported under the element's index. *)
Fixpoint validate_items {A} (check : A -> error) (name suffix : string) (index : nat)
    (l : list A) : error :=
  match l with
  | [] => ErrNil
  | x :: l =>
      match check x with
      | ErrNil => validate_items check name suffix (S index) l
      | ValidationError field problem =>
          invalid (name +:+ "[" +:+ Itoa index +:+ "]" +:+ suffix +:+ field) problem
      | e => e
      end
  end.

Lemma validate_items_nil {A} (check : A -> error) name suffix i l :
  validate_items check name suffix i l = ErrNil <-> Forall (fun x => check x = ErrNil) l.
Proof.
  revert i. induction l as [|x l IH]; intros i; simpl; [done|].
  rewrite Forall_cons. destruct (check x); try (split; [done|by intros [? _]]).
  rewrite IH. tauto.
Qed.
