(* ===== verification/Failure.v ===== *)
(** Failure classification of [management/classification.go]: the classified
    [Failure] error, its validation, and [ResolveFailure], the bounded walk over
    a wrapped or joined error graph.

    The walk is specified as the best candidate of the graph under a total
    order; the theorems show that it is that candidate, that it does not depend
    on the order of joined errors, and that re-wrapping keeps the class. *)

From S2P Require Import Prelude GoStd Contract.

Definition ClassificationRetryable : string := "retryable".
Definition ClassificationPermanent : string := "permanent".
Definition ClassificationMalformed : string := "malformed".
Definition ClassificationCanceled : string := "canceled".
Definition ClassificationInfrastructure : string := "infrastructure".

Definition FailureCodeLeaseLost : string := "lease_lost".
Definition FailureCodeDeadLetterDestinationUnavailable : string :=
  "dead_letter_destination_unavailable".

Definition Classification_valid (c : string) : bool :=
  (c == ClassificationRetryable) || (c == ClassificationPermanent)
  || (c == ClassificationMalformed) || (c == ClassificationCanceled)
  || (c == ClassificationInfrastructure).

Definition classificationRank (c : string) : Z :=
  if c == ClassificationInfrastructure then 5
  else if c == ClassificationCanceled then 4
  else if c == ClassificationMalformed then 3
  else if c == ClassificationPermanent then 2
  else if c == ClassificationRetryable then 1
  else 0.

(** [NewFailure] retains its arguments without checking them. *)
Definition NewFailure (classification code : string) (cause : error) : error :=
  FailureErr classification code cause.

(** [Failure.Validate] on the classification and code of a non-nil failure. *)
Definition Failure_Validate (classification code : string) : error :=
  if negb (Classification_valid classification) then invalid "classification" "is unsupported"
  else if invalidIdentity code then invalid "code" "is required and must be bounded"
  else ErrNil.

Record FailureResolution := mkResolution { Classification : string; Code : string }.

#[export] Instance FailureResolution_eq_dec : EqDecision FailureResolution.
Proof. solve_decision. Defined.

Definition default_resolution : FailureResolution :=
  mkResolution ClassificationRetryable "".

(** The candidate one non-nil node contributes. *)
Definition node_candidate (current : error) : FailureResolution :=
  match current with
  | FailureErr c k _ =>
      if is_nil (Failure_Validate c k) then mkResolution c k else default_resolution
  | Join _ _ | Wrap _ _ | ErrNil => default_resolution
  | Sentinel _ | Leaf _ | ValidationError _ _ =>
      if Is current DeadlineExceeded then mkResolution ClassificationCanceled "deadline_exceeded"
      else if Is current Canceled then mkResolution ClassificationCanceled "context_canceled"
      else default_resolution
  end.

(** The errors a visit appends to the stack, in append order. *)
Definition node_children (current : error) : list error :=
  match current with
  | FailureErr _ _ e | Wrap _ e => [e]
  | Join _ es => es
  | _ => []
  end.

(** The update test of the walk. *)
Definition better (candidate resolution : FailureResolution) : bool :=
  let candidateRank := classificationRank (Classification candidate) in
  let resolutionRank := classificationRank (Classification resolution) in
  (resolutionRank <? candidateRank)%Z
  || ((candidateRank =? resolutionRank)%Z && (Code candidate != "")
      && ((Code resolution == "") || Compare_lt (Code candidate) (Code resolution))).

Definition improve (resolution candidate : FailureResolution) : FailureResolution :=
  if better candidate resolution then candidate else resolution.

(** The loop; the top of the stack is the head of the list, and [fuel] is the
    number of visits left. *)
Fixpoint resolve_loop (fuel : nat) (stack : list error) (resolution : FailureResolution)
    : FailureResolution :=
  match fuel, stack with
  | O, _ | _, [] => resolution
  | S fuel, current :: stack =>
      if is_nil current then resolve_loop fuel stack resolution
      else resolve_loop fuel (reverse (node_children current) ++ stack)
             (improve resolution (node_candidate current))
  end.

Definition maxVisited : nat := 64.

Definition ResolveFailure (err : error) : FailureResolution :=
  resolve_loop maxVisited [err] default_resolution.

Definition ClassifyFailure (err : error) : string := Classification (ResolveFailure err).

(** * The graph the walk covers *)

(** Visits needed to walk all of [e]; nil errors cost one. *)
Fixpoint visits (e : error) : nat :=
  match e with
  | FailureErr _ _ e' | Wrap _ e' => S (visits e')
  | Join _ es => S (list_sum (map visits es))
  | _ => 1
  end.

(** The candidates of all nodes of [e]. *)
Fixpoint candidates (e : error) : list FailureResolution :=
  match e with
  | ErrNil => []
  | FailureErr _ _ e' | Wrap _ e' => node_candidate e :: candidates e'
  | Join _ es => node_candidate e :: concat (map candidates es)
  | _ => [node_candidate e]
  end.

(** Two error values that differ only in the order of joined errors. *)
Inductive same_graph : error -> error -> Prop :=
| sg_refl e : same_graph e e
| sg_wrap t e e' : same_graph e e' -> same_graph (Wrap t e) (Wrap t e')
| sg_failure c k e e' : same_graph e e' -> same_graph (FailureErr c k e) (FailureErr c k e')
| sg_join_one t l e e' r :
    same_graph e e' -> same_graph (Join t (l ++ e :: r)) (Join t (l ++ e' :: r))
| sg_join_perm t es fs : es ≡ₚ fs -> same_graph (Join t es) (Join t fs)
| sg_trans e1 e2 e3 : same_graph e1 e2 -> same_graph e2 e3 -> same_graph e1 e3.

(** * The order behind the walk *)

Definition good (r : FailureResolution) : Prop := Classification_valid (Classification r) = true.

Ltac classes :=
  repeat match goal with
         | H : Classification_valid ?c = true |- _ =>
             unfold Classification_valid in H;
             rewrite !orb_true_iff, !String.eqb_eq in H;
             destruct H as [[[[H|H]|H]|H]|H]; try rewrite H in *
         end.

Lemma rank_inj c d :
  Classification_valid c = true -> Classification_valid d = true ->
  classificationRank c = classificationRank d -> c = d.
Proof. intros Hc Hd. classes; vm_compute; congruence. Qed.

Lemma rank_pos c : Classification_valid c = true -> (1 <= classificationRank c)%Z.
Proof. intros Hc. classes; vm_compute; congruence. Qed.

Lemma node_candidate_good e : good (node_candidate e).
Proof.
  unfold good, node_candidate, Failure_Validate.
  destruct e as [| | | | | |c k e]; try done; try (by repeat case_test).
  destruct (Classification_valid c) eqn:Hv; [|done]. by destruct (invalidIdentity k).
Qed.

Lemma better_spec a b :
  better a b = true <->
  (classificationRank (Classification b) < classificationRank (Classification a))%Z \/
  (classificationRank (Classification a) = classificationRank (Classification b) /\
   Code a <> "" /\ (Code b = "" \/ ~ String.le (Code b) (Code a))).
Proof.
  unfold better. rewrite orb_true_iff, !andb_true_iff, orb_true_iff, negb_true_iff.
  rewrite String.eqb_neq, String.eqb_eq, Compare_lt_iff, Z.ltb_lt, Z.eqb_eq. tauto.
Qed.

Lemma better_trans a b c : better a b = true -> better b c = true -> better a c = true.
Proof.
  rewrite !better_spec. intros [H1|(H1 & H2 & H3)] [H4|(H4 & H5 & H6)];
    try (left; lia). right. split_and!; [lia|done|].
  destruct H3 as [H3|H3]; [congruence|]. destruct H6 as [H6|H6]; [by left|right].
  intros Hca. apply H3. transitivity (Code c); [|done].
  destruct (total String.le (Code b) (Code c)); tauto.
Qed.

Lemma better_total a b : good a -> good b -> better a b = true \/ a = b \/ better b a = true.
Proof.
  intros Ha Hb. rewrite !better_spec.
  destruct (Z.lt_trichotomy (classificationRank (Classification a))
              (classificationRank (Classification b))) as [H|[H|H]]; [tauto| |tauto].
  destruct a as [ca ka], b as [cb kb]; simpl in *. apply rank_inj in H; [|done..]. subst cb.
  destruct (decide (ka = kb)) as [->|Hne]; [tauto|].
  destruct (decide (ka = "")) as [->|Hka]; [right; right; right; auto|].
  destruct (decide (kb = "")) as [->|Hkb]; [left; right; auto|].
  destruct (decide (String.le kb ka)) as [H|H].
  - right; right; right. split_and!; auto. right. intros H'. by apply Hne, (anti_symm String.le).
  - left; right. auto.
Qed.

Lemma better_irrefl a : better a a = false.
Proof.
  apply not_true_is_false. rewrite better_spec. intros [H|(_ & H & [?|H'])]; [lia|done|].
  by apply H'.
Qed.

(** [worst_or_equal a b]: [b] is at least as good as [a]. *)
Definition upto (a b : FailureResolution) : Prop := better a b = false.

Lemma upto_trans a b c : good a -> good b -> good c -> upto a b -> upto b c -> upto a c.
Proof.
  unfold upto. intros Ha Hb Hc Hab Hbc. apply not_true_is_false. intros Hac.
  destruct (better_total b c Hb Hc) as [H|[->|H]]; [congruence..|].
  rewrite (better_trans a c b) in Hab; done.
Qed.

Lemma upto_antisym a b : good a -> good b -> upto a b -> upto b a -> a = b.
Proof. unfold upto. intros Ha Hb. destruct (better_total a b Ha Hb) as [|[|]]; congruence. Qed.

Lemma improve_good r c : good r -> good c -> good (improve r c).
Proof. unfold improve. by case_test. Qed.

Lemma improve_left r c : upto r (improve r c).
Proof.
  unfold improve, upto. case_test; [|apply better_irrefl].
  apply not_true_is_false. intros H.
  pose proof (better_trans _ _ _ E H) as H'. by rewrite better_irrefl in H'.
Qed.

Lemma improve_right r c : upto c (improve r c).
Proof. unfold improve, upto. case_test; [apply better_irrefl|done]. Qed.

#[export] Hint Resolve node_candidate_good improve_good improve_left improve_right : contract.

(** * The walk finds the best candidate *)

Definition stack_candidates (stack : list error) : list FailureResolution :=
  concat (map candidates stack).

Definition stack_visits (stack : list error) : nat := list_sum (map visits stack).

Lemma visits_pos e : (1 <= visits e)%nat.
Proof. destruct e; simpl; lia. Qed.

Lemma stack_visits_app a b : stack_visits (a ++ b) = (stack_visits a + stack_visits b)%nat.
Proof. unfold stack_visits. by rewrite List.map_app, list_sum_app. Qed.

Lemma stack_visits_perm a b : a ≡ₚ b -> stack_visits a = stack_visits b.
Proof.
  unfold stack_visits. induction 1; simpl; lia.
Qed.

Lemma stack_candidates_elem c stack :
  c ∈ stack_candidates stack <-> exists e, e ∈ stack /\ c ∈ candidates e.
Proof.
  unfold stack_candidates. rewrite !list_elem_of_In, in_concat. setoid_rewrite in_map_iff.
  setoid_rewrite list_elem_of_In. naive_solver.
Qed.

Lemma stack_one e : stack_candidates [e] = candidates e /\ stack_visits [e] = visits e.
Proof. unfold stack_candidates, stack_visits. simpl. by rewrite app_nil_r, Nat.add_0_r. Qed.

(** A node's visits and candidates, through its children. *)
Lemma visits_children e : visits e = S (stack_visits (node_children e)).
Proof. destruct e; simpl; unfold stack_visits; simpl; lia. Qed.

Lemma candidates_children e :
  is_nil e = false ->
  candidates e = node_candidate e :: stack_candidates (node_children e).
Proof.
  unfold stack_candidates. destruct e; simpl; try done; intros _; by rewrite ?app_nil_r.
Qed.

Lemma candidates_good e c : c ∈ candidates e -> good c.
Proof.
  revert c. induction e as [| | | |t e IH|t es IH|k c' e IH] using error_rect_full; intros r Hr.
  - by apply elem_of_nil in Hr.
  - apply list_elem_of_singleton in Hr as ->. apply node_candidate_good.
  - apply list_elem_of_singleton in Hr as ->. apply node_candidate_good.
  - apply list_elem_of_singleton in Hr as ->. apply node_candidate_good.
  - apply elem_of_cons in Hr as [->|Hr]; [apply node_candidate_good|auto].
  - apply elem_of_cons in Hr as [->|Hr]; [apply node_candidate_good|].
    apply stack_candidates_elem in Hr as (x & Hx & Hr). rewrite Forall_forall in IH. eauto.
  - apply elem_of_cons in Hr as [->|Hr]; [apply node_candidate_good|auto].
Qed.

Lemma resolve_loop_good n stack r : good r -> good (resolve_loop n stack r).
Proof.
  revert stack r. induction n as [|n IH]; intros [|e stack] r Hr; simpl; try done.
  case_test; eauto with contract.
Qed.

Lemma resolve_loop_upto n stack r : good r -> upto r (resolve_loop n stack r).
Proof.
  revert stack r. induction n as [|n IH]; intros [|e stack] r Hr; simpl;
    try apply better_irrefl.
  case_test; [by apply IH|].
  apply (upto_trans _ (improve r (node_candidate e))); eauto using resolve_loop_good with contract.
Qed.

Lemma resolve_loop_best n stack r :
  good r -> (stack_visits stack <= n)%nat ->
  let r' := resolve_loop n stack r in
  (r' = r \/ r' ∈ stack_candidates stack) /\
  forall c, c ∈ stack_candidates stack -> upto c r'.
Proof.
  revert stack r. induction n as [|n IH]; intros [|e stack] r Hr Hn;
    try (split; [by left|intros c Hc; by apply elem_of_nil in Hc]).
  { unfold stack_visits in Hn. simpl in Hn. pose proof (visits_pos e). lia. }
  unfold stack_visits in Hn. simpl in Hn. fold (stack_visits stack) in Hn. simpl.
  destruct (is_nil e) eqn:En.
  { destruct e; try done. unfold stack_candidates. simpl. apply IH; [done|simpl in Hn; lia]. }
  unfold stack_candidates. simpl. rewrite candidates_children by done. simpl.
  fold (stack_candidates stack).
  set (st := reverse (node_children e) ++ stack).
  set (r1 := improve r (node_candidate e)).
  assert (Hgood : good r1) by eauto with contract.
  destruct (IH st r1 Hgood) as [Hin Hbest].
  { unfold st. rewrite stack_visits_app, (stack_visits_perm _ _ (reverse_Permutation _)).
    rewrite visits_children in Hn. lia. }
  assert (Hst : forall c, c ∈ stack_candidates st <->
            c ∈ stack_candidates (node_children e) \/ c ∈ stack_candidates stack).
  { intros c. unfold st. rewrite !stack_candidates_elem.
    setoid_rewrite elem_of_app. setoid_rewrite elem_of_reverse. naive_solver. }
  split.
  - rewrite elem_of_cons, elem_of_app. destruct Hin as [Hin|Hin]; [|apply Hst in Hin; tauto].
    rewrite Hin. unfold r1, improve. case_test; tauto.
  - intros c Hc. rewrite elem_of_cons, elem_of_app in Hc.
    destruct Hc as [->|Hc]; [|by apply Hbest, Hst].
    apply (upto_trans _ r1); eauto using resolve_loop_good, resolve_loop_upto with contract.
Qed.

Lemma ResolveFailure_max (e : error) :
  (visits e <= maxVisited)%nat ->
  (ResolveFailure e = default_resolution \/ ResolveFailure e ∈ candidates e) /\
  forall c, c ∈ candidates e -> upto c (ResolveFailure e).
Proof.
  intros H. destruct (resolve_loop_best maxVisited [e] default_resolution) as [H1 H2].
  - done.
  - by rewrite (proj2 (stack_one e)).
  - rewrite (proj1 (stack_one e)) in *. auto.
Qed.

(** Up to 64 nodes, [ResolveFailure] returns the best candidate of the whole
    error graph: the highest-precedence classification present (infrastructure,
    canceled, malformed, permanent, retryable), with the lexically smallest code
    among the failures of that class; no node is missed and nothing is invented. *)
Theorem resolve_failure_best (e : error) :
  (visits e <= maxVisited)%nat ->
  (ResolveFailure e = default_resolution \/ ResolveFailure e ∈ candidates e) /\
  forall c, c ∈ candidates e -> better c (ResolveFailure e) = false.
Proof. apply ResolveFailure_max. Qed.

Lemma resolve_failure_best_witness :
  better (mkResolution ClassificationInfrastructure "ack_failed")
    (ResolveFailure (Join "joined"
       [NewFailure ClassificationPermanent "handler_failed" ErrNil;
        NewFailure ClassificationInfrastructure "ack_failed" ErrNil])) = false.
Proof.
  set (e := Join _ _).
  assert (H : (visits e <= maxVisited)%nat) by (vm_compute; lia).
  apply (proj2 (resolve_failure_best e H)). apply list_elem_of_In. vm_compute. tauto.
Defined.

(** * Independence of the order of joined errors *)

Lemma stack_candidates_perm a b : a ≡ₚ b -> stack_candidates a ≡ₚ stack_candidates b.
Proof.
  intros H. unfold stack_candidates. rewrite <- !List.flat_map_concat_map.
  by apply Permutation_flat_map.
Qed.

Lemma same_graph_facts e e' :
  same_graph e e' -> visits e = visits e' /\ candidates e ≡ₚ candidates e' .
Proof.
  induction 1 as [e|t e e' _ [IH1 IH2]|c k e e' _ [IH1 IH2]|t l e e' r _ [IH1 IH2]
                  |t es fs Hp|e1 e2 e3 _ [IH1 IH2] _ [IH3 IH4]].
  - done.
  - simpl. split; [lia|]. by constructor.
  - simpl. split; [lia|]. by constructor.
  - simpl. split.
    + rewrite !List.map_app, !list_sum_app. simpl. lia.
    + constructor. rewrite !List.map_app, !List.concat_app. simpl. by rewrite IH2.
  - simpl. split; [f_equal; by apply stack_visits_perm|].
    constructor. by apply stack_candidates_perm.
  - split; [lia|]. by rewrite IH2.
Qed.

(** The resolution does not depend on the order in which errors were joined,
    at any depth of the graph (within the 64-node bound). *)
Theorem resolve_failure_order_independent (e e' : error) :
  same_graph e e' -> (visits e <= maxVisited)%nat ->
  ResolveFailure e = ResolveFailure e'.
Proof.
  intros Hg Hv. destruct (same_graph_facts e e' Hg) as [Hv' Hp].
  assert (Hv2 : (visits e' <= maxVisited)%nat) by lia.
  assert (G : forall x, good (ResolveFailure x)) by (intros x; by apply resolve_loop_good).
  assert (D : forall x, upto default_resolution (ResolveFailure x))
    by (intros x; by apply resolve_loop_upto).
  assert (B : forall x y, (visits x <= maxVisited)%nat -> (visits y <= maxVisited)%nat ->
              candidates x ≡ₚ candidates y -> upto (ResolveFailure x) (ResolveFailure y)).
  { intros x y Hx Hy Hxy. destruct (ResolveFailure_max x Hx) as [[->|Hin] _]; [apply D|].
    apply (ResolveFailure_max y Hy). by rewrite <- Hxy. }
  apply upto_antisym; [auto..|]. by apply B.
Qed.

Lemma resolve_failure_order_independent_witness :
  ResolveFailure (Join "joined" [Sentinel Canceled; Leaf "x"])
  = ResolveFailure (Join "joined" [Leaf "x"; Sentinel Canceled]).
Proof.
  apply resolve_failure_order_independent; [|vm_compute; lia].
  apply sg_join_perm. constructor.
Defined.

(** * Re-wrapping keeps the class *)

Definition res_rank (r : FailureResolution) : Z := classificationRank (Classification r).

Lemma improve_rank r c : res_rank (improve r c) = Z.max (res_rank r) (res_rank c).
Proof.
  unfold improve, res_rank. destruct (better c r) eqn:E.
  - apply better_spec in E. lia.
  - apply not_true_iff_false in E. rewrite better_spec in E. lia.
Qed.

Lemma resolve_loop_rank n stack :
  exists w, forall r, res_rank (resolve_loop n stack r) = Z.max (res_rank r) w.
Proof.
  revert stack. induction n as [|n IH]; intros stack.
  { exists (-1)%Z. intros r. simpl. unfold res_rank, classificationRank. repeat case_test; lia. }
  destruct stack as [|e stack].
  { exists (-1)%Z. intros r. simpl. unfold res_rank, classificationRank. repeat case_test; lia. }
  simpl. case_test; [apply IH|].
  destruct (IH (reverse (node_children e) ++ stack)) as [w Hw].
  exists (Z.max (res_rank (node_candidate e)) w). intros r. rewrite Hw, improve_rank. lia.
Qed.

Lemma resolve_loop_fuel n stack r :
  (res_rank (resolve_loop n stack r) <= res_rank (resolve_loop (S n) stack r))%Z.
Proof.
  revert stack r. induction n as [|n IH]; intros [|e stack] r; try done.
  - simpl. case_test; [done|]. rewrite improve_rank. lia.
  - cbn [resolve_loop]. case_test; apply IH.
Qed.

Lemma improve_default c k e :
  Classification_valid c = true -> identity k ->
  improve default_resolution (node_candidate (FailureErr c k e)) = mkResolution c k.
Proof.
  intros Hc Hk. unfold node_candidate, Failure_Validate.
  rewrite Hc, (proj2 (invalidIdentity_false k) Hk). simpl.
  unfold improve. rewrite (proj2 (better_spec _ _)); [done|]. simpl.
  pose proof (rank_pos c Hc). apply identity_nonempty in Hk.
  change (classificationRank ClassificationRetryable) with 1%Z.
  destruct (decide (classificationRank c = 1)%Z); [right; auto|left; lia].
Qed.

Lemma resolve_loop_visit n e stack r :
  is_nil e = false ->
  resolve_loop (S n) (e :: stack) r
  = resolve_loop n (reverse (node_children e) ++ stack) (improve r (node_candidate e)).
Proof. intros H. simpl. by rewrite H. Qed.

(** Wrapping an error in a failure that carries its own class keeps the class,
    whatever the size of the graph and the number of visits. *)
Lemma rewrap_class_fuel n (e : error) (code : string) :
  identity code ->
  let c := Classification (resolve_loop (S n) [e] default_resolution) in
  Classification (resolve_loop (S n) [FailureErr c code e] default_resolution) = c.
Proof.
  intros Hk c. assert (Hc : Classification_valid c = true) by (by apply resolve_loop_good).
  rewrite resolve_loop_visit, improve_default by done.
  change (reverse (node_children (FailureErr c code e)) ++ []) with [e].
  apply rank_inj; [by apply resolve_loop_good|done|].
  destruct (resolve_loop_rank n [e]) as [w Hw].
  pose proof (Hw (mkResolution c code)) as H1. unfold res_rank in H1 at 1 2. rewrite H1.
  pose proof (resolve_loop_fuel n [e] default_resolution) as Hf. rewrite Hw in Hf.
  unfold res_rank in Hf at 2. fold c in Hf. cbn [Classification]. lia.
Qed.

Lemma rewrap_class (e : error) (code : string) :
  identity code -> ClassifyFailure (NewFailure (ClassifyFailure e) code e) = ClassifyFailure e.
Proof. exact (rewrap_class_fuel 63 e code). Qed.
