(* ===== verification/Job.v ===== *)
(** The job envelope of package [job]: options ([job/option.go]), metadata and
    its validation ([job/metadata.go]), the message with its settlement
    callbacks, validation, construction and bounded decoding ([job/job.go]).

    Go iterates maps in an unspecified order; the operations take that order as
    an argument and the theorems hold for every order. [encoding/json] enters
    [DecodeE] as the function it calls. *)

From S2P Require Import Prelude GoStd Contract.

Definition DefaultMaxMessageBytes : Z := 1024 * 1024.
Definition MaxRetryCount : Z := 100.

Definition ErrInvalidMessageLimit : error := Sentinel "message byte limit must be positive".
Definition ErrMessageTooLarge : error := Sentinel "message exceeds byte limit".
Definition ErrInvalidMessage : error := Sentinel "invalid message execution metadata".

(** [fmt.Errorf("%w: ...", ErrInvalidMessage)]. *)
Definition invalidMessage (text : string) : error := Wrap text ErrInvalidMessage.

(** * Metadata *)

Definition MaxMetadataValueBytes : Z := 256.
Definition MaxMetadataTags : Z := 32.
Definition MaxCorrelationFields : Z := 3.
Definition MaxCorrelationFieldBytes : Z := 64.
Definition MaxCorrelationValueBytes : Z := 1024.
Definition MaxTraceContextFields : Z := 16.
Definition MaxTraceContextFieldBytes : Z := 64.
Definition MaxTraceContextBytes : Z := 8192.

Record Metadata := mkMetadata {
  OriginalID : string;
  PayloadSchemaVersion : string;
  ContentType : string;
  EnqueuedAt : option Time;
  RetryPolicy : string;
  HandlerType : string;
  JobType : string;
  Tags : option (gmap string string);
  TraceID : string;
  TenantID : string;
  ProducerVersion : string;
  Correlation : option (gmap string string);
  TraceContext : option (gmap string string)
}.

Definition metadata_fields (m : Metadata) : list (string * string) :=
  [("original_id", OriginalID m);
   ("payload_schema_version", PayloadSchemaVersion m);
   ("content_type", ContentType m);
   ("retry_policy", RetryPolicy m);
   ("handler_type", HandlerType m);
   ("job_type", JobType m);
   ("trace_id", TraceID m);
   ("tenant_id", TenantID m);
   ("producer_version", ProducerVersion m)].

Section metadata.
(** The order in which a [range] over a map visits its entries. *)
Variable order : list (string * string) -> list (string * string).

(** A [range] loop that returns on the first entry failing [bad]. *)
Fixpoint range_reject (bad : string * string -> bool) (fail : string * string -> error)
    (l : list (string * string)) : error :=
  match l with
  | [] => ErrNil
  | kv :: l => if bad kv then fail kv else range_reject bad fail l
  end.

(** The trace-context loop carries a running byte total. *)
Fixpoint range_trace (traceContextBytes : Z) (l : list (string * string)) : error :=
  match l with
  | [] => ErrNil
  | (key, value) :: l =>
      let traceContextBytes := (traceContextBytes + (len key + len value))%Z in
      if blank key || blank value || (MaxTraceContextFieldBytes <? len key)%Z
         || (MaxTraceContextBytes <? traceContextBytes)%Z
      then invalidMessage "metadata trace context keys and values must be bounded"
      else range_trace traceContextBytes l
  end.

(** Runs a statement that may return an error before the rest. *)
Definition or_return (e rest : error) : error := if is_nil e then rest else e.

Definition Metadata_Validate (m : Metadata) : error :=
  or_return
    (range_reject
       (fun kv => (kv.2 != "") && (blank kv.2 || (MaxMetadataValueBytes <? len kv.2)%Z))
       (fun kv => invalidMessage ("metadata " +:+ kv.1 +:+ " must be bounded"))
       (order (metadata_fields m)))
  (if match EnqueuedAt m with Some t => IsZero t | None => false end
   then invalidMessage "metadata enqueued_at must be non-zero"
   else if (MaxMetadataTags <? map_len (Tags m))%Z
   then invalidMessage "metadata tags exceed the tag limit"
   else or_return
    (range_reject
       (fun kv => blank kv.1 || blank kv.2 || (MaxMetadataValueBytes <? len kv.1)%Z
                  || (MaxMetadataValueBytes <? len kv.2)%Z)
       (fun _ => invalidMessage "metadata tag keys and values must be bounded")
       (order (entries (Tags m))))
  (if (MaxCorrelationFields <? map_len (Correlation m))%Z
   then invalidMessage "metadata correlation fields exceed the field limit"
   else or_return
    (range_reject
       (fun kv => blank kv.1 || blank kv.2 || (MaxCorrelationFieldBytes <? len kv.1)%Z
                  || (MaxCorrelationValueBytes <? len kv.2)%Z)
       (fun _ => invalidMessage "metadata correlation keys and values must be bounded")
       (order (entries (Correlation m))))
  (if (MaxTraceContextFields <? map_len (TraceContext m))%Z
   then invalidMessage "metadata trace context fields exceed the field limit"
   else range_trace 0 (order (entries (TraceContext m)))))).

(** [make] and a [range] that stores every entry. *)
Definition clone_map (m : option (gmap string string)) : option (gmap string string) :=
  match m with
  | None => None
  | Some m => Some (fold_left (fun clone kv => <[kv.1 := kv.2]> clone)
                      (order (map_to_list m)) ∅)
  end.

Definition cloneMetadata (metadata : option Metadata) : option Metadata :=
  match metadata with
  | None => None
  | Some m =>
      Some (mkMetadata (OriginalID m) (PayloadSchemaVersion m) (ContentType m)
              (EnqueuedAt m) (RetryPolicy m) (HandlerType m) (JobType m)
              (clone_map (Tags m)) (TraceID m) (TenantID m) (ProducerVersion m)
              (clone_map (Correlation m)) (clone_map (TraceContext m)))
  end.

End metadata.

(** * Options *)

Record Options := mkOptions {
  retryCount : Z;
  retryDelay : Z;
  retryFactor : float64;
  retryMin : Z;
  retryMax : Z;
  jitter : bool;
  timeout : Z;
  metadata : option Metadata
}.

Definition newDefaultOptions : Options :=
  mkOptions 0 0 two64 (100 * Millisecond) (10 * Second) false (60 * Minute) None.

(** Pointer fields: [None] is nil. *)
Record AllowOption := mkAllowOption {
  aRetryCount : option Z;
  aRetryDelay : option Z;
  aRetryFactor : option float64;
  aRetryMin : option Z;
  aRetryMax : option Z;
  aJitter : option bool;
  aTimeout : option Z;
  aMetadata : option Metadata
}.

(** [if p != nil && *p != current { current = *p }]. *)
Definition overlay {A} (eqb : A -> A -> bool) (p : option A) (current : A) : A :=
  match p with
  | Some v => if negb (eqb v current) then v else current
  | None => current
  end.

Definition NewOptions order (opts : list AllowOption) : Options :=
  let o := newDefaultOptions in
  match opts with
  | [] => o
  | a :: _ =>
      mkOptions (overlay Z.eqb (aRetryCount a) (retryCount o))
                (overlay Z.eqb (aRetryDelay a) (retryDelay o))
                (overlay float_eq (aRetryFactor a) (retryFactor o))
                (overlay Z.eqb (aRetryMin a) (retryMin o))
                (overlay Z.eqb (aRetryMax a) (retryMax o))
                (overlay Bool.eqb (aJitter a) (jitter o))
                (overlay Z.eqb (aTimeout a) (timeout o))
                (cloneMetadata order (aMetadata a))
  end.

(** * Messages *)

(** A local task: the outcome of its n-th call. *)
Definition TaskFunc := nat -> go error.

Record Message := mkMessage {
  Task : option TaskFunc;
  ack : option (go error);
  nack : option (go error);
  nackFailure : option (error -> go error);
  Timeout : Z;
  Body : string;
  RetryCount : Z;
  RetryDelay : Z;
  RetryFactor : float64;
  RetryMin : Z;
  RetryMax : Z;
  Jitter : bool;
  Message_Metadata : option Metadata
}.

Definition with_callbacks (m : Message) a n f : Message :=
  mkMessage (Task m) a n f (Timeout m) (Body m) (RetryCount m) (RetryDelay m)
    (RetryFactor m) (RetryMin m) (RetryMax m) (Jitter m) (Message_Metadata m).

Definition SetAcknowledgement (a n : option (go error)) (m : Message) : Message :=
  with_callbacks m a n None.

Definition SetFailureAcknowledgement (a : option (go error)) (n : option (error -> go error))
    (m : Message) : Message :=
  with_callbacks m a None n.

Definition AcknowledgementRequired (m : Message) : bool :=
  bool_decide (is_Some (ack m)) || bool_decide (is_Some (nack m))
  || bool_decide (is_Some (nackFailure m)).

(** The settlement callback a method runs, if any, and its outcome. *)
Inductive settlement := CallAck | CallNack | CallNackFailure (cause : error).

Definition Ack (m : Message) : list settlement * go error :=
  match ack m with None => ([], Ret ErrNil) | Some f => ([CallAck], f) end.

Definition Nack (m : Message) : list settlement * go error :=
  match nack m with
  | Some f => ([CallNack], f)
  | None => match nackFailure m with
            | Some f => ([CallNackFailure ErrNil], f ErrNil)
            | None => ([], Ret ErrNil)
            end
  end.

Definition NackFailure (err : error) (m : Message) : list settlement * go error :=
  match nackFailure m with
  | None => Nack m
  | Some f => ([CallNackFailure err], f err)
  end.

Definition Message_Validate order (m : Message) : error :=
  or_return (match Message_Metadata m with
             | Some d => Metadata_Validate order d
             | None => ErrNil
             end)
  (if (Timeout m <=? 0)%Z then invalidMessage "timeout must be positive"
   else if (RetryCount m <? 0)%Z || (MaxRetryCount <? RetryCount m)%Z
   then invalidMessage "retry count must be between 0 and 100"
   else if (RetryDelay m <? 0)%Z then invalidMessage "retry delay cannot be negative"
   else if (RetryCount m =? 0)%Z || (0 <? RetryDelay m)%Z then ErrNil
   else if IsNaN (RetryFactor m) || IsInf (RetryFactor m) || float_lt (RetryFactor m) one64
   then invalidMessage "retry factor must be finite and at least one"
   else if (RetryMin m <=? 0)%Z then invalidMessage "retry minimum must be positive"
   else if (RetryMax m <? RetryMin m)%Z
   then invalidMessage "retry maximum must not be below minimum"
   else ErrNil).

Definition Payload (m : Message) : string := Body m.

Definition CorrelationMetadata order (m : option Message) : option (gmap string string) :=
  match m with
  | Some m => match Message_Metadata m with
              | Some d => clone_map order (Correlation d)
              | None => None
              end
  | None => None
  end.

Definition TraceContextMetadata order (m : option Message) : option (gmap string string) :=
  match m with
  | Some m => match Message_Metadata m with
              | Some d => clone_map order (TraceContext d)
              | None => None
              end
  | None => None
  end.

Definition NewMessage order (bytes : string) (opts : list AllowOption) : Message :=
  let o := NewOptions order opts in
  mkMessage None None None None (timeout o) bytes (retryCount o) (retryDelay o)
    (retryFactor o) (retryMin o) (retryMax o) (jitter o) (metadata o).

Definition NewTask order (task : TaskFunc) (opts : list AllowOption) : Message :=
  let o := NewOptions order opts in
  mkMessage (Some task) None None None (timeout o) "" (retryCount o) (retryDelay o)
    (retryFactor o) (retryMin o) (retryMax o) (jitter o) (metadata o).

(** [unmarshal] is [json.Unmarshal] into a zero [Message]. *)
Definition DecodeE order (unmarshal : string -> error + Message) (b : string) (maxBytes : Z)
    : error + Message :=
  if (maxBytes <=? 0)%Z then inl ErrInvalidMessageLimit
  else if (maxBytes <? len b)%Z then inl (Wrap "message too large" ErrMessageTooLarge)
  else match unmarshal b with
       | inl err => inl (Wrap "decode message" err)
       | inr msg => let err := Message_Validate order msg in
                    if is_nil err then inr msg else inl err
       end.

(** [Decode] panics on every decoding error. *)
Definition Decode order (unmarshal : string -> error + Message) (b : string) : go Message :=
  match DecodeE order unmarshal b DefaultMaxMessageBytes with
  | inl _ => Panic "decode"
  | inr msg => Ret msg
  end.

(** * Specification of a valid envelope *)

Definition bounded (n : Z) (s : string) : Prop := blank s = false /\ (len s <= n)%Z.

Definition total_bytes (l : list (string * string)) : Z :=
  foldr (fun kv acc => len kv.1 + len kv.2 + acc)%Z 0%Z l.

Record metadata_ok (m : Metadata) : Prop := {
  mo_fields : Forall (fun kv => kv.2 = "" \/ bounded MaxMetadataValueBytes kv.2)
                (metadata_fields m);
  mo_enqueued : forall t, EnqueuedAt m = Some t -> IsZero t = false;
  mo_tag_count : (map_len (Tags m) <= MaxMetadataTags)%Z;
  mo_tags : Forall (fun kv => bounded MaxMetadataValueBytes kv.1 /\
                              bounded MaxMetadataValueBytes kv.2) (entries (Tags m));
  mo_corr_count : (map_len (Correlation m) <= MaxCorrelationFields)%Z;
  mo_corr : Forall (fun kv => bounded MaxCorrelationFieldBytes kv.1 /\
                              bounded MaxCorrelationValueBytes kv.2) (entries (Correlation m));
  mo_trace_count : (map_len (TraceContext m) <= MaxTraceContextFields)%Z;
  mo_trace : Forall (fun kv => bounded MaxTraceContextFieldBytes kv.1 /\ blank kv.2 = false)
               (entries (TraceContext m));
  mo_trace_total : (total_bytes (entries (TraceContext m)) <= MaxTraceContextBytes)%Z
}.

(** The backoff parameters, which matter only when a retry has to choose a delay. *)
Definition backoff_ok (m : Message) : Prop :=
  IsNaN (RetryFactor m) = false /\ IsInf (RetryFactor m) = false /\
  float_lt (RetryFactor m) one64 = false /\
  (0 < RetryMin m <= RetryMax m)%Z.

Record message_ok (m : Message) : Prop := {
  ok_metadata : forall d, Message_Metadata m = Some d -> metadata_ok d;
  ok_timeout : (0 < Timeout m)%Z;
  ok_count : (0 <= RetryCount m <= MaxRetryCount)%Z;
  ok_delay : (0 <= RetryDelay m)%Z;
  ok_backoff : (0 < RetryCount m)%Z -> RetryDelay m = 0%Z -> backoff_ok m
}.

(** * Proofs *)

Lemma or_return_nil e rest : or_return e rest = ErrNil <-> e = ErrNil /\ rest = ErrNil.
Proof. unfold or_return. destruct e; simpl; intuition congruence. Qed.

Lemma invalidMessage_if (b : bool) text rest :
  (if b then invalidMessage text else rest) = ErrNil <-> b = false /\ rest = ErrNil.
Proof. destruct b; unfold invalidMessage; intuition congruence. Qed.

Lemma range_reject_nil bad fail l :
  (forall kv, fail kv <> ErrNil) ->
  range_reject bad fail l = ErrNil <-> Forall (fun kv => bad kv = false) l.
Proof.
  intros Hf. induction l as [|kv l IH]; simpl; [done|].
  rewrite Forall_cons, <- IH. destruct (bad kv); [|tauto].
  split; [by intros ?%Hf|]. by intros [? _].
Qed.

Lemma total_bytes_nonneg l : (0 <= total_bytes l)%Z.
Proof. induction l as [|[k v] l IH]; simpl; unfold len; lia. Qed.

Lemma total_bytes_perm l k : l ≡ₚ k -> total_bytes l = total_bytes k.
Proof. induction 1; simpl; lia. Qed.

Lemma range_trace_nil acc l :
  (acc <= MaxTraceContextBytes)%Z ->
  range_trace acc l = ErrNil <->
  Forall (fun kv => bounded MaxTraceContextFieldBytes kv.1 /\ blank kv.2 = false) l /\
  (acc + total_bytes l <= MaxTraceContextBytes)%Z.
Proof.
  revert acc. induction l as [|[k v] l IH]; intros acc Hacc; simpl.
  { rewrite Z.add_0_r. by split. }
  rewrite invalidMessage_if, Forall_cons. simpl. unfold bounded.
  rewrite !orb_false_iff, !Z.ltb_ge. pose proof (total_bytes_nonneg l).
  split.
  - intros [[[[??]?]?] Hl]. apply IH in Hl; [|done]. destruct Hl. split; [tauto|lia].
  - intros [[[[??]?]?] ?]. split; [split_and!; [done..|lia]|].
    apply IH; [lia|]. split; [done|lia].
Qed.

Lemma bounded_reject n s : blank s || (n <? len s)%Z = false <-> bounded n s.
Proof. unfold bounded. rewrite orb_false_iff, Z.ltb_ge. tauto. Qed.

Section order.
Variable order : list (string * string) -> list (string * string).
Hypothesis order_perm : forall l, order l ≡ₚ l.

Lemma Forall_order (P : string * string -> Prop) l : Forall P (order l) <-> Forall P l.
Proof. by rewrite order_perm. Qed.

Lemma range_pairs n1 n2 text l :
  range_reject (fun kv => blank kv.1 || blank kv.2 || (n1 <? len kv.1)%Z || (n2 <? len kv.2)%Z)
    (fun _ => invalidMessage text) (order l) = ErrNil <->
  Forall (fun kv => bounded n1 kv.1 /\ bounded n2 kv.2) l.
Proof.
  rewrite range_reject_nil by done. rewrite Forall_order. apply Forall_proper; [|done].
  intros kv. unfold bounded. rewrite !orb_false_iff, !Z.ltb_ge. tauto.
Qed.

Lemma Metadata_Validate_ok m : Metadata_Validate order m = ErrNil <-> metadata_ok m.
Proof.
  unfold Metadata_Validate.
  rewrite !or_return_nil, !invalidMessage_if, !or_return_nil, !invalidMessage_if.
  rewrite or_return_nil, !invalidMessage_if.
  rewrite range_trace_nil, Forall_order, (total_bytes_perm _ _ (order_perm _)), Z.add_0_l by done.
  rewrite !range_pairs, range_reject_nil, Forall_order, !Z.ltb_ge by done.
  assert (Forall (fun kv => (kv.2 != "") && (blank kv.2 || (MaxMetadataValueBytes <? len kv.2)%Z)
                            = false) (metadata_fields m) <->
          Forall (fun kv => kv.2 = "" \/ bounded MaxMetadataValueBytes kv.2) (metadata_fields m))
    as ->.
  { apply Forall_proper; [|done]. intros kv.
    rewrite andb_false_iff, bounded_reject, negb_false_iff, String.eqb_eq. tauto. }
  assert (match EnqueuedAt m with Some t => IsZero t | None => false end = false <->
          forall t, EnqueuedAt m = Some t -> IsZero t = false) as ->.
  { destruct (EnqueuedAt m); naive_solver. }
  split; [intros (? & ? & ? & ? & ? & ? & ? & ? & ?) | intros []]; try constructor; tauto.
Qed.

Lemma Message_Validate_ok m : Message_Validate order m = ErrNil <-> message_ok m.
Proof.
  unfold Message_Validate. rewrite or_return_nil, !invalidMessage_if.
  assert (match Message_Metadata m with
          | Some d => Metadata_Validate order d | None => ErrNil end = ErrNil <->
          forall d, Message_Metadata m = Some d -> metadata_ok d) as ->.
  { destruct (Message_Metadata m) as [d|]; [rewrite Metadata_Validate_ok|]; naive_solver. }
  rewrite !orb_false_iff, !Z.leb_gt, !Z.ltb_ge.
  destruct ((RetryCount m =? 0)%Z || (0 <? RetryDelay m)%Z) eqn:E.
  - split.
    + intros (? & ? & ? & ? & _). split; try done. lia.
    + intros [? ? ? ? _]. split_and!; try done; lia.
  - rewrite !invalidMessage_if, !orb_false_iff, Z.leb_gt, Z.ltb_ge.
    split.
    + intros (? & ? & ? & ? & ? & ? & ? & _). split; try done. intros _ _. unfold backoff_ok. tauto.
    + intros [? ? ? ? Hb]. destruct Hb as (? & ? & ? & ?); [lia..|].
      split_and!; try done; lia.
Qed.

Lemma clone_map_eq m : clone_map order m = m.
Proof.
  destruct m as [m|]; simpl; [|done]. f_equal.
  rewrite <- fold_left_rev_right.
  change (list_to_map (M := gmap string string) (rev (order (map_to_list m))) = m).
  rewrite <- (list_to_map_to_list m) at 2. apply list_to_map_proper.
  - rewrite <- Permutation_rev, order_perm. apply NoDup_fst_map_to_list.
  - by rewrite <- Permutation_rev, order_perm.
Qed.

Lemma cloneMetadata_eq m : cloneMetadata order m = m.
Proof. destruct m as [[]|]; simpl; [|done]. by rewrite !clone_map_eq. Qed.

End order.

(** Whatever order Go iterates maps in, [Message.Validate] accepts exactly the
    envelopes with a positive timeout, 0 to 100 retries, a non-negative delay,
    usable backoff parameters when a retry needs them, and bounded metadata; the
    verdict never depends on the iteration order. *)
Theorem message_validate_iff (order : list (string * string) -> list (string * string))
    (m : Message) :
  (forall l, order l ≡ₚ l) -> Message_Validate order m = ErrNil <-> message_ok m.
Proof. intros. by apply Message_Validate_ok. Qed.

Definition plain_message (count delay : Z) : Message :=
  mkMessage None None None None Minute "x" count delay two64 Millisecond Second false
    (Some (mkMetadata "id" "" "" None "" "" "" (Some {["team" := "core"]}) "" "" "" None None)).

Lemma message_validate_iff_witness :
  message_ok (plain_message 3 0) /\ ~ message_ok (plain_message 101 0).
Proof.
  split; rewrite <- (message_validate_iff (fun l => l)) by reflexivity; vm_compute;
    [reflexivity | discriminate].
Defined.

(** [DecodeE] returns a message only if the limit is positive, the encoding
    fits it, the JSON decoder produced that very message and the message is
    valid; conversely such an input always decodes. An oversized input is
    rejected without consulting the decoder. *)
Theorem decode_exact (order : list (string * string) -> list (string * string))
    (unmarshal : string -> error + Message) (b : string) (maxBytes : Z) (m : Message) :
  (forall l, order l ≡ₚ l) ->
  (DecodeE order unmarshal b maxBytes = inr m <->
   (0 < maxBytes)%Z /\ (len b <= maxBytes)%Z /\ unmarshal b = inr m /\ message_ok m) /\
  ((maxBytes < len b)%Z -> forall unmarshal',
   DecodeE order unmarshal b maxBytes = DecodeE order unmarshal' b maxBytes).
Proof.
  intros Ho. unfold DecodeE. split.
  - destruct (maxBytes <=? 0)%Z eqn:E1; [split; [done|lia]|].
    destruct (maxBytes <? len b)%Z eqn:E2; [split; [done|lia]|].
    destruct (unmarshal b) as [e|m']; [split; [done|naive_solver]|].
    pose proof (Message_Validate_ok order Ho m') as Hv.
    destruct (Message_Validate order m'); simpl in *; split; intros H;
      try discriminate H; try (injection H as <-); try (split_and!; [lia..|done|tauto]).
    all: destruct H as (_ & _ & [= <-] & H); apply Hv in H; done.
  - intros H u'. destruct (maxBytes <=? 0)%Z; [done|].
    destruct (maxBytes <? len b)%Z eqn:E2; [done|lia].
Qed.

Definition sample_unmarshal (b : string) : error + Message :=
  if b == "{}" then inr (plain_message 3 0) else inl (Leaf "unexpected end of JSON input").

Lemma decode_exact_witness :
  DecodeE (fun l => l) sample_unmarshal "{}" 16 = inr (plain_message 3 0) /\
  DecodeE (fun l => l) sample_unmarshal "{  }" 3 = DecodeE (fun l => l) (fun _ => inl ErrNil) "{  }" 3.
Proof.
  split.
  - apply (proj1 (decode_exact (fun l => l) sample_unmarshal "{}" 16 (plain_message 3 0)
                    ltac:(reflexivity))).
    split; [lia|]. split; [vm_compute; discriminate|]. split; [reflexivity|].
    apply (Message_Validate_ok (fun l => l)); [reflexivity|]. vm_compute. reflexivity.
  - apply (proj2 (decode_exact (fun l => l) sample_unmarshal "{  }" 3 (plain_message 3 0)
                    ltac:(reflexivity))). vm_compute. reflexivity.
Defined.

(** Options given to a constructor reach the message unchanged, and unset ones
    take the documented defaults, which are always valid: a message made with no
    options passes validation. *)
Theorem new_message_options (order : list (string * string) -> list (string * string))
    (bytes : string) (a : AllowOption) (rest : list AllowOption) :
  (forall l, order l ≡ₚ l) ->
  message_ok (NewMessage order bytes []) /\
  let m := NewMessage order bytes (a :: rest) in
  Body m = bytes /\
  RetryCount m = default 0%Z (aRetryCount a) /\
  RetryDelay m = default 0%Z (aRetryDelay a) /\
  RetryMin m = default (100 * Millisecond)%Z (aRetryMin a) /\
  RetryMax m = default (10 * Second)%Z (aRetryMax a) /\
  Timeout m = default (60 * Minute)%Z (aTimeout a) /\
  Jitter m = default false (aJitter a) /\
  Message_Metadata m = aMetadata a /\ AcknowledgementRequired m = false.
Proof.
  intros Ho. split.
  { apply (Message_Validate_ok order Ho). reflexivity. }
  assert (Z_over : forall p c, overlay Z.eqb p c = default c p).
  { intros [v|] c; simpl; [|done]. destruct (v =? c)%Z eqn:E; simpl; [lia|done]. }
  assert (B_over : forall p c, overlay Bool.eqb p c = default c p).
  { intros [[]|] []; done. }
  cbv zeta. unfold NewMessage, NewOptions. simpl.
  rewrite !Z_over, B_over, cloneMetadata_eq by done. split_and!; done.
Qed.

Lemma new_message_options_witness :
  RetryCount (NewMessage (fun l => l) "x"
                [mkAllowOption (Some 3%Z) None None None None None None None]) = 3%Z.
Proof.
  exact (proj1 (proj2 (proj2
    (new_message_options (fun l => l) "x"
       (mkAllowOption (Some 3%Z) None None None None None None None) []
       ltac:(reflexivity))))).
Defined.

(** The settlement methods, for use by the scheduler. *)
Lemma settlement_at_most_one m err :
  (length (Ack m).1 <= 1)%nat /\ (length (Nack m).1 <= 1)%nat /\
  (length (NackFailure err m).1 <= 1)%nat.
Proof. unfold Ack, NackFailure, Nack. repeat case_match; simpl; lia. Qed.
