(* ===== verification/Control.v ===== *)
(** Management commands and results of [management/control.go]: the command
    envelope, its validation, the action/target table and the result contract. *)

From S2P Require Import Prelude GoStd Contract.

Definition MaxReasonBytes : Z := 1024.
Definition MaxBulkSelection : Z := 1000.

Definition CommandPause : string := "pause".
Definition CommandResume : string := "resume".
Definition CommandDrain : string := "drain".
Definition CommandTerminate : string := "terminate".
Definition CommandRetry : string := "retry".
Definition CommandBulkRetry : string := "bulk_retry".
Definition CommandDelete : string := "delete".
Definition CommandPurge : string := "purge".
Definition CommandReplay : string := "replay".

Definition TargetQueue : string := "queue".
Definition TargetWorker : string := "worker".
Definition TargetWorkerGroup : string := "worker_group".
Definition TargetFailure : string := "failure".
Definition TargetDeadLetter : string := "dead_letter".

Record Target := mkTarget { Kind : string; Name : string }.

#[export] Instance Target_eq_dec : EqDecision Target.
Proof. solve_decision. Defined.

#[export] Instance Target_countable : Countable Target.
Proof.
  refine (inj_countable' (fun t => (Kind t, Name t)) (fun p => mkTarget p.1 p.2) _).
  by intros [].
Defined.

Definition ReplayRejectDuplicate : string := "reject_duplicate".
Definition ReplayReplaceDuplicate : string := "replace_duplicate".

Record ReplayOptions := mkReplay { Destination : string; IdempotencyPolicy : string }.

#[export] Instance ReplayOptions_eq_dec : EqDecision ReplayOptions.
Proof. solve_decision. Defined.

Record Selection := mkSelection { Limit : Z }.

#[export] Instance Selection_eq_dec : EqDecision Selection.
Proof. solve_decision. Defined.

Record Command := mkCommand {
  ID : string;
  IdempotencyKey : string;
  Actor : string;
  Reason : string;
  Protocol : ProtocolVersion;
  Action : string;
  Command_Target : Target;
  RequestedAt : Time;
  Deadline : Time;
  Confirmed : bool;
  Command_Selection : option Selection;
  Replay : option ReplayOptions
}.

#[export] Instance Command_eq_dec : EqDecision Command.
Proof. solve_decision. Defined.

Definition CommandAction_valid (a : string) : bool :=
  (a == CommandPause) || (a == CommandResume) || (a == CommandDrain)
  || (a == CommandTerminate) || (a == CommandRetry) || (a == CommandBulkRetry)
  || (a == CommandDelete) || (a == CommandPurge) || (a == CommandReplay).

Definition CommandAction_supports (a target : string) : bool :=
  if (a == CommandPause) || (a == CommandResume)
  then (target == TargetQueue) || (target == TargetWorkerGroup)
  else if (a == CommandDrain) || (a == CommandTerminate)
  then (target == TargetWorker) || (target == TargetWorkerGroup)
  else if (a == CommandRetry) || (a == CommandBulkRetry) || (a == CommandDelete)
          || (a == CommandReplay)
  then (target == TargetFailure) || (target == TargetDeadLetter)
  else if a == CommandPurge
  then (target == TargetQueue) || (target == TargetFailure) || (target == TargetDeadLetter)
  else false.

Definition TargetKind_valid (k : string) : bool :=
  (k == TargetQueue) || (k == TargetWorker) || (k == TargetWorkerGroup)
  || (k == TargetFailure) || (k == TargetDeadLetter).

Definition ReplayPolicy_valid (p : string) : bool :=
  (p == ReplayRejectDuplicate) || (p == ReplayReplaceDuplicate).

(** The switch on the action that ends [Validate]. *)
Definition Command_safeguards (c : Command) : error :=
  if Action c == CommandPurge then
    if negb (Confirmed c) then invalid "confirmed" "is required for purge" else ErrNil
  else if Action c == CommandBulkRetry then
    if negb (Confirmed c) then invalid "confirmed" "is required for bulk retry"
    else match Command_Selection c with
         | None => invalid "selection" "is required"
         | Some s => if (Limit s =? 0)%Z || (MaxBulkSelection <? Limit s)%Z
                     then invalid "selection.limit" "must be within the bulk limit" else ErrNil
         end
  else if Action c == CommandReplay then
    if negb (Confirmed c) then invalid "confirmed" "is required for replay"
    else match Replay c with
         | None => invalid "replay" "is required"
         | Some r => if invalidIdentity (Destination r)
                     then invalid "replay.destination" "is required and must be bounded"
                     else if negb (ReplayPolicy_valid (IdempotencyPolicy r))
                     then invalid "replay.idempotency_policy" "is unsupported" else ErrNil
         end
  else ErrNil.

Definition Command_Validate (c : Command) : error :=
  if invalidIdentity (ID c) then invalid "id" "is required and must be bounded"
  else if invalidIdentity (IdempotencyKey c)
  then invalid "idempotency_key" "is required and must be bounded"
  else if invalidIdentity (Actor c) then invalid "actor" "is required and must be bounded"
  else if blank (Reason c) || (MaxReasonBytes <? len (Reason c))%Z
  then invalid "reason" "is required and must be bounded"
  else if version_eqb (Protocol c) zeroVersion then invalid "protocol" "is required"
  else if negb (CommandAction_valid (Action c)) then invalid "action" "is unsupported"
  else if negb (TargetKind_valid (Kind (Command_Target c)))
  then invalid "target.kind" "is unsupported"
  else if invalidIdentity (Name (Command_Target c))
  then invalid "target.name" "is required and must be bounded"
  else if IsZero (RequestedAt c) then invalid "requested_at" "is required"
  else if negb (After (Deadline c) (RequestedAt c))
  then invalid "deadline" "must follow requested_at"
  else if negb (CommandAction_supports (Action c) (Kind (Command_Target c)))
  then invalid "target.kind" "is unsupported for the action"
  else Command_safeguards c.

Definition CommandAcknowledged : string := "acknowledged".
Definition CommandRejected : string := "rejected".
Definition CommandFailed : string := "failed".
Definition CommandUnsupported : string := "unsupported".
Definition CommandTimedOut : string := "timed_out".
Definition CommandPartial : string := "partial".
Definition CommandUnknown : string := "unknown".

Record CommandResult := mkResult {
  CommandID : string;
  Result_IdempotencyKey : string;
  WorkerID : string;
  Result_Protocol : ProtocolVersion;
  Status : string;
  FailureCode : string;
  CompletedAt : Time
}.

#[export] Instance CommandResult_eq_dec : EqDecision CommandResult.
Proof. solve_decision. Defined.

Definition zeroResult : CommandResult := mkResult "" "" "" zeroVersion "" "" zeroTime.

Definition CommandResultStatus_valid (s : string) : bool :=
  (s == CommandAcknowledged) || (s == CommandRejected) || (s == CommandFailed)
  || (s == CommandUnsupported) || (s == CommandTimedOut) || (s == CommandPartial)
  || (s == CommandUnknown).

Definition requiresFailureCode (s : string) : bool :=
  if (s == CommandRejected) || (s == CommandFailed) || (s == CommandUnsupported)
     || (s == CommandTimedOut) || (s == CommandPartial) then true
  else if (s == CommandAcknowledged) || (s == CommandUnknown) then false
  else true.

Definition CommandResult_Validate (r : CommandResult) : error :=
  if invalidIdentity (CommandID r) then invalid "command_id" "is required and must be bounded"
  else if invalidIdentity (Result_IdempotencyKey r)
  then invalid "idempotency_key" "is required and must be bounded"
  else if invalidIdentity (WorkerID r) then invalid "worker_id" "is required and must be bounded"
  else if version_eqb (Result_Protocol r) zeroVersion then invalid "protocol" "is required"
  else if negb (CommandResultStatus_valid (Status r)) then invalid "status" "is unsupported"
  else if IsZero (CompletedAt r) then invalid "completed_at" "is required"
  else if requiresFailureCode (Status r) && invalidIdentity (FailureCode r)
  then invalid "failure_code" "is required and must be bounded"
  else ErrNil.

(** * Specification *)

(** The targets each action may address. *)
Definition action_table : list (string * list string) :=
  [(CommandPause, [TargetQueue; TargetWorkerGroup]);
   (CommandResume, [TargetQueue; TargetWorkerGroup]);
   (CommandDrain, [TargetWorker; TargetWorkerGroup]);
   (CommandTerminate, [TargetWorker; TargetWorkerGroup]);
   (CommandRetry, [TargetFailure; TargetDeadLetter]);
   (CommandBulkRetry, [TargetFailure; TargetDeadLetter]);
   (CommandDelete, [TargetFailure; TargetDeadLetter]);
   (CommandPurge, [TargetQueue; TargetFailure; TargetDeadLetter]);
   (CommandReplay, [TargetFailure; TargetDeadLetter])].

Definition in_table (action target : string) : Prop :=
  exists targets, (action, targets) ∈ action_table /\ target ∈ targets.

(** The safeguards of the destructive actions. *)
Definition safeguarded (c : Command) : Prop :=
  (Action c = CommandPurge \/ Action c = CommandBulkRetry \/ Action c = CommandReplay ->
   Confirmed c = true) /\
  (Action c = CommandBulkRetry ->
   exists s, Command_Selection c = Some s /\ Limit s <> 0%Z /\ (Limit s <= MaxBulkSelection)%Z) /\
  (Action c = CommandReplay ->
   exists r, Replay c = Some r /\ identity (Destination r) /\
             ReplayPolicy_valid (IdempotencyPolicy r) = true).

Record command_ok (c : Command) : Prop := {
  co_id : identity (ID c);
  co_key : identity (IdempotencyKey c);
  co_actor : identity (Actor c);
  co_reason : blank (Reason c) = false /\ (len (Reason c) <= MaxReasonBytes)%Z;
  co_protocol : Protocol c <> zeroVersion;
  co_name : identity (Name (Command_Target c));
  co_requested : IsZero (RequestedAt c) = false;
  co_deadline : After (Deadline c) (RequestedAt c) = true;
  co_table : in_table (Action c) (Kind (Command_Target c));
  co_safe : safeguarded c
}.

(** * Proofs *)

Lemma in_table_bool a k :
  in_table a k <->
  existsb (fun p => (a == p.1) && existsb (String.eqb k) p.2) action_table = true.
Proof.
  unfold in_table. rewrite existsb_exists. split.
  - intros (ts & Hin & Hk). exists (a, ts). rewrite <- list_elem_of_In. split; [done|].
    simpl. rewrite String.eqb_refl. apply existsb_exists. exists k.
    rewrite <- list_elem_of_In, String.eqb_refl. done.
  - intros ([a' ts] & Hin & H). simpl in H. apply andb_true_iff in H as [<-%String.eqb_eq H].
    apply existsb_exists in H as (k' & Hk & ->%String.eqb_eq).
    exists ts. by rewrite !list_elem_of_In.
Qed.

Lemma supports_table a k :
  CommandAction_valid a = true /\ TargetKind_valid k = true /\ CommandAction_supports a k = true
  <-> in_table a k.
Proof.
  rewrite in_table_bool.
  unfold CommandAction_valid, CommandAction_supports, action_table, TargetKind_valid.
  cbn [existsb fst snd].
  repeat match goal with
         | |- context [?x == ?c] => is_var x; destruct (String.eqb_spec x c) as [->|?]; cbn
         end; intuition congruence.
Qed.

Lemma safeguards_ok c : Command_safeguards c = ErrNil <-> safeguarded c.
Proof.
  unfold Command_safeguards, safeguarded.
  destruct (String.eqb_spec (Action c) CommandPurge) as [E|E1].
  { rewrite E, invalid_if, negb_false. split; [|tauto]. intros [-> _]. split_and!; done. }
  destruct (String.eqb_spec (Action c) CommandBulkRetry) as [E|E2].
  { rewrite E, invalid_if, negb_false. destruct (Command_Selection c) as [s|].
    - rewrite invalid_if, orb_false_iff, Z.eqb_neq, Z.ltb_ge. split.
      + intros (? & [? ?] & _). split_and!; [done|eauto|done].
      + intros (H1 & H2 & _). destruct H2 as (s' & [= <-] & ? & ?); [done|]. auto.
    - split; [by intros [_ ?]|]. intros (_ & H2 & _). by destruct H2 as (? & ? & _). }
  destruct (String.eqb_spec (Action c) CommandReplay) as [E|E3].
  { rewrite E, invalid_if, negb_false. destruct (Replay c) as [r|].
    - rewrite !invalid_if, invalidIdentity_false, negb_false. split.
      + intros (? & ? & ? & _). split_and!; [done|done|eauto].
      + intros (H1 & _ & H2). destruct H2 as (r' & [= <-] & ? & ?); [done|]. auto.
    - split; [by intros [_ ?]|]. intros (_ & _ & H2). by destruct H2 as (? & ? & _). }
  split; [|done]. intros _. split_and!; intros; naive_solver.
Qed.

Lemma Command_Validate_ok c : Command_Validate c = ErrNil <-> command_ok c.
Proof.
  unfold Command_Validate. rewrite !invalid_if, !invalidIdentity_false, !negb_false.
  rewrite version_unset, orb_false_iff, Z.ltb_ge, safeguards_ok. split.
  - intros (? & ? & ? & ? & ? & ? & ? & ? & ? & ? & ? & ?). split; try done.
    by apply supports_table.
  - intros [? ? ? ? ? ? ? ? Ht ?]. apply supports_table in Ht. tauto.
Qed.

(** A command passes validation exactly when its identities, reason, protocol
    and deadline are well-formed, its action may address its target kind, and a
    destructive action carries its safeguards: purge, bulk retry and replay are
    confirmed, a bulk retry selects 1 to 1000 records, a replay names a bounded
    destination and a known duplicate policy. *)
Theorem command_validate_iff (c : Command) : Command_Validate c = ErrNil <-> command_ok c.
Proof. apply Command_Validate_ok. Qed.

Lemma CommandResult_Validate_ok r :
  identity (CommandID r) -> identity (Result_IdempotencyKey r) -> identity (WorkerID r) ->
  Result_Protocol r <> zeroVersion -> CommandResultStatus_valid (Status r) = true ->
  IsZero (CompletedAt r) = false ->
  (requiresFailureCode (Status r) = true -> identity (FailureCode r)) ->
  CommandResult_Validate r = ErrNil.
Proof.
  intros ?????? Hc. unfold CommandResult_Validate.
  rewrite !invalid_if, !invalidIdentity_false, version_unset, negb_false.
  split_and!; try done. apply andb_false_iff.
  destruct (requiresFailureCode (Status r)); [right|by left].
  apply invalidIdentity_false. auto.
Qed.
