(* ===== verification/Status.v ===== *)
(** Worker and queue observations of [management/status.go]: the bounded status
    contracts, their validation and their pages. *)

From S2P Require Import Prelude GoStd Contract.

Definition MaxQueuesPerWorker : Z := 256.
Definition MaxCapabilitiesPerWorker : Z := 64.
Definition MaxWorkerConcurrency : Z := 1000000.
Definition MaxStatusPageSize : Z := 200.
(** From [management/records.go]. *)
Definition MaxCursorBytes : Z := 1024.

Definition WorkerRunning : string := "running".
Definition WorkerPaused : string := "paused".
Definition WorkerDraining : string := "draining".
Definition WorkerStopped : string := "stopped".

Definition DrainNotRequested : string := "not_requested".
Definition DrainRequested : string := "requested".
Definition DrainInProgress : string := "in_progress".
Definition DrainCompleted : string := "completed".
Definition DrainTimedOut : string := "timed_out".

Record WorkerStatus := mkWorkerStatus {
  W_ID : string;
  W_Version : string;
  StartedAt : Time;
  HeartbeatAt : Time;
  Queues : list string;
  Concurrency : Z;
  State : string;
  CurrentJobs : Z;
  DrainStatus : string;
  W_Backend : string;
  W_Protocol : ProtocolVersion;
  Capabilities : list string
}.

Record StatusMetadata := mkStatusMetadata {
  M_ID : string;
  M_Version : string;
  M_Concurrency : Z;
  M_Protocol : ProtocolVersion
}.

Definition StatusMetadata_Validate (m : StatusMetadata) : error :=
  if invalidIdentity (M_ID m) then invalid "id" "is required and must be bounded"
  else if invalidIdentity (M_Version m) then invalid "version" "is required and must be bounded"
  else if (M_Concurrency m =? 0)%Z || (MaxWorkerConcurrency <? M_Concurrency m)%Z
  then invalid "concurrency" "must be within the worker limit"
  else if version_eqb (M_Protocol m) zeroVersion then invalid "protocol" "is required"
  else ErrNil.

Record Measurement (T : Type) := mkMeasurement { Value : T; Supported : bool }.
Arguments mkMeasurement {T} _ _.
Arguments Value {T} _.
Arguments Supported {T} _.

Record QueueMetrics := mkMetrics {
  Depth : Measurement Z;
  Lag : Measurement Z;
  Pending : Measurement Z;
  OldestAge : Measurement Z;
  Throughput : Measurement float64;
  Runtime : Measurement Z;
  Succeeded : Measurement Z;
  Failed : Measurement Z;
  Retried : Measurement Z;
  Reclaimed : Measurement Z;
  DeadLettered : Measurement Z;
  SettlementErrors : Measurement Z
}.

Record QueueStatus := mkQueueStatus {
  Q_Backend : string;
  Q_Queue : string;
  ObservedAt : Time;
  Metrics : QueueMetrics
}.

Record StatusPageRequest := mkStatusPageRequest { P_Cursor : string; P_Limit : Z }.

Definition StatusPageRequest_Validate (r : StatusPageRequest) : error :=
  if (P_Limit r =? 0)%Z || (MaxStatusPageSize <? P_Limit r)%Z
  then invalid "limit" "must be within the page limit"
  else if (MaxCursorBytes <? len (P_Cursor r))%Z
  then invalid "cursor" "exceeds the cursor limit"
  else ErrNil.

Definition WorkerState_valid (s : string) : bool :=
  (s == WorkerRunning) || (s == WorkerPaused) || (s == WorkerDraining) || (s == WorkerStopped).

Definition DrainState_valid (s : string) : bool :=
  (s == DrainNotRequested) || (s == DrainRequested) || (s == DrainInProgress)
  || (s == DrainCompleted) || (s == DrainTimedOut).

(** [for index, label := range labels]: the first invalid label is reported. *)
Fixpoint validate_labels (name : string) (index : nat) (labels : list string) : error :=
  match labels with
  | [] => ErrNil
  | label :: rest =>
      if invalidIdentity label then invalid (name +:+ "[" +:+ Itoa index +:+ "]") "is invalid"
      else validate_labels name (S index) rest
  end.

Definition zlen {A} (l : list A) : Z := Z.of_nat (length l).

(** Continues after a loop that did not return. *)
Definition then_check (e rest : error) : error := if is_nil e then rest else e.

Definition WorkerStatus_Validate (s : WorkerStatus) : error :=
  if invalidIdentity (W_ID s) then invalid "id" "is required and must be bounded"
  else if invalidIdentity (W_Version s) then invalid "version" "is required and must be bounded"
  else if IsZero (StartedAt s) then invalid "started_at" "is required"
  else if IsZero (HeartbeatAt s) then invalid "heartbeat_at" "is required"
  else if Before (HeartbeatAt s) (StartedAt s)
  then invalid "heartbeat_at" "cannot precede started_at"
  else if (MaxQueuesPerWorker <? zlen (Queues s))%Z
  then invalid "queues" "exceeds the worker queue limit"
  else then_check (validate_labels "queues" 0 (Queues s))
 (if (Concurrency s =? 0)%Z || (MaxWorkerConcurrency <? Concurrency s)%Z
  then invalid "concurrency" "must be within the worker limit"
  else if (Concurrency s <? CurrentJobs s)%Z
  then invalid "current_jobs" "cannot exceed concurrency"
  else if negb (WorkerState_valid (State s)) then invalid "state" "is unsupported"
  else if negb (DrainState_valid (DrainStatus s)) then invalid "drain_status" "is unsupported"
  else if invalidIdentity (W_Backend s) then invalid "backend" "is required and must be bounded"
  else if version_eqb (W_Protocol s) zeroVersion then invalid "protocol" "is required"
  else if (MaxCapabilitiesPerWorker <? zlen (Capabilities s))%Z
  then invalid "capabilities" "exceeds the worker capability limit"
  else validate_labels "capabilities" 0 (Capabilities s)).

(** A supported measurement below zero. *)
Definition negative (m : Measurement Z) : bool := Supported m && (Value m <? 0)%Z.

Definition QueueStatus_Validate (s : QueueStatus) : error :=
  let m := Metrics s in
  if invalidIdentity (Q_Backend s) then invalid "backend" "is required and must be bounded"
  else if invalidIdentity (Q_Queue s) then invalid "queue" "is required and must be bounded"
  else if IsZero (ObservedAt s) then invalid "observed_at" "is required"
  else if negative (Depth m) then invalid "metrics.depth" "cannot be negative"
  else if negative (Lag m) then invalid "metrics.lag" "cannot be negative"
  else if negative (Pending m) then invalid "metrics.pending" "cannot be negative"
  else if negative (OldestAge m) then invalid "metrics.oldest_age" "cannot be negative"
  else if Supported (Throughput m) &&
          (float_lt (Value (Throughput m)) zero64 || IsNaN (Value (Throughput m))
           || IsInf (Value (Throughput m)))
  then invalid "metrics.throughput" "must be finite and non-negative"
  else if negative (Runtime m) then invalid "metrics.runtime" "cannot be negative"
  else ErrNil.

Record WorkerStatusPage := mkWorkerPage { W_Items : list WorkerStatus; W_NextCursor : string }.
Record QueueStatusPage := mkQueuePage { Q_Items : list QueueStatus; Q_NextCursor : string }.

Definition WorkerStatusPage_Validate (p : WorkerStatusPage) : error :=
  if (MaxStatusPageSize <? zlen (W_Items p))%Z then invalid "items" "exceeds the page limit"
  else then_check (validate_items WorkerStatus_Validate "items" "." 0 (W_Items p))
 (if (MaxCursorBytes <? len (W_NextCursor p))%Z
  then invalid "next_cursor" "exceeds the cursor limit" else ErrNil).

Definition QueueStatusPage_Validate (p : QueueStatusPage) : error :=
  if (MaxStatusPageSize <? zlen (Q_Items p))%Z then invalid "items" "exceeds the page limit"
  else then_check (validate_items QueueStatus_Validate "items" "." 0 (Q_Items p))
 (if (MaxCursorBytes <? len (Q_NextCursor p))%Z
  then invalid "next_cursor" "exceeds the cursor limit" else ErrNil).

(** * Specification and proofs *)

Lemma then_check_nil e rest : then_check e rest = ErrNil <-> e = ErrNil /\ rest = ErrNil.
Proof. unfold then_check. destruct e; simpl; intuition congruence. Qed.

Lemma validate_labels_nil name i l : validate_labels name i l = ErrNil <-> Forall identity l.
Proof.
  revert i. induction l as [|x l IH]; intros i; simpl; [done|].
  by rewrite invalid_if, invalidIdentity_false, IH, Forall_cons.
Qed.

Record metadata_valid (m : StatusMetadata) : Prop := {
  mv_id : identity (M_ID m);
  mv_version : identity (M_Version m);
  mv_concurrency : M_Concurrency m <> 0%Z /\ (M_Concurrency m <= MaxWorkerConcurrency)%Z;
  mv_protocol : M_Protocol m <> zeroVersion
}.

Lemma StatusMetadata_Validate_ok m : StatusMetadata_Validate m = ErrNil <-> metadata_valid m.
Proof.
  unfold StatusMetadata_Validate.
  rewrite !invalid_if, !invalidIdentity_false, version_unset, orb_false_iff, Z.eqb_neq, Z.ltb_ge.
  split; [intros (? & ? & ? & ? & _); by split | intros []; tauto].
Qed.

(** A worker report that can be trusted: bounded labels, a heartbeat after the
    start, a concurrency in range with no more current jobs than that. *)
Record worker_ok (s : WorkerStatus) : Prop := {
  wo_id : identity (W_ID s);
  wo_version : identity (W_Version s);
  wo_started : IsZero (StartedAt s) = false;
  wo_heartbeat : IsZero (HeartbeatAt s) = false /\ Before (HeartbeatAt s) (StartedAt s) = false;
  wo_queues : (zlen (Queues s) <= MaxQueuesPerWorker)%Z /\ Forall identity (Queues s);
  wo_concurrency : Concurrency s <> 0%Z /\ (Concurrency s <= MaxWorkerConcurrency)%Z;
  wo_jobs : (CurrentJobs s <= Concurrency s)%Z;
  wo_state : WorkerState_valid (State s) = true;
  wo_drain : DrainState_valid (DrainStatus s) = true;
  wo_backend : identity (W_Backend s);
  wo_protocol : W_Protocol s <> zeroVersion;
  wo_capabilities : (zlen (Capabilities s) <= MaxCapabilitiesPerWorker)%Z /\
                    Forall identity (Capabilities s)
}.

Lemma WorkerStatus_Validate_ok s : WorkerStatus_Validate s = ErrNil <-> worker_ok s.
Proof.
  unfold WorkerStatus_Validate.
  rewrite !invalid_if, then_check_nil, !invalid_if, !validate_labels_nil.
  rewrite !invalidIdentity_false, version_unset, !negb_false, orb_false_iff, Z.eqb_neq, !Z.ltb_ge.
  split; [|intros []; tauto].
  intros (? & ? & ? & ? & ? & ? & ? & ? & ? & ? & ? & ? & ? & ? & ?). by split.
Qed.

Lemma WorkerStatusPage_Validate_ok p :
  WorkerStatusPage_Validate p = ErrNil <->
  (zlen (W_Items p) <= MaxStatusPageSize)%Z /\ Forall worker_ok (W_Items p) /\
  (len (W_NextCursor p) <= MaxCursorBytes)%Z.
Proof.
  unfold WorkerStatusPage_Validate.
  rewrite invalid_if, then_check_nil, invalid_if, validate_items_nil, !Z.ltb_ge.
  assert (Forall (fun x => WorkerStatus_Validate x = ErrNil) (W_Items p)
          <-> Forall worker_ok (W_Items p)) as ->.
  { apply Forall_proper; [|done]. intros x. apply WorkerStatus_Validate_ok. }
  tauto.
Qed.
