(* ===== verification/Protocol.v ===== *)
(** Protocol and capability negotiation of [management/protocol.go]. The
    capability sets are Go maps, iterated in an unspecified order that the
    operations take as an argument. *)

From S2P Require Import Prelude GoStd Contract.

Definition CapabilityWorkerStatus : string := "worker_status".
Definition CapabilityQueueStatus : string := "queue_status".
Definition CapabilityPause : string := "pause".
Definition CapabilityResume : string := "resume".
Definition CapabilityDrain : string := "drain".
Definition CapabilityTerminate : string := "terminate".
Definition CapabilityFailures : string := "failures".
Definition CapabilityDeadLetters : string := "dead_letters".
Definition CapabilityRetry : string := "retry".
Definition CapabilityBulkRetry : string := "bulk_retry".
Definition CapabilityDelete : string := "delete".
Definition CapabilityPurge : string := "purge".
Definition CapabilityReplay : string := "replay".
Definition CapabilityRetentionCount : string := "retention_count".

Record ProtocolRange := mkRange { Minimum : ProtocolVersion; Maximum : ProtocolVersion }.

Definition CompatibilityCompatible : string := "compatible".
Definition CompatibilityWorkerOlder : string := "worker_older".
Definition CompatibilityWorkerNewer : string := "worker_newer".
Definition CompatibilityUnknown : string := "unknown".

Record Compatibility := mkCompatibility {
  C_State : string;
  Enabled : list string;
  WorkerOnly : list string;
  ControlPlaneOnly : list string
}.

Definition compareVersion (left right : ProtocolVersion) : Z :=
  if (Major left <? Major right)%Z then -1
  else if (Major right <? Major left)%Z then 1
  else if (Minor left <? Minor right)%Z then -1
  else if (Minor right <? Minor left)%Z then 1
  else 0.

Definition classifyCompatibility (supported : ProtocolRange) (worker : ProtocolVersion) : string :=
  if (0 <? compareVersion (Minimum supported) (Maximum supported))%Z
     || version_eqb worker zeroVersion then CompatibilityUnknown
  else if (compareVersion worker (Minimum supported) <? 0)%Z then CompatibilityWorkerOlder
  else if (0 <? compareVersion worker (Maximum supported))%Z then CompatibilityWorkerNewer
  else CompatibilityCompatible.

Fixpoint capabilitySet (capabilities : list string) : gset string :=
  match capabilities with
  | [] => ∅
  | c :: rest => {[c]} ∪ capabilitySet rest
  end.

Definition sortCapabilities (capabilities : list string) : list string := Sort capabilities.

(** The loop over the worker's set: appends to [Enabled] or to [WorkerOnly]. *)
Fixpoint range_worker (compatible : bool) (controlPlane : gset string) (l : list string)
    (enabled workerOnly : list string) : list string * list string :=
  match l with
  | [] => (enabled, workerOnly)
  | c :: l =>
      if bool_decide (c ∈ controlPlane)
      then range_worker compatible controlPlane l
             (if compatible then enabled ++ [c] else enabled) workerOnly
      else range_worker compatible controlPlane l enabled (workerOnly ++ [c])
  end.

(** The loop over the control plane's set. *)
Fixpoint range_controlPlane (worker : gset string) (l : list string)
    (controlPlaneOnly : list string) : list string :=
  match l with
  | [] => controlPlaneOnly
  | c :: l => range_controlPlane worker l
                (if negb (bool_decide (c ∈ worker)) then controlPlaneOnly ++ [c]
                 else controlPlaneOnly)
  end.

Definition Negotiate (order : list string -> list string)
    (supported : ProtocolRange) (worker : ProtocolVersion)
    (workerCapabilities controlPlaneCapabilities : list string) : Compatibility :=
  let state := classifyCompatibility supported worker in
  let workerSet := capabilitySet workerCapabilities in
  let controlPlaneSet := capabilitySet controlPlaneCapabilities in
  let '(enabled, workerOnly) :=
    range_worker (state == CompatibilityCompatible) controlPlaneSet
      (order (elements workerSet)) [] [] in
  let controlPlaneOnly := range_controlPlane workerSet (order (elements controlPlaneSet)) [] in
  mkCompatibility state (sortCapabilities enabled) (sortCapabilities workerOnly)
    (sortCapabilities controlPlaneOnly).

(** * Specification and proofs *)

(** Lexicographic order of versions. *)
Definition version_le (a b : ProtocolVersion) : Prop :=
  (Major a < Major b \/ (Major a = Major b /\ Minor a <= Minor b))%Z.

Lemma compareVersion_le a b : (compareVersion a b <= 0)%Z <-> version_le a b.
Proof. unfold compareVersion, version_le. repeat case_test; lia. Qed.

Lemma compareVersion_ge a b : (0 <= compareVersion a b)%Z <-> version_le b a.
Proof. unfold compareVersion, version_le. repeat case_test; lia. Qed.

Lemma classify_compatible supported v :
  classifyCompatibility supported v = CompatibilityCompatible <->
  v <> zeroVersion /\ version_le (Minimum supported) (Maximum supported) /\
  version_le (Minimum supported) v /\ version_le v (Maximum supported).
Proof.
  unfold classifyCompatibility. rewrite <- !compareVersion_le.
  rewrite (compareVersion_le (Minimum supported) v), <- compareVersion_ge.
  destruct (version_eqb v zeroVersion) eqn:Ev.
  - rewrite orb_true_r. apply bool_decide_eq_true in Ev. split; [done|tauto].
  - apply version_unset in Ev. rewrite orb_false_r.
    destruct (0 <? compareVersion (Minimum supported) (Maximum supported))%Z eqn:E1;
    destruct (compareVersion v (Minimum supported) <? 0)%Z eqn:E2;
    destruct (0 <? compareVersion v (Maximum supported))%Z eqn:E3;
      (split; [discriminate | intros (_ & ? & ? & ?); lia])
      || (split; [intros _; split_and!; (done || lia) | done]).
Qed.

Lemma capabilitySet_elem c l : c ∈ capabilitySet l <-> c ∈ l.
Proof. induction l; simpl; set_solver. Qed.

Lemma range_worker_spec compatible cp l enabled only :
  range_worker compatible cp l enabled only =
  (enabled ++ (if compatible then filter (.∈ cp) l else []), only ++ filter (.∉ cp) l).
Proof.
  revert enabled only. induction l as [|c l IH]; intros en on; simpl.
  { destruct compatible; by rewrite !app_nil_r. }
  rewrite !filter_cons. case_bool_decide.
  - rewrite decide_True, decide_False by set_solver. rewrite IH.
    destruct compatible; [by rewrite <- app_assoc|done].
  - rewrite decide_False, decide_True by done. by rewrite IH, <- app_assoc.
Qed.

Lemma range_controlPlane_spec w l only :
  range_controlPlane w l only = only ++ filter (.∉ w) l.
Proof.
  revert only. induction l as [|c l IH]; intros on; simpl; [by rewrite app_nil_r|].
  rewrite filter_cons. case_bool_decide; simpl.
  - by rewrite decide_False by set_solver.
  - by rewrite decide_True, IH, <- app_assoc by done.
Qed.

Lemma filter_elements_perm (P : string -> Prop) `{!forall x, Decision (P x)} (X Y : gset string) l :
  l ≡ₚ elements X -> (forall x, x ∈ Y <-> x ∈ X /\ P x) -> filter P l ≡ₚ elements Y.
Proof.
  intros Hl HY. apply NoDup_Permutation.
  - apply NoDup_filter. rewrite Hl. apply NoDup_elements.
  - apply NoDup_elements.
  - intros x. rewrite list_elem_of_filter, Hl, !elem_of_elements, HY. tauto.
Qed.

(** For every map iteration order, negotiation yields the sorted,
    duplicate-free partition of the advertised capabilities: shared ones are
    enabled exactly when the worker's non-zero version lies in the supported
    range, and the rest are reported on the side that claims them. *)
Theorem negotiate_exact (order : list string -> list string) (supported : ProtocolRange)
    (v : ProtocolVersion) (worker cp : list string) :
  (forall l, order l ≡ₚ l) ->
  let W : gset string := list_to_set worker in
  let C : gset string := list_to_set cp in
  let r := Negotiate order supported v worker cp in
  C_State r = classifyCompatibility supported v /\
  (C_State r = CompatibilityCompatible <->
   v <> zeroVersion /\ version_le (Minimum supported) (Maximum supported) /\
   version_le (Minimum supported) v /\ version_le v (Maximum supported)) /\
  Enabled r = (if decide (C_State r = CompatibilityCompatible)
               then Sort (elements (W ∩ C)) else []) /\
  WorkerOnly r = Sort (elements (W ∖ C)) /\ ControlPlaneOnly r = Sort (elements (C ∖ W)).
Proof.
  intros Ho W C r. unfold r, Negotiate. rewrite range_worker_spec, range_controlPlane_spec.
  simpl. split; [done|]. split; [apply classify_compatible|].
  assert (HW : forall x, x ∈ capabilitySet worker <-> x ∈ W)
    by (intros x; rewrite capabilitySet_elem; unfold W; set_solver).
  assert (HC : forall x, x ∈ capabilitySet cp <-> x ∈ C)
    by (intros x; rewrite capabilitySet_elem; unfold C; set_solver).
  split_and!.
  - case_decide as Hs; [rewrite Hs|rewrite (proj2 (String.eqb_neq _ _) Hs)]; simpl; [|done].
    apply Sort_perm_eq. apply (filter_elements_perm _ (capabilitySet worker)); [done|set_solver].
  - apply Sort_perm_eq. apply (filter_elements_perm _ (capabilitySet worker)); [done|set_solver].
  - apply Sort_perm_eq. apply (filter_elements_perm _ (capabilitySet cp)); [done|set_solver].
Qed.

Lemma negotiate_exact_witness :
  Enabled (Negotiate (fun l => l) (mkRange (mkVersion 1 0) (mkVersion 2 3)) (mkVersion 1 5)
             ["pause"; "drain"; "pause"] ["resume"; "pause"]) = ["pause"].
Proof.
  pose proof (negotiate_exact (fun l => l) (mkRange (mkVersion 1 0) (mkVersion 2 3))
                (mkVersion 1 5) ["pause"; "drain"; "pause"] ["resume"; "pause"]
                ltac:(reflexivity)) as (_ & _ & -> & _).
  vm_compute. reflexivity.
Defined.
