(* ===== verification/Desired.v ===== *)
(** Desired-state records and the pull reconciler of [management/desired.go].

    The authoritative reader and the local applier are interfaces of other
    parties: the reader is a function of the target, the applier a function on a
    state of its own. *)

From S2P Require Import Prelude GoStd Contract Control.

Definition MaxDesiredStateTargets : Z := 256.

Definition ErrDesiredStateNotFound : error := Sentinel "management: desired state not found".
Definition ErrInvalidDesiredStateConfiguration : error :=
  Sentinel "management: invalid desired state configuration".
Definition ErrInvalidDesiredStateContext : error :=
  Sentinel "management: invalid desired state context".
Definition ErrInvalidDesiredStateOutput : error :=
  Sentinel "management: invalid desired state output".
Definition ErrDesiredStateRegression : error :=
  Sentinel "management: desired state revision regression".
Definition ErrDesiredStateConflict : error :=
  Sentinel "management: desired state revision conflict".

Definition DesiredActive : string := "active".
Definition DesiredPaused : string := "paused".
Definition DesiredDraining : string := "draining".
Definition DesiredTerminating : string := "terminating".

Record DesiredRecord := mkDesired {
  D_Target : Target;
  D_State : string;
  Revision : Z;
  ChangedAt : Time;
  D_CommandID : string
}.

#[export] Instance DesiredRecord_eq_dec : EqDecision DesiredRecord.
Proof. solve_decision. Defined.

Definition desiredTarget (target : Target) : bool :=
  if invalidIdentity (Name target) then false
  else (Kind target == TargetQueue) || (Kind target == TargetWorker)
       || (Kind target == TargetWorkerGroup).

Definition DesiredState_valid (s : string) : bool :=
  (s == DesiredActive) || (s == DesiredPaused) || (s == DesiredDraining)
  || (s == DesiredTerminating).

Definition DesiredRecord_Validate (r : DesiredRecord) : error :=
  if negb (desiredTarget (D_Target r)) then invalid "target" "is unsupported or invalid"
  else if negb (DesiredState_valid (D_State r)) then invalid "state" "is unsupported"
  else if (Revision r =? 0)%Z then invalid "revision" "must be positive"
  else if IsZero (ChangedAt r) then invalid "changed_at" "is required"
  else if invalidIdentity (D_CommandID r)
  then invalid "command_id" "is required and must be bounded"
  else ErrNil.

Section reconciler.
Context {A : Type}.

Record DesiredStateReconciler := mkReconciler {
  R_targets : list Target;
  applied : gmap Target DesiredRecord
}.

(** The loop that rejects unsupported and repeated targets. *)
Fixpoint check_targets (seen : gset Target) (targets : list Target) : bool :=
  match targets with
  | [] => true
  | t :: rest =>
      if negb (desiredTarget t) then false
      else if bool_decide (t ∈ seen) then false
      else check_targets ({[t]} ∪ seen) rest
  end.

Definition NewDesiredStateReconciler (nilReader nilApplier : bool) (targets : list Target)
    : error + DesiredStateReconciler :=
  if nilReader || nilApplier || (Z.of_nat (length targets) =? 0)%Z
     || (MaxDesiredStateTargets <? Z.of_nat (length targets))%Z
  then inl ErrInvalidDesiredStateConfiguration
  else if check_targets ∅ targets then inr (mkReconciler targets ∅)
  else inl ErrInvalidDesiredStateConfiguration.

(** What happens to one target. *)
Inductive decision := Skip | Fail (e : error) | Apply (record : DesiredRecord).

Definition decide_target (read : DesiredRecord * error) (target : Target)
    (current : option DesiredRecord) : decision :=
  let '(record, err) := read in
  if Is err "management: desired state not found" then Skip
  else if negb (is_nil err) then Fail err
  else if negb (is_nil (DesiredRecord_Validate record)) || negb (bool_decide (D_Target record = target))
  then Fail ErrInvalidDesiredStateOutput
  else match current with
       | Some cur =>
           if (Revision record <? Revision cur)%Z then Fail ErrDesiredStateRegression
           else if (Revision record =? Revision cur)%Z
           then if negb (bool_decide (record = cur)) then Fail ErrDesiredStateConflict else Skip
           else Apply record
       | None => Apply record
       end.

(** The loop of [Reconcile]; the last component lists the records handed to the
    applier. *)
Fixpoint reconcile_targets (reader : Target -> DesiredRecord * error)
    (apply : A -> DesiredRecord -> A * error) (targets : list Target)
    (done_ : gmap Target DesiredRecord) (a : A)
    : gmap Target DesiredRecord * A * error * list DesiredRecord :=
  match targets with
  | [] => (done_, a, ErrNil, [])
  | target :: rest =>
      match decide_target (reader target) target (done_ !! target) with
      | Skip => reconcile_targets reader apply rest done_ a
      | Fail err => (done_, a, err, [])
      | Apply record =>
          let '(a, err) := apply a record in
          if negb (is_nil err) then (done_, a, err, [record])
          else let '(done_, a, err, calls) :=
                 reconcile_targets reader apply rest (<[target := record]> done_) a in
               (done_, a, err, record :: calls)
      end
  end.

Definition Reconcile (ctxNil : bool) (reader : Target -> DesiredRecord * error)
    (apply : A -> DesiredRecord -> A * error) (r : DesiredStateReconciler) (a : A)
    : DesiredStateReconciler * A * error * list DesiredRecord :=
  if ctxNil then (r, a, ErrInvalidDesiredStateContext, [])
  else let '(done_, a, err, calls) :=
         reconcile_targets reader apply (R_targets r) (applied r) a in
       (mkReconciler (R_targets r) done_, a, err, calls).

End reconciler.

(** * Proofs *)

(** The record that supersedes [cur]: itself or a later revision. *)
Definition supersedes (cur new : DesiredRecord) : Prop :=
  new = cur \/ (Revision cur < Revision new)%Z.

Lemma decide_target_apply read target current record :
  decide_target read target current = Apply record ->
  read = (record, ErrNil) /\ DesiredRecord_Validate record = ErrNil /\
  D_Target record = target /\
  (forall cur, current = Some cur -> (Revision cur < Revision record)%Z).
Proof.
  unfold decide_target. destruct read as [rec err].
  destruct (Is err _); [done|]. destruct err; try done. simpl.
  destruct (DesiredRecord_Validate rec) eqn:Ev; try done. simpl. case_bool_decide; [|done]. simpl.
  destruct current as [cur|].
  - destruct (Revision rec <? Revision cur)%Z eqn:E1; [done|].
    destruct (Revision rec =? Revision cur)%Z eqn:E2; [by case_bool_decide|].
    intros [= <-]. split_and!; try done. intros ? [= <-]. lia.
  - intros [= <-]. split_and!; try done.
Qed.

Lemma decide_target_skip read target current :
  decide_target read target current = Skip ->
  Is read.2 "management: desired state not found" = true \/
  (read.2 = ErrNil /\ current = Some read.1).
Proof.
  unfold decide_target. destruct read as [rec err]. simpl.
  destruct (Is err _); [by left|]. destruct err; try done. simpl.
  destruct (DesiredRecord_Validate rec) eqn:Ev; try done. simpl. case_bool_decide; [|done]. simpl.
  destruct current as [cur|]; [|done].
  destruct (Revision rec <? Revision cur)%Z; [done|].
  destruct (Revision rec =? Revision cur)%Z; [|done].
  case_bool_decide as Hc; [|done]. intros _. right. by rewrite Hc.
Qed.

(** The applier on a list of records, up to the first error: its state, the records it
    accepted and that error. *)
Fixpoint accept_all {A : Type} (apply : A -> DesiredRecord -> A * error) (a : A)
    (calls : list DesiredRecord) : A * list DesiredRecord * error :=
  match calls with
  | [] => (a, [], ErrNil)
  | record :: rest =>
      let '(a, err) := apply a record in
      if is_nil err
      then let '(a, accepted, err) := accept_all apply a rest in (a, record :: accepted, err)
      else (a, [], err)
  end.

(** The records of a map after some were accepted. *)
Definition record_all (accepted : list DesiredRecord) (m : gmap Target DesiredRecord) : gmap Target DesiredRecord :=
  fold_left (fun m record => <[D_Target record := record]> m) accepted m.

(** A pass made the applier's calls until one failed, recorded exactly the records it
    accepted, and reports the failure. *)
Definition follows_applier {A : Type} (apply : A -> DesiredRecord -> A * error) (a : A) (calls : list DesiredRecord)
    (map0 map1 : gmap Target DesiredRecord) (a1 : A) (err : error) : Prop :=
  exists accepted failure,
    accept_all apply a calls = (a1, accepted, failure) /\ map1 = record_all accepted map0 /\
    (failure = ErrNil /\ calls = accepted \/
     failure <> ErrNil /\ err = failure /\ exists record, calls = accepted ++ [record]).

Section reconciler_facts.
Context {A : Type} (reader : Target -> DesiredRecord * error)
  (apply : A -> DesiredRecord -> A * error).

(** What one pass guarantees for the targets still to visit. *)
Lemma reconcile_targets_spec targets done0 a done1 a1 err calls :
  NoDup targets ->
  reconcile_targets reader apply targets done0 a = (done1, a1, err, calls) ->
  (forall t cur, done0 !! t = Some cur -> exists new, done1 !! t = Some new /\ supersedes cur new) /\
  (forall t, t ∉ targets -> done1 !! t = done0 !! t) /\
  Forall (fun rec => DesiredRecord_Validate rec = ErrNil /\ D_Target rec ∈ targets /\
            reader (D_Target rec) = (rec, ErrNil) /\
            forall cur, done0 !! D_Target rec = Some cur -> (Revision cur < Revision rec)%Z) calls /\
  (err = ErrNil -> forall t, t ∈ targets ->
     Is (reader t).2 "management: desired state not found" = false ->
     done1 !! t = Some (reader t).1).
Proof.
  intros Hnd. revert done0 a done1 a1 err calls.
  induction Hnd as [|t targets Ht Hnd IH]; intros done0 a done1 a1 err calls H; simpl in H.
  { injection H as <- <- <- <-. split_and!; try done.
    - intros t cur Hc. exists cur. split; [done|by left].
    - intros _ t Ht. by apply elem_of_nil in Ht. }
  assert (Hsame : forall t' cur, done0 !! t' = Some cur ->
            exists new, done0 !! t' = Some new /\ supersedes cur new).
  { intros t' cur Hc. exists cur. split; [done|by left]. }
  destruct (decide_target (reader t) t (done0 !! t)) as [|e|rec] eqn:Hd.
  - destruct (IH _ _ _ _ _ _ H) as (H1 & H2 & H3 & H4). split_and!; try done.
    + intros t' Hn. apply H2. set_solver.
    + eapply Forall_impl; [exact H3|]. set_solver.
    + intros He t' [->|Hin]%elem_of_cons Hf; [|auto].
      apply decide_target_skip in Hd as [Hd|[_ Hd]]; [congruence|]. by rewrite H2.
  - injection H as <- <- <- <-. split_and!; try done. intros ->.
    unfold decide_target in Hd. destruct (reader t) as [r0 e0].
    destruct (Is e0 _); [done|]. destruct e0; try done. simpl in Hd. by repeat case_match.
  - apply decide_target_apply in Hd as (Hr & Hv & Htgt & Hrev).
    assert (Hhere : D_Target rec ∈ t :: targets) by (rewrite Htgt; set_solver).
    rewrite <- Htgt in Hr, Hrev.
    destruct (apply a rec) as [a2 e2]. destruct (is_nil e2) eqn:En; simpl in H.
    + destruct (reconcile_targets _ _ _ _ _) as [[[d3 a3] e3] calls3] eqn:Hrec.
      injection H as <- <- <- <-. destruct (IH _ _ _ _ _ _ Hrec) as (H1 & H2 & H3 & H4).
      split_and!.
      * intros t' cur Hc. destruct (decide (t' = t)) as [->|Hne].
        -- destruct (H1 t rec) as (new & Hn & Hs); [by rewrite lookup_insert_eq|].
           exists new. split; [done|]. rewrite Htgt in Hrev. specialize (Hrev _ Hc).
           destruct Hs as [->|Hs]; right; lia.
        -- apply H1. by rewrite lookup_insert_ne.
      * intros t' Hn. rewrite H2 by set_solver. rewrite lookup_insert_ne; [done|set_solver].
      * constructor; [done|]. eapply Forall_impl; [exact H3|]. simpl.
        intros x (? & Hin & ? & Hx). split_and!; try done; [set_solver|].
        intros cur Hc. apply Hx. rewrite lookup_insert_ne; [done|]. by intros ->.
      * intros He t' [->|Hin]%elem_of_cons Hf; [|auto].
        rewrite H2, lookup_insert_eq by done. rewrite Htgt in Hr. by rewrite Hr.
    + injection H as <- <- <- <-. split_and!; try done.
      * constructor; [done|constructor].
      * intros ->. done.
Qed.

(** The loop follows the applier. *)
Lemma reconcile_targets_follows targets done0 a done1 a1 err calls :
  reconcile_targets reader apply targets done0 a = (done1, a1, err, calls) ->
  follows_applier apply a calls done0 done1 a1 err.
Proof.
  revert done0 a done1 a1 err calls.
  induction targets as [|t targets IH]; intros done0 a done1 a1 err calls H; simpl in H.
  { injection H as <- <- <- <-. exists [], ErrNil. auto. }
  destruct (decide_target (reader t) t (done0 !! t)) as [|e|rec] eqn:Hd; [by apply IH in H| |].
  { injection H as <- <- <- <-. exists [], ErrNil. auto. }
  apply decide_target_apply in Hd as (_ & _ & <- & _).
  destruct (apply a rec) as [a2 e2] eqn:Ea. destruct (is_nil e2) eqn:En; simpl in H.
  - destruct (reconcile_targets _ _ _ _ _) as [[[d3 a3] e3] calls3] eqn:Hrec.
    injection H as <- <- <- <-. destruct (IH _ _ _ _ _ _ Hrec) as (accepted & failure & E & -> & Hf).
    exists (rec :: accepted), failure. simpl. rewrite Ea, En, E. split; [done|]. split; [done|].
    destruct Hf as [[-> ->]|(Hf & -> & x & ->)]; [by left|right]. split; [done|]. split; [done|]. by exists x.
  - injection H as <- <- <- <-. exists [], e2. simpl. rewrite Ea, En. split; [done|]. split; [done|]. right.
    split; [by intros ->|]. split; [done|]. by exists rec.
Qed.

End reconciler_facts.

Lemma check_targets_nodup seen targets :
  check_targets seen targets = true -> NoDup targets /\ forall t, t ∈ targets -> t ∉ seen.
Proof.
  revert seen. induction targets as [|t targets IH]; intros seen H; simpl in H.
  { split; [constructor|]. intros t Ht. by apply elem_of_nil in Ht. }
  destruct (desiredTarget t); [|done]. simpl in H. case_bool_decide; [done|].
  destruct (IH _ H) as [H1 H2]. split; [constructor; set_solver|set_solver].
Qed.

(** C39: Reconciliation is monotonic and convergent. For a reconciler built by the
    constructor and reached by any number of passes, one more pass never lowers
    or rewrites an applied revision (it keeps the record or moves to a strictly
    later one), hands the applier only validated records for configured targets
    that are strictly newer than what was applied and that the reader returned. It calls
    the applier until one call fails, counts exactly the records it accepted as applied,
    and returns the failure. When it returns no error, every target that has an authored
    state is at exactly that state, which the applier has accepted in this pass or before. *)
Theorem reconcile_monotone_convergent {A : Type} (nr na : bool) (targets : list Target)
    (r0 : DesiredStateReconciler) (reader : Target -> DesiredRecord * error)
    (apply : A -> DesiredRecord -> A * error) (map0 : gmap Target DesiredRecord) (a : A)
    (r1 : DesiredStateReconciler) (a1 : A) (err : error) (calls : list DesiredRecord) :
  NewDesiredStateReconciler nr na targets = inr r0 ->
  Reconcile false reader apply (mkReconciler (R_targets r0) map0) a = (r1, a1, err, calls) ->
  (forall t cur, map0 !! t = Some cur ->
     exists new, applied r1 !! t = Some new /\ supersedes cur new) /\
  Forall (fun rec => DesiredRecord_Validate rec = ErrNil /\ D_Target rec ∈ targets /\
            reader (D_Target rec) = (rec, ErrNil) /\
            forall cur, map0 !! D_Target rec = Some cur -> (Revision cur < Revision rec)%Z) calls /\
  follows_applier apply a calls map0 (applied r1) a1 err /\
  (err = ErrNil -> forall t, t ∈ targets ->
     Is (reader t).2 "management: desired state not found" = false ->
     applied r1 !! t = Some (reader t).1).
Proof.
  intros Hnew Hrec. unfold NewDesiredStateReconciler in Hnew.
  case_test; [done|]. destruct (check_targets ∅ targets) eqn:Hct; [|done].
  injection Hnew as <-. apply check_targets_nodup in Hct as [Hnd _].
  unfold Reconcile in Hrec. simpl in Hrec.
  destruct (reconcile_targets reader apply targets map0 a) as [[[d a'] e] c] eqn:Hr.
  injection Hrec as <- <- <- <-.
  destruct (reconcile_targets_spec reader apply _ _ _ _ _ _ _ Hnd Hr) as (H1 & H2 & H3 & H4).
  apply reconcile_targets_follows in Hr. done.
Qed.

Definition sample_target : Target := mkTarget TargetQueue "jobs".

Definition sample_desired (rev : Z) (state : string) : DesiredRecord :=
  mkDesired sample_target state rev (mkTime 5 None 0) "cmd".

(** An applier that counts its calls and refuses the queue "mail". *)
Definition sample_apply (n : nat) (record : DesiredRecord) : nat * error :=
  (S n, if Name (D_Target record) == "mail" then Leaf "refused" else ErrNil).

Definition mail_target : Target := mkTarget TargetQueue "mail".

(** The reader has a state for both queues. *)
Definition sample_reader (t : Target) : DesiredRecord * error :=
  (mkDesired t DesiredPaused 4 (mkTime 5 None 0) "cmd", ErrNil).

(** The first queue moves on, the second is refused and stays where it was. *)
Lemma reconcile_monotone_convergent_witness :
  exists r1 : DesiredStateReconciler,
    Reconcile false sample_reader sample_apply
      (mkReconciler [sample_target; mail_target] {[sample_target := sample_desired 3 DesiredActive]}) 0
    = (r1, 2, Leaf "refused", [(sample_reader sample_target).1; (sample_reader mail_target).1]) /\
    follows_applier sample_apply 0 [(sample_reader sample_target).1; (sample_reader mail_target).1]
      {[sample_target := sample_desired 3 DesiredActive]} (applied r1) 2 (Leaf "refused") /\
    applied r1 !! mail_target = None.
Proof.
  eexists. split; [vm_compute; reflexivity|]. split; [|vm_compute; reflexivity].
  refine (proj1 (proj2 (proj2 (reconcile_monotone_convergent (A := nat) false false [sample_target; mail_target]
    (mkReconciler [sample_target; mail_target] ∅) sample_reader sample_apply
    {[sample_target := sample_desired 3 DesiredActive]} 0
    _ 2 (Leaf "refused") [(sample_reader sample_target).1; (sample_reader mail_target).1] _ _)))).
  - vm_compute. reflexivity.
  - vm_compute. reflexivity.
Defined.
