(* ===== verification/Lifecycle.v ===== *)
(** The worker lifecycle of [management/lifecycle.go]: queue admission, in-flight
    job accounting, desired revisions and bounded duplicate-command protection.

    Every mutex section of the source is one definition on the state. A call that
    waits ([ApplyDesiredState], [Execute]) is a thread that runs its sections one
    at a time, so that other calls interleave between them. A channel is the
    number of channels made before it: [changed] numbers the open one and all
    smaller numbers are closed. *)

From S2P Require Import Prelude GoStd Contract Control Status Protocol Desired.

Definition MaxLifecycleCommandResults : Z := 10000.

Definition ErrInvalidWorkerLifecycleConfiguration : error :=
  Sentinel "management: invalid worker lifecycle configuration".
Definition ErrInvalidLifecycleCounter : error :=
  Sentinel "management: invalid lifecycle counter".
Definition ErrDesiredStateTargetMismatch : error :=
  Sentinel "management: desired state target mismatch".
Definition ErrInvalidDesiredStateTransition : error :=
  Sentinel "management: invalid desired state transition".
Definition ErrInvalidWorkerLifecycleContext : error :=
  Sentinel "management: invalid worker lifecycle context".
Definition ErrInvalidStatusProviderOutput : error :=
  Sentinel "management: invalid status provider output".

Record WorkerLifecycleSnapshot := mkSnapshot {
  S_State : string;
  S_DrainStatus : string;
  S_CurrentJobs : Z;
  Terminating : bool
}.

(** [entry_result] is absent until the channel [done] is closed. *)
Record lifecycleCommandEntry := mkEntry {
  entry_command : Command;
  entry_result : option CommandResult
}.

Record WorkerLifecycle := mkLifecycle {
  metadata : StatusMetadata;
  workerGroup : string;
  L_queue : string;
  capacity : Z;
  state : string;
  admissions : Z;
  jobs : Z;
  drainTimedOut : bool;
  changed : nat;
  records : gmap Target DesiredRecord;
  commands : gmap string lifecycleCommandEntry
}.

(** Assignments to groups of fields. *)
Definition with_counters (l : WorkerLifecycle) (a j : Z) : WorkerLifecycle :=
  mkLifecycle (metadata l) (workerGroup l) (L_queue l) (capacity l) (state l) a j
    (drainTimedOut l) (changed l) (records l) (commands l).

Definition with_state (l : WorkerLifecycle) (s : string) (timedOut : bool) : WorkerLifecycle :=
  mkLifecycle (metadata l) (workerGroup l) (L_queue l) (capacity l) s (admissions l) (jobs l)
    timedOut (changed l) (records l) (commands l).

Definition with_records (l : WorkerLifecycle) (r : gmap Target DesiredRecord) : WorkerLifecycle :=
  mkLifecycle (metadata l) (workerGroup l) (L_queue l) (capacity l) (state l) (admissions l)
    (jobs l) (drainTimedOut l) (changed l) r (commands l).

Definition with_commands (l : WorkerLifecycle) (c : gmap string lifecycleCommandEntry)
    : WorkerLifecycle :=
  mkLifecycle (metadata l) (workerGroup l) (L_queue l) (capacity l) (state l) (admissions l)
    (jobs l) (drainTimedOut l) (changed l) (records l) c.

(** Closes the open channel and makes the next one. *)
Definition notifyLocked (l : WorkerLifecycle) : WorkerLifecycle :=
  mkLifecycle (metadata l) (workerGroup l) (L_queue l) (capacity l) (state l) (admissions l)
    (jobs l) (drainTimedOut l) (S (changed l)) (records l) (commands l).

Definition NewWorkerLifecycle (m : StatusMetadata) (group queue : string)
    (maxResults : Z) (nowNil : bool) : error + WorkerLifecycle :=
  if negb (is_nil (StatusMetadata_Validate m)) || invalidIdentity group || invalidIdentity queue
     || (maxResults <? 1)%Z || (MaxLifecycleCommandResults <? maxResults)%Z || nowNil
  then inl ErrInvalidWorkerLifecycleConfiguration
  else inr (mkLifecycle m group queue maxResults DesiredActive 0 0 false 0 ∅ ∅).

(** * Admission and job accounting *)

Definition BeginAdmission (l : WorkerLifecycle) : WorkerLifecycle * bool :=
  if state l != DesiredActive then (l, false)
  else (notifyLocked (with_counters l (wrap_u32 (admissions l + 1)) (jobs l)), true).

Definition EndAdmission (l : WorkerLifecycle) : WorkerLifecycle * error :=
  if (admissions l =? 0)%Z then (l, ErrInvalidLifecycleCounter)
  else (notifyLocked (with_counters l (wrap_u32 (admissions l - 1)) (jobs l)), ErrNil).

Definition PromoteAdmissionToJob (l : WorkerLifecycle) : WorkerLifecycle * error :=
  if (admissions l =? 0)%Z then (l, ErrInvalidLifecycleCounter)
  else (notifyLocked (with_counters l (wrap_u32 (admissions l - 1)) (wrap_u32 (jobs l + 1))),
        ErrNil).

Definition EndJob (l : WorkerLifecycle) : WorkerLifecycle * error :=
  if (jobs l =? 0)%Z then (l, ErrInvalidLifecycleCounter)
  else (notifyLocked (with_counters l (admissions l) (wrap_u32 (jobs l - 1))), ErrNil).

(** * The presentation of the state *)

Definition snapshotLocked (l : WorkerLifecycle) : WorkerLifecycleSnapshot :=
  if state l == DesiredPaused then mkSnapshot WorkerPaused DrainNotRequested (jobs l) false
  else if (state l == DesiredDraining) || (state l == DesiredTerminating) then
    mkSnapshot WorkerDraining
      (if drainTimedOut l then DrainTimedOut
       else if (admissions l =? 0)%Z && (jobs l =? 0)%Z then DrainCompleted
       else DrainInProgress)
      (jobs l) (state l == DesiredTerminating)
  else mkSnapshot WorkerRunning DrainNotRequested (jobs l) false.

Definition Snapshot (l : WorkerLifecycle) : WorkerLifecycleSnapshot := snapshotLocked l.

Fixpoint containsIdentity (values : list string) (wanted : string) : bool :=
  match values with
  | [] => false
  | v :: rest => if v == wanted then true else containsIdentity rest wanted
  end.

(** The loop of [deduplicateCapabilities]; [result] is the slice built so far. *)
Fixpoint deduplicate_from (result values : list string) : list string :=
  match values with
  | [] => result
  | v :: rest =>
      if match last result with None => true | Some w => w != v end
      then deduplicate_from (result ++ [v]) rest
      else deduplicate_from result rest
  end.

Definition deduplicateCapabilities (values : list string) : list string :=
  deduplicate_from [] values.

Definition DecorateWorkerStatus (l : WorkerLifecycle) (status : WorkerStatus)
    : error + WorkerStatus :=
  if negb (is_nil (WorkerStatus_Validate status)) || (W_ID status != M_ID (metadata l))
     || (W_Version status != M_Version (metadata l))
     || negb (Concurrency status =? M_Concurrency (metadata l))%Z
     || negb (version_eqb (W_Protocol status) (M_Protocol (metadata l)))
     || negb (containsIdentity (Queues status) (L_queue l))
  then inl ErrDesiredStateTargetMismatch
  else
    let snapshot := Snapshot l in
    let capabilities := Sort (Capabilities status ++
      [CapabilityPause; CapabilityResume; CapabilityDrain; CapabilityTerminate]) in
    let status := mkWorkerStatus (W_ID status) (W_Version status) (StartedAt status)
      (HeartbeatAt status) (Queues status) (Concurrency status) (S_State snapshot)
      (S_CurrentJobs snapshot) (S_DrainStatus snapshot) (W_Backend status) (W_Protocol status)
      (deduplicateCapabilities capabilities) in
    if negb (is_nil (WorkerStatus_Validate status)) then inl ErrInvalidStatusProviderOutput
    else inr status.

(** * Targets, records and results *)

Definition record_of (l : WorkerLifecycle) (target : Target) : option DesiredRecord :=
  records l !! target.

Definition matches (l : WorkerLifecycle) (target : Target) : bool :=
  if Kind target == TargetQueue then Name target == L_queue l
  else if Kind target == TargetWorker then Name target == M_ID (metadata l)
  else (Kind target == TargetWorkerGroup) && (Name target == workerGroup l).

Definition validTargetState (target : Target) (s : string) : bool :=
  if Kind target == TargetQueue then (s == DesiredActive) || (s == DesiredPaused)
  else if Kind target == TargetWorker then (s == DesiredDraining) || (s == DesiredTerminating)
  else (Kind target == TargetWorkerGroup) && DesiredState_valid s.

(** [now] is the value the clock returns for this call. *)
Definition result (l : WorkerLifecycle) (now : Time) (c : Command) (status failureCode : string)
    : CommandResult :=
  mkResult (ID c) (IdempotencyKey c) (M_ID (metadata l)) (M_Protocol (metadata l))
    status failureCode (UTC now).

Definition lifecycleCommandState (action : string) : option string :=
  if action == CommandPause then Some DesiredPaused
  else if action == CommandResume then Some DesiredActive
  else if action == CommandDrain then Some DesiredDraining
  else if action == CommandTerminate then Some DesiredTerminating
  else None.

(** * The sections of [transition] *)

Definition transitionCompleteLocked (l : WorkerLifecycle) (s : string) : bool :=
  if s == DesiredActive then true
  else if s == DesiredPaused then (admissions l =? 0)%Z
  else (admissions l =? 0)%Z && (jobs l =? 0)%Z.

(** The first section: refuse to leave the terminating state, or assign. *)
Definition transition_enter (l : WorkerLifecycle) (s : string) : WorkerLifecycle * error :=
  if (state l == DesiredTerminating) && (s != DesiredTerminating)
  then (l, ErrInvalidDesiredStateTransition)
  else (notifyLocked (with_state l s false), ErrNil).

(** The section at the head of the loop: completion and the channel to wait on. *)
Definition transition_poll (l : WorkerLifecycle) (s : string) : bool * nat :=
  (transitionCompleteLocked l s, changed l).

(** The two values [ctx.Err()] has after [ctx.Done()] is closed. *)
Inductive ctx_err := CtxCanceled | CtxDeadlineExceeded.

Definition ctx_Err (e : ctx_err) : error :=
  match e with
  | CtxCanceled => Sentinel Canceled
  | CtxDeadlineExceeded => Sentinel DeadlineExceeded
  end.

(** The branch taken when the context is done. *)
Definition transition_expire (l : WorkerLifecycle) (e : ctx_err) : WorkerLifecycle * error :=
  (if Is (ctx_Err e) DeadlineExceeded then notifyLocked (with_state l (state l) true) else l,
   ctx_Err e).

(** * ApplyDesiredState *)

(** The tests before [applyMu] is taken. *)
Definition ApplyDesiredState_call (ctxNil : bool) (r : DesiredRecord) : error :=
  if ctxNil then ErrInvalidDesiredStateContext
  else if negb (is_nil (DesiredRecord_Validate r)) then ErrInvalidDesiredStateOutput
  else ErrNil.

(** The tests under [applyMu]; [None] goes on to the transition. *)
Definition ApplyDesiredState_check (l : WorkerLifecycle) (r : DesiredRecord) : option error :=
  if negb (matches l (D_Target r)) then Some ErrDesiredStateTargetMismatch
  else if negb (validTargetState (D_Target r) (D_State r))
  then Some ErrInvalidDesiredStateTransition
  else match record_of l (D_Target r) with
       | Some current =>
           if (Revision r <? Revision current)%Z then Some ErrDesiredStateRegression
           else if (Revision r =? Revision current)%Z
           then if negb (bool_decide (r = current)) then Some ErrDesiredStateConflict
                else Some ErrNil
           else None
       | None => None
       end.

(** * Execute *)

(** The entry is named by its key; [None] is the nil pointer. *)
Definition commandEntry (l : WorkerLifecycle) (now : Time) (c : Command)
    : WorkerLifecycle * (option string * bool * CommandResult) :=
  match commands l !! IdempotencyKey c with
  | Some entry =>
      if negb (bool_decide (entry_command entry = c))
      then (l, (None, false, result l now c CommandRejected "idempotency_conflict"))
      else (l, (Some (IdempotencyKey c), true, zeroResult))
  | None =>
      if (capacity l <=? Z.of_nat (size (commands l)))%Z
      then (l, (None, false, result l now c CommandRejected "idempotency_capacity"))
      else (with_commands l (<[IdempotencyKey c := mkEntry c None]> (commands l)),
            (Some (IdempotencyKey c), false, zeroResult))
  end.

(** [executeNew] up to the transition: a result, or the state to move to. The
    clock is read for the deadline and again for the result. *)
Definition executeNew_check (l : WorkerLifecycle) (now now' : Time) (c : Command)
    : CommandResult + string :=
  if negb (version_eqb (Protocol c) (M_Protocol (metadata l)))
  then inl (result l now' c CommandUnsupported "protocol_mismatch")
  else match lifecycleCommandState (Action c) with
       | None => inl (result l now' c CommandUnsupported "unsupported_action")
       | Some s =>
           if negb (matches l (Command_Target c))
           then inl (result l now' c CommandRejected "target_mismatch")
           else if negb (After (Deadline c) (UTC now))
           then inl (result l now' c CommandTimedOut "deadline_exceeded")
           else inr s
       end.

(** [executeNew] after the transition. *)
Definition executeNew_result (l : WorkerLifecycle) (now : Time) (c : Command) (err : error)
    : CommandResult :=
  if negb (is_nil err) then
    if Is err Canceled || Is err DeadlineExceeded
    then result l now c CommandTimedOut "deadline_exceeded"
    else result l now c CommandRejected "invalid_transition"
  else result l now c CommandAcknowledged "".

(** * Threads *)

(** A caller of [transition]. *)
Inductive client :=
| CExec (entry : option string) (c : Command) (s : string)
| CApply (r : DesiredRecord).

Definition client_state (cl : client) : string :=
  match cl with CExec _ _ s => s | CApply r => D_State r end.

(** Where a call stands: the next section it runs. *)
Inductive pc :=
| Fresh (entry : option string) (c : Command)   (* executeNew *)
| Lock (cl : client)                            (* applyMu.Lock() *)
| Locked (cl : client)                          (* the tests under applyMu *)
| Enter (cl : client)                           (* transition, first section *)
| Poll (cl : client)                            (* transition, head of the loop *)
| Await (cl : client) (channel : nat)           (* transition, select *)
| Leave (cl : client) (err : error)             (* transition has returned *)
| Store (entry : option string) (c : Command) (res : CommandResult)
| Dup (entry : option string) (c : Command)     (* Execute, select on done *)
| Returned (c : Command) (res : CommandResult) (err : error)  (* Execute has returned *)
| Applied (err : error)                         (* ApplyDesiredState has returned *)
| Crashed (why : string).

(** [Execute] up to the end of [commandEntry]. *)
Definition Execute_call (l : WorkerLifecycle) (now : Time) (ctxNil : bool) (c : Command)
    : WorkerLifecycle * pc :=
  if ctxNil then (l, Returned c zeroResult ErrInvalidWorkerLifecycleContext)
  else if negb (is_nil (Command_Validate c)) then (l, Returned c zeroResult (Command_Validate c))
  else let '(l, (entry, existing, res)) := commandEntry l now c in
       if negb (bool_decide (res = zeroResult)) then (l, Returned c res ErrNil)
       else if existing then (l, Dup entry c)
       else (l, Fresh entry c).

(** The last section of [Execute]. *)
Definition Execute_store (l : WorkerLifecycle) (entry : option string) (c : Command)
    (res : CommandResult) : WorkerLifecycle * pc :=
  match entry ≫= fun key => pair key <$> commands l !! key with
  | None => (l, Crashed "nil pointer dereference")
  | Some (key, e) =>
      match entry_result e with
      | Some _ => (l, Crashed "close of closed channel")
      | None =>
          (with_commands l (<[key := mkEntry (entry_command e) (Some res)]> (commands l)),
           Returned c res ErrNil)
      end
  end.

(** The next section of thread [t]; [None] while it is blocked or has returned. *)
Definition thread_step (t : nat) (now now' : Time) (l : WorkerLifecycle) (mu : option nat)
    (p : pc) : option (WorkerLifecycle * option nat * pc) :=
  match p with
  | Fresh entry c =>
      Some (l, mu, match executeNew_check l now now' c with
                   | inl res => Store entry c res
                   | inr s => Lock (CExec entry c s)
                   end)
  | Lock cl =>
      match mu with
      | Some _ => None
      | None => Some (l, Some t, match cl with CExec _ _ _ => Enter cl | CApply _ => Locked cl end)
      end
  | Locked cl =>
      match cl with
      | CApply r =>
          match ApplyDesiredState_check l r with
          | Some err => Some (l, None, Applied err)
          | None => Some (l, mu, Enter cl)
          end
      | CExec _ _ _ => None
      end
  | Enter cl =>
      let '(l, err) := transition_enter l (client_state cl) in
      Some (l, mu, if negb (is_nil err) then Leave cl err else Poll cl)
  | Poll cl =>
      let '(complete, channel) := transition_poll l (client_state cl) in
      Some (l, mu, if complete then Leave cl ErrNil else Await cl channel)
  | Await cl channel => if (channel <? changed l)%nat then Some (l, mu, Poll cl) else None
  | Leave (CApply r) err =>
      Some (if negb (is_nil err) then l else with_records l (<[D_Target r := r]> (records l)),
            None, Applied err)
  | Leave (CExec entry c _) err => Some (l, None, Store entry c (executeNew_result l now c err))
  | Store entry c res => let '(l, p) := Execute_store l entry c res in Some (l, mu, p)
  | Dup entry c =>
      match entry ≫= fun key => commands l !! key with
      | None => Some (l, mu, Crashed "nil pointer dereference")
      | Some e => match entry_result e with
                  | Some res => Some (l, mu, Returned c res ErrNil)
                  | None => None
                  end
      end
  | Returned _ _ _ | Applied _ | Crashed _ => None
  end.

(** The branch of a select that a done context enables. *)
Definition thread_cancel (now : Time) (e : ctx_err) (l : WorkerLifecycle) (p : pc)
    : option (WorkerLifecycle * pc) :=
  match p with
  | Await cl _ => let '(l, err) := transition_expire l e in Some (l, Leave cl err)
  | Dup _ c => Some (l, Returned c (result l now c CommandUnknown "") ErrNil)
  | _ => None
  end.

(** * The system: one lifecycle, its [applyMu] and the calls in progress *)

Record system := mkSystem {
  lc : WorkerLifecycle;
  applyMu : option nat;
  threads : gmap nat pc
}.

Inductive event :=
| EvBeginAdmission | EvEndAdmission | EvPromote | EvEndJob
| EvExecute (t : nat) (now : Time) (ctxNil : bool) (c : Command)
| EvApply (t : nat) (ctxNil : bool) (r : DesiredRecord)
| EvRun (t : nat) (now now' : Time)
| EvCtxDone (t : nat) (now : Time) (e : ctx_err).

Definition with_lc (s : system) (l : WorkerLifecycle) : system :=
  mkSystem l (applyMu s) (threads s).

Definition step (s : system) (ev : event) : option system :=
  match ev with
  | EvBeginAdmission => Some (with_lc s (BeginAdmission (lc s)).1)
  | EvEndAdmission => Some (with_lc s (EndAdmission (lc s)).1)
  | EvPromote => Some (with_lc s (PromoteAdmissionToJob (lc s)).1)
  | EvEndJob => Some (with_lc s (EndJob (lc s)).1)
  | EvExecute t now ctxNil c =>
      match threads s !! t with
      | Some _ => None
      | None => let '(l, p) := Execute_call (lc s) now ctxNil c in
                Some (mkSystem l (applyMu s) (<[t := p]> (threads s)))
      end
  | EvApply t ctxNil r =>
      match threads s !! t with
      | Some _ => None
      | None => let err := ApplyDesiredState_call ctxNil r in
                Some (mkSystem (lc s) (applyMu s)
                        (<[t := if negb (is_nil err) then Applied err else Lock (CApply r)]>
                           (threads s)))
      end
  | EvRun t now now' =>
      p ← threads s !! t;
      '(l, mu, p') ← thread_step t now now' (lc s) (applyMu s) p;
      Some (mkSystem l mu (<[t := p']> (threads s)))
  | EvCtxDone t now e =>
      p ← threads s !! t;
      '(l, p') ← thread_cancel now e (lc s) p;
      Some (mkSystem l (applyMu s) (<[t := p']> (threads s)))
  end.

Fixpoint run (s : system) (evs : list event) : option system :=
  match evs with
  | [] => Some s
  | ev :: evs => s' ← step s ev; run s' evs
  end.

(** A new lifecycle and no calls yet. *)
Definition initial (m : StatusMetadata) (group queue : string) (maxResults : Z)
    : option system :=
  match NewWorkerLifecycle m group queue maxResults false with
  | inl _ => None
  | inr l => Some (mkSystem l None ∅)
  end.

Definition reachable (s : system) : Prop :=
  exists m group queue maxResults s0 evs,
    initial m group queue maxResults = Some s0 /\ run s0 evs = Some s.
