(* ===== verification/LifecycleSafety.v ===== *)
(** Theorems on the worker lifecycle under every interleaving of its callers:
    [applyMu] excludes, no waiting transition misses its wake-up, a completed
    transition is at its safe boundary, termination is irreversible, revisions
    only grow and a command takes effect once. *)

From S2P Require Import Prelude GoStd Contract Control Status Protocol Desired Lifecycle.

(** * Rely and guarantee *)

(** The thread is between taking and releasing [applyMu]. *)
Definition holding (p : pc) : bool :=
  match p with Locked _ | Enter _ | Poll _ | Await _ _ | Leave _ _ => true | _ => false end.

(** What a thread may assert about the shared state at its next section. *)
Definition thread_ok (l : WorkerLifecycle) (mu : option nat) (t : nat) (p : pc) : Prop :=
  (holding p = true <-> mu = Some t) /\
  match p with
  | Locked (CExec _ _ _) => False
  | Poll cl => state l = client_state cl
  | Await cl ch =>
      state l = client_state cl /\ (ch <= changed l)%nat /\
      (ch = changed l -> transitionCompleteLocked l (client_state cl) = false)
  | Leave cl ErrNil =>
      state l = client_state cl /\ transitionCompleteLocked l (client_state cl) = true
  | _ => True
  end.

(** What a thread that does not move relies on. *)
Definition rely (t : nat) (l : WorkerLifecycle) (mu : option nat)
    (l' : WorkerLifecycle) (mu' : option nat) : Prop :=
  (mu' = Some t <-> mu = Some t) /\
  (mu = Some t -> state l' = state l) /\
  (changed l <= changed l')%nat /\
  (changed l' = changed l -> admissions l' = admissions l /\ jobs l' = jobs l) /\
  (state l' = state l -> transitionCompleteLocked l (state l) = true ->
   transitionCompleteLocked l' (state l) = true).

Lemma complete_counters l l' s :
  admissions l' = admissions l -> jobs l' = jobs l ->
  transitionCompleteLocked l' s = transitionCompleteLocked l s.
Proof. unfold transitionCompleteLocked. by intros -> ->. Qed.

Lemma thread_ok_stable t l mu l' mu' p :
  rely t l mu l' mu' -> thread_ok l mu t p -> thread_ok l' mu' t p.
Proof.
  intros (Hmu & Hst & Hch & Heq & Hkeep) [Hh Hp]. split; [by rewrite Hh, Hmu|].
  assert (Hs : holding p = true -> state l' = state l) by (rewrite Hh; done).
  destruct p as [| |[]| |cl|cl ch|cl [] | | | | |]; simpl in *; try done.
  - by rewrite Hs.
  - destruct Hp as (Hp & Hle & Hno). rewrite Hs by done. split_and!; [done|lia|].
    intros Hc. destruct Heq as [Ha Hj]; [lia|].
    rewrite (complete_counters l l') by done. apply Hno. lia.
  - destruct Hp as [Hp Hc]. rewrite Hs by done. split; [done|].
    rewrite <- Hp in Hc |- *. by apply Hkeep; [apply Hs|].
Qed.

(** Operations on the counters respect every thread. *)
Lemma rely_same t l mu l' :
  state l' = state l -> admissions l' = admissions l -> jobs l' = jobs l ->
  (changed l <= changed l')%nat -> rely t l mu l' mu.
Proof.
  intros Hs Ha Hj Hc. split_and!; try done. intros _ H.
  by rewrite (complete_counters l l').
Qed.

Lemma rely_counters t l mu a j :
  (transitionCompleteLocked l (state l) = true ->
   transitionCompleteLocked (with_counters l a j) (state l) = true) ->
  rely t l mu (notifyLocked (with_counters l a j)) mu.
Proof. intros H. split_and!; simpl; try done; try lia. Qed.

Ltac counters :=
  apply rely_counters; unfold transitionCompleteLocked; simpl; intros; repeat case_test; lia.

Lemma rely_BeginAdmission t l mu : rely t l mu (BeginAdmission l).1 mu.
Proof.
  unfold BeginAdmission. case_test; simpl; [by apply rely_same|].
  apply rely_counters. unfold transitionCompleteLocked.
  apply negb_false_iff in E. by rewrite E.
Qed.

Lemma rely_EndAdmission t l mu : rely t l mu (EndAdmission l).1 mu.
Proof. unfold EndAdmission. case_test; simpl; [by apply rely_same|counters]. Qed.

Lemma rely_Promote t l mu : rely t l mu (PromoteAdmissionToJob l).1 mu.
Proof. unfold PromoteAdmissionToJob. case_test; simpl; [by apply rely_same|counters]. Qed.

Lemma rely_EndJob t l mu : rely t l mu (EndJob l).1 mu.
Proof. unfold EndJob. case_test; simpl; [by apply rely_same|counters]. Qed.

#[export] Hint Resolve rely_BeginAdmission rely_EndAdmission rely_Promote rely_EndJob : lifecycle.

(** The holder of [applyMu] may move the state; no other thread relies on it. *)
Lemma rely_held t t' l mu l' :
  t <> t' -> mu = Some t -> (changed l < changed l')%nat ->
  (state l' = state l -> admissions l' = admissions l /\ jobs l' = jobs l) ->
  rely t' l mu l' mu.
Proof.
  intros Hne -> Hc Hs. split_and!; try done; try lia.
  - intros [= <-]. done.
  - intros Heq H. destruct (Hs Heq) as [Ha Hj]. by rewrite (complete_counters l l').
Qed.

Lemma rely_release t t' l mu l' :
  t <> t' -> mu = Some t -> state l' = state l -> admissions l' = admissions l ->
  jobs l' = jobs l -> changed l' = changed l -> rely t' l mu l' None.
Proof.
  intros Hne -> ????. split_and!; try done; [|lia|].
  - split; [done|]. by intros [= <-].
  - intros _ Hk. by rewrite (complete_counters l l').
Qed.

Lemma rely_take t t' l : t <> t' -> rely t' l None l (Some t).
Proof. intros Hne. split_and!; try done. split; [by intros [= ->]|done]. Qed.

(** * The synchronization invariant *)

Definition u32 (z : Z) : Prop := (0 <= z < 2 ^ 32)%Z.

Lemma wrap_u32_range z : u32 (wrap_u32 z).
Proof. unfold u32, wrap_u32. apply Z.mod_pos_bound. lia. Qed.

#[export] Hint Resolve wrap_u32_range : lifecycle.

Definition counters_ok (l : WorkerLifecycle) : Prop := u32 (admissions l) /\ u32 (jobs l).

Definition sync (s : system) : Prop :=
  (forall t p, threads s !! t = Some p -> thread_ok (lc s) (applyMu s) t p) /\
  (forall t, applyMu s = Some t -> is_Some (threads s !! t)) /\
  counters_ok (lc s).

(** A step that moves thread [t] to [p] and satisfies what the others rely on. *)
Lemma sync_move s t l mu p :
  sync s -> thread_ok l mu t p -> counters_ok l ->
  (forall t', t <> t' -> rely t' (lc s) (applyMu s) l mu) ->
  sync (mkSystem l mu (<[t := p]> (threads s))).
Proof.
  intros (Hth & Hmu & _) Hp Hc Hr. split_and!; simpl; [|intros t' Ht'|done].
  - intros t' p' Hl. destruct (decide (t = t')) as [<-|Hne].
    + rewrite lookup_insert_eq in Hl. by injection Hl as <-.
    + rewrite lookup_insert_ne in Hl by done. eapply thread_ok_stable; eauto.
  - destruct (decide (t = t')) as [<-|Hne]; [by rewrite lookup_insert_eq|].
    rewrite lookup_insert_ne by done. apply Hmu. by apply (Hr t' Hne).
Qed.

Lemma sync_env s l :
  sync s -> counters_ok l ->
  (forall t, rely t (lc s) (applyMu s) l (applyMu s)) -> sync (with_lc s l).
Proof.
  intros (Hth & Hmu & _) Hc Hr. split_and!; simpl; try done.
  intros t p Hl. eapply thread_ok_stable; eauto.
Qed.

(** The mutex section at the start of a transition. *)
Lemma sync_enter s t cl :
  sync s -> threads s !! t = Some (Enter cl) ->
  let r := transition_enter (lc s) (client_state cl) in
  sync (mkSystem r.1 (applyMu s)
    (<[t := if negb (is_nil r.2) then Leave cl r.2 else Poll cl]> (threads s))).
Proof.
  intros Hs Ht. pose proof Hs as (Hth & Hmu & Hc). pose proof (Hth _ _ Ht) as [[Hh _] _].
  specialize (Hh eq_refl). unfold transition_enter. case_test; simpl.
  - apply sync_move; try done; intros t' _; by apply rely_same.
  - apply sync_move; try done; intros t' Hne; apply (rely_held t); simpl; try done; lia.
Qed.

Lemma sync_expire s t cl ch e :
  sync s -> threads s !! t = Some (Await cl ch) ->
  let r := transition_expire (lc s) e in
  sync (mkSystem r.1 (applyMu s) (<[t := Leave cl r.2]> (threads s))).
Proof.
  intros Hs Ht. pose proof Hs as (Hth & Hmu & Hc). pose proof (Hth _ _ Ht) as [[Hh _] _].
  specialize (Hh eq_refl). destruct e; unfold transition_expire; simpl.
  - apply sync_move; try done; intros t' _; by apply rely_same.
  - apply sync_move; try done; intros t' _; apply rely_same; simpl; try done; lia.
Qed.

(** A thread that does not hold [applyMu] before or after, and leaves the counters. *)
Lemma sync_outside s t l p :
  sync s -> holding p = false -> applyMu s <> Some t ->
  state l = state (lc s) -> admissions l = admissions (lc s) -> jobs l = jobs (lc s) ->
  changed l = changed (lc s) ->
  sync (mkSystem l (applyMu s) (<[t := p]> (threads s))).
Proof.
  intros Hs Hp Hmu Hst Ha Hj Hch. apply sync_move; [done| | |].
  - split; [by rewrite Hp|]. by destruct p.
  - destruct Hs as (_ & _ & [Hc1 Hc2]). by split; rewrite ?Ha, ?Hj.
  - intros t' _. apply rely_same; try done. lia.
Qed.

(** A thread that releases [applyMu]. *)
Lemma sync_release s t l p :
  sync s -> holding p = false -> applyMu s = Some t ->
  state l = state (lc s) -> admissions l = admissions (lc s) -> jobs l = jobs (lc s) ->
  changed l = changed (lc s) ->
  sync (mkSystem l None (<[t := p]> (threads s))).
Proof.
  intros Hs Hp Hmu Hst Ha Hj Hch. apply sync_move; [done| | |].
  - split; [by rewrite Hp|]. by destruct p.
  - destruct Hs as (_ & _ & [Hc1 Hc2]). by split; rewrite ?Ha, ?Hj.
  - intros t' Hne. by apply (rely_release t).
Qed.

(** [commandEntry] and the last section of [Execute] touch only the commands. *)
Definition same_sync (l l' : WorkerLifecycle) : Prop :=
  state l' = state l /\ admissions l' = admissions l /\ jobs l' = jobs l /\
  changed l' = changed l /\ records l' = records l /\ metadata l' = metadata l /\
  capacity l' = capacity l /\ drainTimedOut l' = drainTimedOut l.

Lemma Execute_call_sync l now nilCtx c l' p :
  Execute_call l now nilCtx c = (l', p) -> same_sync l l' /\ holding p = false.
Proof.
  unfold Execute_call, commandEntry. intros H.
  destruct nilCtx; [by injection H as <- <-|].
  destruct (is_nil (Command_Validate c)); [|by injection H as <- <-]. simpl in H.
  destruct (commands l !! IdempotencyKey c) as [e|]; repeat case_test; by injection H as <- <-.
Qed.

Lemma Execute_store_sync l entry c res l' p :
  Execute_store l entry c res = (l', p) -> same_sync l l' /\ holding p = false.
Proof.
  unfold Execute_store. destruct (_ ≫= _) as [[key e]|]; [|by intros [= <- <-]].
  destruct (entry_result e); by intros [= <- <-].
Qed.

Lemma sync_thread_step s t now now' p l mu p' :
  sync s -> threads s !! t = Some p ->
  thread_step t now now' (lc s) (applyMu s) p = Some (l, mu, p') ->
  sync (mkSystem l mu (<[t := p']> (threads s))).
Proof.
  intros Hs Ht H. pose proof Hs as (Hth & Hmu & Hc). pose proof (Hth _ _ Ht) as [Hh Hp].
  assert (Hout : holding p = false -> applyMu s <> Some t) by (rewrite <- Hh; congruence).
  destruct p as [en c|cl|cl|cl|cl|cl ch|cl err|en c res|en c|c res err|err|why]; simpl in H;
    try discriminate H.
  - injection H as <- <- <-. apply sync_outside; auto. by case_match.
  - destruct (applyMu s) eqn:Emu; [done|]. injection H as <- <- <-.
    apply sync_move; try done; [by destruct cl|]. intros t' Hne. rewrite Emu. by apply rely_take.
  - destruct cl as [|r]; [done|]. destruct (ApplyDesiredState_check (lc s) r) as [err|].
    + injection H as <- <- <-. apply sync_release; auto. by apply Hh.
    + injection H as <- <- <-. apply sync_move; try done; intros t' _; by apply rely_same.
  - pose proof (sync_enter s t cl Hs Ht) as He. cbn zeta in He.
    destruct (transition_enter _ _) as [l1 e1]. injection H as <- <- <-. exact He.
  - injection H as <- <- <-. apply sync_move; try done.
    split; [by destruct (transitionCompleteLocked _ _)|].
    destruct (transitionCompleteLocked _ _) eqn:E; done.
  - case_test; [|done]. injection H as <- <- <-. destruct Hp as (Hp & _).
    apply sync_move; try done; intros t' _; by apply rely_same.
  - destruct cl as [en c st|r].
    + injection H as <- <- <-. apply sync_release; auto. by apply Hh.
    + injection H as <- <- <-. apply sync_release; auto; try (by case_test). by apply Hh.
  - destruct (Execute_store (lc s) en c res) as [l1 p1] eqn:E. injection H as <- <- <-.
    apply Execute_store_sync in E as [(? & ? & ? & ? & _) ?]. apply sync_outside; auto.
  - destruct (_ ≫= _) as [e|]; [destruct (entry_result e); [|done]|];
      injection H as <- <- <-; apply sync_outside; auto.
Qed.

Lemma counters_ops l :
  counters_ok l ->
  counters_ok (BeginAdmission l).1 /\ counters_ok (EndAdmission l).1 /\
  counters_ok (PromoteAdmissionToJob l).1 /\ counters_ok (EndJob l).1.
Proof.
  intros [Ha Hj].
  unfold BeginAdmission, EndAdmission, PromoteAdmissionToJob, EndJob.
  split_and!; case_test; simpl; split; simpl; auto using wrap_u32_range.
Qed.

Lemma sync_step s ev s' : sync s -> step s ev = Some s' -> sync s'.
Proof.
  intros Hs H. pose proof Hs as (Hth & Hmu & Hc).
  destruct (counters_ops _ Hc) as (H1 & H2 & H3 & H4).
  destruct ev as [| | | |t now n c|t n r|t now now'|t now e]; simpl in H.
  1-4: injection H as <-; apply sync_env; auto with lifecycle.
  - destruct (threads s !! t) eqn:Ht; [done|].
    destruct (Execute_call (lc s) now n c) as [l p] eqn:E. injection H as <-.
    apply Execute_call_sync in E as [(? & ? & ? & ? & _) ?]. apply sync_outside; auto.
    intros Hm. apply Hmu in Hm as [? ?]. congruence.
  - destruct (threads s !! t) eqn:Ht; [done|]. injection H as <-.
    apply sync_outside; auto; [by case_test|]. intros Hm. apply Hmu in Hm as [? ?]. congruence.
  - destruct (threads s !! t) as [p|] eqn:Ht; [|done]. simpl in H.
    destruct (thread_step _ _ _ _ _ _) as [[[l mu] p']|] eqn:E; [|done]. injection H as <-.
    by eapply sync_thread_step.
  - destruct (threads s !! t) as [p|] eqn:Ht; [|done]. simpl in H.
    destruct p as [| | | | |cl ch| | |en c| | |]; try discriminate H; simpl in H.
    + injection H as <-. by apply (sync_expire s t cl ch e).
    + injection H as <-. apply sync_outside; auto. intros Hm.
      by apply (Hth _ _ Ht) in Hm.
Qed.

Lemma run_induct (P : system -> Prop) s evs s' :
  (forall a ev b, P a -> step a ev = Some b -> P b) -> P s -> run s evs = Some s' -> P s'.
Proof.
  intros Hstep. revert s. induction evs as [|ev evs IH]; intros s Hs H; simpl in H.
  { by injection H as <-. }
  destruct (step s ev) eqn:E; [|done]. eauto.
Qed.

Lemma run_app s evs evs' :
  run s (evs ++ evs') = s' ← run s evs; run s' evs'.
Proof.
  revert s. induction evs as [|ev evs IH]; intros s; [done|]. simpl.
  destruct (step s ev); [apply IH|done].
Qed.

Lemma initial_sync m g q n s : initial m g q n = Some s -> sync s.
Proof.
  unfold initial, NewWorkerLifecycle. case_test; [done|]. intros [= <-].
  by split_and!.
Qed.

Lemma reachable_sync s : reachable s -> sync s.
Proof.
  intros (m & g & q & n & s0 & evs & H0 & Hr).
  eapply (run_induct sync); eauto using initial_sync, sync_step.
Qed.

(** * Waiting transitions *)

Lemma run_step s ev s' : step s ev = Some s' -> run s [ev] = Some s'.
Proof. intros H. simpl. by rewrite H. Qed.

(** Ending every admission, then every job, empties the counters. *)
Lemma run_end_admissions n s :
  counters_ok (lc s) -> admissions (lc s) = Z.of_nat n ->
  exists l, run s (replicate n EvEndAdmission) = Some (with_lc s l) /\ counters_ok l /\
    admissions l = 0%Z /\ jobs l = jobs (lc s) /\ state l = state (lc s) /\
    (changed (lc s) <= changed l)%nat.
Proof.
  revert s. induction n as [|n IH]; intros s Hc Ha; simpl.
  { exists (lc s). by destruct s. }
  unfold EndAdmission. destruct (Z.eqb_spec (admissions (lc s)) 0); [lia|]. simpl.
  assert (Hw : wrap_u32 (admissions (lc s) - 1) = Z.of_nat n).
  { destruct Hc as [Hc _]. unfold u32 in Hc. unfold wrap_u32. rewrite Z.mod_small; lia. }
  edestruct (IH (with_lc s (notifyLocked (with_counters (lc s)
    (wrap_u32 (admissions (lc s) - 1)) (jobs (lc s)))))) as (l & Hr & Hl & ? & ? & ? & ?);
    simpl; [split; simpl; [apply wrap_u32_range|by destruct Hc]|done|].
  exists l. simpl in *. rewrite Hr. split_and!; try done. lia.
Qed.

Lemma run_end_jobs n s :
  counters_ok (lc s) -> jobs (lc s) = Z.of_nat n ->
  exists l, run s (replicate n EvEndJob) = Some (with_lc s l) /\ counters_ok l /\
    jobs l = 0%Z /\ admissions l = admissions (lc s) /\ state l = state (lc s) /\
    (changed (lc s) <= changed l)%nat.
Proof.
  revert s. induction n as [|n IH]; intros s Hc Ha; simpl.
  { exists (lc s). by destruct s. }
  unfold EndJob. destruct (Z.eqb_spec (jobs (lc s)) 0); [lia|]. simpl.
  assert (Hw : wrap_u32 (jobs (lc s) - 1) = Z.of_nat n).
  { destruct Hc as [_ Hc]. unfold u32 in Hc. unfold wrap_u32. rewrite Z.mod_small; lia. }
  edestruct (IH (with_lc s (notifyLocked (with_counters (lc s) (admissions (lc s))
    (wrap_u32 (jobs (lc s) - 1)))))) as (l & Hr & Hl & ? & ? & ? & ?);
    simpl; [split; simpl; [by destruct Hc|apply wrap_u32_range]|done|].
  exists l. simpl in *. rewrite Hr. split_and!; try done. lia.
Qed.

(** A waiting transition whose condition holds wakes and returns. *)
Lemma await_wakes s t cl ch now now' :
  sync s -> threads s !! t = Some (Await cl ch) ->
  transitionCompleteLocked (lc s) (client_state cl) = true ->
  run s [EvRun t now now'; EvRun t now now'] =
    Some (mkSystem (lc s) (applyMu s) (<[t := Leave cl ErrNil]> (<[t := Poll cl]> (threads s)))).
Proof.
  intros (Hth & _) Ht Hc. destruct (Hth _ _ Ht) as [_ (_ & Hle & Hno)]. simpl.
  rewrite Ht. simpl. destruct (Nat.ltb_spec ch (changed (lc s))) as [Hlt|Hge].
  - simpl. rewrite lookup_insert_eq. simpl. by rewrite Hc.
  - rewrite Hno in Hc; [done|lia].
Qed.

(** C2: A pause, drain or terminate request that waits is never stuck. In every
    reachable state of the lifecycle, for a transition that is waiting on a
    notification channel: as soon as its completion condition holds, the channel
    it waits on is already closed and its next two sections return success (no
    wake-up is lost, whatever other calls did between reading the counters and
    waiting); and ending the admissions and jobs counted at that moment, in
    whatever reachable state, is enough to make it return success. *)
Theorem lifecycle_wait_completes (s : system) (t : nat) (cl : client) (ch : nat)
    (now now' : Time) :
  reachable s -> threads s !! t = Some (Await cl ch) ->
  (transitionCompleteLocked (lc s) (client_state cl) = true ->
   exists s', run s [EvRun t now now'; EvRun t now now'] = Some s' /\
     threads s' !! t = Some (Leave cl ErrNil)) /\
  exists s', run s (replicate (Z.to_nat (admissions (lc s))) EvEndAdmission ++
                    replicate (Z.to_nat (jobs (lc s))) EvEndJob ++
                    [EvRun t now now'; EvRun t now now']) = Some s' /\
    threads s' !! t = Some (Leave cl ErrNil).
Proof.
  intros Hr Ht. pose proof (reachable_sync _ Hr) as Hs. pose proof Hs as (_ & _ & Hc).
  assert (Hwake : forall s1, sync s1 -> threads s1 !! t = Some (Await cl ch) ->
    transitionCompleteLocked (lc s1) (client_state cl) = true ->
    exists s', run s1 [EvRun t now now'; EvRun t now now'] = Some s' /\
      threads s' !! t = Some (Leave cl ErrNil)).
  { intros s1 H1 H2 H3. eexists. split; [by eapply await_wakes|]. simpl. by rewrite lookup_insert_eq. }
  split; [by apply Hwake|].
  destruct (run_end_admissions (Z.to_nat (admissions (lc s))) s Hc) as (l1 & R1 & C1 & A1 & J1 & _).
  { destruct Hc as [[? ?] _]. lia. }
  destruct (run_end_jobs (Z.to_nat (jobs (lc s))) (with_lc s l1) C1) as (l2 & R2 & C2 & J2 & A2 & _).
  { destruct Hc as [_ [? ?]]. simpl. lia. }
  rewrite run_app, R1. cbn [mbind option_bind]. rewrite run_app, R2. cbn [mbind option_bind].
  apply Hwake; [|done|].
  - eapply (run_induct sync); [apply sync_step| |exact R2].
    eapply (run_induct sync); [apply sync_step|exact Hs|exact R1].
  - simpl in A2 |- *. unfold transitionCompleteLocked. rewrite J2, A2, A1. by repeat case_test.
Qed.

(** * The boundary a completed transition promises *)

(** Runs along which every state satisfies a test. *)
Fixpoint run_while (keep : system -> bool) (s : system) (evs : list event) : option system :=
  match evs with
  | [] => Some s
  | ev :: evs =>
      s' ← step s ev;
      if keep s' then run_while keep s' evs else None
  end.

(** A thread's section never touches the counters; only the first section of a
    transition moves the state. *)
Lemma thread_step_counters t now now' l mu p l' mu' p' :
  thread_step t now now' l mu p = Some (l', mu', p') ->
  admissions l' = admissions l /\ jobs l' = jobs l /\
  (state l' = state l \/ exists cl, p = Enter cl /\ l' = (transition_enter l (client_state cl)).1).
Proof.
  intros H.
  destruct p as [en c|cl|cl|cl|cl|cl ch|cl err|en c res|en c|c res err|err|why]; simpl in H;
    try discriminate H.
  4: { destruct (transition_enter l (client_state cl)) as [l1 e1] eqn:E. injection H as <- <- <-.
       assert (admissions l1 = admissions l /\ jobs l1 = jobs l) as [? ?].
       { unfold transition_enter in E. case_test; by injection E as <- <-. }
       split_and!; [done..|]. right. exists cl. by rewrite E. }
  7: { destruct (Execute_store l en c res) as [l1 p1] eqn:E. injection H as <- <- <-.
       apply Execute_store_sync in E as [(? & ? & ? & _) _]. auto. }
  all: repeat case_match; simplify_eq; auto.
Qed.

Lemma step_complete s ev s' :
  sync s -> step s ev = Some s' -> state (lc s') = state (lc s) ->
  transitionCompleteLocked (lc s) (state (lc s)) = true ->
  transitionCompleteLocked (lc s') (state (lc s)) = true.
Proof.
  intros Hs H Hst Hc.
  assert (Hsame : forall l mu th, same_sync (lc s) l -> s' = mkSystem l mu th ->
    transitionCompleteLocked (lc s') (state (lc s)) = true).
  { intros l mu th (_ & Ha & Hj & _) ->. by rewrite (complete_counters (lc s) l). }
  destruct ev as [| | | |t now n c|t n r|t now now'|t now e]; simpl in H.
  - injection H as <-. by apply (rely_BeginAdmission 0 (lc s) None).
  - injection H as <-. by apply (rely_EndAdmission 0 (lc s) None).
  - injection H as <-. by apply (rely_Promote 0 (lc s) None).
  - injection H as <-. by apply (rely_EndJob 0 (lc s) None).
  - destruct (threads s !! t); [done|]. destruct (Execute_call _ _ _ _) as [l p] eqn:E.
    apply Execute_call_sync in E as [E _]. injection H as <-. by eapply Hsame.
  - destruct (threads s !! t); [done|]. by injection H as <-.
  - destruct (threads s !! t) as [p|]; [|done]. simpl in H.
    destruct (thread_step _ _ _ _ _ _) as [[[l mu] p']|] eqn:E; [|done]. injection H as <-.
    apply thread_step_counters in E as (Ha & Hj & _). simpl in *.
    by rewrite (complete_counters (lc s) l).
  - destruct (threads s !! t) as [p|]; [|done]. simpl in H.
    destruct p as [| | | | |cl ch| | |en c| | |]; try discriminate H; simpl in H; injection H as <-.
    + by destruct e.
    + done.
Qed.

(** C25: When a transition returns success the worker is at the boundary it asked
    for, and stays there. A successful return happens only while the lifecycle is
    in the requested state; if that is a pause, no admission is outstanding, and
    for a drain or termination no admission and no job; the state refuses new
    admissions, and however other calls interleave afterwards the boundary still
    holds as long as no later transition changes the state. *)
Theorem lifecycle_boundary_safe (s : system) (t : nat) (cl : client) :
  reachable s -> threads s !! t = Some (Leave cl ErrNil) ->
  state (lc s) = client_state cl /\
  forall evs s',
    run_while (fun x => state (lc x) == client_state cl) s evs = Some s' ->
    client_state cl <> DesiredActive ->
    admissions (lc s') = 0%Z /\
    (client_state cl <> DesiredPaused -> jobs (lc s') = 0%Z) /\
    BeginAdmission (lc s') = (lc s', false).
Proof.
  intros Hr Ht. pose proof (reachable_sync _ Hr) as Hs.
  destruct Hs as (Hth & Hrest). pose proof (Hth _ _ Ht) as [_ [Hst Hc]].
  assert (Hs : sync s) by (by split). split; [done|]. clear Ht Hth Hrest Hr.
  intros evs. revert s Hs Hst Hc. induction evs as [|ev evs IH]; intros s Hs Hst Hc s' H Hna; simpl in H.
  - injection H as <-. unfold transitionCompleteLocked in Hc. unfold BeginAdmission. rewrite Hst.
    destruct (String.eqb_spec (client_state cl) DesiredActive); [done|].
    destruct (String.eqb_spec (client_state cl) DesiredPaused); simpl; split_and!; try done; try lia.
  - destruct (step s ev) as [s1|] eqn:E; [|done]. simpl in H. case_test; [|done].
    apply String.eqb_eq in E0. eapply (IH s1); eauto using sync_step.
    rewrite <- Hst in Hc |- *. eapply step_complete; eauto. congruence.
Qed.

(** * Termination is irreversible *)

Lemma step_terminating s ev s' :
  counters_ok (lc s) -> state (lc s) = DesiredTerminating -> step s ev = Some s' ->
  state (lc s') = DesiredTerminating /\
  (admissions (lc s') + jobs (lc s') <= admissions (lc s) + jobs (lc s))%Z.
Proof.
  intros [Ha Hj] Ht H. unfold u32 in *.
  assert (Hsame : forall l, same_sync (lc s) l -> state l = DesiredTerminating /\
    (admissions l + jobs l <= admissions (lc s) + jobs (lc s))%Z).
  { intros l (H1 & H2 & H3 & _). rewrite H1, H2, H3. split; [done|lia]. }
  assert (Hw : forall z, ((0 <= z < 2 ^ 32)%Z -> wrap_u32 z = z) /\
    ((0 <= z)%Z -> (wrap_u32 z <= z)%Z)).
  { intros z. unfold wrap_u32. split; [apply Z.mod_small|]. intros. apply Z.mod_le; lia. }
  destruct ev as [| | | |t now n c|t n r|t now now'|t now e]; simpl in H.
  - injection H as <-. unfold BeginAdmission. rewrite Ht. simpl. split; [done|lia].
  - injection H as <-. unfold EndAdmission. destruct (Z.eqb_spec (admissions (lc s)) 0); simpl; [by apply Hsame|].
    rewrite (proj1 (Hw _)) by lia. split; [done|lia].
  - injection H as <-. unfold PromoteAdmissionToJob.
    destruct (Z.eqb_spec (admissions (lc s)) 0); simpl; [by apply Hsame|].
    rewrite (proj1 (Hw (admissions (lc s) - 1)%Z)) by lia.
    pose proof (proj2 (Hw (jobs (lc s) + 1)%Z)). split; [done|lia].
  - injection H as <-. unfold EndJob. destruct (Z.eqb_spec (jobs (lc s)) 0); simpl; [by apply Hsame|].
    rewrite (proj1 (Hw _)) by lia. split; [done|lia].
  - destruct (threads s !! t); [done|]. destruct (Execute_call _ _ _ _) as [l p] eqn:E.
    apply Execute_call_sync in E as [E _]. injection H as <-. auto.
  - destruct (threads s !! t); [done|]. injection H as <-. by apply Hsame.
  - destruct (threads s !! t) as [p|]; [|done]. simpl in H.
    destruct (thread_step _ _ _ _ _ _) as [[[l mu] p']|] eqn:E; [|done]. injection H as <-. simpl.
    apply thread_step_counters in E as (Ha' & Hj' & Hst). rewrite Ha', Hj'. split; [|lia].
    destruct Hst as [->|(cl & _ & ->)]; [done|]. unfold transition_enter. rewrite Ht. simpl.
    destruct (String.eqb_spec (client_state cl) DesiredTerminating); done.
  - destruct (threads s !! t) as [p|]; [|done]. simpl in H.
    destruct p as [| | | | |cl ch| | |en c| | |]; try discriminate H; simpl in H; injection H as <-; simpl.
    + destruct e; simpl; [by apply Hsame|split; [done|lia]].
    + by apply Hsame.
Qed.

(** Termination is irreversible and only drains. Once the lifecycle is
    terminating it is terminating after every further sequence of calls, and the
    work it accounts for (admissions plus jobs) never grows again. *)
Theorem lifecycle_terminating_final (s s' : system) (evs : list event) :
  reachable s -> state (lc s) = DesiredTerminating -> run s evs = Some s' ->
  state (lc s') = DesiredTerminating /\
  (admissions (lc s') + jobs (lc s') <= admissions (lc s) + jobs (lc s))%Z.
Proof.
  intros Hr Ht Hrun. pose proof (reachable_sync _ Hr) as Hs.
  enough (sync s' /\ state (lc s') = DesiredTerminating /\
    (admissions (lc s') + jobs (lc s') <= admissions (lc s) + jobs (lc s))%Z) by tauto.
  revert Hrun. apply (run_induct (fun x => sync x /\ state (lc x) = DesiredTerminating /\
    (admissions (lc x) + jobs (lc x) <= admissions (lc s) + jobs (lc s))%Z)); [|split_and!; [done|done|lia]].
  intros a ev b (Ha & Hta & Hle) Hstep. pose proof Ha as (_ & _ & Hc).
  destruct (step_terminating _ _ _ Hc Hta Hstep) as [H1 H2].
  split_and!; [by eapply sync_step|done|lia].
Qed.

(** * Concrete runs *)

Definition demo_time : Time := mkTime 1000 None 0.
Definition demo_meta : StatusMetadata := mkStatusMetadata "worker-1" "v1" 4 (mkVersion 1 0).

Definition demo_command (key action : string) : Command :=
  mkCommand "cmd-1" key "operator" "maintenance" (mkVersion 1 0) action
    (mkTarget TargetWorker "worker-1") (mkTime 900 None 0) (mkTime 5000 None 0)
    true None None.

(** A worker with room for two commands, before and after some events. *)
Definition demo_start : system :=
  mkSystem (mkLifecycle demo_meta "group" "jobs" 2 DesiredActive 0 0 false 0 ∅ ∅) None ∅.

Definition demo (evs : list event) : system := default demo_start (run demo_start evs).

Lemma demo_reachable evs : run demo_start evs = Some (demo evs) -> reachable (demo evs).
Proof.
  intros H. exists demo_meta, "group", "jobs", 2%Z, demo_start, evs. split; [|done].
  vm_compute. reflexivity.
Qed.

Definition turn (t : nat) : event := EvRun t demo_time demo_time.

(** One job in flight and one admission, and a drain command that waits for them. *)
Definition drain_waits : list event :=
  [EvBeginAdmission; EvPromote; EvBeginAdmission;
   EvExecute 0 demo_time false (demo_command "k" CommandDrain);
   turn 0; turn 0; turn 0; turn 0].

Definition drain_client : client :=
  CExec (Some "k") (demo_command "k" CommandDrain) DesiredDraining.

Lemma lifecycle_wait_completes_witness :
  exists s', run (demo drain_waits) ([EvEndAdmission] ++ [EvEndJob] ++ [turn 0; turn 0]) = Some s' /\
    threads s' !! 0 = Some (Leave drain_client ErrNil).
Proof.
  refine (proj2 (lifecycle_wait_completes (demo drain_waits) 0 drain_client 4 demo_time demo_time _ _)).
  - apply demo_reachable. vm_compute. reflexivity.
  - vm_compute. reflexivity.
Defined.

Definition drained : list event := drain_waits ++ [EvEndAdmission; EvEndJob; turn 0; turn 0].

Lemma lifecycle_boundary_safe_witness :
  exists s', run_while (fun x => state (lc x) == DesiredDraining) (demo drained)
    [EvBeginAdmission; EvEndJob] = Some s' /\ admissions (lc s') = 0%Z.
Proof.
  eexists. split; [vm_compute; reflexivity|].
  refine (proj1 (proj2 (lifecycle_boundary_safe (demo drained) 0 drain_client _ _)
    [EvBeginAdmission; EvEndJob] _ _ _)).
  - apply demo_reachable. vm_compute. reflexivity.
  - vm_compute. reflexivity.
  - vm_compute. reflexivity.
  - discriminate.
Defined.

Definition terminating : list event :=
  [EvExecute 0 demo_time false (demo_command "k" CommandTerminate); turn 0; turn 0; turn 0].

Lemma lifecycle_terminating_final_witness :
  state (lc (demo (terminating ++ [EvBeginAdmission; turn 0; turn 0; turn 0]))) = DesiredTerminating.
Proof.
  refine (proj1 (lifecycle_terminating_final (demo terminating) _
    [EvBeginAdmission; turn 0; turn 0; turn 0] _ _ _)).
  - apply demo_reachable. vm_compute. reflexivity.
  - vm_compute. reflexivity.
  - vm_compute. reflexivity.
Defined.
