(* ===== verification/LifecycleCommands.v ===== *)
(** Theorems on what the worker lifecycle remembers: applied revisions only grow,
    and a command keyed by its idempotency key is executed by one call whose
    result every duplicate receives. *)

From S2P Require Import Prelude GoStd Contract Control Status Protocol Desired Lifecycle.
From S2P Require Import LifecycleSafety.

(** * Desired revisions *)

(** A record on its way to be stored is valid, addressed to this lifecycle and
    newer than the stored one. *)
Definition newer (l : WorkerLifecycle) (r : DesiredRecord) : Prop :=
  DesiredRecord_Validate r = ErrNil /\ matches l (D_Target r) = true /\
  validTargetState (D_Target r) (D_State r) = true /\
  forall cur, records l !! D_Target r = Some cur -> (Revision cur < Revision r)%Z.

Definition rev_thread (l : WorkerLifecycle) (p : pc) : Prop :=
  match p with
  | Lock (CApply r) | Locked (CApply r) => DesiredRecord_Validate r = ErrNil
  | Enter (CApply r) | Poll (CApply r) | Await (CApply r) _ | Leave (CApply r) _ => newer l r
  | _ => True
  end.

(** The parts of a lifecycle that no operation changes. *)
Definition same_identity (l l' : WorkerLifecycle) : Prop :=
  metadata l' = metadata l /\ workerGroup l' = workerGroup l /\ L_queue l' = L_queue l /\
  capacity l' = capacity l.

Definition rev_ok (s : system) : Prop :=
  (forall t p, threads s !! t = Some p -> rev_thread (lc s) p) /\
  (forall tgt r, records (lc s) !! tgt = Some r ->
     tgt = D_Target r /\ DesiredRecord_Validate r = ErrNil /\ matches (lc s) tgt = true /\
     validTargetState tgt (D_State r) = true).

Lemma matches_same l l' tgt : same_identity l l' -> matches l' tgt = matches l tgt.
Proof. unfold matches. by intros (-> & -> & -> & _). Qed.

Lemma newer_same l l' r :
  same_identity l l' -> records l' = records l -> newer l r -> newer l' r.
Proof.
  intros Hi Hr (? & ? & ? & ?). unfold newer. rewrite Hr, (matches_same l l') by done.
  by split_and!.
Qed.

Lemma ApplyDesiredState_check_none l r :
  ApplyDesiredState_check l r = None -> DesiredRecord_Validate r = ErrNil -> newer l r.
Proof.
  unfold ApplyDesiredState_check, record_of. intros H Hv.
  destruct (matches l (D_Target r)) eqn:Hm; [|done].
  destruct (validTargetState _ _) eqn:Ht; [|done]. simpl in H. split_and!; try done.
  intros cur Hc. rewrite Hc in H.
  destruct (Z.ltb_spec (Revision r) (Revision cur)); [done|].
  destruct (Z.eqb_spec (Revision r) (Revision cur)); [by case_bool_decide|lia].
Qed.

(** The effect of one step on the records. *)
Lemma commands_op_identity l :
  same_identity l (BeginAdmission l).1 /\ same_identity l (EndAdmission l).1 /\
  same_identity l (PromoteAdmissionToJob l).1 /\ same_identity l (EndJob l).1.
Proof.
  unfold BeginAdmission, EndAdmission, PromoteAdmissionToJob, EndJob.
  split_and!; by case_test.
Qed.

Lemma Execute_call_identity l now n c :
  same_identity l (Execute_call l now n c).1 /\ records (Execute_call l now n c).1 = records l.
Proof.
  unfold Execute_call, commandEntry.
  destruct n; [done|]. case_test; [done|].
  destruct (commands l !! IdempotencyKey c); repeat case_test; done.
Qed.

Lemma Execute_store_identity l en c res :
  same_identity l (Execute_store l en c res).1 /\ records (Execute_store l en c res).1 = records l.
Proof.
  unfold Execute_store. destruct (_ ≫= _) as [[key e]|]; [|done]. by destruct (entry_result e).
Qed.

Lemma transition_enter_identity l st :
  same_identity l (transition_enter l st).1 /\ records (transition_enter l st).1 = records l /\
  commands (transition_enter l st).1 = commands l.
Proof. unfold transition_enter. by case_test. Qed.

(** A thread either leaves the records, or stores one it has checked. *)
Lemma thread_step_records t now now' l mu p l' mu' p' :
  thread_step t now now' l mu p = Some (l', mu', p') ->
  same_identity l l' /\
  (records l' = records l \/
   exists r, p = Leave (CApply r) ErrNil /\ records l' = <[D_Target r := r]> (records l)).
Proof.
  intros H.
  destruct p as [en c|cl|cl|cl|cl|cl ch|cl err|en c res|en c|c res err|err|why]; simpl in H;
    try discriminate H.
  4: { pose proof (transition_enter_identity l (client_state cl)) as (? & ? & _).
       destruct (transition_enter _ _). injection H as <- <- <-. auto. }
  6: { destruct cl as [|r]; injection H as <- <- <-; [by split; [|left]|].
       destruct err; simpl; split; try done; try (by left). right. by exists r. }
  6: { pose proof (Execute_store_identity l en c res) as [? ?].
       destruct (Execute_store _ _ _ _). injection H as <- <- <-. auto. }
  all: repeat case_match; simplify_eq; split; auto; done.
Qed.

Lemma Execute_store_pc l en c res :
  (exists r, (Execute_store l en c res).2 = Returned c r ErrNil) \/
  (exists why, (Execute_store l en c res).2 = Crashed why).
Proof.
  unfold Execute_store. destruct (_ ≫= _) as [[key e]|]; [destruct (entry_result e)|]; simpl; eauto.
Qed.

Lemma rev_thread_step t now now' l mu p l' mu' p' :
  thread_step t now now' l mu p = Some (l', mu', p') -> rev_thread l p -> rev_thread l' p'.
Proof.
  intros H Hp.
  destruct p as [en c|cl|cl|cl|cl|cl ch|cl err|en c res|en c|c res err|err|why]; simpl in H;
    try discriminate H.
  - injection H as <- <- <-. by case_match.
  - destruct mu; [done|]. injection H as <- <- <-. by destruct cl.
  - destruct cl as [|r]; [done|].
    destruct (ApplyDesiredState_check l r) eqn:E; injection H as <- <- <-; [done|].
    by apply ApplyDesiredState_check_none.
  - pose proof (transition_enter_identity l (client_state cl)) as (Hi & Hr & _).
    destruct (transition_enter _ _) as [l1 e1]. injection H as <- <- <-.
    destruct cl as [|r]; [by case_test|]. simpl in Hp.
    case_test; simpl; by apply (newer_same l).
  - injection H as <- <- <-. destruct cl; by case_test.
  - case_test; [|done]. by injection H as <- <- <-.
  - destruct cl; by injection H as <- <- <-.
  - pose proof (Execute_store_pc l en c res) as Hpc. destruct (Execute_store l en c res) as [l1 p1].
    injection H as <- <- <-. simpl in Hpc. by destruct Hpc as [[? ->]|[? ->]].
  - repeat case_match; simplify_eq; done.
Qed.

(** A thread outside [applyMu] relies on nothing but its own record. *)
Lemma rev_thread_outside l l' p : holding p = false -> rev_thread l p -> rev_thread l' p.
Proof. by destruct p as [|[]|[]|[]|[]|[]|[]| | | | |]. Qed.

Lemma rev_thread_same l l' p :
  same_identity l l' -> records l' = records l -> rev_thread l p -> rev_thread l' p.
Proof.
  intros Hi Hr Hp. destruct p as [|[]|[]|[]|[]|[]|[]| | | | |]; try done; by apply (newer_same l).
Qed.

Lemma rev_same s l mu th :
  rev_ok s -> same_identity (lc s) l -> records l = records (lc s) ->
  (forall t p, th !! t = Some p -> threads s !! t = Some p \/ rev_thread l p) ->
  rev_ok (mkSystem l mu th).
Proof.
  intros [H1 H2] Hi Hr Hth. split; simpl.
  - intros t p Hp. destruct (Hth _ _ Hp) as [?|?]; [|done].
    eapply rev_thread_same; eauto.
  - intros tgt r. rewrite Hr, (matches_same (lc s)) by done. apply H2.
Qed.

Lemma rev_insert (th : gmap nat pc) t p0 l :
  rev_thread l p0 ->
  forall t' p, <[t := p0]> th !! t' = Some p -> th !! t' = Some p \/ rev_thread l p.
Proof.
  intros Hp t' p. destruct (decide (t = t')) as [<-|Hne].
  - rewrite lookup_insert_eq. intros [= <-]. by right.
  - rewrite lookup_insert_ne by done. by left.
Qed.

Lemma rev_store s t r :
  sync s -> rev_ok s -> threads s !! t = Some (Leave (CApply r) ErrNil) ->
  rev_ok (mkSystem (with_records (lc s) (<[D_Target r := r]> (records (lc s)))) None
    (<[t := Applied ErrNil]> (threads s))).
Proof.
  intros (Hth & _) [H1 H2] Ht. pose proof (H1 _ _ Ht) as (Hv & Hm & Hs & Hrev). split; simpl.
  - intros t' p Hp. destruct (decide (t = t')) as [<-|Hne].
    + rewrite lookup_insert_eq in Hp. by injection Hp as <-.
    + rewrite lookup_insert_ne in Hp by done.
      apply (rev_thread_outside (lc s)); [|by eapply H1].
      destruct (Hth _ _ Hp) as [Hh _]. destruct (Hth _ _ Ht) as [Hh' _].
      apply not_true_is_false. intros Hx. apply Hh in Hx.
      pose proof (proj1 Hh' eq_refl). congruence.
  - intros tgt r'. destruct (decide (D_Target r = tgt)) as [<-|Hne].
    + rewrite lookup_insert_eq. intros [= <-]. by split_and!.
    + rewrite lookup_insert_ne by done. apply H2.
Qed.

(** One step keeps the invariant and supersedes what is stored. *)
Lemma rev_step s ev s' :
  sync s -> rev_ok s -> step s ev = Some s' ->
  rev_ok s' /\
  forall tgt r, records (lc s) !! tgt = Some r ->
    exists r', records (lc s') !! tgt = Some r' /\ supersedes r r'.
Proof.
  intros Hsync Hs H.
  assert (Hkeep : forall l mu th, same_identity (lc s) l -> records l = records (lc s) ->
    (forall t p, th !! t = Some p -> threads s !! t = Some p \/ rev_thread l p) ->
    Some (mkSystem l mu th) = Some s' ->
    rev_ok s' /\ forall tgt r, records (lc s) !! tgt = Some r ->
      exists r', records (lc s') !! tgt = Some r' /\ supersedes r r').
  { intros l mu th Hi Hr Hth [= <-]. split; [by apply (rev_same s)|]. simpl. rewrite Hr.
    intros tgt r ?. exists r. by split; [|left]. }
  pose proof (commands_op_identity (lc s)) as (I1 & I2 & I3 & I4).
  destruct ev as [| | | |t now n c|t n r|t now now'|t now e]; simpl in H.
  1-4: refine (Hkeep _ _ _ _ _ _ H); [done| |by left].
  1: unfold BeginAdmission; by case_test.
  1: unfold EndAdmission; by case_test.
  1: unfold PromoteAdmissionToJob; by case_test.
  1: unfold EndJob; by case_test.
  - destruct (threads s !! t); [done|]. pose proof (Execute_call_identity (lc s) now n c) as [? ?].
    destruct (Execute_call _ _ _ _) as [l p] eqn:E. refine (Hkeep _ _ _ _ _ _ H); [done|done|].
    apply rev_insert. unfold Execute_call, commandEntry in E.
    repeat case_match; simplify_eq; done.
  - destruct (threads s !! t); [done|]. refine (Hkeep _ _ _ _ _ _ H); [done|done|]. apply rev_insert.
    unfold ApplyDesiredState_call. destruct n; [done|].
    destruct (DesiredRecord_Validate r) eqn:E; done.
  - destruct (threads s !! t) as [p|] eqn:Ht; [|done]. simpl in H.
    destruct (thread_step _ _ _ _ _ _) as [[[l mu] p']|] eqn:E; [|done]. simpl in H.
    pose proof (thread_step_records _ _ _ _ _ _ _ _ _ E) as [Hi [Hr|(r & -> & _)]].
    + refine (Hkeep _ _ _ _ _ _ H); [done|done|]. apply rev_insert. eapply rev_thread_step; [exact E|].
      by eapply (proj1 Hs).
    + simpl in E. injection E as <- <- <-. injection H as <-. split; [by apply rev_store|].
      intros tgt r' Hr'. simpl. destruct (decide (D_Target r = tgt)) as [<-|Hne].
      * exists r. rewrite lookup_insert_eq. split; [done|]. right.
        by apply (proj1 Hs _ _ Ht).
      * exists r'. rewrite lookup_insert_ne by done. by split; [|left].
  - destruct (threads s !! t) as [p|] eqn:Ht; [|done]. pose proof (proj1 Hs _ _ Ht) as Hp. simpl in H.
    destruct p as [| | | | |cl ch| | |en c| | |]; try discriminate H; simpl in H.
    + destruct e; simpl in H.
      * refine (Hkeep _ _ _ _ _ _ H); [done|done|]. apply rev_insert. by destruct cl.
      * refine (Hkeep _ _ _ _ _ _ H); [done|done|]. apply rev_insert.
        destruct cl as [|r]; [done|]. by apply (newer_same (lc s)).
    + refine (Hkeep _ _ _ _ _ _ H); [done|done|]. by apply rev_insert.
Qed.

Lemma initial_rev m g q n s : initial m g q n = Some s -> rev_ok s.
Proof.
  unfold initial, NewWorkerLifecycle. case_test; [done|]. intros [= <-]. by split.
Qed.

Lemma supersedes_trans a b c : supersedes a b -> supersedes b c -> supersedes a c.
Proof. unfold supersedes. intros [->|?] [->|?]; auto. right. lia. Qed.

(** The applied revision of a target never goes back and is never rewritten.
    From any reachable state, after any interleaving of applications, commands
    and accounting calls, the record stored for a target is the same or one of a
    strictly later revision; and everything stored is a valid record of a target
    of this worker in a state that target supports. *)
Theorem lifecycle_revisions_monotone (s s' : system) (evs : list event) :
  reachable s -> run s evs = Some s' ->
  forall tgt,
    (forall r, records (lc s) !! tgt = Some r ->
       exists r', records (lc s') !! tgt = Some r' /\ supersedes r r') /\
    (forall r, records (lc s') !! tgt = Some r ->
       tgt = D_Target r /\ DesiredRecord_Validate r = ErrNil /\
       matches (lc s') tgt = true /\ validTargetState tgt (D_State r) = true).
Proof.
  intros (m & g & q & n & s0 & evs0 & H0 & Hr0) Hrun tgt.
  assert (Hinv : sync s /\ rev_ok s).
  { revert Hr0. apply (run_induct (fun x => sync x /\ rev_ok x)); [|eauto using initial_sync, initial_rev].
    intros a ev b [Ha Hb] Hst. split; [by eapply sync_step|by eapply rev_step]. }
  enough (Hgoal : (sync s' /\ rev_ok s') /\
    forall r, records (lc s) !! tgt = Some r ->
       exists r', records (lc s') !! tgt = Some r' /\ supersedes r r').
  { destruct Hgoal as [[_ [_ Hrec]] Hsup]. split; [done|]. apply Hrec. }
  revert Hrun. apply (run_induct (fun x => (sync x /\ rev_ok x) /\
    forall r, records (lc s) !! tgt = Some r ->
       exists r', records (lc x) !! tgt = Some r' /\ supersedes r r')).
  - intros a ev b [[Ha Hb] Hc] Hst. destruct (rev_step _ _ _ Ha Hb Hst) as [Hd He].
    split; [split; [by eapply sync_step|done]|]. intros r Hr. destruct (Hc r Hr) as (r1 & Hr1 & Hs1).
    destruct (He _ _ Hr1) as (r2 & Hr2 & Hs2). exists r2. eauto using supersedes_trans.
  - split; [done|]. intros r Hr. exists r. by split; [|left].
Qed.

(** * Commands *)

(** The command a thread has the duty to answer. *)
Definition exec_of (p : pc) : option (option string * Command) :=
  match p with
  | Fresh en c | Store en c _ => Some (en, c)
  | Lock (CExec en c _) | Locked (CExec en c _) | Enter (CExec en c _) | Poll (CExec en c _)
  | Await (CExec en c _) _ | Leave (CExec en c _) _ => Some (en, c)
  | _ => None
  end.

(** The outcomes of executing a command. *)
Definition outcomes : list (string * string) :=
  [(CommandUnsupported, "protocol_mismatch"); (CommandUnsupported, "unsupported_action");
   (CommandRejected, "target_mismatch"); (CommandTimedOut, "deadline_exceeded");
   (CommandRejected, "invalid_transition"); (CommandAcknowledged, "")].

(** A result of [c] made by this worker. *)
Definition result_of (l : WorkerLifecycle) (c : Command) (codes : list (string * string))
    (r : CommandResult) : Prop :=
  exists now status code, (status, code) ∈ codes /\ r = result l now c status code.

(** The four ways [Execute] answers a valid command, with what the lifecycle
    remembers in each. *)
Inductive answer (l : WorkerLifecycle) (c : Command) (r : CommandResult) : Prop :=
| answer_recorded :
    commands l !! IdempotencyKey c = Some (mkEntry c (Some r)) -> result_of l c outcomes r ->
    answer l c r
| answer_unknown o :
    commands l !! IdempotencyKey c = Some (mkEntry c o) ->
    result_of l c [(CommandUnknown, "")] r -> answer l c r
| answer_conflict e :
    commands l !! IdempotencyKey c = Some e -> entry_command e <> c ->
    result_of l c [(CommandRejected, "idempotency_conflict")] r -> answer l c r
| answer_capacity :
    commands l !! IdempotencyKey c = None -> (capacity l <= Z.of_nat (size (commands l)))%Z ->
    result_of l c [(CommandRejected, "idempotency_capacity")] r -> answer l c r.

Definition cmd_thread (l : WorkerLifecycle) (p : pc) : Prop :=
  (forall en c, exec_of p = Some (en, c) ->
     en = Some (IdempotencyKey c) /\ commands l !! IdempotencyKey c = Some (mkEntry c None)) /\
  match p with
  | Store _ c r => result_of l c outcomes r
  | Dup en c =>
      en = Some (IdempotencyKey c) /\
      exists o, commands l !! IdempotencyKey c = Some (mkEntry c o)
  | Returned c r ErrNil => Command_Validate c = ErrNil /\ answer l c r
  | Crashed _ => False
  | _ => True
  end.

Definition entry_ok (s : system) (key : string) (e : lifecycleCommandEntry) : Prop :=
  key = IdempotencyKey (entry_command e) /\ Command_Validate (entry_command e) = ErrNil /\
  match entry_result e with
  | Some r => result_of (lc s) (entry_command e) outcomes r
  | None => exists t p en, threads s !! t = Some p /\ exec_of p = Some (en, entry_command e)
  end.

Definition cmd_ok (s : system) : Prop :=
  (forall t p, threads s !! t = Some p -> cmd_thread (lc s) p) /\
  (forall t t' p p' en en' c c', threads s !! t = Some p -> threads s !! t' = Some p' ->
     exec_of p = Some (en, c) -> exec_of p' = Some (en', c') ->
     IdempotencyKey c = IdempotencyKey c' -> t = t') /\
  (forall key e, commands (lc s) !! key = Some e -> entry_ok s key e) /\
  (Z.of_nat (size (commands (lc s))) <= capacity (lc s))%Z.

Lemma result_of_same l l' c codes r :
  metadata l' = metadata l -> result_of l c codes r -> result_of l' c codes r.
Proof.
  intros Hm (now & st & code & Hin & ->). exists now, st, code. split; [done|].
  unfold result. by rewrite Hm.
Qed.

(** How the remembered commands change for a thread that does not move: entries
    keep their command and their result, and the ones it executes are its own. *)
Definition cmd_rely (p : pc) (l l' : WorkerLifecycle) : Prop :=
  metadata l' = metadata l /\ capacity l' = capacity l /\
  (size (commands l) <= size (commands l'))%nat /\
  (forall key e, commands l !! key = Some e -> exists o,
     commands l' !! key = Some (mkEntry (entry_command e) o) /\
     (is_Some (entry_result e) -> o = entry_result e)) /\
  ((capacity l <= Z.of_nat (size (commands l)))%Z ->
     forall key, commands l !! key = None -> commands l' !! key = None) /\
  (forall en c, exec_of p = Some (en, c) ->
     commands l' !! IdempotencyKey c = commands l !! IdempotencyKey c).

Lemma answer_stable p l l' c r : cmd_rely p l l' -> answer l c r -> answer l' c r.
Proof.
  intros (Hm & Hc & Hsz & Hent & Hfull & _) [H Hr|o H Hr|e H Hne Hr|H Hcap Hr];
    eapply result_of_same in Hr; eauto.
  - destruct (Hent _ _ H) as (o & Ho & Hsame). simpl in *. rewrite Hsame in Ho by done.
    by apply answer_recorded.
  - destruct (Hent _ _ H) as (o' & Ho & _). by eapply answer_unknown.
  - destruct (Hent _ _ H) as (o' & Ho & _). by eapply answer_conflict.
  - apply answer_capacity; [by apply Hfull|rewrite Hc; lia|done].
Qed.

Lemma cmd_thread_stable p l l' : cmd_rely p l l' -> cmd_thread l p -> cmd_thread l' p.
Proof.
  intros Hrely [He Hp]. pose proof Hrely as (Hm & Hc & Hsz & Hent & Hfull & Hown). split.
  - intros en c Hx. rewrite (Hown _ _ Hx). by apply He.
  - destruct p as [en c|cl|cl|cl|cl|cl ch|cl err|en c res|en c|c res []|err|why]; try done.
    + by eapply result_of_same.
    + destruct Hp as [-> [o Ho]]. split; [done|]. destruct (Hent _ _ Ho) as (o' & Ho' & _). eauto.
    + destruct Hp as [? Hp]. split; [done|]. by eapply answer_stable.
Qed.

Lemma cmd_rely_same p l l' :
  metadata l' = metadata l -> capacity l' = capacity l -> commands l' = commands l ->
  cmd_rely p l l'.
Proof.
  intros Hm Hc Hk. unfold cmd_rely. rewrite Hk. split_and!; try done.
  intros key e He. exists (entry_result e). by destruct e.
Qed.

(** A thread that keeps its duty and leaves the commands alone. *)
Lemma cmd_keep s t l mu p :
  cmd_ok s -> metadata l = metadata (lc s) -> capacity l = capacity (lc s) ->
  commands l = commands (lc s) -> exec_of p = (threads s !! t ≫= exec_of) -> cmd_thread l p ->
  cmd_ok (mkSystem l mu (<[t := p]> (threads s))).
Proof.
  intros (Hth & Hu & Hent & Hcap) Hm Hc Hk Hx Hp.
  assert (Hold : forall t' p' en c, <[t := p]> (threads s) !! t' = Some p' ->
    exec_of p' = Some (en, c) ->
    exists p0, threads s !! t' = Some p0 /\ exec_of p0 = Some (en, c)).
  { intros t' p' en c. destruct (decide (t = t')) as [<-|Hne].
    - rewrite lookup_insert_eq. intros [= <-]. rewrite Hx.
      destruct (threads s !! t) as [p0|]; [|done]. eauto.
    - rewrite lookup_insert_ne by done. eauto. }
  split_and!; simpl.
  - intros t' p' Hl. destruct (decide (t = t')) as [<-|Hne].
    + rewrite lookup_insert_eq in Hl. by injection Hl as <-.
    + rewrite lookup_insert_ne in Hl by done.
      eapply cmd_thread_stable; [by apply cmd_rely_same|by eapply Hth].
  - intros t1 t2 p1 p2 en1 en2 c1 c2 H1 H2 E1 E2 Hkey.
    destruct (Hold _ _ _ _ H1 E1) as (q1 & ? & ?). destruct (Hold _ _ _ _ H2 E2) as (q2 & ? & ?).
    by eapply (Hu t1 t2 q1 q2).
  - rewrite Hk. intros key e He. destruct (Hent _ _ He) as (? & ? & Hr). split_and!; try done.
    destruct (entry_result e); [by eapply result_of_same|].
    destruct Hr as (t' & p' & en & Ht' & He'). simpl. destruct (decide (t = t')) as [<-|Hne].
    + exists t, p, en. rewrite lookup_insert_eq, Hx, Ht'. done.
    + exists t', p', en. by rewrite lookup_insert_ne.
  - by rewrite Hk, Hc.
Qed.

Lemma cmd_env s l :
  cmd_ok s -> metadata l = metadata (lc s) -> capacity l = capacity (lc s) ->
  commands l = commands (lc s) -> cmd_ok (with_lc s l).
Proof.
  intros (Hth & Hu & Hent & Hcap) Hm Hc Hk. split_and!; simpl; try done.
  - intros t p Hp. eapply cmd_thread_stable; [by apply cmd_rely_same|by eapply Hth].
  - rewrite Hk. intros key e He. destruct (Hent _ _ He) as (? & ? & Hr). split_and!; try done.
    destruct (entry_result e); [by eapply result_of_same|done].
  - by rewrite Hk, Hc.
Qed.

(** A new call records its command. *)
Lemma cmd_record s t c :
  cmd_ok s -> threads s !! t = None -> Command_Validate c = ErrNil ->
  commands (lc s) !! IdempotencyKey c = None ->
  (Z.of_nat (size (commands (lc s))) < capacity (lc s))%Z ->
  cmd_ok (mkSystem (with_commands (lc s)
      (<[IdempotencyKey c := mkEntry c None]> (commands (lc s)))) (applyMu s)
    (<[t := Fresh (Some (IdempotencyKey c)) c]> (threads s))).
Proof.
  intros (Hth & Hu & Hent & Hcap) Ht Hv Hnone Hroom.
  assert (Hne : forall t' p en c', threads s !! t' = Some p -> exec_of p = Some (en, c') ->
    IdempotencyKey c <> IdempotencyKey c').
  { intros t' p en c' Hl Hx Heq. destruct (proj1 (Hth _ _ Hl) _ _ Hx) as [_ Hs]. congruence. }
  split_and!; simpl.
  - intros t' p'. destruct (decide (t = t')) as [<-|Hnt].
    + rewrite lookup_insert_eq. intros [= <-]. split; [|done]. simpl. intros en c' [= <- <-].
      by rewrite lookup_insert_eq.
    + rewrite lookup_insert_ne by done. intros Hl. eapply cmd_thread_stable; [|by eapply Hth].
      split_and!; simpl; try done; try lia.
      * rewrite map_size_insert_None by done. lia.
      * intros key e He. exists (entry_result e).
        rewrite lookup_insert_ne by congruence. by destruct e.
      * intros en c' Hx. rewrite lookup_insert_ne; [done|]. by eapply Hne.
  - intros t1 t2 p1 p2 en1 en2 c1 c2.
    destruct (decide (t = t1)) as [<-|H1]; [rewrite lookup_insert_eq|rewrite lookup_insert_ne by done];
    (destruct (decide (t = t2)) as [<-|H2]; [rewrite lookup_insert_eq|rewrite lookup_insert_ne by done]);
      try done.
    + intros [= <-] Hl2 [= <- <-] E2 Hkey. by destruct (Hne _ _ _ _ Hl2 E2).
    + intros Hl1 [= <-] E1 [= <- <-] Hkey. by destruct (Hne _ _ _ _ Hl1 E1).
    + eauto.
  - intros key e. destruct (decide (IdempotencyKey c = key)) as [<-|Hk].
    + rewrite lookup_insert_eq. intros [= <-]. split_and!; try done. simpl.
      exists t. eexists _, _. by rewrite lookup_insert_eq.
    + rewrite lookup_insert_ne by done. intros He. destruct (Hent _ _ He) as (? & ? & Hr).
      split_and!; try done. destruct (entry_result e); [done|].
      destruct Hr as (t' & p' & en & Ht' & He'). simpl. exists t', p', en.
      rewrite lookup_insert_ne; [done|]. congruence.
  - rewrite map_size_insert_None by done. lia.
Qed.

(** The executing call publishes its result. *)
Lemma cmd_publish s t c r :
  cmd_ok s -> threads s !! t = Some (Store (Some (IdempotencyKey c)) c r) ->
  cmd_ok (mkSystem (with_commands (lc s)
      (<[IdempotencyKey c := mkEntry c (Some r)]> (commands (lc s)))) (applyMu s)
    (<[t := Returned c r ErrNil]> (threads s))).
Proof.
  intros (Hth & Hu & Hent & Hcap) Ht.
  destruct (Hth _ _ Ht) as [Hown Hres]. destruct (Hown _ _ eq_refl) as [_ Hkey]. simpl in Hres.
  destruct (Hent _ _ Hkey) as (_ & Hv & _). simpl in Hv.
  assert (Hne : forall t' p en c', t <> t' -> threads s !! t' = Some p ->
    exec_of p = Some (en, c') -> IdempotencyKey c <> IdempotencyKey c').
  { intros t' p en c' Hnt Hl Hx Heq. apply Hnt. by eapply (Hu t t'). }
  split_and!; simpl.
  - intros t' p'. destruct (decide (t = t')) as [<-|Hnt].
    + rewrite lookup_insert_eq. intros [= <-]. split; [done|]. split; [done|].
      apply answer_recorded; simpl; [by rewrite lookup_insert_eq|by eapply result_of_same].
    + rewrite lookup_insert_ne by done. intros Hl. eapply cmd_thread_stable; [|by eapply Hth].
      split_and!; simpl; try done.
      * rewrite map_size_insert_Some by done. lia.
      * intros key e He. destruct (decide (IdempotencyKey c = key)) as [<-|Hk].
        -- rewrite lookup_insert_eq. rewrite Hkey in He. injection He as <-. simpl.
           exists (Some r). split; [done|]. by intros [? ?].
        -- exists (entry_result e). rewrite lookup_insert_ne by done. by destruct e.
      * intros _ key Hnone. rewrite lookup_insert_ne; [done|]. congruence.
      * intros en c' Hx. rewrite lookup_insert_ne; [done|]. by eapply Hne.
  - intros t1 t2 p1 p2 en1 en2 c1 c2.
    destruct (decide (t = t1)) as [<-|H1]; [rewrite lookup_insert_eq|rewrite lookup_insert_ne by done];
    (destruct (decide (t = t2)) as [<-|H2]; [rewrite lookup_insert_eq|rewrite lookup_insert_ne by done]);
      try done; try (by intros [= <-]); try (by intros ? [= <-]). eauto.
  - intros key e. destruct (decide (IdempotencyKey c = key)) as [<-|Hk].
    + rewrite lookup_insert_eq. intros [= <-]. by split_and!.
    + rewrite lookup_insert_ne by done. intros He. destruct (Hent _ _ He) as (Hke & ? & Hr).
      split_and!; try done. destruct (entry_result e); [by eapply result_of_same|].
      destruct Hr as (t' & p' & en & Ht' & He'). simpl. exists t', p', en.
      rewrite lookup_insert_ne; [done|]. intros <-. rewrite Ht in Ht'. injection Ht' as <-.
      injection He' as _ Hc'. congruence.
  - rewrite map_size_insert_Some by done. lia.
Qed.

(** The outcomes of the two halves of [executeNew]. *)
Lemma executeNew_check_outcome l now now' c r :
  executeNew_check l now now' c = inl r -> result_of l c outcomes r.
Proof.
  unfold executeNew_check, result_of, outcomes. intros H.
  repeat case_match; simplify_eq; eexists _, _, _; (split; [|reflexivity]); set_solver.
Qed.

Lemma executeNew_result_outcome l now c err :
  result_of l c outcomes (executeNew_result l now c err).
Proof.
  unfold executeNew_result, result_of, outcomes.
  repeat case_match; eexists _, _, _; (split; [|reflexivity]); set_solver.
Qed.

(** A valid command's result is never the zero struct, so a rejection is never
    mistaken for a fresh entry. *)
Lemma result_not_zero l now c status code :
  Command_Validate c = ErrNil -> result l now c status code <> zeroResult.
Proof.
  intros Hv%Command_Validate_ok Heq. injection Heq as Hid _ _ _ _ _ _.
  destruct Hv as [Hc]. by apply identity_nonempty in Hc.
Qed.

Lemma cmd_execute s t now n c :
  cmd_ok s -> threads s !! t = None ->
  let r := Execute_call (lc s) now n c in
  cmd_ok (mkSystem r.1 (applyMu s) (<[t := r.2]> (threads s))).
Proof.
  intros Hs Ht. unfold Execute_call. destruct n; simpl.
  { apply cmd_keep; auto; [by rewrite Ht|by split]. }
  destruct (Command_Validate c) eqn:Hv; simpl;
    try (apply cmd_keep; auto; [by rewrite Ht|by split]).
  unfold commandEntry. pose proof (result_not_zero (lc s) now c) as Hnz.
  destruct (commands (lc s) !! IdempotencyKey c) as [e|] eqn:He.
  - case_bool_decide as Hc; simpl.
    + apply cmd_keep; auto; [by rewrite Ht|].
      split; [done|]. split; [done|]. destruct e as [ec eo]. simpl in Hc. subst ec. eauto.
    + rewrite bool_decide_false by auto. simpl. apply cmd_keep; auto; [by rewrite Ht|].
      split; [done|]. split; [done|]. eapply answer_conflict; eauto.
      eexists _, _, _. split; [|reflexivity]. set_solver.
  - case_test; simpl.
    + rewrite bool_decide_false by auto. simpl. apply cmd_keep; auto; [by rewrite Ht|].
      split; [done|]. split; [done|]. apply answer_capacity; [done|lia|].
      eexists _, _, _. split; [|reflexivity]. set_solver.
    + apply cmd_record; auto. lia.
Qed.

Lemma cmd_thread_step s t now now' p l mu p' :
  cmd_ok s -> threads s !! t = Some p ->
  thread_step t now now' (lc s) (applyMu s) p = Some (l, mu, p') ->
  cmd_ok (mkSystem l mu (<[t := p']> (threads s))).
Proof.
  intros Hs Ht H. pose proof Hs as (Hth & _). pose proof (Hth _ _ Ht) as [Hx Hp].
  destruct p as [en c|cl|cl|cl|cl|cl ch|cl err|en c res|en c|c res err|err|why]; simpl in H;
    try discriminate H.
  - injection H as <- <- <-.
    destruct (executeNew_check (lc s) now now' c) eqn:E; apply cmd_keep; auto;
      try (by rewrite Ht); split; try done. by apply executeNew_check_outcome in E.
  - destruct (applyMu s); [done|]. injection H as <- <- <-.
    apply cmd_keep; auto; [rewrite Ht; by destruct cl|]. by destruct cl.
  - destruct cl as [|r]; [done|]. destruct (ApplyDesiredState_check _ _); injection H as <- <- <-;
      (apply cmd_keep; auto; [by rewrite Ht|by split]).
  - pose proof (transition_enter_identity (lc s) (client_state cl)) as ((? & _ & _ & ?) & _ & Hc).
    destruct (transition_enter _ _) as [l1 e1]. injection H as <- <- <-. simpl in *.
    apply cmd_keep; auto; [rewrite Ht; by destruct cl; case_test|].
    destruct cl; case_test; (split; [simpl; by rewrite Hc|done]).
  - injection H as <- <- <-. apply cmd_keep; auto; [rewrite Ht; by destruct cl; case_test|].
    by destruct cl; case_test.
  - case_test; [|done]. injection H as <- <- <-. apply cmd_keep; auto; [rewrite Ht; by destruct cl|].
    by destruct cl.
  - destruct cl as [en c st|r]; injection H as <- <- <-.
    + apply cmd_keep; auto; [by rewrite Ht|]. split; [done|]. apply executeNew_result_outcome.
    + apply cmd_keep; auto; try (by case_test); rewrite ?Ht; by split.
  - destruct (Hx _ _ eq_refl) as [-> Hkey]. unfold Execute_store in H. simpl in H.
    rewrite Hkey in H. simpl in H. injection H as <- <- <-. by apply cmd_publish.
  - destruct Hp as [-> [o Ho]]. simpl in H. rewrite Ho in H. simpl in H. destruct o as [r|]; [|done].
    injection H as <- <- <-. apply cmd_keep; auto; [by rewrite Ht|]. split; [done|].
    destruct Hs as (_ & _ & Hent & _). destruct (Hent _ _ Ho) as (_ & Hv & Hr).
    split; [done|]. by apply answer_recorded.
Qed.

Lemma cmd_step s ev s' : cmd_ok s -> step s ev = Some s' -> cmd_ok s'.
Proof.
  intros Hs H. pose proof (commands_op_identity (lc s)) as ((?&_&_&?) & (?&_&_&?) & (?&_&_&?) & (?&_&_&?)).
  destruct ev as [| | | |t now n c|t n r|t now now'|t now e]; simpl in H.
  1: { injection H as <-. apply cmd_env; auto. unfold BeginAdmission. by case_test. }
  1: { injection H as <-. apply cmd_env; auto. unfold EndAdmission. by case_test. }
  1: { injection H as <-. apply cmd_env; auto. unfold PromoteAdmissionToJob. by case_test. }
  1: { injection H as <-. apply cmd_env; auto. unfold EndJob. by case_test. }
  - destruct (threads s !! t) eqn:Ht; [done|]. pose proof (cmd_execute s t now n c Hs Ht) as Hc.
    cbn zeta in Hc. destruct (Execute_call _ _ _ _) as [l p]. injection H as <-. exact Hc.
  - destruct (threads s !! t) eqn:Ht; [done|]. injection H as <-.
    apply cmd_keep; auto; [rewrite Ht; by case_test|]. case_test; by split.
  - destruct (threads s !! t) as [p|] eqn:Ht; [|done]. simpl in H.
    destruct (thread_step _ _ _ _ _ _) as [[[l mu] p']|] eqn:E; [|done]. injection H as <-.
    by eapply cmd_thread_step.
  - destruct (threads s !! t) as [p|] eqn:Ht; [|done]. simpl in H.
    pose proof Hs as (Hth & _ & Hent & _). pose proof (Hth _ _ Ht) as [Hx Hp].
    destruct p as [| | | | |cl ch| | |en c| | |]; try discriminate H; simpl in H; injection H as <-.
    + apply cmd_keep; auto; try (by destruct e); try (rewrite Ht; by destruct cl).
      all: destruct cl, e; by split.
    + apply cmd_keep; auto; [by rewrite Ht|]. split; [done|]. destruct Hp as [_ [o Ho]].
      destruct (Hent _ _ Ho) as (_ & Hv & _). split; [done|]. eapply answer_unknown; eauto.
      eexists _, _, _. split; [|reflexivity]. set_solver.
Qed.

Lemma reachable_cmd s : reachable s -> cmd_ok s.
Proof.
  intros (m & g & q & n & s0 & evs & H0 & Hr).
  eapply (run_induct cmd_ok); [apply cmd_step| |exact Hr].
  unfold initial, NewWorkerLifecycle in H0. case_test; [done|]. injection H0 as <-.
  split_and!; simpl; try done. rewrite map_size_empty. lia.
Qed.

Lemma step_identity s ev s' : step s ev = Some s' -> same_identity (lc s) (lc s').
Proof.
  intros H. pose proof (commands_op_identity (lc s)) as (?&?&?&?).
  destruct ev as [| | | |t now n c|t n r|t now now'|t now e]; simpl in H.
  1-4: by injection H as <-.
  - destruct (threads s !! t); [done|]. pose proof (Execute_call_identity (lc s) now n c) as [? _].
    destruct (Execute_call _ _ _ _). by injection H as <-.
  - destruct (threads s !! t); [done|]. by injection H as <-.
  - destruct (threads s !! t) as [p|]; [|done]. simpl in H.
    destruct (thread_step _ _ _ _ _ _) as [[[l mu] p']|] eqn:E; [|done]. injection H as <-.
    by apply thread_step_records in E as [? _].
  - destruct (threads s !! t) as [p|]; [|done]. simpl in H.
    destruct p; try discriminate H; simpl in H; injection H as <-; by destruct e.
Qed.

Lemma reachable_metadata s : reachable s -> metadata_valid (metadata (lc s)).
Proof.
  intros (m & g & q & n & s0 & evs & H0 & Hr).
  eapply (run_induct (fun x => metadata_valid (metadata (lc x)))); [| |exact Hr].
  - intros a ev b Ha (Hm & _)%step_identity. by rewrite Hm.
  - unfold initial, NewWorkerLifecycle in H0. case_test; [done|]. injection H0 as <-. simpl.
    apply StatusMetadata_Validate_ok.
    repeat apply orb_false_iff in E as [E _]. apply negb_false_iff in E.
    by destruct (StatusMetadata_Validate m).
Qed.

(** C26: A command takes effect at most once and the bookkeeping is bounded. In
    every reachable state no call of [Execute] has panicked; an idempotency key is
    being executed by at most one call, and by none once its result is recorded;
    an entry without a result always has a call on its way to record one, so a
    duplicate never waits for nobody; and the retained commands never exceed the
    configured capacity. *)
Theorem lifecycle_command_once (s : system) :
  reachable s ->
  (forall t why, threads s !! t <> Some (Crashed why)) /\
  (forall t t' p p' en en' c c', threads s !! t = Some p -> threads s !! t' = Some p' ->
     exec_of p = Some (en, c) -> exec_of p' = Some (en', c') ->
     IdempotencyKey c = IdempotencyKey c' -> t = t' /\ c = c') /\
  (forall key c r, commands (lc s) !! key = Some (mkEntry c (Some r)) ->
     forall t p en c', threads s !! t = Some p -> exec_of p = Some (en, c') ->
       IdempotencyKey c' <> key) /\
  (forall key c, commands (lc s) !! key = Some (mkEntry c None) ->
     exists t p en, threads s !! t = Some p /\ exec_of p = Some (en, c)) /\
  (Z.of_nat (size (commands (lc s))) <= capacity (lc s))%Z.
Proof.
  intros Hr. pose proof (reachable_cmd _ Hr) as (Hth & Hu & Hent & Hcap).
  split_and!; [| | | |done].
  - intros t why Ht. by destruct (Hth _ _ Ht).
  - intros t t' p p' en en' c c' H1 H2 E1 E2 Hk. split; [by eapply (Hu t t')|].
    destruct (proj1 (Hth _ _ H1) _ _ E1) as [_ K1].
    destruct (proj1 (Hth _ _ H2) _ _ E2) as [_ K2]. rewrite Hk in K1. congruence.
  - intros key c r Hk t p en c' Ht He <-.
    destruct (proj1 (Hth _ _ Ht) _ _ He) as [_ K]. congruence.
  - intros key c Hk. by destruct (Hent _ _ Hk) as (_ & _ & H).
Qed.

(** Duplicates of a command agree. When two calls of [Execute] for one command
    have returned results and neither was cancelled into an unknown outcome, they
    returned the same result, completion time included, or both were refused
    for the same reason before executing (the key holds a different command, or
    the bounded history is full). *)
Theorem lifecycle_duplicates_agree (s : system) (t t' : nat) (c : Command)
    (r r' : CommandResult) :
  reachable s ->
  threads s !! t = Some (Returned c r ErrNil) ->
  threads s !! t' = Some (Returned c r' ErrNil) ->
  Status r <> CommandUnknown -> Status r' <> CommandUnknown ->
  r = r' \/
  (Status r = CommandRejected /\ Status r' = CommandRejected /\ FailureCode r = FailureCode r' /\
   FailureCode r ∈ ["idempotency_conflict"; "idempotency_capacity"]).
Proof.
  intros Hr Ht Ht' Hk Hk'. pose proof (reachable_cmd _ Hr) as (Hth & _).
  assert (Hone : forall codes x, result_of (lc s) c codes x ->
            (Status x, FailureCode x) ∈ codes).
  { intros codes x (now & st & code & Hin & ->). done. }
  destruct (Hth _ _ Ht) as [_ [_ A]]. destruct (Hth _ _ Ht') as [_ [_ A']].
  destruct A as [E R|o E R|e E Hne R|E Hcap R], A' as [E' R'|o' E' R'|e' E' Hne' R'|E' Hcap' R'];
    apply Hone in R, R'; try congruence;
    try (apply list_elem_of_singleton in R; injection R as R1 R2);
    try (apply list_elem_of_singleton in R'; injection R' as R1' R2'); try congruence.
  all: try (rewrite E in E'; simplify_eq; simpl in *; done).
  - left. rewrite E in E'. by injection E' as <-.
  - right. split_and!; try congruence. rewrite R2. set_solver.
  - right. split_and!; try congruence. rewrite R2. set_solver.
Qed.

(** Every result [Execute] returns is well-formed and answers its command. It
    carries the identifiers of the command and of the worker, and passes the
    contract's own validation whenever the configured clock gave a set time. *)
Theorem lifecycle_results_validate (s : system) (t : nat) (c : Command) (r : CommandResult) :
  reachable s -> threads s !! t = Some (Returned c r ErrNil) ->
  CommandID r = ID c /\ Result_IdempotencyKey r = IdempotencyKey c /\
  WorkerID r = M_ID (metadata (lc s)) /\
  (IsZero (CompletedAt r) = false -> CommandResult_Validate r = ErrNil).
Proof.
  intros Hr Ht. pose proof (reachable_metadata _ Hr) as [Hid _ _ Hproto].
  pose proof (reachable_cmd _ Hr) as (Hth & _). destruct (Hth _ _ Ht) as [_ [Hv A]].
  apply Command_Validate_ok in Hv as [Hc1 Hc2].
  assert (exists codes, result_of (lc s) c codes r /\
    forall st code, (st, code) ∈ codes -> CommandResultStatus_valid st = true /\
      (requiresFailureCode st = true -> identity code)) as (codes & (now & st & code & Hin & ->) & Hok).
  { destruct A as [_ R|o _ R|e _ _ R|_ _ R]; eexists; (split; [exact R|]);
      intros st code Hin; unfold outcomes in Hin;
      repeat (apply elem_of_cons in Hin as [[= -> ->]|Hin]; [split; [done|by intros]|]);
      by apply elem_of_nil in Hin. }
  destruct (Hok _ _ Hin) as [Hst Hcode].
  split_and!; try done. intros Hz. by apply CommandResult_Validate_ok.
Qed.

(** * The worker status overlay *)

(** A slice built by the deduplication loop so far: strictly increasing. *)
Lemma deduplicate_elem acc l x :
  x ∈ deduplicate_from acc l <-> x ∈ acc \/ x ∈ l.
Proof.
  revert acc. induction l as [|v l IH]; intros acc; simpl; [set_solver|].
  destruct (last acc) as [w|] eqn:Hl; simpl; [|rewrite IH; set_solver].
  destruct (String.eqb_spec w v) as [->|Hne]; simpl; rewrite IH; [|set_solver].
  apply last_Some in Hl as [acc' ->]. set_solver.
Qed.

Lemma deduplicate_nodup acc l :
  StronglySorted String.le (acc ++ l) -> NoDup acc -> NoDup (deduplicate_from acc l).
Proof.
  revert acc. induction l as [|v l IH]; intros acc Hs Hn; simpl; [done|].
  assert (Hskip : StronglySorted String.le (acc ++ l)).
  { clear -Hs. induction acc as [|a acc IHa]; simpl in *; [by inversion Hs|].
    inversion Hs as [|? ? Hs' Hf]; subst. constructor; [auto|].
    rewrite Forall_app, Forall_cons in *. tauto. }
  destruct (last acc) as [w|] eqn:Hl.
  - destruct (String.eqb_spec w v) as [->|Hne]; simpl; [by apply IH|].
    apply IH; [by rewrite <- app_assoc|]. apply NoDup_app. split_and!; [done| |apply NoDup_singleton].
    intros x Hx ->%list_elem_of_singleton. apply last_Some in Hl as [acc' ->].
    apply Hne, (anti_symm String.le).
    + clear -Hs. rewrite <- app_assoc in Hs. induction acc' as [|a acc' IHa]; simpl in *.
      * inversion Hs as [|? ? _ Hf]; subst. by inversion Hf.
      * inversion Hs; subst. auto.
    + clear -Hs Hx. apply elem_of_app in Hx as [Hx|Hx%list_elem_of_singleton]; [|by subst].
      induction acc' as [|a acc' IHa]; simpl in *; [by apply elem_of_nil in Hx|].
      inversion Hs as [|? ? Hs' Hf]; subst. apply elem_of_cons in Hx as [->|Hx]; [|auto].
      rewrite !Forall_app in Hf. destruct Hf as [[_ Hf] _]. by inversion Hf.
  - apply last_None in Hl as ->. simpl. apply IH; [done|apply NoDup_singleton].
Qed.

(** The observation describes this lifecycle's worker and queue. *)
Definition describes (l : WorkerLifecycle) (s : WorkerStatus) : Prop :=
  worker_ok s /\ W_ID s = M_ID (metadata l) /\ W_Version s = M_Version (metadata l) /\
  Concurrency s = M_Concurrency (metadata l) /\ W_Protocol s = M_Protocol (metadata l) /\
  L_queue l ∈ Queues s.

Definition lifecycle_capabilities : list string :=
  [CapabilityPause; CapabilityResume; CapabilityDrain; CapabilityTerminate].

Lemma containsIdentity_elem l x : containsIdentity l x = true <-> x ∈ l.
Proof.
  induction l as [|v l IH]; simpl; [by rewrite elem_of_nil|].
  rewrite elem_of_cons, <- IH. destruct (String.eqb_spec v x); naive_solver.
Qed.

Lemma describes_iff l s :
  negb (is_nil (WorkerStatus_Validate s)) || (W_ID s != M_ID (metadata l))
     || (W_Version s != M_Version (metadata l))
     || negb (Concurrency s =? M_Concurrency (metadata l))%Z
     || negb (version_eqb (W_Protocol s) (M_Protocol (metadata l)))
     || negb (containsIdentity (Queues s) (L_queue l)) = false <-> describes l s.
Proof.
  unfold describes, version_eqb. rewrite !orb_false_iff, !negb_false_iff, is_nil_iff,
    WorkerStatus_Validate_ok, !String.eqb_eq, Z.eqb_eq, bool_decide_eq_true, containsIdentity_elem.
  tauto.
Qed.

Lemma snapshot_valid l :
  WorkerState_valid (S_State (Snapshot l)) = true /\
  DrainState_valid (S_DrainStatus (Snapshot l)) = true /\ S_CurrentJobs (Snapshot l) = jobs l.
Proof. unfold Snapshot, snapshotLocked. repeat case_test; done. Qed.

(** Decorating a backend observation is exact. It is refused as a mismatch
    exactly when it is not a valid observation of this worker serving this queue.
    Otherwise the decorated status keeps the backend's identity, shows the
    lifecycle's own state, drain state and job count, and advertises exactly the
    backend's capabilities together with pause, resume, drain and terminate,
    each once; it is refused as invalid only if the accounted jobs exceed the
    worker's concurrency or the capabilities exceed the contract's bound. *)
Theorem decorate_status_exact (l : WorkerLifecycle) (s : WorkerStatus) :
  match DecorateWorkerStatus l s with
  | inr out =>
      describes l s /\ worker_ok out /\ W_ID out = W_ID s /\ Queues out = Queues s /\
      State out = S_State (Snapshot l) /\ DrainStatus out = S_DrainStatus (Snapshot l) /\
      CurrentJobs out = jobs l /\ NoDup (Capabilities out) /\
      forall x, x ∈ Capabilities out <-> x ∈ Capabilities s \/ x ∈ lifecycle_capabilities
  | inl e =>
      (e = ErrDesiredStateTargetMismatch /\ ~ describes l s) \/
      (e = ErrInvalidStatusProviderOutput /\ describes l s /\
       ((Concurrency s < jobs l)%Z \/
        exists caps, NoDup caps /\ (MaxCapabilitiesPerWorker < zlen caps)%Z /\
          forall x, x ∈ caps <-> x ∈ Capabilities s \/ x ∈ lifecycle_capabilities))
  end.
Proof.
  unfold DecorateWorkerStatus. pose proof (describes_iff l s) as Hd.
  set (caps := deduplicateCapabilities (Sort (Capabilities s ++ _))).
  assert (Hcaps : forall x, x ∈ caps <-> x ∈ Capabilities s \/ x ∈ lifecycle_capabilities).
  { intros x. unfold caps, deduplicateCapabilities. rewrite deduplicate_elem, Sort_perm, elem_of_app.
    fold lifecycle_capabilities. rewrite elem_of_nil. tauto. }
  assert (Hnd : NoDup caps).
  { apply deduplicate_nodup; [apply Sort_sorted|constructor]. }
  destruct (snapshot_valid l) as (Hv1 & Hv2 & Hv3). rewrite Hv3.
  destruct (_ || _) eqn:E.
  { left. split; [done|]. intros Hx. apply Hd in Hx. congruence. }
  clear E. pose proof (proj1 Hd eq_refl) as E. cbv zeta. pose proof E as [[] _]. case_test.
  - right. split_and!; try done. clearbody caps.
    destruct (Z.lt_ge_cases (Concurrency s) (jobs l)) as [|Hj]; [by left|right].
    exists caps. split_and!; try done. destruct (Z.lt_ge_cases MaxCapabilitiesPerWorker (zlen caps)); [done|].
    rewrite negb_true_iff, <- not_true_iff_false, is_nil_iff, WorkerStatus_Validate_ok in E0.
    destruct E0. split; try done. simpl. split; [done|]. apply Forall_forall. intros x [Hx|Hx]%Hcaps.
    + destruct wo_capabilities as [_ Hf]. rewrite Forall_forall in Hf. auto.
    + revert x Hx. apply Forall_forall. unfold lifecycle_capabilities.
      repeat constructor; vm_compute; done.
  - rewrite negb_false_iff, is_nil_iff, WorkerStatus_Validate_ok in E0. by split_and!.
Qed.

(** * Concrete runs *)

Definition pause_record (rev : Z) : DesiredRecord :=
  mkDesired (mkTarget TargetQueue "jobs") DesiredPaused rev demo_time "cmd".

Definition apply_pause (t : nat) (rev : Z) : list event :=
  [EvApply t false (pause_record rev); turn t; turn t; turn t; turn t; turn t].

Lemma lifecycle_revisions_monotone_witness :
  exists r', records (lc (demo (apply_pause 0 3 ++ apply_pause 1 4))) !! mkTarget TargetQueue "jobs"
    = Some r' /\ supersedes (pause_record 3) r'.
Proof.
  refine (proj1 (lifecycle_revisions_monotone (demo (apply_pause 0 3)) _ (apply_pause 1 4) _ _
    (mkTarget TargetQueue "jobs")) (pause_record 3) _).
  - apply demo_reachable. vm_compute. reflexivity.
  - vm_compute. reflexivity.
  - vm_compute. reflexivity.
Defined.

(** Two calls of one terminate command: the first executes, the second waits for it. *)
Definition duplicate_calls : list event :=
  let c := demo_command "k" CommandTerminate in
  [EvExecute 0 demo_time false c; EvExecute 1 demo_time false c;
   turn 0; turn 0; turn 0; turn 0; turn 0; turn 0; turn 1].

Definition terminate_result : CommandResult :=
  result (lc demo_start) demo_time (demo_command "k" CommandTerminate) CommandAcknowledged "".

Lemma lifecycle_command_once_witness :
  (Z.of_nat (size (commands (lc (demo duplicate_calls)))) <= 2)%Z.
Proof.
  refine (proj2 (proj2 (proj2 (proj2 (lifecycle_command_once (demo duplicate_calls) _))))).
  apply demo_reachable. vm_compute. reflexivity.
Defined.

Lemma lifecycle_duplicates_agree_witness :
  terminate_result = terminate_result \/
  (Status terminate_result = CommandRejected /\ Status terminate_result = CommandRejected /\
   FailureCode terminate_result = FailureCode terminate_result /\
   FailureCode terminate_result ∈ ["idempotency_conflict"; "idempotency_capacity"]).
Proof.
  apply (lifecycle_duplicates_agree (demo duplicate_calls) 0 1 (demo_command "k" CommandTerminate)).
  - apply demo_reachable. vm_compute. reflexivity.
  - vm_compute. reflexivity.
  - vm_compute. reflexivity.
  - discriminate.
  - discriminate.
Defined.

Lemma lifecycle_results_validate_witness : CommandResult_Validate terminate_result = ErrNil.
Proof.
  refine (proj2 (proj2 (proj2 (lifecycle_results_validate (demo duplicate_calls) 0
    (demo_command "k" CommandTerminate) terminate_result _ _))) eq_refl).
  - apply demo_reachable. vm_compute. reflexivity.
  - vm_compute. reflexivity.
Defined.
