(* ===== verification/Execution.v ===== *)
(** Execution of one task by the queue ([queue.go]: [work], [run], [handle],
    [settle] and their helpers, with the events of [observer.go]).

    Callbacks the queue does not own (observer, metric, logger, worker, handler,
    settlement, back-off) are arguments; each may panic. The operations return the
    sequence of effects they have, in order, next to their result. *)

From S2P Require Import Prelude GoStd Sentinels Contract Failure Job.


Definition EventEnqueued : string := "enqueued".
Definition EventHandlerStarted : string := "handler_started".
Definition EventRetryScheduled : string := "retry_scheduled".
Definition EventHandlerSucceeded : string := "handler_succeeded".
Definition EventHandlerFailed : string := "handler_failed".
Definition EventAcknowledged : string := "acknowledged".
Definition EventAckFailed : string := "ack_failed".
Definition EventRejected : string := "rejected".
Definition EventRejectFailed : string := "reject_failed".
Definition EventShutdownStarted : string := "shutdown_started".
Definition EventShutdownCompleted : string := "shutdown_completed".

Record Event := mkEvent {
  Ev_Kind : string;
  Ev_Backend : string;
  Ev_Queue : string;
  OccurredAt : Time;
  Duration : Z;
  RetryRemaining : Z;
  Ev_RetryDelay : Z;
  Depth : Z;
  JobAge : Z;
  Ev_Err : error;
  Ev_Classification : string;
  Ev_FailureCode : string
}.

(** [Event{Kind: kind, Duration: d, Err: err}]. *)
Definition event_of (kind : string) (d : Z) (err : error) : Event :=
  mkEvent kind "" "" zeroTime d 0 0 0 0 err "" "".

Definition with_labels (e : Event) (backend queue : string) (at_ : Time) : Event :=
  mkEvent (Ev_Kind e) backend queue at_ (Duration e) (RetryRemaining e) (Ev_RetryDelay e)
    (Depth e) (JobAge e) (Ev_Err e) (Ev_Classification e) (Ev_FailureCode e).

Definition failureEvent (event : Event) (err : error) : Event :=
  let resolution := ResolveFailure err in
  mkEvent (Ev_Kind event) (Ev_Backend event) (Ev_Queue event) (OccurredAt event) (Duration event)
    (RetryRemaining event) (Ev_RetryDelay event) (Depth event) (JobAge event) (Ev_Err event)
    (Classification resolution) (Code resolution).

(** What an execution does to the outside, in order. *)
Inductive effect :=
| Observed (e : Event)
| Settled (s : settlement)
| Attempted (attempt : nat)
| Counted (operation : string)
| Logged (text : string)
| BusyDown
| Scheduled
| AfterFn.

(** The collaborators of one execution. [e_run] is [worker.Run] for each attempt,
    [e_backoff] the back-off's successive durations, [e_now] and [e_elapsed] what
    the clock shows. *)
Record env := mkEnv {
  e_meta : option (go string * go string);
  e_observer : Event -> go unit;
  e_metric : string -> go unit;
  e_afterFn : option (go unit);
  e_validator : option (Message -> go error);
  e_run : nat -> go error;
  e_backoff : nat -> Z;
  e_now : Time;
  e_elapsed : Z
}.

Definition panics {A} (x : go A) : bool := match x with Panic _ => true | Ret _ => false end.

(** [observe]: labels the event and calls the observer; panics are contained. *)
Definition observe (v : env) (event : Event) : list effect :=
  let labelled :=
    match e_meta v with
    | Some (backendName, queueName) =>
        b ← if Ev_Backend event == "" then backendName else Ret (Ev_Backend event);
        q ← if Ev_Queue event == "" then queueName else Ret (Ev_Queue event);
        Ret (b, q)
    | None => Ret (Ev_Backend event, Ev_Queue event)
    end in
  match labelled with
  | Panic _ => [Logged "observer panic"]
  | Ret (b, q) =>
      let event := with_labels event b q
        (if IsZero (OccurredAt event) then e_now v else OccurredAt event) in
      Observed event ::
      (if panics (e_observer v event) then [Logged "observer panic"] else [])
  end.

Definition safeMetricUpdate (v : env) (operation : string) : list effect :=
  Counted operation ::
  (if panics (e_metric v operation) then [Logged ("metric panic during " +:+ operation)] else []).

(** * Settlement *)

(** A delivery's optional settlement interfaces. *)
Record acknowledger := mkAcknowledger {
  a_required : bool;
  a_Ack : list settlement * go error;
  a_Nack : list settlement * go error;
  a_NackFailure : option (error -> list settlement * go error)
}.

(** A task is a [*job.Message] or a type of another package. *)
Inductive TaskMessage :=
| MessageTask (m : Message)
| OtherTask (d : option acknowledger).

Definition delivery_of (task : TaskMessage) : option acknowledger :=
  match task with
  | MessageTask m =>
      Some (mkAcknowledger (AcknowledgementRequired m) (Ack m) (Nack m)
              (Some (fun err => NackFailure err m)))
  | OtherTask d => d
  end.

Definition invokeSettlement (operation : string) (call : list settlement * go error)
    : list effect * error :=
  (Settled <$> call.1,
   match call.2 with Ret err => err | Panic _ => Wrap operation ErrSettlementPanic end).

Definition settle (v : env) (task : TaskMessage) (handlerErr : error) : list effect * error :=
  match delivery_of task with
  | None => ([], handlerErr)
  | Some delivery =>
      if negb (a_required delivery) then ([], handlerErr)
      else if is_nil handlerErr then
        let '(tr, err) := invokeSettlement "acknowledge delivery" (a_Ack delivery) in
        if negb (is_nil err) then
          let failure := NewFailure ClassificationInfrastructure "acknowledgement_failed" err in
          (tr ++ observe v (failureEvent (event_of EventAckFailed 0 failure) failure), failure)
        else (tr ++ observe v (event_of EventAcknowledged 0 ErrNil), ErrNil)
      else
        let reject := match a_NackFailure delivery with
                      | Some f => f handlerErr
                      | None => a_Nack delivery
                      end in
        let '(tr, err) := invokeSettlement "reject delivery" reject in
        if negb (is_nil err) then
          let failure := NewFailure ClassificationInfrastructure "failure_settlement_failed" err in
          (tr ++ observe v (failureEvent (event_of EventRejectFailed 0 failure) failure),
           errors_Join [handlerErr; failure])
        else (tr ++ observe v (failureEvent (event_of EventRejected 0 handlerErr) handlerErr),
              handlerErr)
  end.

(** * The handler and its retries *)

Definition normalizeHandlerFailure (err : error) : error :=
  if is_nil err then ErrNil
  else
    let resolution := ResolveFailure err in
    let code := if Code resolution == "" then "handler_failed" else Code resolution in
    let code := if Is err DeadlineExceeded then "handler_deadline_exceeded"
                else if Is err Canceled then "handler_canceled" else code in
    NewFailure (Classification resolution) code err.

(** [m.Task] or [worker.Run]. *)
Definition attempt (v : env) (m : Message) (i : nat) : go error :=
  match Task m with Some task => task i | None => e_run v i end.

(** The select after a retry is scheduled: the delay passes, or the context ends. *)
Inductive wait := Elapsed | Ended (err : string).

(** The loop of the handler goroutine. [i] counts the attempts so far, [used] the
    back-off durations consumed; [waits] is what each select observes. *)
Fixpoint handle_loop (fuel : nat) (v : env) (m : Message) (waits : nat -> wait)
    (i used : nat) (retryCount delay : Z) : option (list effect * go error) :=
  match fuel with
  | O => None
  | S fuel =>
      match attempt v m i with
      | Panic p => Some ([Attempted i], Panic p)
      | Ret err =>
          if is_nil err || (retryCount =? 0)%Z || (ClassifyFailure err != ClassificationRetryable)
          then Some ([Attempted i], Ret err)
          else
            let retryCount := wrap_i64 (retryCount - 1) in
            let '(delay, used) := if (RetryDelay m =? 0)%Z then (e_backoff v used, S used)
                                  else (delay, used) in
            let retryFailure := normalizeHandlerFailure err in
            let seen := observe v (failureEvent
              (mkEvent EventRetryScheduled "" "" zeroTime 0 retryCount delay 0 0 retryFailure "" "")
              retryFailure) in
            match waits i with
            | Ended e => Some (Attempted i :: seen, Ret (Sentinel e))
            | Elapsed =>
                '(tr, r) ← handle_loop fuel v m waits (S i) used retryCount delay;
                Some (Attempted i :: seen ++ Logged "retry remaining times" :: tr, r)
            end
      end
  end.

(** One attempt and at most [RetryCount] retries. *)
Definition handler (v : env) (m : Message) (waits : nat -> wait)
    : option (list effect * go error) :=
  handle_loop (S (Z.to_nat (RetryCount m))) v m waits 0 0 (RetryCount m) (RetryDelay m).

(** Which branch the outer select takes: the handler goroutine's result (its panic
    or its error), the timeout, or shutdown, after which the remaining time may
    pass or the goroutine may finish. [seen] is how much of the goroutine's trace
    has happened when [handle] returns without waiting for it. *)
Inductive select :=
| SelectResult
| SelectTimeout (seen : nat)
| SelectQuitTimeout (seen : nat)
| SelectQuitResult.

Definition handle (v : env) (m : Message) (waits : nat -> wait) (s : select)
    : option (list effect * go error) :=
  '(tr, r) ← handler v m waits;
  Some match s with
       | SelectResult | SelectQuitResult => (tr, r)
       | SelectTimeout seen | SelectQuitTimeout seen =>
           (take seen tr, Ret (Sentinel DeadlineExceeded))
       end.

Definition run (v : env) (task : TaskMessage) (waits : nat -> wait) (s : select)
    : option (list effect * go error) :=
  match task with
  | MessageTask m =>
      match e_validator v with
      | Some validate =>
          match validate m with
          | Panic p => Some ([], Panic p)
          | Ret err => if negb (is_nil err) then Some ([], Ret err) else handle v m waits s
          end
      | None => handle v m waits s
      end
  | OtherTask _ => Some ([], Ret (Leaf "invalid task type"))
  end.

(** * work *)

Definition panicFailure : error :=
  NewFailure ClassificationPermanent "handler_panic" ErrHandlerPanic.

(** The deferred part after the panic test: reschedule, count, observe, call back. *)
Definition work_finish (v : env) (failed : bool) (err : error) : list effect :=
  [Scheduled] ++
  (if failed then
     safeMetricUpdate v "increment failed task count" ++
     observe v (failureEvent (event_of EventHandlerFailed (e_elapsed v) err) err)
   else
     safeMetricUpdate v "increment successful task count" ++
     observe v (event_of EventHandlerSucceeded (e_elapsed v) ErrNil)) ++
  match e_afterFn v with
  | None => []
  | Some f => AfterFn :: (if panics f then [Logged "after callback panic"] else [])
  end.

Definition work_release (v : env) : list effect :=
  BusyDown :: safeMetricUpdate v "decrement busy worker count".

(** The handler's error as it is logged and settled. *)
Definition work_error (err : error) : list effect * error :=
  if negb (is_nil err) then ([Logged "handler error"], normalizeHandlerFailure err) else ([], ErrNil).

(** The effects of one work wrapper and its final error. *)
Definition work (v : env) (task : TaskMessage) (waits : nat -> wait) (s : select)
    : option (list effect * error) :=
  '(tr, r) ← run v task waits s;
  let started := observe v (event_of EventHandlerStarted 0 ErrNil) in
  Some match r with
       | Ret err0 =>
           let '(logged, err) := work_error err0 in
           let '(settled, err) := settle v task err in
           (started ++ tr ++ logged ++ settled ++ work_release v ++
            work_finish v (negb (is_nil err)) err, err)
       | Panic _ =>
           let '(settled, err) := settle v task panicFailure in
           (started ++ tr ++ work_release v ++ settled ++ Logged "handler panic" ::
            work_finish v true err, err)
       end.

(** * Proofs *)

(** Effects that neither settle, count nor schedule. *)
Definition quiet (e : effect) : bool :=
  match e with Observed _ | Logged _ | Attempted _ => true | _ => false end.

Definition Quiet (tr : list effect) : Prop := Forall (fun e => quiet e = true) tr.

Definition settlements (tr : list effect) : list settlement :=
  omap (fun e => match e with Settled s => Some s | _ => None end) tr.

Definition attempts (tr : list effect) : list nat :=
  omap (fun e => match e with Attempted i => Some i | _ => None end) tr.

Definition count (p : effect -> bool) (tr : list effect) : nat := length (List.filter p tr).

Definition counts (operation : string) (e : effect) : bool :=
  match e with Counted op => op == operation | _ => false end.
Definition is_scheduled (e : effect) : bool := match e with Scheduled => true | _ => false end.
Definition is_busydown (e : effect) : bool := match e with BusyDown => true | _ => false end.

Lemma count_app p a b : count p (a ++ b) = (count p a + count p b)%nat.
Proof. unfold count. by rewrite List.filter_app, length_app. Qed.

Lemma settlements_app a b : settlements (a ++ b) = settlements a ++ settlements b.
Proof. apply omap_app. Qed.

Lemma attempts_app a b : attempts (a ++ b) = attempts a ++ attempts b.
Proof. apply omap_app. Qed.

Lemma Quiet_count p tr :
  (forall e, quiet e = true -> p e = false) -> Quiet tr -> count p tr = 0.
Proof.
  intros Hp. induction 1 as [|e tr He _ IH]; [done|]. unfold count in *. simpl. by rewrite Hp.
Qed.

Lemma Quiet_settlements tr : Quiet tr -> settlements tr = [].
Proof. induction 1 as [|e tr He _ IH]; [done|]. by destruct e. Qed.

Lemma observe_quiet v e : Quiet (observe v e).
Proof.
  unfold observe, Quiet. repeat case_match; repeat constructor.
Qed.

Lemma observe_attempts v e : attempts (observe v e) = [].
Proof. unfold observe. repeat case_match; done. Qed.

#[export] Hint Resolve observe_quiet : core.

Lemma handle_loop_quiet fuel v m waits i used rc d tr r :
  handle_loop fuel v m waits i used rc d = Some (tr, r) -> Quiet tr.
Proof.
  revert i used rc d tr r. induction fuel as [|fuel IH]; intros i used rc d tr r H; simpl in H; [done|].
  destruct (attempt v m i) as [err|p]; [|injection H as <- <-; by repeat constructor].
  case_test; [injection H as <- <-; by repeat constructor|].
  destruct (if (RetryDelay m =? 0)%Z then _ else _) as [d' used'].
  destruct (waits i); [|injection H as <- <-; constructor; [done|apply observe_quiet]].
  destruct (handle_loop fuel _ _ _ _ _ _ _) as [[tr' r']|] eqn:E'; [|done]. injection H as <- <-.
  constructor; [done|]. apply Forall_app. split; [apply observe_quiet|]. constructor; [done|by eapply IH].
Qed.

Lemma run_quiet v task waits s tr r : run v task waits s = Some (tr, r) -> Quiet tr.
Proof.
  intros H.
  assert (Hh : forall m, handle v m waits s = Some (tr, r) -> Quiet tr).
  { intros m Hm. unfold handle, handler in Hm.
    destruct (handle_loop _ _ _ _ _ _ _ _) as [[tr' r']|] eqn:E; [|done].
    apply handle_loop_quiet in E. destruct s; injection Hm as <- <-; try done; by apply Forall_take. }
  unfold run in H. destruct task as [m|d]; [|injection H as <- <-; constructor].
  destruct (e_validator v) as [f|]; [|by eapply Hh].
  destruct (f m) as [err|p]; [|injection H as <- <-; constructor].
  case_test; [injection H as <- <-; constructor|by eapply Hh].
Qed.

(** ** The handler loop *)

(** A failure the loop retries. *)
Definition retryable (x : go error) : Prop :=
  exists err, x = Ret err /\ err <> ErrNil /\ ClassifyFailure err = ClassificationRetryable.

(** The final attempt: it stands, or the context ended while waiting to retry. *)
Definition final (v : env) (m : Message) (waits : nat -> wait) (last : nat) (left : Z)
    (r : go error) : Prop :=
  (r = attempt v m last /\ (retryable (attempt v m last) -> left = 0%Z)) \/
  (exists e, waits last = Ended e /\ r = Ret (Sentinel e) /\ retryable (attempt v m last) /\
     (0 < left)%Z).

Lemma handle_loop_spec n v m waits i used d :
  (Z.of_nat n < 2 ^ 63)%Z ->
  exists k tr r,
    handle_loop (S n) v m waits i used (Z.of_nat n) d = Some (tr, r) /\ (k <= n)%nat /\
    attempts tr = seq i (S k) /\
    (forall j, (i <= j < i + k)%nat -> retryable (attempt v m j) /\ waits j = Elapsed) /\
    final v m waits (i + k) (Z.of_nat (n - k)) r.
Proof.
  revert i used d. induction n as [|n IH]; intros i used d Hn.
  - cbn [handle_loop]. destruct (attempt v m i) as [err|p] eqn:Ea.
    + change (Z.of_nat 0 =? 0)%Z with true. rewrite orb_true_r. cbn [orb].
      exists 0, [Attempted i], (Ret err). split_and!; try done; [intros; lia|].
      left. rewrite Nat.add_0_r, Ea. split; [done|]. done.
    + exists 0, [Attempted i], (Panic p). split_and!; try done; [intros; lia|].
      left. rewrite Nat.add_0_r, Ea. done.
  - remember (S n) as n1 eqn:Hn1. cbn [handle_loop].
    destruct (attempt v m i) as [err|p] eqn:Ea.
    2: { exists 0, [Attempted i], (Panic p). split_and!; try done; [lia|intros; lia|].
         left. rewrite Nat.add_0_r, Ea. split; [done|]. by intros (? & ? & _). }
    destruct (is_nil err || (Z.of_nat n1 =? 0)%Z || (ClassifyFailure err != ClassificationRetryable)) eqn:Ec.
    + exists 0, [Attempted i], (Ret err). split_and!; try done; [lia|intros; lia|].
      left. rewrite Nat.add_0_r, Ea. split; [done|]. intros (e & [= <-] & He & Hc).
      rewrite Hc in Ec. destruct err; simpl in Ec; try done; lia.
    + apply orb_false_iff in Ec as [Ec Hcl]. apply orb_false_iff in Ec as [Hnil _].
      apply negb_false_iff, String.eqb_eq in Hcl.
      assert (Hret : retryable (attempt v m i)).
      { exists err. split_and!; try done. by intros ->. }
      assert (Hw : wrap_i64 (Z.of_nat n1 - 1) = Z.of_nat n).
      { unfold wrap_i64. rewrite Z.mod_small by lia. lia. }
      rewrite Hw. destruct (if (RetryDelay m =? 0)%Z then _ else _) as [d' used'].
      set (seen := observe v _). destruct (waits i) as [|e] eqn:Ew.
      * destruct (IH (S i) used' d') as (k & tr & r & Hl & Hk & Hat & Hall & Hfin); [lia|].
        subst n1. rewrite Hl. cbn [mbind option_bind].
        exists (S k). eexists _, _. split; [reflexivity|]. split_and!; [lia| | |].
        -- change (attempts (Attempted i :: seen ++ Logged "retry remaining times" :: tr))
             with (i :: attempts (seen ++ Logged "retry remaining times" :: tr)).
           rewrite attempts_app. unfold seen. rewrite observe_attempts. simpl. f_equal. exact Hat.
        -- intros j Hj. destruct (decide (j = i)) as [->|Hne]; [done|]. apply Hall. lia.
        -- replace (i + S k) with (S i + k) by lia. by replace (S n - S k)%nat with (n - k)%nat by lia.
      * exists 0. eexists _, _. split; [reflexivity|]. split_and!; [lia| |intros; lia|].
        -- change (attempts (Attempted i :: seen)) with (i :: attempts seen).
           unfold seen. by rewrite observe_attempts.
        -- right. exists e. rewrite Nat.add_0_r. split_and!; try done. lia.
Qed.

(** C27: The handler's retry loop terminates within its budget and stops for the
    right reason. For a message whose retry count is in range, the handler is
    called for attempts 0 to k, in order, with k at most the retry count; every
    attempt but the last failed with a retryable error and its delay elapsed;
    the result is the last attempt's own outcome (a panic included), or the
    context's error when it ended during a delay; and a retryable failure is
    final only when no retries are left. *)
Theorem handler_retries_exact (v : env) (m : Message) (waits : nat -> wait) :
  (0 <= RetryCount m < 2 ^ 63)%Z ->
  exists k tr r,
    handler v m waits = Some (tr, r) /\ (Z.of_nat k <= RetryCount m)%Z /\
    attempts tr = seq 0 (S k) /\
    (forall j, (j < k)%nat -> retryable (attempt v m j) /\ waits j = Elapsed) /\
    final v m waits k (RetryCount m - Z.of_nat k) r.
Proof.
  intros H. destruct (handle_loop_spec (Z.to_nat (RetryCount m)) v m waits 0 0 (RetryDelay m))
    as (k & tr & r & Hl & Hk & Hat & Hall & Hfin); [lia|].
  exists k, tr, r. unfold handler. rewrite Z2Nat.id in Hl by lia. split_and!; try done; [lia| |].
  - intros j Hj. apply Hall. lia.
  - replace (RetryCount m - Z.of_nat k)%Z with (Z.of_nat (Z.to_nat (RetryCount m) - k)) by lia.
    exact Hfin.
Qed.

(** ** Classification of final errors *)

Lemma rank_top c :
  Classification_valid c = true -> (5 <= classificationRank c)%Z -> c = ClassificationInfrastructure.
Proof. intros Hc. classes; vm_compute; intuition congruence. Qed.

Lemma infra_stays n stack r :
  Classification r = ClassificationInfrastructure ->
  Classification (resolve_loop n stack r) = ClassificationInfrastructure.
Proof.
  intros Hr. assert (Hg : good r) by (unfold good; by rewrite Hr).
  pose proof (resolve_loop_upto n stack r Hg) as Hu.
  pose proof (resolve_loop_good n stack r Hg) as Hg'. unfold good in Hg'.
  apply rank_top; [done|]. unfold upto in Hu. apply not_true_iff_false in Hu.
  rewrite better_spec, Hr in Hu. change (classificationRank ClassificationInfrastructure) with 5%Z in Hu.
  lia.
Qed.

(** A settlement failure is an infrastructure failure, whatever it is joined to. *)
Lemma infra_improve r code cause :
  identity code -> Classification r <> ClassificationInfrastructure -> good r ->
  Classification (improve r (node_candidate (FailureErr ClassificationInfrastructure code cause)))
  = ClassificationInfrastructure.
Proof.
  intros Hk Hne Hg. unfold improve, node_candidate, Failure_Validate.
  rewrite (proj2 (invalidIdentity_false code)) by done. cbn [negb is_nil Classification_valid].
  change (Classification_valid ClassificationInfrastructure) with true. cbn [negb is_nil].
  case_test; [done|]. apply not_true_iff_false in E. rewrite better_spec in E.
  cbn [Classification] in E. change (classificationRank ClassificationInfrastructure) with 5%Z in E.
  apply rank_top; [done|lia].
Qed.

Lemma infra_failure_fuel n code cause :
  identity code ->
  Classification (resolve_loop (S n) [FailureErr ClassificationInfrastructure code cause]
    default_resolution) = ClassificationInfrastructure.
Proof.
  intros Hk. rewrite resolve_loop_visit by done. apply infra_stays. by apply infra_improve.
Qed.

Lemma infra_join_fuel n text h code cause :
  identity code ->
  Classification (resolve_loop (S (S n))
    [Join text [h; FailureErr ClassificationInfrastructure code cause]] default_resolution)
  = ClassificationInfrastructure.
Proof.
  intros Hk. rewrite resolve_loop_visit by done.
  change (reverse (node_children (Join text [h; FailureErr ClassificationInfrastructure code cause])) ++ [])
    with [FailureErr ClassificationInfrastructure code cause; h].
  rewrite resolve_loop_visit by done. apply infra_stays. by apply infra_improve.
Qed.

Lemma infra_failure code cause :
  identity code ->
  ClassifyFailure (NewFailure ClassificationInfrastructure code cause) = ClassificationInfrastructure.
Proof. exact (infra_failure_fuel 63 code cause). Qed.

Lemma infra_join text h code cause :
  identity code ->
  ClassifyFailure (Join text [h; NewFailure ClassificationInfrastructure code cause])
  = ClassificationInfrastructure.
Proof. exact (infra_join_fuel 62 text h code cause). Qed.

(** Codes of resolutions are empty or bounded identities. *)
Definition bounded_code (k : string) : Prop := k = "" \/ identity k.

Lemma fixed_codes :
  identity "deadline_exceeded" /\ identity "context_canceled" /\ identity "handler_failed" /\
  identity "handler_deadline_exceeded" /\ identity "handler_canceled" /\
  identity "acknowledgement_failed" /\ identity "failure_settlement_failed" /\
  identity "handler_panic".
Proof. split_and!; vm_compute; intuition congruence. Qed.

Lemma node_candidate_code e : bounded_code (Code (node_candidate e)).
Proof.
  destruct fixed_codes as (H1 & H2 & _).
  assert (Hleaf : forall b1 b2 : bool, bounded_code (Code
    (if b1 then mkResolution ClassificationCanceled "deadline_exceeded"
     else if b2 then mkResolution ClassificationCanceled "context_canceled"
     else default_resolution))) by (intros [] []; by (left + right)).
  destruct e as [| | | | | |c k e]; try (by left); try apply Hleaf.
  unfold node_candidate, Failure_Validate.
  destruct (Classification_valid c); [|by left]. cbn [negb].
  destruct (invalidIdentity k) eqn:Ek; [by left|]. right. by apply invalidIdentity_false.
Qed.

Lemma resolve_loop_code n stack r :
  bounded_code (Code r) -> bounded_code (Code (resolve_loop n stack r)).
Proof.
  revert stack r. induction n as [|n IH]; intros [|e stack] r Hr; try done.
  cbn [resolve_loop]. case_test; [auto|]. apply IH. unfold improve.
  case_test; [apply node_candidate_code|done].
Qed.

Lemma handler_code (b1 b2 : bool) k :
  bounded_code k ->
  identity (if b1 then "handler_deadline_exceeded" else if b2 then "handler_canceled"
            else if k == "" then "handler_failed" else k).
Proof.
  destruct fixed_codes as (_ & _ & H1 & H2 & H3 & _). intros Hk. destruct b1; [done|].
  destruct b2; [done|]. destruct (String.eqb_spec k ""); [done|]. by destruct Hk.
Qed.

Lemma resolution_code err : bounded_code (Code (ResolveFailure err)).
Proof. unfold ResolveFailure. apply resolve_loop_code. by left. Qed.

Lemma normalize_shape err :
  is_nil err = false ->
  exists code, identity code /\ normalizeHandlerFailure err = NewFailure (ClassifyFailure err) code err.
Proof.
  intros En. unfold normalizeHandlerFailure, ClassifyFailure. rewrite En. cbv zeta.
  eexists. split; [|reflexivity]. apply handler_code, resolution_code.
Qed.

Lemma normalize_class err :
  ClassifyFailure (normalizeHandlerFailure err) = ClassifyFailure err.
Proof.
  destruct (is_nil err) eqn:En; [destruct err; try discriminate En; reflexivity|].
  destruct (normalize_shape err En) as (code & Hc & ->). by apply rewrap_class.
Qed.

Lemma normalize_nil err : is_nil (normalizeHandlerFailure err) = is_nil err.
Proof.
  destruct (is_nil err) eqn:En; [destruct err; try discriminate En; reflexivity|].
  by destruct (normalize_shape err En) as (code & _ & ->).
Qed.

(** ** Settlement *)

(** The error a work wrapper settles with. *)
Definition verdict (r : go error) : error :=
  match r with
  | Ret err => normalizeHandlerFailure err
  | Panic _ => panicFailure
  end.

(** The settlement call a delivery gets for a verdict, if it requires one. *)
Definition settlement_call (task : TaskMessage) (err : error) : option (list settlement * go error) :=
  match delivery_of task with
  | Some d =>
      if a_required d
      then Some (if is_nil err then a_Ack d
                 else match a_NackFailure d with Some f => f err | None => a_Nack d end)
      else None
  | None => None
  end.

Definition settled_ok (call : option (list settlement * go error)) : Prop :=
  match call with None => True | Some (_, r) => r = Ret ErrNil end.

Lemma settled_effects (l : list settlement) :
  settlements (Settled <$> l) = l /\
  forall p, (forall s, p (Settled s) = false) -> count p (Settled <$> l) = 0.
Proof.
  split.
  - induction l as [|s l IH]; [done|]. simpl. by f_equal.
  - intros p Hp. induction l as [|s l IH]; [done|]. unfold count in *. simpl. by rewrite Hp.
Qed.

(** [settle] runs exactly the delivery's call and nothing else that matters. *)
Lemma settle_spec v task err tr err' :
  settle v task err = (tr, err') ->
  settlements tr = match settlement_call task err with Some c => c.1 | None => [] end /\
  (forall p, (forall s, p (Settled s) = false) -> (forall e, quiet e = true -> p e = false) ->
     count p tr = 0) /\
  (settled_ok (settlement_call task err) -> err' = err) /\
  (~ settled_ok (settlement_call task err) ->
     ClassifyFailure err' = ClassificationInfrastructure /\ err' <> ErrNil).
Proof.
  unfold settle, settlement_call. intros H.
  destruct (delivery_of task) as [d|]; [|by injection H as <- <-].
  destruct (a_required d); [|by injection H as <- <-]. simpl in H.
  assert (Hpar : forall (c : list settlement * go error) ev,
    settlements ((Settled <$> c.1) ++ observe v ev) = c.1 /\
    (forall p, (forall s, p (Settled s) = false) -> (forall e, quiet e = true -> p e = false) ->
       count p ((Settled <$> c.1) ++ observe v ev) = 0)).
  { intros [l r] ev. simpl. destruct (settled_effects l) as [Hs Hc]. split.
    - by rewrite settlements_app, Hs, Quiet_settlements, app_nil_r.
    - intros p Hp Hq. by rewrite count_app, Hc, Quiet_count. }
  assert (Hbad : forall op (c : list settlement * go error),
    is_nil match c.2 with Ret e => e | Panic _ => Wrap op ErrSettlementPanic end = false ->
    ~ settled_ok (Some c)).
  { intros op [l [e|p]] Hn Hok; simpl in *; [|done]. injection Hok as ->. done. }
  assert (Hgood : forall op (c : list settlement * go error),
    is_nil match c.2 with Ret e => e | Panic _ => Wrap op ErrSettlementPanic end = true ->
    settled_ok (Some c)).
  { intros op [l [e|p]] Hn; simpl in *; [|done]. by destruct e. }
  destruct (is_nil err) eqn:En.
  - destruct err; try discriminate En. destruct (is_nil match (a_Ack d).2 with Ret _ => _ | Panic _ => _ end) eqn:Ec;
      simpl in H; injection H as <- <-; (split_and!; [apply Hpar..| |]).
    + done.
    + intros Hno. destruct Hno. by eapply Hgood.
    + intros Hok. by destruct (Hbad _ _ Ec).
    + intros _. split; [|done]. apply infra_failure, fixed_codes.
  - set (c := match a_NackFailure d with Some f => f err | None => a_Nack d end) in *.
    destruct (is_nil match c.2 with Ret _ => _ | Panic _ => _ end) eqn:Ec;
      simpl in H; injection H as <- <-; (split_and!; [apply Hpar..| |]).
    + done.
    + intros Hno. destruct Hno. by eapply Hgood.
    + intros Hok. by destruct (Hbad _ _ Ec).
    + intros _. unfold errors_Join. simpl. rewrite En. simpl. split; [|done]. apply infra_join, fixed_codes.
Qed.

Lemma work_error_spec err :
  Quiet (work_error err).1 /\ (work_error err).2 = verdict (Ret err).
Proof.
  unfold work_error, verdict. destruct (is_nil err) eqn:En; simpl.
  - split; [constructor|]. by destruct err.
  - split; [by repeat constructor|done].
Qed.

Definition successOp : string := "increment successful task count".
Definition failureOp : string := "increment failed task count".

Lemma metric_settlements v op : settlements (safeMetricUpdate v op) = [].
Proof. unfold safeMetricUpdate. by case_test. Qed.

Lemma metric_count p v op :
  (forall t, p (Logged t) = false) ->
  count p (safeMetricUpdate v op) = if p (Counted op) then 1 else 0.
Proof.
  intros Hp. unfold safeMetricUpdate, count. simpl.
  destruct (p (Counted op)), (panics (e_metric v op)); simpl; rewrite ?Hp; done.
Qed.

Lemma finish_settlements v failed err : settlements (work_finish v failed err) = [].
Proof.
  unfold work_finish. rewrite !settlements_app.
  assert (settlements match e_afterFn v with
    | None => [] | Some f => AfterFn :: (if panics f then [Logged "after callback panic"] else []) end
    = []) as ->.
  { destruct (e_afterFn v) as [f|]; [|done]. by destruct (panics f). }
  destruct failed;
    by rewrite settlements_app, metric_settlements, (Quiet_settlements (observe _ _)) by auto.
Qed.

(** Effects a finished wrapper has, beside the settlement. *)
Lemma finish_count p v failed err :
  (forall e, quiet e = true -> p e = false) -> p AfterFn = false ->
  count p (work_finish v failed err)
  = ((if p Scheduled then 1 else 0) + (if p (Counted (if failed then failureOp else successOp)) then 1 else 0))%nat.
Proof.
  intros Hq Ha. unfold work_finish. rewrite !count_app.
  assert (count p match e_afterFn v with
    | None => [] | Some f => AfterFn :: (if panics f then [Logged "after callback panic"] else []) end
    = 0) as ->.
  { destruct (e_afterFn v) as [f|]; [|done]. unfold count. simpl. rewrite Ha.
    destruct (panics f); simpl; [by rewrite Hq|done]. }
  assert (count p [Scheduled] = if p Scheduled then 1 else 0) as ->.
  { unfold count. simpl. by destruct (p Scheduled). }
  destruct failed; rewrite count_app, metric_count, (Quiet_count p (observe _ _)) by auto;
    unfold failureOp, successOp; lia.
Qed.

Lemma release_count p v :
  (forall t, p (Logged t) = false) ->
  count p (work_release v) = ((if p BusyDown then 1 else 0) +
    (if p (Counted "decrement busy worker count") then 1 else 0))%nat.
Proof.
  intros Hp. unfold work_release. rewrite <- (metric_count p v) by auto. unfold count. simpl.
  by destruct (p BusyDown).
Qed.

Lemma release_settlements v : settlements (work_release v) = [].
Proof. exact (metric_settlements v _). Qed.

#[local] Opaque work_finish work_release safeMetricUpdate.

(** The effects of a work wrapper, seen through a test that ignores quiet effects
    and settlement. *)
Lemma work_count p v task waits s tr err :
  work v task waits s = Some (tr, err) ->
  (forall e, quiet e = true -> p e = false) -> (forall st, p (Settled st) = false) ->
  p AfterFn = false ->
  count p tr =
    ((if p BusyDown then 1 else 0) + (if p (Counted "decrement busy worker count") then 1 else 0) +
     (if p Scheduled then 1 else 0) +
     (if p (Counted (if is_nil err then successOp else failureOp)) then 1 else 0))%nat.
Proof.
  intros H Hq Hs Ha. unfold work in H.
  destruct (run v task waits s) as [[tr0 r0]|] eqn:Hrun; [|done]. apply run_quiet in Hrun.
  cbn [mbind option_bind] in H.
  assert (Hrel : count p (work_release v) = ((if p BusyDown then 1 else 0) +
    (if p (Counted "decrement busy worker count") then 1 else 0))%nat).
  { apply release_count. auto. }
  assert (Hlog : forall t l, count p (Logged t :: l) = count p l).
  { intros t l. unfold count. simpl. by rewrite Hq. }
  destruct r0 as [err0|w].
  - destruct (work_error_spec err0) as [Hq1 _]. destruct (work_error err0) as [logged e1].
    destruct (settle v task e1) as [st e2] eqn:E2. injection H as <- <-.
    apply settle_spec in E2 as (_ & Hc & _).
    rewrite !count_app, finish_count, Hrel, Hc, (Quiet_count p (observe _ _)),
      (Quiet_count p tr0), (Quiet_count p logged) by auto. simpl.
    destruct (is_nil e2); simpl; lia.
  - destruct (settle v task panicFailure) as [st e2] eqn:E2. injection H as <- <-.
    apply settle_spec in E2 as (_ & Hc & Hok & Hbad).
    assert (is_nil e2 = false) as ->.
    { destruct (settlement_call task panicFailure) as [[l r]|] eqn:Ecall.
      - destruct r as [e|]; simpl in *; [destruct e; try (by destruct Hbad as [_ ?]; destruct e2);
          rewrite Hok by done; done|]. destruct Hbad as [_ ?]; by destruct e2.
      - by rewrite Hok. }
    rewrite !count_app, Hlog, finish_count, Hrel, Hc, (Quiet_count p (observe _ _)),
      (Quiet_count p tr0) by auto. lia.
Qed.

(** C21: A work wrapper settles its delivery once, with the verdict, and accounts
    for it once. Whatever the handler, observer, metric and callbacks do (panics
    included) and whichever branch the waits take: the settlement callbacks run are
    exactly those of the one call that the verdict selects (acknowledge on
    success, reject otherwise, none when the delivery needs none); the wrapper
    releases its worker slot once and reschedules once; and it counts one success
    exactly when it ends without error and one failure otherwise. *)
Theorem work_settles_once (v : env) (task : TaskMessage) (waits : nat -> wait) (s : select)
    (tr0 : list effect) (r0 : go error) :
  run v task waits s = Some (tr0, r0) ->
  exists tr err,
    work v task waits s = Some (tr, err) /\
    settlements tr = match settlement_call task (verdict r0) with Some c => c.1 | None => [] end /\
    count is_busydown tr = 1 /\ count is_scheduled tr = 1 /\
    count (counts successOp) tr = (if is_nil err then 1 else 0) /\
    count (counts failureOp) tr = (if is_nil err then 0 else 1).
Proof.
  intros Hrun. destruct (work v task waits s) as [[tr err]|] eqn:Hw.
  2: { unfold work in Hw. rewrite Hrun in Hw. simpl in Hw. by destruct r0; repeat case_match. }
  exists tr, err. split; [done|].
  assert (Hset : settlements tr =
    match settlement_call task (verdict r0) with Some c => c.1 | None => [] end).
  { unfold work in Hw. rewrite Hrun in Hw. cbn [mbind option_bind] in Hw. apply run_quiet in Hrun.
    destruct r0 as [err0|w].
    - destruct (work_error_spec err0) as [Hl Hv]. destruct (work_error err0) as [logged e1].
      cbn [fst snd] in Hl, Hv. subst e1.
      destruct (settle v task _) as [st e2] eqn:E2. injection Hw as <- <-.
      apply settle_spec in E2 as (Hs & _).
      rewrite !settlements_app, Hs, finish_settlements, release_settlements,
        (Quiet_settlements (observe _ _)), (Quiet_settlements tr0), (Quiet_settlements logged) by auto.
      by rewrite app_nil_r.
    - destruct (settle v task _) as [st e2] eqn:E2. injection Hw as <- <-.
      apply settle_spec in E2 as (Hs & _).
      rewrite !settlements_app, Hs, release_settlements, (Quiet_settlements (observe _ _)),
        (Quiet_settlements tr0) by auto.
      change (settlements (Logged ?t :: ?l)) with (settlements l).
      by rewrite finish_settlements, app_nil_r. }
  split; [done|].
  assert (Hq : forall e, quiet e = true -> is_busydown e = false /\ is_scheduled e = false /\
    forall op, counts op e = false) by (by intros []).
  split_and!; rewrite (work_count _ v task waits s tr err Hw); try (by intros; apply Hq); try done;
    by destruct (is_nil err).
Qed.

(** The final classification of a delivery is honest. If the settlement call
    fails or panics, the wrapper ends with an infrastructure failure, whatever the
    handler returned; otherwise it ends with the verdict itself: no error for a
    handler that succeeded, the handler error's own classification for one that
    failed, and a permanent failure for one that panicked. *)
Theorem work_classifies (v : env) (task : TaskMessage) (waits : nat -> wait) (s : select)
    (tr0 tr : list effect) (r0 : go error) (err : error) :
  run v task waits s = Some (tr0, r0) -> work v task waits s = Some (tr, err) ->
  (~ settled_ok (settlement_call task (verdict r0)) ->
     ClassifyFailure err = ClassificationInfrastructure /\ err <> ErrNil) /\
  (settled_ok (settlement_call task (verdict r0)) ->
     err = verdict r0 /\
     match r0 with
     | Ret err0 => is_nil err = is_nil err0 /\ ClassifyFailure err = ClassifyFailure err0
     | Panic _ => ClassifyFailure err = ClassificationPermanent
     end).
Proof.
  intros Hrun Hw. unfold work in Hw. rewrite Hrun in Hw. cbn [mbind option_bind] in Hw.
  assert (Hset : exists st, settle v task (verdict r0) = (st, err)).
  { destruct r0 as [err0|w].
    - destruct (work_error_spec err0) as [_ Hv]. destruct (work_error err0) as [logged e1].
      cbn [fst snd] in Hv. subst e1.
      destruct (settle v task _) as [st e2]. injection Hw as <- <-. eauto.
    - destruct (settle v task _) as [st e2] eqn:E2. injection Hw as <- <-. eauto. }
  destruct Hset as [st Hset]. apply settle_spec in Hset as (_ & _ & Hok & Hbad).
  split; [done|]. intros H. rewrite (Hok H). split; [done|]. destruct r0 as [err0|w]; simpl.
  - by rewrite normalize_nil, normalize_class.
  - vm_compute. reflexivity.
Qed.

(** * Concrete executions *)

#[local] Transparent work_finish work_release safeMetricUpdate.

(** A handler that fails twice with a retryable error, then succeeds, on a
    delivery whose acknowledgement fails. *)
Definition demo_task (i : nat) : go error := if (i <? 2)%nat then Ret (Leaf "busy") else Ret ErrNil.

Definition demo_message : Message :=
  mkMessage (Some demo_task) (Some (Ret (Leaf "lost connection"))) None
    (Some (fun _ => Ret ErrNil)) (60 * Second) "" 3 Second two64 Second Minute false None.

Definition demo_env : env :=
  mkEnv None (fun _ => Ret tt) (fun _ => Ret tt) None None (fun _ => Ret ErrNil)
    (fun _ => Second) (mkTime 7 None 0) 0.

Lemma handler_retries_exact_witness :
  exists k tr r, handler demo_env demo_message (fun _ => Elapsed) = Some (tr, r) /\
    (Z.of_nat k <= 3)%Z /\ attempts tr = seq 0 (S k).
Proof.
  destruct (handler_retries_exact demo_env demo_message (fun _ => Elapsed)) as (k & tr & r & H & Hk & Ha & _).
  - split; [discriminate|reflexivity].
  - exists k, tr, r. split; [exact H|]. split; [exact Hk|exact Ha].
Defined.

Definition demo_handled : list effect * go error :=
  default ([], Ret ErrNil) (run demo_env (MessageTask demo_message) (fun _ => Elapsed) SelectResult).

Lemma work_settles_once_witness :
  exists tr err, work demo_env (MessageTask demo_message) (fun _ => Elapsed) SelectResult
    = Some (tr, err) /\ settlements tr = [CallAck].
Proof.
  destruct (work_settles_once demo_env (MessageTask demo_message) (fun _ => Elapsed) SelectResult
    demo_handled.1 demo_handled.2) as (tr & err & Hw & Hs & _).
  - vm_compute. reflexivity.
  - exists tr, err. split; [exact Hw|]. exact Hs.
Defined.

Definition demo_worked : list effect * error :=
  default ([], ErrNil) (work demo_env (MessageTask demo_message) (fun _ => Elapsed) SelectResult).

Lemma work_classifies_witness :
  ClassifyFailure demo_worked.2 = ClassificationInfrastructure.
Proof.
  refine (proj1 (proj1 (work_classifies demo_env (MessageTask demo_message) (fun _ => Elapsed)
    SelectResult demo_handled.1 demo_worked.1 demo_handled.2 demo_worked.2 _ _) _)).
  - vm_compute. reflexivity.
  - vm_compute. reflexivity.
  - vm_compute. discriminate.
Defined.
