(* ===== verification/Routine.v ===== *)
(** The goroutine group of [thread.go] and the counters of [metric.go]. *)

From S2P Require Import Prelude GoStd.

(** * routineGroup

    The idle channel is numbered by generation; [idle_closed] tells whether the
    current one is closed, and all earlier ones are. *)

Record routineGroup := mkGroup { active : Z; idle : nat; idle_closed : bool }.

Definition newRoutineGroup : routineGroup := mkGroup 0 0 true.

(** The registration of [Run], before the goroutine is launched. *)
Definition group_Run (g : routineGroup) : routineGroup :=
  if (active g =? 0)%Z then mkGroup (active g + 1) (S (idle g)) false
  else mkGroup (active g + 1) (idle g) (idle_closed g).

Definition group_done (g : routineGroup) : go routineGroup :=
  let a := (active g - 1)%Z in
  if (a =? 0)%Z then
    if idle_closed g then Panic "close of closed channel" else Ret (mkGroup a (idle g) true)
  else Ret (mkGroup a (idle g) (idle_closed g)).

(** [WaitContext] captures the current channel, then selects on it. *)
Definition group_captured (g : routineGroup) : nat := idle g.
Definition group_released (g : routineGroup) (channel : nat) : bool :=
  (channel <? idle g)%nat || idle_closed g.

(** [n] goroutines of the group are running. *)
Definition group_runs (g : routineGroup) (n : nat) : Prop :=
  active g = Z.of_nat n /\ idle_closed g = (n =? 0)%nat.

Lemma group_new : group_runs newRoutineGroup 0.
Proof. done. Qed.

Lemma group_Run_runs g n : group_runs g n -> group_runs (group_Run g) (S n).
Proof.
  intros [Ha Hi]. unfold group_Run. destruct (Z.eqb_spec (active g) 0); split; simpl; lia.
Qed.

(** A running goroutine that ends never closes a closed channel. *)
Lemma group_done_runs g n :
  group_runs g (S n) -> exists g', group_done g = Ret g' /\ group_runs g' n.
Proof.
  intros [Ha Hi]. unfold group_done. rewrite Hi. cbn [Nat.eqb].
  destruct (Z.eqb_spec (active g - 1) 0); eexists; (split; [done|]); split; simpl; try lia;
    destruct n; simpl; try lia; done.
Qed.

(** A waiter on the current channel is released only when nothing runs. *)
Lemma group_released_idle g n :
  group_runs g n -> group_released g (group_captured g) = true -> n = 0.
Proof. intros [_ Hi]. unfold group_released, group_captured. rewrite Hi. lia. Qed.

(** * metric *)

Record metric := mkMetric {
  busyWorkers : Z;
  successTasks : Z;
  failureTasks : Z;
  submittedTasks : Z
}.

Definition NewMetric : metric := mkMetric 0 0 0 0.

Definition IncBusyWorker (m : metric) : metric :=
  mkMetric (wrap_i64 (busyWorkers m + 1)) (successTasks m) (failureTasks m) (submittedTasks m).
(** [^int64(0)] is -1. *)
Definition DecBusyWorker (m : metric) : metric :=
  mkMetric (wrap_i64 (busyWorkers m + -1)) (successTasks m) (failureTasks m) (submittedTasks m).
Definition IncSuccessTask (m : metric) : metric :=
  mkMetric (busyWorkers m) (wrap_u64 (successTasks m + 1)) (failureTasks m) (submittedTasks m).
Definition IncFailureTask (m : metric) : metric :=
  mkMetric (busyWorkers m) (successTasks m) (wrap_u64 (failureTasks m + 1)) (submittedTasks m).
Definition IncSubmittedTask (m : metric) : metric :=
  mkMetric (busyWorkers m) (successTasks m) (failureTasks m) (wrap_u64 (submittedTasks m + 1)).

Definition BusyWorkers (m : metric) : Z := busyWorkers m.
Definition SuccessTasks (m : metric) : Z := successTasks m.
Definition FailureTasks (m : metric) : Z := failureTasks m.
Definition SubmittedTasks (m : metric) : Z := submittedTasks m.
Definition CompletedTasks (m : metric) : Z := wrap_u64 (successTasks m + failureTasks m).
