(* ===== verification/Scheduler.v ===== *)
(** The intake scheduler of [queue.go]: [schedule], [start], [UpdateWorkerCount],
    [CloseAdmission] and [Shutdown] as they interact through flags, one-token
    channels and the worker lifecycle.

    The goroutines are the scheduler, the requester it spawns (one at a time), the
    work wrappers, the one caller that runs the body of [CloseAdmission], and any
    number of callers of [schedule]. Every step is one atomic access of the source
    (the end of a goroutine goes with the access before it); work wrappers, which
    differ in nothing the scheduler sees, are counted by the point they have
    reached. The worker is a parameter: each event that runs
    [Request] carries its answer. [got] and [ran] record the tasks received and
    the tasks handed to wrappers. *)

From S2P Require Import Prelude GoStd Contract Control Status Protocol Desired Lifecycle Routine.

(** * Shared state *)

Record shared := mkShared {
  inMemory : bool;
  lifecycle : option WorkerLifecycle;
  workerCount : Z;
  activeWorkers : Z;
  stopFlag : bool;
  drainFlag : bool;
  quit : bool;
  drain : bool;
  ready : bool;
  notify : bool
}.

Definition with_lifecycle (q : shared) (l : option WorkerLifecycle) : shared :=
  mkShared (inMemory q) l (workerCount q) (activeWorkers q) (stopFlag q) (drainFlag q) (quit q)
    (drain q) (ready q) (notify q).
Definition with_workers (q : shared) (count busy : Z) : shared :=
  mkShared (inMemory q) (lifecycle q) count busy (stopFlag q) (drainFlag q) (quit q)
    (drain q) (ready q) (notify q).
Definition with_flags (q : shared) (stop_ drain_ : bool) : shared :=
  mkShared (inMemory q) (lifecycle q) (workerCount q) (activeWorkers q) stop_ drain_ (quit q)
    (drain q) (ready q) (notify q).
Definition with_closed (q : shared) (quit_ drain_ : bool) : shared :=
  mkShared (inMemory q) (lifecycle q) (workerCount q) (activeWorkers q) (stopFlag q) (drainFlag q)
    quit_ drain_ (ready q) (notify q).
Definition with_tokens (q : shared) (ready_ notify_ : bool) : shared :=
  mkShared (inMemory q) (lifecycle q) (workerCount q) (activeWorkers q) (stopFlag q) (drainFlag q)
    (quit q) (drain q) ready_ notify_.

Definition BusyWorkers_ (q : shared) : Z := activeWorkers q.

Definition hasWorkerCapacity (q : shared) : bool := (BusyWorkers_ q <? workerCount q)%Z.

(** The calls on [q.lifecycle], skipped when it is nil. *)
Definition lifecycle_begin (q : shared) : shared * bool :=
  (with_lifecycle q ((fun l => (BeginAdmission l).1) <$> lifecycle q),
   match lifecycle q with None => true | Some l => (BeginAdmission l).2 end).

Definition lifecycle_end (q : shared) : shared :=
  with_lifecycle q ((fun l => (EndAdmission l).1) <$> lifecycle q).

Definition lifecycle_promote (q : shared) : shared :=
  with_lifecycle q ((fun l => (PromoteAdmissionToJob l).1) <$> lifecycle q).

Definition lifecycle_endJob (q : shared) : shared :=
  with_lifecycle q ((fun l => (EndJob l).1) <$> lifecycle q).

(** * schedule, under [q.Lock] *)

Inductive schedule_pc :=
| ScDrain                      (* the drain test *)
| ScBusy                       (* BusyWorkers() >= workerCount *)
| ScBegin                      (* lifecycle.BeginAdmission *)
| ScSend (reserved : bool)     (* the select on ready *)
| ScEnd                        (* EndAdmission of the default branch *)
| ScReturn.

Definition schedule_step (q : shared) (p : schedule_pc) : shared * schedule_pc :=
  match p with
  | ScDrain => (q, if drainFlag q && negb (inMemory q) then ScReturn else ScBusy)
  | ScBusy => (q, if (workerCount q <=? BusyWorkers_ q)%Z then ScReturn else ScBegin)
  | ScBegin =>
      match lifecycle q with
      | None => (q, ScSend false)
      | Some _ => let '(q, ok) := lifecycle_begin q in (q, if ok then ScSend true else ScReturn)
      end
  | ScSend reserved =>
      if ready q then (q, if reserved then ScEnd else ScReturn)
      else (with_tokens q true (notify q), ScReturn)
  | ScEnd => (lifecycle_end q, ScReturn)
  | ScReturn => (q, ScReturn)
  end.

(** * The goroutines of [start] *)

Inductive scheduler_pc :=
| SIdle                        (* not started *)
| SLoop                        (* about to call schedule *)
| SCalling                     (* inside schedule *)
| SSelect
| STaken                       (* received from ready *)
| SCapacity
| STasks                       (* a requester runs; receive from tasks *)
| SDone.

(** What [Request] can return: a task or nil, and an error or nil. *)
Inductive request_error := NoError | NoTaskInQueue | OtherError.

Inductive requester_pc :=
| RRequest
| RAnswer (t : option nat) (err : request_error)      (* lifecycle accounting *)
| RHave (t : nat) (err : request_error)
| RHaveWait (t : nat)
| RSend (t : option nat)
| REmpty (err : request_error)
| REmptyWait (err : request_error)
| RDrain (err : request_error)
| RBegin (err : request_error)
| RQuit (err : request_error).

Inductive tasks_chan := TEmpty | TFull (t : option nat) | TClosed.

(** Which ready channel a select picks. *)
Inductive pick := PickReady | PickQuit | PickDrain | PickTicker | PickNotify.

(** The selects that wait out a [Request] error. *)
Definition wait_step (q : shared) (c : pick) : option shared :=
  match c with
  | PickQuit => if quit q then Some q else None
  | PickTicker => Some q
  | PickNotify => if notify q then Some (with_tokens q (ready q) false) else None
  | PickDrain => if drain q then Some q else None
  | PickReady => None
  end.

Definition no_error (e : request_error) : bool :=
  match e with NoError => true | _ => false end.
Definition is_no_task (e : request_error) : bool :=
  match e with NoTaskInQueue => true | _ => false end.

(** The next step of the requester: it goes on, or ends having sent or closed. *)
Inductive requester_next :=
| RGo (p : requester_pc)
| RSent (t : option nat)
| RClosed.

Definition requester_step (q : shared) (answer : option nat * request_error) (c : pick)
    (p : requester_pc) : option (shared * requester_next) :=
  match p with
  | RRequest => Some (q, RGo (RAnswer answer.1 answer.2))
  | RAnswer None err => Some (lifecycle_end q, RGo (REmpty err))
  | RAnswer (Some t) err => Some (lifecycle_promote q, RGo (RHave t err))
  | RHave t err =>
      Some (q, RGo (if negb (no_error err) && negb (drainFlag q) then RHaveWait t
                    else RSend (Some t)))
  | RHaveWait t => q' ← wait_step q c; Some (q', RGo (RSend (Some t)))
  | RSend t => Some (q, RSent t)
  | REmpty err =>
      Some (q, RGo (if drainFlag q then RSend None
                    else if negb (no_error err) then REmptyWait err else RDrain err))
  | REmptyWait err => q' ← wait_step q c; Some (q', RGo (RDrain err))
  | RDrain err => Some (q, RGo (if drain q then RSend None else RBegin err))
  | RBegin err =>
      let '(q, ok) := lifecycle_begin q in
      Some (q, RGo (if ok then RQuit err else RSend None))
  | RQuit err =>
      if quit q && negb (is_no_task err) then Some (q, RClosed)
      else Some (q, RGo RRequest)
  end.

(** * CloseAdmission after its mutex section, run by one caller *)

Inductive closer_pc :=
| KNone
| KIntake                      (* the flag is set; next, stop the intake *)
| KRelease                     (* releaseReadyAdmission *)
| KEnd                         (* its EndAdmission *)
| KDone.

Definition closer_step (q : shared) (k : closer_pc) : option (shared * closer_pc) :=
  match k with
  | KNone => Some (with_flags q (stopFlag q) true, KIntake)
  | KIntake =>
      if inMemory q then Some (with_tokens q (ready q) true, KDone)
      else Some (with_closed q (quit q) true, KRelease)
  | KRelease =>
      if ready q
      then Some (with_tokens q false (notify q),
                 match lifecycle q with Some _ => KEnd | None => KDone end)
      else Some (q, KDone)
  | KEnd => Some (lifecycle_end q, KDone)
  | KDone => None
  end.

(** * The system *)

(** Who holds [q.Lock] inside [schedule]. *)
Inductive caller := ByScheduler | ByWork | ByOther.

Record system := mkSystem {
  sh : shared;
  lock : option (caller * schedule_pc);
  scheduler : scheduler_pc;
  requester : option requester_pc;
  tasks : tasks_chan;
  running : nat;               (* wrappers that hold a worker slot *)
  rescheduling : nat;          (* wrappers that have released their slot *)
  finishing : nat;             (* wrappers that have called schedule *)
  closer : closer_pc;
  group : routineGroup;
  got : list nat;
  ran : list nat;
  crashed : option string      (* a run-time panic of a queue goroutine *)
}.

Definition with_sh (s : system) (q : shared) : system :=
  mkSystem q (lock s) (scheduler s) (requester s) (tasks s) (running s) (rescheduling s)
    (finishing s) (closer s) (group s) (got s) (ran s) (crashed s).
Definition with_lock (s : system) (l : option (caller * schedule_pc)) : system :=
  mkSystem (sh s) l (scheduler s) (requester s) (tasks s) (running s) (rescheduling s)
    (finishing s) (closer s) (group s) (got s) (ran s) (crashed s).
Definition with_scheduler (s : system) (p : scheduler_pc) : system :=
  mkSystem (sh s) (lock s) p (requester s) (tasks s) (running s) (rescheduling s)
    (finishing s) (closer s) (group s) (got s) (ran s) (crashed s).
Definition with_requester (s : system) (r : option requester_pc) (t : tasks_chan) : system :=
  mkSystem (sh s) (lock s) (scheduler s) r t (running s) (rescheduling s)
    (finishing s) (closer s) (group s) (got s) (ran s) (crashed s).
Definition with_wrappers (s : system) (a b c : nat) : system :=
  mkSystem (sh s) (lock s) (scheduler s) (requester s) (tasks s) a b c (closer s) (group s)
    (got s) (ran s) (crashed s).
Definition with_closer (s : system) (k : closer_pc) : system :=
  mkSystem (sh s) (lock s) (scheduler s) (requester s) (tasks s) (running s) (rescheduling s)
    (finishing s) k (group s) (got s) (ran s) (crashed s).
Definition with_group (s : system) (g : routineGroup) : system :=
  mkSystem (sh s) (lock s) (scheduler s) (requester s) (tasks s) (running s) (rescheduling s)
    (finishing s) (closer s) g (got s) (ran s) (crashed s).
Definition with_history (s : system) (g r : list nat) : system :=
  mkSystem (sh s) (lock s) (scheduler s) (requester s) (tasks s) (running s) (rescheduling s)
    (finishing s) (closer s) (group s) g r (crashed s).

Definition crash (s : system) (why : string) : system :=
  mkSystem (sh s) (lock s) (scheduler s) (requester s) (tasks s) (running s) (rescheduling s)
    (finishing s) (closer s) (group s) (got s) (ran s) (Some why).

(** A goroutine of the group ends. *)
Definition group_end (s : system) : option system :=
  Some match group_done (group s) with Ret g => with_group s g | Panic why => crash s why end.

Inductive event :=
| EvStart
| EvScheduler (c : pick)
| EvCall                       (* the holder of q.Lock runs on *)
| EvRequester (answer : option nat * request_error) (c : pick)
| EvWorkDone                   (* a handler and its settlement finish *)
| EvWorkCall                   (* a wrapper enters schedule *)
| EvWorkEnd                    (* a wrapper ends *)
| EvSchedule                   (* another caller enters schedule *)
| EvUpdate (num : Z)
| EvClose                      (* the next step of CloseAdmission *)
| EvStop                       (* Shutdown sets its flag *)
| EvQuit                       (* Shutdown closes quit *)
| EvNotify                     (* a submission notifies *)
| EvTransition (st : string).  (* the lifecycle changes state *)

#[export] Instance pick_eq_dec : EqDecision pick.
Proof. solve_decision. Defined.
#[export] Instance request_error_eq_dec : EqDecision request_error.
Proof. solve_decision. Defined.
#[export] Instance event_eq_dec : EqDecision event.
Proof. solve_decision. Defined.

(** The scheduler goroutine. *)
Definition scheduler_step (s : system) (c : pick) : option system :=
  let q := sh s in
  match scheduler s with
  | SIdle | SCalling | SDone => None
  | SLoop =>
      match lock s with
      | Some _ => None
      | None => Some (with_lock (with_scheduler s SCalling) (Some (ByScheduler, ScDrain)))
      end
  | SSelect =>
      match c with
      | PickReady =>
          if ready q
          then Some (with_scheduler (with_sh s (with_tokens q false (notify q))) STaken)
          else None
      | PickQuit => if quit q then group_end (with_scheduler s SDone) else None
      | PickDrain => if drain q then group_end (with_scheduler s SDone) else None
      | _ => None
      end
  | STaken =>
      if drainFlag q && negb (inMemory q)
      then group_end (with_scheduler (with_sh s (lifecycle_end q)) SDone)
      else Some (with_scheduler s SCapacity)
  | SCapacity =>
      match lock s with
      | Some _ => None
      | None =>
          if negb (hasWorkerCapacity q)
          then Some (with_scheduler (with_sh s (lifecycle_end q)) SLoop)
          else Some (with_group (with_requester (with_scheduler s STasks) (Some RRequest) (tasks s))
                       (group_Run (group s)))
      end
  | STasks =>
      match tasks s with
      | TEmpty => None
      | TClosed => group_end (with_scheduler s SDone)
      | TFull None =>
          let s := with_requester s (requester s) TEmpty in
          if drainFlag q then group_end (with_scheduler s SDone)
          else Some (with_scheduler s SLoop)
      | TFull (Some t) =>
          let s := with_requester s (requester s) TEmpty in
          let s := with_sh s (with_workers q (workerCount q) (activeWorkers q + 1)%Z) in
          let s := with_wrappers s (S (running s)) (rescheduling s) (finishing s) in
          let s := with_group s (group_Run (group s)) in
          Some (with_scheduler (with_history s (got s) (ran s ++ [t])) SLoop)
      end
  end.

Definition step (s : system) (ev : event) : option system :=
  let q := sh s in
  match ev with
  | EvStart =>
      match scheduler s with
      | SIdle => if stopFlag q || (workerCount q =? 0)%Z then Some s
                 else Some (with_scheduler (with_group s (group_Run (group s))) SLoop)
      | _ => Some s
      end
  | EvScheduler c => scheduler_step s c
  | EvCall =>
      match lock s with
      | None => None
      | Some (who, ScReturn) =>
          let s := with_lock s None in
          Some match who with
               | ByScheduler => with_scheduler s SSelect
               | ByWork => with_wrappers s (running s) (rescheduling s) (S (finishing s))
               | ByOther => s
               end
      | Some (who, p) =>
          let '(q, p) := schedule_step q p in Some (with_lock (with_sh s q) (Some (who, p)))
      end
  | EvRequester answer c =>
      p ← requester s;
      '(q, next) ← requester_step q answer c p;
      let s := with_sh s q in
      let s := match p with
               | RRequest => with_history s (got s ++ from_option (fun t => [t]) [] answer.1) (ran s)
               | _ => s
               end in
      match next with
      | RGo p => Some (with_requester s (Some p) (tasks s))
      | RSent t =>
          match tasks s with
          | TEmpty => group_end (with_requester s None (TFull t))
          | TFull _ => None
          | TClosed => Some (crash s "send on closed channel")
          end
      | RClosed =>
          match tasks s with
          | TClosed => Some (crash s "close of closed channel")
          | _ => group_end (with_requester s None TClosed)
          end
      end
  | EvWorkDone =>
      match running s with
      | O => None
      | S n => Some (with_wrappers (with_sh s (with_workers q (workerCount q) (activeWorkers q - 1)%Z))
                       n (S (rescheduling s)) (finishing s))
      end
  | EvWorkCall =>
      match rescheduling s, lock s with
      | S n, None =>
          Some (with_lock (with_wrappers s (running s) n (finishing s)) (Some (ByWork, ScDrain)))
      | _, _ => None
      end
  | EvWorkEnd =>
      match finishing s with
      | O => None
      | S n => group_end (with_wrappers (with_sh s (lifecycle_endJob q)) (running s)
                            (rescheduling s) n)
      end
  | EvSchedule =>
      match lock s with
      | Some _ => None
      | None => Some (with_lock s (Some (ByOther, ScDrain)))
      end
  | EvUpdate num =>
      match lock s with
      | Some _ => None
      | None => Some (with_sh s (with_workers q num (activeWorkers q)))
      end
  | EvClose =>
      '(q, k) ← closer_step q (closer s); Some (with_closer (with_sh s q) k)
  | EvStop => Some (with_sh s (with_flags q true (drainFlag q)))
  | EvQuit =>
      if stopFlag q && negb (quit q) then Some (with_sh s (with_closed q true (drain q))) else None
  | EvNotify => Some (with_sh s (with_tokens q (ready q) true))
  | EvTransition st =>
      match lifecycle q with
      | None => None
      | Some l => Some (with_sh s (with_lifecycle q (Some (transition_enter l st).1)))
      end
  end.

Fixpoint run (s : system) (evs : list event) : option system :=
  match evs with
  | [] => Some s
  | ev :: evs => s' ← step s ev; run s' evs
  end.

(** A queue as [NewQueue] makes it: the worker kind, its lifecycle, its workers. *)
Definition initial (mem : bool) (l : option WorkerLifecycle) (count : Z) : system :=
  mkSystem (mkShared mem l count 0 false false false false false false)
    None SIdle None TEmpty 0 0 0 KNone newRoutineGroup [] [] None.

(** Executions of a queue whose lifecycle is new and used by this queue alone. *)
Definition fresh (l : option WorkerLifecycle) : Prop :=
  match l with None => True | Some l => admissions l = 0%Z /\ jobs l = 0%Z end.

(** The work wrappers alive. *)
Definition in_schedule (s : system) : nat :=
  match lock s with Some (ByWork, _) => 1 | _ => 0 end.
Definition wrappers (s : system) : nat :=
  running s + rescheduling s + finishing s + in_schedule s.

(** Executions in which the 32-bit job counter is wide enough for the wrappers. *)
Inductive reachable : system -> Prop :=
| reach_initial mem l count : fresh l -> reachable (initial mem l count)
| reach_step s ev s' :
    reachable s -> step s ev = Some s' -> (Z.of_nat (wrappers s') < 2 ^ 32 - 1)%Z ->
    reachable s'.
