(* ===== verification/SchedulerSafety.v ===== *)
(** Theorems on the intake scheduler under every interleaving: dispatch is exactly
    once and in order, concurrency is bounded, no goroutine of the queue panics,
    the lifecycle's counters are balanced, and intake stops after admission is
    closed. *)

From S2P Require Import Prelude GoStd Contract Control Status Protocol Desired Lifecycle Routine.
From S2P Require Import Scheduler.

(** * The structural invariant *)

Definition alive (p : scheduler_pc) : nat := match p with SIdle | SDone => 0 | _ => 1 end.
Definition some {A} (o : option A) : nat := match o with Some _ => 1 | None => 0 end.

(** The task a requester, or the channel, carries to the scheduler. *)
Definition carried (r : option requester_pc) : list nat :=
  match r with
  | Some (RAnswer (Some t) _) | Some (RHave t _) | Some (RHaveWait t) | Some (RSend (Some t)) => [t]
  | _ => []
  end.
Definition buffered (t : tasks_chan) : list nat :=
  match t with TFull (Some t) => [t] | _ => [] end.

(** Where the requester and the channel can be, given the scheduler. *)
Definition shape (s : system) : Prop :=
  match scheduler s with
  | STasks => (is_Some (requester s) /\ tasks s = TEmpty) \/ (requester s = None /\ tasks s <> TEmpty)
  | SDone => requester s = None /\ (tasks s = TEmpty \/ tasks s = TClosed)
  | _ => requester s = None /\ tasks s = TEmpty
  end.

Definition sched_call (s : system) : bool :=
  match lock s with Some (ByScheduler, _) => true | _ => false end.

Record structure (s : system) : Prop := {
  st_crash : crashed s = None;
  st_shape : shape s;
  st_call : sched_call s = match scheduler s with SCalling => true | _ => false end;
  st_group : group_runs (group s) (alive (scheduler s) + some (requester s) + wrappers s);
  st_busy : activeWorkers (sh s) = Z.of_nat (running s);
  st_history : got s = ran s ++ carried (requester s) ++ buffered (tasks s);
  st_closed : tasks s = TClosed -> quit (sh s) = true
}.

(** Ends a goroutine: the group loses one member and nothing panics. *)
Lemma group_end_some s n s' :
  group_runs (group s) (S n) -> group_end s = Some s' ->
  exists g, s' = with_group s g /\ group_runs g n.
Proof.
  intros Hg H. destruct (group_done_runs _ _ Hg) as (g & Hd & Hr).
  unfold group_end in H. rewrite Hd in H. injection H as <-. eauto.
Qed.

(** The same number of goroutines, counted differently. *)
Ltac regroup :=
  match goal with
  | Hg : group_runs ?g ?a |- group_runs ?g ?b => 
      replace b with a by (unfold wrappers, in_schedule in *; simpl in *; lia); exact Hg
  end.

Ltac solve_structure :=
  split; simpl; try done; try (unfold shape; simpl; tauto);
  try (left; split; [eexists|]; reflexivity);
  try (by rewrite ?app_nil_r, <- ?app_assoc); try regroup; try lia.

Ltac group_ends H Hg g' Hg' :=
  eapply group_end_some in H as (g' & -> & Hg'); [|exact Hg].

Lemma structure_scheduler s c s' : structure s -> scheduler_step s c = Some s' -> structure s'.
Proof.
  intros [Hcr Hsh Hcall Hg Hb Hh Hcl] H. destruct s as [q lk sc rq tk r1 r2 r3 cl g gt rn cr].
  unfold scheduler_step, shape, sched_call, wrappers, in_schedule in *. simpl in *.
  destruct sc; try discriminate H; simpl in *.
  - destruct lk as [[who p]|]; [discriminate H|]. injection H as <-. solve_structure.
  - destruct Hsh as [-> ->]. destruct c; try discriminate H.
    + destruct (ready q); [|discriminate H]. injection H as <-. solve_structure.
    + destruct (quit q) eqn:Eq; [|discriminate H]. group_ends H Hg g' Hg'. solve_structure.
    + destruct (drain q) eqn:Eq; [|discriminate H]. group_ends H Hg g' Hg'. solve_structure.
  - destruct Hsh as [-> ->]. destruct (drainFlag q && negb (inMemory q)).
    + group_ends H Hg g' Hg'. solve_structure.
    + injection H as <-. solve_structure.
  - destruct Hsh as [-> ->]. destruct lk as [[who p]|]; [discriminate H|].
    destruct (negb (hasWorkerCapacity q)); injection H as <-.
    + solve_structure.
    + apply group_Run_runs in Hg. solve_structure.
  - destruct Hsh as [[[r ->] ->]|[-> Hne]]; [discriminate H|].
    destruct tk as [|[t|]|]; [done| | |].
    + injection H as <-. apply group_Run_runs in Hg. solve_structure.
    + destruct (drainFlag q).
      * group_ends H Hg g' Hg'. solve_structure.
      * injection H as <-. solve_structure.
    + group_ends H Hg g' Hg'. solve_structure.
Qed.

Lemma structure_requester s answer c s' :
  structure s -> step s (EvRequester answer c) = Some s' -> structure s'.
Proof.
  intros [Hcr Hsh Hcall Hg Hb Hh Hcl] H. destruct s as [q lk sc rq tk r1 r2 r3 cl g gt rn cr].
  unfold step, shape, sched_call, wrappers, in_schedule in *. simpl in *.
  destruct rq as [p|]; [|discriminate H].
  assert (sc = STasks /\ tk = TEmpty) as [-> ->].
  { destruct sc; try (by destruct Hsh). by destruct Hsh as [[_ ->]|[? _]]. }
  assert (Hwait : forall q', wait_step q c = Some q' ->
    activeWorkers q' = activeWorkers q /\ quit q' = quit q).
  { intros q' Hq. destruct c; simpl in Hq; repeat case_match; by simplify_eq. }
  destruct p as [|[t|] err|t err|t|t|err|err|err|err|err]; simpl in *.
  - injection H as <-. destruct answer as [[t|] err]; solve_structure; eauto;
      by rewrite Hh, !app_nil_r.
  - injection H as <-. solve_structure; eauto.
  - injection H as <-. solve_structure; eauto.
  - destruct (negb (no_error err) && negb (drainFlag q)); injection H as <-; solve_structure; eauto.
  - destruct (wait_step q c) as [q'|] eqn:Ew; [|discriminate H]. injection H as <-.
    destruct (Hwait _ eq_refl) as [Ha Hq]. solve_structure; eauto; try congruence.
  - group_ends H Hg g' Hg'. solve_structure; [by right|]. destruct t; by rewrite Hh, ?app_nil_r.
  - destruct (drainFlag q), (negb (no_error err)); injection H as <-; solve_structure; eauto.
  - destruct (wait_step q c) as [q'|] eqn:Ew; [|discriminate H]. injection H as <-.
    destruct (Hwait _ eq_refl) as [Ha Hq]. solve_structure; eauto; try congruence.
  - destruct (drain q); injection H as <-; solve_structure; eauto.
  - destruct (lifecycle q) as [l|]; [destruct (BeginAdmission l) as [l' []]|];
      simpl in H; injection H as <-; solve_structure; eauto.
  - destruct (quit q) eqn:Eq; simpl in H; [destruct (is_no_task err); simpl in H|].
    + injection H as <-. solve_structure; eauto.
    + group_ends H Hg g' Hg'. solve_structure; eauto. by right.
    + injection H as <-. solve_structure; eauto.
Qed.

(** A step of the holder of [q.Lock]: it returns, or runs on. *)
Lemma call_cases s s' :
  step s EvCall = Some s' ->
  exists who p, lock s = Some (who, p) /\
    ((p = ScReturn /\
      s' = match who with
           | ByScheduler => with_scheduler (with_lock s None) SSelect
           | ByWork => with_wrappers (with_lock s None) (running s) (rescheduling s) (S (finishing s))
           | ByOther => with_lock s None
           end) \/
     exists q' p', p <> ScReturn /\ schedule_step (sh s) p = (q', p') /\
       s' = with_lock (with_sh s q') (Some (who, p'))).
Proof.
  unfold step. destruct (lock s) as [[who p]|]; [|discriminate]. intros H.
  exists who, p. split; [done|].
  destruct p; [right..|left];
    try (destruct (schedule_step (sh s) _) as [q' p'] eqn:E; injection H as <-; by exists q', p').
  split; [done|]. by destruct who; injection H as <-.
Qed.

Lemma schedule_step_frame q p q' p' :
  schedule_step q p = (q', p') ->
  activeWorkers q' = activeWorkers q /\ quit q' = quit q /\ drainFlag q' = drainFlag q /\
  drain q' = drain q /\ inMemory q' = inMemory q /\ workerCount q' = workerCount q.
Proof. intros E. destruct p; simpl in E; repeat case_match; by simplify_eq. Qed.

Lemma structure_call s s' : structure s -> step s EvCall = Some s' -> structure s'.
Proof.
  intros [Hcr Hsh Hcall Hg Hb Hh Hcl] H. apply call_cases in H as (who & p & Hl & H).
  destruct s as [q lk sc rq tk r1 r2 r3 cl g gt rn cr].
  unfold shape, sched_call, wrappers, in_schedule in *. simpl in *. subst lk.
  destruct H as [[-> ->]|(q' & p' & Hnr & E & ->)].
  - destruct who; destruct sc; try discriminate Hcall; solve_structure.
  - apply schedule_step_frame in E as (Ha & Hq & _).
    destruct who; solve_structure; congruence.
Qed.

Lemma structure_step s ev s' : structure s -> step s ev = Some s' -> structure s'.
Proof.
  intros Hs H. destruct ev as [|c| |answer c| | | | |num| | | | |st].
  - destruct Hs as [Hcr Hsh Hcall Hg Hb Hh Hcl].
    destruct s as [q lk sc rq tk r1 r2 r3 cl g gt rn cr].
    unfold step, shape, sched_call, wrappers, in_schedule in *. simpl in *.
    destruct sc; try (injection H as <-; by split).
    destruct (stopFlag q || _); injection H as <-; [by split|].
    apply group_Run_runs in Hg. solve_structure.
  - by eapply structure_scheduler.
  - by eapply structure_call.
  - by eapply structure_requester.
  - destruct Hs as [Hcr Hsh Hcall Hg Hb Hh Hcl].
    destruct s as [q lk sc rq tk [|r1] r2 r3 cl g gt rn cr]; [discriminate H|].
    injection H as <-. unfold wrappers, in_schedule in *. simpl in *. solve_structure.
  - destruct Hs as [Hcr Hsh Hcall Hg Hb Hh Hcl].
    destruct s as [q [lk|] sc rq tk r1 [|r2] r3 cl g gt rn cr]; try discriminate H.
    injection H as <-. unfold sched_call, wrappers, in_schedule in *. simpl in *. solve_structure.
  - destruct Hs as [Hcr Hsh Hcall Hg Hb Hh Hcl].
    destruct s as [q lk sc rq tk r1 r2 [|r3] cl g gt rn cr]; [discriminate H|].
    unfold wrappers, in_schedule in *. simpl in *.
    assert (Hg1 : group_runs g (S (alive sc + some rq + (r1 + r2 + r3 +
      match lk with Some (ByWork, _) => 1 | _ => 0 end)))).
    { regroup. }
    group_ends H Hg1 g' Hg'. solve_structure.
  - destruct Hs as [Hcr Hsh Hcall Hg Hb Hh Hcl].
    destruct s as [q [lk|] sc rq tk r1 r2 r3 cl g gt rn cr]; [discriminate H|].
    injection H as <-. solve_structure.
  - destruct Hs as [Hcr Hsh Hcall Hg Hb Hh Hcl].
    destruct s as [q [lk|] sc rq tk r1 r2 r3 cl g gt rn cr]; [discriminate H|].
    injection H as <-. solve_structure.
  - unfold step in H. destruct (closer_step (sh s) (closer s)) as [[q k]|] eqn:E; [|discriminate H].
    injection H as <-. destruct Hs as [Hcr Hsh Hcall Hg Hb Hh Hcl].
    assert (activeWorkers q = activeWorkers (sh s) /\ quit q = quit (sh s)) as [Ha Hq].
    { destruct (closer s); simpl in E; repeat case_match; by simplify_eq. }
    solve_structure; congruence.
  - injection H as <-. destruct Hs as [Hcr Hsh Hcall Hg Hb Hh Hcl]. solve_structure.
  - unfold step in H. destruct (_ && _); [|discriminate H]. injection H as <-.
    destruct Hs as [Hcr Hsh Hcall Hg Hb Hh Hcl]. solve_structure.
  - injection H as <-. destruct Hs as [Hcr Hsh Hcall Hg Hb Hh Hcl]. solve_structure.
  - unfold step in H. destruct (lifecycle (sh s)); [|discriminate H]. injection H as <-.
    destruct Hs as [Hcr Hsh Hcall Hg Hb Hh Hcl]. solve_structure.
Qed.

Lemma reachable_structure s : reachable s -> structure s.
Proof.
  induction 1 as [mem l count Hl|s ev s' _ IH Hst _]; [|by eapply structure_step].
  by split.
Qed.

(** C1: Every task the worker hands out is executed once, in order. In every
    reachable state no goroutine of the queue has panicked, and the tasks
    received from the worker are exactly the tasks given to work wrappers, in
    the same order, followed by at most one in transit; nothing is in transit
    unless the scheduler is waiting for it, so a scheduler that has exited has
    lost nothing. *)
Theorem dispatch_exactly_once (s : system) :
  reachable s ->
  crashed s = None /\
  exists transit, got s = ran s ++ transit /\ (length transit <= 1)%nat /\
    (scheduler s <> STasks -> transit = []).
Proof.
  intros Hr. pose proof (reachable_structure _ Hr) as [Hcr Hsh _ _ _ Hh _]. split; [done|].
  exists (carried (requester s) ++ buffered (tasks s)). split; [done|]. unfold shape in Hsh.
  assert (Hc : forall r, (length (carried r) <= 1)%nat).
  { intros [[|[] ?|? ?|?|[]|?|?|?|?|?]|]; simpl; lia. }
  assert (Hb : forall t, (length (buffered t) <= 1)%nat) by (intros [|[]|]; simpl; lia).
  destruct (scheduler s).
  7: { rewrite length_app. split; [|done]. specialize (Hc (requester s)). specialize (Hb (tasks s)).
       destruct Hsh as [[_ ->]|[-> _]]; simpl in *; lia. }
  all: destruct Hsh as [-> Ht]; try (rewrite Ht; split; [simpl; lia|done]).
  destruct Ht as [->| ->]; (split; [simpl; lia|done]).
Qed.

(** C28: Waiting on the queue's goroutine group means what it says. When a waiter
    that captured the current idle channel is released, the scheduler is not
    running, no request is in progress, no work wrapper exists, and every task
    received from the worker has been executed. *)
Theorem wait_means_idle (s : system) :
  reachable s -> group_released (group s) (group_captured (group s)) = true ->
  (scheduler s = SIdle \/ scheduler s = SDone) /\ requester s = None /\ wrappers s = 0 /\
  got s = ran s.
Proof.
  intros Hr Hw. pose proof (reachable_structure _ Hr) as [_ Hsh _ Hg _ Hh _].
  apply (group_released_idle _ _ Hg) in Hw.
  assert (requester s = None) as Hn by (destruct (requester s); simpl in Hw; [lia|done]).
  assert (scheduler s = SIdle \/ scheduler s = SDone) as Hs.
  { destruct (scheduler s); simpl in Hw; try lia; auto. }
  split_and!; try done; [lia|]. rewrite Hh, Hn. unfold shape in Hsh. rewrite Hn in Hsh.
  simpl. destruct Hs as [E|E]; rewrite E in Hsh.
  - destruct Hsh as [_ ->]. by rewrite app_nil_r.
  - destruct Hsh as [_ [->| ->]]; by rewrite app_nil_r.
Qed.

(** * Bounded concurrency *)

Definition update_le (bound : Z) (ev : event) : Prop :=
  match ev with EvUpdate num => (num <= bound)%Z | _ => True end.

Definition below (bound : Z) (s : system) : Prop :=
  (workerCount (sh s) <= bound)%Z /\ (activeWorkers (sh s) <= bound)%Z /\
  (scheduler s = STasks -> (activeWorkers (sh s) < bound)%Z).

(** Steps that leave the worker counts and stay away from [STasks] or in it. *)
Lemma below_same bound s s' :
  below bound s -> workerCount (sh s') = workerCount (sh s) ->
  activeWorkers (sh s') = activeWorkers (sh s) ->
  (scheduler s' = STasks -> scheduler s = STasks) -> below bound s'.
Proof. unfold below. intros (? & ? & ?) -> -> Hs. split_and!; auto. Qed.

Lemma group_end_same s s' :
  group_end s = Some s' ->
  sh s' = sh s /\ scheduler s' = scheduler s /\ tasks s' = tasks s /\ requester s' = requester s /\
  lock s' = lock s /\ closer s' = closer s /\ running s' = running s /\
  rescheduling s' = rescheduling s /\ finishing s' = finishing s.
Proof. unfold group_end. destruct (group_done (group s)); by intros [= <-]. Qed.

Lemma below_scheduler bound s c s' :
  below bound s -> scheduler_step s c = Some s' -> below bound s'.
Proof.
  intros Hb H. unfold scheduler_step in H. destruct (scheduler s) eqn:Es; try discriminate H.
  - destruct (lock s); [discriminate H|]. injection H as <-. by apply (below_same _ s).
  - destruct c; try discriminate H; case_test; try discriminate H.
    + injection H as <-. by apply (below_same _ s).
    + apply group_end_same in H as (E1 & E2 & _). apply (below_same _ s); rewrite ?E1, ?E2; done.
    + apply group_end_same in H as (E1 & E2 & _). apply (below_same _ s); rewrite ?E1, ?E2; done.
  - case_test.
    + apply group_end_same in H as (E1 & E2 & _). apply (below_same _ s); rewrite ?E1, ?E2; done.
    + injection H as <-. by apply (below_same _ s).
  - destruct (lock s); [discriminate H|]. unfold hasWorkerCapacity, BusyWorkers_ in H. case_test.
    + injection H as <-. by apply (below_same _ s).
    + injection H as <-. unfold below in *. simpl. lia.
  - destruct Hb as (H1 & H2 & H3). specialize (H3 Es).
    destruct (tasks s) as [|[t|]|]; [discriminate H| | |].
    + injection H as <-. unfold below. simpl. split_and!; try done. lia.
    + case_test; [|injection H as <-; by split_and!].
      apply group_end_same in H as (E1 & E2 & _). unfold below. rewrite E1, E2. by split_and!.
    + apply group_end_same in H as (E1 & E2 & _). unfold below. rewrite E1, E2. by split_and!.
Qed.

(** The requester never touches the worker counts or the scheduler. *)
Lemma requester_frame q answer c p q' next :
  requester_step q answer c p = Some (q', next) ->
  workerCount q' = workerCount q /\ activeWorkers q' = activeWorkers q /\
  drainFlag q' = drainFlag q /\ drain q' = drain q /\ inMemory q' = inMemory q /\
  quit q' = quit q /\ ready q' = ready q.
Proof.
  assert (Hw : forall x, wait_step q c = Some x ->
    workerCount x = workerCount q /\ activeWorkers x = activeWorkers q /\
    drainFlag x = drainFlag q /\ drain x = drain q /\ inMemory x = inMemory q /\
    quit x = quit q /\ ready x = ready q).
  { intros x Hx. destruct c; simpl in Hx; repeat case_match; by simplify_eq. }
  intros H. destruct p as [|[] ?|? ?|?|?|?|?|?|?|?]; simpl in H; try (by injection H as <- <-).
  - destruct (wait_step q c) eqn:E; [|discriminate H]. injection H as <- <-. by apply Hw.
  - destruct (wait_step q c) eqn:E; [|discriminate H]. injection H as <- <-. by apply Hw.
  - by case_test; injection H as <- <-.
Qed.

Lemma requester_event s answer c s' :
  step s (EvRequester answer c) = Some s' ->
  exists p q' next, requester s = Some p /\ requester_step (sh s) answer c p = Some (q', next) /\
    sh s' = q' /\ scheduler s' = scheduler s /\ lock s' = lock s /\ closer s' = closer s /\
    running s' = running s /\ rescheduling s' = rescheduling s /\ finishing s' = finishing s /\
    (crashed s' = None ->
     match next with
     | RGo p' => requester s' = Some p' /\ tasks s' = tasks s
     | RSent t => requester s' = None /\ tasks s' = TFull t
     | RClosed => requester s' = None /\ tasks s' = TClosed
     end).
Proof.
  intros H. unfold step in H. destruct (requester s) as [p|]; [|discriminate H]. simpl in H.
  destruct (requester_step (sh s) answer c p) as [[q' next]|] eqn:E; [|discriminate H]. simpl in H.
  exists p, q', next. split; [done|]. split; [done|].
  set (s1 := match p with RRequest => _ | _ => _ end) in H.
  assert (Hs1 : sh s1 = q' /\ scheduler s1 = scheduler s /\ lock s1 = lock s /\
    closer s1 = closer s /\ running s1 = running s /\ rescheduling s1 = rescheduling s /\
    finishing s1 = finishing s /\ tasks s1 = tasks s) by (by destruct p).
  destruct Hs1 as (E1 & E2 & E3 & E4 & E5 & E6 & E7 & E8). clearbody s1.
  destruct next as [p'|t|].
  - injection H as <-. simpl. by split_and!.
  - destruct (tasks s1); [|discriminate H|injection H as <-; simpl; by split_and!].
    apply group_end_same in H as (F1 & F2 & F3 & F4 & F5 & F6 & F7 & F8 & F9).
    rewrite F1, F2, F3, F4, F5, F6, F7, F8, F9. simpl. by split_and!.
  - destruct (tasks s1); try (injection H as <-; simpl; by split_and!);
      apply group_end_same in H as (F1 & F2 & F3 & F4 & F5 & F6 & F7 & F8 & F9);
      rewrite F1, F2, F3, F4, F5, F6, F7, F8, F9; simpl; by split_and!.
Qed.

(** One step keeps the bound. *)
Lemma below_step bound s ev s' :
  below bound s -> update_le bound ev -> step s ev = Some s' -> below bound s'.
Proof.
  intros Hb Hu H. destruct ev as [|c| |answer c| | | | |num| | | | |st].
  - unfold step in H. destruct (scheduler s) eqn:Es; try (by injection H as <-).
    case_test; injection H as <-; [done|]. by apply (below_same _ s).
  - by eapply below_scheduler.
  - apply call_cases in H as (who & p & Hl & [[-> ->]|(q' & p' & Hnr & E & ->)]).
    + destruct who; by apply (below_same _ s).
    + apply schedule_step_frame in E as (Ha & _ & _ & _ & _ & Hc). by apply (below_same _ s).
  - apply requester_event in H as (p & q' & next & _ & E & Hq & Hs & _).
    apply requester_frame in E as (Hc & Ha & _).
    apply (below_same _ s); rewrite ?Hq, ?Hs; done.
  - unfold step in H. destruct (running s); [discriminate H|]. injection H as <-.
    destruct Hb as (? & ? & H3). split_and!; simpl; lia.
  - unfold step in H. destruct (rescheduling s), (lock s); try discriminate H. injection H as <-.
    by apply (below_same _ s).
  - unfold step in H. destruct (finishing s); [discriminate H|].
    apply group_end_same in H as (E1 & E2 & _). apply (below_same _ s); rewrite ?E1, ?E2; done.
  - unfold step in H. destruct (lock s); [discriminate H|]. injection H as <-.
    by apply (below_same _ s).
  - unfold step in H. destruct (lock s); [discriminate H|]. injection H as <-.
    destruct Hb as (? & ? & H3). by split_and!.
  - unfold step in H. destruct (closer_step (sh s) (closer s)) as [[q k]|] eqn:E; [|discriminate H].
    injection H as <-. apply (below_same _ s); try done;
      destruct (closer s); simpl in E; repeat case_match; by simplify_eq.
  - injection H as <-. by apply (below_same _ s).
  - unfold step in H. destruct (_ && _); [|discriminate H]. injection H as <-.
    by apply (below_same _ s).
  - injection H as <-. by apply (below_same _ s).
  - unfold step in H. destruct (lifecycle (sh s)); [|discriminate H]. injection H as <-.
    by apply (below_same _ s).
Qed.

(** C23: Concurrency never exceeds the configured number of workers. Starting from
    a new queue, if the worker count and every later update of it stay at or below
    a bound, then however calls of [schedule], requests, completions and updates
    interleave, the number of work wrappers that hold a worker slot, from dispatch
    to the end of their handler, never exceeds that bound. *)
Theorem concurrency_bounded (mem : bool) (l : option WorkerLifecycle) (count bound : Z)
    (evs : list event) (s : system) :
  (0 <= bound)%Z -> (count <= bound)%Z -> Forall (update_le bound) evs ->
  run (initial mem l count) evs = Some s ->
  (Z.of_nat (running s) <= bound)%Z.
Proof.
  intros Hb Hc Hu Hrun.
  enough (below bound s /\ structure s) as [(_ & Ha & _) Hst].
  { by rewrite <- (st_busy _ Hst). }
  assert (H0 : below bound (initial mem l count) /\ structure (initial mem l count)).
  { split; [|by split]. by split_and!. }
  revert Hrun H0. generalize (initial mem l count). intros s0 Hrun H0. revert s0 Hrun H0.
  induction Hu as [|ev evs He _ IH]; intros s0 Hrun [H1 H2]; simpl in Hrun.
  - by injection Hrun as <-.
  - destruct (step s0 ev) as [s1|] eqn:E; [|done]. apply (IH s1 Hrun).
    split; [by eapply below_step|by eapply structure_step].
Qed.

Lemma concurrency_bounded_witness :
  exists s, run (initial true None 1)
      [EvStart; EvScheduler PickReady; EvCall; EvCall; EvCall; EvCall; EvCall;
       EvScheduler PickReady; EvScheduler PickReady; EvScheduler PickReady;
       EvRequester (Some 7, NoError) PickTicker; EvRequester (None, NoError) PickTicker;
       EvRequester (None, NoError) PickTicker; EvRequester (None, NoError) PickTicker;
       EvScheduler PickReady] = Some s /\ (Z.of_nat (running s) <= 1)%Z.
Proof.
  eexists. split; [vm_compute; reflexivity|].
  refine (concurrency_bounded true None 1 1
      [EvStart; EvScheduler PickReady; EvCall; EvCall; EvCall; EvCall; EvCall;
       EvScheduler PickReady; EvScheduler PickReady; EvScheduler PickReady;
       EvRequester (Some 7, NoError) PickTicker; EvRequester (None, NoError) PickTicker;
       EvRequester (None, NoError) PickTicker; EvRequester (None, NoError) PickTicker;
       EvScheduler PickReady] _ _ _ _ _); try discriminate.
  - repeat constructor.
  - vm_compute. reflexivity.
Defined.

(** * Concrete runs *)

(** A queue over an external worker whose request fails as the queue shuts down. *)
Definition shutdown_events : list event :=
  [EvStart; EvScheduler PickReady; EvCall; EvCall; EvCall; EvCall; EvCall;
   EvScheduler PickReady; EvScheduler PickReady; EvScheduler PickReady;
   EvRequester (None, OtherError) PickTicker; EvRequester (None, OtherError) PickTicker;
   EvRequester (None, OtherError) PickTicker; EvRequester (None, OtherError) PickTicker;
   EvRequester (None, OtherError) PickTicker; EvRequester (None, OtherError) PickTicker;
   EvStop; EvQuit; EvRequester (None, OtherError) PickTicker; EvScheduler PickReady].

Definition demo_lifecycle : WorkerLifecycle :=
  mkLifecycle (mkStatusMetadata "worker-1" "v1" 1 (mkVersion 1 0)) "group" "jobs" 1
    DesiredActive 0 0 false 0 ∅ ∅.

(** Runs with few wrappers are executions. *)
Fixpoint run_few (s : system) (evs : list event) : option system :=
  match evs with
  | [] => Some s
  | ev :: evs =>
      s' ← step s ev;
      if (wrappers s' <? 1000)%nat then run_few s' evs else None
  end.

Lemma run_few_reachable s evs s' :
  reachable s -> run_few s evs = Some s' -> reachable s' /\ run s evs = Some s'.
Proof.
  revert s. induction evs as [|ev evs IH]; intros s Hr H; simpl in H; [by injection H as <-|].
  destruct (step s ev) as [s1|] eqn:E; [|done]. simpl in H. case_test; [|done].
  simpl. rewrite E. simpl. apply IH; [|done].
  eapply reach_step; [done|exact E|]. apply Nat.ltb_lt in E0. lia.
Qed.

Definition shutdown_state : system :=
  default (initial false None 0) (run_few (initial false (Some demo_lifecycle) 1) shutdown_events).

Lemma shutdown_state_reachable :
  reachable shutdown_state /\
  run (initial false (Some demo_lifecycle) 1) shutdown_events = Some shutdown_state.
Proof.
  apply (run_few_reachable (initial false (Some demo_lifecycle) 1) shutdown_events shutdown_state).
  - by apply (reach_initial false (Some demo_lifecycle) 1).
  - vm_compute. reflexivity.
Qed.

Lemma shutdown_state_ended :
  tasks shutdown_state = TClosed /\ requester shutdown_state = None /\
  scheduler shutdown_state = SDone /\ wrappers shutdown_state = 0.
Proof. vm_compute. split_and!; reflexivity. Qed.

Lemma dispatch_exactly_once_witness : crashed shutdown_state = None.
Proof. exact (proj1 (dispatch_exactly_once shutdown_state (proj1 shutdown_state_reachable))). Defined.

Lemma wait_means_idle_witness : wrappers shutdown_state = 0 /\ got shutdown_state = ran shutdown_state.
Proof.
  destruct (wait_means_idle shutdown_state (proj1 shutdown_state_reachable)) as (_ & _ & Hw & Hg).
  - vm_compute. reflexivity.
  - split; [exact Hw|exact Hg].
Defined.
