(* ===== verification/SchedulerLifecycle.v ===== *)
(** How the scheduler uses the worker lifecycle: every admission and job it
    reserves is accounted for, what the shutdown path leaves behind, and the end
    of intake after admission is closed. *)

From S2P Require Import Prelude GoStd Contract Control Status Protocol Desired Lifecycle Routine.
From S2P Require Import Scheduler SchedulerSafety.

(** * Reservations *)

(** Each of these holds one lifecycle admission: a token in [ready], a call of
    [schedule] past [BeginAdmission], the scheduler between taking a token and
    spawning, the requester before it learns its answer, and
    [releaseReadyAdmission]. A requester that closes [tasks] keeps the one it has. *)
Definition res_call (l : option (caller * schedule_pc)) : nat :=
  match l with Some (_, ScSend true) | Some (_, ScEnd) => 1 | _ => 0 end.
Definition res_scheduler (p : scheduler_pc) : nat :=
  match p with STaken | SCapacity => 1 | _ => 0 end.
Definition res_requester (r : option requester_pc) : nat :=
  match r with Some RRequest | Some (RAnswer _ _) | Some (RQuit _) => 1 | _ => 0 end.
Definition res_closer (k : closer_pc) : nat := match k with KEnd => 1 | _ => 0 end.
Definition abandoned (t : tasks_chan) : nat := match t with TClosed => 1 | _ => 0 end.

Definition reserved (s : system) : nat :=
  Nat.b2n (ready (sh s)) + res_call (lock s) + res_scheduler (scheduler s)
  + res_requester (requester s) + res_closer (closer s) + abandoned (tasks s).

(** A promoted task on its way to a wrapper. *)
Definition promoted (r : option requester_pc) : nat :=
  match r with
  | Some (RHave _ _) | Some (RHaveWait _) | Some (RSend (Some _)) => 1
  | _ => 0
  end.
Definition tracked (s : system) : nat :=
  promoted (requester s) + length (buffered (tasks s)) + wrappers s.

Definition balanced (s : system) : Prop :=
  match lifecycle (sh s) with
  | None => True
  | Some l =>
      admissions l = Z.of_nat (reserved s) /\ jobs l = Z.of_nat (tracked s) /\
      forall who, lock s <> Some (who, ScSend false)
  end.

Lemma wrap_small n : (0 <= n < 2 ^ 32)%Z -> wrap_u32 n = n.
Proof. intros. unfold wrap_u32. by apply Z.mod_small. Qed.

Lemma begin_counts l n :
  admissions l = Z.of_nat n -> (Z.of_nat n < 100)%Z ->
  admissions (BeginAdmission l).1 = Z.of_nat (n + Nat.b2n (BeginAdmission l).2) /\
  jobs (BeginAdmission l).1 = jobs l.
Proof.
  intros Ha Hn. unfold BeginAdmission. case_test; simpl; [split; [lia|done]|].
  rewrite wrap_small by lia. split; [lia|done].
Qed.

Lemma end_counts l n :
  admissions l = Z.of_nat (S n) -> (Z.of_nat n < 100)%Z ->
  admissions (EndAdmission l).1 = Z.of_nat n /\ jobs (EndAdmission l).1 = jobs l.
Proof.
  intros Ha Hn. unfold EndAdmission. destruct (Z.eqb_spec (admissions l) 0); [lia|]. simpl.
  rewrite wrap_small by lia. split; [lia|done].
Qed.

Lemma promote_counts l n m :
  admissions l = Z.of_nat (S n) -> jobs l = Z.of_nat m -> (Z.of_nat n < 100)%Z ->
  (Z.of_nat m < 2 ^ 32 - 1)%Z ->
  admissions (PromoteAdmissionToJob l).1 = Z.of_nat n /\
  jobs (PromoteAdmissionToJob l).1 = Z.of_nat (S m).
Proof.
  intros Ha Hj Hn Hm. unfold PromoteAdmissionToJob. destruct (Z.eqb_spec (admissions l) 0); [lia|].
  simpl. rewrite !wrap_small by lia. lia.
Qed.

Lemma endJob_counts l m :
  jobs l = Z.of_nat (S m) -> (Z.of_nat m < 2 ^ 32 - 1)%Z ->
  jobs (EndJob l).1 = Z.of_nat m /\ admissions (EndJob l).1 = admissions l.
Proof.
  intros Hj Hm. unfold EndJob. destruct (Z.eqb_spec (jobs l) 0); [lia|]. simpl.
  rewrite wrap_small by lia. split; [lia|done].
Qed.

Lemma transition_counts l st :
  admissions (transition_enter l st).1 = admissions l /\ jobs (transition_enter l st).1 = jobs l.
Proof. unfold transition_enter. by case_test. Qed.

Lemma reserved_small s : (Z.of_nat (reserved s) < 100)%Z.
Proof.
  assert (res_call (lock s) <= 1)%nat by (destruct (lock s) as [[? [| | |[]| |]]|]; simpl; lia).
  assert (res_scheduler (scheduler s) <= 1)%nat by (destruct (scheduler s); simpl; lia).
  assert (res_requester (requester s) <= 1)%nat by (destruct (requester s) as [[]|]; simpl; lia).
  assert (res_closer (closer s) <= 1)%nat by (destruct (closer s); simpl; lia).
  assert (abandoned (tasks s) <= 1)%nat by (destruct (tasks s); simpl; lia).
  unfold reserved. destruct (ready (sh s)); simpl; lia.
Qed.

(** A step that leaves the lifecycle and both counts alone. *)
Lemma balanced_same s s' :
  balanced s -> lifecycle (sh s') = lifecycle (sh s) -> reserved s' = reserved s ->
  tracked s' = tracked s -> (forall who, lock s' = Some (who, ScSend false) -> lifecycle (sh s) = None \/ lock s' = lock s) ->
  balanced s'.
Proof.
  unfold balanced. intros Hb -> -> -> Hl. destruct (lifecycle (sh s)); [|done].
  destruct Hb as (? & ? & Hn). split_and!; try done.
  intros who E. destruct (Hl _ E) as [|E']; [done|]. apply (Hn who). congruence.
Qed.

(** A step that ends an admission. *)
Lemma balanced_end s s' :
  balanced s -> lifecycle (sh s') = (fun l => (EndAdmission l).1) <$> lifecycle (sh s) ->
  reserved s = S (reserved s') -> tracked s' = tracked s ->
  (forall who, lock s' = Some (who, ScSend false) -> lock s' = lock s) -> balanced s'.
Proof.
  unfold balanced. intros Hb -> Hr Ht Hl. destruct (lifecycle (sh s)) as [l|]; [|done]. simpl.
  destruct Hb as (Ha & Hj & Hn). rewrite Hr in Ha.
  destruct (end_counts l (reserved s') Ha (reserved_small s')) as [-> ->]. rewrite Ht.
  split_and!; try done. intros who E. apply (Hn who). by rewrite <- (Hl who).
Qed.

(** A step that begins one, when the lifecycle allows it. *)
Lemma balanced_begin s s' :
  balanced s -> lifecycle (sh s') = (fun l => (BeginAdmission l).1) <$> lifecycle (sh s) ->
  (forall l, lifecycle (sh s) = Some l -> reserved s' = reserved s + Nat.b2n (BeginAdmission l).2) ->
  tracked s' = tracked s ->
  (forall who, lock s' = Some (who, ScSend false) -> lock s' = lock s) -> balanced s'.
Proof.
  unfold balanced. intros Hb -> Hr Ht Hl. destruct (lifecycle (sh s)) as [l|]; [|done]. simpl.
  destruct Hb as (Ha & Hj & Hn). rewrite (Hr l eq_refl).
  destruct (begin_counts l (reserved s) Ha (reserved_small s)) as [-> ->]. rewrite Ht.
  split_and!; try done. intros who E. apply (Hn who). by rewrite <- (Hl who).
Qed.

Lemma balanced_group s s' : group_end s = Some s' -> balanced s -> balanced s'.
Proof.
  intros (E1 & E2 & E3 & E4 & E5 & E6 & E7 & E8 & E9)%group_end_same Hb.
  apply (balanced_same s); rewrite ?E1, ?E5; auto;
    unfold reserved, tracked, wrappers, in_schedule;
    by rewrite ?E1, ?E2, ?E3, ?E4, ?E5, ?E6, ?E7, ?E8, ?E9.
Qed.

Ltac counts := unfold reserved, tracked, wrappers, in_schedule in *; simpl in *; try lia.

Lemma balanced_scheduler s c s' :
  structure s -> balanced s -> scheduler_step s c = Some s' -> balanced s'.
Proof.
  intros [_ Hsh _ _ _ _ _] Hb H.
  destruct s as [q lk sc rq tk r1 r2 r3 cl g gt rn cr]. unfold scheduler_step, shape in *. simpl in *.
  destruct sc; try discriminate H; simpl in *.
  - destruct lk as [[who p]|]; [discriminate H|]. injection H as <-.
    eapply balanced_same; [exact Hb|done|counts|counts|]. simpl. congruence.
  - destruct c; try discriminate H; case_test; try discriminate H.
    + injection H as <-. eapply balanced_same; [exact Hb|done| |counts|by right].
      unfold reserved. simpl. rewrite E. simpl. lia.
    + apply (balanced_group _ _ H). eapply balanced_same; [exact Hb|done|counts|counts|by right].
    + apply (balanced_group _ _ H). eapply balanced_same; [exact Hb|done|counts|counts|by right].
  - case_test.
    + apply (balanced_group _ _ H). eapply balanced_end; [exact Hb|done|counts|counts|done].
    + injection H as <-. eapply balanced_same; [exact Hb|done|counts|counts|by right].
  - destruct Hsh as [-> ->]. destruct lk as [[who p]|]; [discriminate H|]. case_test; injection H as <-.
    + eapply balanced_end; [exact Hb|done|counts|counts|done].
    + eapply balanced_same; [exact Hb|done|counts|counts|by right].
  - destruct Hsh as [[[r ->] ->]|[-> Hne]]; [discriminate H|].
    destruct tk as [|[t|]|]; [done| | |].
    + injection H as <-. eapply balanced_same; [exact Hb|done|counts|counts|by right].
    + case_test.
      * apply (balanced_group _ _ H). eapply balanced_same; [exact Hb|done|counts|counts|by right].
      * injection H as <-. eapply balanced_same; [exact Hb|done|counts|counts|by right].
    + apply (balanced_group _ _ H). eapply balanced_same; [exact Hb|done|counts|counts|by right].
Qed.

Lemma balanced_call s s' : structure s -> balanced s -> step s EvCall = Some s' -> balanced s'.
Proof.
  intros [_ _ Hcall _ _ _ _] Hb H. apply call_cases in H as (who & p & Hl & H).
  destruct s as [q lk sc rq tk r1 r2 r3 cl g gt rn cr]. simpl in *. subst lk.
  destruct H as [[-> ->]|(q' & p' & Hnr & E & ->)].
  - unfold sched_call in Hcall. simpl in Hcall.
    destruct who, sc; try discriminate Hcall;
      (eapply balanced_same; [exact Hb|done|counts|counts|simpl; congruence]).
  - destruct p; simpl in E.
    + injection E as <- <-.
      eapply balanced_same; [exact Hb|done|counts; by case_test|counts; by destruct who|].
      simpl. by case_test.
    + injection E as <- <-.
      eapply balanced_same; [exact Hb|done|counts; by case_test|counts; by destruct who|].
      simpl. by case_test.
    + destruct (lifecycle q) as [l|] eqn:El.
      * injection E as <- <-. eapply balanced_begin; [exact Hb|by simpl; rewrite El| | |].
        -- simpl. rewrite El. intros l' [= <-]. unfold reserved. simpl.
           destruct (BeginAdmission l).2; simpl; lia.
        -- counts; by destruct who.
        -- simpl. intros who'. by case_test.
      * injection E as <- <-. unfold balanced. simpl. by rewrite El.
    + destruct (ready q) eqn:Er; injection E as <- <-.
      * destruct reserved0.
        -- eapply balanced_same; [exact Hb|done|counts|counts; by destruct who|]. simpl. congruence.
        -- unfold balanced in *. simpl in *. destruct (lifecycle q); [|done].
           destruct Hb as (? & ? & Hn). by destruct (Hn who).
      * destruct reserved0.
        -- eapply balanced_same; [exact Hb|done| |counts; by destruct who|simpl; congruence].
           unfold reserved. simpl. rewrite Er. simpl. lia.
        -- unfold balanced in *. simpl in *. destruct (lifecycle q); [|done].
           destruct Hb as (? & ? & Hn). by destruct (Hn who).
    + injection E as <- <-.
      eapply balanced_end; [exact Hb|done|counts|counts; by destruct who|]. simpl. congruence.
    + injection E as <- <-. done.
Qed.

Definition few (s : system) : Prop := (Z.of_nat (wrappers s) < 2 ^ 32 - 1)%Z.

(** The counts after a requester step, from its next position. *)
Ltac next_counts Hn Hres Ht :=
  let Hr := fresh "Hr" in let Hk := fresh "Hk'" in let R := fresh "R" in let T := fresh "T" in
  destruct Hn as [Hr Hk]; destruct (Hres _ _ Hr Hk) as [R T]; rewrite Ht in *.

(** The requester runs while the task channel is empty. *)
Lemma requester_channel s p : shape s -> requester s = Some p -> tasks s = TEmpty.
Proof.
  unfold shape. intros Hsh Hp. rewrite Hp in Hsh. destruct (scheduler s); try (by destruct Hsh).
  by destruct Hsh as [[_ ?]|[? _]].
Qed.

(** Promotion moves one reservation to a tracked job. *)
Lemma balanced_promote s s' l :
  few s -> balanced s -> lifecycle (sh s) = Some l -> lifecycle (sh s') = Some (PromoteAdmissionToJob l).1 ->
  tasks s = TEmpty -> promoted (requester s) = 0%nat -> reserved s = S (reserved s') ->
  tracked s' = S (tracked s) -> lock s' = lock s -> balanced s'.
Proof.
  unfold balanced. intros Hfew Hb El El' Ht Hp R T Hl. rewrite El in Hb. rewrite El', Hl.
  destruct Hb as (Ha & Hj & Hnl).
  destruct (promote_counts l (reserved s') (tracked s)) as [-> ->]; try (rewrite <- ?R; done).
  - pose proof (reserved_small s). lia.
  - unfold few in Hfew. unfold tracked. rewrite Hp, Ht. simpl. lia.
  - split_and!; [done|f_equal; lia|done].
Qed.

Lemma balanced_requester s answer c s' :
  structure s -> structure s' -> few s -> balanced s ->
  step s (EvRequester answer c) = Some s' -> balanced s'.
Proof.
  intros [_ Hsh _ _ _ _ _] [Hcr' _ _ _ _ _ _] Hfew Hb H.
  apply requester_event in H as (p & q' & next & Hp & E & Hq & Hs & Hl & Hk & H1 & H2 & H3 & Hn).
  specialize (Hn Hcr').
  pose proof (requester_channel _ _ Hsh Hp) as Ht.
  assert (Hw : wrappers s' = wrappers s) by (unfold wrappers, in_schedule; by rewrite H1, H2, H3, Hl).
  pose proof (requester_frame _ _ _ _ _ _ E) as (_ & _ & _ & _ & _ & _ & Hready).
  assert (Hres : forall r t, requester s' = r -> tasks s' = t ->
    reserved s' = (reserved s - res_requester (requester s) + res_requester r + abandoned t)%nat /\
    tracked s' = (tracked s - promoted (requester s) + promoted r + length (buffered t))%nat).
  { intros r t <- <-. unfold reserved, tracked. rewrite Hq, Hready, Hl, Hs, Hk, Hw, Ht. simpl.
    split; lia. }
  assert (Hsame : forall x, wait_step (sh s) c = Some x -> lifecycle x = lifecycle (sh s)).
  { intros x Hx. destruct c; simpl in Hx; repeat case_match; by simplify_eq. }
  assert (Hlk : forall who, lock s' = Some (who, ScSend false) -> lock s' = lock s) by (by rewrite Hl).
  assert (Hpos : (res_requester (requester s) <= reserved s)%nat) by (unfold reserved; lia).
  assert (Hpos' : (promoted (requester s) <= tracked s)%nat) by (unfold tracked; lia).
  rewrite Hp in Hres, Hpos, Hpos'.
  assert (Hkeep : lifecycle q' = lifecycle (sh s) -> reserved s' = reserved s ->
    tracked s' = tracked s -> balanced s').
  { intros Hql Hr Htr. apply (balanced_same s); try done; [by rewrite Hq|]. right. by eapply Hlk. }
  destruct p as [|[t|] err|t err|t|t|err|err|err|err|err]; simpl in E.
  - injection E as <- <-. next_counts Hn Hres Ht. apply Hkeep; simpl in *; try done; lia.
  - injection E as <- <-. next_counts Hn Hres Ht.
    destruct (lifecycle (sh s)) as [l|] eqn:El; [|by unfold balanced; rewrite Hq; simpl; rewrite El].
    apply (balanced_promote s s' l); simpl in *; try done; try lia; [by rewrite Hq; simpl; rewrite El|by rewrite Hp].
  - injection E as <- <-. next_counts Hn Hres Ht.
    apply (balanced_end s); simpl in *; try done; try lia. by rewrite Hq.
  - injection E as <- <-. next_counts Hn Hres Ht. apply Hkeep; simpl in *; try done; case_test; simpl in *; lia.
  - destruct (wait_step (sh s) c) eqn:Ew; [|discriminate E]. injection E as <- <-.
    next_counts Hn Hres Ht. apply Hkeep; simpl in *; [by apply Hsame|lia|lia].
  - injection E as <- <-. destruct Hn as [Hr Hk']. destruct (Hres _ _ Hr Hk') as [R T].
    destruct t; simpl in *; apply Hkeep; try done; lia.
  - injection E as <- <-. next_counts Hn Hres Ht. apply Hkeep; simpl in *; try done; repeat case_test; simpl in *; lia.
  - destruct (wait_step (sh s) c) eqn:Ew; [|discriminate E]. injection E as <- <-.
    next_counts Hn Hres Ht. apply Hkeep; simpl in *; [by apply Hsame|lia|lia].
  - injection E as <- <-. next_counts Hn Hres Ht. apply Hkeep; simpl in *; try done; repeat case_test; simpl in *; lia.
  - injection E as <- <-. next_counts Hn Hres Ht.
    apply (balanced_begin s); simpl in *; try done; [by rewrite Hq| |].
    + intros l El. rewrite El in R. destruct (BeginAdmission l).2; simpl in *; lia.
    + case_test; simpl in *; lia.
  - case_test; injection E as <- <-; destruct Hn as [Hr Hk']; destruct (Hres _ _ Hr Hk') as [R T];
      rewrite ?Ht in *; apply Hkeep; simpl in *; try done; lia.
Qed.

(** At most one task is between the worker and its wrapper. *)
Lemma one_handed s : shape s -> (promoted (requester s) + length (buffered (tasks s)) <= 1)%nat.
Proof.
  unfold shape. intros Hsh. destruct (scheduler s); try (destruct Hsh as [-> ->]; simpl; lia).
  - destruct Hsh as [[[r ->] ->]|[-> _]]; [destruct r as [| | | |[]| | | | |]|destruct (tasks s) as [|[]|]]; simpl; lia.
  - destruct Hsh as [-> [->| ->]]; simpl; lia.
Qed.

Lemma balanced_finish s s' :
  structure s -> few s -> balanced s -> step s EvWorkEnd = Some s' -> balanced s'.
Proof.
  intros Hst Hfew Hb H.
  unfold step in H. destruct (finishing s) as [|n] eqn:E; [discriminate H|].
  apply (balanced_group _ _ H). unfold balanced in *. simpl.
  destruct (lifecycle (sh s)) as [l|]; [|done]. simpl. destruct Hb as (Ha & Hj & Hn).
  assert (Htr : tracked s = S (tracked s - 1)) by (unfold tracked, wrappers; lia).
  destruct (endJob_counts l (tracked s - 1)) as [-> ->].
  - lia.
  - destruct Hst as [_ Hsh _ _ _ _ _]. pose proof (one_handed _ Hsh). unfold few, tracked in *. lia.
  - split_and!; try done. f_equal. unfold tracked, wrappers, in_schedule in *. simpl in *. lia.
Qed.

Lemma balanced_closer s s' : balanced s -> step s EvClose = Some s' -> balanced s'.
Proof.
  intros Hb H.
  unfold step in H. destruct (closer_step (sh s) (closer s)) as [[q k]|] eqn:E; [|discriminate H].
  injection H as <-. destruct (closer s) eqn:Ek; simpl in E.
  - injection E as <- <-. apply (balanced_same s); auto. unfold reserved. simpl. by rewrite Ek.
  - case_test; injection E as <- <-; apply (balanced_same s); auto; unfold reserved; simpl; by rewrite Ek.
  - case_test; [|injection E as <- <-; apply (balanced_same s); auto; unfold reserved; simpl; by rewrite Ek].
    injection E as <- <-. destruct (lifecycle (sh s)) eqn:El.
    + apply (balanced_same s); auto. unfold reserved. simpl. rewrite Ek, E0. simpl. lia.
    + unfold balanced. simpl. by rewrite El.
  - injection E as <- <-. apply (balanced_end s); auto. unfold reserved. simpl. rewrite Ek. simpl. lia.
  - discriminate E.
Qed.

Lemma balanced_step s ev s' :
  structure s -> structure s' -> few s -> balanced s -> step s ev = Some s' -> balanced s'.
Proof.
  intros Hst Hst' Hfew Hb H. destruct ev as [|c| |answer c| | | | |num| | | | |st].
  - unfold step in H. destruct (scheduler s) eqn:Es; try (by injection H as <-).
    case_test; injection H as <-; [done|].
    apply (balanced_same s); auto. unfold reserved. simpl. by rewrite Es.
  - exact (balanced_scheduler s c s' Hst Hb H).
  - exact (balanced_call s s' Hst Hb H).
  - exact (balanced_requester s answer c s' Hst Hst' Hfew Hb H).
  - unfold step in H. destruct (running s) eqn:E; [discriminate H|]. injection H as <-.
    apply (balanced_same s); auto. counts.
  - unfold step in H. destruct (rescheduling s) eqn:E, (lock s) eqn:El; try discriminate H.
    injection H as <-. apply (balanced_same s); simpl; auto; try congruence.
    + unfold reserved. simpl. by rewrite El.
    + unfold tracked, wrappers, in_schedule. simpl. rewrite El. lia.
  - exact (balanced_finish s s' Hst Hfew Hb H).
  - unfold step in H. destruct (lock s) eqn:El; [discriminate H|]. injection H as <-.
    apply (balanced_same s); simpl; auto; try congruence.
    + unfold reserved. simpl. by rewrite El.
    + unfold tracked, wrappers, in_schedule. simpl. by rewrite El.
  - unfold step in H. destruct (lock s) eqn:El; [discriminate H|]. injection H as <-.
    by apply (balanced_same s); auto.
  - exact (balanced_closer s s' Hb H).
  - injection H as <-. by apply (balanced_same s); auto.
  - unfold step in H. destruct (_ && _); [|discriminate H]. injection H as <-.
    by apply (balanced_same s); auto.
  - injection H as <-. by apply (balanced_same s); auto.
  - unfold step in H. destruct (lifecycle (sh s)) as [l|] eqn:El; [|discriminate H]. injection H as <-.
    unfold balanced in *. simpl. rewrite El in Hb.
    by destruct (transition_counts l st) as [-> ->].
Qed.

Lemma reachable_balanced s : reachable s -> few s /\ balanced s.
Proof.
  induction 1 as [mem l count Hl|s ev s' Hr [IH1 IH2] Hst Hn].
  - split; [unfold few, wrappers, in_schedule; simpl; lia|]. unfold balanced. simpl. destruct l as [l|]; [|done].
    simpl in Hl. by destruct Hl as [-> ->].
  - split; [done|]. pose proof (reachable_structure _ Hr) as Hs.
    eapply balanced_step; eauto. by eapply structure_step.
Qed.

(** The lifecycle's counters are exactly the scheduler's reservations and the
    work in flight. In every reachable state of a managed queue the admission
    counter is the number of reservations held (tokens, calls, scheduler,
    requester) and the job counter is the number of promoted tasks and live work
    wrappers; until shutdown closes the queue no reservation is abandoned; and
    when the scheduler waits with no token, request or call outstanding, no
    admission is counted and the jobs are exactly the live wrappers, so a pause or
    drain can complete. *)
Theorem lifecycle_accounting_exact (s : system) (l : WorkerLifecycle) :
  reachable s -> lifecycle (sh s) = Some l ->
  admissions l = Z.of_nat (reserved s) /\ jobs l = Z.of_nat (tracked s) /\
  (quit (sh s) = false -> abandoned (tasks s) = 0) /\
  (scheduler s = SSelect -> lock s = None -> ready (sh s) = false -> closer s <> KEnd ->
   admissions l = 0%Z /\ jobs l = Z.of_nat (running s + rescheduling s + finishing s)).
Proof.
  intros Hr Hl. destruct (reachable_balanced _ Hr) as [_ Hb].
  pose proof (reachable_structure _ Hr) as [_ Hsh _ _ _ _ Hcl].
  unfold balanced in Hb. rewrite Hl in Hb. destruct Hb as (Ha & Hj & _).
  split_and!; try done.
  - intros Hq. destruct (tasks s); try done. by rewrite Hcl in Hq.
  - intros Hs Hlk Hrd Hk. unfold shape in Hsh. rewrite Hs in Hsh. destruct Hsh as [Hn Ht].
    rewrite Ha, Hj. unfold reserved, tracked, wrappers, in_schedule.
    rewrite Hs, Hlk, Hrd, Hn, Ht. destruct (closer s); simpl; try done; split; lia.
Qed.

(** * What shutdown abandons *)

Lemma abandoned_forever s ev s' :
  structure s -> tasks s = TClosed -> requester s = None -> scheduler s = SDone ->
  step s ev = Some s' -> tasks s' = TClosed /\ requester s' = None /\ scheduler s' = SDone.
Proof.
  intros [_ _ Hcall _ _ _ _] Ht Hn Hs H. unfold sched_call in Hcall. rewrite Hs in Hcall.
  destruct ev as [|c| |answer c| | | | |num| | | | |st]; unfold step in H.
  - rewrite Hs in H. by injection H as <-.
  - unfold scheduler_step in H. by rewrite Hs in H.
  - change (step s EvCall = Some s') in H.
    apply call_cases in H as (who & p & Hl & [[-> ->]|(q' & p' & _ & _ & ->)]); [|done].
    rewrite Hl in Hcall. by destruct who.
  - by rewrite Hn in H.
  - destruct (running s); [done|]. by injection H as <-.
  - destruct (rescheduling s), (lock s); try done. by injection H as <-.
  - destruct (finishing s); [done|]. by apply group_end_same in H as (_ & -> & -> & -> & _).
  - destruct (lock s); [done|]. by injection H as <-.
  - destruct (lock s); [done|]. by injection H as <-.
  - destruct (closer_step _ _) as [[q k]|]; [|done]. by injection H as <-.
  - by injection H as <-.
  - destruct (_ && _); [|done]. by injection H as <-.
  - by injection H as <-.
  - destruct (lifecycle (sh s)); [|done]. by injection H as <-.
Qed.

Lemma run_abandoned s evs s' :
  structure s -> tasks s = TClosed -> requester s = None -> scheduler s = SDone ->
  run s evs = Some s' -> tasks s' = TClosed.
Proof.
  revert s. induction evs as [|ev evs IH]; intros s Hst Ht Hn Hs H; simpl in H.
  { by injection H as <-. }
  destruct (step s ev) as [s1|] eqn:E; [|done].
  destruct (abandoned_forever _ _ _ Hst Ht Hn Hs E) as (? & ? & ?).
  apply (IH s1); try done. by eapply structure_step.
Qed.

(** C36: An admission is lost on shutdown. There is an execution of a managed queue
    over an external worker (one worker slot, a request that fails while
    [Shutdown] runs) after which every goroutine of the queue has ended and no
    work exists, yet the lifecycle counts one admission, and it counts one in
    every state of that queue that follows, so a later pause, drain or terminate
    request on that lifecycle cannot complete. The requester reserves the
    admission with [BeginAdmission] and then leaves through the [quit] branch
    without [EndAdmission]. *)
Theorem shutdown_abandons_admission :
  exists s, reachable s /\ run (initial false (Some demo_lifecycle) 1) shutdown_events = Some s /\
    group_runs (group s) 0 /\
    forall evs s' l, run s evs = Some s' -> reachable s' -> lifecycle (sh s') = Some l ->
      (1 <= admissions l)%Z /\ transitionCompleteLocked l DesiredTerminating = false.
Proof.
  destruct shutdown_state_reachable as [Hreach Hrun0].
  destruct shutdown_state_ended as (Ht & Hn & Hs & Hw).
  exists shutdown_state. split; [exact Hreach|]. split; [exact Hrun0|].
  pose proof (reachable_structure _ Hreach) as Hst. split.
  { pose proof (st_group _ Hst) as Hg. rewrite Hs, Hn, Hw in Hg. exact Hg. }
  intros evs s' l Hrun Hr' Hl. pose proof (run_abandoned _ _ _ Hst Ht Hn Hs Hrun) as Ht'.
  destruct (reachable_balanced _ Hr') as [_ Hb]. unfold balanced in Hb. rewrite Hl in Hb.
  destruct Hb as (Ha & _). unfold reserved in Ha. rewrite Ht' in Ha. simpl in Ha.
  split; [lia|]. unfold transitionCompleteLocked. simpl. apply andb_false_iff. left. lia.
Qed.

(** * Intake ends after admission is closed *)

(** The flag is set before the intake of an external worker is closed. *)
Definition drain_ordered (s : system) : Prop :=
  (closer s <> KNone -> drainFlag (sh s) = true) /\
  (drain (sh s) = true -> drainFlag (sh s) = true /\ inMemory (sh s) = false).

(** The fields of the shared state a step other than [EvClose] preserves. *)
Lemma step_drain s ev s' :
  step s ev = Some s' -> ev <> EvClose ->
  drainFlag (sh s') = drainFlag (sh s) /\ drain (sh s') = drain (sh s) /\
  inMemory (sh s') = inMemory (sh s) /\ closer s' = closer s.
Proof.
  intros H Hne. destruct ev as [|c| |answer c| | | | |num| | | | |st]; try done.
  - unfold step in H. destruct (scheduler s); try (by injection H as <-). case_test; by injection H as <-.
  - unfold step, scheduler_step in H. destruct (scheduler s); try discriminate H;
      repeat (case_match; try discriminate H);
      try (apply group_end_same in H as (-> & _ & _ & _ & _ & -> & _); done); by injection H as <-.
  - apply call_cases in H as (who & p & _ & [[-> ->]|(q' & p' & Hnr & E & ->)]); [by destruct who|].
    apply schedule_step_frame in E as (_ & _ & ? & ? & ? & _). done.
  - apply requester_event in H as (p & q' & next & _ & E & -> & _ & _ & -> & _).
    apply requester_frame in E as (_ & _ & ? & ? & ? & _). done.
  - unfold step in H. destruct (running s); [done|]. by injection H as <-.
  - unfold step in H. destruct (rescheduling s), (lock s); try done. by injection H as <-.
  - unfold step in H. destruct (finishing s); [done|].
    by apply group_end_same in H as (-> & _ & _ & _ & _ & -> & _).
  - unfold step in H. destruct (lock s); [done|]. by injection H as <-.
  - unfold step in H. destruct (lock s); [done|]. by injection H as <-.
  - by injection H as <-.
  - unfold step in H. destruct (_ && _); [|done]. by injection H as <-.
  - by injection H as <-.
  - unfold step in H. destruct (lifecycle (sh s)); [|done]. by injection H as <-.
Qed.

Lemma drain_ordered_step s ev s' : drain_ordered s -> step s ev = Some s' -> drain_ordered s'.
Proof.
  intros Hd H. destruct (decide (ev = EvClose)) as [->|Hne].
  - unfold step in H. destruct (closer_step (sh s) (closer s)) as [[q k]|] eqn:E; [|done].
    injection H as <-. destruct Hd as [H1 H2]. unfold drain_ordered. simpl.
    destruct (closer s); simpl in E; try discriminate E; repeat case_match; simplify_eq; simpl;
      split; intros; split_and?; try done; try (by apply H1); by destruct H2.
  - destruct (step_drain _ _ _ H Hne) as (E1 & E2 & E3 & E4).
    unfold drain_ordered. by rewrite E1, E2, E3, E4.
Qed.

(** Steps left to the scheduler and its requester once intake is closed. *)
Definition call_rank (p : schedule_pc) : nat :=
  match p with
  | ScDrain => 5 | ScBusy => 4 | ScBegin => 3 | ScSend _ => 2 | ScEnd => 1 | ScReturn => 0
  end.

Definition requester_rank (p : requester_pc) : nat :=
  match p with
  | RBegin _ => 19 | RQuit _ => 18 | RRequest => 17 | RAnswer _ _ => 16 | REmpty _ => 15
  | REmptyWait _ | RHave _ _ => 14 | RDrain _ | RHaveWait _ => 13 | RSend _ => 12
  end.

Definition rank (s : system) : nat :=
  match scheduler s with
  | SIdle | SDone => 0
  | STaken => 1
  | SSelect => 2
  | SCalling => 3 + match lock s with Some (_, p) => call_rank p | None => 0 end
  | SLoop => 10
  | STasks =>
      match requester s with
      | Some p => requester_rank p
      | None => match tasks s with TFull (Some _) => 11 | _ => 1 end
      end
  | SCapacity => 20
  end.

(** The steps of the scheduler, its calls of [schedule] and its requester. *)
Definition intake_event (s : system) (ev : event) : bool :=
  match ev with
  | EvScheduler _ | EvRequester _ _ => true
  | EvCall => sched_call s
  | _ => false
  end.

Lemma rank_scheduler s c s' :
  structure s -> drainFlag (sh s) = true -> inMemory (sh s) = false ->
  scheduler_step s c = Some s' -> (rank s' < rank s)%nat.
Proof.
  intros [_ Hsh _ _ _ _ _] Hf Hm H. unfold scheduler_step, shape, rank in *.
  rewrite Hf, Hm in H. destruct (scheduler s) eqn:Es; try discriminate H.
  - destruct (lock s); [discriminate H|]. injection H as <-. simpl. lia.
  - destruct c; try discriminate H; case_test; try discriminate H;
      try (apply group_end_same in H as (_ & -> & _); simpl; lia).
    injection H as <-. simpl. lia.
  - apply group_end_same in H as (_ & -> & _). simpl. lia.
  - destruct (lock s); [discriminate H|]. case_test; injection H as <-; simpl; lia.
  - destruct Hsh as [[[r Hr] Ht]|[Hr Ht]]; [by rewrite Ht in H|]. rewrite Hr.
    destruct (tasks s) as [|[t|]|]; [done| | |].
    + injection H as <-. simpl. lia.
    + apply group_end_same in H as (_ & -> & _). simpl. lia.
    + apply group_end_same in H as (_ & -> & _). simpl. lia.
Qed.

Lemma rank_requester s answer c s' :
  structure s -> structure s' -> drainFlag (sh s) = true -> drain (sh s) = true ->
  step s (EvRequester answer c) = Some s' -> (rank s' < rank s)%nat.
Proof.
  intros [_ Hsh _ _ _ _ _] [Hcr _ _ _ _ _ _] Hf Hd H.
  apply requester_event in H as (p & q' & next & Hp & E & _ & Hs & _ & _ & _ & _ & _ & Hn).
  specialize (Hn Hcr). unfold rank, shape in *. rewrite Hs, Hp in *.
  destruct (scheduler s); try (by destruct Hsh).
  assert (Hnext : match next with
    | RGo p' => (requester_rank p' < requester_rank p)%nat
    | RSent _ | RClosed => (12 <= requester_rank p)%nat
    end).
  { destruct p as [|[] ?|? ?|?|?|?|?|?|?|?]; simpl in E; rewrite ?Hf, ?Hd in E;
      try (destruct (wait_step (sh s) c); [|discriminate E]);
      try (destruct (quit (sh s) && _)); simpl in E; injection E as <- <-; simpl; try lia;
      rewrite ?Hf, ?Hd; simpl; try lia; case_test; simpl; lia. }
  destruct next as [p'|[t|]|]; destruct Hn as [-> Ht]; rewrite ?Ht; lia.
Qed.

Lemma rank_call s s' :
  structure s -> sched_call s = true -> step s EvCall = Some s' -> (rank s' < rank s)%nat.
Proof.
  intros [_ _ Hcall _ _ _ _] Hsc H. unfold sched_call in *.
  apply call_cases in H as (who & p & Hl & H). unfold rank.
  rewrite Hl in *. destruct who; try discriminate Hsc.
  destruct (scheduler s) eqn:Es; try discriminate Hcall.
  destruct H as [[-> ->]|(q' & p' & Hnr & E & ->)]; simpl; [lia|]. rewrite Es.
  destruct p; simpl in E; repeat case_match; simplify_eq; simpl; lia.
Qed.

(** Other steps do not give the scheduler more to do. *)
Lemma rank_other s ev s' :
  structure s -> step s ev = Some s' -> intake_event s ev = false -> ev <> EvStart ->
  rank s' = rank s.
Proof.
  intros [_ _ Hcall _ _ _ _] H Hi Hne. unfold sched_call in Hcall.
  destruct ev as [|c| |answer c| | | | |num| | | | |st]; try done; unfold step in H.
  - change (step s EvCall = Some s') in H.
    apply call_cases in H as (who & p & Hl & H). simpl in Hi. unfold sched_call in Hi.
    unfold rank. rewrite Hl in *.
    destruct who; try discriminate Hi; destruct (scheduler s) eqn:Es; try discriminate Hcall;
      destruct H as [[-> ->]|(q' & p' & Hnr & E & ->)]; simpl; rewrite ?Es; done.
  - destruct (running s); [done|]. by injection H as <-.
  - destruct (rescheduling s), (lock s) eqn:El; try done. injection H as <-. unfold rank. simpl.
    by destruct (scheduler s).
  - destruct (finishing s); [done|].
    apply group_end_same in H as (_ & E2 & E3 & E4 & E5 & _). unfold rank. by rewrite E2, E3, E4, E5.
  - destruct (lock s) eqn:El; [done|]. injection H as <-. unfold rank. simpl. by destruct (scheduler s).
  - destruct (lock s) eqn:El; [done|]. by injection H as <-.
  - destruct (closer_step _ _) as [[q k]|]; [|done]. by injection H as <-.
  - by injection H as <-.
  - destruct (_ && _); [|done]. by injection H as <-.
  - by injection H as <-.
  - destruct (lifecycle (sh s)); [|done]. by injection H as <-.
Qed.

(** Closing admission ends intake. Once [CloseAdmission] has closed the intake
    of an external worker, the scheduler and its requester together take at most
    twenty more steps (one request in progress may still return and its task be
    dispatched): each of their steps lowers a measure that starts at twenty or
    less, and nothing else that runs, starting the scheduler excepted, raises it. *)
Theorem intake_ends_after_close (s s' : system) (ev : event) :
  reachable s -> drain (sh s) = true -> step s ev = Some s' ->
  (rank s <= 20)%nat /\
  (intake_event s ev = true -> (rank s' < rank s)%nat) /\
  (intake_event s ev = false -> ev <> EvStart -> rank s' = rank s).
Proof.
  intros Hr Hd H. pose proof (reachable_structure _ Hr) as Hst.
  assert (Hst' : structure s') by (by eapply structure_step).
  assert (Ho : drain_ordered s).
  { clear -Hr. induction Hr as [mem l count Hl|s ev s' _ IH Hs _]; [|by eapply drain_ordered_step].
    by split. }
  destruct (proj2 Ho Hd) as [Hf Hm]. split_and!.
  - unfold rank. destruct (scheduler s); try lia.
    + destruct (lock s) as [[? []]|]; simpl; lia.
    + destruct (requester s) as [[]|]; simpl; try lia. repeat case_match; lia.
  - intros Hi. destruct ev; try discriminate Hi.
    + exact (rank_scheduler s c s' Hst Hf Hm H).
    + exact (rank_call s s' Hst Hi H).
    + exact (rank_requester s answer c s' Hst Hst' Hf Hd H).
  - intros Hi Hne. by eapply rank_other.
Qed.

Lemma lifecycle_accounting_exact_witness :
  admissions (default demo_lifecycle (lifecycle (sh shutdown_state)))
  = Z.of_nat (reserved shutdown_state).
Proof.
  refine (proj1 (lifecycle_accounting_exact shutdown_state _ _ _)).
  - apply shutdown_state_reachable.
  - vm_compute. reflexivity.
Defined.

(** The same queue closing admission while a request is in progress. *)
Definition closing_events : list event :=
  [EvStart; EvScheduler PickReady; EvCall; EvCall; EvCall; EvCall; EvCall;
   EvScheduler PickReady; EvScheduler PickReady; EvScheduler PickReady; EvClose; EvClose].

Definition closing_state : system :=
  default (initial false None 0) (run_few (initial false (Some demo_lifecycle) 1) closing_events).

Lemma closing_state_reachable : reachable closing_state.
Proof.
  apply (run_few_reachable (initial false (Some demo_lifecycle) 1) closing_events closing_state).
  - by apply (reach_initial false (Some demo_lifecycle) 1).
  - vm_compute. reflexivity.
Qed.

Lemma intake_ends_after_close_witness :
  exists s', step closing_state (EvRequester (Some 3, NoError) PickTicker) = Some s' /\
    (rank s' < rank closing_state)%nat.
Proof.
  eexists. split; [vm_compute; reflexivity|].
  refine (proj1 (proj2 (intake_ends_after_close closing_state _
    (EvRequester (Some 3, NoError) PickTicker) closing_state_reachable _ _)) eq_refl).
  - vm_compute. reflexivity.
  - vm_compute. reflexivity.
Defined.
