(* ===== verification/Queue.v ===== *)
(** The queue's own interface ([queue.go], [options.go], [pool.go],
    [management_lifecycle.go]): construction, submission under the admission gate,
    graceful release, and the routing of management calls.

    The gate is the part of [Queue] that [admissionMu] protects. Submissions are
    counted by the gate while they are in progress; [CloseAdmission] and
    [Shutdown] run their mutex section once. *)

From S2P Require Import Prelude GoStd Sentinels Contract Control Status Protocol Desired Lifecycle Failure Job.
From S2P Require Import Execution.

Definition ErrMissingWorker : error := Sentinel "missing worker module".
Definition ErrInvalidManagementLifecycle : error := Sentinel "queue: invalid management lifecycle".
Definition ErrManagementLifecycleDisabled : error :=
  Sentinel "queue: management lifecycle disabled".

(** * Options

    Interfaces and functions are identified by a number; [None] is nil. *)

Module Config.

Inductive worker_kind := RingWorker (size : Z) | ExternalWorker (providesStatus : bool).

Record Options := mkOptions {
  workerCount : Z;
  logger : option nat;
  queueSize : Z;
  worker : option worker_kind;
  fn : option nat;
  afterFn : option nat;
  metric : option nat;
  observer : option nat;
  retryInterval : Z;
  lifecycleConfigured : bool;
  lifecycle : option nat
}.

(** The package's default logger, metric, observer and handler. *)
Definition builtin : nat := 0.

Definition defaultCapacity : Z := 10000.

(** An option is nil or a function on the options; a nil function does nothing. *)
Definition Option_ : Type := option (option (Options -> Options)).

Definition apply (o : Option_) (opts : Options) : Options :=
  match o with Some (Some f) => f opts | _ => opts end.

Section with_cpus.
Variable numCPU : Z.

Definition WithWorkerCount (num : Z) : Option_ :=
  Some (Some (fun o => mkOptions (if (num <=? 0)%Z then numCPU else num) (logger o) (queueSize o)
    (worker o) (fn o) (afterFn o) (metric o) (observer o) (retryInterval o)
    (lifecycleConfigured o) (lifecycle o))).
Definition WithQueueSize (num : Z) : Option_ :=
  Some (Some (fun o => mkOptions (workerCount o) (logger o) num (worker o) (fn o) (afterFn o)
    (metric o) (observer o) (retryInterval o) (lifecycleConfigured o) (lifecycle o))).
Definition WithLogger (l : option nat) : Option_ :=
  Some (Some (fun o => mkOptions (workerCount o) l (queueSize o) (worker o) (fn o) (afterFn o)
    (metric o) (observer o) (retryInterval o) (lifecycleConfigured o) (lifecycle o))).
Definition WithMetric (m : option nat) : Option_ :=
  Some (Some (fun o => mkOptions (workerCount o) (logger o) (queueSize o) (worker o) (fn o)
    (afterFn o) m (observer o) (retryInterval o) (lifecycleConfigured o) (lifecycle o))).
Definition WithObserver (x : option nat) : Option_ :=
  Some (Some (fun o => mkOptions (workerCount o) (logger o) (queueSize o) (worker o) (fn o)
    (afterFn o) (metric o) x (retryInterval o) (lifecycleConfigured o) (lifecycle o))).
Definition WithWorker (w : option worker_kind) : Option_ :=
  Some (Some (fun o => mkOptions (workerCount o) (logger o) (queueSize o) w (fn o) (afterFn o)
    (metric o) (observer o) (retryInterval o) (lifecycleConfigured o) (lifecycle o))).
Definition WithWorkerLifecycle (l : option nat) : Option_ :=
  Some (Some (fun o => mkOptions (workerCount o) (logger o) (queueSize o) (worker o) (fn o)
    (afterFn o) (metric o) (observer o) (retryInterval o) true l)).
Definition WithFn (f : option nat) : Option_ :=
  Some (Some (fun o => mkOptions (workerCount o) (logger o) (queueSize o) (worker o) f (afterFn o)
    (metric o) (observer o) (retryInterval o) (lifecycleConfigured o) (lifecycle o))).
Definition WithAfterFn (f : option nat) : Option_ :=
  Some (Some (fun o => mkOptions (workerCount o) (logger o) (queueSize o) (worker o) (fn o) f
    (metric o) (observer o) (retryInterval o) (lifecycleConfigured o) (lifecycle o))).
Definition WithRetryInterval (d : Z) : Option_ :=
  Some (Some (fun o => mkOptions (workerCount o) (logger o) (queueSize o) (worker o) (fn o)
    (afterFn o) (metric o) (observer o) d (lifecycleConfigured o) (lifecycle o))).

Definition defaults : Options :=
  mkOptions numCPU (Some builtin) defaultCapacity None (Some builtin) None (Some builtin)
    (Some builtin) Second false None.

Definition or_builtin (x : option nat) : option nat :=
  match x with None => Some builtin | Some _ => x end.

Definition NewOptions (opts : list Option_) : Options :=
  let o := fold_left (fun o opt => apply opt o) opts defaults in
  mkOptions (workerCount o) (or_builtin (logger o)) (queueSize o) (worker o) (or_builtin (fn o))
    (afterFn o) (or_builtin (metric o)) (or_builtin (observer o)) (retryInterval o)
    (lifecycleConfigured o) (lifecycle o).

Definition workerProvidesStatus (w : worker_kind) : bool :=
  match w with RingWorker _ => false | ExternalWorker s => s end.

(** The configuration a constructed queue retains. *)
Definition NewQueue (opts : list Option_) : error + Options :=
  let o := NewOptions opts in
  match worker o with
  | None => inl ErrMissingWorker
  | Some w =>
      if lifecycleConfigured o &&
         (bool_decide (lifecycle o = None) || negb (workerProvidesStatus w))
      then inl ErrInvalidManagementLifecycle
      else if (retryInterval o <=? 0)%Z
      then inl (Wrap "retry interval must be positive" ErrInvalidConfiguration)
      else if (queueSize o <? 0)%Z
      then inl (Wrap "queue size cannot be negative" ErrInvalidConfiguration)
      else inr o
  end.

(** [NewPool]: a Ring sized by the same options, unless they name a worker. *)
Definition NewPool (size : Z) (opts : list Option_) : go Options :=
  let ring := RingWorker (queueSize (NewOptions opts)) in
  match NewQueue ([WithWorkerCount size; WithWorker (Some ring)] ++ opts) with
  | inl _ => Panic "invalid pool configuration"
  | inr q => Ret q
  end.

End with_cpus.

End Config.

(** * The admission gate *)

Record gate := mkGate {
  stopFlag : bool;
  drainFlag : bool;
  admissions : Z;
  admissionsDone : option bool      (* nil, open or closed *)
}.

Definition newGate : gate := mkGate false false 0 None.

Definition beginAdmission (g : gate) : gate * bool :=
  if stopFlag g || drainFlag g then (g, false)
  else (mkGate (stopFlag g) (drainFlag g) (admissions g + 1) (admissionsDone g), true).

Definition endAdmission (g : gate) : go gate :=
  let a := (admissions g - 1)%Z in
  match admissionsDone g with
  | Some closed =>
      if (a =? 0)%Z then
        if closed then Panic "close of closed channel"
        else Ret (mkGate (stopFlag g) (drainFlag g) a (Some true))
      else Ret (mkGate (stopFlag g) (drainFlag g) a (Some closed))
  | None => Ret (mkGate (stopFlag g) (drainFlag g) a None)
  end.

(** The section [CloseAdmission] runs once. *)
Definition CloseAdmission_section (g : gate) : gate :=
  mkGate (stopFlag g) true (admissions g) (Some (admissions g =? 0)%Z).

(** The section [Shutdown] runs once. *)
Definition Shutdown_section (g : gate) : gate :=
  mkGate true (drainFlag g) (admissions g) (admissionsDone g).

(** * Submission *)

(** The middle of [queue], between admission and release: the worker's answer is
    an argument. *)
Definition queue_body (order : list (string * string) -> list (string * string)) (v : env)
    (m : Message) (workerQueue : go error) : list effect * go error :=
  let err := Message_Validate order m in
  if negb (is_nil err) then ([], Ret err)
  else match workerQueue with
       | Panic p => ([], Panic p)
       | Ret err =>
           if negb (is_nil err) then ([], Ret err)
           else (safeMetricUpdate v "increment submitted task count" ++
                 observe v (event_of EventEnqueued 0 ErrNil), Ret ErrNil)
       end.

(** [queue]; the token left in [notify] tells whether workers are woken. *)
Definition queue order (v : env) (g : gate) (m : Message) (workerQueue : go error)
    : go gate * list effect * go error * bool :=
  let '(g, ok) := beginAdmission g in
  if negb ok then (Ret g, [], Ret ErrQueueShutdown, false)
  else let '(tr, r) := queue_body order v m workerQueue in
       (endAdmission g, tr, r, match r with Ret ErrNil => true | _ => false end).

Definition Queue_ order v g (message : string) opts workerQueue :=
  queue order v g (NewMessage order message opts) workerQueue.
Definition QueueTask order v g (task : TaskFunc) opts workerQueue :=
  queue order v g (NewTask order task opts) workerQueue.

(** * Submissions, closing and shutdown in any order *)

Inductive gate_event := GBegin | GEnd | GClose | GStop.

(** The submissions in progress, and whether the section of [CloseAdmission] has
    run; a submission ends once for each beginning. *)
Record gate_system := mkGateSystem {
  the_gate : gate;
  inflight : nat;
  closed_once : bool
}.

Definition gate_step (s : gate_system) (ev : gate_event) : option (go gate_system) :=
  match ev with
  | GBegin =>
      let '(g, ok) := beginAdmission (the_gate s) in
      Some (Ret (mkGateSystem g (if ok then S (inflight s) else inflight s) (closed_once s)))
  | GEnd =>
      match inflight s with
      | O => None
      | S n => Some (match endAdmission (the_gate s) with
                     | Ret g => Ret (mkGateSystem g n (closed_once s))
                     | Panic p => Panic p
                     end)
      end
  | GClose =>
      Some (Ret (if closed_once s then s
                 else mkGateSystem (CloseAdmission_section (the_gate s)) (inflight s) true))
  | GStop => Some (Ret (mkGateSystem (Shutdown_section (the_gate s)) (inflight s) (closed_once s)))
  end.

Inductive gate_reachable : gate_system -> Prop :=
| gate_initial : gate_reachable (mkGateSystem newGate 0 false)
| gate_more s ev s' :
    gate_reachable s -> gate_step s ev = Some (Ret s') -> gate_reachable s'.

(** * Release *)

(** The order of [ReleaseContext]: close admission, wait for the accepted
    submissions, for the ring to empty and for the goroutines, then shut down.
    Each wait succeeds or ends with the context's error. *)
Record waits := mkWaits {
  w_admissions : error;
  w_ring : error;
  w_group : error;
  w_again : error
}.

Definition shutdownWorker (r : go error) : error :=
  match r with Ret err => err | Panic _ => ErrWorkerShutdownPanic end.

(** The steps a release takes, in order. *)
Inductive release_step := RStart | RCloseAdmission | RShutdownWorker | RCloseQuit.

Definition drainContext (inMemory started : bool) (w : waits) : list release_step * error :=
  let tr := (if inMemory && negb started then [RStart] else []) ++ [RCloseAdmission] in
  if negb (is_nil (w_admissions w)) then (tr, w_admissions w)
  else if inMemory && negb (is_nil (w_ring w)) then (tr, w_ring w)
  else (tr, w_group w).

(** [Shutdown], with the draining flag it reads; an in-memory worker that is
    draining has already stopped its intake. [cached] is the error kept by an
    earlier call, which makes this one do nothing. *)
Definition Shutdown (cached : option error) (inMemory draining : bool) (worker : go error)
    : list release_step * error :=
  match cached with
  | Some err => ([], err)
  | None =>
      if negb inMemory || negb draining
      then ([RShutdownWorker; RCloseQuit], shutdownWorker worker)
      else ([RCloseQuit], ErrNil)
  end.

Definition ReleaseContext (ctxNil : bool) (cached : option error) (inMemory started : bool)
    (w : waits) (worker : go error) : list release_step * error :=
  if ctxNil then ([], Sentinel Canceled)
  else let '(tr, err) := drainContext inMemory started w in
       if negb (is_nil err) then (tr, err)
       else let '(tr', shutdownErr) := Shutdown cached inMemory true worker in
            (tr ++ tr', errors_Join [shutdownErr; w_again w]).

(** [Release]: starts an unstarted in-memory queue, shuts down and joins. *)
Definition Release (cached : option error) (inMemory started draining : bool) (worker : go error)
    : list release_step * error :=
  let '(tr, shutdownErr) := Shutdown cached inMemory draining worker in
  ((if inMemory && negb started then [RStart] else []) ++ tr, shutdownErr).

(** * Management *)

Definition nativeMutationAction (action : string) : bool :=
  (action == CommandRetry) || (action == CommandBulkRetry) || (action == CommandDelete)
  || (action == CommandPurge) || (action == CommandReplay).

(** What a management call makes the queue do. *)
Inductive queue_action := DoSchedule | DoShutdown.

(** [controller] is the worker's own [Execute], if it has one; [lifecycle] is the
    lifecycle's. *)
Definition Execute (lifecycle : option (Command -> CommandResult * error))
    (controller : option (Command -> CommandResult * error)) (command : Command)
    : CommandResult * error * list queue_action :=
  match lifecycle with
  | None => (zeroResult, ErrManagementLifecycleDisabled, [])
  | Some run =>
      let own :=
        let '(result, err) := run command in
        if negb (is_nil err) then (zeroResult, err, [])
        else (result, ErrNil,
              if Control.Status result == CommandAcknowledged
              then if Action command == CommandResume then [DoSchedule]
                   else if Action command == CommandTerminate then [DoShutdown] else []
              else []) in
      if nativeMutationAction (Action command)
      then match controller with
           | Some f => let '(result, err) := f command in (result, err, [])
           | None => own
           end
      else own
  end.

(** [applied] is the lifecycle's [ApplyDesiredState] and [l] its state afterwards. *)
Definition ApplyDesiredState (managed : bool) (applied : error) (l : WorkerLifecycle)
    : error * list queue_action :=
  if negb managed then (ErrManagementLifecycleDisabled, [])
  else if negb (is_nil applied) then (applied, [])
  else let snapshot := Snapshot l in
       (ErrNil,
        if Terminating snapshot && (S_DrainStatus snapshot == DrainCompleted) then [DoShutdown]
        else if S_State snapshot == WorkerRunning then [DoSchedule] else []).

(** [provider] is the worker's [ObserveWorker]. *)
Definition ObserveWorker (l : option WorkerLifecycle) (provider : error + WorkerStatus)
    : error + WorkerStatus :=
  match l with
  | None => inl ErrManagementLifecycleDisabled
  | Some l => match provider with
              | inl err => inl err
              | inr status => DecorateWorkerStatus l status
              end
  end.

Definition ObserveQueue (managed : bool) (provider : error + QueueStatus) : error + QueueStatus :=
  if negb managed then inl ErrManagementLifecycleDisabled else provider.

(** * Proofs *)

(** The gate counts the submissions in progress, and once closed it tells exactly
    whether any is left. *)
Definition gate_ok (s : gate_system) : Prop :=
  admissions (the_gate s) = Z.of_nat (inflight s) /\
  drainFlag (the_gate s) = closed_once s /\
  admissionsDone (the_gate s) =
    if closed_once s then Some (inflight s =? 0)%nat else None.

Lemma gate_step_ok s ev r :
  gate_ok s -> gate_step s ev = Some r ->
  exists s', r = Ret s' /\ gate_ok s' /\
    (closed_once s = true -> closed_once s' = true /\ (inflight s' <= inflight s)%nat).
Proof.
  intros (Ha & Hd & Hn) H. destruct s as [[st dr a dn] n co]. unfold gate_ok. simpl in *. subst a dr dn.
  destruct ev; simpl in H.
  - unfold beginAdmission in H. simpl in H. destruct (st || co) eqn:E; injection H as <-;
      (eexists; split; [reflexivity|]); simpl; [by split_and!|].
    apply orb_false_iff in E as [-> ->]. split_and!; try done. lia.
  - destruct n as [|n]; [discriminate H|]. unfold endAdmission in H. cbn [admissionsDone the_gate admissions stopFlag drainFlag] in H.
    replace (Z.of_nat (S n) - 1)%Z with (Z.of_nat n) in H by lia.
    destruct co; cbn [Nat.eqb] in H.
    + destruct (Z.eqb_spec (Z.of_nat n) 0); injection H as <-; (eexists; split; [reflexivity|]); simpl;
        split_and!; try done; try lia; f_equal; destruct n; try done; lia.
    + injection H as <-. eexists. split; [reflexivity|]. by split_and!.
  - injection H as <-. eexists. split; [reflexivity|]. destruct co; simpl; [by split_and!|].
    split_and!; try done. f_equal. destruct n; [done|]. simpl. lia.
  - injection H as <-. eexists. split; [reflexivity|]. by split_and!.
Qed.

Lemma gate_reachable_ok s : gate_reachable s -> gate_ok s.
Proof.
  induction 1 as [|s ev s' _ IH H]; [done|].
  destruct (gate_step_ok _ _ _ IH H) as (s1 & [= ->] & ? & _). done.
Qed.

(** C22: A graceful release waits for exactly the submissions that were accepted.
    However submissions, [CloseAdmission] and [Shutdown] interleave, no call
    panics (the channel is never closed twice); the gate counts exactly the
    submissions in progress; once admission is closed the channel is closed
    exactly when none is left, no later submission is accepted, and the channel
    stays closed. *)
Theorem submissions_drain_exactly (s : gate_system) :
  gate_reachable s ->
  (forall ev why, gate_step s ev <> Some (Panic why)) /\
  admissions (the_gate s) = Z.of_nat (inflight s) /\
  (closed_once s = true ->
     (admissionsDone (the_gate s) = Some true <-> inflight s = 0) /\
     (beginAdmission (the_gate s)).2 = false /\
     forall ev s', gate_step s ev = Some (Ret s') ->
       (inflight s' <= inflight s)%nat /\
       (admissionsDone (the_gate s) = Some true -> admissionsDone (the_gate s') = Some true)).
Proof.
  intros Hr. pose proof (gate_reachable_ok _ Hr) as Hok. split_and!.
  - intros ev why H. by destruct (gate_step_ok _ _ _ Hok H) as (s' & ? & _).
  - apply Hok.
  - intros Hc. pose proof Hok as (Ha & Hd & Hn). rewrite Hc in Hd, Hn. rewrite Hn. split_and!.
    + destruct (inflight s); naive_solver.
    + unfold beginAdmission. rewrite Hd, orb_true_r. done.
    + intros ev s' H. destruct (gate_step_ok _ _ _ Hok H) as (s1 & [= <-] & (_ & _ & Hn1) & Hmono).
      destruct (Hmono Hc) as [Hc1 Hle]. split; [done|]. rewrite Hn1, Hc1.
      destruct (inflight s); [|done]. intros _. f_equal. destruct (inflight s'); [done|lia].
Qed.

Lemma submissions_drain_exactly_witness :
  admissionsDone (the_gate (mkGateSystem (mkGate false true 0 (Some true)) 0 true)) = Some true <->
  inflight (mkGateSystem (mkGate false true 0 (Some true)) 0 true) = 0.
Proof.
  refine (proj1 (proj2 (proj2 (submissions_drain_exactly
    (mkGateSystem (mkGate false true 0 (Some true)) 0 true) _)) eq_refl)).
  eapply (gate_more (mkGateSystem (mkGate false true 1 (Some false)) 1 true) GEnd); [|reflexivity].
  eapply (gate_more (mkGateSystem (mkGate false false 1 None) 1 false) GClose); [|reflexivity].
  eapply (gate_more (mkGateSystem newGate 0 false) GBegin); [|reflexivity].
  apply gate_initial.
Defined.

Definition submittedOp : string := "increment submitted task count".

(** A submission has the effects of its outcome and no other. For a gate as
    the operations keep it: the call succeeds exactly when the gate is open, the
    message is valid and the worker accepted it; then it counts one submission
    and wakes the scheduler; in every other case (a closed gate, an invalid
    message, a refusal or a panic of the worker) it counts none and wakes nobody,
    and reports that case; and in every case it leaves the gate as it found it. *)
Theorem submission_exact order (v : env) (g : gate) (m : Message) (worker : go error) :
  (drainFlag g = false -> admissionsDone g = None) ->
  exists tr r woken,
    queue order v g m worker = (Ret g, tr, r, woken) /\
    woken = match r with Ret ErrNil => true | _ => false end /\
    count (counts submittedOp) tr = (if woken then 1 else 0) /\
    r = (if stopFlag g || drainFlag g then Ret ErrQueueShutdown
         else if is_nil (Message_Validate order m) then worker
         else Ret (Message_Validate order m)).
Proof.
  intros Hg. unfold queue, beginAdmission.
  destruct (stopFlag g || drainFlag g) eqn:E.
  { by exists [], (Ret ErrQueueShutdown), false. }
  apply orb_false_iff in E as [_ Hd]. specialize (Hg Hd). simpl.
  assert (Hend : endAdmission (mkGate (stopFlag g) (drainFlag g) (admissions g + 1) (admissionsDone g)) = Ret g).
  { unfold endAdmission. simpl. rewrite Hg. f_equal. destruct g. simpl in *. f_equal; [lia|done]. }
  rewrite Hend. unfold queue_body.
  destruct (is_nil (Message_Validate order m)) eqn:Ev; cbn [negb].
  2: { eexists _, _, _. split; [reflexivity|]. split; [done|]. split; [|done].
       by destruct (Message_Validate order m). }
  destruct worker as [err|p]; [|by eexists _, _, _].
  destruct (is_nil err) eqn:En; cbn [negb].
  - destruct err; try discriminate En. eexists _, _, _. split; [reflexivity|]. split; [done|].
    split; [|done]. rewrite count_app, metric_count, (Quiet_count _ (observe _ _)) by (auto; by intros []).
    done.
  - eexists _, _, _. split; [reflexivity|]. split; [done|]. split; [|done]. by destruct err.
Qed.

Lemma submission_exact_witness :
  exists tr r woken, queue (fun l => l) demo_env newGate demo_message (Ret ErrNil)
    = (Ret newGate, tr, r, woken) /\ r = Ret ErrNil.
Proof.
  destruct (submission_exact (fun l => l) demo_env newGate demo_message (Ret ErrNil))
    as (tr & r & woken & Hq & _ & _ & Hr).
  - intros _. reflexivity.
  - exists tr, r, woken. split; [exact Hq|]. rewrite Hr. vm_compute. reflexivity.
Defined.

(** A release drains before it closes. [ReleaseContext] shuts the worker down
    or signals its goroutines only after admission was closed and the waits for
    accepted submissions, the ring's backlog and the goroutines succeeded; if one
    of them ends with the context's error, that error is returned and the worker
    is left open; and it reports success only if the worker's shutdown did. *)
Theorem release_drains_first (ctxNil : bool) (cached : option error) (inMemory started : bool)
    (w : waits) (worker : go error) (tr : list release_step) (err : error) :
  ReleaseContext ctxNil cached inMemory started w worker = (tr, err) ->
  (RShutdownWorker ∈ tr \/ RCloseQuit ∈ tr ->
     w_admissions w = ErrNil /\ (inMemory = true -> w_ring w = ErrNil) /\ w_group w = ErrNil) /\
  (err = ErrNil -> ctxNil = false /\ RCloseAdmission ∈ tr /\
     w_admissions w = ErrNil /\ w_group w = ErrNil /\ w_again w = ErrNil /\
     (cached = None -> inMemory = false -> worker = Ret ErrNil)).
Proof.
  intros H. unfold ReleaseContext, drainContext in H.
  set (pre := _ ++ [RCloseAdmission]) in H.
  assert (Hpre : RCloseAdmission ∈ pre /\ (RShutdownWorker ∉ pre) /\ (RCloseQuit ∉ pre)).
  { unfold pre. destruct (inMemory && negb started); set_solver. }
  assert (Hnil : forall e, is_nil e = true -> e = ErrNil) by (by intros []).
  destruct ctxNil; [injection H as <- <-; set_solver|].
  destruct (is_nil (w_admissions w)) eqn:Ea; simpl in H.
  2: { rewrite Ea in H. injection H as <- <-. split; [set_solver|]. intros Hx. by rewrite Hx in Ea. }
  destruct (inMemory && negb (is_nil (w_ring w))) eqn:Er.
  { apply andb_true_iff in Er as [-> Er]. rewrite Er in H. injection H as <- <-.
    split; [set_solver|]. intros Hx. by rewrite Hx in Er. }
  destruct (is_nil (w_group w)) eqn:Eg; simpl in H.
  2: { injection H as <- <-. split; [set_solver|]. intros Hx. by rewrite Hx in Eg. }
  destruct (Shutdown cached inMemory true worker) as [tr' e'] eqn:Es. injection H as <- <-. split.
  - intros _. split_and!; auto. intros ->. simpl in Er. apply Hnil. by destruct (is_nil (w_ring w)).
  - intros Hj. unfold errors_Join in Hj. simpl in Hj.
    assert (e' = ErrNil /\ w_again w = ErrNil) as [-> Hag].
    { destruct e', (w_again w); simpl in Hj; by try discriminate Hj. }
    split_and!; auto; [set_solver|]. intros -> ->. simpl in Es. injection Es as _ Es.
    destruct worker as [e|]; simpl in Es; [by subst|discriminate Es].
Qed.

Lemma release_drains_first_witness :
  w_admissions (mkWaits ErrNil ErrNil ErrNil ErrNil) = ErrNil.
Proof.
  refine (proj1 (proj1 (release_drains_first false None false true
    (mkWaits ErrNil ErrNil ErrNil ErrNil) (Ret ErrNil)
    [RCloseAdmission; RShutdownWorker; RCloseQuit] ErrNil _) (or_introl _))).
  - vm_compute. reflexivity.
  - apply list_elem_of_further, list_elem_of_here.
Defined.
