(* ===== verification/Codec.v ===== *)
(** Text codecs of the Go standard library that cursors and identifiers use:
    unpadded URL-safe base64 ([base64.RawURLEncoding]) and decimal integers
    ([strconv.Itoa], [strconv.Atoi]). *)

From S2P Require Import Prelude GoStd Contract.

(** * base64.RawURLEncoding *)

Definition alphabet : list ascii :=
  list_ascii_of_string "ABCDEFGHIJKLMNOPQRSTUVWXYZabcdefghijklmnopqrstuvwxyz0123456789-_".

Definition sextet_char (n : N) : ascii := nth (N.to_nat n) alphabet zero.

Fixpoint index_of (c : ascii) (l : list ascii) (i : N) : option N :=
  match l with
  | [] => None
  | x :: l => if Ascii.eqb c x then Some i else index_of c l (i + 1)%N
  end.

Definition char_sextet (c : ascii) : option N := index_of c alphabet 0.

(** Three bytes are four characters; one or two bytes left over are two or three. *)
Fixpoint encode (s : list ascii) : list ascii :=
  match s with
  | [] => []
  | a :: s1 =>
      let a := N_of_ascii a in
      match s1 with
      | [] => [sextet_char (a / 4); sextet_char (a mod 4 * 16)]
      | b :: s2 =>
          let b := N_of_ascii b in
          match s2 with
          | [] => [sextet_char (a / 4); sextet_char (a mod 4 * 16 + b / 16);
                   sextet_char (b mod 16 * 4)]
          | c :: s3 =>
              let c := N_of_ascii c in
              sextet_char (a / 4) :: sextet_char (a mod 4 * 16 + b / 16)
              :: sextet_char (b mod 16 * 4 + c / 64) :: sextet_char (c mod 64) :: encode s3
          end
      end
  end%N.

(** The decoder's loop over characters that are not line breaks; bits beyond the
    last whole byte are ignored. *)
Fixpoint decode_groups (s : list ascii) : option (list ascii) :=
  match s with
  | [] => Some []
  | p :: s1 =>
      p ← char_sextet p;
      match s1 with
      | [] => None
      | q :: s2 =>
          q ← char_sextet q;
          let a := ascii_of_N (p * 4 + q / 16) in
          match s2 with
          | [] => Some [a]
          | r :: s3 =>
              r ← char_sextet r;
              let b := ascii_of_N (q mod 16 * 16 + r / 4) in
              match s3 with
              | [] => Some [a; b]
              | t :: s4 =>
                  t ← char_sextet t;
                  rest ← decode_groups s4;
                  Some (a :: b :: ascii_of_N (r mod 4 * 64 + t) :: rest)
              end
          end
      end
  end%N.

Definition line_break (c : ascii) : bool := byte_in 10 10 c || byte_in 13 13 c.

Definition EncodeToString (s : string) : string :=
  string_of_list_ascii (encode (list_ascii_of_string s)).

Definition DecodeString (s : string) : option string :=
  string_of_list_ascii <$>
    decode_groups (List.filter (fun c => negb (line_break c)) (list_ascii_of_string s)).

(** * strconv *)

Definition digit (c : ascii) : option Z :=
  let n := Z.of_N (N_of_ascii c) in
  if (48 <=? n)%Z && (n <=? 57)%Z then Some (n - 48)%Z else None.

Fixpoint digits (acc : Z) (s : list ascii) : option Z :=
  match s with
  | [] => Some acc
  | c :: s => d ← digit c; digits (acc * 10 + d) s
  end.

(** [strconv.ParseUint(s, 10, 64)]: at least one digit, a value in range. *)
Definition ParseUint (s : string) : option Z :=
  match list_ascii_of_string s with
  | [] => None
  | body => v ← digits 0 body; if (v <? 2 ^ 64)%Z then Some v else None
  end.

(** [strconv.ParseUint(s, 10, bits)]. *)
Definition ParseUintBits (s : string) (bits : Z) : option Z :=
  v ← ParseUint s; if (v <? 2 ^ bits)%Z then Some v else None.

(** [strconv.ParseInt(s, 10, 64)]: an optional sign, at least one digit, a value in
    range. *)
Definition ParseInt (s : string) : option Z :=
  let l := list_ascii_of_string s in
  let '(neg, body) :=
    match l with
    | c :: rest => if Ascii.eqb c "-"%char then (true, rest)
                   else if Ascii.eqb c "+"%char then (false, rest) else (false, l)
    | [] => (false, l)
    end in
  match body with
  | [] => None
  | _ =>
      v ← digits 0 body;
      let v := if neg : bool then (- v)%Z else v in
      if (- 2 ^ 63 <=? v)%Z && (v <? 2 ^ 63)%Z then Some v else None
  end.

(** [strconv.Atoi] on a 64-bit platform. *)
Definition Atoi (s : string) : option Z := ParseInt s.

(** * strings.Cut and time.UnixMilli *)

(** [strings.Cut(s, "-")]. *)
Fixpoint Cut (s : string) : option (string * string) :=
  match s with
  | "" => None
  | String c s =>
      if Ascii.eqb c "-"%char then Some ("", s)
      else '(before, after) ← Cut s; Some (String c before, after)
  end.

(** [time.UnixMilli]; the epoch is 62135596800 seconds after the zero time. *)
Definition UnixMilli (ms : Z) : Time :=
  mkTime (62135596800 * Second + ms * Millisecond) None 1.

(** * Proofs *)

Lemma byte_small c : (N_of_ascii c < 256)%N.
Proof. apply N_ascii_bounded. Qed.

Definition sextets : list N := N.of_nat <$> seq 0 64.

Lemma sextet_table :
  forallb (fun n => match char_sextet (sextet_char n) with
                    | Some m => (n =? m)%N && negb (line_break (sextet_char n))
                    | None => false
                    end) sextets = true.
Proof. vm_compute. reflexivity. Qed.

Lemma sextet_roundtrip n :
  (n < 64)%N -> char_sextet (sextet_char n) = Some n /\ line_break (sextet_char n) = false.
Proof.
  intros Hn. pose proof sextet_table as H. rewrite forallb_forall in H.
  assert (Hin : In n sextets).
  { unfold sextets. apply list_elem_of_In, list_elem_of_fmap. exists (N.to_nat n).
    split; [lia|]. apply elem_of_seq. lia. }
  specialize (H n Hin). clear Hin. destruct (char_sextet (sextet_char n)) as [m|]; [|done].
  apply andb_true_iff in H as [->%N.eqb_eq H]. by apply negb_true_iff in H.
Qed.

Lemma decode_sextet n : (n < 64)%N -> char_sextet (sextet_char n) = Some n.
Proof. apply sextet_roundtrip. Qed.

Lemma ascii_back c n : n = N_of_ascii c -> ascii_of_N n = c.
Proof. intros ->. apply ascii_N_embedding. Qed.

(** Bytes and sextets, by their numbers. *)
Ltac bytes :=
  repeat match goal with
         | c : ascii |- _ =>
             lazymatch goal with
             | _ : (N_of_ascii c < 256)%N |- _ => fail
             | _ => pose proof (byte_small c)
             end
         end.

Lemma encode_clean n s :
  (length s <= n)%nat -> Forall (fun c => line_break c = false) (encode s).
Proof.
  revert s. induction n as [|n IH]; intros s Hn; [by destruct s; [constructor|simpl in Hn; lia]|].
  assert (Hc : forall k, (k < 64)%N -> line_break (sextet_char k) = false) by apply sextet_roundtrip.
  destruct s as [|a [|b [|c s]]]; simpl; bytes; repeat constructor; try apply Hc;
    try (zify; Z.to_euclidean_division_equations; lia).
  apply IH. simpl in Hn. lia.
Qed.

Ltac divmod := zify; Z.to_euclidean_division_equations; lia.

Lemma decode_encode n s : (length s <= n)%nat -> decode_groups (encode s) = Some s.
Proof.
  revert s. induction n as [|n IH]; intros s Hn; [by destruct s; [|simpl in Hn; lia]|].
  destruct s as [|a [|b [|c s]]]; cbn [encode decode_groups]; bytes; [done|..];
    rewrite !decode_sextet by divmod; cbn [mbind option_bind].
  - do 2 f_equal. apply ascii_back. divmod.
  - do 2 f_equal; [apply ascii_back; divmod|]. f_equal. apply ascii_back. divmod.
  - rewrite IH by (simpl in Hn; lia). cbn [mbind option_bind].
    do 2 f_equal; [apply ascii_back; divmod|]. f_equal; [apply ascii_back; divmod|].
    f_equal. apply ascii_back. divmod.
Qed.

Lemma filter_clean (l : list ascii) :
  Forall (fun c => line_break c = false) l -> List.filter (fun c => negb (line_break c)) l = l.
Proof. induction 1 as [|c l Hc _ IH]; [done|]. simpl. rewrite Hc. simpl. by f_equal. Qed.

(** Decoding what was encoded gives it back. *)
Lemma base64_roundtrip s : DecodeString (EncodeToString s) = Some s.
Proof.
  unfold DecodeString, EncodeToString. rewrite list_ascii_of_string_of_list_ascii.
  rewrite filter_clean by (by eapply encode_clean). rewrite (decode_encode _ _ (le_n _)). simpl.
  by rewrite string_of_list_ascii_of_string.
Qed.

(** * Decimal text *)

Lemma digit_table :
  forallb (fun n => bool_decide (digit (pretty_N_char n) = Some (Z.of_N n)) &&
                    negb (Ascii.eqb (pretty_N_char n) "-") &&
                    negb (Ascii.eqb (pretty_N_char n) "+")) (N.of_nat <$> seq 0 10) = true.
Proof. reflexivity. Qed.

Lemma digit_char n :
  (n < 10)%N -> digit (pretty_N_char n) = Some (Z.of_N n) /\
  pretty_N_char n <> "-"%char /\ pretty_N_char n <> "+"%char.
Proof.
  intros Hn. pose proof digit_table as H. rewrite forallb_forall in H.
  specialize (H n). rewrite !andb_true_iff, !negb_true_iff, !Ascii.eqb_neq in H.
  destruct H as [[?%bool_decide_eq_true ?] ?]; [|done].
  apply list_elem_of_In, list_elem_of_fmap. exists (N.to_nat n).
  rewrite N2Nat.id. split; [done|]. apply elem_of_seq. lia.
Qed.

(** Reading the digits of [x] in front of [s] accumulates [x]. *)
Lemma digits_pretty_go x s :
  digits 0 (list_ascii_of_string (pretty_N_go x s)) =
  digits (Z.of_N x) (list_ascii_of_string s).
Proof.
  revert s. induction (N.lt_wf_0 x) as [x _ IH]. intros s.
  destruct (decide (x = 0)%N) as [->|Hx]; [by rewrite pretty_N_go_0|].
  rewrite pretty_N_go_step by lia. rewrite IH by (apply N.div_lt; lia). simpl.
  destruct (digit_char (x mod 10)) as [-> _]; [by apply N.mod_lt|]. simpl. f_equal.
  pose proof (N.div_mod x 10). lia.
Qed.

(** A printed number is not empty and starts with a digit. *)
Lemma pretty_go_head x s :
  (0 < x)%N -> exists d rest,
    (d < 10)%N /\ pretty_N_go x s = String (pretty_N_char d) rest.
Proof.
  revert s. induction (N.lt_wf_0 x) as [x _ IH]. intros s Hx.
  rewrite pretty_N_go_step by lia.
  destruct (decide (x / 10 = 0)%N) as [->|].
  - rewrite pretty_N_go_0. eexists _, _. split; [by apply N.mod_lt|done].
  - apply IH; [apply N.div_lt; lia|lia].
Qed.

Lemma pretty_read (x : N) :
  exists c l, list_ascii_of_string (pretty x) = c :: l /\ c <> "-"%char /\ c <> "+"%char /\
              digits 0 (c :: l) = Some (Z.of_N x).
Proof.
  unfold pretty, pretty_N. case_decide as Hx.
  { subst. by exists "0"%char, []. }
  destruct (pretty_go_head x "") as (d & rest & Hd & E); [lia|].
  pose proof (digits_pretty_go x "") as Hdig. rewrite E in Hdig |- *. simpl in *.
  destruct (digit_char d Hd) as (_ & ? & ?). by eexists _, _.
Qed.

Lemma ParseInt_pretty (x : N) : (Z.of_N x < 2 ^ 63)%Z -> ParseInt (pretty x) = Some (Z.of_N x).
Proof.
  intros. destruct (pretty_read x) as (c & l & E & H1 & H2 & Hd).
  unfold ParseInt. rewrite E.
  rewrite (proj2 (Ascii.eqb_neq c "-") H1), (proj2 (Ascii.eqb_neq c "+") H2), Hd.
  cbn [mbind option_bind]. case_test; [done|lia].
Qed.

Lemma ParseUint_pretty (x : N) : (Z.of_N x < 2 ^ 64)%Z -> ParseUint (pretty x) = Some (Z.of_N x).
Proof.
  intros. destruct (pretty_read x) as (c & l & E & _ & _ & Hd).
  unfold ParseUint. rewrite E, Hd. cbn [mbind option_bind]. case_test; [done|lia].
Qed.

Lemma ParseUintBits_pretty (n : N) bits :
  (Z.of_N n < 2 ^ bits)%Z -> (bits <= 64)%Z -> ParseUintBits (pretty n) bits = Some (Z.of_N n).
Proof.
  intros Hn Hb. unfold ParseUintBits.
  assert (2 ^ bits <= 2 ^ 64)%Z by (apply Z.pow_le_mono_r; lia).
  rewrite ParseUint_pretty by lia. simpl. by case_test; [|lia].
Qed.

(** [Atoi] reads what [Itoa] writes. *)
Lemma atoi_itoa n : (Z.of_nat n < 2 ^ 63)%Z -> Atoi (Itoa n) = Some (Z.of_nat n).
Proof.
  intros. unfold Atoi, Itoa. rewrite ParseInt_pretty; [f_equal; lia|lia].
Qed.

(** * Cutting an identifier *)

Lemma Cut_at a b : (forall c, c ∈ list_ascii_of_string a -> c <> "-"%char) ->
  Cut (a +:+ "-" +:+ b) = Some (a, b).
Proof.
  induction a as [|c a IH]; simpl; intros Ha; [done|].
  rewrite (proj2 (Ascii.eqb_neq c "-")) by (apply Ha; left).
  change (String.append a (String "-" b)) with (a +:+ "-" +:+ b).
  rewrite IH; [done|]. intros d Hd. apply Ha. by right.
Qed.

(** A character that reads as a digit is not a dash. *)
Lemma digits_no_dash acc l v :
  digits acc l = Some v -> forall c, c ∈ l -> c <> "-"%char.
Proof.
  revert acc. induction l as [|x l IH]; intros acc; simpl; [intros _ c Hc; by inv Hc|].
  destruct (digit x) eqn:E; simpl; [|done]. intros H c [->|Hc]%elem_of_cons; [|by eapply IH].
  intros ->. done.
Qed.

Lemma pretty_no_dash (x : N) c : c ∈ list_ascii_of_string (pretty x) -> c <> "-"%char.
Proof.
  destruct (pretty_read x) as (d & l & -> & _ & _ & Hd). by eapply digits_no_dash.
Qed.
