(* ===== verification/Reader.v ===== *)
(** The status reader of [management/reader.go]: observation of all providers,
    validation, ordering, and offset pagination with opaque cursors. What each
    provider reports is an argument. *)

From S2P Require Import Prelude GoStd Contract Status Codec.

Definition MaxStatusProviders : Z := 1000.

Definition ErrInvalidStatusProviders : error := Sentinel "management: invalid status providers".
Definition ErrInvalidStatusCursor : error := Sentinel "management: invalid status cursor".
Definition ErrInvalidStatusProviderOutput : error :=
  Sentinel "management: invalid status provider output".

(** Providers are nil or not; the reader keeps both sets. *)
Definition NewStatusReader (workers queues : list bool) : error + (nat * nat) :=
  if ((zlen workers =? 0)%Z && (zlen queues =? 0)%Z)
     || (MaxStatusProviders <? zlen workers)%Z || (MaxStatusProviders <? zlen queues)%Z
  then inl ErrInvalidStatusProviders
  else if existsb id workers then inl ErrInvalidStatusProviders
  else if existsb id queues then inl ErrInvalidStatusProviders
  else inr (length workers, length queues).

(** * Pages *)

Definition statusPageStart (request : StatusPageRequest) : error + Z :=
  let err := StatusPageRequest_Validate request in
  if negb (is_nil err) then inl err
  else if P_Cursor request == "" then inr 0%Z
  else match DecodeString (P_Cursor request) with
       | None => inl ErrInvalidStatusCursor
       | Some decoded =>
           match Atoi decoded with
           | None => inl ErrInvalidStatusCursor
           | Some offset =>
               if (offset <? 0)%Z || (MaxStatusProviders <? offset)%Z
               then inl ErrInvalidStatusCursor else inr offset
           end
       end.

Section pages.
Context {T : Type}.

(** The loop that advances [end]; [rest] is the number of items not yet passed. *)
Fixpoint page_end (rest end_ : nat) (remaining : Z) : nat :=
  match rest with
  | O => end_
  | S rest => if (0 <? remaining)%Z then page_end rest (S end_) (remaining - 1)%Z else end_
  end.

Definition statusPage (items : list T) (start : Z) (limit : Z) : error + (list T * string) :=
  if (start <? 0)%Z || (zlen items <? start)%Z then inl ErrInvalidStatusCursor
  else
    let start := Z.to_nat start in
    let end_ := page_end (length items - start) start limit in
    let page := take (end_ - start) (drop start items) in
    if (end_ =? length items)%nat then inr (page, "")
    else inr (page, EncodeToString (Itoa end_)).

(** The observation loop: the first error ends it. *)
Fixpoint observe_all (validate : T -> error) (providers : list (error + T)) : error + list T :=
  match providers with
  | [] => inr []
  | inl err :: _ => inl err
  | inr item :: rest =>
      if negb (is_nil (validate item)) then inl ErrInvalidStatusProviderOutput
      else match observe_all validate rest with
           | inl err => inl err
           | inr items => inr (item :: items)
           end
  end.

(** The scan for equal neighbours after sorting. *)
Fixpoint neighbours_equal (same : T -> T -> bool) (items : list T) : bool :=
  match items with
  | x :: (y :: _) as rest => same x y || neighbours_equal same rest
  | _ => false
  end.

(** Observe, sort, reject duplicates, cut the page. *)
Definition list_page (validate : T -> error) (le : relation T) `{!RelDecision le}
    (same : T -> T -> bool) (providers : list (error + T)) (request : StatusPageRequest)
    : error + (list T * string) :=
  match statusPageStart request with
  | inl err => inl err
  | inr start =>
      match observe_all validate providers with
      | inl err => inl err
      | inr items =>
          let items := merge_sort le items in
          if neighbours_equal same items then inl ErrInvalidStatusProviderOutput
          else statusPage items start (P_Limit request)
      end
  end.

End pages.

Definition worker_le (a b : WorkerStatus) : Prop := String.le (W_ID a) (W_ID b).
#[export] Instance worker_le_dec : RelDecision worker_le.
Proof. intros a b. unfold worker_le. apply _. Defined.
#[export] Instance worker_le_trans : Transitive worker_le.
Proof. intros a b c. unfold worker_le. apply transitivity. Qed.
#[export] Instance worker_le_total : Total worker_le.
Proof. intros a b. unfold worker_le. apply (total String.le). Qed.

Definition ListWorkers (providers : list (error + WorkerStatus)) (request : StatusPageRequest)
    : error + WorkerStatusPage :=
  match list_page WorkerStatus_Validate worker_le (fun a b => W_ID a == W_ID b) providers request with
  | inl err => inl err
  | inr (items, next) => inr (mkWorkerPage items next)
  end.

(** Queues are ordered by name, then by backend. *)
Definition queue_le (a b : QueueStatus) : Prop :=
  if Q_Queue a == Q_Queue b then String.le (Q_Backend a) (Q_Backend b)
  else String.le (Q_Queue a) (Q_Queue b).
#[export] Instance queue_le_dec : RelDecision queue_le.
Proof. intros a b. unfold queue_le. destruct (Q_Queue a == Q_Queue b); apply _. Defined.

Definition ListQueues (providers : list (error + QueueStatus)) (request : StatusPageRequest)
    : error + QueueStatusPage :=
  match list_page QueueStatus_Validate queue_le
          (fun a b => (Q_Queue a == Q_Queue b) && (Q_Backend a == Q_Backend b)) providers request with
  | inl err => inl err
  | inr (items, next) => inr (mkQueuePage items next)
  end.

(** A client that follows the cursors to the end. *)
Fixpoint walk {T} (fuel : nat) (list_ : string -> error + (list T * string)) (cursor : string)
    : option (list T) :=
  match fuel with
  | O => None
  | S fuel =>
      match list_ cursor with
      | inl _ => None
      | inr (items, next) =>
          if next == "" then Some items
          else rest ← walk fuel list_ next; Some (items ++ rest)
      end
  end.

(** * Proofs *)

(** The cursor of an offset: bounded, not empty, and read back. *)
Definition cursor_of (n : nat) : string := EncodeToString (Itoa n).

Lemma cursor_table :
  forallb (fun n => negb (cursor_of n == "") && (len (cursor_of n) <=? MaxCursorBytes)%Z)
    (seq 0 1001) = true.
Proof. vm_compute. reflexivity. Qed.

Lemma cursor_ok n : (n <= 1000)%nat -> cursor_of n <> "" /\ (len (cursor_of n) <= MaxCursorBytes)%Z.
Proof.
  intros Hn. pose proof cursor_table as H. rewrite forallb_forall in H.
  assert (Hin : In n (seq 0 1001)) by (apply in_seq; lia). specialize (H n Hin).
  apply andb_true_iff in H as [H1 H2]. split; [|lia].
  intros He. rewrite He in H1. done.
Qed.

Definition limit_ok (limit : Z) : Prop := (1 <= limit <= MaxStatusPageSize)%Z.

Lemma request_valid cursor limit :
  limit_ok limit -> (len cursor <= MaxCursorBytes)%Z ->
  StatusPageRequest_Validate (mkStatusPageRequest cursor limit) = ErrNil.
Proof.
  unfold limit_ok. intros Hl Hc. unfold StatusPageRequest_Validate. simpl P_Limit. simpl P_Cursor.
  rewrite !invalid_if, orb_false_iff. split_and!; try done; lia.
Qed.

Lemma start_of_cursor n limit :
  (n <= 1000)%nat -> limit_ok limit ->
  statusPageStart (mkStatusPageRequest (cursor_of n) limit) = inr (Z.of_nat n).
Proof.
  intros Hn Hl. destruct (cursor_ok n Hn) as [Hne Hlen].
  unfold statusPageStart. rewrite request_valid by done. cbn [is_nil negb P_Cursor].
  destruct (String.eqb_spec (cursor_of n) ""); [done|]. unfold cursor_of.
  rewrite base64_roundtrip, atoi_itoa by lia. unfold MaxStatusProviders.
  destruct ((Z.of_nat n <? 0)%Z || _) eqn:E; [lia|done].
Qed.

Lemma start_of_empty limit :
  limit_ok limit -> statusPageStart (mkStatusPageRequest "" limit) = inr 0%Z.
Proof.
  intros Hl. unfold statusPageStart. rewrite request_valid; [done|done|]. vm_compute. discriminate.
Qed.

Lemma page_end_min rest e limit :
  (0 <= limit)%Z -> page_end rest e limit = (e + Nat.min rest (Z.to_nat limit))%nat.
Proof.
  revert e limit. induction rest as [|rest IH]; intros e limit Hl; cbn [page_end]; [lia|].
  destruct (Z.ltb_spec 0 limit).
  - rewrite IH by lia. lia.
  - replace (Z.to_nat limit) with 0 by lia. lia.
Qed.

(** Following the cursors over fixed items returns the items. *)
Lemma walk_complete {T} (items : list T) limit (list_ : string -> error + (list T * string)) fuel start cursor :
  limit_ok limit -> (length items <= 1000)%nat -> (start <= length items)%nat ->
  (length items - start < fuel)%nat ->
  (forall n, (n <= length items)%nat -> list_ (cursor_of n) = statusPage items (Z.of_nat n) limit) ->
  list_ cursor = statusPage items (Z.of_nat start) limit ->
  walk fuel list_ cursor = Some (drop start items).
Proof.
  intros Hl Hlen. revert start cursor. induction fuel as [|fuel IH]; intros start cursor Hs Hf Hc Hcur; [lia|].
  unfold limit_ok, MaxStatusPageSize in Hl. simpl. rewrite Hcur. unfold statusPage, zlen.
  destruct ((Z.of_nat start <? 0)%Z || (Z.of_nat (length items) <? Z.of_nat start)%Z) eqn:E; [lia|].
  rewrite Nat2Z.id, page_end_min by lia.
  set (n := Nat.min (length items - start) (Z.to_nat limit)).
  replace (start + n - start)%nat with n by lia.
  destruct (Nat.eqb_spec (start + n) (length items)) as [He|Hne].
  - rewrite take_ge; [done|]. rewrite length_drop. lia.
  - destruct (cursor_ok (start + n)) as [Hcn _]; [lia|].
    change (EncodeToString (Itoa (start + n))) with (cursor_of (start + n)).
    destruct (String.eqb_spec (cursor_of (start + n)) ""); [done|].
    rewrite (IH (start + n)); [|lia|lia|done|apply Hc; lia]. simpl.
    by rewrite <- drop_drop, take_drop.
Qed.

Lemma observe_all_ok {T} (validate : T -> error) items :
  Forall (fun x => validate x = ErrNil) items -> observe_all validate (inr <$> items) = inr items.
Proof.
  induction 1 as [|x l Hx _ IH]; [done|]. rewrite fmap_cons. cbn [observe_all].
  rewrite Hx. cbn [is_nil negb]. by rewrite IH.
Qed.

(** Sorted items with distinct keys have no equal neighbours. *)
Lemma neighbours_distinct {T} (same : T -> T -> bool) (key : T -> string) items :
  (forall x y, same x y = true -> key x = key y) -> NoDup (key <$> items) ->
  neighbours_equal same items = false.
Proof.
  intros Hs Hnd. induction items as [|x [|y items] IH]; try done.
  cbn [fmap list_fmap] in Hnd. apply NoDup_cons in Hnd as [Hx Hnd].
  change (same x y || neighbours_equal same (y :: items) = false). rewrite IH by done.
  rewrite orb_false_r. apply not_true_is_false. intros E%Hs. apply Hx. rewrite E. constructor.
Qed.

(** Paging through worker status is complete. For any worker observations that
    are valid and have distinct identifiers (as many as a reader accepts) and any
    page limit the contract allows, a client that starts without a cursor and
    follows the cursors it is given reaches the end, and has then received every
    observation exactly once, in the order of the identifiers. *)
Theorem worker_pages_complete (items : list WorkerStatus) (limit : Z) :
  limit_ok limit -> (zlen items <= MaxStatusProviders)%Z ->
  Forall worker_ok items -> NoDup (W_ID <$> items) ->
  exists sorted,
    walk (S (length items)) (fun cursor =>
      match ListWorkers (inr <$> items) (mkStatusPageRequest cursor limit) with
      | inl err => inl err
      | inr page => inr (W_Items page, W_NextCursor page)
      end) "" = Some sorted /\
    sorted ≡ₚ items /\ StronglySorted worker_le sorted.
Proof.
  intros Hl Hlen Hok Hnd. unfold zlen, MaxStatusProviders in Hlen.
  set (sorted := merge_sort worker_le items).
  assert (Hperm : sorted ≡ₚ items) by apply merge_sort_Permutation.
  assert (Hnb : neighbours_equal (fun a b => W_ID a == W_ID b) sorted = false).
  { apply (neighbours_distinct _ W_ID); [intros x y; apply String.eqb_eq|]. by rewrite Hperm. }
  assert (Hobs : observe_all WorkerStatus_Validate (inr <$> items) = inr items).
  { apply observe_all_ok. eapply Forall_impl; [exact Hok|]. intros x. apply WorkerStatus_Validate_ok. }
  assert (Hstep : forall cursor n, statusPageStart (mkStatusPageRequest cursor limit) = inr (Z.of_nat n) ->
    match ListWorkers (inr <$> items) (mkStatusPageRequest cursor limit) with
    | inl err => inl err
    | inr page => inr (W_Items page, W_NextCursor page)
    end = statusPage sorted (Z.of_nat n) limit).
  { intros cursor n Hn. unfold ListWorkers, list_page. rewrite Hn, Hobs. fold sorted. rewrite Hnb.
    cbn [P_Limit]. by destruct (statusPage sorted (Z.of_nat n) limit) as [|[? ?]]. }
  exists sorted. split_and!; [|done|apply (StronglySorted_merge_sort worker_le)].
  assert (Hls : length sorted = length items) by (by rewrite Hperm).
  rewrite (walk_complete sorted limit _ _ 0); try done; try lia.
  - intros n Hn. apply Hstep, start_of_cursor; [lia|done].
  - apply (Hstep "" 0). by apply start_of_empty.
Qed.

Definition demo_worker (id : string) : WorkerStatus :=
  mkWorkerStatus id "v1" (mkTime 1 None 0) (mkTime 2 None 0) ["jobs"] 4 WorkerRunning 0
    DrainNotRequested "memory" (mkVersion 1 0) [].

Lemma worker_pages_complete_witness :
  exists sorted, sorted ≡ₚ [demo_worker "b"; demo_worker "a"; demo_worker "c"] /\
    StronglySorted worker_le sorted.
Proof.
  destruct (worker_pages_complete [demo_worker "b"; demo_worker "a"; demo_worker "c"] 2)
    as (sorted & _ & Hp & Hs).
  - split; discriminate.
  - discriminate.
  - repeat constructor; vm_compute; try discriminate; intuition congruence.
  - apply (bool_decide_unpack _). vm_compute. reflexivity.
  - exists sorted. split; [exact Hp|exact Hs].
Defined.
