(* ===== verification/Records.v ===== *)
(** Failure and dead-letter records ([management/records.go]): disclosure-bounded
    payloads, the record with its v1 metadata, chronology and replay lineage, and
    the page and inspection requests. As in [Job], the order of a [range] over a
    map is an argument. *)

From S2P Require Import Prelude GoStd Contract Failure Job Status.

Definition CurrentEnvelopeVersion : Z := 1.
Definition MaxAdministrativePayloadBytes : Z := 1048576.
Definition MaxFailureSummaryBytes : Z := 1024.
Definition MaxRecordTags : Z := 32.
Definition MaxPageSize : Z := 200.
Definition MaxSearchBytes : Z := 256.

Definition RecordFailure : string := "failure".
Definition RecordDeadLetter : string := "dead_letter".

Definition PayloadHidden : string := "".
Definition PayloadRedacted : string := "redacted".
Definition PayloadRevealed : string := "revealed".

Definition SortOccurredAt : string := "occurred_at".
Definition SortQueue : string := "queue".
Definition SortAttempts : string := "attempts".
Definition SortAscending : string := "asc".
Definition SortDescending : string := "desc".

Record Payload := mkPayload {
  P_Visibility : string;
  P_ContentType : string;
  P_Size : Z;
  P_Data : string
}.

Record JobRecord := mkJobRecord {
  R_Kind : string;
  R_ID : string;
  R_Backend : string;
  R_Queue : string;
  R_OccurredAt : Time;
  R_Attempts : Z;
  R_FailureCode : string;
  R_Payload : Payload;
  R_EnvelopeVersion : Z;
  R_PayloadSchemaVersion : string;
  R_OriginalID : string;
  R_Topic : string;
  R_Stream : string;
  R_RoutingKey : string;
  R_ConsumerGroup : string;
  R_SourceRecordID : string;
  R_EnqueuedAt : option Time;
  R_FirstDeliveryAt : option Time;
  R_LastDeliveryAt : option Time;
  R_DeadLetteredAt : option Time;
  R_RetryPolicy : string;
  R_Classification : string;
  R_FailureSummary : string;
  R_Diagnostics : Payload;
  R_HandlerType : string;
  R_JobType : string;
  R_Tags : option (gmap string string);
  R_TraceID : string;
  R_TenantID : string;
  R_ProducerVersion : string;
  R_WorkerVersion : string;
  R_OriginalDeadLetterID : string;
  R_PriorDeadLetterID : string;
  R_ReplayGeneration : Z;
  R_RetentionDeadline : option Time
}.

Definition RecordKind_valid (r : string) : bool :=
  (r == RecordFailure) || (r == RecordDeadLetter).

Definition PayloadVisibility_valid (v : string) : bool :=
  (v == PayloadHidden) || (v == PayloadRedacted) || (v == PayloadRevealed).

Definition Payload_validate (p : Payload) : error :=
  if negb (PayloadVisibility_valid (P_Visibility p))
  then invalid "payload.visibility" "is unsupported"
  else if (P_Size p <? 0)%Z then invalid "payload.size" "cannot be negative"
  else if (P_ContentType p != "") && invalidIdentity (P_ContentType p)
  then invalid "payload.content_type" "must be bounded"
  else if (P_Visibility p != PayloadRevealed) && negb (len (P_Data p) =? 0)%Z
  then invalid "payload.data" "must be hidden"
  else if (MaxAdministrativePayloadBytes <? len (P_Data p))%Z
  then invalid "payload.data" "exceeds the inspection limit"
  else if (P_Size p <? len (P_Data p))%Z
  then invalid "payload.size" "cannot be smaller than revealed data"
  else ErrNil.

(** A pointer test [t != nil]. *)
Definition known (t : option Time) : bool := match t with Some _ => true | None => false end.

(** The test of two known instants that both must be present for. *)
Definition both (t u : option Time) (test : Time -> Time -> bool) : bool :=
  match t, u with Some t, Some u => test t u | _, _ => false end.

Definition hasV1Metadata (r : JobRecord) : bool :=
  (R_PayloadSchemaVersion r != "") || (R_OriginalID r != "") || (R_Topic r != "") ||
  (R_Stream r != "") || (R_RoutingKey r != "") || (R_ConsumerGroup r != "") ||
  (R_SourceRecordID r != "") || known (R_EnqueuedAt r) || known (R_FirstDeliveryAt r) ||
  known (R_LastDeliveryAt r) || known (R_DeadLetteredAt r) || (R_RetryPolicy r != "") ||
  (R_Classification r != "") || (R_FailureSummary r != "") ||
  (P_Visibility (R_Diagnostics r) != PayloadHidden) || (P_ContentType (R_Diagnostics r) != "") ||
  negb (P_Size (R_Diagnostics r) =? 0)%Z || negb (len (P_Data (R_Diagnostics r)) =? 0)%Z ||
  (R_HandlerType r != "") || (R_JobType r != "") || negb (map_len (R_Tags r) =? 0)%Z ||
  (R_TraceID r != "") || (R_TenantID r != "") ||
  (R_ProducerVersion r != "") || (R_WorkerVersion r != "") ||
  (R_OriginalDeadLetterID r != "") || (R_PriorDeadLetterID r != "") ||
  negb (R_ReplayGeneration r =? 0)%Z || known (R_RetentionDeadline r).

(** The map literals of [Validate] and [invalidRecordChronology]. *)
Definition optional_fields (r : JobRecord) : list (string * string) :=
  [("payload_schema_version", R_PayloadSchemaVersion r);
   ("original_id", R_OriginalID r);
   ("topic", R_Topic r);
   ("stream", R_Stream r);
   ("routing_key", R_RoutingKey r);
   ("consumer_group", R_ConsumerGroup r);
   ("source_record_id", R_SourceRecordID r);
   ("retry_policy", R_RetryPolicy r);
   ("handler_type", R_HandlerType r);
   ("job_type", R_JobType r);
   ("trace_id", R_TraceID r);
   ("tenant_id", R_TenantID r);
   ("producer_version", R_ProducerVersion r);
   ("worker_version", R_WorkerVersion r);
   ("original_dead_letter_id", R_OriginalDeadLetterID r);
   ("prior_dead_letter_id", R_PriorDeadLetterID r)].

Definition knownTimes (r : JobRecord) : list (string * option Time) :=
  [("enqueued_at", R_EnqueuedAt r);
   ("first_delivery_at", R_FirstDeliveryAt r);
   ("last_delivery_at", R_LastDeliveryAt r);
   ("dead_lettered_at", R_DeadLetteredAt r);
   ("retention_deadline", R_RetentionDeadline r)].

(** The first visited field whose known time is zero. *)
Fixpoint range_zero (l : list (string * option Time)) : option string :=
  match l with
  | [] => None
  | (field, Some t) :: l => if IsZero t then Some field else range_zero l
  | (_, None) :: l => range_zero l
  end.

Section iteration.
(** The orders in which [range] visits a string map and the map of times. *)
Variable order : list (string * string) -> list (string * string).
Variable times : list (string * option Time) -> list (string * option Time).

Definition invalidRecordChronology (record : JobRecord) : string :=
  match range_zero (times (knownTimes record)) with
  | Some field => field
  | None =>
      if both (R_EnqueuedAt record) (R_FirstDeliveryAt record) (fun e f => Before f e)
      then "first_delivery_at"
      else if both (R_FirstDeliveryAt record) (R_LastDeliveryAt record) (fun f l => Before l f)
      then "last_delivery_at"
      else if both (R_LastDeliveryAt record) (R_DeadLetteredAt record) (fun l d => Before d l)
      then "dead_lettered_at"
      else if both (R_DeadLetteredAt record) (R_RetentionDeadline record)
                (fun d k => negb (After k d))
      then "retention_deadline"
      else ""
  end.

(** The checks of a record that carries the current envelope version. *)
Definition JobRecord_Validate_v1 (r : JobRecord) : error :=
  if negb (Classification_valid (R_Classification r))
  then invalid "classification" "is unsupported"
  else if (R_Kind r == RecordDeadLetter) &&
          match R_DeadLetteredAt r with None => true | Some t => IsZero t end
  then invalid "dead_lettered_at" "is required"
  else if (MaxFailureSummaryBytes <? len (R_FailureSummary r))%Z
  then invalid "failure_summary" "exceeds the summary limit"
  else or_return
    (match Payload_validate (R_Diagnostics r) with
     | ValidationError field problem => invalid ("diagnostics." +:+ field) problem
     | err => err
     end)
  (if (MaxRecordTags <? map_len (R_Tags r))%Z
   then invalid "tags" "exceeds the tag limit"
   else or_return
    (range_reject (fun kv => invalidIdentity kv.1 || invalidIdentity kv.2)
       (fun _ => invalid "tags" "keys and values must be bounded")
       (order (entries (R_Tags r))))
  (or_return
    (range_reject (fun kv => (kv.2 != "") && invalidIdentity kv.2)
       (fun kv => invalid kv.1 "must be bounded when known")
       (order (optional_fields r)))
  (let field := invalidRecordChronology r in
   if field != "" then invalid field "is inconsistent with record chronology"
   else if (0 <? R_ReplayGeneration r)%Z && (R_OriginalDeadLetterID r == "")
   then invalid "original_dead_letter_id" "is required for replay lineage"
   else if (0 <? R_ReplayGeneration r)%Z && (R_PriorDeadLetterID r == "")
   then invalid "prior_dead_letter_id" "is required for replay lineage"
   else ErrNil))).

Definition JobRecord_Validate (r : JobRecord) : error :=
  if negb (RecordKind_valid (R_Kind r)) then invalid "kind" "is unsupported"
  else if invalidIdentity (R_ID r) then invalid "id" "is required and must be bounded"
  else if invalidIdentity (R_Backend r) then invalid "backend" "is required and must be bounded"
  else if invalidIdentity (R_Queue r) then invalid "queue" "is required and must be bounded"
  else if IsZero (R_OccurredAt r) then invalid "occurred_at" "is required"
  else if (R_Attempts r =? 0)%Z then invalid "attempts" "must be positive"
  else if invalidIdentity (R_FailureCode r)
  then invalid "failure_code" "is required and must be bounded"
  else or_return (Payload_validate (R_Payload r))
  (if (R_EnvelopeVersion r =? 0)%Z
   then if hasV1Metadata r
        then invalid "envelope_version" "is required for v1 metadata" else ErrNil
   else if negb (R_EnvelopeVersion r =? CurrentEnvelopeVersion)%Z
   then invalid "envelope_version" "is unsupported"
   else JobRecord_Validate_v1 r).

End iteration.

(** * Page and inspection requests *)

Record PageRequest := mkPageRequest {
  G_Cursor : string;
  G_Limit : Z;
  G_Search : string;
  G_Sort : string;
  G_Direction : string
}.

Definition SortField_valid (s : string) : bool :=
  (s == SortOccurredAt) || (s == SortQueue) || (s == SortAttempts).

Definition SortDirection_valid (d : string) : bool :=
  (d == SortAscending) || (d == SortDescending).

Definition PageRequest_Validate (r : PageRequest) : error :=
  if (G_Limit r =? 0)%Z || (MaxPageSize <? G_Limit r)%Z
  then invalid "limit" "must be within the page limit"
  else if (MaxCursorBytes <? len (G_Cursor r))%Z
  then invalid "cursor" "exceeds the cursor limit"
  else if (MaxSearchBytes <? len (G_Search r))%Z
  then invalid "search" "exceeds the search limit"
  else if negb (SortField_valid (G_Sort r)) then invalid "sort" "is unsupported"
  else if negb (SortDirection_valid (G_Direction r)) then invalid "direction" "is unsupported"
  else ErrNil.

Record RecordPage := mkRecordPage { RP_Items : list JobRecord; RP_NextCursor : string }.

Definition RecordPage_Validate order times (p : RecordPage) : error :=
  if (MaxPageSize <? zlen (RP_Items p))%Z then invalid "items" "exceeds the page limit"
  else or_return (validate_items (JobRecord_Validate order times) "items" "." 0 (RP_Items p))
  (if (MaxCursorBytes <? len (RP_NextCursor p))%Z
   then invalid "next_cursor" "exceeds the cursor limit" else ErrNil).

Record InspectRequest := mkInspectRequest {
  I_Kind : string;
  I_ID : string;
  I_Visibility : string
}.

Definition InspectRequest_Validate (r : InspectRequest) : error :=
  if negb (RecordKind_valid (I_Kind r)) then invalid "kind" "is unsupported"
  else if invalidIdentity (I_ID r) then invalid "id" "is required and must be bounded"
  else if negb (PayloadVisibility_valid (I_Visibility r))
  then invalid "visibility" "is unsupported"
  else ErrNil.

(** * Specification: what a record may carry and disclose *)

(** Bytes appear only in a revealed payload, and never more than its size. *)
Record payload_ok (p : Payload) : Prop := {
  po_visibility : PayloadVisibility_valid (P_Visibility p) = true;
  po_type : P_ContentType p = "" \/ identity (P_ContentType p);
  po_hidden : P_Visibility p <> PayloadRevealed -> P_Data p = "";
  po_data : (len (P_Data p) <= MaxAdministrativePayloadBytes)%Z;
  po_size : (0 <= P_Size p)%Z /\ (len (P_Data p) <= P_Size p)%Z
}.

(** [later u t]: both instants are known and [u] precedes [t]. *)
Definition no_earlier (t u : option Time) : Prop :=
  forall a b, t = Some a -> u = Some b -> Before b a = false.

Record chronology_ok (r : JobRecord) : Prop := {
  ch_known : Forall (fun ft => forall t, ft.2 = Some t -> IsZero t = false) (knownTimes r);
  ch_first : no_earlier (R_EnqueuedAt r) (R_FirstDeliveryAt r);
  ch_last : no_earlier (R_FirstDeliveryAt r) (R_LastDeliveryAt r);
  ch_dead : no_earlier (R_LastDeliveryAt r) (R_DeadLetteredAt r);
  ch_retention : forall d k, R_DeadLetteredAt r = Some d -> R_RetentionDeadline r = Some k ->
                 After k d = true
}.

Definition tags_ok (tags : option (gmap string string)) : Prop :=
  (map_len tags <= MaxRecordTags)%Z /\
  Forall (fun kv => identity kv.1 /\ identity kv.2) (entries tags).

Record v1_ok (r : JobRecord) : Prop := {
  vo_class : Classification_valid (R_Classification r) = true;
  vo_dead : R_Kind r = RecordDeadLetter -> exists t, R_DeadLetteredAt r = Some t;
  vo_summary : (len (R_FailureSummary r) <= MaxFailureSummaryBytes)%Z;
  vo_diagnostics : payload_ok (R_Diagnostics r);
  vo_tags : tags_ok (R_Tags r);
  vo_fields : Forall (fun kv => kv.2 = "" \/ identity kv.2) (optional_fields r);
  vo_chronology : chronology_ok r;
  vo_lineage : (0 < R_ReplayGeneration r)%Z ->
               R_OriginalDeadLetterID r <> "" /\ R_PriorDeadLetterID r <> ""
}.

Record record_ok (r : JobRecord) : Prop := {
  ro_kind : RecordKind_valid (R_Kind r) = true;
  ro_id : identity (R_ID r);
  ro_backend : identity (R_Backend r);
  ro_queue : identity (R_Queue r);
  ro_occurred : IsZero (R_OccurredAt r) = false;
  ro_attempts : R_Attempts r <> 0%Z;
  ro_code : identity (R_FailureCode r);
  ro_payload : payload_ok (R_Payload r);
  ro_version : (R_EnvelopeVersion r = 0%Z /\ hasV1Metadata r = false) \/
               (R_EnvelopeVersion r = CurrentEnvelopeVersion /\ v1_ok r)
}.

(** * Proofs *)

Lemma len_zero s : len s = 0%Z <-> s = "".
Proof. unfold len. destruct s; simpl; [done|]. split; [lia|done]. Qed.

Lemma optional_identity s : (s != "") && invalidIdentity s = false <-> s = "" \/ identity s.
Proof. rewrite andb_false_iff, negb_false_iff, String.eqb_eq, invalidIdentity_false. done. Qed.

Lemma Payload_validate_ok p : Payload_validate p = ErrNil <-> payload_ok p.
Proof.
  unfold Payload_validate. rewrite !invalid_if, negb_false, optional_identity, !Z.ltb_ge.
  rewrite andb_false_iff, !negb_false_iff, String.eqb_eq, Z.eqb_eq, len_zero.
  split; [intros (? & ? & ? & ? & ? & ? & _); split; try tauto; naive_solver|].
  intros [? ? Hh ? ?]. split_and!; try tauto.
  destruct (decide (P_Visibility p = PayloadRevealed)); naive_solver.
Qed.

(** The validators answer nil or a [*ValidationError], which is what their callers'
    [errors.As] relies on when they rename the field. *)
Definition validation (e : error) : Prop :=
  e = ErrNil \/ exists f q, e = ValidationError f q.

Lemma validation_nil : validation ErrNil.
Proof. by left. Qed.

Lemma validation_invalid f q : validation (invalid f q).
Proof. right. by exists f, q. Qed.

Lemma validation_if (b : bool) e1 e2 :
  validation e1 -> validation e2 -> validation (if b then e1 else e2).
Proof. by destruct b. Qed.

Lemma validation_or_return e rest :
  validation e -> validation rest -> validation (or_return e rest).
Proof. unfold or_return. by destruct (is_nil e). Qed.

Lemma validation_range bad fail l :
  (forall kv, validation (fail kv)) -> validation (range_reject bad fail l).
Proof. intros. induction l; simpl; auto using validation_nil, validation_if. Qed.

Lemma validation_items {A} (check : A -> error) name suffix i l :
  (forall x, validation (check x)) -> validation (validate_items check name suffix i l).
Proof.
  intros H. revert i. induction l as [|x l IH]; intros i; simpl; [by apply validation_nil|].
  destruct (H x) as [-> | (f & q & ->)]; [apply IH|apply validation_invalid].
Qed.

#[local] Hint Resolve validation_nil validation_invalid validation_if validation_or_return
  validation_range validation_items : contract.

Lemma Payload_validate_shape p : validation (Payload_validate p).
Proof. unfold Payload_validate. auto 10 with contract. Qed.

Lemma diagnostics_nil p :
  match Payload_validate p with
  | ValidationError field problem => invalid ("diagnostics." +:+ field) problem
  | err => err
  end = ErrNil <-> payload_ok p.
Proof.
  rewrite <- Payload_validate_ok.
  destruct (Payload_validate_shape p) as [-> | (f & q & ->)]; done.
Qed.

Lemma diagnostics_shape p :
  validation (match Payload_validate p with
              | ValidationError field problem => invalid ("diagnostics." +:+ field) problem
              | err => err
              end).
Proof.
  destruct (Payload_validate_shape p) as [-> | (f & q & ->)]; auto with contract.
Qed.

Lemma both_false t u test :
  both t u test = false <-> forall a b, t = Some a -> u = Some b -> test a b = false.
Proof. destruct t, u; simpl; naive_solver. Qed.

Lemma named_if (b : bool) name rest :
  name <> "" -> (if b then name else rest) = "" <-> b = false /\ rest = "".
Proof. intros. destruct b; intuition congruence. Qed.

Lemma range_zero_none l :
  range_zero l = None <-> Forall (fun ft => forall t, ft.2 = Some t -> IsZero t = false) l.
Proof.
  induction l as [|[f [t|]] l IH]; simpl; [done| |].
  - rewrite Forall_cons, <- IH. simpl. destruct (IsZero t) eqn:E.
    + split; [done|]. intros [H _]. specialize (H t eq_refl). congruence.
    + split; [|by intros [_ ?]]. intros. split; [|done]. by intros ? [= <-].
  - rewrite Forall_cons, <- IH. simpl. split; [|by intros [_ ?]]. by intros.
Qed.

Lemma range_zero_field l f : range_zero l = Some f -> exists t, (f, t) ∈ l.
Proof.
  induction l as [|[g [t|]] l IH]; simpl; [done| |].
  - case_test; [intros [= ->]; eexists; by left|]. intros [u ?]%IH. exists u. by right.
  - intros [u ?]%IH. exists u. by right.
Qed.

Section order.
Variable order : list (string * string) -> list (string * string).
Variable times : list (string * option Time) -> list (string * option Time).
Hypothesis order_perm : forall l, order l ≡ₚ l.
Hypothesis times_perm : forall l, times l ≡ₚ l.

Lemma invalidRecordChronology_ok r :
  (invalidRecordChronology times r != "") = false <-> chronology_ok r.
Proof.
  rewrite negb_false_iff, String.eqb_eq. unfold invalidRecordChronology.
  destruct (range_zero (times (knownTimes r))) as [f|] eqn:E.
  - assert (f <> "").
    { apply range_zero_field in E as [t Ht]. rewrite times_perm in Ht.
      unfold knownTimes in Ht. set_unfold in Ht. naive_solver. }
    split; [done|]. intros [Hk _ _ _ _]. rewrite <- times_perm, <- range_zero_none in Hk. congruence.
  - apply range_zero_none in E. rewrite times_perm in E. rewrite !named_if by done.
    rewrite !both_false. setoid_rewrite negb_false_iff. unfold no_earlier.
    split; [intros (? & ? & ? & ? & _); by split|intros []; tauto].
Qed.

Lemma JobRecord_Validate_v1_ok r : JobRecord_Validate_v1 order times r = ErrNil <-> v1_ok r.
Proof.
  unfold JobRecord_Validate_v1. cbv zeta.
  rewrite !invalid_if, or_return_nil, invalid_if, !or_return_nil, !invalid_if.
  rewrite diagnostics_nil, !range_reject_nil by done. rewrite !order_perm.
  rewrite invalidRecordChronology_ok, negb_false, !Z.ltb_ge, !andb_false_iff, !Z.ltb_ge.
  rewrite !String.eqb_neq.
  assert (forall l, Forall (fun kv : string * string => (kv.2 != "") && invalidIdentity kv.2 = false) l
          <-> Forall (fun kv => kv.2 = "" \/ identity kv.2) l) as ->.
  { intros l. apply Forall_proper; [|done]. intros kv. apply optional_identity. }
  assert (forall l, Forall (fun kv : string * string =>
            invalidIdentity kv.1 || invalidIdentity kv.2 = false) l
          <-> Forall (fun kv => identity kv.1 /\ identity kv.2) l) as ->.
  { intros l. apply Forall_proper; [|done]. intros kv.
    by rewrite orb_false_iff, !invalidIdentity_false. }
  split.
  - intros (? & Hd & ? & ? & ? & ? & ? & ? & Ho & Hp & _). split; try done.
    + intros Hk. destruct Hd as [?|Hd]; [done|]. destruct (R_DeadLetteredAt r); [eauto|done].
    + intros. destruct Ho, Hp; naive_solver lia.
  - intros [? Hd ? ? [? ?] ? Hc Hl]. split_and!; try done.
    + destruct (decide (R_Kind r = RecordDeadLetter)) as [Hk|]; [right|by left].
      destruct (Hd Hk) as [t Ht]. rewrite Ht.
      destruct Hc as [Hk' _ _ _ _]. rewrite Forall_forall in Hk'.
      apply (Hk' ("dead_lettered_at", R_DeadLetteredAt r)); [unfold knownTimes; set_solver|done].
    + destruct (decide (0 < R_ReplayGeneration r)%Z); [right; naive_solver|left; lia].
    + destruct (decide (0 < R_ReplayGeneration r)%Z); [right; naive_solver|left; lia].
Qed.

Lemma JobRecord_Validate_ok r : JobRecord_Validate order times r = ErrNil <-> record_ok r.
Proof.
  unfold JobRecord_Validate.
  rewrite !invalid_if, or_return_nil, !invalidIdentity_false, negb_false, Z.eqb_neq.
  rewrite Payload_validate_ok.
  assert ((if (R_EnvelopeVersion r =? 0)%Z
           then if hasV1Metadata r
                then invalid "envelope_version" "is required for v1 metadata" else ErrNil
           else if negb (R_EnvelopeVersion r =? CurrentEnvelopeVersion)%Z
           then invalid "envelope_version" "is unsupported"
           else JobRecord_Validate_v1 order times r) = ErrNil <->
          (R_EnvelopeVersion r = 0%Z /\ hasV1Metadata r = false) \/
          (R_EnvelopeVersion r = CurrentEnvelopeVersion /\ v1_ok r)) as ->.
  { destruct (Z.eqb_spec (R_EnvelopeVersion r) 0) as [->|].
    - rewrite invalid_if. unfold CurrentEnvelopeVersion. intuition lia.
    - rewrite invalid_if, JobRecord_Validate_v1_ok, negb_false, Z.eqb_eq. intuition lia. }
  split; [intros (? & ? & ? & ? & ? & ? & ? & ? & ?); by split|intros []; tauto].
Qed.

Lemma JobRecord_Validate_shape r : validation (JobRecord_Validate order times r).
Proof.
  assert (validation (JobRecord_Validate_v1 order times r)).
  { unfold JobRecord_Validate_v1. cbv zeta. auto 20 using diagnostics_shape with contract. }
  unfold JobRecord_Validate. auto 20 using Payload_validate_shape with contract.
Qed.

Lemma RecordPage_Validate_ok p :
  RecordPage_Validate order times p = ErrNil <->
  (zlen (RP_Items p) <= MaxPageSize)%Z /\ Forall record_ok (RP_Items p) /\
  (len (RP_NextCursor p) <= MaxCursorBytes)%Z.
Proof.
  unfold RecordPage_Validate.
  rewrite invalid_if, or_return_nil, invalid_if, validate_items_nil, !Z.ltb_ge.
  assert (Forall (fun x => JobRecord_Validate order times x = ErrNil) (RP_Items p)
          <-> Forall record_ok (RP_Items p)) as ->.
  { apply Forall_proper; [|done]. intros x. by apply JobRecord_Validate_ok. }
  tauto.
Qed.

End order.

(** C40: Whatever order Go iterates its maps in, [RecordPage.Validate] accepts exactly
    the pages of at most 200 records, each within the disclosure bounds (bytes only
    in a revealed payload, at most 1 MiB and at most its size), with bounded labels
    and tags, consistent chronology and complete replay lineage, and no v1 metadata
    on a legacy record; every other page is refused with a [ValidationError], so
    renaming an item's error never dereferences nil. *)
Theorem record_page_exact (order : list (string * string) -> list (string * string))
    (times : list (string * option Time) -> list (string * option Time)) (p : RecordPage) :
  (forall l, order l ≡ₚ l) -> (forall l, times l ≡ₚ l) ->
  (RecordPage_Validate order times p = ErrNil <->
   (zlen (RP_Items p) <= MaxPageSize)%Z /\ Forall record_ok (RP_Items p) /\
   (len (RP_NextCursor p) <= MaxCursorBytes)%Z) /\
  (RecordPage_Validate order times p <> ErrNil ->
   exists field problem, RecordPage_Validate order times p = ValidationError field problem).
Proof.
  intros Ho Ht. split.
  - by apply RecordPage_Validate_ok.
  - assert (validation (RecordPage_Validate order times p)) as [|?]; [|done..].
    unfold RecordPage_Validate. auto 10 using JobRecord_Validate_shape with contract.
Qed.

(** A legacy failure with a revealed five-byte payload. *)
Definition sample_record (data : string) (size : Z) (visibility : string) : JobRecord :=
  mkJobRecord RecordFailure "r1" "valkey" "jobs" (mkTime 5 None 0) 2 "timeout"
    (mkPayload visibility "text/plain" size data) 0
    "" "" "" "" "" "" "" None None None None "" "" "" (mkPayload "" "" 0 "")
    "" "" None "" "" "" "" "" "" 0 None.

Lemma record_page_exact_witness :
  Forall record_ok [sample_record "hello" 5 PayloadRevealed] /\
  (exists field problem,
     RecordPage_Validate reverse reverse
       (mkRecordPage [sample_record "hello" 5 PayloadHidden] "") = ValidationError field problem).
Proof.
  split.
  - apply (record_page_exact reverse reverse
             (mkRecordPage [sample_record "hello" 5 PayloadRevealed] ""));
      [intros; apply reverse_Permutation..|vm_compute; reflexivity].
  - apply (record_page_exact reverse reverse); [intros; apply reverse_Permutation..|].
    vm_compute. discriminate.
Defined.
