(* ===== verification/Stream.v ===== *)
(** Stream queue semantics shared by the stream adapters
    ([internal/streamqueue/semantics.go], [internal/streamqueue/metadata.go]): the
    validation of append, read, claim, acknowledgement and dead-letter requests,
    replay lineage, group depth, entry age, and the copy of an envelope's metadata
    into a management record. *)

From S2P Require Import Prelude GoStd Contract Failure Job Status Codec Records.

Definition MaxBatchSize : Z := 256.

Definition ErrInvalidSemanticRequest : error := Sentinel "streamqueue: invalid semantic request".
Definition ErrMalformedDelivery : error := Sentinel "streamqueue: malformed delivery".

(** [RequestError]: unwraps to the classification and the cause. *)
Definition invalidRequest (command field : string) (cause : error) : error :=
  Join ("streamqueue: invalid " +:+ command +:+ " " +:+ field)
       [ErrInvalidSemanticRequest; cause].

Definition malformedIdentifier : error :=
  Wrap "invalid stream identifier" ErrMalformedDelivery.

Record Delivery := mkDelivery {
  D_ID : string;
  D_Body : string;
  D_Attempts : Z;
  D_Reclaimed : bool;
  D_OriginalDeadLetterID : string;
  D_PriorDeadLetterID : string;
  D_ReplayGeneration : Z
}.

Record FailureMetadata := mkFailureMetadata { F_Classification : string; F_Code : string }.

Definition FailureMetadata_Validate (m : FailureMetadata) : error :=
  Failure_Validate (F_Classification m) (F_Code m).

Record AddRequest := mkAddRequest { A_Stream : string; A_MaxLength : Z; A_Body : string }.

Definition AddRequest_Validate (r : AddRequest) (maxPayloadBytes : Z) : error :=
  if blank (A_Stream r)
  then invalidRequest "add" "stream" (Leaf "stream is required")
  else if (A_MaxLength r <=? 0)%Z
  then invalidRequest "add" "maximum length" (Leaf "maximum length must be positive")
  else if (maxPayloadBytes <=? 0)%Z
  then invalidRequest "add" "payload limit" (Leaf "payload limit must be positive")
  else if (maxPayloadBytes <? len (A_Body r))%Z
  then invalidRequest "add" "payload" (Leaf "payload exceeds limit")
  else ErrNil.

(** The loop over the three named identities. *)
Fixpoint validateIdentity_loop (command : string) (values : list (string * string)) : error :=
  match values with
  | [] => ErrNil
  | (name, value) :: values =>
      if blank value then invalidRequest command name (Leaf (name +:+ " is required"))
      else validateIdentity_loop command values
  end.

Definition validateIdentity (command stream group consumer : string) : error :=
  validateIdentity_loop command
    [("stream", stream); ("group", group); ("consumer", consumer)].

Record ReadRequest := mkReadRequest {
  RR_Stream : string; RR_Group : string; RR_Consumer : string;
  RR_Count : Z; RR_Block : Z
}.

Definition ReadRequest_Validate (r : ReadRequest) : error :=
  or_return (validateIdentity "read" (RR_Stream r) (RR_Group r) (RR_Consumer r))
  (if (RR_Count r <=? 0)%Z || (MaxBatchSize <? RR_Count r)%Z
   then invalidRequest "read" "batch size" (Leaf "batch size is outside bounds")
   else if (RR_Block r <=? 0)%Z
   then invalidRequest "read" "block time" (Leaf "block time must be positive")
   else ErrNil).

Record ClaimRequest := mkClaimRequest {
  CR_Stream : string; CR_Group : string; CR_Consumer : string;
  CR_MinIdle : Z; CR_Start : string; CR_Count : Z
}.

Definition ClaimRequest_Validate (r : ClaimRequest) : error :=
  or_return (validateIdentity "claim" (CR_Stream r) (CR_Group r) (CR_Consumer r))
  (if (CR_MinIdle r <=? 0)%Z
   then invalidRequest "claim" "minimum idle time" (Leaf "minimum idle time must be positive")
   else if blank (CR_Start r)
   then invalidRequest "claim" "cursor" (Leaf "cursor is required")
   else if (CR_Count r <=? 0)%Z || (MaxBatchSize <? CR_Count r)%Z
   then invalidRequest "claim" "batch size" (Leaf "batch size is outside bounds")
   else ErrNil).

Record ClaimResult := mkClaimResult { CL_Next : string; CL_Deliveries : list Delivery }.

Record AckRequest := mkAckRequest { K_Stream : string; K_Group : string; K_ID : string }.

Definition AckRequest_Validate (r : AckRequest) : error :=
  if blank (K_Stream r) then invalidRequest "ack" "stream" (Leaf "stream is required")
  else if blank (K_Group r) then invalidRequest "ack" "group" (Leaf "group is required")
  else if blank (K_ID r) then invalidRequest "ack" "identifier" (Leaf "identifier is required")
  else ErrNil.

Record DeadLetterRequest := mkDeadLetterRequest {
  L_Source : string;
  L_Destination : string;
  L_Group : string;
  L_Delivery : Delivery;
  L_Failure : FailureMetadata
}.

Definition validateReplayLineage (delivery : Delivery) : error :=
  let hasAny := (D_OriginalDeadLetterID delivery != "") || (D_PriorDeadLetterID delivery != "") ||
                negb (D_ReplayGeneration delivery =? 0)%Z in
  if negb hasAny then ErrNil
  else if blank (D_OriginalDeadLetterID delivery) || blank (D_PriorDeadLetterID delivery) ||
          (MaxIdentityBytes <? len (D_OriginalDeadLetterID delivery))%Z ||
          (MaxIdentityBytes <? len (D_PriorDeadLetterID delivery))%Z ||
          (D_ReplayGeneration delivery =? 0)%Z
  then Leaf "replay lineage must be complete and bounded"
  else ErrNil.

Definition DeadLetterRequest_Validate (r : DeadLetterRequest) (maxPayloadBytes : Z) : error :=
  if blank (L_Source r)
  then invalidRequest "dead letter" "source" (Leaf "source is required")
  else if blank (L_Destination r) || (L_Destination r == L_Source r)
  then invalidRequest "dead letter" "destination" (Leaf "destination must be distinct")
  else if blank (L_Group r)
  then invalidRequest "dead letter" "group" (Leaf "group is required")
  else if blank (D_ID (L_Delivery r))
  then invalidRequest "dead letter" "identifier" (Leaf "identifier is required")
  else if (D_Attempts (L_Delivery r) <? 1)%Z
  then invalidRequest "dead letter" "attempts" (Leaf "attempts must be positive")
  else let err := validateReplayLineage (L_Delivery r) in
  if negb (is_nil err) then invalidRequest "dead letter" "lineage" err
  else let err := FailureMetadata_Validate (L_Failure r) in
  if negb (is_nil err) then invalidRequest "dead letter" "failure" err
  else AddRequest_Validate
         (mkAddRequest (L_Destination r) 1 (D_Body (L_Delivery r))) maxPayloadBytes.

(** * Depth and age *)

Record GroupState := mkGroupState { S_Pending : Z; S_Lag : Z; OldestPendingID : string }.

Record Stats := mkStats { ST_Depth : Z; ST_Pending : Z; ST_Lag : Z; LagKnown : bool }.

(** [Pending + Lag] is an int64 sum. *)
Definition GroupState_Stats (s : GroupState) : Stats :=
  if (0 <=? S_Lag s)%Z
  then mkStats (wrap_i64 (S_Pending s + S_Lag s)) (S_Pending s) (S_Lag s) true
  else mkStats (-1) (S_Pending s) (S_Lag s) false.

Definition MessageAge (id : string) (now : Time) : error + Z :=
  match Cut id with
  | None => inl malformedIdentifier
  | Some (milliseconds, sequence) =>
      match ParseInt milliseconds with
      | None => inl malformedIdentifier
      | Some timestamp =>
          match ParseUint sequence with
          | None => inl malformedIdentifier
          | Some _ => inr (Z.max (Sub now (UnixMilli timestamp)) 0)
          end
      end
  end.

(** * Envelope metadata *)

Definition MessageMetadata order (unmarshal : string -> error + Message) (body : string)
    : option Metadata :=
  match DecodeE order unmarshal body DefaultMaxMessageBytes with
  | inl _ => None
  | inr message => Message_Metadata message
  end.

(** [make] and a [range] that stores every entry, as in [cloneMetadata]. *)
Definition cloneMetadataTags order (tags : option (gmap string string)) :=
  clone_map order tags.

Definition ApplyMessageMetadata order (r : JobRecord) (metadata : option Metadata) : JobRecord :=
  match metadata with
  | None => r
  | Some m =>
      mkJobRecord (R_Kind r) (R_ID r) (R_Backend r) (R_Queue r) (R_OccurredAt r) (R_Attempts r)
        (R_FailureCode r)
        (mkPayload (P_Visibility (R_Payload r)) (ContentType m) (P_Size (R_Payload r))
           (P_Data (R_Payload r)))
        (R_EnvelopeVersion r) (PayloadSchemaVersion m)
        (if OriginalID m != "" then OriginalID m else R_OriginalID r)
        (R_Topic r) (R_Stream r) (R_RoutingKey r) (R_ConsumerGroup r) (R_SourceRecordID r)
        (match EnqueuedAt m with Some t => Some t | None => R_EnqueuedAt r end)
        (R_FirstDeliveryAt r) (R_LastDeliveryAt r) (R_DeadLetteredAt r)
        (RetryPolicy m) (R_Classification r) (R_FailureSummary r) (R_Diagnostics r)
        (HandlerType m) (JobType m) (cloneMetadataTags order (Tags m)) (TraceID m) (TenantID m)
        (ProducerVersion m) (R_WorkerVersion r) (R_OriginalDeadLetterID r)
        (R_PriorDeadLetterID r) (R_ReplayGeneration r) (R_RetentionDeadline r)
  end.

(** * Specification *)

(** Replay lineage is absent, or complete and bounded. *)
Definition lineage_ok (d : Delivery) : Prop :=
  (D_OriginalDeadLetterID d = "" /\ D_PriorDeadLetterID d = "" /\ D_ReplayGeneration d = 0%Z) \/
  (identity (D_OriginalDeadLetterID d) /\ identity (D_PriorDeadLetterID d) /\
   D_ReplayGeneration d <> 0%Z).

Record dead_letter_ok (r : DeadLetterRequest) (maxPayloadBytes : Z) : Prop := {
  dl_source : blank (L_Source r) = false;
  dl_destination : blank (L_Destination r) = false /\ L_Destination r <> L_Source r;
  dl_group : blank (L_Group r) = false;
  dl_id : blank (D_ID (L_Delivery r)) = false;
  dl_attempts : (1 <= D_Attempts (L_Delivery r))%Z;
  dl_lineage : lineage_ok (L_Delivery r);
  dl_class : Classification_valid (F_Classification (L_Failure r)) = true;
  dl_code : identity (F_Code (L_Failure r));
  dl_limit : (0 < maxPayloadBytes)%Z;
  dl_body : (len (D_Body (L_Delivery r)) <= maxPayloadBytes)%Z
}.

(** A rejection of the stream contract: classified, with its cause. *)
Definition semantic (e : error) : Prop :=
  e = ErrNil \/ Is e "streamqueue: invalid semantic request" = true.

(** * Proofs *)

Lemma request_if (b : bool) command field cause rest :
  (if b then invalidRequest command field cause else rest) = ErrNil <->
  b = false /\ rest = ErrNil.
Proof. destruct b; unfold invalidRequest; intuition congruence. Qed.

Lemma semantic_if (b : bool) command field cause rest :
  semantic rest -> semantic (if b then invalidRequest command field cause else rest).
Proof. intros. destruct b; [by right|done]. Qed.

Lemma semantic_nil : semantic ErrNil.
Proof. by left. Qed.

#[local] Hint Resolve semantic_if semantic_nil : contract.

Lemma validateReplayLineage_ok d : validateReplayLineage d = ErrNil <-> lineage_ok d.
Proof.
  unfold validateReplayLineage, lineage_ok. cbv zeta.
  destruct (negb _) eqn:E.
  - rewrite negb_true_iff, !orb_false_iff, !negb_false_iff, !String.eqb_eq, Z.eqb_eq in E.
    destruct E as [[-> ->] ->]. split; [by left|done].
  - transitivity (identity (D_OriginalDeadLetterID d) /\ identity (D_PriorDeadLetterID d) /\
                  D_ReplayGeneration d <> 0%Z).
    + unfold identity. rewrite <- Z.eqb_neq, <- !Z.ltb_ge.
      destruct (_ || (D_ReplayGeneration d =? 0)%Z) eqn:E2.
      * rewrite !orb_true_iff in E2. split; [done|]. intros ([? ?] & [? ?] & ?).
        intuition congruence.
      * rewrite !orb_false_iff in E2. tauto.
    + split; [by right|]. intros [(H1 & H2 & H3)|?]; [|done].
      rewrite H1, H2, H3 in E. done.
Qed.

Lemma FailureMetadata_Validate_ok m :
  FailureMetadata_Validate m = ErrNil <->
  Classification_valid (F_Classification m) = true /\ identity (F_Code m).
Proof.
  unfold FailureMetadata_Validate, Failure_Validate.
  rewrite !invalid_if, negb_false, invalidIdentity_false. tauto.
Qed.

Lemma AddRequest_Validate_ok r max :
  AddRequest_Validate r max = ErrNil <->
  blank (A_Stream r) = false /\ (0 < A_MaxLength r)%Z /\ (0 < max)%Z /\
  (len (A_Body r) <= max)%Z.
Proof.
  unfold AddRequest_Validate. rewrite !request_if, !Z.leb_gt, Z.ltb_ge. tauto.
Qed.

(** [DeadLetterRequest.Validate] accepts exactly the transfers between distinct
    named streams of an identified delivery with at least one attempt, replay lineage
    that is absent or complete and bounded, a known classification with a bounded
    code and a body within the limit; every refusal, whatever its cause, answers
    [errors.Is] for [ErrInvalidSemanticRequest]. *)
Theorem dead_letter_request_exact (r : DeadLetterRequest) (maxPayloadBytes : Z) :
  (DeadLetterRequest_Validate r maxPayloadBytes = ErrNil <-> dead_letter_ok r maxPayloadBytes) /\
  (DeadLetterRequest_Validate r maxPayloadBytes <> ErrNil ->
   Is (DeadLetterRequest_Validate r maxPayloadBytes)
      "streamqueue: invalid semantic request" = true).
Proof.
  split.
  - unfold DeadLetterRequest_Validate. cbv zeta.
    rewrite !request_if, !is_nil_nil, validateReplayLineage_ok, FailureMetadata_Validate_ok.
    rewrite AddRequest_Validate_ok, orb_false_iff, String.eqb_neq, Z.ltb_ge. simpl.
    split; [intros (? & ? & ? & ? & ? & ? & ? & ? & ? & ? & ?); split; tauto|].
    intros []. split_and!; try tauto; lia.
  - assert (semantic (DeadLetterRequest_Validate r maxPayloadBytes)) as [|?]; [|done..].
    unfold DeadLetterRequest_Validate, AddRequest_Validate. cbv zeta. auto 20 with contract.
Qed.

(** * Entry age *)

(** For every identifier a stream server generates, [<milliseconds>-<sequence>],
    [MessageAge] succeeds and is the time since that entry was appended: never
    negative, exact up to the longest representable duration. *)
Theorem message_age_exact (milliseconds sequence : N) (now : Time) :
  (Z.of_N milliseconds < 2 ^ 63)%Z -> (Z.of_N sequence < 2 ^ 64)%Z ->
  MessageAge (pretty milliseconds +:+ "-" +:+ pretty sequence) now =
  inr (Z.max 0 (Z.min maxDuration
         (wall now - (62135596800 * Second + Z.of_N milliseconds * Millisecond)))).
Proof.
  intros Hm Hs. unfold MessageAge.
  rewrite Cut_at by (intros; by eapply pretty_no_dash).
  rewrite ParseInt_pretty, ParseUint_pretty by done. f_equal.
  unfold Sub, minDuration, maxDuration. simpl. destruct (mono now); lia.
Qed.

(** An entry from the year 2026, read one second later. *)
Lemma message_age_exact_witness :
  MessageAge ("1767225600000" +:+ "-" +:+ "0")
    (mkTime (62135596800 * Second + 1767225601000 * Millisecond) (Some 7%Z) 0) = inr Second.
Proof.
  exact (message_age_exact 1767225600000 0
           (mkTime (62135596800 * Second + 1767225601000 * Millisecond) (Some 7%Z) 0)
           ltac:(lia) ltac:(lia)).
Defined.

(** * Metadata of the envelope *)

(** What a decoded envelope carries is within the record's own bounds. *)
Lemma MessageMetadata_ok order unmarshal body m :
  (forall l, order l ≡ₚ l) ->
  MessageMetadata order unmarshal body = Some m -> metadata_ok m.
Proof.
  intros Ho. unfold MessageMetadata, DecodeE.
  destruct (_ <=? 0)%Z; [done|]. destruct (_ <? _)%Z; [done|].
  destruct (unmarshal body) as [|msg]; [done|]. cbv zeta.
  destruct (Message_Validate order msg) eqn:E; simpl; try done.
  apply Message_Validate_ok in E; [|done]. by destruct E as [H _ _ _ _]; apply H.
Qed.

Lemma apply_fields order r m :
  metadata_ok m -> Forall (fun kv => kv.2 = "" \/ identity kv.2) (optional_fields r) ->
  Forall (fun kv => kv.2 = "" \/ identity kv.2)
    (optional_fields (ApplyMessageMetadata order r (Some m))).
Proof.
  intros [Hm _ _ _ _ _ _ _ _] Hr. unfold metadata_fields, optional_fields in *.
  repeat match goal with H : Forall _ (_ :: _) |- _ => apply Forall_cons in H as [? H] end.
  simpl in *. destruct (OriginalID m != ""); by repeat apply Forall_cons_2.
Qed.

Lemma apply_chronology order r m :
  metadata_ok m -> chronology_ok r ->
  no_earlier (EnqueuedAt m) (R_FirstDeliveryAt r) ->
  chronology_ok (ApplyMessageMetadata order r (Some m)).
Proof.
  intros [_ Ht _ _ _ _ _ _ _] [Hk Hf Hl Hd Hr] He. unfold knownTimes in *.
  rewrite !Forall_cons in Hk. simpl in Hk.
  split; try done.
  - unfold knownTimes. rewrite !Forall_cons. simpl.
    destruct (EnqueuedAt m); simpl; intuition congruence.
  - simpl. by destruct (EnqueuedAt m).
Qed.

(** A valid versioned record stays valid with the metadata of a valid message. *)
Lemma apply_metadata_ok order times r m :
  (forall l, order l ≡ₚ l) -> (forall l, times l ≡ₚ l) ->
  metadata_ok m -> R_EnvelopeVersion r = CurrentEnvelopeVersion ->
  JobRecord_Validate order times r = ErrNil ->
  no_earlier (EnqueuedAt m) (R_FirstDeliveryAt r) ->
  JobRecord_Validate order times (ApplyMessageMetadata order r (Some m)) = ErrNil.
Proof.
  intros Ho Ht E Hv Hr He.
  apply JobRecord_Validate_ok in Hr; [|done..]. apply JobRecord_Validate_ok; [done..|].
  destruct Hr as [? ? ? ? ? ? ? Hp [[Hz _]|[_ H1]]]; [by rewrite Hv in Hz|].
  destruct H1 as [? ? ? ? ? ? ? ?].
  assert (Hm : P_ContentType (R_Payload (ApplyMessageMetadata order r (Some m))) = "" \/
               identity (P_ContentType (R_Payload (ApplyMessageMetadata order r (Some m))))).
  { destruct E as [Hf _ _ _ _ _ _ _ _]. unfold metadata_fields in Hf.
    by apply Forall_cons in Hf as (_ & (_ & (Hc & _)%Forall_cons)%Forall_cons). }
  split; try done.
  - destruct Hp. by split.
  - right. split; [done|]. split; try done.
    + destruct E as [_ _ ? ? _ _ _ _ _]. simpl. unfold cloneMetadataTags.
      by rewrite clone_map_eq.
    + by apply apply_fields.
    + apply apply_chronology; auto.
Qed.

(** Copying the metadata of a decoded envelope into a valid versioned record
    leaves it valid, for every body and every map iteration order, provided the
    producer's enqueue time does not follow the first delivery; identity, lineage,
    disclosure and disposition of the record are untouched. *)
Theorem apply_metadata_preserves (order : list (string * string) -> list (string * string))
    (times : list (string * option Time) -> list (string * option Time))
    (unmarshal : string -> error + Message) (body : string) (r : JobRecord) :
  (forall l, order l ≡ₚ l) -> (forall l, times l ≡ₚ l) ->
  R_EnvelopeVersion r = CurrentEnvelopeVersion ->
  JobRecord_Validate order times r = ErrNil ->
  (forall m, MessageMetadata order unmarshal body = Some m ->
             no_earlier (EnqueuedAt m) (R_FirstDeliveryAt r)) ->
  let r' := ApplyMessageMetadata order r (MessageMetadata order unmarshal body) in
  JobRecord_Validate order times r' = ErrNil /\
  (R_Kind r', R_ID r', R_SourceRecordID r', R_Backend r', R_Queue r') =
    (R_Kind r, R_ID r, R_SourceRecordID r, R_Backend r, R_Queue r) /\
  (R_OriginalDeadLetterID r', R_PriorDeadLetterID r', R_ReplayGeneration r') =
    (R_OriginalDeadLetterID r, R_PriorDeadLetterID r, R_ReplayGeneration r) /\
  (P_Visibility (R_Payload r'), P_Size (R_Payload r'), P_Data (R_Payload r')) =
    (P_Visibility (R_Payload r), P_Size (R_Payload r), P_Data (R_Payload r)) /\
  (R_Classification r', R_FailureCode r', R_Diagnostics r') =
    (R_Classification r, R_FailureCode r, R_Diagnostics r).
Proof.
  intros Ho Ht Hv Hr He r'. subst r'.
  destruct (MessageMetadata order unmarshal body) as [m|] eqn:E; [|done].
  apply MessageMetadata_ok in E; [|done]. split; [|done]. apply apply_metadata_ok; auto.
Qed.

(** A versioned failure record of a stream entry. *)
Definition stream_record : JobRecord :=
  mkJobRecord RecordFailure "1-0" "valkey" "jobs" (mkTime 9 None 0) 2 "timeout"
    (mkPayload PayloadHidden "" 5 "") 1
    "" "" "" "jobs" "" "workers" "1-0" None None None None "" "retryable" ""
    (mkPayload "" "" 0 "") "" "" None "" "" "" "" "" "" 0 None.

Lemma apply_metadata_preserves_witness :
  R_OriginalID (ApplyMessageMetadata reverse stream_record
                  (MessageMetadata reverse sample_unmarshal "{}")) = "id" /\
  JobRecord_Validate reverse reverse
    (ApplyMessageMetadata reverse stream_record
       (MessageMetadata reverse sample_unmarshal "{}")) = ErrNil.
Proof.
  split; [vm_compute; reflexivity|].
  apply (apply_metadata_preserves reverse reverse sample_unmarshal "{}" stream_record);
    [intros; apply reverse_Permutation..|reflexivity|vm_compute; reflexivity|].
  intros m _ a b _ H. discriminate H.
Defined.
