(* ===== verification/Server.v ===== *)
(** What the stream adapters rely on of a Redis or Valkey server: the stream, hash
    and sorted-set commands of the scripts, as a class of operations over an
    abstract server state with their documented laws, and the numbers of the Lua
    interpreter that runs the scripts. A small reference server shows that the laws
    can hold together. *)

From S2P Require Import Prelude GoStd Contract Codec.

(** * Replies: RESP values, as scripts see them and as a client decodes them *)

#[warnings="-register-all"] Inductive reply : Type :=
| RNil
| RString (s : string)
| RInt (n : Z)
| RArray (l : list reply)
| RMap (m : list (string * reply)).

(** One stream entry: its identifier and its fields in order. *)
Record entry := mkStreamEntry { e_id : string; e_fields : list (string * string) }.

#[export] Instance entry_eq_dec : EqDecision entry.
Proof. solve_decision. Defined.

(** * Commands

    The observations describe a state; a command that raises an error answers
    [None]. *)
Class Server (St : Type) := {
  entries_of : St -> string -> list entry;
  pending_of : St -> string -> string -> gset string;
  groups_of : St -> string -> list (string * string);
  hash_of : St -> string -> gmap string string;
  members_of : St -> string -> list string;
  XLEN : St -> string -> option Z;
  XRANGE : St -> string -> string -> option (list entry);
  XPENDING : St -> string -> string -> string -> option (list string);
  XINFO_GROUPS : St -> string -> option (list (list reply));
  XADD : St -> string -> list (string * string) -> option (string * St);
  XADD_MAXLEN : St -> string -> string -> list (string * string) -> option (string * St);
  XDEL : St -> string -> string -> option (Z * St);
  XACK : St -> string -> string -> string -> option (Z * St);
  HGET : St -> string -> string -> option (option string);
  HSET : St -> string -> string -> string -> option St;
  HDEL : St -> string -> string -> option St;
  ZADD_NOW : St -> string -> string -> option St;
  ZCARD : St -> string -> option Z;
  ZRANGE : St -> string -> Z -> Z -> option (list string);
  ZREM : St -> string -> string -> option St
}.

(** An identifier written in full, as the server prints it. *)
Definition full_id (id : string) : Prop :=
  exists ms seq : N, id = pretty ms +:+ "-" +:+ pretty seq.

Section frames.
Context {St : Type} `{!Server St}.

(** The two states agree on a key. *)
Record same_key (k : string) (s s' : St) : Prop := {
  sk_entries : entries_of s' k = entries_of s k;
  sk_pending : forall g, pending_of s' k g = pending_of s k g;
  sk_groups : groups_of s' k = groups_of s k;
  sk_hash : hash_of s' k = hash_of s k;
  sk_members : members_of s' k = members_of s k
}.

(** A change confined to one key. *)
Definition only_key (s s' : St) (k : string) : Prop := forall k', k' <> k -> same_key k' s s'.

(** A stream command leaves the groups of its key, and every other key, alone. *)
Record stream_command (k : string) (s s' : St) : Prop := {
  sc_groups : groups_of s' k = groups_of s k;
  sc_hash : hash_of s' k = hash_of s k;
  sc_members : members_of s' k = members_of s k;
  sc_only : only_key s s' k
}.

(** States that no command can tell apart. *)
Definition same_state (s s' : St) : Prop := forall k, same_key k s s'.

#[export] Instance same_key_equivalence k : Equivalence (same_key k).
Proof.
  split.
  - intros s. by split.
  - intros s s' []. by split.
  - intros s1 s2 s3 [] []. split; congruence.
Qed.

#[export] Instance same_state_equivalence : Equivalence same_state.
Proof.
  split.
  - intros s k. reflexivity.
  - intros s s' H k. by symmetry.
  - intros s1 s2 s3 H1 H2 k. by transitivity s2.
Qed.

Lemma only_key_trans s1 s2 s3 k : only_key s1 s2 k -> only_key s2 s3 k -> only_key s1 s3 k.
Proof. intros H1 H2 k' Hk. by transitivity s2; [apply H1|apply H2]. Qed.
End frames.

(** The value of a field in a flat reply [name, value, name, value, ...] as a
    script's loop finds it: the last occurrence, [None] when absent. *)
Fixpoint flat_field (name : string) (fields : list reply) (found : option reply) : option reply :=
  match fields with
  | RString f :: v :: rest => flat_field name rest (if f == name then Some v else found)
  | _ :: _ :: rest => flat_field name rest found
  | [RString f] => if f == name then None else found
  | _ => found
  end.

(** The laws: what the command reference documents. Identifiers given to [XRANGE],
    [XPENDING], [XDEL] and [XACK] are complete ones. *)
Class ServerLaws (St : Type) `{!Server St} : Prop := {
  XLEN_law (s : St) k n : XLEN s k = Some n -> n = Z.of_nat (length (entries_of s k));
  XRANGE_law (s : St) k id l :
    XRANGE s k id = Some l -> full_id id -> l = filter (fun e => e_id e = id) (entries_of s k);
  XPENDING_law (s : St) k g id l :
    XPENDING s k g id = Some l -> full_id id -> (l = [] <-> id ∉ pending_of s k g);
  XINFO_law (s : St) k l :
    XINFO_GROUPS s k = Some l ->
    Forall2 (fun g f => (flat_field "name" f None = Some (RString g.1)) /\
                        (flat_field "last-delivered-id" f None = Some (RString g.2)))
      (groups_of s k) l;
  groups_law (s : St) k : Forall (fun g => full_id g.2) (groups_of s k);
  XADD_law (s s' : St) k fields id :
    XADD s k fields = Some (id, s') ->
    full_id id /\ (id ∉ (e_id <$> entries_of s k)) /\ (forall g, id ∉ pending_of s k g) /\
    entries_of s' k = entries_of s k ++ [mkStreamEntry id fields] /\
    (forall g, pending_of s' k g = pending_of s k g) /\ stream_command k s s';
  XADD_MAXLEN_law (s s' : St) k (limit : N) fields id :
    XADD_MAXLEN s k (pretty limit) fields = Some (id, s') ->
    full_id id /\ (id ∉ (e_id <$> entries_of s k)) /\
    (let l := entries_of s k ++ [mkStreamEntry id fields] in
     entries_of s' k = drop (length l - N.to_nat limit) l) /\
    (forall g, pending_of s' k g = pending_of s k g) /\ stream_command k s s';
  XDEL_law (s s' : St) k id n :
    XDEL s k id = Some (n, s') -> full_id id ->
    (n = (if decide (id ∈ (e_id <$> entries_of s k)) then 1 else 0))%Z /\
    entries_of s' k = filter (fun e => e_id e <> id) (entries_of s k) /\
    (forall g, pending_of s' k g = pending_of s k g) /\ stream_command k s s';
  XACK_law (s s' : St) k g id n :
    XACK s k g id = Some (n, s') -> full_id id ->
    (n = (if decide (id ∈ pending_of s k g) then 1 else 0))%Z /\
    entries_of s' k = entries_of s k /\
    pending_of s' k g = pending_of s k g ∖ {[id]} /\
    (forall g', g' <> g -> pending_of s' k g' = pending_of s k g') /\
    stream_command k s s';
  HGET_law (s : St) k f v : HGET s k f = Some v -> v = hash_of s k !! f;
  HSET_law (s s' : St) k f v :
    HSET s k f v = Some s' -> hash_of s' k = <[f := v]> (hash_of s k) /\ only_key s s' k;
  HDEL_law (s s' : St) k f :
    HDEL s k f = Some s' -> hash_of s' k = delete f (hash_of s k) /\ only_key s s' k;
  members_law (s : St) k : NoDup (members_of s k);
  ZADD_law (s s' : St) k m :
    ZADD_NOW s k m = Some s' ->
    members_of s' k ≡ₚ m :: filter (fun x => x <> m) (members_of s k) /\ only_key s s' k;
  ZCARD_law (s : St) k n : ZCARD s k = Some n -> n = Z.of_nat (length (members_of s k));
  ZRANGE_law (s : St) k stop l :
    ZRANGE s k 0 stop = Some l -> (0 <= stop)%Z -> l = take (1 + Z.to_nat stop) (members_of s k);
  ZREM_law (s s' : St) k m :
    ZREM s k m = Some s' ->
    members_of s' k = filter (fun x => x <> m) (members_of s k) /\ only_key s s' k
}.

(** * Numbers of the script interpreter *)

(** Integers of magnitude at most 2^53 are exact; the decimal text of a
    non-negative one reads back, and one below 10^14 prints as its digits.
    [to_int] is the conversion of a number that is passed as an integer argument of
    a command. *)
Class LuaNumber (num : Type) := {
  of_int : Z -> num;
  num_lt : num -> num -> bool;
  num_le : num -> num -> bool;
  num_add : num -> num -> num;
  num_sub : num -> num -> num;
  to_int : num -> option Z;
  tonumber : string -> option num;
  tostring : num -> string
}.

Definition exact_int (z : Z) : Prop := (- 2 ^ 53 <= z <= 2 ^ 53)%Z.

Class LuaLaws (num : Type) `{!LuaNumber num} : Prop := {
  num_lt_law a b : exact_int a -> exact_int b -> num_lt (of_int a) (of_int b) = (a <? b)%Z;
  num_le_law a b : exact_int a -> exact_int b -> num_le (of_int a) (of_int b) = (a <=? b)%Z;
  num_add_law a b : exact_int a -> exact_int b -> exact_int (a + b) ->
    num_add (of_int a) (of_int b) = of_int (a + b);
  num_sub_law a b : exact_int a -> exact_int b -> exact_int (a - b) ->
    num_sub (of_int a) (of_int b) = of_int (a - b);
  to_int_law a : exact_int a -> to_int (of_int a) = Some a;
  tonumber_law (n : N) : exact_int (Z.of_N n) -> tonumber (pretty n) = Some (of_int (Z.of_N n));
  tostring_law (n : N) : (Z.of_N n < 10 ^ 14)%Z -> tostring (of_int (Z.of_N n)) = pretty n
}.

(** * A reference server *)

Module Reference.

Record state := mkState {
  streams : gmap string (list entry);
  pel : gmap (string * string) (gset string);
  consumer_groups : gmap string (list (string * (N * N)));
  hashes : gmap string (gmap string string);
  zsets : gmap string (list string)
}.

Definition empty : state := mkState ∅ ∅ ∅ ∅ ∅.

Definition entries_at (s : state) (k : string) : list entry := default [] (streams s !! k).
Definition pending_at (s : state) (k g : string) : gset string := default ∅ (pel s !! (k, g)).
Definition members_at (s : state) (k : string) : list string := remove_dups (default [] (zsets s !! k)).
Definition hash_at (s : state) (k : string) : gmap string string := default ∅ (hashes s !! k).

Definition groups_at (s : state) (k : string) : list (string * string) :=
  (fun g => (g.1, pretty g.2.1 +:+ "-" +:+ pretty g.2.2)) <$> default [] (consumer_groups s !! k).

Definition with_stream (s : state) (k : string) (l : list entry) : state :=
  mkState (<[k := l]> (streams s)) (pel s) (consumer_groups s) (hashes s) (zsets s).
Definition with_pel (s : state) (k g : string) (l : gset string) : state :=
  mkState (streams s) (<[(k, g) := l]> (pel s)) (consumer_groups s) (hashes s) (zsets s).
Definition with_hash (s : state) (k : string) (h : gmap string string) : state :=
  mkState (streams s) (pel s) (consumer_groups s) (<[k := h]> (hashes s)) (zsets s).
Definition with_zset (s : state) (k : string) (l : list string) : state :=
  mkState (streams s) (pel s) (consumer_groups s) (hashes s) (<[k := l]> (zsets s)).

(** The milliseconds of an identifier. *)
Definition id_ms (id : string) : N :=
  match Cut id with
  | Some (ms, _) => match digits 0 (list_ascii_of_string ms) with Some z => Z.to_N z | None => 0 end
  | None => 0
  end.

(** Every identifier of a stream and of the pending lists. *)
Definition known_ids (s : state) (k : string) : list string :=
  (e_id <$> entries_at s k) ++ (map_to_list (pel s) ≫= fun p => elements p.2).

Definition next_ms (l : list string) : N := foldr (fun id n => N.max (id_ms id + 1) n) 1%N l.

(** An identifier without its sequence stands for sequence 0 where one entry is
    named, and for every sequence in a range. *)
Definition complete (id : string) : string :=
  match Cut id with Some _ => id | None => id +:+ "-0" end.

Definition in_range (id : string) (e : entry) : bool :=
  match Cut id with
  | Some _ => bool_decide (e_id e = id)
  | None => match Cut (e_id e) with Some (ms, _) => ms == id | None => false end
  end.

#[global] Instance server : Server state := {|
  entries_of := entries_at;
  pending_of := pending_at;
  groups_of := groups_at;
  hash_of := hash_at;
  members_of := members_at;
  XLEN s k := Some (Z.of_nat (length (entries_at s k)));
  XRANGE s k id := Some (List.filter (in_range id) (entries_at s k));
  XPENDING s k g id := Some (if decide (complete id ∈ pending_at s k g) then [complete id] else []);
  XINFO_GROUPS s k :=
    Some ((fun g => [RString "name"; RString g.1; RString "consumers"; RInt 1;
                     RString "last-delivered-id"; RString g.2])
          <$> groups_at s k);
  XADD s k fields :=
    let id := pretty (next_ms (known_ids s k)) +:+ "-" +:+ pretty 0%N in
    Some (id, with_stream s k (entries_at s k ++ [mkStreamEntry id fields]));
  XADD_MAXLEN s k threshold fields :=
    limit ← ParseUint threshold;
    let id := pretty (next_ms (known_ids s k)) +:+ "-" +:+ pretty 0%N in
    let l := entries_at s k ++ [mkStreamEntry id fields] in
    Some (id, with_stream s k (drop (length l - Z.to_nat limit) l));
  XDEL s k id :=
    Some (if decide (complete id ∈ (e_id <$> entries_at s k)) then 1 else 0,
          with_stream s k (filter (fun e => e_id e <> complete id) (entries_at s k)))%Z;
  XACK s k g id :=
    Some (if decide (complete id ∈ pending_at s k g) then 1 else 0,
          with_pel s k g (pending_at s k g ∖ {[complete id]}))%Z;
  HGET s k f := Some (hash_at s k !! f);
  HSET s k f v := Some (with_hash s k (<[f := v]> (hash_at s k)));
  HDEL s k f := Some (with_hash s k (delete f (hash_at s k)));
  ZADD_NOW s k m :=
    Some (with_zset s k (filter (fun x => x <> m) (members_at s k) ++ [m]));
  ZCARD s k := Some (Z.of_nat (length (members_at s k)));
  ZRANGE s k start stop := Some (take (1 + Z.to_nat stop) (members_at s k));
  ZREM s k m := Some (with_zset s k (filter (fun x => x <> m) (members_at s k)))
|}.

Lemma cut_full (ms seq : N) : Cut (pretty ms +:+ "-" +:+ pretty seq) = Some (pretty ms, pretty seq).
Proof. apply Cut_at. intros c Hc. by eapply pretty_no_dash. Qed.

Lemma complete_full id : full_id id -> complete id = id.
Proof. intros (ms & seq & ->). unfold complete. by rewrite cut_full. Qed.

Lemma id_ms_full (ms seq : N) : id_ms (pretty ms +:+ "-" +:+ pretty seq) = ms.
Proof.
  unfold id_ms. rewrite cut_full. destruct (pretty_read ms) as (c & l & -> & _ & _ & ->).
  apply N2Z.id.
Qed.

Lemma next_ms_above l id : id ∈ l -> (id_ms id < next_ms l)%N.
Proof. induction 1 as [|? ? ? _ IH]; simpl; lia. Qed.

Lemma next_ms_fresh l (seq : N) : (pretty (next_ms l) +:+ "-" +:+ pretty seq) ∉ l.
Proof. intros Hin. apply next_ms_above in Hin. rewrite id_ms_full in Hin. lia. Qed.

Lemma known_pending s k g id : id ∈ pending_at s k g -> id ∈ known_ids s k.
Proof.
  unfold pending_at. destruct (pel s !! (k, g)) as [l|] eqn:E; simpl; [|set_solver].
  intros Hin. apply elem_of_app. right. apply list_elem_of_bind.
  exists ((k, g), l). split; [by apply elem_of_elements|by apply elem_of_map_to_list].
Qed.

Lemma filter_in_range id (l : list entry) :
  full_id id -> List.filter (in_range id) l = filter (fun e => e_id e = id) l.
Proof.
  intros (ms & seq & ->). induction l as [|e l IH]; [done|].
  simpl. rewrite filter_cons, IH. unfold in_range. rewrite cut_full.
  unfold bool_decide. by destruct (decide_rel _ _ _).
Qed.

Lemma ParseUint_of_pretty (n : N) z : ParseUint (pretty n) = Some z -> z = Z.of_N n.
Proof.
  unfold ParseUint. destruct (pretty_read n) as (c & l & -> & _ & _ & ->).
  cbn [mbind option_bind]. case_test; [by intros [= <-]|done].
Qed.

Lemma only_stream s k l : only_key s (with_stream s k l) k.
Proof.
  intros k' Hk. split; simpl; try done. unfold entries_at. simpl.
  by rewrite lookup_insert_ne.
Qed.

Lemma only_pel s k g l : only_key s (with_pel s k g l) k.
Proof.
  intros k' Hk. split; simpl; try done. intros g'. unfold pending_at. simpl.
  rewrite lookup_insert_ne; [done|congruence].
Qed.

Lemma stream_stream s k l : stream_command k s (with_stream s k l).
Proof. split; try done. apply only_stream. Qed.

Lemma stream_pel s k g l : stream_command k s (with_pel s k g l).
Proof. split; try done. apply only_pel. Qed.

Lemma only_hash s k h : only_key s (with_hash s k h) k.
Proof.
  intros k' Hk. split; simpl; try done. unfold hash_at. simpl. by rewrite lookup_insert_ne.
Qed.

Lemma only_zset s k l : only_key s (with_zset s k l) k.
Proof.
  intros k' Hk. split; simpl; try done. unfold members_at. simpl. by rewrite lookup_insert_ne.
Qed.

Lemma entries_with s k l : entries_at (with_stream s k l) k = l.
Proof. unfold entries_at. simpl. by rewrite lookup_insert_eq. Qed.

Lemma remove_dups_nodup (l : list string) : NoDup l -> remove_dups l = l.
Proof.
  induction 1 as [|x l Hx _ IH]; [done|]. simpl. rewrite IH.
  by destruct (decide_rel _ x l).
Qed.

Lemma members_with s k l : NoDup l -> members_at (with_zset s k l) k = l.
Proof. intros. unfold members_at. simpl. rewrite lookup_insert_eq. by apply remove_dups_nodup. Qed.

Lemma members_nodup s k : NoDup (members_at s k).
Proof. apply NoDup_remove_dups. Qed.

Lemma hash_with s k h : hash_at (with_hash s k h) k = h.
Proof. unfold hash_at. simpl. by rewrite lookup_insert_eq. Qed.

#[global] Instance server_laws : ServerLaws state.
Proof.
  split; simpl.
  - intros. congruence.
  - intros s k id l [= <-] Hid. by apply filter_in_range.
  - intros s k g id l [= <-] Hid. rewrite complete_full by done. by case_decide.
  - intros s k l [= <-]. induction (groups_at s k) as [|g gs IH]; simpl; by constructor.
  - intros s k. apply Forall_fmap, Forall_true. intros g. by eexists _, _.
  - intros s s' k fields id [= <- <-]. split; [by eexists _, _|]. split.
    { intros Hin. eapply next_ms_fresh, elem_of_app. by left. }
    rewrite entries_with. split_and!; try done; [|apply stream_stream].
    intros g Hin. by eapply next_ms_fresh, known_pending.
  - intros s s' k limit fields id (l & Hl & [= <- <-])%bind_Some.
    assert (l = Z.of_N limit) as -> by (by eapply ParseUint_of_pretty).
    split; [by eexists _, _|]. split.
    { intros Hin. eapply next_ms_fresh, elem_of_app. by left. }
    rewrite entries_with. split_and!; [|done|apply stream_stream].
    simpl. f_equal. lia.
  - intros s s' k id n [= <- <-] Hid. rewrite complete_full, entries_with by done.
    split_and!; try done. apply stream_stream.
  - intros s s' k g id n [= <- <-] Hid. rewrite complete_full by done.
    split_and!; try done; [unfold pending_at at 1; simpl; by rewrite lookup_insert_eq| |apply stream_pel].
    intros g' Hg. unfold pending_at. simpl. rewrite lookup_insert_ne; [done|congruence].
  - intros. congruence.
  - intros s s' k f v [= <-]. rewrite hash_with. split; [done|apply only_hash].
  - intros s s' k f [= <-]. rewrite hash_with. split; [done|apply only_hash].
  - intros. apply members_nodup.
  - intros s s' k m [= <-]. rewrite members_with; [split; [|apply only_zset]|].
    + by rewrite Permutation_app_comm.
    + apply NoDup_app. split_and!; [apply NoDup_filter, members_nodup| |apply NoDup_singleton].
      intros x [Hx _]%list_elem_of_filter ->%list_elem_of_singleton. done.
  - intros. congruence.
  - intros. congruence.
  - intros s s' k m [= <-]. rewrite members_with by (apply NoDup_filter, members_nodup).
    split; [done|apply only_zset].
Qed.

(** Integers as the interpreter's numbers. *)
#[global] Instance lua_number : LuaNumber Z := {|
  of_int z := z;
  num_lt := Z.ltb;
  num_le := Z.leb;
  num_add := Z.add;
  num_sub := Z.sub;
  to_int := Some;
  tonumber := ParseUint;
  tostring z := pretty (Z.to_N z)
|}.

#[global] Instance lua_laws : LuaLaws Z.
Proof.
  split; simpl; try done.
  - intros n H. apply ParseUint_pretty. unfold exact_int in H. lia.
  - intros n _. by rewrite N2Z.id.
Qed.

End Reference.
