(* ===== verification/Scripts.v ===== *)
(** The server-side Lua scripts of the stream adapters
    (valkeystream/native_transport.go, adapters/redisstream/redis.go): enqueue,
    acknowledge, retry and replay, run by a server of class [Server]. A script that
    raises an error keeps the effects of the commands before it. *)

From S2P Require Import Prelude GoStd Contract Codec Server.

(** * Scripts: commands in sequence, an error raised by one ending the script *)

Definition lua (St A : Type) : Type := St -> option A * St.

#[export] Instance lua_ret {St} : MRet (lua St) := fun A a s => (Some a, s).
#[export] Instance lua_bind {St} : MBind (lua St) :=
  fun A B f m s => match m s with (Some a, s') => f a s' | (None, s') => (None, s') end.

(** A Lua run-time error. *)
Definition raise {St A} : lua St A := fun s => (None, s).

(** [redis.call] of a command that only reads, of one with an answer, of one whose
    answer is ignored. *)
Definition query {St A} (f : St -> option A) : lua St A := fun s => (f s, s).
Definition call {St A} (f : St -> option (A * St)) : lua St A :=
  fun s => match f s with Some (a, s') => (Some a, s') | None => (None, s) end.
Definition call_ {St} (f : St -> option St) : lua St () :=
  fun s => match f s with Some s' => (Some (), s') | None => (None, s) end.

(** An operand that must be a number: arithmetic on [nil] raises. *)
Definition operand {St A} (n : option A) : lua St A :=
  match n with Some n => mret n | None => raise end.

(** A string operand: [string.find] and [redis.call] raise on other values. *)
Definition text {St} (v : reply) : lua St string :=
  match v with RString s => mret s | _ => raise end.

(** * Stream identifiers *)

(** [string.gsub(s, '^0+', '')] *)
Fixpoint trim_zeros (s : string) : string :=
  match s with
  | String "0" s => trim_zeros s
  | s => s
  end.

Definition decimalBefore (left right : string) : bool :=
  let left := trim_zeros left in
  let right := trim_zeros right in
  let left := if left == "" then "0" else left in
  let right := if right == "" then "0" else right in
  if negb (String.length left =? String.length right)%nat
  then (String.length left <? String.length right)%nat
  else String.ltb left right.

(** [nil] when either is not a pair. *)
Definition isBefore (left right : string) : option bool :=
  match Cut left, Cut right with
  | Some (leftTime, leftSequence), Some (rightTime, rightSequence) =>
      Some (decimalBefore leftTime rightTime ||
            ((leftTime == rightTime) && decimalBefore leftSequence rightSequence))
  | _, _ => None
  end.

(** A value that Lua's [not] rejects. *)
Definition absent (v : option reply) : bool :=
  match v with None | Some RNil => true | _ => false end.

(** The last value of a field, as the loop over a record's fields leaves it. *)
Fixpoint record_field (name : string) (fields : list (string * string)) (found : option string)
  : option string :=
  match fields with
  | [] => found
  | (f, v) :: rest => record_field name rest (if f == name then Some v else found)
  end.

Section scripts.
Context {St : Type} `{!Server St} {num : Type} `{!LuaNumber num}.

(** * Enqueue *)

Definition enqueueScript (key limit body : string) : lua St string :=
  n ← query (fun s => XLEN s key);
  capacity ← operand (tonumber limit);
  if num_le capacity (of_int n) then mret "capacity"
  else call (fun s => XADD s key [("body", body)]).

Definition redisEnqueueScript (key limit body : string) : lua St string :=
  capacity ← operand (tonumber limit);
  full ← (if num_lt (of_int 0) capacity
          then n ← query (fun s => XLEN s key); mret (num_le capacity (of_int n))
          else mret false);
  if full : bool then mret "capacity" else call (fun s => XADD s key [("body", body)]).

(** * Acknowledge *)

(** The loop over the consumer groups: whether one of them retains the entry. *)
Fixpoint acknowledge_groups (key id : string) (groups : list (list reply)) : lua St bool :=
  match groups with
  | [] => mret false
  | fields :: groups =>
      match flat_field "name" fields None, flat_field "last-delivered-id" fields None with
      | Some group, Some lastDelivered =>
          if absent (Some group) || absent (Some lastDelivered) then mret true
          else
            group ← text group;
            pending ← query (fun s => XPENDING s key group id);
            if (0 <? length pending)%nat then mret true
            else
              lastDelivered ← text lastDelivered;
              match isBefore lastDelivered id with
              | None | Some true => mret true
              | Some false => acknowledge_groups key id groups
              end
      | _, _ => mret true
      end
  end.

Definition acknowledgeScript (key group id : string) : lua St string :=
  n ← call (fun s => XACK s key group id);
  if negb (n =? 1)%Z then mret "lease_lost"
  else
    groups ← query (fun s => XINFO_GROUPS s key);
    retained ← acknowledge_groups key id groups;
    if retained : bool then mret "retained"
    else _ ← call (fun s => XDEL s key id); mret "deleted".

(** * Retry *)

(** The loop over the other consumer groups of a failed delivery's source: whether
    the source entry can be deleted. *)
Fixpoint retry_groups (source group original : string) (groups : list (list reply)) : lua St bool :=
  match groups with
  | [] => mret true
  | fields :: groups =>
      match flat_field "name" fields None, flat_field "last-delivered-id" fields None with
      | Some name, Some lastDelivered =>
          if absent (Some name) || absent (Some lastDelivered) then mret false
          else
            name ← text name;
            held ← (if name != group
                    then pending ← query (fun s => XPENDING s source name original);
                         mret (0 <? length pending)%nat
                    else mret false);
            if held : bool then mret false
            else
              lastDelivered ← text lastDelivered;
              match isBefore lastDelivered original with
              | None | Some true => mret false
              | Some false => retry_groups source group original groups
              end
      | _, _ => mret false
      end
  end.

(** The next lineage of a record that is replayed: [None] is 'malformed'. *)
Definition next_lineage (id : string) (fields : list (string * string)) : option (string * num) :=
  let lineageOriginal := record_field "replay_original_dead_letter_id" fields None in
  let lineagePrior := record_field "replay_prior_dead_letter_id" fields None in
  let lineageGeneration := record_field "replay_generation" fields None in
  let capped (nextOriginal : string) (nextGeneration : num) :=
    if (256 <? String.length nextOriginal)%nat then None else Some (nextOriginal, nextGeneration) in
  match lineageOriginal, lineagePrior, lineageGeneration with
  | None, None, None => capped id (of_int 1)
  | Some lineageOriginal, Some _, Some lineageGeneration =>
      match tonumber lineageGeneration with
      | None => None
      | Some nextGeneration =>
          if num_lt nextGeneration (of_int 1) || num_le (of_int 4294967295) nextGeneration then None
          else capped lineageOriginal (num_add nextGeneration (of_int 1))
      end
  | _, _, _ => None
  end.

(** The fields of a replayed entry. *)
Definition replayed_fields (body id nextOriginal : string) (nextGeneration : num)
  : list (string * string) :=
  [("body", body); ("replay_original_dead_letter_id", nextOriginal);
   ("replay_prior_dead_letter_id", id); ("replay_generation", tostring nextGeneration)].

(** After the new entry is appended: settle the failed delivery, drop the record. *)
Definition retry_settle (record source id group kind original : string) (sourceDeletable : bool)
  : lua St string :=
  _ ← (if kind == "failure"
       then _ ← call (fun s => XACK s source group original);
            if sourceDeletable : bool
            then _ ← call (fun s => XDEL s source original); mret ()
            else mret ()
       else mret ());
  _ ← call (fun s => XDEL s record id);
  mret "ok".

(** The entry is appended where the destination has room. *)
Definition retry_append (record destination source id group kind limit body original : string)
    (fields : list (string * string)) (sourceDeletable : bool) : lua St string :=
  if kind == "dead_letter" then
    match next_lineage id fields with
    | None => mret "malformed"
    | Some (nextOriginal, nextGeneration) =>
        n ← query (fun s => XLEN s destination);
        capacity ← operand (tonumber limit);
        if num_le capacity (of_int n) then mret "capacity"
        else
          _ ← call (fun s => XADD s destination
                               (replayed_fields body id nextOriginal nextGeneration));
          retry_settle record source id group kind original sourceDeletable
    end
  else
    n ← query (fun s => XLEN s destination);
    let destinationLength :=
      if (destination == source) && sourceDeletable then num_sub (of_int n) (of_int 1)
      else of_int n in
    capacity ← operand (tonumber limit);
    if num_le capacity destinationLength then mret "capacity"
    else
      _ ← call (fun s => XADD s destination [("body", body)]);
      retry_settle record source id group kind original sourceDeletable.

Definition retryRecordScript (record destination source id group kind limit : string)
  : lua St string :=
  found ← query (fun s => XRANGE s record id);
  match found with
  | [] => mret "not_found"
  | e :: _ =>
      match record_field "body" (e_fields e) None, record_field "original_id" (e_fields e) None with
      | Some body, Some original =>
          if kind == "failure" then
            pending ← query (fun s => XPENDING s source group original);
            if (length pending =? 0)%nat then mret "stale"
            else
              groups ← query (fun s => XINFO_GROUPS s source);
              sourceDeletable ← retry_groups source group original groups;
              retry_append record destination source id group kind limit body original
                (e_fields e) sourceDeletable
          else retry_append record destination source id group kind limit body original
                 (e_fields e) false
      | _, _ => mret "malformed"
      end
  end.

(** * Replay *)

Fixpoint expire (registry order : string) (expired : list string) : lua St () :=
  match expired with
  | [] => mret ()
  | replayKey :: expired =>
      _ ← call_ (fun s => HDEL s registry replayKey);
      _ ← call_ (fun s => ZREM s order replayKey);
      expire registry order expired
  end.

(** The replay is registered and the oldest registrations beyond the limit go. *)
Definition register_replay (registry order replayKey limit replayed : string) : lua St string :=
  _ ← call_ (fun s => HSET s registry replayKey replayed);
  _ ← call_ (fun s => ZADD_NOW s order replayKey);
  n ← query (fun s => ZCARD s order);
  capacity ← operand (tonumber limit);
  let excess := num_sub (of_int n) capacity in
  _ ← (if num_lt (of_int 0) excess
       then stop ← operand (to_int (num_sub excess (of_int 1)));
            expired ← query (fun s => ZRANGE s order 0 stop);
            expire registry order expired
       else mret ());
  mret "ok".

Definition replayRecordScript
    (record destination registry order id policy replayKey limit : string) : lua St string :=
  found ← query (fun s => XRANGE s record id);
  match found with
  | [] => mret "not_found"
  | e :: _ =>
      match record_field "body" (e_fields e) None with
      | None => mret "malformed"
      | Some body =>
          match next_lineage id (e_fields e) with
          | None => mret "malformed"
          | Some (nextOriginal, nextGeneration) =>
              prior ← query (fun s => HGET s registry replayKey);
              match prior with
              | Some prior =>
                  if policy == "reject_duplicate" then mret "duplicate"
                  else
                    n ← query (fun s => XLEN s destination);
                    priorRecord ← query (fun s => XRANGE s destination prior);
                    let destinationLength :=
                      if (0 <? length priorRecord)%nat then num_sub (of_int n) (of_int 1)
                      else of_int n in
                    capacity ← operand (tonumber limit);
                    if num_le capacity destinationLength then mret "capacity"
                    else
                      _ ← call (fun s => XDEL s destination prior);
                      replayed ← call (fun s => XADD s destination
                                         (replayed_fields body id nextOriginal nextGeneration));
                      register_replay registry order replayKey limit replayed
              | None =>
                  n ← query (fun s => XLEN s destination);
                  capacity ← operand (tonumber limit);
                  if num_le capacity (of_int n) then mret "capacity"
                  else
                    replayed ← call (fun s => XADD s destination
                                       (replayed_fields body id nextOriginal nextGeneration));
                    register_replay registry order replayKey limit replayed
              end
          end
      end
  end.

End scripts.

(** * Running a script *)

(** What holds of the answer ([None] when the script raised) and of the state. *)
Definition outcome {St A} (m : lua St A) (Q : option A -> St -> Prop) (s : St) : Prop :=
  Q (m s).1 (m s).2.

Section outcomes.
Context {St : Type}.
Implicit Types (s : St).

Lemma outcome_bind {A B} (m : lua St A) (f : A -> lua St B) Q s :
  outcome m (fun r s' => match r with Some a => outcome (f a) Q s' | None => Q None s' end) s ->
  outcome (m ≫= f) Q s.
Proof. unfold outcome, mbind, lua_bind. by destruct (m s) as [[a|] s']. Qed.

Lemma outcome_ret {A} (a : A) Q s : Q (Some a) s -> outcome (mret a) Q s.
Proof. done. Qed.

Lemma outcome_raise {A} (Q : option A -> St -> Prop) s : Q None s -> outcome raise Q s.
Proof. done. Qed.

Lemma outcome_query {A} (f : St -> option A) Q s :
  (forall a, f s = Some a -> Q (Some a) s) -> Q None s -> outcome (query f) Q s.
Proof. unfold outcome, query. simpl. destruct (f s); auto. Qed.

Lemma outcome_call {A} (f : St -> option (A * St)) Q s :
  (forall a s', f s = Some (a, s') -> Q (Some a) s') -> Q None s -> outcome (call f) Q s.
Proof. unfold outcome, call. destruct (f s) as [[a s']|]; simpl; auto. Qed.

Lemma outcome_call_ (f : St -> option St) Q s :
  (forall s', f s = Some s' -> Q (Some ()) s') -> Q None s -> outcome (call_ f) Q s.
Proof. unfold outcome, call_. destruct (f s); simpl; auto. Qed.

Lemma outcome_operand {A} (n : option A) Q s :
  (forall a, n = Some a -> Q (Some a) s) -> Q None s -> outcome (operand n) Q s.
Proof. unfold outcome. destruct n; simpl; auto. Qed.

Lemma outcome_text v Q s :
  (forall t, v = RString t -> Q (Some t) s) -> Q None s -> outcome (text v) Q s.
Proof. unfold outcome. destruct v; simpl; auto. Qed.

Lemma outcome_mono {A} (m : lua St A) (P Q : option A -> St -> Prop) s :
  outcome m P s -> (forall r s', P r s' -> Q r s') -> outcome m Q s.
Proof. unfold outcome. auto. Qed.

(** A script that ran. *)
Lemma outcome_run {A} (m : lua St A) Q s r s' : outcome m Q s -> m s = (r, s') -> Q r s'.
Proof. unfold outcome. intros H E. by rewrite E in H. Qed.
End outcomes.

(** Enters the next statement of a script; a raised error leaves the state. *)
Ltac lua_enter :=
  repeat match goal with |- outcome (mbind _ _) _ _ => apply outcome_bind end;
  lazymatch goal with
  | |- outcome (query _) _ _ => apply outcome_query
  | |- outcome (call _) _ _ => apply outcome_call
  | |- outcome (call_ _) _ _ => apply outcome_call_
  | |- outcome (operand _) _ _ => apply outcome_operand
  | |- outcome (text _) _ _ => apply outcome_text
  end.

(** * Identifier order *)

Section decimals.
Local Open Scope Z_scope.

Lemma digit_range c d : digit c = Some d -> d = Z.of_N (N_of_ascii c) - 48 /\ 0 <= d <= 9.
Proof. unfold digit. case_test; [|done]. intros [= <-]. lia. Qed.

Lemma digits_bounds l acc v :
  digits acc l = Some v -> 0 <= acc ->
  acc * 10 ^ Z.of_nat (length l) <= v < (acc + 1) * 10 ^ Z.of_nat (length l).
Proof.
  revert acc. induction l as [|c l IH]; intros acc; [intros [= <-]; simpl; lia|].
  intros (d & Hd & H)%bind_Some Hacc. apply digit_range in Hd as [_ Hd].
  apply IH in H; [|lia].
  replace (10 ^ Z.of_nat (length (c :: l))) with (10 * 10 ^ Z.of_nat (length l)).
  - nia.
  - simpl length. rewrite Nat2Z.inj_succ, Z.pow_succ_r; lia.
Qed.

Lemma ascii_length s : length (list_ascii_of_string s) = String.length s.
Proof. induction s; simpl; congruence. Qed.

(** Digit strings of one length compare as their values. *)
Lemma ltb_digits s1 s2 a v1 v2 :
  String.length s1 = String.length s2 -> 0 <= a ->
  digits a (list_ascii_of_string s1) = Some v1 -> digits a (list_ascii_of_string s2) = Some v2 ->
  String.ltb s1 s2 = (v1 <? v2).
Proof.
  unfold String.ltb. revert s2 a v1 v2.
  induction s1 as [|c1 s1 IH]; intros [|c2 s2] a v1 v2 Hlen Ha; try discriminate Hlen; simpl.
  { intros [= <-] [= <-]. by rewrite Z.ltb_irrefl. }
  injection Hlen as Hlen.
  intros (d1 & Hd1 & H1)%bind_Some (d2 & Hd2 & H2)%bind_Some.
  apply digit_range in Hd1 as [E1 R1], Hd2 as [E2 R2].
  pose proof (digits_bounds _ _ _ H1 ltac:(lia)) as B1.
  pose proof (digits_bounds _ _ _ H2 ltac:(lia)) as B2.
  rewrite !ascii_length in B1, B2. rewrite Hlen in B1.
  unfold Ascii.compare. destruct (N.compare_spec (N_of_ascii c1) (N_of_ascii c2)) as [E|L|L].
  - assert (d1 = d2) as <- by lia. eapply (IH s2 (a * 10 + d1)); eauto. lia.
  - symmetry. apply Z.ltb_lt. nia.
  - symmetry. apply Z.ltb_ge. nia.
Qed.

(** The text [decimalBefore] compares: the same value, and no leading zero. *)
Lemma normalised s v :
  digits 0 (list_ascii_of_string s) = Some v ->
  let t := if trim_zeros s == "" then "0" else trim_zeros s in
  digits 0 (list_ascii_of_string t) = Some v /\ (0 < String.length t)%nat /\
  (10 ^ (Z.of_nat (String.length t) - 1) <= v \/ String.length t = 1%nat).
Proof.
  induction s as [|c s IH]; [intros [= <-]; simpl; split_and!; [done|lia|by right]|].
  destruct (decide (c = "0"%char)) as [->|Hc]; [exact IH|].
  assert (trim_zeros (String c s) = String c s) as ->.
  { destruct c as [[] [] [] [] [] [] [] []]; done. }
  simpl. intros H. split; [done|]. split; [lia|]. left.
  apply bind_Some in H as (d & Hd & H). apply digit_range in Hd as [Ed Rd].
  assert (d <> 0).
  { intros ->. apply Hc. rewrite <- (ascii_N_embedding c), <- (ascii_N_embedding "0").
    f_equal. change (N_of_ascii "0") with 48%N. lia. }
  apply digits_bounds in H; [|lia]. rewrite ascii_length in H.
  replace (Z.of_nat (S (String.length s)) - 1) with (Z.of_nat (String.length s)) by lia. nia.
Qed.

(** [decimalBefore] compares the values of decimal texts. *)
Lemma decimalBefore_digits s1 s2 v1 v2 :
  digits 0 (list_ascii_of_string s1) = Some v1 -> digits 0 (list_ascii_of_string s2) = Some v2 ->
  decimalBefore s1 s2 = (v1 <? v2).
Proof.
  intros H1%normalised H2%normalised. unfold decimalBefore. cbv zeta in H1, H2 |- *.
  revert H1 H2. generalize (if trim_zeros s1 == "" then "0" else trim_zeros s1) as t1.
  generalize (if trim_zeros s2 == "" then "0" else trim_zeros s2) as t2.
  intros t2 t1 (D1 & L1 & B1) (D2 & L2 & B2).
  pose proof (digits_bounds _ _ _ D1 ltac:(lia)) as R1.
  pose proof (digits_bounds _ _ _ D2 ltac:(lia)) as R2. rewrite ascii_length in R1, R2.
  destruct (Nat.eqb_spec (String.length t1) (String.length t2)) as [E|E]; simpl.
  { by eapply ltb_digits. }
  destruct (Nat.ltb_spec (String.length t1) (String.length t2)) as [L|L]; symmetry.
  - apply Z.ltb_lt. destruct B2 as [B2|B2]; [|lia].
    pose proof (Z.pow_le_mono_r 10 (Z.of_nat (String.length t1)) (Z.of_nat (String.length t2) - 1)).
    lia.
  - apply Z.ltb_ge. destruct B1 as [B1|B1]; [|lia].
    pose proof (Z.pow_le_mono_r 10 (Z.of_nat (String.length t2)) (Z.of_nat (String.length t1) - 1)).
    lia.
Qed.
End decimals.

Lemma pretty_digits (n : N) : digits 0 (list_ascii_of_string (pretty n)) = Some (Z.of_N n).
Proof. by destruct (pretty_read n) as (c & l & -> & _ & _ & ->). Qed.

Lemma pretty_inj (n m : N) : pretty n = pretty m -> n = m.
Proof.
  intros E. apply N2Z.inj. apply (inj Some). by rewrite <- !pretty_digits, E.
Qed.

(** The order of two complete identifiers: time first, then sequence. *)
Definition id_before (ms seq ms' seq' : N) : Prop :=
  (ms < ms')%N \/ ms = ms' /\ (seq < seq')%N.

#[export] Instance id_before_dec ms seq ms' seq' : Decision (id_before ms seq ms' seq').
Proof. unfold id_before. apply _. Defined.

(** [isBefore] is the order of stream identifiers. *)
Lemma isBefore_full (ms seq ms' seq' : N) :
  isBefore (pretty ms +:+ "-" +:+ pretty seq) (pretty ms' +:+ "-" +:+ pretty seq') =
  Some (bool_decide (id_before ms seq ms' seq')).
Proof.
  unfold isBefore. rewrite !Reference.cut_full. f_equal.
  rewrite !(decimalBefore_digits _ _ _ _ (pretty_digits _) (pretty_digits _)).
  assert ((pretty ms == pretty ms') = bool_decide (ms = ms')) as ->.
  { destruct (String.eqb_spec (pretty ms) (pretty ms')) as [E|E].
    - apply pretty_inj in E as ->. by rewrite bool_decide_true.
    - rewrite bool_decide_false; congruence. }
  apply eq_true_iff_eq. rewrite bool_decide_eq_true, orb_true_iff, andb_true_iff, bool_decide_eq_true.
  unfold id_before. lia.
Qed.
