(* ===== verification/ScriptSafety.v ===== *)
(** What the scripts of the stream adapters guarantee on every answer and when any of
    their commands raises: the queue limit, exact deletion of settled entries, and that
    retry and replay never lose a job. *)

From S2P Require Import Prelude GoStd Contract Codec Server Scripts.

(** * The consumer groups of a stream *)

(** A group whose last delivered identifier is [last] has seen [id]. *)
Definition delivered (last id : string) : Prop :=
  exists ms seq ms' seq' : N, last = pretty ms +:+ "-" +:+ pretty seq /\
    id = pretty ms' +:+ "-" +:+ pretty seq' /\ ~ id_before ms seq ms' seq'.

Lemma isBefore_delivered last id :
  full_id last -> full_id id ->
  (isBefore last id = Some false /\ delivered last id) \/
  (isBefore last id = Some true /\ ~ delivered last id).
Proof.
  intros (ms & seq & ->) (ms' & seq' & ->). rewrite isBefore_full.
  destruct (decide (id_before ms seq ms' seq')) as [H|H].
  - right. rewrite bool_decide_true by done. split; [done|].
    intros (a & b & c & d & E1 & E2 & Hn).
    assert (Some (pretty ms, pretty seq) = Some (pretty a, pretty b)) as [= ->%pretty_inj ->%pretty_inj]
      by (by rewrite <- !Reference.cut_full, E1).
    assert (Some (pretty ms', pretty seq') = Some (pretty c, pretty d)) as [= ->%pretty_inj ->%pretty_inj]
      by (by rewrite <- !Reference.cut_full, E2).
    done.
  - left. rewrite bool_decide_false by done. split; [done|]. by exists ms, seq, ms', seq'.
Qed.

Section laws.
Context {St : Type} `{!Server St, !ServerLaws St} {num : Type} `{!LuaNumber num, !LuaLaws num}.
Implicit Types s : St.

(** Nothing but the delivery of [group] keeps the entry: every group has seen it, and
    it is pending for no other group. *)
Definition settled s (key group id : string) : Prop :=
  Forall (fun g => delivered g.2 id /\ (g.1 <> group -> id ∉ pending_of s key g.1)) (groups_of s key).

Lemma pending_length s key group id l :
  XPENDING s key group id = Some l -> full_id id ->
  ((0 <? length l)%nat = true /\ id ∈ pending_of s key group) \/
  ((0 <? length l)%nat = false /\ id ∉ pending_of s key group).
Proof.
  intros H Hid. pose proof (XPENDING_law _ _ _ _ _ H Hid) as [H1 H2].
  destruct l; [right; auto|left]. split; [done|].
  destruct (decide (id ∈ pending_of s key group)); [done|]. by specialize (H2 n).
Qed.

(** The loop of the acknowledgement reads only, and looks for a group that has not
    seen the entry or holds it. *)
Lemma acknowledge_groups_outcome s key id groups replies :
  full_id id ->
  Forall2 (fun g f => (flat_field "name" f None = Some (RString g.1)) /\
                      (flat_field "last-delivered-id" f None = Some (RString g.2)))
    groups replies ->
  Forall (fun g => full_id g.2) groups ->
  let free := Forall (fun g : string * string => delivered g.2 id /\ id ∉ pending_of s key g.1) groups in
  outcome (acknowledge_groups key id replies)
    (fun r s' => s' = s /\ match r with Some true => ~ free | Some false => free | None => True end) s.
Proof.
  intros Hid Hg.
  induction Hg as [|g f groups replies [Hn Hl] _ IH]; intros Hf; [|cbn [acknowledge_groups]].
  { apply outcome_ret. by split; [|constructor]. }
  apply Forall_cons in Hf as [Hf Hfs]. specialize (IH Hfs). cbv zeta in *. rewrite Hn, Hl. cbn [absent orb].
  lua_enter; [|done]. intros t [= <-]. lua_enter; [|done].
  intros l Hp. destruct (pending_length _ _ _ _ _ Hp Hid) as [[-> Hin]|[-> Hin]].
  { apply outcome_ret. split; [done|]. intros [[_ H] _]%Forall_cons. done. }
  lua_enter; [|done]. intros t [= <-].
  destruct (isBefore_delivered _ _ Hf Hid) as [[-> Hd]|[-> Hd]].
  - eapply outcome_mono; [exact IH|]. intros r s' [-> H]. split; [done|].
    destruct r as [[]|]; [intros [_ ?]%Forall_cons; by apply H|by constructor|done].
  - apply outcome_ret. split; [done|]. intros [[? _] _]%Forall_cons. done.
Qed.

(** The loop of the retry looks for another such group. *)
Lemma retry_groups_outcome s source group original groups replies :
  full_id original ->
  Forall2 (fun g f => (flat_field "name" f None = Some (RString g.1)) /\
                      (flat_field "last-delivered-id" f None = Some (RString g.2)))
    groups replies ->
  Forall (fun g => full_id g.2) groups ->
  let free := Forall (fun g : string * string =>
    delivered g.2 original /\ (g.1 <> group -> original ∉ pending_of s source g.1)) groups in
  outcome (retry_groups source group original replies)
    (fun r s' => s' = s /\ match r with Some true => free | Some false => ~ free | None => True end) s.
Proof.
  intros Hid Hg.
  induction Hg as [|g f groups replies [Hn Hl] _ IH]; intros Hf; [|cbn [retry_groups]].
  { apply outcome_ret. by split; [|constructor]. }
  apply Forall_cons in Hf as [Hf Hfs]. specialize (IH Hfs). cbv zeta in *. rewrite Hn, Hl. cbn [absent orb].
  lua_enter; [|done]. intros t [= <-].
  apply outcome_bind, (outcome_mono _ (fun r s' => s' = s /\
    match r with
    | Some true => g.1 <> group /\ original ∈ pending_of s source g.1
    | Some false => g.1 <> group -> original ∉ pending_of s source g.1
    | None => True
    end)).
  { destruct (String.eqb_spec g.1 group) as [E|E]; simpl; [by apply outcome_ret|].
    lua_enter; [|done]. intros l Hp. apply outcome_ret.
    destruct (pending_length _ _ _ _ _ Hp Hid) as [[-> Hin]|[-> Hin]]; auto. }
  intros [[]|] s' [-> Hheld]; [|lua_enter; [|done]|done].
  { apply outcome_ret. split; [done|]. intros [[_ H] _]%Forall_cons. by apply H; apply Hheld. }
  intros t [= <-]. destruct (isBefore_delivered _ _ Hf Hid) as [[-> Hd]|[-> Hd]].
  - eapply outcome_mono; [exact IH|]. intros r s' [-> H]. split; [done|].
    destruct r as [[]|]; [by constructor|intros [_ ?]%Forall_cons; by apply H|done].
  - apply outcome_ret. split; [done|]. intros [[? _] _]%Forall_cons. done.
Qed.

(** * Acknowledge *)

(** The delivery of [id] to [group] is settled and nothing else pending changes. *)
Definition released s s' (key group id : string) : Prop :=
  pending_of s' key group = pending_of s key group ∖ {[id]} /\
  (forall g, g <> group -> pending_of s' key g = pending_of s key g).

Definition acked s s' (key group id : string) : Prop :=
  released s s' key group id /\ stream_command key s s'.

(** The groups after the acknowledgement retain the entry exactly when it was not
    settled before. *)
Lemma acked_settled s s' key group id :
  acked s s' key group id ->
  Forall (fun g => delivered g.2 id /\ id ∉ pending_of s' key g.1) (groups_of s' key) <->
  settled s key group id.
Proof.
  intros ((Hp & Ho) & [Hg _ _ _]). rewrite Hg. apply Forall_iff. intros [g last]. simpl.
  destruct (decide (g = group)) as [->|Hne].
  - rewrite Hp. set_solver.
  - rewrite Ho by done. tauto.
Qed.

Lemma XACK_acked s s' key group id n :
  XACK s key group id = Some (n, s') -> full_id id ->
  (n = (if decide (id ∈ pending_of s key group) then 1 else 0))%Z /\
  entries_of s' key = entries_of s key /\ acked s s' key group id.
Proof. intros H Hid. apply XACK_law in H as (? & ? & ? & ? & ?); done. Qed.

(** What an acknowledgement does, by its answer. *)
Definition acknowledgement s (key group id : string) (r : option string) s' : Prop :=
  (r = Some "lease_lost" /\ (id ∉ pending_of s key group) /\ same_state s s') \/
  (r = Some "deleted" /\ (id ∈ pending_of s key group) /\ settled s key group id /\
   entries_of s' key = filter (fun e => e_id e <> id) (entries_of s key) /\ acked s s' key group id) \/
  (r = Some "retained" /\ (id ∈ pending_of s key group) /\ ~ settled s key group id /\
   entries_of s' key = entries_of s key /\ acked s s' key group id) \/
  (r = None /\ entries_of s' key = entries_of s key /\ (s' = s \/ acked s s' key group id)).

Lemma stream_command_trans key s1 s2 s3 :
  stream_command key s1 s2 -> stream_command key s2 s3 -> stream_command key s1 s3.
Proof. intros [] []. split; try congruence. by eapply only_key_trans. Qed.

(** Acknowledging what is not pending changes nothing. *)
Lemma acked_absent s s' key group id :
  (id ∉ pending_of s key group) -> entries_of s' key = entries_of s key ->
  acked s s' key group id -> same_state s s'.
Proof.
  intros Hin He ((Hp & Ho) & [Hg Hh Hm Hk]) k. destruct (decide (k = key)) as [->|]; [|by apply Hk].
  split; try done. intros g. destruct (decide (g = group)) as [->|]; [|auto].
  rewrite Hp. set_solver.
Qed.

(** Deleting an entry keeps the pending lists. *)
Lemma acked_deleted s s1 s2 key group id :
  acked s s1 key group id -> (forall g, pending_of s2 key g = pending_of s1 key g) ->
  stream_command key s1 s2 -> acked s s2 key group id.
Proof.
  intros ((Hp & Ho) & Hs) Hp2 Hs2. split; [split|].
  - by rewrite Hp2.
  - intros g Hg. rewrite Hp2. auto.
  - by eapply stream_command_trans.
Qed.

Lemma acknowledge_outcome s key group id :
  full_id id -> outcome (acknowledgeScript key group id) (acknowledgement s key group id) s.
Proof.
  intros Hid. unfold acknowledgeScript.
  lua_enter; [|unfold acknowledgement; naive_solver].
  intros n s1 (-> & He & Hacked)%XACK_acked; [|done]. case_decide as Hin; simpl.
  2: { apply outcome_ret. left. split_and!; try done. by eapply acked_absent. }
  lua_enter; [|unfold acknowledgement; naive_solver]. intros groups Hg%XINFO_law.
  apply outcome_bind. eapply outcome_mono;
    [by apply acknowledge_groups_outcome; [|exact Hg|apply groups_law]|].
  intros r1 s2 [-> Hr]. pose proof (acked_settled _ _ _ _ _ Hacked) as Hs.
  destruct r1 as [[]|]; simpl; [|lua_enter|].
  - apply outcome_ret. unfold acknowledgement. naive_solver.
  - intros n s2 (_ & Hd & Hp & Hc)%XDEL_law; [|done]. apply outcome_ret. right. left.
    rewrite He in Hd. split_and!; try done; [by apply Hs|by eapply acked_deleted].
  - unfold acknowledgement. naive_solver.
  - unfold acknowledgement. naive_solver.
Qed.

(** C20: What the acknowledgement script does on every answer. The delivery is settled
    for its group; the entry is deleted exactly when every consumer group has been
    delivered it and none holds it pending; a delivery that is not pending any more
    is reported as a lost lease and nothing changes; when a command raises, the entry
    stays. *)
Theorem acknowledge_exact s key group id r s' :
  full_id id -> acknowledgeScript key group id s = (r, s') ->
  acknowledgement s key group id r s'.
Proof. intros Hid. by apply outcome_run, acknowledge_outcome. Qed.

(** * Enqueue *)

(** A stream short enough for its length to be an exact number. *)
Definition countable s (key : string) : Prop := exact_int (Z.of_nat (length (entries_of s key))).

Lemma full_not_capacity id : full_id id -> id <> "capacity".
Proof.
  intros (ms & seq & ->) E. pose proof (Reference.cut_full ms seq) as H. by rewrite E in H.
Qed.

Lemma exact_small (z : Z) : (Z.abs z <= 4294967296)%Z -> exact_int z.
Proof. unfold exact_int. lia. Qed.

(** The capacity test of the scripts. *)
Lemma capacity_test s key (limit : N) n :
  XLEN s key = Some n -> countable s key -> exact_int (Z.of_N limit) ->
  num_le (of_int (Z.of_N limit)) (of_int n) = (N.to_nat limit <=? length (entries_of s key))%nat.
Proof.
  intros ->%XLEN_law Hc Hl. rewrite num_le_law by done. lia.
Qed.

(** What appending an entry to a stream does. *)
Definition appended s s' (key : string) (fields : list (string * string)) (id : string) : Prop :=
  full_id id /\ (id ∉ (e_id <$> entries_of s key)) /\ (forall g, id ∉ pending_of s key g) /\
  entries_of s' key = entries_of s key ++ [mkStreamEntry id fields] /\
  (forall g, pending_of s' key g = pending_of s key g) /\ stream_command key s s'.

Lemma XADD_appended s s' key fields id :
  XADD s key fields = Some (id, s') -> appended s s' key fields id.
Proof. apply XADD_law. Qed.

(** What an enqueue does, by its answer; no limit stands for an unlimited queue. *)
Definition enqueued s (key : string) (limit : option N) (body : string) (r : option string) s' : Prop :=
  match r with
  | None => s' = s
  | Some r =>
      (r = "capacity" /\ s' = s /\
       exists n, limit = Some n /\ (N.to_nat n <= length (entries_of s key))%nat) \/
      (r <> "capacity" /\ appended s s' key [("body", body)] r /\
       forall n, limit = Some n -> (length (entries_of s' key) <= N.to_nat n)%nat)
  end.

Lemma enqueue_outcome s key (limit : N) body :
  exact_int (Z.of_N limit) -> countable s key ->
  outcome (enqueueScript key (pretty limit) body) (enqueued s key (Some limit) body) s.
Proof.
  intros Hl Hc. unfold enqueueScript.
  lua_enter; [|done]. intros n Hn. lua_enter; [|done]. rewrite tonumber_law by done.
  intros c [= <-]. rewrite (capacity_test _ _ _ _ Hn) by done.
  destruct (Nat.leb_spec (N.to_nat limit) (length (entries_of s key))) as [L|L].
  { apply outcome_ret. left. eauto. }
  lua_enter; [|done]. intros id s1 Ha%XADD_appended. right.
  split_and!; [apply full_not_capacity, Ha|done|]. intros n' [= <-].
  destruct Ha as (_ & _ & _ & -> & _). rewrite length_app. simpl. lia.
Qed.

(** The enqueue of the Redis adapter, where a limit of zero is no limit. *)
Lemma redis_enqueue_outcome s key (limit : N) body :
  exact_int (Z.of_N limit) -> countable s key ->
  outcome (redisEnqueueScript key (pretty limit) body)
    (enqueued s key (if (limit =? 0)%N then None else Some limit) body) s.
Proof.
  intros Hl Hc. unfold redisEnqueueScript.
  lua_enter; [|done]. rewrite tonumber_law by done. intros c [= <-].
  rewrite num_lt_law by (done || by apply exact_small).
  apply outcome_bind, (outcome_mono _ (fun r s' => s' = s /\ match r with
    | Some b => b = negb (limit =? 0)%N && (N.to_nat limit <=? length (entries_of s key))%nat
    | None => True end)).
  { destruct (Z.ltb_spec 0 (Z.of_N limit)), (N.eqb_spec limit 0); try lia; [|by apply outcome_ret].
    lua_enter; [|done]. intros m Hm. apply outcome_ret. split; [done|]. by eapply capacity_test. }
  intros [[]|] s1 [-> Hb]; [| |done].
  - apply outcome_ret. left. symmetry in Hb. apply andb_prop in Hb as [Hb Hle%Nat.leb_le].
    destruct (limit =? 0)%N; [done|]. eauto.
  - lua_enter; [|done]. intros id s1 Ha%XADD_appended. right.
    split_and!; [apply full_not_capacity, Ha|done|]. intros n'.
    destruct (limit =? 0)%N; [done|]. intros [= <-]. destruct Ha as (_ & _ & _ & -> & _).
    rewrite length_app. simpl in *. lia.
Qed.

(** * Retry *)

(** Entries other than the one of an identifier. *)
Definition without (id : string) (l : list entry) : list entry := filter (fun e => e_id e <> id) l.

(** The end of a retry: on success the record is gone and a failed delivery is
    settled at its source, where its entry is deleted if it may be; when a command
    raises the record stays. Nothing else changes. *)
Lemma retry_settle_outcome s record source id group kind original deletable :
  record <> source -> full_id id -> full_id original ->
  outcome (retry_settle record source id group kind original deletable)
    (fun r s' =>
       (forall k, k <> source -> k <> record -> same_key k s s') /\
       match r with
       | Some r =>
           r = "ok" /\ entries_of s' record = without id (entries_of s record) /\
           entries_of s' source =
             (if (kind == "failure") && deletable then without original (entries_of s source)
              else entries_of s source) /\
           (kind = "failure" -> released s s' source group original)
       | None =>
           entries_of s' record = entries_of s record /\
           (entries_of s' source = entries_of s source \/
            kind = "failure" /\ entries_of s' source = without original (entries_of s source))
       end) s.
Proof.
  intros Hrs Hid Ho. unfold retry_settle. apply outcome_bind, (outcome_mono _ (fun r s' =>
    only_key s s' source /\
    match r with
    | Some () =>
        entries_of s' source =
          (if (kind == "failure") && deletable then without original (entries_of s source)
           else entries_of s source) /\
        (kind = "failure" -> released s s' source group original)
    | None => entries_of s' source = entries_of s source
    end)).
  { destruct (String.eqb_spec kind "failure") as [->|]; [|by apply outcome_ret].
    lua_enter; [|done]. intros n s1 (_ & He & Ha)%XACK_acked; [|done].
    destruct deletable; [|by apply outcome_ret; split; [apply Ha|split; [|intros _; apply Ha]]].
    lua_enter; [|by split; [apply Ha|]]. intros n' s2 (_ & Hd & Hp & Hc)%XDEL_law; [|done].
    pose proof (acked_deleted _ _ _ _ _ _ Ha Hp Hc) as Ha2.
    apply outcome_ret. split; [apply Ha2|]. split; [|intros _; apply Ha2]. simpl. by rewrite <- He. }
  intros [[]|] s1 [Hk Hr].
  2: { split; [by intros k ??; apply Hk|]. split; [by apply Hk|by left]. }
  destruct Hr as [He Hr]. lua_enter.
  - intros n s2 (_ & Hd & _ & Hc)%XDEL_law; [|done]. apply outcome_ret.
    assert (same_key source s1 s2) as [Hse Hsp _ _ _] by (by apply Hc).
    split; [intros k ??; transitivity s1; [by apply Hk|by apply Hc]|].
    split; [done|]. split; [rewrite Hd; unfold without; f_equal; by apply Hk|].
    rewrite Hse. split; [done|]. intros [Hp1 Hp2]%Hr. split; [by rewrite Hsp|].
    intros g Hg. rewrite Hsp. auto.
  - split; [by intros k ??; apply Hk|]. split; [by apply Hk|].
    rewrite He. destruct (String.eqb_spec kind "failure"), deletable; auto.
Qed.

(** The fields of the entry a retry appends. *)
Definition retry_fields (kind id body : string) (fields : list (string * string))
  : option (list (string * string)) :=
  if kind == "dead_letter"
  then '(nextOriginal, nextGeneration) ← next_lineage id fields;
       Some (replayed_fields body id nextOriginal nextGeneration)
  else Some [("body", body)].

(** The length a retry compares with the limit: an entry it is about to delete from
    its destination does not count. *)
Definition occupied s (destination source : string) (deletable : bool) : Z :=
  Z.of_nat (length (entries_of s destination)) -
  (if (destination == source) && deletable then 1 else 0).

(** A retry that succeeded: one new entry at the end of the destination, no record;
    the failed delivery settled at its source. *)
Record retried s s' (record destination source id group kind original : string)
    (deletable : bool) (fields : list (string * string)) (limit : N) : Prop := {
  rt_room : (occupied s destination source deletable < Z.of_N limit)%Z;
  rt_record : entries_of s' record = without id (entries_of s record);
  rt_destination : exists new, full_id new /\ (new ∉ (e_id <$> entries_of s destination)) /\
    entries_of s' destination =
      (if (destination == source) && deletable then without original (entries_of s destination)
       else entries_of s destination) ++ [mkStreamEntry new fields];
  rt_source : destination <> source -> entries_of s' source =
    (if deletable then without original (entries_of s source) else entries_of s source);
  rt_released : kind = "failure" -> released s s' source group original;
  rt_frame : forall k, k <> record -> k <> destination -> k <> source -> same_key k s s'
}.

Lemma without_app id l1 l2 : without id (l1 ++ l2) = without id l1 ++ without id l2.
Proof. apply filter_app. Qed.

Lemma without_fresh id l : (id ∉ (e_id <$> l)) -> without id l = l.
Proof.
  induction l as [|e l IH]; [done|]. rewrite fmap_cons, not_elem_of_cons. intros [H1 H2].
  unfold without. rewrite filter_cons_True by done. f_equal. auto.
Qed.

(** Appending, then settling. *)
Lemma append_settle_outcome s record destination source id group kind original deletable
    fields (limit : N) :
  record <> destination -> record <> source -> full_id id -> full_id original ->
  (deletable = true -> kind = "failure") ->
  (kind = "failure" -> original ∈ pending_of s source group) ->
  (occupied s destination source deletable < Z.of_N limit)%Z ->
  outcome (_ ← call (fun s => XADD s destination fields);
           retry_settle record source id group kind original deletable)
    (fun r s' => match r with
     | Some r => r = "ok" /\
         retried s s' record destination source id group kind original deletable fields limit
     | None => entries_of s' record = entries_of s record
     end) s.
Proof.
  intros Hrd Hrs Hid Ho Hdel Hor Hroom. lua_enter; [|done].
  intros new s1 (Hnew & Hfresh & Hpend & Happ & Hp1 & [_ _ _ Honly])%XADD_appended.
  eapply outcome_mono; [by apply retry_settle_outcome|]. intros r s' [Hframe Hr].
  assert (same_key record s s1) as [Hrec _ _ _ _] by (by apply Honly).
  destruct r as [r|]; [|by rewrite <- Hrec; apply Hr].
  destruct Hr as (-> & Hr & Hs & Hrel). split; [done|].
  assert ((kind == "failure") && deletable = deletable) as Hd.
  { destruct deletable; [by rewrite Hdel|by rewrite andb_false_r]. }
  rewrite Hd in Hs. split; [done|by rewrite <- Hrec| | | |].
  - exists new. split; [done|]. split; [done|].
    destruct (String.eqb_spec destination source) as [->|Hne]; simpl.
    + rewrite Hs, Happ. destruct deletable; [|done]. rewrite without_app. f_equal.
      apply without_fresh. intros [=]%list_elem_of_singleton. subst.
      by apply (Hpend group), Hor, Hdel.
    + rewrite <- Happ. apply (sk_entries _ _ _ (Hframe _ Hne (not_eq_sym Hrd))).
  - intros Hne. rewrite Hs. by rewrite (sk_entries _ _ _ (Honly source (not_eq_sym Hne))).
  - intros Hk. destruct (Hrel Hk) as [H1 H2].
    assert (forall g, pending_of s1 source g = pending_of s source g) as Hp.
    { intros g. destruct (decide (source = destination)) as [->|]; [auto|by apply Honly]. }
    split; [by rewrite H1, Hp|]. intros g Hg. rewrite H2, Hp; auto.
  - intros k ???. transitivity s1; [by apply Honly|by apply Hframe].
Qed.

Lemma retry_append_outcome s record destination source id group kind (limit : N) body original
    fields deletable :
  record <> destination -> record <> source -> full_id id -> full_id original ->
  (deletable = true -> kind = "failure") ->
  (kind = "failure" -> original ∈ pending_of s source group) ->
  exact_int (Z.of_N limit) -> countable s destination ->
  outcome (retry_append record destination source id group kind (pretty limit) body original
             fields deletable)
    (fun r s' => match r with
     | Some r =>
         r <> "ok" /\ s' = s \/
         r = "ok" /\ exists new, retry_fields kind id body fields = Some new /\
           retried s s' record destination source id group kind original deletable new limit
     | None => entries_of s' record = entries_of s record
     end) s.
Proof.
  intros Hrd Hrs Hid Ho Hdel Hor Hl Hc. unfold retry_append, retry_fields.
  assert (forall nf, (occupied s destination source deletable < Z.of_N limit)%Z ->
    outcome (_ ← call (fun s => XADD s destination nf);
             retry_settle record source id group kind original deletable)
      (fun r s' => match r with
       | Some r => r <> "ok" /\ s' = s \/ r = "ok" /\ exists new, Some nf = Some new /\
           retried s s' record destination source id group kind original deletable new limit
       | None => entries_of s' record = entries_of s record
       end) s) as Hgo.
  { intros nf Hocc. eapply outcome_mono; [by apply append_settle_outcome|].
    intros [r|] s'; [|done]. intros [-> H]. right. eauto. }
  destruct (String.eqb_spec kind "dead_letter") as [->|Hk].
  - destruct (next_lineage id fields) as [[nextOriginal nextGeneration]|].
    2: { apply outcome_ret. by left. }
    lua_enter; [|done]. intros n Hn. lua_enter; [|done]. rewrite tonumber_law by done.
    intros c [= <-]. rewrite (capacity_test _ _ _ _ Hn) by done. case_test.
    { apply outcome_ret. by left. }
    apply Hgo. unfold occupied. case_test; lia.
  - lua_enter; [|done]. intros n ->%XLEN_law. lua_enter; [|done]. rewrite tonumber_law by done.
    intros c [= <-]. unfold occupied in Hgo.
    destruct ((destination == source) && deletable).
    + assert (exact_int (Z.of_nat (length (entries_of s destination)) - 1))
        by (unfold countable, exact_int in *; lia).
      rewrite num_sub_law, num_le_law by (done || by apply exact_small).
      case_test; [apply outcome_ret; by left|]. apply Hgo. lia.
    + rewrite num_le_law by done. case_test; [apply outcome_ret; by left|]. apply Hgo. lia.
Qed.

(** The original identifiers a record stream holds are complete ones. *)
Definition originals s (record : string) : Prop :=
  forall e original, e ∈ entries_of s record ->
    record_field "original_id" (e_fields e) None = Some original -> full_id original.

(** What a retry does, by its answer. *)
Definition retry_result s (record destination source id group kind : string) (limit : N)
    (r : option string) s' : Prop :=
  match r with
  | Some r =>
      r <> "ok" /\ s' = s \/
      r = "ok" /\ exists e body original new deletable,
        (e ∈ entries_of s record) /\ e_id e = id /\
        record_field "body" (e_fields e) None = Some body /\
        record_field "original_id" (e_fields e) None = Some original /\
        retry_fields kind id body (e_fields e) = Some new /\
        (kind = "failure" -> original ∈ pending_of s source group) /\
        (deletable = true <-> kind = "failure" /\ settled s source group original) /\
        retried s s' record destination source id group kind original deletable new limit
  | None => entries_of s' record = entries_of s record
  end.

Lemma retry_outcome s record destination source id group kind (limit : N) :
  record <> destination -> record <> source -> full_id id -> originals s record ->
  exact_int (Z.of_N limit) -> countable s destination ->
  outcome (retryRecordScript record destination source id group kind (pretty limit))
    (retry_result s record destination source id group kind limit) s.
Proof.
  intros Hrd Hrs Hid Hor Hl Hc. unfold retryRecordScript. lua_enter; [|done].
  intros found Hf%XRANGE_law; [|done]. destruct found as [|e found]; [apply outcome_ret; by left|].
  assert (e ∈ entries_of s record /\ e_id e = id) as [Hin He].
  { assert (e ∈ e :: found) as H by left. rewrite Hf in H. by apply list_elem_of_filter in H as [? ?]. }
  destruct (record_field "body" _ _) as [body|] eqn:Hb; [|apply outcome_ret; by left].
  destruct (record_field "original_id" _ _) as [original|] eqn:Ho; [|apply outcome_ret; by left].
  pose proof (Hor _ _ Hin Ho) as Hof.
  assert (forall deletable,
    (kind = "failure" -> original ∈ pending_of s source group) ->
    (deletable = true <-> kind = "failure" /\ settled s source group original) ->
    outcome (retry_append record destination source id group kind (pretty limit) body original
               (e_fields e) deletable)
      (retry_result s record destination source id group kind limit) s) as Hgo.
  { intros deletable Hp Hd. eapply outcome_mono; [apply retry_append_outcome; try done; naive_solver|].
    intros [r|] s'; [|done]. intros [H|(-> & new & Hn & H)]; [by left|right].
    split; [done|]. by exists e, body, original, new, deletable. }
  destruct (String.eqb_spec kind "failure") as [->|Hk]; [|apply Hgo; naive_solver].
  lua_enter; [|done]. intros l Hp. rewrite (Nat.eqb_sym _ 0).
  destruct (pending_length _ _ _ _ _ Hp Hof) as [[Hl0 Hpend]|[Hl0 Hpend]];
    destruct l; try discriminate Hl0; simpl; [|apply outcome_ret; by left].
  lua_enter; [|done]. intros groups Hg%XINFO_law. apply outcome_bind.
  eapply outcome_mono; [by apply retry_groups_outcome; [|exact Hg|apply groups_law]|].
  intros [deletable|] s' [-> Hd]; [|done]. apply Hgo; [done|].
  unfold settled. destruct deletable; naive_solver.
Qed.

(** What retrying a stored record does on every answer. Any answer but success
    changes nothing. Success appends one entry to the destination, with the body of
    the record and, for a dead letter, the next replay lineage, where there was room
    for it; the record is deleted; a failed delivery, which was still pending, is
    settled for its group and its source entry deleted exactly when every other
    group is done with it. If a command raises, the record is still there. *)
Theorem retry_exact s record destination source id group kind (limit : N) r s' :
  record <> destination -> record <> source -> full_id id -> originals s record ->
  exact_int (Z.of_N limit) -> countable s destination ->
  retryRecordScript record destination source id group kind (pretty limit) s = (r, s') ->
  retry_result s record destination source id group kind limit r s'.
Proof. intros ??????. apply outcome_run. by apply retry_outcome. Qed.

Lemma retry_fields_body kind id body fields new :
  retry_fields kind id body fields = Some new -> record_field "body" new None = Some body.
Proof.
  unfold retry_fields. case_test; [|by intros [= <-]].
  destruct (next_lineage id fields) as [[]|]; [|done]. by intros [= <-].
Qed.

(** C5: A retry never loses the job. Whatever the answer, and also when any command of
    the script raises, every record is still stored, or it is the retried one and an
    entry with its body is new in the destination. *)
Theorem retry_keeps_work s record destination source id group kind (limit : N) r s' e :
  record <> destination -> record <> source -> full_id id -> originals s record ->
  exact_int (Z.of_N limit) -> countable s destination ->
  NoDup (e_id <$> entries_of s record) ->
  retryRecordScript record destination source id group kind (pretty limit) s = (r, s') ->
  e ∈ entries_of s record ->
  (e ∈ entries_of s' record) \/
  e_id e = id /\ exists e', (e' ∈ entries_of s' destination) /\ (e' ∉ entries_of s destination) /\
    record_field "body" (e_fields e') None = record_field "body" (e_fields e) None.
Proof.
  intros ?????? Hdup Hrun Hin.
  assert (retry_result s record destination source id group kind limit r s') as Hr
    by (eapply outcome_run; [by apply retry_outcome|done]).
  destruct r as [r|]; simpl in Hr; [|by left; rewrite Hr].
  destruct Hr as [[_ ->]|(_ & e0 & body & original & new & deletable & Hin0 & <- & Hb & _ & Hn & _ & _ & Hr)];
    [by left|].
  destruct (decide (e_id e = e_id e0)) as [Heq|Hne].
  2: { left. rewrite (rt_record _ _ _ _ _ _ _ _ _ _ _ _ Hr). by apply list_elem_of_filter. }
  assert (e0 = e) as -> by (by eapply nodup_fmap_inj).
  right. split; [done|]. destruct (rt_destination _ _ _ _ _ _ _ _ _ _ _ _ Hr) as (nid & _ & Hfresh & Hd).
  exists (mkStreamEntry nid new). split; [|split].
  - rewrite Hd. apply elem_of_app. right. by left.
  - intros Hx. apply Hfresh. by apply (list_elem_of_fmap_2 e_id) in Hx.
  - rewrite Hb. by eapply retry_fields_body.
Qed.

(** * Replay *)

(** The registry of replays and its age order list the same keys, each with the
    identifier of an entry. *)
Definition registry_ok s (registry order : string) : Prop :=
  (forall k, (k ∈ members_of s order) <-> is_Some (hash_of s registry !! k)) /\
  map_Forall (fun _ id => full_id id) (hash_of s registry).

(** Everything but the registry and its order is left alone. *)
Definition only_registry s s' (registry order : string) : Prop :=
  forall k, k <> registry -> k <> order -> same_key k s s'.

Lemma only_registry_trans s1 s2 s3 registry order :
  only_registry s1 s2 registry order -> only_registry s2 s3 registry order ->
  only_registry s1 s3 registry order.
Proof. intros H1 H2 k ??. transitivity s2; [by apply H1|by apply H2]. Qed.

Lemma registry_only s s' registry order :
  only_key s s' registry -> only_registry s s' registry order.
Proof. intros H k ??. by apply H. Qed.

Lemma order_only s s' registry order : only_key s s' order -> only_registry s s' registry order.
Proof. intros H k ??. by apply H. Qed.

Lemma filter_not_nil (l : list string) : filter (fun m => m ∉ []) l = l.
Proof.
  induction l as [|m l IH]; [done|]. rewrite filter_cons_True by set_solver. by f_equal.
Qed.

(** Expired keys leave the registry and the order. *)
Lemma expire_outcome s registry order expired :
  registry <> order ->
  outcome (expire registry order expired)
    (fun r s' => only_registry s s' registry order /\
       (r = Some () ->
        (forall k, hash_of s' registry !! k =
                   if decide (k ∈ expired) then None else hash_of s registry !! k) /\
        members_of s' order = filter (fun m => m ∉ expired) (members_of s order))) s.
Proof.
  intros Hne. revert s. induction expired as [|x expired IH]; intros s.
  { apply outcome_ret. split; [done|]. intros _. by rewrite filter_not_nil. }
  cbn [expire]. lua_enter; [|done]. intros s1 [Hh Hk1]%HDEL_law. lua_enter.
  2: { by split; [apply registry_only|]. }
  intros s2 [Hm Hk2]%ZREM_law.
  pose proof (sk_hash _ _ _ (Hk2 registry Hne)) as Hh2.
  pose proof (sk_members _ _ _ (Hk1 order (not_eq_sym Hne))) as Hm1.
  eapply outcome_mono; [apply IH|]. intros r s' [Ho Hr]. split.
  { eapply only_registry_trans; [by apply registry_only|].
    eapply only_registry_trans; [by apply order_only|done]. }
  intros [Hr1 Hr2]%Hr. split.
  - intros k. rewrite Hr1, Hh2, Hh.
    destruct (decide (k = x)) as [->|]; [rewrite lookup_delete_eq; do 2 case_decide; set_solver|].
    rewrite lookup_delete_ne by done. do 2 case_decide; set_solver.
  - rewrite Hr2, Hm, Hm1. rewrite list_filter_filter. apply list_filter_iff. set_solver.
Qed.

(** Removing the first members of a list without repetitions. *)
Lemma filter_prefix (a b : list string) : NoDup (a ++ b) -> filter (fun m => m ∉ a) (a ++ b) = b.
Proof.
  intros (_ & Hab & _)%NoDup_app. rewrite filter_app.
  assert (forall l, (forall x, x ∈ l -> x ∈ a) -> filter (fun m => m ∉ a) l = []) as Hnil.
  { induction l as [|x l IH]; intros H; [done|].
    rewrite filter_cons_False by (intros Hx; apply Hx, H; left). apply IH. intros; apply H. by right. }
  assert (forall l : list string, (forall x, x ∈ l -> x ∉ a) -> filter (fun m => m ∉ a) l = l) as Hall.
  { induction l as [|x l IH]; intros H; [done|].
    rewrite filter_cons_True by (apply H; left). f_equal. apply IH. intros; apply H. by right. }
  rewrite Hnil, Hall; set_solver.
Qed.

Lemma filter_take (l : list string) n : NoDup l -> filter (fun m => m ∉ take n l) l = drop n l.
Proof.
  intros Hl. pose proof (filter_prefix (take n l) (drop n l)) as H.
  rewrite take_drop in H. auto.
Qed.

(** What registering a replay leaves in the registry: what was there, the new
    identifier, and never more keys than the limit. *)
Record registered s s' (registry order replayKey replayed : string) (limit : N) : Prop := {
  rg_ok : registry_ok s registry order -> registry_ok s' registry order;
  rg_bound : (length (members_of s' order) <= N.to_nat limit)%nat;
  rg_lookup : forall k id, hash_of s' registry !! k = Some id ->
    k = replayKey /\ id = replayed \/ k <> replayKey /\ hash_of s registry !! k = Some id
}.

(** A registration followed by the expiry of a list of keys. *)
Lemma registered_after s s1 s2 s' registry order replayKey replayed (limit : N)
    (expired : list string) :
  registry <> order -> full_id replayed ->
  hash_of s1 registry = <[replayKey := replayed]> (hash_of s registry) ->
  only_key s s1 registry ->
  members_of s2 order ≡ₚ replayKey :: filter (fun x => x <> replayKey) (members_of s1 order) ->
  only_key s1 s2 order ->
  (forall k, hash_of s' registry !! k = if decide (k ∈ expired) then None else hash_of s2 registry !! k) ->
  members_of s' order = filter (fun m => m ∉ expired) (members_of s2 order) ->
  (length (members_of s' order) <= N.to_nat limit)%nat ->
  registered s s' registry order replayKey replayed limit.
Proof.
  intros Hne Hfull Hh1 Hk1 Hm2 Hk2 Hh' Hm' Hlen.
  pose proof (sk_hash _ _ _ (Hk2 registry Hne)) as Hh2.
  pose proof (sk_members _ _ _ (Hk1 order (not_eq_sym Hne))) as Hm1.
  assert (forall k, hash_of s' registry !! k =
    if decide (k ∈ expired) then None
    else if decide (k = replayKey) then Some replayed else hash_of s registry !! k) as Hlook.
  { intros k. rewrite Hh', Hh2, Hh1. repeat case_decide; subst; try done;
      by rewrite ?lookup_insert_eq, ?lookup_insert_ne by done. }
  split; [|done|].
  - intros [Hdom Hids]. split.
    + intros k. rewrite Hm', list_elem_of_filter, Hm2, elem_of_cons, list_elem_of_filter, Hm1, Hdom, Hlook.
      repeat case_decide; subst; rewrite ?is_Some_alt; naive_solver.
    + intros k id. rewrite Hlook. repeat case_decide; intros; simplify_eq; [done|by eapply Hids].
  - intros k id. rewrite Hlook. repeat case_decide; intros; simplify_eq; auto.
Qed.

Lemma register_outcome s registry order replayKey (limit : N) replayed :
  registry <> order -> full_id replayed -> exact_int (Z.of_N limit) ->
  exact_int (1 + Z.of_nat (length (members_of s order))) ->
  outcome (register_replay registry order replayKey (pretty limit) replayed)
    (fun r s' => only_registry s s' registry order /\
       forall o, r = Some o -> o = "ok" /\ registered s s' registry order replayKey replayed limit) s.
Proof.
  intros Hne Hfull Hl Hc. unfold register_replay.
  lua_enter; [|done]. intros s1 [Hh1 Hk1]%HSET_law.
  assert (only_registry s s1 registry order) as H1 by (by apply registry_only).
  lua_enter; [|done]. intros s2 [Hm2 Hk2]%ZADD_law.
  assert (only_registry s s2 registry order) as H2.
  { eapply only_registry_trans; [done|by apply order_only]. }
  lua_enter; [|done]. intros n ->%ZCARD_law. lua_enter; [|done].
  rewrite tonumber_law by done. intros c [= <-].
  assert (length (members_of s2 order) <= 1 + length (members_of s order))%nat as Hlen.
  { rewrite Hm2. simpl. rewrite (sk_members _ _ _ (Hk1 order (not_eq_sym Hne))).
    pose proof (length_filter (fun x => x <> replayKey) (members_of s order)). lia. }
  assert (exact_int (Z.of_nat (length (members_of s2 order)))) by (unfold exact_int in *; lia).
  assert (exact_int (Z.of_nat (length (members_of s2 order)) - Z.of_N limit))
    by (unfold exact_int in *; lia).
  rewrite num_sub_law, num_lt_law by (done || by apply exact_small).
  pose proof (members_law s2 order) as Hdup.
  destruct (Z.ltb_spec 0 (Z.of_nat (length (members_of s2 order)) - Z.of_N limit)) as [L|L].
  - assert (exact_int (Z.of_nat (length (members_of s2 order)) - Z.of_N limit - 1))
      by (unfold exact_int in *; lia).
    rewrite num_sub_law by (done || by apply exact_small). lua_enter; [|done].
    rewrite to_int_law by done. intros stop [= <-]. lua_enter; [|done].
    intros expired Hex%ZRANGE_law; [|lia].
    eapply outcome_mono; [by apply expire_outcome|]. intros [[]|] s' [Ho Hr].
    2: { by split; [eapply only_registry_trans|]. }
    destruct (Hr eq_refl) as [Hr1 Hr2]. apply outcome_ret.
    split; [by eapply only_registry_trans|]. intros o [= <-]. split; [done|].
    apply registered_after with (s1 := s1) (s2 := s2) (expired := expired); try done.
    rewrite Hr2, Hex, filter_take, length_drop by done. lia.
  - apply outcome_bind, outcome_ret, outcome_ret. split; [done|]. intros o [= <-]. split; [done|].
    apply registered_after with (s1 := s1) (s2 := s2) (expired := []); try done; [|lia].
    by rewrite filter_not_nil.
Qed.

(** The destination of a replay: an entry of an earlier replay is replaced. *)
Definition replayed_into (prior : option string) (l : list entry) : list entry :=
  match prior with Some id => without id l | None => l end.

(** A replay that succeeded. *)
Record replay_done s s' (record destination registry order id policy replayKey : string)
    (limit : N) (fields : list (string * string)) : Prop := {
  rp_record : same_key record s s';
  rp_policy : policy = "reject_duplicate" -> hash_of s registry !! replayKey = None;
  rp_destination : exists new, full_id new /\
    entries_of s' destination =
      replayed_into (hash_of s registry !! replayKey) (entries_of s destination) ++
      [mkStreamEntry new fields] /\
    registered s s' registry order replayKey new limit;
  rp_bound : (length (entries_of s' destination) <= N.to_nat limit)%nat;
  rp_frame : forall k, k <> destination -> k <> registry -> k <> order -> same_key k s s'
}.

Lemma registered_frame s0 s s' registry order replayKey replayed limit :
  same_key registry s0 s -> same_key order s0 s ->
  registered s s' registry order replayKey replayed limit ->
  registered s0 s' registry order replayKey replayed limit.
Proof.
  intros [_ _ _ Hh _] [_ _ _ _ Hm] [H1 H2 H3]. split; [|done|].
  - intros [Ha Hb]. apply H1. split; [by rewrite Hh, Hm|by rewrite Hh].
  - intros k v. rewrite <- Hh. apply H3.
Qed.

Section replay.
Context (record destination registry order : string).
Context (Hkeys : NoDup [record; destination; registry; order]).

Lemma replay_keys :
  record <> destination /\ record <> registry /\ record <> order /\ destination <> registry /\
  destination <> order /\ registry <> order.
Proof.
  clear -Hkeys. rewrite !NoDup_cons, !not_elem_of_cons in Hkeys. naive_solver.
Qed.

(** Appending the replayed entry after the earlier one was dropped, and registering
    it. *)
Lemma append_register_outcome s s1 id policy replayKey (limit : N) fields prior :
  exact_int (Z.of_N limit) -> exact_int (1 + Z.of_nat (length (members_of s order))) ->
  hash_of s registry !! replayKey = prior ->
  (policy = "reject_duplicate" -> prior = None) ->
  only_key s s1 destination ->
  entries_of s1 destination = replayed_into prior (entries_of s destination) ->
  (length (entries_of s1 destination) < N.to_nat limit)%nat ->
  outcome (replayed ← call (fun s => XADD s destination fields);
           register_replay registry order replayKey (pretty limit) replayed)
    (fun r s' => match r with
     | Some r => r = "ok" /\
         replay_done s s' record destination registry order id policy replayKey limit fields
     | None => same_key record s s'
     end) s1.
Proof.
  intros Hl Hc Hprior Hpol Hk1 He1 Hroom.
  destruct replay_keys as (? & ? & ? & ? & ? & Hne).
  lua_enter; [|by apply Hk1].
  intros new s2 (Hnew & _ & _ & He2 & _ & [_ _ _ Hk2])%XADD_appended.
  assert (only_key s s2 destination) as Hk by (by eapply only_key_trans).
  assert (same_key order s s2) as Ho by (by apply Hk).
  eapply outcome_mono; [apply register_outcome; try done; by rewrite (sk_members _ _ _ Ho)|].
  intros r s' [Hr1 Hr2].
  assert (forall k, k <> destination -> k <> registry -> k <> order -> same_key k s s') as Hframe.
  { intros k ???. transitivity s2; [by apply Hk|by apply Hr1]. }
  destruct r as [r|]; [|by apply Hframe]. destruct (Hr2 r eq_refl) as [-> Hreg]. split; [done|].
  assert (same_key destination s2 s') as Hd by (by apply Hr1).
  split; [by apply Hframe|by subst| | |done].
  - exists new. split; [done|]. rewrite (sk_entries _ _ _ Hd), He2, He1, Hprior. split; [done|].
    eapply registered_frame; [| |done]; by apply Hk.
  - rewrite (sk_entries _ _ _ Hd), He2, length_app. simpl. lia.
Qed.

(** What a replay does, by its answer. *)
Definition replay_result s (id policy replayKey : string) (limit : N) (r : option string) s' : Prop :=
  match r with
  | Some r =>
      r <> "ok" /\ s' = s \/
      r = "ok" /\ exists e body nextOriginal nextGeneration,
        (e ∈ entries_of s record) /\ e_id e = id /\
        record_field "body" (e_fields e) None = Some body /\
        next_lineage id (e_fields e) = Some (nextOriginal, nextGeneration) /\
        replay_done s s' record destination registry order id policy replayKey limit
          (replayed_fields body id nextOriginal nextGeneration)
  | None => same_key record s s'
  end.

Lemma without_shorter id l : id ∈ (e_id <$> l) -> (length (without id l) < length l)%nat.
Proof.
  intros (e & -> & He)%list_elem_of_fmap. apply length_filter_lt with e; [done|]. naive_solver.
Qed.

(** The length of the destination once an earlier replay is dropped. *)
Lemma prior_length s prior l :
  XRANGE s destination prior = Some l -> full_id prior ->
  (length (without prior (entries_of s destination)) + (if (0 <? length l)%nat then 1 else 0) <=
   length (entries_of s destination))%nat.
Proof.
  intros H Hp. apply XRANGE_law in H as ->; [|done].
  destruct (filter _ _) as [|e l] eqn:E; simpl; [rewrite Nat.add_0_r; apply length_filter|].
  assert (e ∈ e :: l) as H by left. rewrite <- E in H. apply list_elem_of_filter in H as [<- H].
  assert (length (without (e_id e) (entries_of s destination)) < length (entries_of s destination))%nat.
  { by apply without_shorter, list_elem_of_fmap_2. }
  lia.
Qed.

Lemma replay_outcome s id policy replayKey (limit : N) :
  full_id id -> registry_ok s registry order -> exact_int (Z.of_N limit) ->
  countable s destination -> exact_int (1 + Z.of_nat (length (members_of s order))) ->
  outcome (replayRecordScript record destination registry order id policy replayKey (pretty limit))
    (replay_result s id policy replayKey limit) s.
Proof.
  intros Hid [_ Hreg] Hl Hc Hm. unfold replayRecordScript.
  lua_enter; [|done]. intros found Hf%XRANGE_law; [|done].
  destruct found as [|e found]; [apply outcome_ret; by left|].
  assert (e ∈ entries_of s record /\ e_id e = id) as [Hin He].
  { assert (e ∈ e :: found) as H by left. rewrite Hf in H. by apply list_elem_of_filter in H as [? ?]. }
  destruct (record_field "body" _ _) as [body|] eqn:Hb; [|apply outcome_ret; by left].
  destruct (next_lineage id (e_fields e)) as [[nextOriginal nextGeneration]|] eqn:Hn;
    [|apply outcome_ret; by left].
  assert (forall m : lua St string, forall s1,
    outcome m (fun r s' => match r with
     | Some r => r = "ok" /\
         replay_done s s' record destination registry order id policy replayKey limit
           (replayed_fields body id nextOriginal nextGeneration)
     | None => same_key record s s' end) s1 ->
    outcome m (replay_result s id policy replayKey limit) s1) as Hgo.
  { intros m s1 H. eapply outcome_mono; [exact H|]. intros [r1|] s2; [|done]. intros [-> Hd].
    right. split; [done|]. by exists e, body, nextOriginal, nextGeneration. }
  lua_enter; [|done]. intros prior Hp%HGET_law. symmetry in Hp.
  destruct prior as [prior|].
  - destruct (String.eqb_spec policy "reject_duplicate") as [->|Hpol]; [apply outcome_ret; by left|].
    assert (full_id prior) as Hpf by (by eapply Hreg).
    lua_enter; [|done]. intros n ->%XLEN_law. lua_enter; [|done]. intros l Hl1.
    pose proof (prior_length _ _ _ Hl1 Hpf) as Hlen.
    assert ((if (0 <? length l)%nat
             then num_sub (of_int (Z.of_nat (length (entries_of s destination)))) (of_int 1)
             else of_int (Z.of_nat (length (entries_of s destination)))) =
            of_int (num := num) (Z.of_nat (length (entries_of s destination)) -
                    if (0 <? length l)%nat then 1 else 0)) as ->.
    { unfold countable, exact_int in Hc. case_test; [|by rewrite Z.sub_0_r].
      rewrite num_sub_law; [done|done|by apply exact_small|unfold exact_int; lia]. }
    lua_enter; [|done]. rewrite tonumber_law by done. intros c [= <-].
    rewrite num_le_law by (unfold countable, exact_int in *; case_test; lia).
    case_test; [apply outcome_ret; by left|].
    lua_enter; [|done]. intros k s1 (_ & Hd & _ & [_ _ _ Hk])%XDEL_law; [|done].
    apply Hgo, append_register_outcome with (Some prior); try done.
    rewrite Hd. unfold without in Hlen. destruct (0 <? length l)%nat; lia.
  - lua_enter; [|done]. intros n Hn1. lua_enter; [|done]. rewrite tonumber_law by done.
    intros c [= <-]. rewrite (capacity_test _ _ _ _ Hn1) by done. case_test; [apply outcome_ret; by left|].
    apply Hgo, append_register_outcome with None; try done. by apply Nat.leb_gt.
Qed.

(** What replaying a dead letter does on every answer. Any answer but success
    changes nothing. Success keeps the dead letter, appends one entry with its body
    and the next replay lineage to the destination, in place of the entry of an
    earlier replay when the policy allows that, within the limit of the destination;
    the registry of replays has the new entry, agrees with its age order and has no
    more keys than the limit. If a command raises, the dead letter is still there. *)
Theorem replay_exact s id policy replayKey (limit : N) r s' :
  full_id id -> registry_ok s registry order -> exact_int (Z.of_N limit) ->
  countable s destination -> exact_int (1 + Z.of_nat (length (members_of s order))) ->
  replayRecordScript record destination registry order id policy replayKey (pretty limit) s = (r, s') ->
  replay_result s id policy replayKey limit r s'.
Proof. intros ?????. by apply outcome_run, replay_outcome. Qed.
End replay.
End laws.

(** * A concrete server

    Stream [q] has one delivered entry, pending for group [g]; [failed] and [dead]
    hold the record of that delivery. *)
Module Sample.

Definition q_entry := mkStreamEntry "5-0" [("body", "job")].
Definition record_entry (id : string) :=
  mkStreamEntry id [("body", "job"); ("original_id", "5-0"); ("delivery_attempts", "1")].

Definition state : Reference.state :=
  Reference.mkState
    {["q" := [q_entry]; "failed" := [record_entry "9-0"]; "dead" := [record_entry "7-0"]]}
    {[("q", "g") := {["5-0"]}]} {["q" := [("g", (5, 0)%N)]]} ∅ ∅.

Lemma id_full (ms seq : N) : full_id (pretty ms +:+ "-" +:+ pretty seq).
Proof. by exists ms, seq. Qed.

Lemma originals_record record id :
  Reference.entries_at state record = [record_entry id] -> originals state record.
Proof.
  intros E e original Hin. simpl in Hin. rewrite E in Hin. apply list_elem_of_singleton in Hin as ->.
  intros [= <-]. apply (id_full 5 0).
Qed.

End Sample.

Lemma acknowledge_exact_witness :
  acknowledgement Sample.state "q" "g" "5-0" (Some "deleted")
    (acknowledgeScript "q" "g" "5-0" Sample.state).2.
Proof. apply acknowledge_exact; [apply (Sample.id_full 5 0)|vm_compute; reflexivity]. Defined.

Lemma retry_exact_witness :
  retry_result Sample.state "failed" "q" "q" "9-0" "g" "failure" 1 (Some "ok")
    (retryRecordScript (num := Z) "failed" "q" "q" "9-0" "g" "failure" "1" Sample.state).2.
Proof.
  apply (retry_exact Sample.state "failed" "q" "q" "9-0" "g" "failure" 1); try done.
  - apply (Sample.id_full 9 0).
  - by apply (Sample.originals_record _ "9-0").
Defined.

Lemma retry_keeps_work_witness :
  let s' := (retryRecordScript (num := Z) "dead" "q" "q" "7-0" "" "dead_letter" "4" Sample.state).2 in
  (Sample.record_entry "7-0" ∈ entries_of s' "dead") \/
  e_id (Sample.record_entry "7-0") = "7-0" /\
  exists e', (e' ∈ entries_of s' "q") /\ (e' ∉ entries_of Sample.state "q") /\
    record_field "body" (e_fields e') None =
    record_field "body" (e_fields (Sample.record_entry "7-0")) None.
Proof.
  apply (retry_keeps_work Sample.state "dead" "q" "q" "7-0" "" "dead_letter" 4 (Some "ok")); try done.
  - apply (Sample.id_full 7 0).
  - by apply (Sample.originals_record _ "7-0").
  - apply NoDup_singleton.
  - by left.
Defined.

Lemma replay_exact_witness :
  replay_result "dead" "q" "index" "order" Sample.state "7-0" "reject_duplicate" "key" 4 (Some "ok")
    (replayRecordScript (num := Z) "dead" "q" "index" "order" "7-0" "reject_duplicate" "key" "4"
       Sample.state).2.
Proof.
  apply (replay_exact "dead" "q" "index" "order"); try done.
  - by apply (bool_decide_unpack _).
  - apply (Sample.id_full 7 0).
  - split; [|done]. intros k. split; [by intros ?%elem_of_nil|by intros [? ?]].
Defined.
