(* ===== verification/Valkey.v ===== *)
(** The native Valkey transport (valkeystream/native_transport.go) over an abstract
    command client: append, read, claim, acknowledgement, dead-letter settlement,
    management records, retry and replay, and the parsers of the server's answers. *)

From S2P Require Import Prelude GoStd Sentinels Contract Control Failure Job Status Codec Records Stream.
From S2P Require Import Server Scripts.

(** [safeerr.Wrap]. *)
Definition safe_Wrap (message : string) (cause : error) : error := Wrap message cause.

(** [strconv.FormatInt(z, 10)] and [strconv.FormatUint(n, 10)]. *)
Definition FormatInt (z : Z) : string := pretty z.

(** * The command client: commands as the builder makes them, results as the
    [commandResult] interface reads them *)

Inductive script := EnqueueScript | AcknowledgeScript | RetryRecordScript | ReplayRecordScript.

Inductive command :=
| XgroupCreate (key group id : string)
| Eval (s : script) (keys args : list string)
| Xreadgroup (group consumer : string) (count block : Z) (key id : string)
| Xautoclaim (key group consumer minIdleTime start : string) (count : Z)
| Xpending (key group start stop : string) (count : Z)
| Xadd (key threshold : string) (fields : list (string * string))
| Xrange (key start stop : string) (count : Z)
| Xrevrange (key stop start : string) (count : Z)
| Xdel (key id : string)
| Del (key : string)
| XinfoGroups (key : string).

Record XRangeEntry := mkXRangeEntry { ID : string; FieldValues : gmap string string }.

(** A value of type [any] is a [reply]: a string, an int64, a slice, a map or nil. *)
Record commandResult := mkResult {
  Error : error;
  ToString : error + string;
  ToInt64 : error + Z;
  ToAny : error + reply;
  AsXRead : error + gmap string (list XRangeEntry);
  AsXRange : error + list XRangeEntry
}.

Class commandClient (W : Type) := Do : command -> W -> commandResult * W.

(** * Answers *)

Definition malformedResponse (detail : string) : error :=
  Wrap ("streamqueue: malformed delivery: " +:+ detail) ErrMalformedDelivery.

Definition parseReplayLineage (fields : gmap string string) : error + (string * string * Z) :=
  match fields !! "replay_original_dead_letter_id", fields !! "replay_prior_dead_letter_id",
        fields !! "replay_generation" with
  | None, None, None => inr ("", "", 0%Z)
  | None, _, _ => inl (Leaf "replay original identifier is missing")
  | _, None, _ => inl (Leaf "replay prior identifier is missing")
  | _, _, None => inl (Leaf "replay generation is missing")
  | Some original, Some prior, Some generationText =>
      if blank original then inl (Leaf "replay original identifier is blank")
      else if blank prior then inl (Leaf "replay prior identifier is blank")
      else if (MaxIdentityBytes <? len original)%Z
      then inl (Leaf "replay original identifier is too long")
      else if (MaxIdentityBytes <? len prior)%Z
      then inl (Leaf "replay prior identifier is too long")
      else
        match ParseUintBits generationText 32 with
        | None => inl (Leaf "invalid replay generation")
        | Some generation =>
            if (generation =? 0)%Z then inl (Leaf "invalid replay generation")
            else inr (original, prior, generation)
        end
  end.

Definition applyReplayLineage (delivery : Delivery) (fields : gmap string string)
  : error + Delivery :=
  match parseReplayLineage fields with
  | inl _ => inl (malformedResponse "invalid replay lineage")
  | inr (original, prior, generation) =>
      inr (mkDelivery (D_ID delivery) (D_Body delivery) (D_Attempts delivery)
             (D_Reclaimed delivery) original prior generation)
  end.

Fixpoint convertEntries (entries : list XRangeEntry) (attempts : Z) (reclaimed : bool)
  : error + list Delivery :=
  match entries with
  | [] => inr []
  | entry :: entries =>
      match FieldValues entry !! "body" with
      | None => inl (malformedResponse "delivery body is missing")
      | Some body =>
          match applyReplayLineage (mkDelivery (ID entry) body attempts reclaimed "" "" 0)
                  (FieldValues entry) with
          | inl e => inl e
          | inr delivery =>
              match convertEntries entries attempts reclaimed with
              | inl e => inl e
              | inr deliveries => inr (delivery :: deliveries)
              end
          end
      end
  end.

(** The loop of [alternatingFields] over pairs; a later value of a field wins. *)
Fixpoint alternating (values : list reply) (fields : gmap string string)
  : option (gmap string string) :=
  match values with
  | [] => Some fields
  | RString field :: RString value :: values =>
      if field == "" then None else alternating values (<[field := value]> fields)
  | _ => None
  end.

Definition alternatingFields (value : reply) : option (gmap string string) :=
  match value with
  | RArray values =>
      if negb (length values mod 2 =? 0)%nat then None else alternating values ∅
  | _ => None
  end.

Fixpoint parseClaimEntries (entries : list reply) : error + list Delivery :=
  match entries with
  | [] => inr []
  | rawEntry :: entries =>
      match rawEntry with
      | RArray [rawID; rawFields] =>
          match rawID with
          | RString id =>
              if id == "" then inl (malformedResponse "invalid reclaim identifier")
              else
                match alternatingFields rawFields with
                | None => inl (malformedResponse "invalid reclaim fields")
                | Some fields =>
                    match fields !! "body" with
                    | None => inl (malformedResponse "delivery body is missing")
                    | Some body =>
                        match applyReplayLineage (mkDelivery id body 1 true "" "" 0) fields with
                        | inl e => inl e
                        | inr delivery =>
                            match parseClaimEntries entries with
                            | inl e => inl e
                            | inr deliveries => inr (delivery :: deliveries)
                            end
                        end
                    end
                end
          | _ => inl (malformedResponse "invalid reclaim identifier")
          end
      | _ => inl (malformedResponse "invalid reclaim entry")
      end
  end.

Definition parseClaimResponse (value : reply) : error + ClaimResult :=
  match value with
  | RArray (next :: entries :: _) =>
      match next with
      | RString next =>
          if next == "" then inl (malformedResponse "invalid reclaim cursor")
          else
            match entries with
            | RArray entries =>
                match parseClaimEntries entries with
                | inl e => inl e
                | inr deliveries => inr (mkClaimResult next deliveries)
                end
            | _ => inl (malformedResponse "invalid reclaim entries")
            end
      | _ => inl (malformedResponse "invalid reclaim cursor")
      end
  | _ => inl (malformedResponse "invalid reclaim response")
  end.

Definition parsePendingAttempts (value : reply) : error + Z :=
  match value with
  | RArray [pending] =>
      match pending with
      | RArray [_; _; _; attempts] =>
          match attempts with
          | RInt attempts =>
              if (attempts <? 1)%Z then inl (malformedResponse "invalid delivery attempts")
              else inr attempts
          | _ => inl (malformedResponse "invalid delivery attempts")
          end
      | _ => inl (malformedResponse "invalid pending delivery")
      end
  | _ => inl (malformedResponse "missing pending delivery")
  end.

Definition parseOldestPendingID (value : reply) : error + string :=
  match value with
  | RArray [pending] =>
      match pending with
      | RArray [id; _; _; _] =>
          match id with
          | RString id =>
              if id == "" then inl (malformedResponse "invalid oldest pending identifier")
              else inr id
          | _ => inl (malformedResponse "invalid oldest pending identifier")
          end
      | _ => inl (malformedResponse "invalid oldest pending delivery")
      end
  | _ => inl (malformedResponse "missing oldest pending delivery")
  end.

(** [fields[name]] of a [map[string]any]; nil when absent. *)
Fixpoint any_field (name : string) (fields : list (string * reply)) : reply :=
  match fields with
  | [] => RNil
  | (f, v) :: fields => if f == name then v else any_field name fields
  end.

Fixpoint parseGroups (groups : list reply) (group : string) : error + GroupState :=
  match groups with
  | [] => inl (Leaf "valkeystream: consumer group does not exist")
  | rawGroup :: groups =>
      match rawGroup with
      | RMap fields =>
          match any_field "name" fields with
          | RString name =>
              if name != group then parseGroups groups group
              else
                match any_field "pending" fields, any_field "lag" fields with
                | RInt pending, RInt lag =>
                    if (pending <? 0)%Z || (lag <? -1)%Z
                    then inl (malformedResponse "invalid group counters")
                    else inr (mkGroupState pending lag "")
                | _, _ => inl (malformedResponse "invalid group counters")
                end
          | _ => inl (malformedResponse "invalid group name")
          end
      | _ => inl (malformedResponse "invalid group fields")
      end
  end.

Definition parseGroupState (value : reply) (group : string) : error + GroupState :=
  match value with
  | RArray groups => parseGroups groups group
  | _ => inl (malformedResponse "invalid group response")
  end.

(** * Management records *)

Record nativeRecord := mkNativeRecord {
  N_ID : string;
  N_OriginalID : string;
  N_Body : string;
  N_Attempts : Z;
  N_OccurredAt : Time;
  N_EnvelopeVersion : Z;
  N_Source : string;
  N_Group : string;
  N_Classification : string;
  N_FailureCode : string;
  N_OriginalDeadLetterID : string;
  N_PriorDeadLetterID : string;
  N_ReplayGeneration : Z
}.

Definition recordTime (id : string) : error + Time :=
  match Cut id with
  | None => inl (Leaf "invalid stream identifier")
  | Some (milliseconds, _) =>
      match ParseInt milliseconds with
      | None => inl (Leaf "strconv.ParseInt: invalid syntax")
      | Some value => inr (UTC (UnixMilli value))
      end
  end.

Definition malformedRecord : error := Leaf "valkeystream: malformed management record".

(** [m[k]] of a [map[string]string]. *)
Definition get (m : gmap string string) (k : string) : string := default "" (m !! k).

(** One iteration of [convertNativeRecords]. *)
Definition convertNativeRecord (entry : XRangeEntry) : error + nativeRecord :=
  let fields := FieldValues entry in
  match fields !! "body", fields !! "original_id", fields !! "delivery_attempts" with
  | Some body, Some originalID, Some attemptText =>
      match ParseInt attemptText, recordTime (ID entry) with
      | Some attempts, inr occurredAt =>
          if (originalID == "") || (attempts <? 1)%Z then inl malformedRecord
          else
            match fields !! "envelope_version" with
            | None =>
                inr (mkNativeRecord (ID entry) originalID body attempts occurredAt 0 "" "" "" "" "" "" 0)
            | Some versionText =>
                match ParseUintBits versionText 16 with
                | None => inl malformedRecord
                | Some version =>
                    if negb (version =? CurrentEnvelopeVersion)%Z then inl malformedRecord
                    else
                      let classification := get fields "classification" in
                      let failureCode := get fields "failure_code" in
                      let source := get fields "source_stream" in
                      let group := get fields "consumer_group" in
                      if negb (is_nil (Failure_Validate classification failureCode))
                      then inl malformedRecord
                      else if (source == "") || (group == "") then inl malformedRecord
                      else
                        match parseReplayLineage fields with
                        | inl _ => inl (Leaf "valkeystream: malformed replay lineage")
                        | inr (original, prior, generation) =>
                            inr (mkNativeRecord (ID entry) originalID body attempts occurredAt version
                                   source group classification failureCode original prior generation)
                        end
                end
            end
      | _, _ => inl malformedRecord
      end
  | _, _, _ => inl malformedRecord
  end.

Fixpoint convertNativeRecords (entries : list XRangeEntry) : error + list nativeRecord :=
  match entries with
  | [] => inr []
  | entry :: entries =>
      match convertNativeRecord entry with
      | inl e => inl e
      | inr record =>
          match convertNativeRecords entries with
          | inl e => inl e
          | inr records => inr (record :: records)
          end
      end
  end.

(** * The transport *)

Record nativeTransport := mkTransport {
  maxLength : Z;
  recordMaxLength : Z;
  maxPayloadBytes : Z
}.

Definition newNativeTransportForClient (maxLength maxPayloadBytes : Z) : nativeTransport :=
  mkTransport maxLength 0 maxPayloadBytes.

(** [nativeRetryOutcome.valid] and [nativeReplayOutcome.valid]. *)
Definition retryOutcome_valid (o : string) : bool :=
  (o == "ok") || (o == "not_found") || (o == "stale") || (o == "malformed") || (o == "capacity").
Definition replayOutcome_valid (o : string) : bool :=
  (o == "ok") || (o == "not_found") || (o == "malformed") || (o == "duplicate") || (o == "capacity").

Definition valkeyRecordReadError (operation : string) (err : error) : error :=
  if Is err Canceled || Is err DeadlineExceeded then err
  else errors_Join [ErrManagementUnavailable; safe_Wrap operation err].

Section transport.
Context {W : Type} `{!commandClient W}.
(** [valkey.IsValkeyBusyGroup] and [valkey.IsValkeyNil]. *)
Context (IsValkeyBusyGroup IsValkeyNil : error -> bool).
Implicit Types t : nativeTransport.

Definition EnsureGroup (stream group : string) : io W error :=
  if (stream == "") || (group == "") then mret ErrInvalidSemanticRequest
  else
    result ← Do (XgroupCreate stream group "0");
    let err := Error result in
    if is_nil err || IsValkeyBusyGroup err then mret ErrNil
    else mret (safe_Wrap "valkeystream: create consumer group" err).

Definition Add t (request : AddRequest) : io W (error + string) :=
  let err := AddRequest_Validate request (maxPayloadBytes t) in
  if negb (is_nil err) then mret (inl err)
  else
    result ← Do (Eval EnqueueScript [A_Stream request]
                   [FormatInt (A_MaxLength request); A_Body request]);
    match ToString result with
    | inl err => mret (inl (safe_Wrap "valkeystream: add delivery" err))
    | inr id => if id == "capacity" then mret (inl ErrMaxCapacity)
                else mret (inr id)
    end.

Definition Read (request : ReadRequest) : io W (error + list Delivery) :=
  let err := ReadRequest_Validate request in
  if negb (is_nil err) then mret (inl err)
  else
    result ← Do (Xreadgroup (RR_Group request) (RR_Consumer request) (RR_Count request)
                   (Z.quot (RR_Block request) Millisecond) (RR_Stream request) ">");
    match AsXRead result with
    | inl err => if IsValkeyNil err then mret (inr [])
                 else mret (inl (safe_Wrap "valkeystream: read deliveries" err))
    | inr streams => mret (convertEntries (default [] (streams !! RR_Stream request)) 1 false)
    end.

Definition deliveryAttempts (stream group id : string) : io W (error + Z) :=
  result ← Do (Xpending stream group id id 1);
  match ToAny result with
  | inl err => mret (inl (safe_Wrap "valkeystream: inspect delivery attempts" err))
  | inr value => mret (parsePendingAttempts value)
  end.

(** The loop of [Claim] over the reclaimed deliveries. *)
Fixpoint claim_attempts (stream group : string) (deliveries : list Delivery)
  : io W (error + list Delivery) :=
  match deliveries with
  | [] => mret (inr [])
  | d :: deliveries =>
      attempts ← deliveryAttempts stream group (D_ID d);
      match attempts with
      | inl err => mret (inl err)
      | inr attempts =>
          rest ← claim_attempts stream group deliveries;
          match rest with
          | inl err => mret (inl err)
          | inr rest =>
              mret (inr (mkDelivery (D_ID d) (D_Body d) attempts (D_Reclaimed d)
                           (D_OriginalDeadLetterID d) (D_PriorDeadLetterID d)
                           (D_ReplayGeneration d) :: rest))
          end
      end
  end.

Definition Claim (request : ClaimRequest) : io W (error + ClaimResult) :=
  let err := ClaimRequest_Validate request in
  if negb (is_nil err) then mret (inl err)
  else
    result ← Do (Xautoclaim (CR_Stream request) (CR_Group request) (CR_Consumer request)
                   (FormatInt (Z.quot (CR_MinIdle request) Millisecond)) (CR_Start request)
                   (CR_Count request));
    match ToAny result with
    | inl err => mret (inl (safe_Wrap "valkeystream: reclaim deliveries" err))
    | inr value =>
        match parseClaimResponse value with
        | inl err => mret (inl err)
        | inr claimed =>
            deliveries ← claim_attempts (CR_Stream request) (CR_Group request) (CL_Deliveries claimed);
            match deliveries with
            | inl err => mret (inl err)
            | inr deliveries => mret (inr (mkClaimResult (CL_Next claimed) deliveries))
            end
        end
    end.

Definition Ack (request : AckRequest) : io W error :=
  let err := AckRequest_Validate request in
  if negb (is_nil err) then mret err
  else
    result ← Do (Eval AcknowledgeScript [K_Stream request] [K_Group request; K_ID request]);
    match ToString result with
    | inl err => mret (safe_Wrap "valkeystream: acknowledge delivery" err)
    | inr outcome =>
        if outcome == "lease_lost"
        then mret (NewFailure ClassificationInfrastructure FailureCodeLeaseLost
                     (Leaf "valkey stream delivery is no longer pending"))
        else if (outcome != "deleted") && (outcome != "retained")
        then mret (malformedResponse "invalid acknowledgement result")
        else mret ErrNil
    end.

(** The fields of a management record. *)
Definition record_fields (source group : string) (delivery : Delivery) (failure : FailureMetadata)
  : list (string * string) :=
  [("body", D_Body delivery); ("original_id", D_ID delivery);
   ("delivery_attempts", FormatInt (D_Attempts delivery));
   ("envelope_version", FormatInt CurrentEnvelopeVersion);
   ("classification", F_Classification failure); ("failure_code", F_Code failure);
   ("source_stream", source); ("consumer_group", group)] ++
  if (0 <? D_ReplayGeneration delivery)%Z
  then [("replay_original_dead_letter_id", D_OriginalDeadLetterID delivery);
        ("replay_prior_dead_letter_id", D_PriorDeadLetterID delivery);
        ("replay_generation", FormatInt (D_ReplayGeneration delivery))]
  else [].

Definition appendRecord t (destination source group : string) (delivery : Delivery)
    (failure : FailureMetadata) (operation : string) : io W error :=
  if (destination == "") || (source == "") || (group == "") || (D_ID delivery == "") ||
     (D_Attempts delivery <? 1)%Z || (maxPayloadBytes t <? len (D_Body delivery))%Z ||
     negb (is_nil (FailureMetadata_Validate failure))
  then mret ErrInvalidSemanticRequest
  else
    let recordLimit := if (recordMaxLength t =? 0)%Z then (2 ^ 63 - 1)%Z else recordMaxLength t in
    result ← Do (Xadd destination (FormatInt recordLimit) (record_fields source group delivery failure));
    if negb (is_nil (Error result)) then mret (safe_Wrap ("valkeystream: " +:+ operation) (Error result))
    else mret ErrNil.

Definition RecordFailure t (destination source group : string) (delivery : Delivery)
    (failure : FailureMetadata) : io W error :=
  appendRecord t destination source group delivery failure "append failure".

Definition AppendDeadLetter t (destination source group : string) (delivery : Delivery)
    (failure : FailureMetadata) : io W error :=
  err ← appendRecord t destination source group delivery failure "append dead letter";
  if negb (is_nil err)
  then mret (NewFailure ClassificationInfrastructure FailureCodeDeadLetterDestinationUnavailable err)
  else mret ErrNil.

Definition DeadLetter t (request : DeadLetterRequest) : io W error :=
  let err := DeadLetterRequest_Validate request (maxPayloadBytes t) in
  if negb (is_nil err) then mret err
  else
    err ← AppendDeadLetter t (L_Destination request) (L_Source request) (L_Group request)
            (L_Delivery request) (L_Failure request);
    if negb (is_nil err) then mret err
    else
      err ← Ack (mkAckRequest (L_Source request) (L_Group request) (D_ID (L_Delivery request)));
      if negb (is_nil err) then mret (safe_Wrap "valkeystream: settle dead letter source" err)
      else mret ErrNil.

Definition ReadRecords t (stream : string) : io W (error + list nativeRecord) :=
  if stream == "" then mret (inl ErrInvalidSemanticRequest)
  else
    let readLimit := Z.max (maxLength t) MaxBulkSelection in
    result ← Do (Xrange stream "-" "+" readLimit);
    match AsXRange result with
    | inl err => mret (inl (valkeyRecordReadError "valkeystream: read management records" err))
    | inr entries => mret (convertNativeRecords entries)
    end.

Definition ReadRecordPage (stream cursor : string) (limit : Z) (direction : string)
  : io W (error + list nativeRecord) :=
  if (stream == "") || (limit <=? 0)%Z then mret (inl ErrInvalidSemanticRequest)
  else
    let command :=
      if direction == SortDescending
      then Xrevrange stream (if cursor != "" then "(" +:+ cursor else "+") "-" limit
      else Xrange stream (if cursor != "" then "(" +:+ cursor else "-") "+" limit in
    result ← Do command;
    match AsXRange result with
    | inl err => mret (inl (valkeyRecordReadError "valkeystream: read management record page" err))
    | inr entries => mret (convertNativeRecords entries)
    end.

(** [None] is a record that was not found. *)
Definition ReadRecord (stream id : string) : io W (error + option nativeRecord) :=
  if (stream == "") || (id == "") then mret (inl ErrInvalidSemanticRequest)
  else
    result ← Do (Xrange stream id id 1);
    match AsXRange result with
    | inl err => mret (inl (valkeyRecordReadError "valkeystream: read management record" err))
    | inr entries =>
        match entries with
        | [entry] =>
            if ID entry != id then mret (inr None)
            else
              match convertNativeRecord entry with
              | inl err => mret (inl err)
              | inr record => mret (inr (Some record))
              end
        | _ => mret (inr None)
        end
    end.

Definition RetryRecord t (recordStream recordID destination source group : string) (failure : bool)
  : io W (error + string) :=
  if (recordStream == "") || (recordID == "") || (destination == "") ||
     (failure && ((source == "") || (group == "")))
  then mret (inl ErrInvalidSemanticRequest)
  else
    let kind := if failure then "failure" else "dead_letter" in
    let sourceKey := if failure then source else destination in
    result ← Do (Eval RetryRecordScript [recordStream; destination; sourceKey]
                   [recordID; group; kind; FormatInt (maxLength t)]);
    match ToString result with
    | inl err => mret (inl (safe_Wrap "valkeystream: retry management record" err))
    | inr outcome =>
        if negb (retryOutcome_valid outcome)
        then mret (inl (malformedResponse "invalid record retry result"))
        else mret (inr outcome)
    end.

Definition replay_key (recordStream recordID : string) : string :=
  EncodeToString (recordStream +:+ String zero recordID).
Definition replay_registry (destination : string) : string := destination +:+ ":queue:replay-index".
Definition replay_order (destination : string) : string := destination +:+ ":queue:replay-order".

Definition ReplayRecord t (recordStream recordID destination policy : string)
  : io W (error + string) :=
  if (recordStream == "") || (recordID == "") || (destination == "") ||
     ((policy != ReplayRejectDuplicate) && (policy != ReplayReplaceDuplicate))
  then mret (inl ErrInvalidSemanticRequest)
  else
    result ← Do (Eval ReplayRecordScript
                   [recordStream; destination; replay_registry destination; replay_order destination]
                   [recordID; policy; replay_key recordStream recordID; FormatInt (maxLength t)]);
    match ToString result with
    | inl err => mret (inl (safe_Wrap "valkeystream: replay management record" err))
    | inr outcome =>
        if negb (replayOutcome_valid outcome)
        then mret (inl (malformedResponse "invalid record replay result"))
        else mret (inr outcome)
    end.

Definition DeleteRecord (stream id : string) : io W (error + bool) :=
  if (stream == "") || (id == "") then mret (inl ErrInvalidSemanticRequest)
  else
    result ← Do (Xdel stream id);
    match ToInt64 result with
    | inl err => mret (inl (safe_Wrap "valkeystream: delete management record" err))
    | inr deleted =>
        if (deleted <? 0)%Z || (1 <? deleted)%Z
        then mret (inl (malformedResponse "invalid record deletion result"))
        else mret (inr (deleted =? 1)%Z)
    end.

Definition PurgeRecords (stream : string) : io W error :=
  if stream == "" then mret ErrInvalidSemanticRequest
  else
    result ← Do (Del stream);
    match ToInt64 result with
    | inl err => mret (safe_Wrap "valkeystream: purge management records" err)
    | inr deleted =>
        if (deleted <? 0)%Z || (1 <? deleted)%Z
        then mret (malformedResponse "invalid record purge result")
        else mret ErrNil
    end.

Definition GroupState_ (stream group : string) : io W (error + GroupState) :=
  if (stream == "") || (group == "") then mret (inl ErrInvalidSemanticRequest)
  else
    result ← Do (XinfoGroups stream);
    match ToAny result with
    | inl err => mret (inl (safe_Wrap "valkeystream: inspect consumer groups" err))
    | inr value =>
        match parseGroupState value group with
        | inl err => mret (inl err)
        | inr state =>
            if (S_Pending state =? 0)%Z then mret (inr state)
            else
              result ← Do (Xpending stream group "-" "+" 1);
              match ToAny result with
              | inl err => mret (inl (safe_Wrap "valkeystream: inspect oldest pending delivery" err))
              | inr value =>
                  match parseOldestPendingID value with
                  | inl err => mret (inl err)
                  | inr id => mret (inr (mkGroupState (S_Pending state) (S_Lag state) id))
                  end
              end
        end
    end.

End transport.
