(* ===== verification/ValkeySafety.v ===== *)
(** The Valkey transport against a server: what its operations leave in the streams
    when any command can be refused, applied, or applied without its answer arriving;
    and the round trips of replay lineage and of management records. *)

From S2P Require Import Prelude GoStd Sentinels Contract Control Failure Job Status Codec Records Stream.
From S2P Require Import Server Scripts ScriptSafety Valkey.

(** * A client connected to a server

    What the scripts and the append command do at the server. *)
Definition exec {St num} `{!Server St, !LuaNumber num} (c : command) : option (lua St string) :=
  match c with
  | Eval EnqueueScript [key] [limit; body] => Some (enqueueScript key limit body)
  | Eval AcknowledgeScript [key] [group; id] => Some (acknowledgeScript key group id)
  | Eval RetryRecordScript [record; destination; source] [id; group; kind; limit] =>
      Some (retryRecordScript record destination source id group kind limit)
  | Eval ReplayRecordScript [record; destination; registry; order] [id; policy; replayKey; limit] =>
      Some (replayRecordScript record destination registry order id policy replayKey limit)
  | Xadd key threshold fields => Some (call (fun s => XADD_MAXLEN s key threshold fields))
  | _ => None
  end.

(** A result that carries an error. *)
Definition failed (r : commandResult) : Prop :=
  Error r <> ErrNil /\ exists e, ToString r = inl e.

(** The client runs a command once at the server and hands over its answer, or fails:
    before the command ran, after it ran, or because it raised. *)
Class Connection (W St num : Type) `{!commandClient W, !Server St, !LuaNumber num} := {
  server_of : W -> St;
  Do_law c m w r w' :
    exec (num := num) c = Some m -> Do c w = (r, w') ->
    (failed r /\ server_of w' = server_of w) \/
    (server_of w' = (m (server_of w)).2 /\
     (failed r \/ exists o, (m (server_of w)).1 = Some o /\ Error r = ErrNil /\ ToString r = inr o))
}.

(** * A client of the reference server whose network loses requests and answers *)
Module Lossy.

Inductive fault := Delivered | Unsent (text : string) | Unanswered (text : string).

Record world := mkWorld { w_server : Reference.state; w_faults : list fault }.

Definition failure (text : string) : commandResult :=
  let e := Leaf text in mkResult e (inl e) (inl e) (inl e) (inl e) (inl e).
Definition answer (o : string) : commandResult :=
  let e := Leaf "unexpected type" in mkResult ErrNil (inr o) (inl e) (inr (RString o)) (inl e) (inl e).

Definition run (c : command) (s : Reference.state) : commandResult * Reference.state :=
  match exec (num := Z) c with
  | Some m => match m s with (Some o, s') => (answer o, s') | (None, s') => (failure "raised", s') end
  | None => (failure "unsupported", s)
  end.

#[global] Instance client : commandClient world := fun c w =>
  let '(r, s') := run c (w_server w) in
  match w_faults w with
  | [] => (r, mkWorld s' [])
  | Delivered :: faults => (r, mkWorld s' faults)
  | Unsent text :: faults => (failure text, mkWorld (w_server w) faults)
  | Unanswered text :: faults => (failure text, mkWorld s' faults)
  end.

#[global] Instance connection : Connection world Reference.state Z.
Proof.
  refine {| server_of := w_server |}. intros c m w r w' Hm Hdo.
  unfold Do, client, run in Hdo. rewrite Hm in Hdo.
  assert (forall text, failed (failure text)) as Hf by (intros text; split; [done|by eexists]).
  destruct (m (w_server w)) as [[o|] s'] eqn:E; destruct (w_faults w) as [|[] faults];
    simplify_eq; simpl; eauto 10.
Defined.

End Lossy.

(** * Operations of the transport at the server *)

Section safety.
Context {W St num : Type} `{!commandClient W, !Server St, !LuaNumber num}.
Context `{!Connection W St num, !ServerLaws St, !LuaLaws num}.
Implicit Types (w : W) (s : St).

Lemma FormatInt_pretty z : (0 <= z)%Z -> FormatInt z = pretty (Z.to_N z).
Proof. intros. destruct z; [done|done|lia]. Qed.

(** A command at the server: not run, or run with what its script guarantees. *)
Lemma Do_outcome c m Q w r w' :
  exec (num := num) c = Some m -> outcome m Q (server_of w) -> Do c w = (r, w') ->
  (failed r /\ server_of w' = server_of w) \/
  (exists o, Q o (server_of w') /\
     (failed r \/ exists x, o = Some x /\ Error r = ErrNil /\ ToString r = inr x)).
Proof.
  intros Hm HQ Hdo. destruct (Do_law _ _ _ _ _ Hm Hdo) as [?|[-> Hr]]; [by left|right].
  exists (m (server_of w)).1. split; [exact HQ|]. destruct Hr as [?|(x & -> & ? & ?)]; eauto.
Qed.

(** One new entry, and the stream within its limit. *)
Definition stored_once s s' (request : AddRequest) (id : string) : Prop :=
  appended s s' (A_Stream request) [("body", A_Body request)] id /\
  (Z.of_nat (length (entries_of s' (A_Stream request))) <= A_MaxLength request)%Z.

(** Appending a delivery never exceeds the stream limit and never evicts: a
    successful call stored the body in exactly one new entry whose identifier it
    returns; a capacity error found the stream full and changed nothing; any other
    failure leaves the stream as it was or with that one entry, whether or not the
    request or its answer was lost. *)
Theorem add_exact t request w r w' :
  exact_int (A_MaxLength request) -> countable (server_of w) (A_Stream request) ->
  Add t request w = (r, w') ->
  match r with
  | inr id => stored_once (server_of w) (server_of w') request id
  | inl e =>
      (server_of w' = server_of w \/ exists id, stored_once (server_of w) (server_of w') request id) /\
      (e = ErrMaxCapacity -> server_of w' = server_of w /\
         (A_MaxLength request <= Z.of_nat (length (entries_of (server_of w) (A_Stream request))))%Z)
  end.
Proof.
  intros Hex Hc. unfold Add. case_test.
  { intros [= <- <-]. split; [by left|]. intros H. revert H. unfold AddRequest_Validate.
    repeat (case_test; [done|]). done. }
  assert (0 < A_MaxLength request)%Z as Hpos.
  { unfold AddRequest_Validate in E. repeat (case_test; try done). lia. }
  intros (result & w1 & Hdo & H)%io_bind_inv. rewrite FormatInt_pretty in Hdo by lia.
  eapply Do_outcome in Hdo; [|reflexivity|apply enqueue_outcome; [rewrite Z2N.id; [done|lia]|done]].
  destruct Hdo as [[[_ [e He]] Hs]|(o & Hq & Hr)].
  { rewrite He in H. injection H as <- <-. split; [by left|done]. }
  destruct Hr as [[_ [e He]]|(x & -> & _ & He)]; rewrite He in H.
  - injection H as <- <-. split; [|done]. destruct o as [o|]; [|by left].
    destruct Hq as [(_ & -> & _)|(_ & Ha & Hl)]; [by left|right].
    exists o. split; [done|]. specialize (Hl _ eq_refl). lia.
  - destruct Hq as [(-> & Hs & n & [= <-] & Hn)|(Hx & Ha & Hl)].
    + injection H as <- <-. split; [by left|]. intros _. split; [done|]. lia.
    + apply String.eqb_neq in Hx. rewrite Hx in H. injection H as <- <-.
      split; [done|]. specialize (Hl _ eq_refl). lia.
Qed.

(** * Dead-letter settlement *)

(** An append of a management record: nothing, or one new record at the end of its
    stream, where retention can drop the oldest ones. *)
Definition recorded s s' (destination : string) (fields : list (string * string)) : Prop :=
  only_key s s' destination /\
  exists id, (id ∉ (e_id <$> entries_of s destination)) /\
    (mkStreamEntry id fields ∈ entries_of s' destination).

Lemma last_kept {A} (l : list A) x n : (1 <= n)%nat -> x ∈ drop (length (l ++ [x]) - n) (l ++ [x]).
Proof.
  intros Hn. rewrite length_app. simpl. rewrite drop_app_le by lia. apply elem_of_app. right. by left.
Qed.

Lemma xadd_recorded s destination (limit : N) fields :
  (1 <= limit)%N ->
  outcome (call (fun s => XADD_MAXLEN s destination (pretty limit) fields))
    (fun r s' => match r with Some _ => recorded s s' destination fields | None => s' = s end) s.
Proof.
  intros Hl. lua_enter; [|done]. intros id s' (_ & Hfresh & He & _ & [_ _ _ Hk])%XADD_MAXLEN_law.
  split; [done|]. exists id. split; [done|]. rewrite He. apply last_kept. lia.
Qed.

Lemma appendRecord_exact t destination source group delivery failure operation w err w' :
  (0 <= recordMaxLength t)%Z ->
  appendRecord t destination source group delivery failure operation w = (err, w') ->
  let stored := recorded (server_of w) (server_of w') destination
                  (record_fields source group delivery failure) in
  (err = ErrNil -> stored) /\ (server_of w' = server_of w \/ stored).
Proof.
  intros Ht. unfold appendRecord. case_test; [intros [= <- <-]; split; [done|by left]|].
  intros (result & w1 & Hdo & H)%io_bind_inv.
  assert (1 <= (if (recordMaxLength t =? 0)%Z then 2 ^ 63 - 1 else recordMaxLength t))%Z as Hlim
    by (case_test; lia).
  rewrite FormatInt_pretty in Hdo by lia.
  eapply Do_outcome in Hdo; [|reflexivity|apply xadd_recorded; lia].
  destruct Hdo as [[[He _] Hs]|(o & Hq & Hr)].
  - destruct (Error result); try done; injection H as <- <-; split; try done; by left.
  - destruct Hr as [[He _]|(x & -> & He & _)].
    + assert (w1 = w' /\ err <> ErrNil) as [<- Herr]
        by (destruct (Error result); try done; by injection H as <- <-).
      split; [done|]. destruct o; auto.
    + rewrite He in H. injection H as <- <-. auto.
Qed.

Lemma acknowledgement_only s key group id r s' :
  acknowledgement s key group id r s' -> only_key s s' key.
Proof.
  intros [(_ & _ & H)|[(_ & _ & _ & _ & H)|[(_ & _ & _ & _ & H)|(_ & _ & [->|H])]]]; try apply H.
  - intros k _. apply H.
  - intros k _. reflexivity.
Qed.

(** An acknowledgement that succeeds settled the delivery; in every case it changes
    the source only. *)
Lemma Ack_exact request w err w' :
  full_id (K_ID request) -> Ack request w = (err, w') ->
  only_key (server_of w) (server_of w') (K_Stream request) /\
  (err = ErrNil -> K_ID request ∉ pending_of (server_of w') (K_Stream request) (K_Group request)).
Proof.
  intros Hid. unfold Ack. case_test; [intros [= <- <-]; split; [done|intros H; by rewrite H in E]|].
  intros (result & w1 & Hdo & H)%io_bind_inv.
  eapply Do_outcome in Hdo; [|reflexivity|by apply acknowledge_outcome].
  destruct Hdo as [[[_ [e He]] Hs]|(o & Hq & Hr)].
  { rewrite He in H. injection H as <- <-. rewrite Hs. done. }
  pose proof (acknowledgement_only _ _ _ _ _ _ Hq) as Hk.
  destruct Hr as [[_ [e He]]|(x & -> & _ & He)]; rewrite He in H; [by injection H as <- <-|].
  destruct Hq as [([= ->] & _)|[([= ->] & _ & _ & _ & (Hp & _) & _)|
    [([= ->] & _ & _ & _ & (Hp & _) & _)|([=] & _)]]]; injection H as <- <-; split; try done.
  all: intros _; rewrite Hp; set_solver.
Qed.

(** A dead letter of a request is stored between two states. *)
Definition dead_letter_stored (request : DeadLetterRequest) s s' : Prop :=
  exists id, (id ∉ (e_id <$> entries_of s (L_Destination request))) /\
    (mkStreamEntry id (record_fields (L_Source request) (L_Group request) (L_Delivery request)
       (L_Failure request)) ∈ entries_of s' (L_Destination request)).

Lemma DeadLetter_exact t request w err w' :
  (0 <= recordMaxLength t)%Z -> full_id (D_ID (L_Delivery request)) ->
  DeadLetter t request w = (err, w') ->
  let s := server_of w in let s' := server_of w' in
  (same_key (L_Source request) s s' \/ dead_letter_stored request s s') /\
  (err = ErrNil -> dead_letter_stored request s s' /\
   D_ID (L_Delivery request) ∉ pending_of s' (L_Source request) (L_Group request)).
Proof.
  intros Ht Hid. unfold dead_letter_stored, DeadLetter. case_test.
  { intros [= <- <-]. split; [by left|]. intros H. by rewrite H in E. }
  intros (err1 & w1 & Happ & H)%io_bind_inv. unfold AppendDeadLetter in Happ.
  apply io_bind_inv in Happ as (err0 & w0 & Happ & Happ1).
  assert (w1 = w0 /\ (err1 = ErrNil -> err0 = ErrNil)) as [-> Herr].
  { destruct err0; simpl in Happ1; by injection Happ1 as <- <-. }
  apply appendRecord_exact in Happ as [Hok Hst]; [|done]. simpl in *.
  destruct (is_nil err1) eqn:En; simpl in H.
  2: { injection H as <- <-. split; [|by intros ->]. destruct Hst as [->|[_ Hst]]; auto. by left. }
  assert (err1 = ErrNil) as -> by (by destruct err1).
  destruct (Hok (Herr eq_refl)) as [Hk0 (id & Hfresh & Hin)].
  apply io_bind_inv in H as (err2 & w2 & Hack & H). apply Ack_exact in Hack as [Hk Hrel]; [|done].
  assert (w2 = w' /\ (err = ErrNil -> err2 = ErrNil)) as [-> Herr2].
  { destruct err2; simpl in H; by injection H as <- <-. }
  assert (L_Destination request <> L_Source request) as Hne.
  { intros Heq. unfold DeadLetterRequest_Validate in E. rewrite Heq, String.eqb_refl, orb_true_r in E.
    repeat (case_test; try done). }
  assert (mkStreamEntry id (record_fields (L_Source request) (L_Group request) (L_Delivery request)
       (L_Failure request)) ∈ entries_of (server_of w') (L_Destination request)) as Hin'.
  { by rewrite (sk_entries _ _ _ (Hk _ Hne)). }
  split; [right; eauto|]. intros ->. split; [eauto|]. by apply Hrel, Herr2.
Qed.

(** C24: Dead-letter settlement never loses a job. Whatever commands are refused,
    raise, or lose their answers, the source keeps the delivery as it was unless the
    dead-letter stream has a new record of it; and when settlement reports success
    the record is stored and the delivery is no longer pending. *)
Theorem dead_letter_keeps_work t request w err w' :
  (0 <= recordMaxLength t)%Z -> full_id (D_ID (L_Delivery request)) ->
  DeadLetter t request w = (err, w') ->
  let s := server_of w in let s' := server_of w' in
  (same_key (L_Source request) s s' \/ dead_letter_stored request s s') /\
  (err = ErrNil -> dead_letter_stored request s s' /\
   D_ID (L_Delivery request) ∉ pending_of s' (L_Source request) (L_Group request)).
Proof. apply DeadLetter_exact. Qed.
End safety.

(** * Round trips *)

(** The map a client decodes an entry's fields into: a later value wins. *)
Definition fields_map (l : list (string * string)) : gmap string string :=
  foldl (fun m kv => <[kv.1 := kv.2]> m) ∅ l.

Definition decoded (e : entry) : XRangeEntry := mkXRangeEntry (e_id e) (fields_map (e_fields e)).

(** A lineage that can be printed: absent, or complete with a 32-bit generation. *)
Definition lineage_u32 (d : Delivery) : Prop :=
  lineage_ok d /\ (0 <= D_ReplayGeneration d < 2 ^ 32)%Z.

Lemma record_fields_lookup source group d f :
  let m := fields_map (record_fields source group d f) in
  let has := (0 <? D_ReplayGeneration d)%Z in
  m !! "body" = Some (D_Body d) /\ m !! "original_id" = Some (D_ID d) /\
  m !! "delivery_attempts" = Some (FormatInt (D_Attempts d)) /\
  m !! "envelope_version" = Some "1" /\
  m !! "classification" = Some (F_Classification f) /\ m !! "failure_code" = Some (F_Code f) /\
  m !! "source_stream" = Some source /\ m !! "consumer_group" = Some group /\
  m !! "replay_original_dead_letter_id" = (if has then Some (D_OriginalDeadLetterID d) else None) /\
  m !! "replay_prior_dead_letter_id" = (if has then Some (D_PriorDeadLetterID d) else None) /\
  m !! "replay_generation" = (if has then Some (FormatInt (D_ReplayGeneration d)) else None).
Proof. unfold record_fields, fields_map. destruct (0 <? D_ReplayGeneration d)%Z; by simpl. Qed.

(** A complete lineage parses to itself. *)
Lemma parse_lineage m original prior generation :
  m !! "replay_original_dead_letter_id" = Some original ->
  m !! "replay_prior_dead_letter_id" = Some prior ->
  m !! "replay_generation" = Some (FormatInt generation) ->
  identity original -> identity prior -> (0 < generation < 2 ^ 32)%Z ->
  parseReplayLineage m = inr (original, prior, generation).
Proof.
  unfold parseReplayLineage. intros -> -> -> [Hb1 Hl1] [Hb2 Hl2] Hg.
  rewrite Hb1, Hb2. do 2 (case_test; [lia|]).
  rewrite FormatInt_pretty, ParseUintBits_pretty, Z2N.id by lia. by case_test; [lia|].
Qed.

(** The lineage a record stores is the delivery's. *)
Lemma parse_record_lineage source group d f :
  lineage_u32 d ->
  parseReplayLineage (fields_map (record_fields source group d f)) =
  inr (D_OriginalDeadLetterID d, D_PriorDeadLetterID d, D_ReplayGeneration d).
Proof.
  intros [Hl Hg].
  destruct (record_fields_lookup source group d f) as (_ & _ & _ & _ & _ & _ & _ & _ & H1 & H2 & H3).
  destruct Hl as [(E1 & E2 & E3)|(Ho & Hp & Hn)].
  - rewrite E3 in *. unfold parseReplayLineage. rewrite H1, H2, H3, E1, E2. done.
  - assert (0 < D_ReplayGeneration d)%Z as Hpos by lia.
    apply Z.ltb_lt in Hpos as Hb. rewrite Hb in H1, H2, H3.
    apply parse_lineage; (done || lia).
Qed.

(** A failure or dead-letter record reads back as it was written: identifier, body,
    attempts, time of the identifier, source, group, classification, code and replay
    lineage, for every delivery the append accepts. *)
Theorem record_roundtrip (ms seq : N) source group d f :
  (Z.of_N ms < 2 ^ 63)%Z -> source <> "" -> group <> "" -> D_ID d <> "" ->
  (1 <= D_Attempts d < 2 ^ 63)%Z -> FailureMetadata_Validate f = ErrNil -> lineage_u32 d ->
  let id := pretty ms +:+ "-" +:+ pretty seq in
  convertNativeRecord (decoded (mkStreamEntry id (record_fields source group d f))) =
  inr (mkNativeRecord id (D_ID d) (D_Body d) (D_Attempts d) (UTC (UnixMilli (Z.of_N ms)))
         CurrentEnvelopeVersion source group (F_Classification f) (F_Code f)
         (D_OriginalDeadLetterID d) (D_PriorDeadLetterID d) (D_ReplayGeneration d)).
Proof.
  intros Hms Hs Hg Hid Ha Hf Hl. unfold convertNativeRecord, decoded, get. cbn [ID FieldValues e_id e_fields].
  rewrite (parse_record_lineage source group d f Hl).
  destruct (record_fields_lookup source group d f) as (-> & -> & -> & -> & -> & -> & -> & -> & _).
  rewrite FormatInt_pretty, ParseInt_pretty, Z2N.id by lia.
  unfold recordTime. rewrite Reference.cut_full, ParseInt_pretty by done. simpl.
  unfold FailureMetadata_Validate in Hf. rewrite Hf.
  apply String.eqb_neq in Hs, Hg, Hid. rewrite Hs, Hg, Hid.
  case_test; [lia|done].
Qed.

Section lineage.
Context {num : Type} `{!LuaNumber num, !LuaLaws num}.

(** The next lineage the scripts compute from a stored record: exhausted at the largest
    32-bit generation. *)
Lemma next_lineage_record id source group d f :
  lineage_u32 d -> identity id ->
  next_lineage (num := num) id (record_fields source group d f) =
  if (D_ReplayGeneration d =? 4294967295)%Z then None
  else Some (if (D_ReplayGeneration d =? 0)%Z then id else D_OriginalDeadLetterID d,
             of_int (D_ReplayGeneration d + 1)).
Proof.
  intros [Hl Hg] [_ Hid]. unfold len, MaxIdentityBytes in Hid.
  unfold next_lineage, record_fields.
  destruct Hl as [(_ & _ & ->)|([_ Ho] & _ & Hn)]; cbn -[Nat.ltb of_int].
  { destruct (Nat.ltb_spec 256 (String.length id)); [lia|done]. }
  unfold len, MaxIdentityBytes in Ho.
  destruct (Z.ltb_spec 0 (D_ReplayGeneration d)); [|lia]. cbn -[Nat.ltb of_int].
  rewrite FormatInt_pretty by lia.
  rewrite tonumber_law by (rewrite Z2N.id by lia; apply exact_small; lia). rewrite Z2N.id by lia.
  rewrite num_lt_law, num_le_law by (apply exact_small; lia).
  destruct (Z.eqb_spec (D_ReplayGeneration d) 4294967295) as [->|]; [done|].
  destruct (Z.eqb_spec (D_ReplayGeneration d) 0) as [|]; [lia|].
  destruct (Z.ltb_spec (D_ReplayGeneration d) 1); [lia|].
  destruct (Z.leb_spec 4294967295 (D_ReplayGeneration d)); [lia|]. simpl.
  rewrite num_add_law by (apply exact_small; lia).
  destruct (Nat.ltb_spec 256 (String.length (D_OriginalDeadLetterID d))); [lia|done].
Qed.

(** Replay lineage grows by exactly one generation per redrive, from the record of a
    terminal failure through the scripts to the next delivery: the redriven entry
    decodes to a delivery whose lineage names the first dead letter of the chain and
    the record just redriven; a chain whose 32-bit generation is exhausted is refused
    rather than wrapped. *)
Theorem replay_lineage_step id source group d f new body :
  lineage_u32 d -> identity id ->
  match next_lineage (num := num) id (record_fields source group d f) with
  | Some (nextOriginal, nextGeneration) =>
      (D_ReplayGeneration d < 2 ^ 32 - 1)%Z /\
      convertEntries
        [decoded (mkStreamEntry new (replayed_fields body id nextOriginal nextGeneration))] 1 false =
      inr [mkDelivery new body 1 false
             (if (D_ReplayGeneration d =? 0)%Z then id else D_OriginalDeadLetterID d)
             id (D_ReplayGeneration d + 1)]
  | None => D_ReplayGeneration d = (2 ^ 32 - 1)%Z
  end.
Proof.
  intros Hd Hid. rewrite next_lineage_record by done. destruct Hd as [Hl Hg].
  destruct (Z.eqb_spec (D_ReplayGeneration d) 4294967295) as [->|Hne]; [done|].
  split; [lia|]. unfold convertEntries, decoded. cbn [ID FieldValues e_id e_fields].
  set (o := if (D_ReplayGeneration d =? 0)%Z then id else D_OriginalDeadLetterID d).
  assert (identity o) as Ho.
  { unfold o. destruct (Z.eqb_spec (D_ReplayGeneration d) 0); [done|].
    destruct Hl as [(_ & _ & ?)|(? & _)]; [lia|done]. }
  assert (of_int (num := num) (D_ReplayGeneration d + 1) =
          of_int (Z.of_N (Z.to_N (D_ReplayGeneration d + 1)))) as -> by (by rewrite Z2N.id by lia).
  unfold replayed_fields. rewrite tostring_law by lia.
  assert (fields_map [("body", body); ("replay_original_dead_letter_id", o);
     ("replay_prior_dead_letter_id", id);
     ("replay_generation", pretty (Z.to_N (D_ReplayGeneration d + 1)))] !! "body" = Some body) as ->
    by done.
  unfold applyReplayLineage.
  rewrite (parse_lineage _ o id (D_ReplayGeneration d + 1)); try done; [|lia].
  by rewrite FormatInt_pretty by lia.
Qed.
End lineage.

(** * Witnesses *)

Definition sample_transport : nativeTransport := mkTransport 4 2 1000.
Definition sample_delivery : Delivery := mkDelivery "5-0" "job" 3 true "1-0" "2-0" 7.
Definition sample_failure : FailureMetadata := mkFailureMetadata "permanent" "handler_failed".

Lemma sample_lineage : lineage_u32 sample_delivery.
Proof. split; [right|done]. split; [|split]; [by apply (bool_decide_unpack _)..|done]. Qed.

Lemma add_exact_witness :
  let w := Lossy.mkWorld Sample.state [Lossy.Delivered] in
  let request := mkAddRequest "q" 4 "other" in
  stored_once Sample.state (server_of (num := Z) (Add sample_transport request w).2) request "6-0".
Proof.
  intros w request.
  exact (add_exact (num := Z) sample_transport request w (inr "6-0") _
           (exact_small 4 ltac:(done)) (exact_small 1 ltac:(done)) ltac:(vm_compute; reflexivity)).
Defined.

(** The append is stored, the acknowledgement's answer is lost. *)
Lemma dead_letter_keeps_work_witness :
  let w := Lossy.mkWorld Sample.state [Lossy.Delivered; Lossy.Unanswered "timeout"] in
  let request := mkDeadLetterRequest "q" "dead" "g" sample_delivery sample_failure in
  let s' := server_of (num := Z) (DeadLetter sample_transport request w).2 in
  same_key "q" Sample.state s' \/ dead_letter_stored request Sample.state s'.
Proof.
  intros w request.
  exact (proj1 (dead_letter_keeps_work (num := Z) sample_transport request w
    (safe_Wrap "valkeystream: settle dead letter source"
       (safe_Wrap "valkeystream: acknowledge delivery" (Leaf "timeout"))) _
    ltac:(done) (Sample.id_full 5 0) ltac:(vm_compute; reflexivity))).
Defined.

Lemma record_roundtrip_witness :
  convertNativeRecord (decoded (mkStreamEntry "9-0" (record_fields "q" "g" sample_delivery sample_failure))) =
  inr (mkNativeRecord "9-0" "5-0" "job" 3 (UTC (UnixMilli 9)) 1 "q" "g" "permanent" "handler_failed"
         "1-0" "2-0" 7).
Proof.
  apply (record_roundtrip 9 0 "q" "g" sample_delivery sample_failure); try done. apply sample_lineage.
Defined.

Lemma replay_lineage_step_witness :
  convertEntries [decoded (mkStreamEntry "11-0" (replayed_fields (num := Z) "job" "9-0" "1-0" 8%Z))] 1 false =
  inr [mkDelivery "11-0" "job" 1 false "1-0" "9-0" 8].
Proof.
  exact (proj2 (replay_lineage_step (num := Z) "9-0" "q" "g" sample_delivery sample_failure
           "11-0" "job" sample_lineage ltac:(by apply (bool_decide_unpack _)))).
Defined.

(** * Incomplete identifiers

    A record stream with the record [9-1], and the identifier [9]. *)
Definition incomplete_state : Reference.state :=
  Reference.mkState {["q" := []; "dead" := [Sample.record_entry "9-1"]]} ∅ ∅ ∅ ∅.

(** Retrying by an incomplete identifier enqueues the job and reports success while
    its record stays: the range of the script matches every sequence of the
    millisecond, the deletion only sequence zero. The same call enqueues it again. *)
Lemma retry_incomplete_duplicates :
  let retry := RetryRecord (mkTransport 4 0 1000) "dead" "9" "q" "q" "g" false in
  let '(r1, w1) := retry (Lossy.mkWorld incomplete_state []) in
  let '(r2, w2) := retry w1 in
  r1 = inr "ok" /\ r2 = inr "ok" /\
  entries_of (Lossy.w_server w2) "dead" = [Sample.record_entry "9-1"] /\
  length (entries_of (Lossy.w_server w2) "q") = 2%nat.
Proof. vm_compute. auto. Qed.
