(* ===== verification/ValkeyOptions.v ===== *)
(** Configuration of the Valkey Streams worker (valkeystream/options.go,
    valkeystream/errors.go): the options, their order of application and the
    validation that every worker and publisher passes. *)

From S2P Require Import Prelude GoStd Contract Failure Job Status.

(** [valkeystream.ErrInvalidConfiguration], which [ConfigurationError] unwraps to. *)
Definition ErrInvalidValkeyConfiguration : error := Sentinel "valkeystream: invalid configuration".
Definition ErrInvalidDeliveryAttemptLimit : error :=
  Sentinel "valkeystream: invalid delivery attempt limit".
Definition ErrInvalidManagementStatus : error :=
  Sentinel "valkeystream: invalid management status".

Definition maxReadBatchSize : Z := 256.
Definition maxReclaimBatchSize : Z := 256.
Definition maxBlockingPoolSize : Z := 128.
Definition maxReplayDestinations : Z := 64.
Definition maxCanceledDeadLetterCodes : Z := 32.
Definition maxResolvedDeliveryAttempts : Z := 100.

(** [tls.VersionTLS12]; of a TLS configuration the minimum version is kept. *)
Definition VersionTLS12 : Z := 771.

(** A resolver and a handler can panic. The logger is not kept: it only writes. *)
Record options := mkOptions {
  O_address : string;
  O_username : string;
  O_password : string;
  O_db : Z;
  O_tlsConfig : option Z;
  O_clientName : string;
  O_dialTimeout : Z;
  O_commandTimeout : Z;
  O_requestTimeout : Z;
  O_blockTime : Z;
  O_shutdownTimeout : Z;
  O_blockingPoolMinSize : Z;
  O_blockingPoolSize : Z;
  O_blockingPoolCleanup : Z;
  O_stream : string;
  O_group : string;
  O_consumer : string;
  O_maxLength : Z;
  O_recordMaxLength : Z;
  O_readBatchSize : Z;
  O_reclaimMinIdle : Z;
  O_reclaimInterval : Z;
  O_reclaimBatchSize : Z;
  O_failureStream : string;
  O_deadLetterStream : string;
  O_maxDeliveryAttempts : Z;
  O_deliveryAttemptLimit : option (Message -> go Z);
  O_canceledDeadLetterCodes : gset string;
  O_management : option StatusMetadata;
  O_replayDestinations : gset string;
  O_runFunc : Message -> go error
}.

(** [&ConfigurationError{Field, Cause}]: unwraps to the classification and the cause. *)
Definition invalidOption (field : string) (cause : error) : error :=
  Join ("valkeystream: invalid " +:+ field +:+ " configuration") [ErrInvalidValkeyConfiguration; cause].

(** [strings.ContainsAny]. *)
Definition ContainsAny (s : string) (chars : list ascii) : bool :=
  existsb (fun c => existsb (Ascii.eqb c) chars) (list_ascii_of_string s).

(** NUL, CR, LF. *)
Definition control_chars : list ascii := ["000"; "013"; "010"]%char.

(** * Options *)

Definition Option_ : Type := options -> error + options.

Definition WithManagementStatus (metadata : StatusMetadata) : Option_ := fun opts =>
  if negb (is_nil (StatusMetadata_Validate metadata)) then inl ErrInvalidManagementStatus
  else inr (opts <| O_management := Some metadata |>).

Definition WithAddress (address : string) : Option_ := fun opts =>
  inr (opts <| O_address := TrimSpace address |>).

Definition WithAuthentication (username password : string) : Option_ := fun opts =>
  inr (opts <| O_username := username |> <| O_password := password |>).

Definition WithDB (database : Z) : Option_ := fun opts => inr (opts <| O_db := database |>).

Definition WithTLSConfig (config : option Z) : Option_ := fun opts =>
  match config with
  | None => inl (invalidOption "tls" (Leaf "TLS configuration is required"))
  | Some version => inr (opts <| O_tlsConfig := Some (Z.max version VersionTLS12) |>)
  end.

Definition WithClientName (name : string) : Option_ := fun opts =>
  inr (opts <| O_clientName := TrimSpace name |>).

Definition WithDialTimeout (timeout : Z) : Option_ := fun opts =>
  inr (opts <| O_dialTimeout := timeout |>).

Definition WithCommandTimeout (timeout : Z) : Option_ := fun opts =>
  inr (opts <| O_commandTimeout := timeout |>).

Definition WithRequestTimeout (timeout : Z) : Option_ := fun opts =>
  inr (opts <| O_requestTimeout := timeout |>).

Definition WithBlockTime (timeout : Z) : Option_ := fun opts =>
  inr (opts <| O_blockTime := timeout |>).

Definition WithShutdownTimeout (timeout : Z) : Option_ := fun opts =>
  inr (opts <| O_shutdownTimeout := timeout |>).

Definition WithBlockingPool (minimum maximum cleanup : Z) : Option_ := fun opts =>
  inr (opts <| O_blockingPoolMinSize := minimum |> <| O_blockingPoolSize := maximum |>
            <| O_blockingPoolCleanup := cleanup |>).

Definition WithStreamName (name : string) : Option_ := fun opts =>
  inr (opts <| O_stream := TrimSpace name |>).

Definition WithGroup (name : string) : Option_ := fun opts =>
  inr (opts <| O_group := TrimSpace name |>).

Definition WithConsumer (name : string) : Option_ := fun opts =>
  inr (opts <| O_consumer := TrimSpace name |>).

Definition WithMaxLength (length : Z) : Option_ := fun opts =>
  inr (opts <| O_maxLength := length |>).

Definition WithRecordRetention (maxRecords : Z) : Option_ := fun opts =>
  if (maxRecords <=? 0)%Z then inl (invalidOption "record retention" (Leaf "unsafe value"))
  else inr (opts <| O_recordMaxLength := maxRecords |>).

Definition WithReadBatchSize (size : Z) : Option_ := fun opts =>
  inr (opts <| O_readBatchSize := size |>).

Definition WithReclaim (minIdle interval batchSize : Z) : Option_ := fun opts =>
  inr (opts <| O_reclaimMinIdle := minIdle |> <| O_reclaimInterval := interval |>
            <| O_reclaimBatchSize := batchSize |>).

Definition WithFailureStream (stream : string) : Option_ := fun opts =>
  inr (opts <| O_failureStream := TrimSpace stream |>).

Definition WithDeadLetter (stream : string) (maxAttempts : Z) : Option_ := fun opts =>
  inr (opts <| O_deadLetterStream := TrimSpace stream |> <| O_maxDeliveryAttempts := maxAttempts |>).

Definition WithDeliveryAttemptLimitResolver (resolver : option (Message -> go Z)) : Option_ :=
  fun opts =>
  match resolver with
  | None => inl (invalidOption "delivery attempt limit resolver" (Leaf "resolver is required"))
  | Some _ => inr (opts <| O_deliveryAttemptLimit := resolver |>)
  end.

(** The loop over the codes. *)
Fixpoint canceled_codes (codes : list string) (allowed : gset string) : error + gset string :=
  match codes with
  | [] => inr allowed
  | code :: codes =>
      if (TrimSpace code != code) || (code == "") || (MaxIdentityBytes <? len code)%Z ||
         ContainsAny code control_chars
      then inl (invalidOption "canceled dead-letter code" (Leaf "unsafe value"))
      else if bool_decide (code ∈ allowed)
      then inl (invalidOption "canceled dead-letter code" (Leaf "duplicate value"))
      else canceled_codes codes ({[code]} ∪ allowed)
  end.

Definition WithCanceledDeadLetterCodes (codes : list string) : Option_ := fun opts =>
  if (zlen codes =? 0)%Z || (maxCanceledDeadLetterCodes <? zlen codes)%Z
  then inl (invalidOption "canceled dead-letter codes" (Leaf "unsafe value"))
  else match canceled_codes codes ∅ with
       | inl e => inl e
       | inr allowed => inr (opts <| O_canceledDeadLetterCodes := allowed |>)
       end.

Fixpoint replay_destinations (destinations : list string) (allowed : gset string)
  : error + gset string :=
  match destinations with
  | [] => inr allowed
  | destination :: destinations =>
      let destination := TrimSpace destination in
      if (destination == "") || (MaxIdentityBytes <? len destination)%Z ||
         ContainsAny destination control_chars
      then inl (invalidOption "replay destination" (Leaf "unsafe value"))
      else if bool_decide (destination ∈ allowed)
      then inl (invalidOption "replay destination" (Leaf "duplicate value"))
      else replay_destinations destinations ({[destination]} ∪ allowed)
  end.

Definition WithReplayDestinations (destinations : list string) : Option_ := fun opts =>
  if (zlen destinations =? 0)%Z || (maxReplayDestinations <? zlen destinations)%Z
  then inl (invalidOption "replay destinations" (Leaf "unsafe value"))
  else match replay_destinations destinations ∅ with
       | inl e => inl e
       | inr allowed => inr (opts <| O_replayDestinations := allowed |>)
       end.

(** A logger is present or nil. *)
Definition WithLogger (present : bool) : Option_ := fun opts =>
  if negb present then inl (invalidOption "logger" (Leaf "logger is required")) else inr opts.

Definition WithRunFunc (run : option (Message -> go error)) : Option_ := fun opts =>
  match run with
  | None => inl (invalidOption "run function" (Leaf "run function is required"))
  | Some run => inr (opts <| O_runFunc := run |>)
  end.

(** * Validation *)

Definition checks (o : options) : list (bool * string) :=
  [((O_address o == "") || ContainsAny (O_address o) ["@"; "/"]%char, "address");
   ((O_db o <? 0)%Z, "database");
   (O_clientName o == "", "client name");
   ((O_dialTimeout o <=? 0)%Z, "dial timeout");
   ((O_commandTimeout o <=? 0)%Z, "command timeout");
   ((O_requestTimeout o <=? 0)%Z, "request timeout");
   ((O_blockTime o <=? 0)%Z || (O_requestTimeout o <? O_blockTime o)%Z, "block time");
   ((O_shutdownTimeout o <=? 0)%Z, "shutdown timeout");
   ((O_blockingPoolMinSize o <? 0)%Z, "blocking pool minimum");
   ((O_blockingPoolSize o <=? 0)%Z || (maxBlockingPoolSize <? O_blockingPoolSize o)%Z,
    "blocking pool size");
   ((O_blockingPoolSize o <? O_blockingPoolMinSize o)%Z, "blocking pool minimum");
   ((O_blockingPoolCleanup o <=? 0)%Z, "blocking pool cleanup");
   (O_stream o == "", "stream");
   (O_group o == "", "group");
   (O_consumer o == "", "consumer");
   ((O_maxLength o <=? 0)%Z, "maximum stream length");
   ((O_recordMaxLength o <? 0)%Z, "record retention");
   ((O_readBatchSize o <=? 0)%Z || (maxReadBatchSize <? O_readBatchSize o)%Z, "read batch size");
   ((O_reclaimMinIdle o <=? 0)%Z, "reclaim minimum idle time");
   ((O_reclaimInterval o <=? 0)%Z, "reclaim interval");
   ((O_reclaimBatchSize o <=? 0)%Z || (maxReclaimBatchSize <? O_reclaimBatchSize o)%Z,
    "reclaim batch size");
   ((O_failureStream o == "") || (O_failureStream o == O_stream o) ||
    (O_failureStream o == O_deadLetterStream o), "failure stream");
   ((O_deadLetterStream o == "") || (O_deadLetterStream o == O_stream o), "dead-letter stream");
   ((O_maxDeliveryAttempts o <? 1)%Z, "maximum delivery attempts")].

(** The first failing check is reported. *)
Fixpoint first_failure (l : list (bool * string)) : error :=
  match l with
  | [] => ErrNil
  | (b, field) :: l => if b : bool then invalidOption field (Leaf "unsafe value") else first_failure l
  end.

(** A replay destination that is a management stream is found in any iteration order. *)
Definition options_validate (o : options) : error :=
  if bool_decide (O_failureStream o ∈ O_replayDestinations o) ||
     bool_decide (O_deadLetterStream o ∈ O_replayDestinations o)
  then invalidOption "replay destination" (Leaf "conflicts with management stream")
  else first_failure (checks o).

(** The defaults; [consumer] has the process identifier in its name. *)
Definition default_options (consumer : string) : options :=
  mkOptions "" "" "" 0 None "go-queue" (5 * Second) (5 * Second) (6 * Second) Second (10 * Second)
    1 8 Minute "golang-queue" "golang-queue" consumer 10000 0 16 (30 * Second) (5 * Second) 16
    "golang-queue-failures" "golang-queue-dead" 5 None ∅ None ∅ (fun _ => Ret ErrNil).

(** [None] is a nil option. *)
Fixpoint apply_options (option : list (option Option_)) (opts : options) : error + options :=
  match option with
  | [] => inr opts
  | None :: _ => inl (invalidOption "option" (Leaf "option is required"))
  | Some apply :: option =>
      match apply opts with inl e => inl e | inr opts => apply_options option opts end
  end.

Definition newOptions (consumer : string) (option : list (option Option_)) : error + options :=
  match apply_options option (default_options consumer) with
  | inl e => inl e
  | inr opts =>
      let err := options_validate opts in
      if negb (is_nil err) then inl err else inr opts
  end.

(** * Specification *)

(** What every constructed worker can rely on. *)
Record options_ok (o : options) : Prop := {
  oo_address : O_address o <> "" /\ ContainsAny (O_address o) ["@"; "/"]%char = false;
  oo_database : (0 <= O_db o)%Z;
  oo_client : O_clientName o <> "";
  oo_timeouts : (0 < O_dialTimeout o /\ 0 < O_commandTimeout o /\ 0 < O_requestTimeout o /\
                 0 < O_blockTime o <= O_requestTimeout o /\ 0 < O_shutdownTimeout o)%Z;
  oo_pool : (0 <= O_blockingPoolMinSize o <= O_blockingPoolSize o /\
             0 < O_blockingPoolSize o <= maxBlockingPoolSize /\ 0 < O_blockingPoolCleanup o)%Z;
  oo_identity : O_stream o <> "" /\ O_group o <> "" /\ O_consumer o <> "";
  oo_limits : (0 < O_maxLength o /\ 0 <= O_recordMaxLength o /\
               0 < O_readBatchSize o <= maxReadBatchSize)%Z;
  oo_reclaim : (0 < O_reclaimMinIdle o /\ 0 < O_reclaimInterval o /\
                0 < O_reclaimBatchSize o <= maxReclaimBatchSize)%Z;
  oo_streams : O_failureStream o <> "" /\ O_deadLetterStream o <> "" /\
    NoDup [O_stream o; O_failureStream o; O_deadLetterStream o];
  oo_replay : (O_failureStream o ∉ O_replayDestinations o) /\
              (O_deadLetterStream o ∉ O_replayDestinations o);
  oo_attempts : (1 <= O_maxDeliveryAttempts o)%Z
}.

Lemma first_failure_nil l : first_failure l = ErrNil <-> Forall (fun c => c.1 = false) l.
Proof.
  induction l as [|[b field] l IH]; simpl; [by split; [constructor|]|].
  rewrite Forall_cons. simpl. destruct b; [split; [done|by intros [? _]]|]. rewrite IH. tauto.
Qed.

(** Validation accepts exactly the safe configurations. *)
Lemma options_validate_iff o : options_validate o = ErrNil <-> options_ok o.
Proof.
  unfold options_validate. destruct (_ || _) eqn:E.
  { split; [done|]. intros []. apply orb_true_iff in E as [?%bool_decide_eq_true|?%bool_decide_eq_true];
    naive_solver. }
  apply orb_false_iff in E as [E1%bool_decide_eq_false E2%bool_decide_eq_false].
  rewrite first_failure_nil. unfold checks. rewrite !Forall_cons, Forall_nil. simpl.
  rewrite !orb_false_iff, !String.eqb_neq, !Z.leb_gt, !Z.ltb_ge. split.
  - intros H. decompose [and] H. split; try done; try lia; try (split_and!; done || lia).
    split_and!; try done. apply NoDup_cons. split; [set_solver|]. apply NoDup_cons.
    split; [set_solver|apply NoDup_singleton].
  - intros []. rewrite !NoDup_cons, !not_elem_of_cons in *. naive_solver lia.
Qed.

Lemma newOptions_ok consumer option o : newOptions consumer option = inr o -> options_ok o.
Proof.
  unfold newOptions. destruct (apply_options _ _) as [|o']; [done|].
  destruct (options_validate o') eqn:E; try done. intros [= <-]. by apply options_validate_iff.
Qed.
