(* ===== verification/ValkeyWorker.v ===== *)
(** The Valkey Streams worker (valkeystream/worker.go, valkeystream/publisher.go,
    valkeystream/status.go) over the transport interface of
    internal/streamqueue/semantics.go: admission, the read and reclaim loops, decoding,
    settlement, statistics and status. *)

From S2P Require Import Prelude GoStd Sentinels Contract Control Failure Job Status Protocol Codec Records Stream.
From S2P Require Import Valkey ValkeyOptions.

(** * The transport interface *)

(** [streamqueue.Transport]; the record capability is present when the transport is a
    [nativeRecordTransport]. *)
Class Transport (W : Type) := {
  T_EnsureGroup : string -> string -> io W error;
  T_Add : AddRequest -> io W (error + string);
  T_Read : ReadRequest -> io W (error + list Delivery);
  T_Claim : ClaimRequest -> io W (error + ClaimResult);
  T_Ack : AckRequest -> io W error;
  T_DeadLetter : DeadLetterRequest -> io W error;
  T_GroupState : string -> string -> io W (error + GroupState);
  T_Close : io W error;
  T_RecordFailure :
    option (string -> string -> string -> Delivery -> FailureMetadata -> io W error)
}.

(** * The worker *)

Record workerMetrics := mkWorkerMetrics {
  enqueued : Z; delivered : Z; reclaimed : Z; retries : Z;
  acknowledged : Z; deadLettered : Z; settlementFailures : Z
}.

(** [atomic.Uint64.Add(1)]. *)
Definition incr (n : Z) : Z := wrap_u64 (n + 1).

(** [tasks] is the buffered channel; [canceled] is the worker's context; [currentJobs]
    is a uint32. *)
Record Worker (W : Type) := mkWorker {
  transport : W;
  tasks : list Delivery;
  tasks_closed : bool;
  canceled : bool;
  stopped : bool;
  metrics : workerMetrics;
  currentJobs : Z;
  startedAt : Time
}.
Arguments mkWorker {W} _ _ _ _ _ _ _ _.
Arguments transport {W} _.
Arguments tasks {W} _.
Arguments tasks_closed {W} _.
Arguments canceled {W} _.
Arguments stopped {W} _.
Arguments metrics {W} _.
Arguments currentJobs {W} _.
Arguments startedAt {W} _.

Definition BackendName : string := "valkey-streams".

(** * Failure policy *)

Definition terminalFailure (handlerErr : error) (attempts maximumAttempts : Z)
    (canceledCodes : gset string) : bool :=
  let resolution := ResolveFailure handlerErr in
  if (Classification resolution == ClassificationPermanent) ||
     (Classification resolution == ClassificationMalformed) then true
  else if Classification resolution == ClassificationRetryable then (maximumAttempts <=? attempts)%Z
  else if Classification resolution == ClassificationCanceled
  then bool_decide (Code resolution ∈ canceledCodes) && (maximumAttempts <=? attempts)%Z
  else false.

Definition failureMetadata (err : error) (fallbackCode : string) : FailureMetadata :=
  let resolution := ResolveFailure err in
  mkFailureMetadata (Classification resolution)
    (if Code resolution != "" then Code resolution else fallbackCode).

Section worker.
Context {W : Type} `{!Transport W} (opts : options).
(** The iteration order of metadata maps and the JSON decoder, as in [Job.DecodeE]. *)
Context (order : list (string * string) -> list (string * string)).
Context (unmarshal : string -> error + Message).
Implicit Types w : Worker W.

(** Runs a transport operation inside the worker. *)
Definition on_transport {A} (m : io W A) (w : Worker W) : A * Worker W :=
  let '(a, t) := m (transport w) in (a, w <| @transport W := t |>).

Definition count (f : workerMetrics -> workerMetrics) (w : Worker W) : Worker W :=
  w <| @metrics W := f (metrics w) |>.

Definition count_enqueued (m : workerMetrics) := m <| enqueued := incr (enqueued m) |>.
Definition count_delivered (m : workerMetrics) := m <| delivered := incr (delivered m) |>.
Definition count_reclaimed (m : workerMetrics) :=
  m <| reclaimed := incr (reclaimed m) |> <| retries := incr (retries m) |>.
Definition count_acknowledged (m : workerMetrics) := m <| acknowledged := incr (acknowledged m) |>.
Definition count_deadLettered (m : workerMetrics) := m <| deadLettered := incr (deadLettered m) |>.
Definition count_failed (m : workerMetrics) :=
  m <| settlementFailures := incr (settlementFailures m) |>.

Definition newWorkerForTransport (t : W) (now : Time) : Worker W :=
  mkWorker t [] false false false (mkWorkerMetrics 0 0 0 0 0 0 0) 0 (UTC now).

(** [Queue]; the task is the encoding of a message, [None] a nil task. *)
Definition Queue (task : option string) (w : Worker W) : error * Worker W :=
  if stopped w then (ErrQueueShutdown, w)
  else
    match task with
    | None => (Leaf "valkeystream: task is required", w)
    | Some bytes =>
        let '(r, w) := on_transport (T_Add (mkAddRequest (O_stream opts) (O_maxLength opts) bytes)) w in
        match r with
        | inr _ => (ErrNil, count count_enqueued w)
        | inl err => (err, w)
        end
    end.

(** * Settlement *)

Definition deadLetter (d : Delivery) (f : FailureMetadata) (w : Worker W) : error * Worker W :=
  on_transport (T_DeadLetter (mkDeadLetterRequest (O_stream opts) (O_deadLetterStream opts)
                                (O_group opts) d f)) w.

Definition resolveDeliveryAttemptLimit (message : Message) : error + Z :=
  match O_deliveryAttemptLimit opts with
  | None => inr (O_maxDeliveryAttempts opts)
  | Some resolver =>
      match resolver message with
      | Panic _ => inl ErrInvalidDeliveryAttemptLimit
      | Ret limit =>
          if (limit <? 1)%Z || (maxResolvedDeliveryAttempts <? limit)%Z
          then inl ErrInvalidDeliveryAttemptLimit
          else inr limit
      end
  end.

(** The settlement callbacks of one delivery share a [sync.Once] and its result. *)
Record settlement := mkSettlement {
  s_delivery : Delivery;
  s_limit : Z;
  s_once : option error
}.

Definition settle (action : Worker W -> error * Worker W) (s : settlement) (w : Worker W)
  : error * settlement * Worker W :=
  match s_once s with
  | Some settlementErr => (settlementErr, s, w)
  | None =>
      let '(err, w) := action w in (err, s <| s_once := Some err |>, w)
  end.

(** The acknowledgement of a delivery. *)
Definition ack_action (d : Delivery) (w : Worker W) : error * Worker W :=
  let '(err, w) := on_transport (T_Ack (mkAckRequest (O_stream opts) (O_group opts) (D_ID d))) w in
  if negb (is_nil err) then (err, count count_failed w) else (ErrNil, count count_acknowledged w).

(** The rejection of a delivery: recorded, and dead-lettered when it is terminal. *)
Definition fail_action (d : Delivery) (limit : Z) (handlerErr : error) (w : Worker W)
  : error * Worker W :=
  let '(err, w) :=
    match T_RecordFailure with
    | Some record =>
        on_transport (record (O_failureStream opts) (O_stream opts) (O_group opts) d
                        (failureMetadata handlerErr "handler_failed")) w
    | None => (ErrNil, w)
    end in
  if negb (is_nil err) then (err, w)
  else if negb (terminalFailure handlerErr (D_Attempts d) limit (O_canceledDeadLetterCodes opts))
  then (ErrNil, w)
  else
    let '(err, w) := deadLetter d (failureMetadata handlerErr "attempts_exhausted") w in
    if negb (is_nil err) then (err, count count_failed w) else (ErrNil, count count_deadLettered w).

Definition settle_ack (s : settlement) := settle (ack_action (s_delivery s)) s.
Definition settle_fail (handlerErr : error) (s : settlement) :=
  settle (fail_action (s_delivery s) (s_limit s) handlerErr) s.

(** [decode]: the message with its settlement callbacks. *)
Definition decode (d : Delivery) (w : Worker W) : (error + (Message * settlement)) * Worker W :=
  match DecodeE order unmarshal (D_Body d) DefaultMaxMessageBytes with
  | inl err =>
      let tooLarge := Is err "message exceeds byte limit" in
      let dead := if tooLarge then d <| D_Body := "" |> else d in
      let failure := mkFailureMetadata ClassificationMalformed
                       (if tooLarge then "message_too_large" else "malformed_delivery") in
      let '(deadLetterErr, w) := deadLetter dead failure w in
      if negb (is_nil deadLetterErr)
      then (inl (errors_Join [err; deadLetterErr]), count count_failed w)
      else (inl err, count count_deadLettered w)
  | inr message =>
      match resolveDeliveryAttemptLimit message with
      | inl err => (inl err, w)
      | inr limit => (inr (message, mkSettlement d limit None), w)
      end
  end.

(** * Requests *)

(** The ready case of the select in [Request]. *)
Inductive ready := Arrived | TimedOut | Canceled_.

(** [None] when the case is not ready. *)
Definition Request (r : ready) (w : Worker W) : option ((error + (Message * settlement)) * Worker W) :=
  match r with
  | Arrived =>
      match tasks w with
      | [] => if tasks_closed w then Some (inl ErrQueueHasBeenClosed, w) else None
      | d :: rest =>
          let w := count count_delivered (w <| @tasks W := rest |>) in
          let w := if D_Reclaimed d then count count_reclaimed w else w in
          Some (decode d w)
      end
  | TimedOut => Some (inl ErrNoTaskInQueue, w)
  | Canceled_ => if canceled w then Some (inl ErrQueueHasBeenClosed, w) else None
  end.

(** [Run]: the counter is taken back also when the handler panics. *)
Definition Run_begin (w : Worker W) : Worker W := w <| @currentJobs W := wrap_u32 (currentJobs w + 1) |>.
Definition Run_end (w : Worker W) : Worker W :=
  w <| @currentJobs W := wrap_u32 (currentJobs w + 4294967295) |>.

(** * Shutdown *)

(** [CompareAndSwap] and the cancellation. *)
Definition Shutdown_begin (w : Worker W) : option error * Worker W :=
  if stopped w then (Some ErrQueueShutdown, w)
  else (None, w <| @stopped W := true |> <| @canceled W := true |>).

(** The select on the loops' exit and the timer; the transport is closed either way. *)
Definition Shutdown_end (loops_done : bool) (w : Worker W) : error * Worker W :=
  let '(err, w) := on_transport T_Close w in
  if loops_done then (err, w)
  else (Wrap "valkeystream: shutdown" (Sentinel DeadlineExceeded), w).

(** * Statistics and status *)

Record Stats_ := mkStats_ {
  SS_Depth : Z; SS_Pending : Z; SS_Lag : Z; SS_LagKnown : bool; SS_OldestPendingAge : Z;
  SS_Metrics : workerMetrics
}.

(** [statusNow]. *)
Definition statusNow (now : Time) : Time := UTC now.

Definition Worker_Stats (now : Time) (w : Worker W) : (error + Stats_) * Worker W :=
  let '(r, w) := on_transport (T_GroupState (O_stream opts) (O_group opts)) w in
  match r with
  | inl err => (inl err, w)
  | inr state =>
      let shared := GroupState_Stats state in
      let stats age := mkStats_ (ST_Depth shared) (ST_Pending shared) (ST_Lag shared)
                         (LagKnown shared) age (metrics w) in
      if OldestPendingID state != "" then
        match MessageAge (OldestPendingID state) (statusNow now) with
        | inl err => (inl (Wrap "valkeystream: inspect oldest pending delivery" err), w)
        | inr age => (inr (stats age), w)
        end
      else (inr (stats 0%Z), w)
  end.

Definition ErrManagementStatusDisabled : error := Sentinel "valkeystream: management status disabled".

(** [ctx_err] is [ctx.Err()]. *)
Definition ObserveWorker (ctx_err : error) (now : Time) (w : Worker W) : error + WorkerStatus :=
  match O_management opts with
  | None => inl ErrManagementStatusDisabled
  | Some metadata =>
      if IsZero (startedAt w) then inl ErrManagementStatusDisabled
      else if negb (is_nil ctx_err) then inl ctx_err
      else
        let now := statusNow now in
        if Before now (startedAt w) then inl ErrInvalidManagementStatus
        else
          let capabilities :=
            [CapabilityWorkerStatus; CapabilityQueueStatus; CapabilityFailures;
             CapabilityDeadLetters; CapabilityRetry; CapabilityBulkRetry; CapabilityDelete;
             CapabilityPurge] ++
            (if bool_decide (O_replayDestinations opts = ∅) then [] else [CapabilityReplay]) ++
            (if (0 <? O_recordMaxLength opts)%Z then [CapabilityRetentionCount] else []) in
          inr (mkWorkerStatus (M_ID metadata) (M_Version metadata) (startedAt w) now
                 [O_stream opts] (M_Concurrency metadata)
                 (if stopped w then WorkerStopped else WorkerRunning) (currentJobs w)
                 DrainNotRequested BackendName (M_Protocol metadata) capabilities)
  end.

Definition supported {T} (v : T) : Measurement T := mkMeasurement v true.
Definition unsupported : Measurement Z := mkMeasurement 0%Z false.

(** The clock is read once more for the observation. *)
Definition ObserveQueue (ctx_err : error) (now observed : Time) (w : Worker W)
  : (error + QueueStatus) * Worker W :=
  match O_management opts with
  | None => (inl ErrManagementStatusDisabled, w)
  | Some _ =>
      if negb (is_nil ctx_err) then (inl ctx_err, w)
      else
        let '(r, w) := Worker_Stats now w in
        match r with
        | inl err => (inl err, w)
        | inr stats =>
            let m := SS_Metrics stats in
            (inr (mkQueueStatus BackendName (O_stream opts) (statusNow observed)
                    (mkMetrics
                       (if SS_LagKnown stats then supported (SS_Depth stats) else unsupported)
                       (if SS_LagKnown stats then supported (SS_Lag stats) else unsupported)
                       (supported (SS_Pending stats)) (supported (SS_OldestPendingAge stats))
                       (mkMeasurement zero64 false) unsupported (supported (acknowledged m))
                       unsupported (supported (retries m)) (supported (reclaimed m))
                       (supported (deadLettered m)) (supported (settlementFailures m)))), w)
        end
  end.

(** * The read and reclaim loops *)

(** What each loop has received and not yet handed over, and where it stands. *)
Record loops := mkLoops {
  reading : list Delivery;
  reader_done : bool;
  reclaiming : list Delivery;
  cursor : string;
  reclaimer_done : bool
}.

Definition start_loops : loops := mkLoops [] false [] "0-0" false.

Inductive loop_event :=
| ReadNext            (* one XREADGROUP round trip at the top of the read loop *)
| DeliverRead         (* the read loop's send on the channel *)
| CancelRead          (* the read loop observes the canceled context *)
| ReclaimTick         (* one ticker firing of the reclaim loop *)
| DeliverReclaimed
| CancelReclaim
| CloseTasks          (* both loops are done: the channel is closed *)
| Receive (r : ready) (* a caller of Request *)
| Stop.               (* the first half of Shutdown *)

Definition read_request : ReadRequest :=
  mkReadRequest (O_stream opts) (O_group opts) (O_consumer opts) (O_readBatchSize opts)
    (O_blockTime opts).
Definition claim_request (cursor : string) : ClaimRequest :=
  mkClaimRequest (O_stream opts) (O_group opts) (O_consumer opts) (O_reclaimMinIdle opts) cursor
    (O_reclaimBatchSize opts).

(** A send: blocked ([None]) while the buffer is full, a panic on a closed channel. *)
Definition send (d : Delivery) (w : Worker W) : option (go (Worker W)) :=
  if tasks_closed w then Some (Panic "send on closed channel")
  else if (Z.of_nat (length (tasks w)) <? O_readBatchSize opts * 2)%Z
  then Some (Ret (w <| @tasks W := tasks w ++ [d] |>))
  else None.

(** One event; [None] when it is not enabled. *)
Definition loop_step (e : loop_event) (c : Worker W * loops) : option (go (Worker W * loops)) :=
  let '(w, l) := c in
  match e with
  | ReadNext =>
      if reader_done l || negb (bool_decide (reading l = [])) || canceled w then None
      else
        let '(r, w) := on_transport (T_Read read_request) w in
        match r with
        | inl _ => Some (Ret (w, l))
        | inr deliveries => Some (Ret (w, l <| reading := deliveries |>))
        end
  | DeliverRead =>
      match reading l with
      | d :: rest =>
          if reader_done l then None
          else
            match send d w with
            | Some (Ret w) => Some (Ret (w, l <| reading := rest |>))
            | Some (Panic p) => Some (Panic p)
            | None => None
            end
      | [] => None
      end
  | CancelRead =>
      if canceled w && negb (reader_done l)
      then Some (Ret (w, l <| reading := ([] : list Delivery) |> <| reader_done := true |>)) else None
  | ReclaimTick =>
      if reclaimer_done l || negb (bool_decide (reclaiming l = [])) then None
      else
        let '(r, w) := on_transport (T_Claim (claim_request (cursor l))) w in
        match r with
        | inl _ => Some (Ret (w, l))
        | inr result =>
            let next := if (CL_Next result == "") || (CL_Next result == "0-0") then "0-0"
                        else CL_Next result in
            Some (Ret (w, l <| cursor := next |> <| reclaiming := CL_Deliveries result |>))
        end
  | DeliverReclaimed =>
      match reclaiming l with
      | d :: rest =>
          if reclaimer_done l then None
          else
            match send d w with
            | Some (Ret w) => Some (Ret (w, l <| reclaiming := rest |>))
            | Some (Panic p) => Some (Panic p)
            | None => None
            end
      | [] => None
      end
  | CancelReclaim =>
      if canceled w && negb (reclaimer_done l)
      then Some (Ret (w, l <| reclaiming := ([] : list Delivery) |> <| reclaimer_done := true |>)) else None
  | CloseTasks =>
      if reader_done l && reclaimer_done l then
        if tasks_closed w then None else Some (Ret (w <| @tasks_closed W := true |>, l))
      else None
  | Receive r =>
      match Request r w with Some (_, w) => Some (Ret (w, l)) | None => None end
  | Stop => Some (Ret ((Shutdown_begin w).2, l))
  end.

(** A run of events from a new worker. *)
Fixpoint loop_run (es : list loop_event) (c : Worker W * loops) : option (go (Worker W * loops)) :=
  match es with
  | [] => Some (Ret c)
  | e :: es =>
      match loop_step e c with
      | Some (Ret c) => loop_run es c
      | r => r
      end
  end.
End worker.

(** * The publisher *)

Record Publisher (W : Type) := mkPublisher { P_transport : W; P_stopped : bool }.
Arguments mkPublisher {W} _ _.
Arguments P_transport {W} _.
Arguments P_stopped {W} _.

Section publisher.
Context {W : Type} `{!Transport W} (opts : options).
Context (order : list (string * string) -> list (string * string)).
(** [Message.Bytes], the JSON encoding. *)
Context (bytes : Message -> string).

Definition Publisher_Queue (message : option string) (options : list AllowOption) (p : Publisher W)
  : error * Publisher W :=
  if P_stopped p then (ErrQueueShutdown, p)
  else
    match message with
    | None => (Leaf "valkeystream: queued message is required", p)
    | Some payload =>
        let queued := NewMessage order payload options in
        let err := Message_Validate order queued in
        if negb (is_nil err) then (err, p)
        else
          let '(r, t) := T_Add (mkAddRequest (O_stream opts) (O_maxLength opts) (bytes queued))
                           (P_transport p) in
          (match r with inl err => err | inr _ => ErrNil end, mkPublisher t (P_stopped p))
    end.

Definition Publisher_Shutdown (p : Publisher W) : error * Publisher W :=
  if P_stopped p then (ErrQueueShutdown, p)
  else let '(err, t) := T_Close (P_transport p) in (err, mkPublisher t true).
End publisher.

(** * The native transport is a transport *)

Definition native_Close {W} (close : io W ()) : io W error := _ ← close; mret ErrNil.

Definition nativeTransport_Transport {W} `{!commandClient W} (busy nil : error -> bool)
    (close : io W ()) (t : nativeTransport) : Transport W := {|
  T_EnsureGroup := EnsureGroup busy;
  T_Add := Add t;
  T_Read := Read nil;
  T_Claim := Claim;
  T_Ack := Ack;
  T_DeadLetter := DeadLetter t;
  T_GroupState := GroupState_;
  T_Close := native_Close close;
  T_RecordFailure := Some (RecordFailure t)
|}.

(** * Construction *)

Section construction.
Context {W : Type} `{!commandClient W}.
(** The client library: a new client, its [PING], its [Close], and its test for the
    error of an existing group. *)
Context (newValkeyClient : options -> error + W) (ping : io W error) (close : io W ()).
Context (busy : error -> bool).

(** Closes the client after a failed start. *)
Definition abandon {A} (err : error) (w : W) : (error + A) * option W :=
  (inl err, Some (native_Close close w).2).

(** [NewWorkerE]: the options, the transport and the worker, and the client if one
    was made. *)
Definition NewWorkerE (consumer : string) (args : list (option Option_)) (now : Time)
  : (error + (options * nativeTransport * Worker W)) * option W :=
  match newOptions consumer args with
  | inl err => (inl err, None)
  | inr opts =>
      match newValkeyClient opts with
      | inl err => (inl (safe_Wrap "valkeystream: initialize native client" err), None)
      | inr w =>
          let t := newNativeTransportForClient (O_maxLength opts) DefaultMaxMessageBytes in
          let t := t <| recordMaxLength := O_recordMaxLength opts |> in
          let '(err, w) := ping w in
          if negb (is_nil err) then abandon (safe_Wrap "valkeystream: connect to server" err) w
          else
            let '(err, w) := EnsureGroup busy (O_stream opts) (O_group opts) w in
            if negb (is_nil err) then abandon err w
            else (inr (opts, t, newWorkerForTransport w now), Some w)
      end
  end.

Definition NewPublisherE (consumer : string) (args : list (option Option_))
  : (error + (options * nativeTransport * Publisher W)) * option W :=
  match newOptions consumer args with
  | inl err => (inl err, None)
  | inr opts =>
      match newValkeyClient opts with
      | inl err => (inl (safe_Wrap "valkeystream: initialize native client" err), None)
      | inr w =>
          let t := newNativeTransportForClient (O_maxLength opts) DefaultMaxMessageBytes in
          let '(err, w) := ping w in
          if negb (is_nil err) then abandon (safe_Wrap "valkeystream: connect to server" err) w
          else (inr (opts, t, mkPublisher w false), Some w)
      end
  end.
End construction.
