(* ===== verification/ValkeyWorkerSafety.v ===== *)
(** What the Valkey worker guarantees over any transport that keeps the promises of the
    interface: settlement happens once, a failed delivery is recorded, retained or
    dead-lettered by its classification and never lost, and the read and reclaim loops
    stay within their buffer and close cleanly. The native transport is shown to keep
    those promises. *)

From S2P Require Import Prelude GoStd Sentinels Contract Control Failure Job Status Protocol Codec.
From S2P Require Import Records Stream Server Scripts ScriptSafety Valkey ValkeySafety ValkeyOptions.
From S2P Require Import ValkeyWorker.

(** * What a transport promises

    Relations between the state of the transport before and after an operation: a
    stream is untouched, and a dead letter of a request is stored. *)
Class DurableTransport (W : Type) `{!Transport W} := {
  untouched : string -> W -> W -> Prop;
  dead_stored : DeadLetterRequest -> W -> W -> Prop;
  (** Delivery identifiers of the broker. *)
  broker_id : string -> Prop;
  untouched_preorder k :: PreOrder (untouched k);
  (** Storing a dead letter survives earlier operations that left its stream alone. *)
  dead_stored_after r w1 w2 w3 :
    untouched (L_Destination r) w1 w2 -> dead_stored r w2 w3 -> dead_stored r w1 w3;
  DeadLetter_law r w err w' :
    broker_id (D_ID (L_Delivery r)) -> T_DeadLetter r w = (err, w') ->
    (untouched (L_Source r) w w' \/ dead_stored r w w') /\ (err = ErrNil -> dead_stored r w w');
  RecordFailure_law f destination source group d m w err w' k :
    T_RecordFailure = Some f -> k <> destination ->
    f destination source group d m w = (err, w') -> untouched k w w'
}.

Section settlement.
Context {W : Type} `{!Transport W} (opts : options).
Implicit Types w : Worker W.

(** * Settlement happens once *)

(** A call of one of the two callbacks. *)
Definition settle_call (c : option error) (s : settlement) (w : Worker W)
  : error * settlement * Worker W :=
  match c with None => settle_ack opts s w | Some e => settle_fail opts e s w end.

Fixpoint settle_calls (cs : list (option error)) (s : settlement) (w : Worker W)
  : list error * Worker W :=
  match cs with
  | [] => ([], w)
  | c :: cs =>
      let '(e, s, w) := settle_call c s w in
      let '(es, w) := settle_calls cs s w in (e :: es, w)
  end.

Lemma settle_calls_done cs s e w :
  s_once s = Some e -> settle_calls cs s w = (replicate (length cs) e, w).
Proof.
  intros Hs. induction cs as [|c cs IH]; [done|]. simpl.
  assert (settle_call c s w = (e, s, w)) as ->.
  { destruct c; simpl; unfold settle_ack, settle_fail, settle; by rewrite Hs. }
  by rewrite IH.
Qed.

(** A delivery is settled at most once: of any sequence of acknowledgements and
    rejections of one delivery, the first acts and decides the result of all of them. *)
Theorem settlement_once c cs d limit w :
  let first := settle_call c (mkSettlement d limit None) w in
  settle_calls (c :: cs) (mkSettlement d limit None) w =
  (replicate (S (length cs)) first.1.1, first.2).
Proof.
  simpl. destruct (settle_call c _ w) as [[e s] w1] eqn:E. simpl.
  assert (s_once s = Some e) as Hs.
  { destruct c as [e0|]; simpl in E; unfold settle_ack, settle_fail, settle in E; simpl in E.
    - destruct (fail_action opts d limit e0 w). by injection E as <- <- <-.
    - destruct (ack_action opts d w). by injection E as <- <- <-. }
  by rewrite (settle_calls_done cs s e w1 Hs).
Qed.
End settlement.

(** * Rejection *)

(** When a handler's failure is terminal. *)
Definition terminal (handlerErr : error) (attempts limit : Z) (codes : gset string) : Prop :=
  let r := ResolveFailure handlerErr in
  Classification r = ClassificationPermanent \/ Classification r = ClassificationMalformed \/
  (limit <= attempts)%Z /\
  (Classification r = ClassificationRetryable \/
   Classification r = ClassificationCanceled /\ Code r ∈ codes).

Lemma terminalFailure_iff e attempts limit codes :
  terminalFailure e attempts limit codes = true <-> terminal e attempts limit codes.
Proof.
  unfold terminalFailure, terminal. generalize (ResolveFailure e) as r. intros [class code]. simpl.
  destruct (String.eqb_spec class ClassificationPermanent) as [->|H1]; simpl; [tauto|].
  destruct (String.eqb_spec class ClassificationMalformed) as [->|H2]; simpl; [tauto|].
  destruct (String.eqb_spec class ClassificationRetryable) as [->|H3]; simpl.
  { rewrite Z.leb_le. split; [auto|]. intros [?|[?|[? _]]]; done. }
  destruct (String.eqb_spec class ClassificationCanceled) as [->|H4]; simpl.
  { rewrite andb_true_iff, bool_decide_eq_true, Z.leb_le. split; [naive_solver|].
    intros [?|[?|[? [?|[_ ?]]]]]; done. }
  naive_solver.
Qed.

Section rejection.
Context {W : Type} `{!Transport W, !DurableTransport W} (opts : options).
Hypothesis Hopts : options_ok opts.
Implicit Types w : Worker W.

Lemma streams_distinct :
  O_stream opts <> O_failureStream opts /\ O_stream opts <> O_deadLetterStream opts /\
  O_failureStream opts <> O_deadLetterStream opts.
Proof.
  destruct (oo_streams _ Hopts) as (_ & _ & H). rewrite !NoDup_cons, !not_elem_of_cons in H. naive_solver.
Qed.

(** The request a terminal failure makes. *)
Definition dead_request (d : Delivery) (e : error) : DeadLetterRequest :=
  mkDeadLetterRequest (O_stream opts) (O_deadLetterStream opts) (O_group opts) d
    (failureMetadata e "attempts_exhausted").

Lemma on_transport_inv {A} (m : io W A) w a w' :
  on_transport m w = (a, w') -> m (transport w) = (a, transport w').
Proof. unfold on_transport. destruct w; simpl. destruct (m _) as [a1 t]. by intros [= <- <-]. Qed.

Lemma transport_count f w : transport (count f w) = transport w.
Proof. by destruct w. Qed.

(** C4: Rejecting a delivery never loses it. A failure that is not terminal, which an
    infrastructure failure, an unlisted cancellation and a retryable failure below the
    attempt limit are, leaves the source stream as it was, so that the broker offers
    the delivery again; a terminal one leaves it as it was unless its dead letter is
    stored, and reports success only when the dead letter is stored. *)
Theorem rejection_keeps_work d limit e w err w' :
  broker_id (D_ID d) -> fail_action opts d limit e w = (err, w') ->
  let t := transport w in let t' := transport w' in
  (untouched (O_stream opts) t t' \/
   terminal e (D_Attempts d) limit (O_canceledDeadLetterCodes opts) /\
   dead_stored (dead_request d e) t t') /\
  (err = ErrNil -> terminal e (D_Attempts d) limit (O_canceledDeadLetterCodes opts) ->
   dead_stored (dead_request d e) t t').
Proof.
  intros Hid. destruct streams_distinct as (Hsf & Hsd & Hfd). unfold fail_action.
  destruct (match T_RecordFailure with Some _ => _ | None => _ end) as [err1 w1] eqn:Hrec.
  assert (forall k, k <> O_failureStream opts -> untouched k (transport w) (transport w1)) as Hun.
  { intros k Hk. destruct T_RecordFailure as [f|] eqn:Hf; [|injection Hrec as <- <-; reflexivity].
    apply on_transport_inv in Hrec. by eapply RecordFailure_law. }
  destruct (is_nil err1) eqn:En; simpl.
  2: { intros [= <- <-]. split; [left; auto|]. intros ->. done. }
  destruct (terminalFailure _ _ _ _) eqn:Ht; simpl.
  2: { intros [= <- <-]. split; [left; auto|]. intros _ H%terminalFailure_iff. by rewrite H in Ht. }
  apply terminalFailure_iff in Ht.
  destruct (deadLetter opts d _ w1) as [err2 w2] eqn:Hdl. unfold deadLetter in Hdl.
  apply on_transport_inv, DeadLetter_law in Hdl as [Hst Hok]; [|done]. simpl in Hst.
  assert (forall w3, transport w3 = transport w2 ->
    untouched (O_stream opts) (transport w) (transport w3) \/
    terminal e (D_Attempts d) limit (O_canceledDeadLetterCodes opts) /\
    dead_stored (dead_request d e) (transport w) (transport w3)) as Hleft.
  { intros w3 ->. destruct Hst as [Hst|Hst].
    - left. transitivity (transport w1); auto.
    - right. split; [done|]. apply dead_stored_after with (transport w1); [apply Hun; simpl; auto|done]. }
  destruct (is_nil err2) eqn:En2; simpl; intros [= <- <-]; (split; [apply Hleft, transport_count|]).
  - intros _ _. rewrite transport_count. apply dead_stored_after with (transport w1).
    + apply Hun. simpl. auto.
    + apply Hok. by destruct err2.
  - intros ->. done.
Qed.
End rejection.

(** * Decoding *)

Section decoding.
Context {W : Type} `{!Transport W, !DurableTransport W} (opts : options).
Context (order : list (string * string) -> list (string * string)).
Context (unmarshal : string -> error + Message).
Hypothesis Hopts : options_ok opts.
Implicit Types w : Worker W.

(** The dead letter of an undecodable delivery: an oversized body is not copied. *)
Definition malformed_request (d : Delivery) (err : error) : DeadLetterRequest :=
  let tooLarge := Is err "message exceeds byte limit" in
  mkDeadLetterRequest (O_stream opts) (O_deadLetterStream opts) (O_group opts)
    (if tooLarge then d <| D_Body := "" |> else d)
    (mkFailureMetadata ClassificationMalformed
       (if tooLarge then "message_too_large" else "malformed_delivery")).

Lemma resolve_limit message limit :
  resolveDeliveryAttemptLimit opts message = inr limit -> (1 <= limit)%Z.
Proof.
  unfold resolveDeliveryAttemptLimit. destruct (O_deliveryAttemptLimit opts) as [resolver|].
  - destruct (resolver message); [|done]. case_test; [done|]. intros [= <-]. lia.
  - intros [= <-]. apply (oo_attempts _ Hopts).
Qed.

(** What becomes of a received delivery. A decoded message comes with an unused
    settlement for exactly that delivery and a positive attempt limit, and nothing at
    the broker changes; an undecodable delivery is never handed to a handler: its source
    stays untouched unless its dead letter, without an oversized body, is stored; a
    resolver that panics or answers outside its range leaves the delivery pending. *)
Theorem decode_keeps_work d w r w' :
  broker_id (D_ID d) -> decode opts order unmarshal d w = (r, w') ->
  match r with
  | inr (message, s) =>
      transport w' = transport w /\ DecodeE order unmarshal (D_Body d) DefaultMaxMessageBytes = inr message /\
      s_delivery s = d /\ s_once s = None /\ (1 <= s_limit s)%Z
  | inl _ =>
      match DecodeE order unmarshal (D_Body d) DefaultMaxMessageBytes with
      | inl err => untouched (O_stream opts) (transport w) (transport w') \/
                   dead_stored (malformed_request d err) (transport w) (transport w')
      | inr _ => transport w' = transport w
      end
  end.
Proof.
  intros Hid. unfold decode.
  destruct (DecodeE order unmarshal (D_Body d) DefaultMaxMessageBytes) as [err|message] eqn:Hd.
  - destruct (deadLetter _ _ _ w) as [err2 w2] eqn:Hdl. unfold deadLetter in Hdl.
    apply on_transport_inv, DeadLetter_law in Hdl as [Hst _].
    + intros H. assert (transport w' = transport w2 /\ exists e, r = inl e) as [-> [e ->]].
      { destruct (is_nil err2); simpl in H; injection H as <- <-; rewrite transport_count; eauto. }
      exact Hst.
    + simpl. by destruct (Is err _), d.
  - destruct (resolveDeliveryAttemptLimit opts message) as [err|limit] eqn:Hl; intros [= <- <-]; [done|].
    split_and!; try done. by eapply resolve_limit.
Qed.
End decoding.

(** * The loops *)

Section loops.
Context {W : Type} `{!Transport W} (opts : options).
Context (order : list (string * string) -> list (string * string)).
Context (unmarshal : string -> error + Message).
Implicit Types w : Worker W.

(** The buffer is within its capacity, and the channel is closed only after both loops
    are done, which they are only once the context is canceled. *)
Record loops_ok (c : Worker W * loops) : Prop := {
  lo_buffer : (Z.of_nat (length (tasks c.1)) <= O_readBatchSize opts * 2)%Z;
  lo_closed : tasks_closed c.1 = true -> reader_done c.2 = true /\ reclaimer_done c.2 = true;
  lo_done : reader_done c.2 = true \/ reclaimer_done c.2 = true -> canceled c.1 = true;
  lo_stopped : stopped c.1 = true -> canceled c.1 = true
}.

Lemma on_transport_fields {A} (m : io W A) w :
  let w' := (on_transport m w).2 in
  tasks w' = tasks w /\ tasks_closed w' = tasks_closed w /\ canceled w' = canceled w /\
  stopped w' = stopped w.
Proof. unfold on_transport. destruct w. simpl. by destruct (m _). Qed.

Lemma count_fields f w :
  tasks (count f w) = tasks w /\ tasks_closed (count f w) = tasks_closed w /\
  canceled (count f w) = canceled w /\ stopped (count f w) = stopped w.
Proof. by destruct w. Qed.

Lemma decode_fields d w :
  let w' := (decode opts order unmarshal d w).2 in
  tasks w' = tasks w /\ tasks_closed w' = tasks_closed w /\ canceled w' = canceled w /\
  stopped w' = stopped w.
Proof.
  unfold decode. destruct (DecodeE _ _ _ _) as [err|m].
  - unfold deadLetter. match goal with |- context [on_transport ?m w] =>
      pose proof (on_transport_fields m w) as H; destruct (on_transport m w) as [e w1] end.
    cbn [snd] in H. destruct (is_nil e); cbn [negb snd];
      match goal with |- context [count ?f w1] =>
        destruct (count_fields f w1) as (-> & -> & -> & ->) end; exact H.
  - by destruct (resolveDeliveryAttemptLimit opts m).
Qed.

Lemma send_ok d w r :
  tasks_closed w = false -> send opts d w = Some r ->
  exists w', r = Ret w' /\ (Z.of_nat (length (tasks w')) <= O_readBatchSize opts * 2)%Z /\
    tasks_closed w' = tasks_closed w /\ canceled w' = canceled w /\ stopped w' = stopped w.
Proof.
  intros Hcl. unfold send. rewrite Hcl. case_test; [|done]. intros [= <-].
  eexists. split; [done|]. destruct w. simpl in *. rewrite length_app. simpl. split; [lia|done].
Qed.

Lemma request_fields r w a w' :
  Request opts order unmarshal r w = Some (a, w') ->
  (length (tasks w') <= length (tasks w))%nat /\ tasks_closed w' = tasks_closed w /\
  canceled w' = canceled w /\ stopped w' = stopped w.
Proof.
  unfold Request. destruct r.
  - destruct (tasks w) as [|d rest] eqn:Et.
    { destruct (tasks_closed w) eqn:Ec; [|done]. intros [= <- <-]. rewrite Et, Ec. by split. }
    set (w1 := if D_Reclaimed d then _ else _). intros [= H].
    pose proof (decode_fields d w1) as Hd. rewrite H in Hd. simpl in Hd.
    assert (tasks w1 = rest /\ tasks_closed w1 = tasks_closed w /\ canceled w1 = canceled w /\
      stopped w1 = stopped w) as Hw1.
    { unfold w1. destruct w. by destruct (D_Reclaimed d). }
    destruct Hd as (-> & -> & -> & ->), Hw1 as (-> & -> & -> & ->). simpl. split; [lia|done].
  - intros [= <- <-]. by split.
  - destruct (canceled w) eqn:Ec; [|done]. intros [= <- <-]. rewrite Ec. by split.
Qed.

Lemma loop_step_ok e c r :
  loops_ok c -> loop_step opts order unmarshal e c = Some r -> exists c', r = Ret c' /\ loops_ok c'.
Proof.
  destruct c as [w l]. intros [Hb Hc Hd Hs]. simpl in *. destruct e; simpl.
  - destruct (_ || _) eqn:E; [done|].
    pose proof (on_transport_fields (T_Read (read_request opts)) w) as (H1 & H2 & H3 & H4).
    destruct (on_transport _ w) as [[er|ds] w1]; simpl in *; intros [= <-]; eexists; (split; [done|]);
      destruct l; split; simpl in *; rewrite ?H1, ?H2, ?H3, ?H4; auto.
  - destruct (reading l) as [|d rest] eqn:Er; [done|]. destruct (reader_done l) eqn:Erd; [done|].
    assert (tasks_closed w = false) as Hcl.
    { destruct (tasks_closed w); [|done]. by destruct (Hc eq_refl). }
    destruct (send opts d w) as [s|] eqn:Es; [|done].
    destruct (send_ok _ _ _ Hcl Es) as (w1 & -> & H1 & H2 & H3 & H4). intros [= <-].
    eexists; split; [done|]. destruct l; split; simpl in *; [done|by rewrite H2, Hcl|rewrite H3; naive_solver|by rewrite H3, H4].
  - destruct (canceled w) eqn:Ecan, (reader_done l) eqn:Erd; try done. intros [= <-].
    eexists; split; [done|]. destruct l; split; simpl in *; try done. intros H. by apply Hc in H as [? _].
  - destruct (_ || _) eqn:E; [done|].
    pose proof (on_transport_fields (T_Claim (claim_request opts (cursor l))) w) as (H1 & H2 & H3 & H4).
    destruct (on_transport _ w) as [[er|ds] w1]; simpl in *; intros [= <-]; eexists; (split; [done|]);
      destruct l; split; simpl in *; rewrite ?H1, ?H2, ?H3, ?H4; auto.
  - destruct (reclaiming l) as [|d rest] eqn:Er; [done|]. destruct (reclaimer_done l) eqn:Erd; [done|].
    assert (tasks_closed w = false) as Hcl.
    { destruct (tasks_closed w); [|done]. by destruct (Hc eq_refl). }
    destruct (send opts d w) as [s|] eqn:Es; [|done].
    destruct (send_ok _ _ _ Hcl Es) as (w1 & -> & H1 & H2 & H3 & H4). intros [= <-].
    eexists; split; [done|]. destruct l; split; simpl in *; [done|by rewrite H2, Hcl|rewrite H3; naive_solver|by rewrite H3, H4].
  - destruct (canceled w) eqn:Ecan, (reclaimer_done l) eqn:Erd; try done. intros [= <-].
    eexists; split; [done|]. destruct l; split; simpl in *; try done. intros H. by apply Hc in H as [_ ?].
  - destruct (reader_done l) eqn:E1, (reclaimer_done l) eqn:E2; try done. simpl.
    destruct (tasks_closed w) eqn:Ec; [done|]. intros [= <-]. eexists; split; [done|].
    destruct w; split; simpl in *; auto.
  - destruct (Request opts order unmarshal r0 w) as [[a w1]|] eqn:Er; [|done].
    destruct (request_fields _ _ _ _ Er) as (H1 & H2 & H3 & H4). intros [= <-]. eexists; split; [done|].
    split; simpl; rewrite ?H2, ?H3, ?H4; auto. lia.
  - intros [= <-]. eexists; split; [done|]. unfold Shutdown_begin.
    destruct w; simpl in *. destruct stopped; split; simpl; auto.
Qed.

Hypothesis Hopts : options_ok opts.

Lemma loop_run_ok es c r :
  loops_ok c -> loop_run opts order unmarshal es c = Some r -> exists c', r = Ret c' /\ loops_ok c'.
Proof.
  revert c. induction es as [|e es IH]; intros c Hc; simpl; [intros [= <-]; eauto|].
  destruct (loop_step _ _ _ e c) as [r1|] eqn:E; [|done].
  destruct (loop_step_ok _ _ _ Hc E) as (c1 & -> & Hc1). by apply IH.
Qed.

Lemma start_ok t now : loops_ok (newWorkerForTransport t now, start_loops).
Proof. split; simpl; [|done|naive_solver|done]. destruct (oo_limits _ Hopts) as (_ & _ & ?). lia. Qed.

(** Once the context is canceled both loops can exit and the channel closes. *)
Lemma canceled_closes w l :
  canceled w = true -> exists es' c', (length es' <= 3)%nat /\
    Forall (fun e => e = CancelRead \/ e = CancelReclaim \/ e = CloseTasks) es' /\
    loop_run opts order unmarshal es' (w, l) = Some (Ret c') /\ tasks_closed c'.1 = true.
Proof.
  destruct w as [tr ts closed can st m cj sa]. simpl. intros ->. destruct closed.
  { exists [], (mkWorker tr ts true true st m cj sa, l). split_and!; [simpl; lia|constructor|done|done]. }
  exists ((if reader_done l then [] else [CancelRead]) ++
          (if reclaimer_done l then [] else [CancelReclaim]) ++ [CloseTasks]).
  destruct l as [rd [] rc cu []]; simpl; eexists; 
    (split_and!; [lia|by repeat (apply Forall_cons_2; [auto|])|done|done]).
Qed.

Lemma shutdown_cancels w : (stopped w = true -> canceled w = true) -> canceled (Shutdown_begin w).2 = true.
Proof. unfold Shutdown_begin. destruct w as [? ? ? ? [] ? ? ?]; simpl; auto. Qed.

(** C29: The read and reclaim loops never send on a closed channel and never exceed the
    channel's buffer, in any interleaving with each other, with callers of Request and
    with Shutdown; and from every reachable state a shutdown lets the loops exit and the
    channel close within three further steps of theirs. *)
Theorem loops_safe t now es r :
  loop_run opts order unmarshal es (newWorkerForTransport t now, start_loops) = Some r ->
  exists c, r = Ret c /\ (Z.of_nat (length (tasks c.1)) <= O_readBatchSize opts * 2)%Z /\
    exists es' c', (length es' <= 3)%nat /\
      Forall (fun e => e = CancelRead \/ e = CancelReclaim \/ e = CloseTasks) es' /\
      loop_run opts order unmarshal (Stop :: es') c = Some (Ret c') /\ tasks_closed c'.1 = true.
Proof.
  intros Hr. destruct (loop_run_ok _ _ _ (start_ok t now) Hr) as (c & -> & Hc).
  exists c. split; [done|]. split; [apply Hc|]. destruct c as [w l].
  destruct (canceled_closes (Shutdown_begin w).2 l) as (es' & c' & H1 & H2 & H3 & H4).
  - apply shutdown_cancels. apply (lo_stopped _ Hc).
  - by exists es', c'.
Qed.
End loops.

(** * The native transport keeps the promises of the interface *)

Section native.
Context {W St num : Type} `{!commandClient W, !Server St, !LuaNumber num}.
Context `{!Connection W St num, !ServerLaws St, !LuaLaws num}.
Context (busy nil : error -> bool) (close : io W ()) (t : nativeTransport).
Hypothesis Ht : (0 <= Valkey.recordMaxLength t)%Z.

#[local] Instance native : Transport W := nativeTransport_Transport busy nil close t.

Lemma recorded_untouched k destination (w w' : W) fields :
  k <> destination -> server_of w' = server_of w \/ recorded (server_of w) (server_of w') destination fields ->
  same_key k (server_of w) (server_of w').
Proof. intros Hk [->|[H _]]; [reflexivity|by apply H]. Qed.

#[refine] Instance native_durable : DurableTransport W := {|
  untouched k w w' := same_key k (server_of w) (server_of w');
  dead_stored r w w' := dead_letter_stored r (server_of w) (server_of w');
  broker_id := full_id
|}.
Proof.
  - intros k. split; [intros w; reflexivity|]. intros w1 w2 w3 ??. by transitivity (server_of w2).
  - intros r w1 w2 w3 [He _ _ _ _] (id & Hf & Hin). exists id. by rewrite <- He.
  - intros r w err w' Hid Hrun. apply DeadLetter_exact in Hrun as [H1 H2]; [|done..].
    split; [done|]. intros He. by apply H2.
  - intros f destination source group d m w err w' k [= <-] Hk Hrun.
    apply appendRecord_exact in Hrun as [_ H]; [|done]. by eapply recorded_untouched.
Defined.

(** * A malformed pending entry

    An entry the server returns without a body. *)
Definition bodiless (e : reply) : Prop :=
  exists id values fields, e = RArray [RString id; RArray values] /\ id <> "" /\
    alternatingFields (RArray values) = Some fields /\ fields !! "body" = None.

Lemma bodiless_entry before e after :
  bodiless e -> exists err, parseClaimEntries (before ++ e :: after) = inl err.
Proof.
  intros (id & values & fields & -> & Hid & Hf & Hb). induction before as [|x before [err IH]].
  - apply String.eqb_neq in Hid. cbn [app parseClaimEntries]. rewrite Hid, Hf, Hb. eauto.
  - cbn [app parseClaimEntries]. rewrite IH. repeat (case_match; eauto).
Qed.

(** While a scan contains one entry without a body, the reclaim loop delivers none of
    the scanned entries and keeps its cursor, so the next scan starts at the same
    place. *)
Lemma bodiless_blocks_reclaim opts order unmarshal (w : Worker W) l next before e after :
  let request := claim_request opts (cursor l) in
  ClaimRequest_Validate request = ErrNil -> bodiless e ->
  reclaiming l = [] -> reclaimer_done l = false ->
  ToAny (Do (Xautoclaim (CR_Stream request) (CR_Group request) (CR_Consumer request)
          (FormatInt (Z.quot (CR_MinIdle request) Millisecond)) (CR_Start request)
          (CR_Count request)) (transport w)).1 =
    inr (RArray [RString next; RArray (before ++ e :: after)]) ->
  exists w', loop_step opts order unmarshal ReclaimTick (w, l) = Some (Ret (w', l)) /\ tasks w' = tasks w.
Proof.
  intros request Hv He Hr Hd Hto. destruct (bodiless_entry before e after He) as [err Herr].
  assert (exists er, (Claim request (transport w)).1 = inl er) as [er Hclaim].
  { unfold Claim. rewrite Hv. cbn [is_nil negb]. unfold mbind, io_bind.
    destruct (Do _ (transport w)) as [res t1]. simpl in Hto. rewrite Hto.
    unfold parseClaimResponse. rewrite Herr. destruct (next == ""); eauto. }
  simpl. rewrite Hd, Hr. simpl. pose proof (on_transport_fields (Claim request) w) as (H1 & _).
  subst request.
  unfold on_transport in *. destruct (Claim _ (transport w)) as [r t1].
  simpl in *. subst r.
  eexists. split; [reflexivity|exact H1].
Qed.
End native.

(** * Witnesses *)

Definition sample_options : options :=
  (default_options "c") <| O_address := "localhost:6379" |> <| O_stream := "q" |>
    <| O_group := "g" |> <| O_failureStream := "failed" |> <| O_deadLetterStream := "dead" |>.

Lemma sample_options_ok : options_ok sample_options.
Proof. apply options_validate_iff. vm_compute. reflexivity. Qed.

(** The native transport over a network that loses the third answer. *)
#[local] Instance sample_native : Transport Lossy.world :=
  nativeTransport_Transport (fun _ => false) (fun _ => false) (mret ()) sample_transport.

#[local] Instance sample_durable : DurableTransport Lossy.world :=
  native_durable (num := Z) (fun _ => false) (fun _ => false) (mret ()) sample_transport ltac:(done).

Definition sample_worker : Worker Lossy.world :=
  newWorkerForTransport
    (Lossy.mkWorld Sample.state [Lossy.Delivered; Lossy.Delivered; Lossy.Unanswered "timeout"]) zeroTime.

Definition sample_error : error := FailureErr "permanent" "bad_input" (Leaf "bad").

Lemma rejection_keeps_work_witness :
  let w' := (fail_action sample_options sample_delivery 5 sample_error sample_worker).2 in
  untouched "q" (transport sample_worker) (transport w') \/
  terminal sample_error 3 5 ∅ /\
  dead_stored (dead_request sample_options sample_delivery sample_error)
    (transport sample_worker) (transport w').
Proof.
  exact (proj1 (rejection_keeps_work sample_options sample_options_ok sample_delivery 5 sample_error
    sample_worker _ _ (Sample.id_full 5 0) (surjective_pairing _))).
Defined.

Lemma decode_keeps_work_witness :
  let w' := (decode sample_options (fun l => l) (fun _ => inl ErrInvalidMessage) sample_delivery
               sample_worker).2 in
  untouched "q" (transport sample_worker) (transport w') \/
  dead_stored (malformed_request sample_options sample_delivery (Wrap "decode message" ErrInvalidMessage))
    (transport sample_worker) (transport w').
Proof.
  exact (decode_keeps_work sample_options (fun l => l) (fun _ => inl ErrInvalidMessage) sample_options_ok
    sample_delivery sample_worker (inl _) _ (Sample.id_full 5 0) ltac:(vm_compute; reflexivity)).
Defined.

Lemma loops_safe_witness :
  exists c, loop_run sample_options (fun l => l) (fun _ => inl ErrInvalidMessage)
      [ReadNext; ReclaimTick; Receive TimedOut] (sample_worker, start_loops) = Some (Ret c) /\
    (Z.of_nat (length (tasks c.1)) <= 32)%Z.
Proof.
  destruct (loop_run sample_options (fun l => l) (fun _ => inl ErrInvalidMessage)
      [ReadNext; ReclaimTick; Receive TimedOut] (sample_worker, start_loops)) as [r|] eqn:E;
    [|vm_compute in E; discriminate E].
  destruct (loops_safe sample_options (fun l => l) (fun _ => inl ErrInvalidMessage) sample_options_ok
    (transport sample_worker) zeroTime [ReadNext; ReclaimTick; Receive TimedOut] r E)
    as (c & -> & Hb & _).
  exists c. split; [reflexivity|exact Hb].
Defined.

(** * Construction *)

Section construction.
Context {W : Type} `{!commandClient W}.
Context (newValkeyClient : options -> error + W) (ping : io W error) (close : io W ()).
Context (busy : error -> bool).

(** A failed start closes the client it made; a successful one has validated options,
    an untouched worker over that client and a transport with the configured limits. *)
Lemma NewWorkerE_exact consumer args now r client :
  NewWorkerE newValkeyClient ping close busy consumer args now = (r, client) ->
  match r with
  | inl _ => client = None \/ exists w, client = Some (native_Close close w).2
  | inr (opts, t, w) =>
      options_ok opts /\ newOptions consumer args = inr opts /\ client = Some (transport w) /\
      w = newWorkerForTransport (transport w) now /\
      maxLength t = O_maxLength opts /\ recordMaxLength t = O_recordMaxLength opts
  end.
Proof.
  unfold NewWorkerE, abandon. destruct (newOptions consumer args) as [|opts] eqn:Ho; intros H.
  { injection H as <- <-. by left. }
  destruct (newValkeyClient opts) as [|w0]; [injection H as <- <-; by left|].
  destruct (ping w0) as [e w1]. destruct (negb (is_nil e)); [injection H as <- <-; right; by exists w1|].
  destruct (EnsureGroup busy _ _ w1) as [e2 w2].
  destruct (negb (is_nil e2)); [injection H as <- <-; right; by exists w2|].
  injection H as <- <-. split_and!; try done. by eapply newOptions_ok.
Qed.
End construction.
