(* ===== verification/ValkeyRecords.v ===== *)
(** Management record listing and inspection of the Valkey worker
    (valkeystream/records.go): conversion of stored records, search, order, cursors and
    pages. *)

From S2P Require Import Prelude GoStd Sentinels Contract Control Failure Job Status Codec Records Stream.
From S2P Require Import Server Scripts Valkey ValkeyOptions ValkeyWorker.

Definition ErrManagementRecordsDisabled : error :=
  Wrap "valkeystream: management records disabled" ErrUnsupportedCapability.
Definition ErrManagementRecordNotFound : error :=
  Wrap "valkeystream: management record not found" ErrRecordNotFound.

Definition valkeyRecordSearchFactor : Z := 4.

(** [nativeRecordPageTransport] and [nativeRecordTransport], where the transport
    implements them. *)
Class RecordTransport (W : Type) := {
  T_pager : option ((string -> string -> Z -> string -> io W (error + list nativeRecord)) *
                    (string -> string -> io W (error + option nativeRecord)));
  T_records : option (string -> io W (error + list nativeRecord))
}.

(** * Cursors *)

Definition encodeRecordCursor (offset : nat) : string := EncodeToString (Itoa offset).

Definition malformedRecordCursor : error :=
  Wrap "valkeystream: invalid management record cursor" ErrMalformedCursor.

Definition decodeRecordCursor (cursor : string) : error + Z :=
  if cursor == "" then inr 0%Z
  else
    match DecodeString cursor with
    | None => inl malformedRecordCursor
    | Some decoded =>
        if EncodeToString decoded != cursor then inl malformedRecordCursor
        else
          match Atoi decoded with
          | None => inl malformedRecordCursor
          | Some offset => if (offset <? 0)%Z then inl malformedRecordCursor else inr offset
          end
    end.

Definition encodeNativeRecordCursor (id : string) : string := EncodeToString id.

Definition decodeNativeRecordCursor (cursor : string) : error + string :=
  if cursor == "" then inr ""
  else
    match DecodeString cursor with
    | None => inl ErrMalformedCursor
    | Some decoded =>
        if EncodeToString decoded != cursor then inl ErrMalformedCursor
        else if (MaxIdentityBytes <? len decoded)%Z then inl ErrMalformedCursor
        else
          match recordTime decoded with
          | inl _ => inl ErrMalformedCursor
          | inr _ => inr decoded
          end
    end.

(** * Conversion *)

Section records.
Context (opts : options).
(** Iteration orders and the JSON decoder, as in [Records] and [Stream]. *)
Context (order : list (string * string) -> list (string * string)).
Context (times : list (string * option Time) -> list (string * option Time)).
Context (unmarshal : string -> error + Message).
(** [strings.ToLower], whose Unicode tables are not written out. *)
Context (ToLower : string -> string).

(** The version-1 fields of a record. *)
Definition enrich (record : nativeRecord) (kind : string) (item : JobRecord) : JobRecord :=
  let item := item
    <| R_EnvelopeVersion := N_EnvelopeVersion record |> <| R_OriginalID := N_OriginalID record |>
    <| R_SourceRecordID := N_OriginalID record |> <| R_Stream := N_Source record |>
    <| R_ConsumerGroup := N_Group record |> <| R_Classification := N_Classification record |>
    <| R_FailureCode := N_FailureCode record |>
    <| R_OriginalDeadLetterID := N_OriginalDeadLetterID record |>
    <| R_PriorDeadLetterID := N_PriorDeadLetterID record |>
    <| R_ReplayGeneration := N_ReplayGeneration record |>
    <| R_LastDeliveryAt := Some (N_OccurredAt record) |> in
  let item :=
    match O_management opts with
    | Some metadata => item <| R_WorkerVersion := M_Version metadata |>
    | None => item
    end in
  let item :=
    match recordTime (N_OriginalID record) with
    | inr enqueuedAt => item <| R_EnqueuedAt := Some enqueuedAt |>
    | inl _ => item
    end in
  let item :=
    if kind == RecordDeadLetter then item <| R_DeadLetteredAt := Some (N_OccurredAt record) |>
    else item in
  ApplyMessageMetadata order item (MessageMetadata order unmarshal (N_Body record)).

Definition managementRecord (kind visibility : string) (record : nativeRecord) : error + JobRecord :=
  if (N_Attempts record <? 1)%Z || (4294967295 <? N_Attempts record)%Z
  then inl (Leaf "valkeystream: invalid management record attempts")
  else
    let payload :=
      if visibility == PayloadRevealed
      then mkPayload visibility "application/octet-stream" (len (N_Body record)) (N_Body record)
      else mkPayload visibility "" (len (N_Body record)) "" in
    let failureCode := if kind == RecordDeadLetter then "terminal_delivery" else "handler_failed" in
    let item :=
      mkJobRecord kind (N_ID record) BackendName (O_stream opts) (N_OccurredAt record)
        (N_Attempts record) failureCode payload 0 "" "" "" "" "" "" "" None None None None "" "" ""
        (mkPayload "" "" 0 "") "" "" None "" "" "" "" "" "" 0 None in
    let item :=
      if (N_EnvelopeVersion record =? CurrentEnvelopeVersion)%Z then enrich record kind item else item in
    let err := JobRecord_Validate order times item in
    if negb (is_nil err) then inl (Wrap "valkeystream: invalid management record" err) else inr item.

Fixpoint managementRecords (records : list nativeRecord) (kind visibility : string)
  : error + list JobRecord :=
  match records with
  | [] => inr []
  | record :: records =>
      match managementRecord kind visibility record with
      | inl e => inl e
      | inr item =>
          match managementRecords records kind visibility with
          | inl e => inl e
          | inr items => inr (item :: items)
          end
      end
  end.

(** * Search and order *)

(** [strings.Contains]. *)
Fixpoint Contains (s needle : string) : bool :=
  String.prefix needle s ||
  match s with "" => false | String _ s => Contains s needle end.

Definition filterRecords (items : list JobRecord) (search : string) : list JobRecord :=
  let needle := ToLower (TrimSpace search) in
  if needle == "" then items
  else
    List.filter
      (fun item => Contains (ToLower (R_ID item +:+ " " +:+ R_Queue item +:+ " " +:+ R_FailureCode item))
                     needle) items.

(** [strings.Compare] and [time.Time.Compare] as signs. *)
Definition Compare (a b : string) : Z :=
  match String.compare a b with Eq => 0 | Lt => -1 | Gt => 1 end.
Definition Time_Compare (a b : Time) : Z :=
  if Before a b then -1 else if After a b then 1 else 0.

Definition record_less (field direction : string) (left right : JobRecord) : bool :=
  let comparison :=
    if field == SortOccurredAt then Time_Compare (R_OccurredAt left) (R_OccurredAt right)
    else if field == SortQueue then Compare (R_Queue left) (R_Queue right)
    else if field == SortAttempts then (R_Attempts left - R_Attempts right)%Z
    else Compare (R_ID left) (R_ID right) in
  let comparison :=
    if (comparison =? 0)%Z then Compare (R_ID left) (R_ID right) else comparison in
  if direction == SortDescending then (0 <? comparison)%Z else (comparison <? 0)%Z.

(** A stable insertion sort, which gives what [sort.SliceStable] gives. *)
Fixpoint insert_stable {A} (less : A -> A -> bool) (x : A) (l : list A) : list A :=
  match l with
  | [] => [x]
  | y :: l => if less y x then y :: insert_stable less x l else x :: y :: l
  end.
Definition SliceStable {A} (less : A -> A -> bool) (l : list A) : list A :=
  foldr (insert_stable less) [] l.

Definition sortRecords (items : list JobRecord) (field direction : string) : list JobRecord :=
  SliceStable (record_less field direction) items.

(** * Pages *)

Section pages.
Context {W : Type} `{!RecordTransport W}.

(** [ctx_err] is [ctx.Err()]. *)
Definition nativeRecords (ctx_err : error) (stream : string) : io W (error + list nativeRecord) :=
  if negb (is_nil ctx_err) then mret (inl ctx_err)
  else if stream == "" then mret (inl ErrManagementRecordsDisabled)
  else match T_records with
       | None => mret (inl ErrManagementRecordsDisabled)
       | Some read => read stream
       end.

(** The loop that keeps matching items up to the limit. *)
Fixpoint page_items (converted : list JobRecord) (search : string) (limit itemCount : Z)
  : list JobRecord :=
  match converted with
  | [] => []
  | item :: converted =>
      if (length (filterRecords [item] search) =? 1)%nat && (itemCount <? limit)%Z
      then item :: page_items converted search limit (itemCount + 1)
      else page_items converted search limit itemCount
  end.

Definition listNativeRecordPage (request : PageRequest) (kind stream : string)
    (page : string -> string -> Z -> string -> io W (error + list nativeRecord))
  : io W (error + RecordPage) :=
  if G_Sort request != SortOccurredAt then mret (inl ErrInvalidFilter)
  else
    match decodeNativeRecordCursor (G_Cursor request) with
    | inl err => mret (inl err)
    | inr cursor =>
        let scanLimit := if G_Search request != "" then (G_Limit request * valkeyRecordSearchFactor)%Z
                         else G_Limit request in
        records ← page stream cursor scanLimit (G_Direction request);
        match records with
        | inl err => mret (inl err)
        | inr records =>
            match managementRecords records kind PayloadHidden with
            | inl err => mret (inl err)
            | inr converted =>
                let items := page_items converted (G_Search request) (G_Limit request) 0 in
                let next := if (Z.of_nat (length records) =? scanLimit)%Z
                            then match last records with
                                 | Some r => encodeNativeRecordCursor (N_ID r)
                                 | None => ""
                                 end
                            else "" in
                mret (inr (mkRecordPage items next))
            end
        end
    end.

Definition listRecords (ctx_err : error) (request : PageRequest) (kind stream : string)
  : io W (error + RecordPage) :=
  let err := PageRequest_Validate request in
  if negb (is_nil err) then mret (inl err)
  else
    match T_pager with
    | Some (page, _) => listNativeRecordPage request kind stream page
    | None =>
        records ← nativeRecords ctx_err stream;
        match records with
        | inl err => mret (inl err)
        | inr records =>
            match managementRecords records kind PayloadHidden with
            | inl err => mret (inl err)
            | inr items =>
                let items := sortRecords (filterRecords items (G_Search request)) (G_Sort request)
                               (G_Direction request) in
                match decodeRecordCursor (G_Cursor request) with
                | inl err => mret (inl err)
                | inr offset =>
                    let offset := Z.to_nat (Z.min offset (zlen items)) in
                    let stop := Nat.min (offset + Z.to_nat (G_Limit request)) (length items) in
                    mret (inr (mkRecordPage (take (stop - offset) (drop offset items))
                                 (if (stop <? length items)%nat then encodeRecordCursor stop else "")))
                end
            end
        end
    end.

Definition ListFailures (ctx_err : error) (request : PageRequest) : io W (error + RecordPage) :=
  listRecords ctx_err request Records.RecordFailure (O_failureStream opts).

Definition ListDeadLetters (ctx_err : error) (request : PageRequest) : io W (error + RecordPage) :=
  listRecords ctx_err request RecordDeadLetter (O_deadLetterStream opts).

(** [items[0]] of a one-element slice. *)
Definition first_item (items : error + list JobRecord) : error + JobRecord :=
  match items with
  | inl err => inl err
  | inr (item :: _) => inr item
  | inr [] => inl ErrManagementRecordNotFound
  end.

Definition Inspect (ctx_err : error) (request : InspectRequest) : io W (error + JobRecord) :=
  let err := InspectRequest_Validate request in
  if negb (is_nil err) then mret (inl err)
  else
    let stream := if I_Kind request == RecordDeadLetter then O_deadLetterStream opts
                  else O_failureStream opts in
    match T_pager with
    | Some (_, read) =>
        record ← read stream (I_ID request);
        match record with
        | inl err => mret (inl err)
        | inr None => mret (inl ErrManagementRecordNotFound)
        | inr (Some record) =>
            mret (first_item (managementRecords [record] (I_Kind request) (I_Visibility request)))
        end
    | None =>
        records ← nativeRecords ctx_err stream;
        match records with
        | inl err => mret (inl err)
        | inr records =>
            match managementRecords records (I_Kind request) (I_Visibility request) with
            | inl err => mret (inl err)
            | inr items =>
                match List.find (fun item => R_ID item == I_ID request) items with
                | Some item => mret (inr item)
                | None => mret (inl ErrManagementRecordNotFound)
                end
            end
        end
    end.
End pages.
End records.

(** * Disclosure *)

Section disclosure.
Context (opts : options).
Context (order : list (string * string) -> list (string * string)).
Context (times : list (string * option Time) -> list (string * option Time)).
Context (unmarshal : string -> error + Message) (ToLower : string -> string).

Lemma managementRecords_iff records kind visibility items :
  managementRecords opts order times unmarshal records kind visibility = inr items <->
  Forall2 (fun r i => managementRecord opts order times unmarshal kind visibility r = inr i) records items.
Proof.
  revert items. induction records as [|r records IH]; intros items; simpl.
  { split; [intros [= <-]; constructor|by intros ->%Forall2_nil_inv_l]. }
  split.
  - destruct (managementRecord _ _ _ _ kind visibility r) as [|i] eqn:E; [done|].
    destruct (managementRecords _ _ _ _ records kind visibility) as [|items1]; [done|].
    intros [= <-]. constructor; [done|]. by apply IH.
  - intros H. apply Forall2_cons_inv_l in H as (i & items1 & Hi & His & ->). rewrite Hi.
    apply IH in His. by rewrite His.
Qed.

(** The bytes a record discloses, and what it says of its size. *)
Definition discloses (visibility body : string) (item : JobRecord) : Prop :=
  P_Visibility (R_Payload item) = visibility /\ P_Size (R_Payload item) = len body /\
  P_Data (R_Payload item) = (if visibility == PayloadRevealed then body else "") /\
  P_Data (R_Diagnostics item) = "".

Definition same_disclosure (a b : JobRecord) : Prop :=
  P_Visibility (R_Payload b) = P_Visibility (R_Payload a) /\
  P_Size (R_Payload b) = P_Size (R_Payload a) /\ P_Data (R_Payload b) = P_Data (R_Payload a) /\
  R_Diagnostics b = R_Diagnostics a /\ R_ID b = R_ID a /\ R_Kind b = R_Kind a.

Lemma apply_metadata_disclosure item metadata :
  same_disclosure item (ApplyMessageMetadata order item metadata).
Proof. by destruct metadata. Qed.

Lemma enrich_disclosure record kind item :
  same_disclosure item (enrich opts order unmarshal record kind item).
Proof.
  unfold enrich. cbv zeta.
  match goal with |- context [ApplyMessageMetadata order ?i ?m] =>
    pose proof (apply_metadata_disclosure i m) as H; generalize dependent (ApplyMessageMetadata order i m)
  end.
  intros b. destruct item, (O_management opts), (recordTime (N_OriginalID record)),
    (kind == RecordDeadLetter); exact id.
Qed.

Lemma managementRecord_discloses kind visibility r item :
  managementRecord opts order times unmarshal kind visibility r = inr item ->
  discloses visibility (N_Body r) item /\ R_ID item = N_ID r /\ R_Kind item = kind.
Proof.
  unfold managementRecord. case_test; [done|]. cbv zeta.
  match goal with |- context [enrich opts order unmarshal r kind ?i] =>
    pose proof (enrich_disclosure r kind i) as H; revert H;
    generalize (enrich opts order unmarshal r kind i) as b end.
  intros b (H1 & H2 & H3 & H4 & H5 & H6). cbn [R_Payload R_Diagnostics R_ID R_Kind] in *.
  set (it := if (N_EnvelopeVersion r =? _)%Z then _ else _). destruct (negb _); [done|].
  intros [= <-]. unfold it, discloses.
  destruct (_ =? _)%Z; [rewrite H1, H2, H3, H4, H5, H6|]; by destruct (visibility == PayloadRevealed).
Qed.

Lemma page_items_sub converted search limit n i :
  i ∈ page_items ToLower converted search limit n -> i ∈ converted.
Proof.
  revert n. induction converted as [|x l IH]; intros n; simpl; [done|].
  case_test; rewrite ?elem_of_cons; naive_solver.
Qed.

Lemma page_items_bound converted search limit n :
  (n <= limit)%Z -> (Z.of_nat (length (page_items ToLower converted search limit n)) <= limit - n)%Z.
Proof.
  revert n. induction converted as [|i l IH]; intros n Hn; simpl; [lia|].
  case_test; [|auto]. simpl. specialize (IH (n + 1)%Z). lia.
Qed.

Lemma insert_stable_perm {A} less (x : A) l : insert_stable less x l ≡ₚ x :: l.
Proof.
  induction l as [|y l IH]; [done|]. simpl. case_test; [|done]. rewrite IH. apply Permutation_swap.
Qed.

Lemma SliceStable_perm {A} less (l : list A) : SliceStable less l ≡ₚ l.
Proof.
  unfold SliceStable. induction l as [|x l IH]; [done|]. simpl. by rewrite insert_stable_perm, IH.
Qed.

Lemma filterRecords_sub items search i : i ∈ filterRecords ToLower items search -> i ∈ items.
Proof.
  unfold filterRecords. case_test; [done|]. rewrite !list_elem_of_In, filter_In. tauto.
Qed.

Context {W : Type} `{!RecordTransport W}.
Implicit Types w : W.

(** Items of one conversion disclose no more than the visibility allows. *)
Definition within (visibility kind : string) (i : JobRecord) : Prop :=
  P_Visibility (R_Payload i) = visibility /\ R_Kind i = kind /\ P_Data (R_Diagnostics i) = "" /\
  (visibility <> PayloadRevealed -> P_Data (R_Payload i) = "").

Lemma managementRecords_within records kind visibility items i :
  managementRecords opts order times unmarshal records kind visibility = inr items ->
  i ∈ items -> within visibility kind i.
Proof.
  rewrite managementRecords_iff. intros H Hi. apply list_elem_of_lookup in Hi as [n Hn].
  destruct (Forall2_lookup_r _ _ _ _ _ H Hn) as (r & _ & Hr).
  apply managementRecord_discloses in Hr as ((? & _ & Hd & ?) & _ & ?). split_and!; try done.
  intros Hne%String.eqb_neq. by rewrite Hd, Hne.
Qed.

(** What a page of a kind may hold. *)
Definition page_ok (request : PageRequest) (kind : string) (page : RecordPage) : Prop :=
  Forall (within PayloadHidden kind) (RP_Items page) /\
  (Z.of_nat (length (RP_Items page)) <= G_Limit request)%Z.

Lemma native_page_ok request kind stream read w page w' :
  (0 <= G_Limit request)%Z ->
  listNativeRecordPage opts order times unmarshal ToLower request kind stream read w = (inr page, w') ->
  page_ok request kind page.
Proof.
  intros Hl. unfold listNativeRecordPage. case_test; [done|].
  destruct (decodeNativeRecordCursor _) as [|cursor]; [done|].
  intros (records & w1 & _ & H)%io_bind_inv. destruct records as [|records]; [done|].
  destruct (managementRecords _ _ _ _ records kind PayloadHidden) as [|items] eqn:Em; [done|].
  injection H as <- _. split; simpl.
  - apply Forall_forall. intros i Hi. eapply managementRecords_within; [exact Em|].
    by eapply page_items_sub.
  - pose proof (page_items_bound items (G_Search request) _ 0 Hl). lia.
Qed.

Lemma listRecords_ok ctx_err request kind stream w page w' :
  (0 <= G_Limit request)%Z ->
  listRecords opts order times unmarshal ToLower ctx_err request kind stream w = (inr page, w') ->
  page_ok request kind page.
Proof.
  intros Hl. unfold listRecords. case_test; [done|].
  destruct T_pager as [[pg read]|]; [by apply native_page_ok|].
  intros (records & w1 & _ & H)%io_bind_inv. destruct records as [|records]; [done|].
  destruct (managementRecords _ _ _ _ records kind PayloadHidden) as [|items] eqn:Em; [done|].
  destruct (decodeRecordCursor _) as [|offset]; [done|]. injection H as <- _. split; simpl.
  - apply Forall_forall. intros i Hi. eapply managementRecords_within; [exact Em|].
    apply elem_of_take in Hi as (n & Hi & _). rewrite lookup_drop in Hi.
    apply list_elem_of_lookup_2 in Hi. unfold sortRecords in Hi. rewrite SliceStable_perm in Hi.
    by eapply filterRecords_sub.
  - rewrite length_take, length_drop. lia.
Qed.

Lemma Inspect_ok ctx_err request w item w' :
  Inspect opts order times unmarshal ctx_err request w = (inr item, w') ->
  within (I_Visibility request) (I_Kind request) item.
Proof.
  unfold Inspect. case_test; [done|]. destruct T_pager as [[pg read]|].
  - intros (record & w1 & _ & H)%io_bind_inv. destruct record as [|[record|]]; [done| |done].
    destruct (managementRecords _ _ _ _ [record] _ _) as [|[|i items]] eqn:Em; try done.
    injection H as <- _. eapply managementRecords_within; [exact Em|by left].
  - intros (records & w1 & _ & H)%io_bind_inv. destruct records as [|records]; [done|].
    destruct (managementRecords _ _ _ _ records _ _) as [|items] eqn:Em; [done|].
    destruct (List.find _ items) as [i|] eqn:Ef; [|done]. injection H as <- _.
    apply find_some in Ef as [Hi _]. eapply managementRecords_within; [exact Em|].
    by apply list_elem_of_In.
Qed.

(** Record listings never disclose payload bytes, hold only records of the requested
    kind and no more than the requested number; inspection discloses the payload only
    when the caller asked for it to be revealed, and diagnostics never. *)
Theorem record_disclosure ctx_err w :
  (forall request kind stream page w',
     (0 <= G_Limit request)%Z ->
     listRecords opts order times unmarshal ToLower ctx_err request kind stream w = (inr page, w') ->
     page_ok request kind page) /\
  (forall request item w',
     Inspect opts order times unmarshal ctx_err request w = (inr item, w') ->
     within (I_Visibility request) (I_Kind request) item).
Proof.
  split; intros.
  - by eapply listRecords_ok.
  - by eapply Inspect_ok.
Qed.
End disclosure.

(** * Cursors round trip *)

Lemma encode_length l : (length l <= length (encode l) <= 2 * length l)%nat.
Proof.
  induction l as [l IH] using (induction_ltof1 _ (@length ascii)). unfold ltof in IH.
  destruct l as [|a [|b [|c l]]]; simpl; try lia. specialize (IH l ltac:(simpl; lia)). lia.
Qed.

Lemma string_of_length l : String.length (string_of_list_ascii l) = length l.
Proof. induction l; simpl; congruence. Qed.

Lemma encoded_length s :
  (String.length s <= String.length (EncodeToString s) <= 2 * String.length s)%nat.
Proof.
  unfold EncodeToString. rewrite string_of_length. pose proof (encode_length (list_ascii_of_string s)).
  by rewrite ascii_length in H.
Qed.

(** Identifiers that a page can continue from. *)
Definition cursor_id (id : string) : Prop :=
  id <> "" /\ (len id <= MaxIdentityBytes)%Z /\ exists t, recordTime id = inr t.

Lemma cursor_roundtrip id :
  cursor_id id ->
  decodeNativeRecordCursor (encodeNativeRecordCursor id) = inr id /\
  encodeNativeRecordCursor id <> "" /\ (len (encodeNativeRecordCursor id) <= MaxCursorBytes)%Z.
Proof.
  intros (Hid & Hlen & t & Ht). pose proof (encoded_length id) as He.
  assert (encodeNativeRecordCursor id <> "") as Hne.
  { unfold encodeNativeRecordCursor. intros E. rewrite E in He. destruct id; [done|simpl in He; lia]. }
  split_and!; [|done|].
  - unfold decodeNativeRecordCursor. rewrite (proj2 (String.eqb_neq _ _) Hne).
    unfold encodeNativeRecordCursor. rewrite base64_roundtrip, String.eqb_refl. simpl.
    case_test; [lia|]. by rewrite Ht.
  - unfold len, MaxIdentityBytes, MaxCursorBytes, encodeNativeRecordCursor in *. lia.
Qed.

(** * Traversal *)

(** Records after the one of a cursor, in the order of the listing. *)
Fixpoint skip_past (id : string) (l : list nativeRecord) : list nativeRecord :=
  match l with [] => [] | r :: l => if N_ID r == id then l else skip_past id l end.
Definition after (cursor : string) (l : list nativeRecord) : list nativeRecord :=
  if cursor == "" then l else skip_past cursor l.

Lemma skip_past_last l1 r l2 :
  NoDup (N_ID <$> l1 ++ r :: l2) -> skip_past (N_ID r) (l1 ++ r :: l2) = l2.
Proof.
  induction l1 as [|x l1 IH]; simpl; [by rewrite String.eqb_refl|].
  rewrite NoDup_cons. intros [Hx Hl]. destruct (String.eqb_spec (N_ID x) (N_ID r)) as [E|]; [|auto].
  exfalso. apply Hx. rewrite E, fmap_app, fmap_cons. apply elem_of_app. right. by left.
Qed.

(** A page without a search keeps everything the scan returned. *)
Lemma page_items_all ToLower converted limit n :
  ToLower "" = "" -> (n + Z.of_nat (length converted) <= limit)%Z ->
  page_items ToLower converted "" limit n = converted.
Proof.
  intros Hlower. revert n. induction converted as [|i l' IH]; intros n Hn; simpl in *; [done|].
  unfold filterRecords at 1. replace (TrimSpace "") with "" by done. rewrite Hlower. simpl.
  destruct (Z.ltb_spec n limit); [|lia]. f_equal. apply IH. lia.
Qed.

Section traversal.
Context (opts : options).
Context (order : list (string * string) -> list (string * string)).
Context (times : list (string * option Time) -> list (string * option Time)).
Context (unmarshal : string -> error + Message) (ToLower : string -> string).
Context {W : Type} `{!RecordTransport W}.
Context (kind stream : string) (request : PageRequest).

(** A caller that follows the cursors until a page has none. *)
Fixpoint traverse (fuel : nat) (cursor : string) (w : W) : option (list JobRecord) :=
  match fuel with
  | O => None
  | S fuel =>
      match listRecords opts order times unmarshal ToLower ErrNil (request <| G_Cursor := cursor |>)
              kind stream w with
      | (inr page, w) =>
          if RP_NextCursor page == "" then Some (RP_Items page)
          else rest ← traverse fuel (RP_NextCursor page) w; Some (RP_Items page ++ rest)
      | (inl _, _) => None
      end
  end.

(** The stored records in listing order, and their conversion. *)
Context (l : list nativeRecord) (items : list JobRecord).
Context (page : string -> string -> Z -> string -> io W (error + list nativeRecord)).
Context (read : string -> string -> io W (error + option nativeRecord)).
Hypothesis Hpager : T_pager = Some (page, read).
(** The stream does not change and its range command answers as documented. *)
Hypothesis Hpage : forall cursor limit w, (0 < limit)%Z ->
  page stream cursor limit (G_Direction request) w = (inr (take (Z.to_nat limit) (after cursor l)), w).
Hypothesis Hids : NoDup (N_ID <$> l).
Hypothesis Hcursor : Forall (fun r => cursor_id (N_ID r)) l.
Hypothesis Hitems : managementRecords opts order times unmarshal l kind PayloadHidden = inr items.
Hypothesis Hlower : ToLower "" = "".
Hypothesis Hrequest : G_Sort request = SortOccurredAt /\ G_Search request = "" /\
  (0 < G_Limit request <= MaxPageSize)%Z /\ SortDirection_valid (G_Direction request) = true.

(** One page of the traversal. *)
Lemma page_at l1 l2 cursor w converted :
  (cursor = "" /\ l1 = [] \/ exists r l0, l1 = l0 ++ [r] /\ cursor = encodeNativeRecordCursor (N_ID r)) ->
  l = l1 ++ l2 ->
  managementRecords opts order times unmarshal (take (Z.to_nat (G_Limit request)) l2) kind PayloadHidden =
    inr converted ->
  listRecords opts order times unmarshal ToLower ErrNil (request <| G_Cursor := cursor |>) kind stream w =
  (inr (mkRecordPage converted
     (if (Z.of_nat (length (take (Z.to_nat (G_Limit request)) l2)) =? G_Limit request)%Z
      then match last (take (Z.to_nat (G_Limit request)) l2) with
           | Some r => encodeNativeRecordCursor (N_ID r) | None => "" end
      else "")), w).
Proof.
  intros Hc Hl Hm. destruct Hrequest as (Hs & Hq & Hlim & Hdir).
  assert (exists c, decodeNativeRecordCursor cursor = inr c /\ after c l = l2 /\
            (len cursor <= MaxCursorBytes)%Z) as (c & Hdec & Hafter & Hlen).
  { destruct Hc as [[-> ->]|(r & l0 & -> & ->)]; [by exists ""|].
    assert (cursor_id (N_ID r)) as Hr.
    { rewrite Forall_forall in Hcursor. apply Hcursor. rewrite Hl. set_solver. }
    destruct (cursor_roundtrip _ Hr) as (Hrt & _ & ?). exists (N_ID r). split_and!; try done.
    unfold after. destruct Hr as [Hne _]. rewrite (proj2 (String.eqb_neq _ _) Hne).
    rewrite Hl, <- app_assoc in Hids |- *. by apply skip_past_last. }
  unfold listRecords. rewrite Hpager. destruct request as [cur limit search sort direction].
  simpl in *. subst search sort.
  assert (PageRequest_Validate (mkPageRequest cursor limit "" SortOccurredAt direction) = ErrNil) as ->.
  { unfold PageRequest_Validate. simpl. rewrite Hdir.
    destruct (Z.eqb_spec limit 0); [lia|]. destruct (Z.ltb_spec MaxPageSize limit); [lia|].
    destruct (Z.ltb_spec MaxCursorBytes (len cursor)); [lia|done]. }
  simpl. unfold listNativeRecordPage. simpl. rewrite Hdec. unfold mbind, io_bind.
  rewrite Hpage by lia. rewrite Hafter, Hm. unfold mret, io_ret. do 3 f_equal.
  apply page_items_all; [done|]. simpl.
  apply managementRecords_iff, Forall2_length in Hm. rewrite <- Hm, length_take. lia.
Qed.

Lemma traverse_from fuel l1 l2 items2 cursor w :
  (cursor = "" /\ l1 = [] \/ exists r l0, l1 = l0 ++ [r] /\ cursor = encodeNativeRecordCursor (N_ID r)) ->
  l = l1 ++ l2 ->
  managementRecords opts order times unmarshal l2 kind PayloadHidden = inr items2 ->
  (length l2 < fuel)%nat -> traverse fuel cursor w = Some items2.
Proof.
  revert l1 l2 items2 cursor. induction fuel as [|fuel IH]; intros l1 l2 items2 cursor Hc Hl Hm Hf; [lia|].
  set (n := Z.to_nat (G_Limit request)). destruct Hrequest as (_ & _ & Hlim & _).
  pose proof (proj1 (managementRecords_iff _ _ _ _ _ _ _ _) Hm) as Hall.
  cbn [traverse]. rewrite (page_at l1 l2 cursor w (take n items2)); [|done|done|].
  2: { apply managementRecords_iff. by apply Forall2_take. }
  cbn [RP_NextCursor RP_Items]. fold n.
  destruct (Z.eqb_spec (Z.of_nat (length (take n l2))) (G_Limit request)) as [E|E].
  - destruct (take n l2) as [|r0 tk] eqn:Et using rev_ind; [simpl in E; lia|].
    rewrite last_snoc.
    assert (cursor_id (N_ID r0)) as Hr.
    { rewrite Forall_forall in Hcursor. apply Hcursor. rewrite Hl, <- (take_drop n l2), Et. set_solver. }
    destruct (cursor_roundtrip _ Hr) as (_ & Hne & _). rewrite (proj2 (String.eqb_neq _ _) Hne).
    rewrite (IH (l1 ++ tk ++ [r0]) (drop n l2) (drop n items2)).
    + cbn [mbind option_bind]. by rewrite take_drop.
    + right. exists r0, (l1 ++ tk). by rewrite app_assoc.
    + rewrite Hl, <- Et, <- app_assoc. by rewrite take_drop.
    + apply managementRecords_iff. by apply Forall2_drop.
    + rewrite length_drop. assert (length (take n l2) = n) by (rewrite Et; lia).
      rewrite length_take in *. lia.
  - rewrite length_take in E. rewrite String.eqb_refl. f_equal. apply take_ge.
    rewrite <- (Forall2_length _ _ _ Hall). lia.
Qed.

(** Listing is complete: following the cursors from the first page visits every
    stored record exactly once, in order, and ends, whatever the page size. *)
Theorem traversal_complete w fuel :
  (length l < fuel)%nat -> traverse fuel "" w = Some items.
Proof. intros Hf. by apply (traverse_from fuel [] l); [left| | |]. Qed.
End traversal.

(** * A stream of two records *)
Module SampleRecords.

Definition options : options :=
  (default_options "c") <| O_address := "localhost:6379" |> <| O_stream := "q" |>
    <| O_group := "g" |> <| O_failureStream := "failed" |> <| O_deadLetterStream := "dead" |>.

Definition record (ms : Z) (id : string) : nativeRecord :=
  mkNativeRecord id "1-0" "job" 1 (UTC (UnixMilli ms)) 0 "" "" "" "" "" "" 0.
Definition records : list nativeRecord := [record 5 "5-0"; record 6 "6-0"].

Definition page (stream cursor : string) (limit : Z) (direction : string)
  : io unit (error + list nativeRecord) := fun w => (inr (take (Z.to_nat limit) (after cursor records)), w).
Definition read (stream id : string) : io unit (error + option nativeRecord) :=
  fun w => (inr (List.find (fun r => N_ID r == id) records), w).

#[global] Instance reader : RecordTransport unit := {| T_pager := Some (page, read); T_records := None |}.

Definition item (ms : Z) (id : string) : JobRecord :=
  mkJobRecord "failure" id "valkey-streams" "q" (UTC (UnixMilli ms)) 1 "handler_failed"
    (mkPayload "" "" 3 "") 0 "" "" "" "" "" "" "" None None None None "" "" ""
    (mkPayload "" "" 0 "") "" "" None "" "" "" "" "" "" 0 None.

Definition list_failures (request : PageRequest) :=
  ListFailures options (fun l => l) (fun l => l) (fun _ => inl ErrInvalidMessage) (fun s => s) ErrNil
    request ().

End SampleRecords.

Lemma traversal_complete_witness :
  traverse SampleRecords.options (fun l => l) (fun l => l) (fun _ => inl ErrInvalidMessage) (fun s => s)
    "failure" "failed" (mkPageRequest "" 1 "" "occurred_at" "asc") 3 "" () =
  Some [SampleRecords.item 5 "5-0"; SampleRecords.item 6 "6-0"].
Proof.
  apply (traversal_complete SampleRecords.options (fun l => l) (fun l => l)
    (fun _ => inl ErrInvalidMessage) (fun s => s) "failure" "failed"
    (mkPageRequest "" 1 "" "occurred_at" "asc") SampleRecords.records _
    SampleRecords.page SampleRecords.read); try done.
  - by apply (bool_decide_unpack _).
  - repeat constructor; try done; by eexists.
  - simpl. lia.
Defined.

Lemma record_disclosure_witness :
  page_ok (mkPageRequest "" 1 "" "occurred_at" "asc") "failure"
    (mkRecordPage [SampleRecords.item 5 "5-0"] "NS0w").
Proof.
  apply (proj1 (record_disclosure SampleRecords.options (fun l => l) (fun l => l)
    (fun _ => inl ErrInvalidMessage) (fun s => s) ErrNil ()) _ _ "failed" _ ());
    [done|vm_compute; reflexivity].
Defined.

(** A search drops matches: with two matching records and a page size of one, the page
    has the first record and no cursor, so the second is never listed. The page is
    filled from up to four times its size of scanned records, and its cursor, when there
    is one, is the last scanned record rather than the last one kept. *)
Lemma search_drops_match :
  let matching := filterRecords (fun s => s) [SampleRecords.item 5 "5-0"; SampleRecords.item 6 "6-0"] "q" in
  length matching = 2%nat /\
  SampleRecords.list_failures (mkPageRequest "" 1 "q" "occurred_at" "asc") =
    (inr (mkRecordPage [SampleRecords.item 5 "5-0"] ""), ()).
Proof. vm_compute. auto. Qed.
