(* ===== verification/ControlCache.v ===== *)
(** The command cache of the stream workers (valkeystream/control.go and
    adapters/redisstream/control.go): one execution per idempotency key under concurrent
    callers, over an interface that says how a backend checks and applies a command; and
    the theorems that hold for every backend. *)

From S2P Require Import Prelude GoStd Sentinels Contract Control Status.

Definition defaultControlCapacity : Z := 1024.

(** An entry has its result once its [done] channel is closed. *)
Record nativeControlEntry := mkEntry { E_command : Command; E_result : option CommandResult }.

Abbreviation controlEntries := (gmap string nativeControlEntry).

(** [opts.management], which [Execute] has checked to be present. *)
Section entries.
Context (metadata : StatusMetadata).

(** [controlNow] is read when a result is made. *)
Definition controlResult (now : Time) (command : Command) (status failureCode : string) : CommandResult :=
  Control.mkResult (Control.ID command) (IdempotencyKey command) (M_ID metadata) (M_Protocol metadata)
    status failureCode (UTC now).

(** * The command cache *)

(** [controlEntry], under its mutex: the entry by its key, whether it existed, and an
    immediate result. [reflect.DeepEqual] follows the pointers of a command, so it is
    equality of the commands. *)
Definition controlEntry (capacity : Z) (now : Time) (command : Command) (es : controlEntries)
  : (option string * bool * CommandResult) * controlEntries :=
  let key := IdempotencyKey command in
  match es !! key with
  | Some entry =>
      if negb (bool_decide (E_command entry = command))
      then ((None, false, controlResult now command CommandRejected "idempotency_conflict"), es)
      else ((Some key, true, zeroResult), es)
  | None =>
      let capacity := if (capacity <=? 0)%Z then defaultControlCapacity else capacity in
      if (capacity <=? Z.of_nat (size es))%Z
      then ((None, false, controlResult now command CommandRejected "idempotency_capacity"), es)
      else ((Some key, false, zeroResult), <[key := mkEntry command None]> es)
  end.

End entries.

(** * Concurrent calls of [Execute] *)

(** Where a call stands: past its checks, about to apply its command, about to publish
    the result, waiting for the call that owns the entry, returned. *)
Inductive caller :=
| Checked (command : Command)
| Applying (command : Command)
| Publishing (command : Command) (r : CommandResult)
| Waiting (command : Command)
| Returned (command : Command) (r : CommandResult) (err : error).

(** The call after [controlEntry]. *)
Definition Execute_entry (command : Command) (found : option string * bool * CommandResult) : caller :=
  let '(_, existing, immediate) := found in
  if bool_decide (immediate <> zeroResult) then Returned command immediate ErrNil
  else if existing then Waiting command else Applying command.

(** * The backend of the cache

    What [Execute] does before the cache is consulted, on whatever it observes there,
    and how a command is applied; [now] is the clock before the mutation, [later] the
    clock of its result. *)
Class ControlBackend (W : Type) := {
  observation : Type;
  Execute_checks : observation -> Command -> caller;
  Execute_apply : Time -> Time -> Command -> io W CommandResult;
  Execute_checks_law o command :
    Execute_checks o command = Checked command \/
    exists err, err <> ErrNil /\ Execute_checks o command = Returned command zeroResult err
}.

Section control.
Context {W : Type} `{!ControlBackend W} (metadata : StatusMetadata).

Record control := mkControl {
  world : W;
  entries : controlEntries;
  callers : list caller;
  applied : list string   (* keys of the commands applied so far, latest first *)
}.

(** The steps of the callers; [Elsewhere] is anything else that changes the stores. A
    command is applied in one step, as [controlApplyMu] keeps other commands out. *)
Inductive control_event :=
| Call (o : observation) (command : Command)
| Lookup (i : nat) (now : Time)
| Apply (i : nat) (now later : Time)
| Publish (i : nat)
| Done (i : nat)
| Canceled (i : nat) (err : error)
| Elsewhere (w : W).

Definition moved (i : nat) (p : caller) (c : control) : control :=
  c <| callers := <[i := p]> (callers c) |>.

Definition control_step (capacity : Z) (e : control_event) (c : control) : option control :=
  match e with
  | Call o command => Some (c <| callers := callers c ++ [Execute_checks o command] |>)
  | Lookup i now =>
      match callers c !! i with
      | Some (Checked command) =>
          let '(found, es) := controlEntry metadata capacity now command (entries c) in
          Some (moved i (Execute_entry command found) (c <| entries := es |>))
      | _ => None
      end
  | Apply i now later =>
      match callers c !! i with
      | Some (Applying command) =>
          let '(r, w) := Execute_apply now later command (world c) in
          Some (moved i (Publishing command r)
                  (c <| world := w |> <| applied := IdempotencyKey command :: applied c |>))
      | _ => None
      end
  | Publish i =>
      match callers c !! i with
      | Some (Publishing command r) =>
          Some (moved i (Returned command r ErrNil)
                  (c <| entries := <[IdempotencyKey command := mkEntry command (Some r)]> (entries c) |>))
      | _ => None
      end
  | Done i =>
      match callers c !! i with
      | Some (Waiting command) =>
          r ← entries c !! IdempotencyKey command ≫= E_result;
          Some (moved i (Returned command r ErrNil) c)
      | _ => None
      end
  | Canceled i err =>
      match callers c !! i with
      | Some (Waiting command) =>
          if is_nil err then None else Some (moved i (Returned command zeroResult err) c)
      | _ => None
      end
  | Elsewhere w => Some (c <| world := w |>)
  end.

Fixpoint control_run (capacity : Z) (es : list control_event) (c : control) : option control :=
  match es with
  | [] => Some c
  | e :: es => c ← control_step capacity e c; control_run capacity es c
  end.
End control.

Section cache.
Context {W : Type} `{!ControlBackend W} (metadata : StatusMetadata) (capacity : Z).

Implicit Types (c : control (W := W)) (p : caller).

(** The number of keys the cache holds. *)
Definition control_limit : Z := if (capacity <=? 0)%Z then defaultControlCapacity else capacity.

(** The key a call has to provide a result for. *)
Definition owner p : option string :=
  match p with Applying cmd | Publishing cmd _ => Some (IdempotencyKey cmd) | _ => None end.

(** What a successful return says: the shared result of its key, or a refusal. *)
Definition answered (es : controlEntries) (done : list string) (cmd : Command) (r : CommandResult) : Prop :=
  (es !! IdempotencyKey cmd = Some (mkEntry cmd (Some r)) /\ IdempotencyKey cmd ∈ done) \/
  (Status r = CommandRejected /\ FailureCode r = "idempotency_conflict" /\
   exists e, es !! IdempotencyKey cmd = Some e /\ E_command e <> cmd) \/
  (Status r = CommandRejected /\ FailureCode r = "idempotency_capacity" /\
   es !! IdempotencyKey cmd = None /\ (control_limit <= Z.of_nat (size es))%Z).

Definition caller_ok (es : controlEntries) (done : list string) p : Prop :=
  match p with
  | Checked _ => True
  | Applying cmd =>
      es !! IdempotencyKey cmd = Some (mkEntry cmd None) /\ (IdempotencyKey cmd ∉ done)
  | Publishing cmd _ =>
      es !! IdempotencyKey cmd = Some (mkEntry cmd None) /\ IdempotencyKey cmd ∈ done
  | Waiting cmd => exists r, es !! IdempotencyKey cmd = Some (mkEntry cmd r)
  | Returned cmd r err => err = ErrNil -> answered es done cmd r
  end.

Record control_ok c : Prop := {
  co_size : (Z.of_nat (size (entries c)) <= control_limit)%Z;
  co_once : NoDup (applied c);
  co_applied k : k ∈ applied c -> is_Some (entries c !! k);
  co_callers i p : callers c !! i = Some p -> caller_ok (entries c) (applied c) p;
  co_single i j p q k :
    callers c !! i = Some p -> callers c !! j = Some q ->
    owner p = Some k -> owner q = Some k -> i = j;
  co_owned k cmd :
    entries c !! k = Some (mkEntry cmd None) ->
    exists i p, callers c !! i = Some p /\ owner p = Some k;
  co_result k cmd r :
    entries c !! k = Some (mkEntry cmd (Some r)) -> k ∈ applied c
}.

(** The effect of one step on the entry of [k] and on whether it was applied. *)
Record grows (k : string) (es : controlEntries) (done : list string)
    (es' : controlEntries) (done' : list string) : Prop := {
  gr_others k' : k' <> k -> es' !! k' = es !! k' /\ (k' ∈ done' <-> k' ∈ done);
  gr_same cmd r : es !! k = Some (mkEntry cmd r) ->
    exists r', es' !! k = Some (mkEntry cmd r') /\ (r = None \/ r' = r);
  gr_done : k ∈ done -> k ∈ done';
  gr_size : (size es <= size es')%nat;
  gr_fresh : es !! k = None -> (Z.of_nat (size es) < control_limit)%Z
}.

Lemma answered_grows k es done es' done' cmd r :
  grows k es done es' done' -> answered es done cmd r -> answered es' done' cmd r.
Proof.
  intros [Ho Hs Hd Hz Hf]. unfold answered.
  destruct (decide (IdempotencyKey cmd = k)) as [->|Hk].
  - intros [[He ?]|[(? & ? & [cmd' r'] & He & ?)|(? & ? & He & ?)]].
    + left. destruct (Hs _ _ He) as (r' & ? & [| ->]); [done|]. auto.
    + right; left. destruct (Hs _ _ He) as (? & ? & _). eauto.
    + specialize (Hf He). lia.
  - destruct (Ho _ Hk) as [-> ->].
    intros [?|[?|(? & ? & ? & ?)]]; [by left|by right; left|]. right; right. split_and!; [done..|lia].
Qed.

Lemma caller_ok_grows k es done es' done' p :
  grows k es done es' done' -> owner p <> Some k -> caller_ok es done p -> caller_ok es' done' p.
Proof.
  intros Hg Hp. destruct p as [cmd|cmd|cmd r|cmd|cmd r err]; simpl in *; [done| | | |].
  1,2: destruct (gr_others _ _ _ _ _ Hg (IdempotencyKey cmd)) as [-> ->]; [congruence|done].
  - intros [r He]. destruct (decide (IdempotencyKey cmd = k)) as [Hk|Hk].
    + rewrite Hk in *. destruct (gr_same _ _ _ _ _ Hg _ _ He) as (? & ? & _). eauto.
    + destruct (gr_others _ _ _ _ _ Hg _ Hk) as [-> _]. eauto.
  - intros H He. eapply answered_grows; eauto.
Qed.

(** A step of call [i] on the entry of [k], which no other call owns. *)
Lemma step_entry c i p p' k w es' done' :
  control_ok c -> callers c !! i = Some p ->
  grows k (entries c) (applied c) es' done' ->
  (forall j q, callers c !! j = Some q -> owner q = Some k -> j = i) ->
  owner p = None \/ owner p = Some k ->
  owner p' = None \/ owner p' = Some k ->
  caller_ok es' done' p' ->
  (forall cmd, es' !! k = Some (mkEntry cmd None) -> owner p' = Some k) ->
  (Z.of_nat (size es') <= control_limit)%Z -> NoDup done' -> is_Some (es' !! k) ->
  (forall cmd r, es' !! k = Some (mkEntry cmd (Some r)) -> k ∈ done') ->
  control_ok (mkControl w es' (<[i := p']> (callers c)) done').
Proof.
  intros [Hz Hn Ha Hc H1 Hw Hr] Hi Hg Hfr Hp Hp' Hok Hown Hz' Hn' Hk Hr'.
  pose proof (lookup_lt_Some _ _ _ Hi) as Hlt. split; simpl; try done.
  - intros k' Hk'. destruct (decide (k' = k)) as [->|Hne]; [done|].
    destruct (gr_others _ _ _ _ _ Hg _ Hne) as [-> Hd]. by apply Ha, Hd.
  - intros j q [(<- & -> & _)|[Hne Hj]]%list_lookup_insert_Some; [done|].
    apply (caller_ok_grows k (entries c) (applied c)); eauto. intros Hq. by apply Hne; rewrite (Hfr _ _ Hj Hq).
  - intros j1 j2 q1 q2 k' [(<- & -> & _)|[Hne1 Hj1]]%list_lookup_insert_Some
      [(<- & -> & _)|[Hne2 Hj2]]%list_lookup_insert_Some Hq1 Hq2; [done| | |by eapply H1].
    + symmetry. apply (Hfr _ q2); [done|]. destruct Hp'; congruence.
    + apply (Hfr _ q1); [done|]. destruct Hp'; congruence.
  - intros k' cmd He. destruct (decide (k' = k)) as [->|Hne].
    + exists i, p'. rewrite list_lookup_insert_eq by done. eauto.
    + destruct (gr_others _ _ _ _ _ Hg _ Hne) as [Heq _]. rewrite Heq in He.
      destruct (Hw _ _ He) as (j & q & Hj & Hq). exists j, q.
      rewrite list_lookup_insert_ne; [done|]. intros <-. destruct Hp; congruence.
  - intros k' cmd r He. destruct (decide (k' = k)) as [->|Hne]; [by eapply Hr'|].
    destruct (gr_others _ _ _ _ _ Hg _ Hne) as [Heq Hd]. rewrite Heq in He. by eapply Hd, Hr.
Qed.

(** A step of call [i] that leaves the entries. *)
Lemma step_caller c i p p' :
  control_ok c -> callers c !! i = Some p -> owner p = None -> owner p' = None ->
  caller_ok (entries c) (applied c) p' -> control_ok (moved i p' c).
Proof.
  intros [Hz Hn Ha Hc H1 Hw Hr] Hi Hp Hp' Hok.
  destruct c. split; simpl in *; try done.
  - intros j q [(<- & -> & _)|[_ Hj]]%list_lookup_insert_Some; eauto.
  - intros j1 j2 q1 q2 k' [(<- & -> & _)|[_ Hj1]]%list_lookup_insert_Some
      [(<- & -> & _)|[_ Hj2]]%list_lookup_insert_Some Hq1 Hq2; [congruence..|by eapply H1].
  - intros k cmd He. destruct (Hw _ _ He) as (j & q & Hj & Hq). exists j, q.
    rewrite list_lookup_insert_ne; [done|]. intros <-. congruence.
Qed.

Lemma owned_entry c i p k :
  control_ok c -> callers c !! i = Some p -> owner p = Some k ->
  exists cmd, entries c !! k = Some (mkEntry cmd None).
Proof.
  intros H Hi Hp. pose proof (co_callers _ H _ _ Hi) as Hok.
  destruct p; simpl in *; simplify_eq; destruct Hok; eauto.
Qed.

Lemma controlResult_nonzero now cmd status code :
  status <> "" -> controlResult metadata now cmd status code <> zeroResult.
Proof. intros H E. apply H. by injection E. Qed.

Lemma lookup_ok c i now cmd found es :
  control_ok c -> callers c !! i = Some (Checked cmd) ->
  controlEntry metadata capacity now cmd (entries c) = (found, es) ->
  control_ok (moved i (Execute_entry cmd found) (c <| @entries W := es |>)).
Proof.
  intros H Hi. destruct c as [w0 es0 cs ap]. unfold controlEntry. fold control_limit. simpl in *.
  destruct (es0 !! IdempotencyKey cmd) as [e|] eqn:He.
  - case_bool_decide as Hc; intros [= <- <-]; unfold Execute_entry.
    + rewrite bool_decide_false by (intros E; by apply E).
      destruct e as [cmd' r]. simpl in Hc. subst cmd'. apply (step_caller (mkControl w0 es0 cs ap) i (Checked cmd)); try done. by exists r.
    + rewrite bool_decide_true by (by apply controlResult_nonzero).
      apply (step_caller (mkControl w0 es0 cs ap) i (Checked cmd)); try done. intros _. right; left. eauto.
  - destruct (Z.leb_spec control_limit (Z.of_nat (size es0))); intros [= <- <-];
      unfold Execute_entry.
    + rewrite bool_decide_true by (by apply controlResult_nonzero).
      apply (step_caller (mkControl w0 es0 cs ap) i (Checked cmd)); try done. intros _. by right; right.
    + rewrite bool_decide_false by (intros E; by apply E).
      eapply (step_entry (mkControl w0 es0 cs ap) i _ _ (IdempotencyKey cmd)); simpl; try done; auto.
      * split; try done.
        -- intros k' ?. by rewrite lookup_insert_ne.
        -- intros ?? E. congruence.
        -- rewrite map_size_insert_None by done. lia.
      * intros j q Hj Hq. destruct (owned_entry _ _ _ _ H Hj Hq) as [? E]. simpl in E. congruence.
      * split; [apply lookup_insert_eq|]. intros [? E]%(co_applied _ H). simpl in E. congruence.
      * rewrite map_size_insert_None by done. lia.
      * apply (co_once _ H).
      * rewrite lookup_insert_eq. eauto.
      * intros ??. by rewrite lookup_insert_eq.
Qed.

Lemma apply_ok c i cmd r w :
  control_ok c -> callers c !! i = Some (Applying cmd) ->
  control_ok (moved i (Publishing cmd r)
    (c <| @world W := w |> <| @applied W := IdempotencyKey cmd :: applied c |>)).
Proof.
  intros H Hi. destruct (co_callers _ H _ _ Hi) as [He Hd]. destruct c as [w0 es0 cs ap].
  eapply (step_entry (mkControl w0 es0 cs ap) i _ _ (IdempotencyKey cmd)); simpl in *; try done; auto.
  - split; try done.
    + intros k' ?. split; [done|]. rewrite elem_of_cons. naive_solver.
    + eauto.
    + congruence.
  - intros j q Hj Hq. by apply (co_single _ H _ _ _ _ _ Hj Hi Hq).
  - split; [done|]. apply elem_of_cons. by left.
  - apply (co_size _ H).
  - constructor; [done|apply (co_once _ H)].
  - intros _ _ _. apply elem_of_cons. by left.
Qed.

Lemma publish_ok c i cmd r :
  control_ok c -> callers c !! i = Some (Publishing cmd r) ->
  control_ok (moved i (Returned cmd r ErrNil)
    (c <| @entries W := <[IdempotencyKey cmd := mkEntry cmd (Some r)]> (entries c) |>)).
Proof.
  intros H Hi. destruct (co_callers _ H _ _ Hi) as [He Hd].
  assert (size (<[IdempotencyKey cmd := mkEntry cmd (Some r)]> (entries c)) = size (entries c)) as Hz.
  { by apply map_size_insert_Some. }
  destruct c as [w0 es0 cs ap].
  eapply (step_entry (mkControl w0 es0 cs ap) i _ _ (IdempotencyKey cmd)); simpl in *; try done; auto.
  - split; try done.
    + intros k' ?. by rewrite lookup_insert_ne.
    + intros cmd' r' E. rewrite He in E. injection E as <- <-. rewrite lookup_insert_eq. eauto.
    + by rewrite Hz.
    + congruence.
  - intros j q Hj Hq. by apply (co_single _ H _ _ _ _ _ Hj Hi Hq).
  - intros _. left. by rewrite lookup_insert_eq.
  - intros cmd'. by rewrite lookup_insert_eq.
  - rewrite Hz. apply (co_size _ H).
  - apply (co_once _ H).
  - rewrite lookup_insert_eq. eauto.
Qed.

Lemma call_ok c p :
  control_ok c -> owner p = None -> caller_ok (entries c) (applied c) p ->
  control_ok (c <| @callers W := callers c ++ [p] |>).
Proof.
  intros [Hz Hn Ha Hc H1 Hw Hr] Hp Hok.
  destruct c. split; simpl in *; try done.
  - intros i q [?|[? Hq]]%lookup_app_Some; [by eauto|].
    apply list_lookup_singleton_Some in Hq as [_ <-]. done.
  - intros i j q1 q2 k [Hi|[? Hi]]%lookup_app_Some [Hj|[? Hj]]%lookup_app_Some Hq1 Hq2;
      [by eapply H1| | |]; apply list_lookup_singleton_Some in Hi || apply list_lookup_singleton_Some in Hj;
      naive_solver.
  - intros k cmd (i & q & Hi & Hq)%Hw. exists i, q. split; [by apply lookup_app_l_Some|done].
Qed.

Lemma Execute_checks_ok o cmd es done :
  owner (Execute_checks o cmd) = None /\ caller_ok es done (Execute_checks o cmd).
Proof.
  destruct (Execute_checks_law o cmd) as [->|(err & Herr & ->)]; split; try done. intros E. by destruct Herr.
Qed.

Lemma control_step_ok e c c' :
  control_ok c -> control_step metadata capacity e c = Some c' -> control_ok c'.
Proof.
  intros H. destruct e as [o cmd|i now|i now later|i|i|i err|w]; simpl.
  - intros [= <-]. destruct (Execute_checks_ok o cmd (entries c) (applied c)). by apply call_ok.
  - destruct (callers c !! i) as [[]|] eqn:Hi; try done.
    destruct (controlEntry _ _ _ _ _) eqn:E. intros [= <-]. by eapply lookup_ok.
  - destruct (callers c !! i) as [[]|] eqn:Hi; try done.
    destruct (Execute_apply _ _ _ _). intros [= <-]. by apply apply_ok.
  - destruct (callers c !! i) as [[]|] eqn:Hi; try done. intros [= <-]. by apply publish_ok.
  - destruct (callers c !! i) as [[| | |cmd|]|] eqn:Hi; try done.
    intros (r & Hb & [= <-])%bind_Some. apply bind_Some in Hb as (e & He & Hr). eapply step_caller; try done.
    intros _. left. destruct (co_callers _ H _ _ Hi) as [r' He']. rewrite He in He'.
    injection He' as ->. simpl in Hr. subst r'. split; [done|]. by apply (co_result _ H _ _ _ He).
  - destruct (callers c !! i) as [[| | |cmd|]|] eqn:Hi; try done.
    destruct (is_nil err) eqn:E; [done|]. intros [= <-]. eapply step_caller; try done.
    intros ->. done.
  - intros [= <-]. destruct c, H. by split.
Qed.

Lemma control_run_ok es c c' :
  control_ok c -> control_run metadata capacity es c = Some c' -> control_ok c'.
Proof.
  revert c. induction es as [|e es IH]; simpl; intros c H; [by intros [= <-]|].
  intros (c1 & Hs & Hr)%bind_Some. eapply IH; [|done]. by eapply control_step_ok.
Qed.

(** No calls, an empty cache. *)
Definition control_init (w : W) : control := mkControl w ∅ [] [].

Lemma control_init_ok w : control_ok (control_init w).
Proof.
  split; simpl; try done; [|constructor|set_solver].
  rewrite map_size_empty. unfold control_limit, defaultControlCapacity. case_test; lia.
Qed.

Lemma reachable_ok es w c :
  control_run metadata capacity es (control_init w) = Some c -> control_ok c.
Proof. apply control_run_ok, control_init_ok. Qed.

(** C6: Under any interleaving of concurrent calls, and whatever else changes the
    stores, a command is applied at most once per idempotency key and the cache never
    holds more keys than its limit. A call that returns without an error has the one
    result published for its key by the call that applied the very same command, or it
    is refused: another command holds its key, or the cache is full. *)
Theorem control_once es w c :
  control_run metadata capacity es (control_init w) = Some c ->
  NoDup (applied c) /\ (Z.of_nat (size (entries c)) <= control_limit)%Z /\
  forall i cmd r, callers c !! i = Some (Returned cmd r ErrNil) ->
    answered (entries c) (applied c) cmd r.
Proof.
  intros H%reachable_ok. split_and!; [apply (co_once _ H)|apply (co_size _ H)|].
  intros i cmd r Hi. by apply (co_callers _ H _ _ Hi).
Qed.

Lemma done_returns c i cmd r :
  callers c !! i = Some (Waiting cmd) -> entries c !! IdempotencyKey cmd = Some (mkEntry cmd (Some r)) ->
  exists c', control_step metadata capacity (Done i) c = Some c' /\
             callers c' !! i = Some (Returned cmd r ErrNil).
Proof.
  intros Hi He. destruct c as [w0 es0 cs ap]. simpl in *. rewrite Hi, He. eexists. split; [done|].
  apply list_lookup_insert_eq. by eapply lookup_lt_Some.
Qed.

Lemma publish_serves c i j cmd r :
  i <> j -> callers c !! j = Some (Publishing cmd r) -> callers c !! i = Some (Waiting cmd) ->
  exists c', control_run metadata capacity [Publish j; Done i] c = Some c' /\
             callers c' !! i = Some (Returned cmd r ErrNil).
Proof.
  intros Hne Hj Hi. destruct c as [w0 es0 cs ap]. simpl in *. rewrite Hj. simpl.
  rewrite list_lookup_insert_ne, Hi, lookup_insert_eq by done. eexists. split; [done|].
  apply list_lookup_insert_eq. rewrite length_insert. by eapply lookup_lt_Some.
Qed.

(** No duplicate waits for nobody. Whenever a call waits for a result, the result is
    published, or the call that owns the entry can still apply and publish it; at most
    three steps later the waiting call returns that result without an error. *)
Theorem control_progress es w c i cmd :
  control_run metadata capacity es (control_init w) = Some c ->
  callers c !! i = Some (Waiting cmd) ->
  exists more c' r, (length more <= 3)%nat /\
    control_run metadata capacity more c = Some c' /\
    callers c' !! i = Some (Returned cmd r ErrNil).
Proof.
  intros H%reachable_ok Hi. destruct (co_callers _ H _ _ Hi) as [[r|] He].
  { destruct (done_returns c i cmd r Hi He) as (c' & Hs & Hc). exists [Done i], c', r.
    cbn [control_run]. rewrite Hs. split_and!; [simpl; lia|done..]. }
  destruct (co_owned _ H _ _ He) as (j & p & Hj & Hp).
  assert (i <> j) as Hne by (intros <-; rewrite Hi in Hj; by simplify_eq).
  pose proof (co_callers _ H _ _ Hj) as Hok.
  destruct p as [|cmd'|cmd' r| |]; simpl in Hp, Hok; try discriminate Hp; destruct Hok as [He' _];
    injection Hp as Hk; rewrite Hk, He in He'; injection He' as <-.
  - destruct (control_step metadata capacity (Apply j zeroTime zeroTime) c) as [c1|] eqn:E1;
      [|simpl in E1; rewrite Hj in E1; by destruct (Execute_apply _ _ _ _)].
    pose proof E1 as E2. simpl in E2. rewrite Hj in E2.
    destruct (Execute_apply _ _ _ _) as [r w']. injection E2 as E2.
    destruct (publish_serves c1 i j cmd r Hne) as (c' & Hr & Hc).
    + subst c1. destruct c. simpl. apply list_lookup_insert_eq. by eapply lookup_lt_Some.
    + subst c1. destruct c. simpl. by rewrite list_lookup_insert_ne.
    + exists [Apply j zeroTime zeroTime; Publish j; Done i], c', r.
      split_and!; [done| |done]. cbn [control_run] in Hr |- *. by rewrite E1.
  - destruct (publish_serves c i j cmd r Hne Hj Hi) as (c' & ? & ?).
    exists [Publish j; Done i], c', r. split_and!; [simpl; lia|done..].
Qed.
End cache.

