(* ===== verification/ValkeyControl.v ===== *)
(** Management mutations of the Valkey worker (valkeystream/control.go): retry, bulk
    retry, delete, purge and replay of stored records, as the backend
    of the command cache. *)

From S2P Require Import Prelude GoStd Sentinels Contract Control Failure Job Status Codec Records Stream.
From S2P Require Import Server Scripts Valkey ValkeyOptions ValkeyWorker ControlCache.

Definition ErrManagementControlDisabled : error := Sentinel "valkeystream: management control disabled".

(** [nativeMutationTransport]. *)
Class MutationTransport (W : Type) := {
  T_RetryRecord : string -> string -> string -> string -> string -> bool -> io W (error + string);
  T_ReplayRecord : string -> string -> string -> string -> io W (error + string);
  T_DeleteRecord : string -> string -> io W (error + bool);
  T_PurgeRecords : string -> io W error;
  T_ReadRecords : string -> io W (error + list nativeRecord)
}.

Section control.
Context {W : Type} `{!MutationTransport W} (opts : options).
(** [opts.management], which [Execute] has checked to be present. *)
Context (metadata : StatusMetadata).

Definition recordStream (kind : string) : string :=
  if kind == TargetDeadLetter then O_deadLetterStream opts else O_failureStream opts.

(** * Mutations: the status and failure code of each *)

Definition retry_record (kind id : string) : io W (error + string) :=
  T_RetryRecord (recordStream kind) id (O_stream opts) (O_stream opts) (O_group opts)
    (kind == TargetFailure).

Definition retryNativeRecord (command : Command) : io W (string * string) :=
  outcome ← retry_record (Kind (Command_Target command)) (Name (Command_Target command));
  mret match outcome with
       | inl _ => (CommandUnknown, "")
       | inr outcome =>
           if outcome == "ok" then (CommandAcknowledged, "")
           else if outcome == "not_found" then (CommandRejected, "record_not_found")
           else if outcome == "stale" then (CommandRejected, "source_record_stale")
           else if outcome == "malformed" then (CommandFailed, "record_malformed")
           else if outcome == "capacity" then (CommandRejected, "queue_capacity")
           else (CommandUnknown, "")
       end.

(** The loop over the selected records, from [index]. *)
Fixpoint bulk_loop (kind : string) (index : nat) (records : list nativeRecord) : io W (string * string) :=
  match records with
  | [] => mret (CommandAcknowledged, "")
  | record :: records =>
      outcome ← retry_record kind (N_ID record);
      match outcome with
      | inl _ => mret (if (index =? 0)%nat then (CommandUnknown, "")
                       else (CommandPartial, "bulk_enqueue_unknown"))
      | inr outcome =>
          if outcome == "capacity"
          then mret (if (index =? 0)%nat then CommandRejected else CommandPartial, "queue_capacity")
          else if outcome != "ok" then mret (CommandPartial, "bulk_record_unavailable")
          else bulk_loop kind (S index) records
      end
  end.

(** [command.Selection] is present: validation requires it for a bulk retry. *)
Definition bulkRetryNativeRecords (command : Command) : io W (string * string) :=
  let kind := Kind (Command_Target command) in
  records ← T_ReadRecords (recordStream kind);
  match records with
  | inl _ => mret (CommandFailed, "records_unavailable")
  | inr records =>
      let selected := match Command_Selection command with Some s => Limit s | None => 0%Z end in
      let limit := Z.to_nat (Z.min (zlen records) selected) in
      bulk_loop kind 0 (take limit records)
  end.

Definition deleteNativeRecord (command : Command) : io W (string * string) :=
  deleted ← T_DeleteRecord (recordStream (Kind (Command_Target command))) (Name (Command_Target command));
  mret match deleted with
       | inl _ => (CommandUnknown, "")
       | inr true => (CommandAcknowledged, "")
       | inr false => (CommandRejected, "record_not_found")
       end.

Definition replayNativeRecord (command : Command) : io W (string * string) :=
  if bool_decide (O_replayDestinations opts = ∅) then mret (CommandUnsupported, "unsupported_action")
  else
    (* validation requires [command.Replay] for a replay *)
    let '(destination, policy) :=
      match Replay command with Some r => (Destination r, IdempotencyPolicy r) | None => ("", "") end in
    if negb (bool_decide (destination ∈ O_replayDestinations opts))
    then mret (CommandRejected, "destination_not_allowed")
    else
      outcome ← T_ReplayRecord (recordStream (Kind (Command_Target command)))
                  (Name (Command_Target command)) destination policy;
      mret match outcome with
           | inl _ => (CommandUnknown, "")
           | inr outcome =>
               if outcome == "ok" then (CommandAcknowledged, "")
               else if outcome == "not_found" then (CommandRejected, "record_not_found")
               else if outcome == "malformed" then (CommandFailed, "record_malformed")
               else if outcome == "duplicate" then (CommandRejected, "replay_duplicate")
               else if outcome == "capacity" then (CommandRejected, "queue_capacity")
               else (CommandUnknown, "")
           end.

(** [now] is the clock before the mutation, [later] the clock of its result. *)
Definition executeNativeCommand (now later : Time) (command : Command) : io W CommandResult :=
  let result '(status, code) := controlResult metadata later command status code in
  if negb (version_eqb (Protocol command) (M_Protocol metadata))
  then mret (result (CommandUnsupported, "protocol_mismatch"))
  else if negb (After (Deadline command) (UTC now))
  then mret (result (CommandTimedOut, "deadline_exceeded"))
  else if Action command == CommandRetry then r ← retryNativeRecord command; mret (result r)
  else if Action command == CommandBulkRetry then r ← bulkRetryNativeRecords command; mret (result r)
  else if Action command == CommandDelete then r ← deleteNativeRecord command; mret (result r)
  else if Action command == CommandPurge then
    if Kind (Command_Target command) == TargetQueue
    then mret (result (CommandUnsupported, "unsupported_action"))
    else
      err ← T_PurgeRecords (recordStream (Kind (Command_Target command)));
      mret (if negb (is_nil err) then result (CommandUnknown, "") else result (CommandAcknowledged, ""))
  else if Action command == CommandReplay then r ← replayNativeRecord command; mret (result r)
  else mret (result (CommandUnsupported, "unsupported_action")).

(** [Execute] before [controlEntry]; [mutations] tells whether the transport has them. *)
Definition Execute_begin (mutations : bool) (ctx_err : error) (command : Command) : caller :=
  if bool_decide (O_management opts = None)
  then Returned command zeroResult ErrManagementControlDisabled
  else if negb (is_nil (Command_Validate command))
  then Returned command zeroResult (Command_Validate command)
  else if negb (is_nil ctx_err) then Returned command zeroResult ctx_err
  else if negb mutations then Returned command zeroResult ErrManagementControlDisabled
  else Checked command.

Lemma Execute_begin_cases mutations ctx_err command :
  Execute_begin mutations ctx_err command = Checked command \/
  exists err, err <> ErrNil /\ Execute_begin mutations ctx_err command = Returned command zeroResult err.
Proof.
  unfold Execute_begin. repeat case_test; auto; right; eexists; (split; [|done]); try done.
  all: intros Hn; by rewrite Hn in *.
Qed.

(** The worker as a backend of the cache. *)
Definition control_backend : ControlBackend W := {|
  observation := bool * error;
  Execute_checks o := Execute_begin o.1 o.2;
  Execute_apply := executeNativeCommand;
  Execute_checks_law o command := Execute_begin_cases o.1 o.2 command
|}.
End control.

Definition nativeTransport_MutationTransport {W} `{!commandClient W} (t : nativeTransport)
  : MutationTransport W := {|
  T_RetryRecord := RetryRecord t;
  T_ReplayRecord := ReplayRecord t;
  T_DeleteRecord := DeleteRecord;
  T_PurgeRecords := PurgeRecords;
  T_ReadRecords := ReadRecords t
|}.
