(* ===== verification/ValkeyControlSafety.v ===== *)
(** Theorems on the bulk retry of the Valkey worker, and the Valkey worker as a backend
    of the command cache in a concrete run. *)
From S2P Require Import Prelude GoStd Sentinels Contract Control Failure Job Status Codec Records Stream.
From S2P Require Import Server Scripts Valkey ValkeyOptions ValkeyWorker ControlCache ValkeyControl.

(** * Bulk retry *)

Section bulk.
Context {W : Type} `{!MutationTransport W} (opts : options).

(** The records [ids] are retried one after the other, each with success. *)
Fixpoint retried (kind : string) (ids : list string) (w w' : W) : Prop :=
  match ids with
  | [] => w' = w
  | id :: ids => exists w1, retry_record opts kind id w = (inr "ok", w1) /\ retried kind ids w1 w'
  end.

(** How far a bulk retry of [records] got: [n] of them succeeded, ending in [w1]. *)
Definition bulk_progress (kind : string) (index : nat) (records : list nativeRecord) (w : W)
    (status : string) (w' : W) : Prop :=
  exists n w1, retried kind (N_ID <$> take n records) w w1 /\
    ((n = length records /\ status = CommandAcknowledged /\ w' = w1) \/
     (exists record answer, records !! n = Some record /\
        retry_record opts kind (N_ID record) w1 = (answer, w') /\ answer <> inr "ok" /\
        status <> CommandAcknowledged /\ ((0 < index + n)%nat -> status = CommandPartial))).

Lemma bulk_loop_cons kind index record records w answer w1 :
  retry_record opts kind (N_ID record) w = (answer, w1) ->
  bulk_loop opts kind index (record :: records) w =
  match answer with
  | inl _ => ((if (index =? 0)%nat then (CommandUnknown, "") else (CommandPartial, "bulk_enqueue_unknown")), w1)
  | inr o =>
      if o == "capacity"
      then ((if (index =? 0)%nat then CommandRejected else CommandPartial, "queue_capacity"), w1)
      else if o != "ok" then ((CommandPartial, "bulk_record_unavailable"), w1)
      else bulk_loop opts kind (S index) records w1
  end.
Proof.
  intros Hr. cbn [bulk_loop]. unfold mbind, io_bind. rewrite Hr. destruct answer as [|o]; [done|].
  by destruct (o == "capacity"), (o != "ok").
Qed.

Lemma bulk_loop_stops kind index record records w answer w1 status code w' :
  retry_record opts kind (N_ID record) w = (answer, w1) -> answer <> inr "ok" ->
  bulk_loop opts kind index (record :: records) w = ((status, code), w') ->
  bulk_progress kind index (record :: records) w status w'.
Proof.
  intros Hr Hne Hb. exists 0%nat, w. split; [done|]. right. exists record, answer.
  rewrite (bulk_loop_cons _ _ _ _ _ _ _ Hr) in Hb.
  assert (w' = w1 /\ status <> CommandAcknowledged /\
          ((0 < index + 0)%nat -> status = CommandPartial)) as (-> & ? & ?); [|by split_and!].
  destruct answer as [err|o]; [|destruct (o == "capacity"); [|destruct (o != "ok") eqn:E]].
  1,2: destruct index; injection Hb as <- _ <-; split_and!; try done; simpl; lia.
  - by injection Hb as <- _ <-.
  - apply negb_false_iff, String.eqb_eq in E. congruence.
Qed.

Lemma bulk_loop_progress kind index records w status code w' :
  bulk_loop opts kind index records w = ((status, code), w') ->
  bulk_progress kind index records w status w'.
Proof.
  revert index w. induction records as [|record records IH]; intros index w Hb.
  { cbn in Hb. injection Hb as <- _ <-. exists 0%nat, w. split; [done|]. by left. }
  destruct (retry_record opts kind (N_ID record) w) as [answer w1] eqn:Hr.
  assert (answer = inr "ok" \/ answer <> inr "ok") as [->|Hne].
  { destruct answer as [|o]; [by right|]. destruct (decide (o = "ok")); naive_solver congruence. }
  - rewrite (bulk_loop_cons _ _ _ _ _ _ _ Hr) in Hb. simpl in Hb.
    destruct (IH _ _ Hb) as (n & w2 & Hd & Hn). exists (S n), w2. split; [by exists w1|].
    destruct Hn as [(-> & ? & ?)|(r & a & ? & ? & ? & ? & Hp)]; [by left|].
    right. exists r, a. split_and!; try done. intros _. apply Hp. lia.
  - eapply bulk_loop_stops; eauto.
Qed.

(** What a bulk retry has done on each of its answers. The selection is a prefix of
    the stored records, no longer than the requested limit, and they are retried in
    order up to the first that does not succeed. Acknowledged means that every selected
    record was retried with success; once one record was retried and a later one was
    not, the answer is partial, never rejected, failed or unknown. *)
Theorem bulk_exact command w status code w' :
  bulkRetryNativeRecords opts command w = ((status, code), w') ->
  let kind := Kind (Command_Target command) in
  let limit := match Command_Selection command with Some s => Limit s | None => 0%Z end in
  (exists err, T_ReadRecords (recordStream opts kind) w = (inl err, w') /\ status = CommandFailed) \/
  (exists records w0 selected, T_ReadRecords (recordStream opts kind) w = (inr records, w0) /\
     selected `prefix_of` records /\
     length selected = Z.to_nat (Z.min (zlen records) limit) /\
     bulk_progress kind 0 selected w0 status w').
Proof.
  intros Hb kind limit. unfold bulkRetryNativeRecords, mbind, io_bind in Hb. fold kind limit in Hb.
  destruct (T_ReadRecords (recordStream opts kind) w) as [[err|records] w0].
  { injection Hb as <- _ <-. left. by exists err. }
  right. eexists records, w0, _. split_and!; [done|apply prefix_take| |by eapply bulk_loop_progress].
  rewrite length_take. unfold zlen. lia.
Qed.
End bulk.

(** * A concrete store

    Two stored failures; the world is the answers still to be given to retries. *)
Module SampleControl.

Definition record (id : string) : nativeRecord := mkNativeRecord id "1-0" "job" 1 zeroTime 0 "" "" "" "" "" "" 0.

#[global] Instance store : MutationTransport (list string) := {|
  T_RetryRecord _ _ _ _ _ _ w := (inr (default "ok" (head w)), tail w);
  T_ReplayRecord _ _ _ _ w := (inr "ok", w);
  T_DeleteRecord _ _ w := (inr true, w);
  T_PurgeRecords _ w := (ErrNil, w);
  T_ReadRecords _ w := (inr [record "1-0"; record "2-0"], w)
|}.

Definition metadata : StatusMetadata := mkStatusMetadata "worker-1" "v1" 4 (mkVersion 1 0).
Definition opts : options := (default_options "worker-1") <| O_management := Some metadata |>.

#[global] Instance backend : ControlBackend (list string) := control_backend opts metadata.

(** A bulk retry of up to two failures. *)
Definition command (id : string) : Command :=
  mkCommand id "key-1" "operator" "incident" (mkVersion 1 0) CommandBulkRetry
    (mkTarget TargetFailure "jobs") (mkTime 100 None 0) (mkTime 200 None 0) true
    (Some (mkSelection 2)) None.

(** Two callers send the command twice, a third reuses its key for another one. *)
Definition events : list (control_event (W := list string)) :=
  [Call (true, ErrNil) (command "a"); Call (true, ErrNil) (command "a"); Call (true, ErrNil) (command "b");
   Lookup 0 (mkTime 110 None 0); Lookup 1 (mkTime 111 None 0); Lookup 2 (mkTime 112 None 0)].

Definition finished : list (control_event (W := list string)) :=
  events ++ [Apply 0 (mkTime 113 None 0) (mkTime 114 None 0); Publish 0; Done 1].

Definition reached (es : list (control_event (W := list string))) : option (control (W := list string)) :=
  control_run metadata 0 es (control_init ["ok"; "capacity"]).

End SampleControl.

Lemma control_once_witness :
  match SampleControl.reached SampleControl.finished with
  | Some c => NoDup (applied c) /\ applied c = ["key-1"] /\
      (exists r, callers c !! 0%nat = Some (Returned (SampleControl.command "a") r ErrNil) /\
                 callers c !! 1%nat = Some (Returned (SampleControl.command "a") r ErrNil) /\
                 Status r = CommandPartial)
  | None => False
  end.
Proof.
  destruct (SampleControl.reached SampleControl.finished) as [c|] eqn:E.
  - split; [exact (proj1 (control_once _ _ _ _ _ E))|].
    vm_compute in E. injection E as <-. split; [reflexivity|]. eexists. split; [reflexivity|].
    split; reflexivity.
  - vm_compute in E. discriminate.
Defined.

Lemma control_progress_witness :
  match SampleControl.reached SampleControl.events with
  | Some c => exists more c' r, (length more <= 3)%nat /\
      control_run SampleControl.metadata 0 more c = Some c' /\
      callers c' !! 1%nat = Some (Returned (SampleControl.command "a") r ErrNil)
  | None => False
  end.
Proof.
  destruct (SampleControl.reached SampleControl.events) as [c|] eqn:E.
  - apply (control_progress _ _ _ _ c 1%nat (SampleControl.command "a") E).
    vm_compute in E. injection E as <-. reflexivity.
  - vm_compute in E. discriminate.
Defined.

Lemma bulk_exact_witness :
  bulk_progress SampleControl.opts TargetFailure 0 [SampleControl.record "1-0"; SampleControl.record "2-0"]
    ["ok"; "capacity"] CommandPartial [].
Proof.
  destruct (bulk_exact (MutationTransport0 := SampleControl.store) SampleControl.opts (SampleControl.command "a") ["ok"; "capacity"]
              CommandPartial "queue_capacity" [] ltac:(vm_compute; reflexivity))
    as [(err & H & _)|(records & w0 & selected & H & [rest Hp] & Hl & Hb)]; [discriminate H|].
  injection H as <- <-. simpl in Hl. destruct selected as [|a [|b [|]]]; try discriminate Hl.
  injection Hp as <- <- _. exact Hb.
Defined.
