(* ===== verification/Wire.v ===== *)
(** The wire types of the management HTTP boundary (managementhttp/status.go, control.go
    and records.go) and the conversions to and from the management contracts. *)

From S2P Require Import Prelude GoStd Sentinels Contract Control Failure Job Status Records.

(** * Commands *)

Record protocolVersion := mkWireVersion { PV_Major : Z; PV_Minor : Z }.
Record commandTarget := mkWireTarget { CT_Kind : string; CT_Name : string }.
Record commandSelection := mkWireSelection { CS_Limit : Z }.
Record commandReplay := mkWireReplay { CR_Destination : string; CR_IdempotencyPolicy : string }.

Record command := mkWireCommand {
  C_ID : string;
  C_IdempotencyKey : string;
  C_Actor : string;
  C_Reason : string;
  C_Protocol : protocolVersion;
  C_Action : string;
  C_Target : commandTarget;
  C_RequestedAt : Time;
  C_Deadline : Time;
  C_Confirmed : bool;
  C_Selection : option commandSelection;
  C_Replay : option commandReplay
}.

Record commandResult := mkWireResult {
  CE_CommandID : string;
  CE_IdempotencyKey : string;
  CE_WorkerID : string;
  CE_Protocol : protocolVersion;
  CE_Status : string;
  CE_FailureCode : string;
  CE_CompletedAt : Time
}.

Definition wire_version (v : ProtocolVersion) : protocolVersion := mkWireVersion (Major v) (Minor v).
Definition management_version (v : protocolVersion) : ProtocolVersion :=
  mkVersion (PV_Major v) (PV_Minor v).

Definition transportCommand (value : Command) : command :=
  mkWireCommand (ID value) (IdempotencyKey value) (Actor value) (Reason value)
    (wire_version (Protocol value)) (Action value)
    (mkWireTarget (Kind (Command_Target value)) (Name (Command_Target value)))
    (RequestedAt value) (Deadline value) (Confirmed value)
    ((fun s => mkWireSelection (Limit s)) <$> Command_Selection value)
    ((fun r => mkWireReplay (Destination r) (IdempotencyPolicy r)) <$> Replay value).

Definition managementCommand (value : command) : Command :=
  mkCommand (C_ID value) (C_IdempotencyKey value) (C_Actor value) (C_Reason value)
    (management_version (C_Protocol value)) (C_Action value)
    (mkTarget (CT_Kind (C_Target value)) (CT_Name (C_Target value)))
    (C_RequestedAt value) (C_Deadline value) (C_Confirmed value)
    ((fun s => mkSelection (CS_Limit s)) <$> C_Selection value)
    ((fun r => mkReplay (CR_Destination r) (CR_IdempotencyPolicy r)) <$> C_Replay value).

Definition transportCommandResult (value : CommandResult) : commandResult :=
  mkWireResult (CommandID value) (Result_IdempotencyKey value) (WorkerID value)
    (wire_version (Result_Protocol value)) (Control.Status value) (FailureCode value) (CompletedAt value).

Definition managementCommandResult (value : commandResult) : CommandResult :=
  mkResult (CE_CommandID value) (CE_IdempotencyKey value) (CE_WorkerID value)
    (management_version (CE_Protocol value)) (CE_Status value) (CE_FailureCode value)
    (CE_CompletedAt value).

Definition matchingResult (command : Command) (result : CommandResult) : bool :=
  (ID command == CommandID result) && (IdempotencyKey command == Result_IdempotencyKey result).

(** * Status *)

Record workerStatus := mkWireWorker {
  WW_ID : string;
  WW_Version : string;
  WW_StartedAt : Time;
  WW_HeartbeatAt : Time;
  WW_Queues : list string;
  WW_Concurrency : Z;
  WW_State : string;
  WW_CurrentJobs : Z;
  WW_DrainStatus : string;
  WW_Backend : string;
  WW_Protocol : protocolVersion;
  WW_Capabilities : list string
}.
Record workerStatusPage := mkWireWorkerPage { WP_Items : list workerStatus; WP_NextCursor : string }.

Record measurement (T : Type) := mkWireMeasurement { MM_Value : T; MM_Supported : bool }.
Arguments mkWireMeasurement {T} _ _.
Arguments MM_Value {T} _.
Arguments MM_Supported {T} _.

Record queueMetrics := mkWireMetrics {
  QM_Depth : measurement Z;
  QM_Lag : measurement Z;
  QM_Pending : measurement Z;
  QM_OldestAge : measurement Z;
  QM_Throughput : measurement float64;
  QM_Runtime : measurement Z;
  QM_Succeeded : measurement Z;
  QM_Failed : measurement Z;
  QM_Retried : measurement Z;
  QM_Reclaimed : measurement Z;
  QM_DeadLettered : measurement Z;
  QM_SettlementErrors : measurement Z
}.
Record queueStatus := mkWireQueue {
  WQ_Backend : string;
  WQ_Queue : string;
  WQ_ObservedAt : Time;
  WQ_Metrics : queueMetrics
}.
Record queueStatusPage := mkWireQueuePage { QP_Items : list queueStatus; QP_NextCursor : string }.

Definition measured {T} (value : Measurement T) : measurement T :=
  mkWireMeasurement (Value value) (Supported value).
Definition managementMeasured {T} (value : measurement T) : Measurement T :=
  mkMeasurement (MM_Value value) (MM_Supported value).

Definition transportQueueMetrics (m : QueueMetrics) : queueMetrics :=
  mkWireMetrics (measured (Depth m)) (measured (Lag m)) (measured (Pending m))
    (measured (OldestAge m)) (measured (Throughput m)) (measured (Runtime m))
    (measured (Succeeded m)) (measured (Failed m)) (measured (Retried m))
    (measured (Reclaimed m)) (measured (DeadLettered m)) (measured (SettlementErrors m)).
Definition managementQueueMetrics (m : queueMetrics) : QueueMetrics :=
  mkMetrics (managementMeasured (QM_Depth m)) (managementMeasured (QM_Lag m))
    (managementMeasured (QM_Pending m)) (managementMeasured (QM_OldestAge m))
    (managementMeasured (QM_Throughput m)) (managementMeasured (QM_Runtime m))
    (managementMeasured (QM_Succeeded m)) (managementMeasured (QM_Failed m))
    (managementMeasured (QM_Retried m)) (managementMeasured (QM_Reclaimed m))
    (managementMeasured (QM_DeadLettered m)) (managementMeasured (QM_SettlementErrors m)).

Definition transportWorkerPage (page : WorkerStatusPage) : workerStatusPage :=
  mkWireWorkerPage
    ((fun item => mkWireWorker (W_ID item) (W_Version item) (StartedAt item) (HeartbeatAt item)
        (Queues item) (Concurrency item) (State item) (CurrentJobs item) (DrainStatus item)
        (W_Backend item) (wire_version (W_Protocol item)) (Capabilities item)) <$> W_Items page)
    (W_NextCursor page).
Definition managementWorkerPage (page : workerStatusPage) : WorkerStatusPage :=
  mkWorkerPage
    ((fun item => mkWorkerStatus (WW_ID item) (WW_Version item) (WW_StartedAt item)
        (WW_HeartbeatAt item) (WW_Queues item) (WW_Concurrency item) (WW_State item)
        (WW_CurrentJobs item) (WW_DrainStatus item) (WW_Backend item)
        (management_version (WW_Protocol item)) (WW_Capabilities item)) <$> WP_Items page)
    (WP_NextCursor page).

Definition transportQueuePage (page : QueueStatusPage) : queueStatusPage :=
  mkWireQueuePage
    ((fun item => mkWireQueue (Q_Backend item) (Q_Queue item) (ObservedAt item)
        (transportQueueMetrics (Metrics item))) <$> Q_Items page) (Q_NextCursor page).
Definition managementQueuePage (page : queueStatusPage) : QueueStatusPage :=
  mkQueuePage
    ((fun item => mkQueueStatus (WQ_Backend item) (WQ_Queue item) (WQ_ObservedAt item)
        (managementQueueMetrics (WQ_Metrics item))) <$> QP_Items page) (QP_NextCursor page).

(** * Records *)

Definition wirePayloadHidden : string := "hidden".

Record recordPayload := mkWirePayload {
  Y_Visibility : string; Y_ContentType : string; Y_Size : Z; Y_Data : string
}.

(** A nil map and a nil pointer are [None]. *)
Record jobRecord := mkWireRecord {
  J_Kind : string;
  J_ID : string;
  J_Backend : string;
  J_Queue : string;
  J_OccurredAt : Time;
  J_Attempts : Z;
  J_FailureCode : string;
  J_Payload : recordPayload;
  J_EnvelopeVersion : Z;
  J_PayloadSchemaVersion : string;
  J_OriginalID : string;
  J_Topic : string;
  J_Stream : string;
  J_RoutingKey : string;
  J_ConsumerGroup : string;
  J_SourceRecordID : string;
  J_EnqueuedAt : option Time;
  J_FirstDeliveryAt : option Time;
  J_LastDeliveryAt : option Time;
  J_DeadLetteredAt : option Time;
  J_RetryPolicy : string;
  J_Classification : string;
  J_FailureSummary : string;
  J_Diagnostics : option recordPayload;
  J_HandlerType : string;
  J_JobType : string;
  J_Tags : option (gmap string string);
  J_TraceID : string;
  J_TenantID : string;
  J_ProducerVersion : string;
  J_WorkerVersion : string;
  J_OriginalDeadLetterID : string;
  J_PriorDeadLetterID : string;
  J_ReplayGeneration : Z;
  J_RetentionDeadline : option Time
}.

Record recordPage := mkWireRecordPage { JP_Items : list jobRecord; JP_NextCursor : string }.

Definition wireVisibility (visibility : string) : string :=
  if visibility == PayloadHidden then wirePayloadHidden else visibility.
Definition managementVisibility (visibility : string) : string :=
  if visibility == wirePayloadHidden then PayloadHidden else visibility.

Definition transportPayload (p : Payload) : recordPayload :=
  mkWirePayload (wireVisibility (P_Visibility p)) (P_ContentType p) (P_Size p) (P_Data p).
Definition transportDiagnostics (r : JobRecord) : option recordPayload :=
  let d := R_Diagnostics r in
  if (R_EnvelopeVersion r =? 0)%Z && (P_Visibility d == PayloadHidden) && (P_ContentType d == "") &&
     (P_Size d =? 0)%Z && (len (P_Data d) =? 0)%Z
  then None else Some (transportPayload d).
Definition managementPayload (p : option recordPayload) : Payload :=
  match p with
  | None => mkPayload "" "" 0 ""
  | Some p => mkPayload (managementVisibility (Y_Visibility p)) (Y_ContentType p) (Y_Size p) (Y_Data p)
  end.

(** The copies of [cloneTime] and [cloneTags] are equal to what they copy. *)
Definition transportRecord (r : JobRecord) : jobRecord :=
  mkWireRecord (R_Kind r) (R_ID r) (R_Backend r) (R_Queue r) (R_OccurredAt r) (R_Attempts r)
    (R_FailureCode r)
    (mkWirePayload (wireVisibility (P_Visibility (R_Payload r))) (P_ContentType (R_Payload r))
       (P_Size (R_Payload r)) (P_Data (R_Payload r)))
    (R_EnvelopeVersion r) (R_PayloadSchemaVersion r) (R_OriginalID r) (R_Topic r) (R_Stream r)
    (R_RoutingKey r) (R_ConsumerGroup r) (R_SourceRecordID r) (R_EnqueuedAt r)
    (R_FirstDeliveryAt r) (R_LastDeliveryAt r) (R_DeadLetteredAt r) (R_RetryPolicy r)
    (R_Classification r) (R_FailureSummary r) (transportDiagnostics r) (R_HandlerType r)
    (R_JobType r) (R_Tags r) (R_TraceID r) (R_TenantID r) (R_ProducerVersion r)
    (R_WorkerVersion r) (R_OriginalDeadLetterID r) (R_PriorDeadLetterID r)
    (R_ReplayGeneration r) (R_RetentionDeadline r).

Definition managementRecord (r : jobRecord) : JobRecord :=
  mkJobRecord (J_Kind r) (J_ID r) (J_Backend r) (J_Queue r) (J_OccurredAt r) (J_Attempts r)
    (J_FailureCode r)
    (mkPayload (managementVisibility (Y_Visibility (J_Payload r))) (Y_ContentType (J_Payload r))
       (Y_Size (J_Payload r)) (Y_Data (J_Payload r)))
    (J_EnvelopeVersion r) (J_PayloadSchemaVersion r) (J_OriginalID r) (J_Topic r) (J_Stream r)
    (J_RoutingKey r) (J_ConsumerGroup r) (J_SourceRecordID r) (J_EnqueuedAt r)
    (J_FirstDeliveryAt r) (J_LastDeliveryAt r) (J_DeadLetteredAt r) (J_RetryPolicy r)
    (J_Classification r) (J_FailureSummary r) (managementPayload (J_Diagnostics r))
    (J_HandlerType r) (J_JobType r) (J_Tags r) (J_TraceID r) (J_TenantID r)
    (J_ProducerVersion r) (J_WorkerVersion r) (J_OriginalDeadLetterID r)
    (J_PriorDeadLetterID r) (J_ReplayGeneration r) (J_RetentionDeadline r).

Definition transportRecordPage (page : RecordPage) : recordPage :=
  mkWireRecordPage (transportRecord <$> RP_Items page) (RP_NextCursor page).
Definition managementRecordPage (page : recordPage) : RecordPage :=
  mkRecordPage (managementRecord <$> JP_Items page) (JP_NextCursor page).

Definition hiddenRecordPage (page : RecordPage) : bool :=
  forallb (fun r => negb ((P_Visibility (R_Payload r) != PayloadHidden) ||
                          (P_Visibility (R_Diagnostics r) != PayloadHidden))) (RP_Items page).

Definition allowedVisibility (requested actual : string) : bool :=
  if requested == PayloadHidden then actual == PayloadHidden
  else if requested == PayloadRedacted then (actual == PayloadHidden) || (actual == PayloadRedacted)
  else if requested == PayloadRevealed then true
  else false.

(** * Problems *)

Definition recordProblem (err : error) : Z * string :=
  if Is err "management: record not found" then (404%Z, "record_not_found")
  else if Is err "management: unsupported capability" then (501%Z, "unsupported_capability")
  else if Is err "management: unavailable" then (503%Z, "management_unavailable")
  else if Is err "management: malformed cursor" then (400%Z, "malformed_cursor")
  else if Is err "management: invalid filter" then (400%Z, "invalid_filter")
  else if Is err "management: stale record" then (409%Z, "stale_record")
  else if Is err "management: mutation conflict" then (409%Z, "mutation_conflict")
  else if Is err "management: partial mutation" then (409%Z, "partial_mutation")
  else if Is err "management: unknown mutation outcome" then (503%Z, "unknown_mutation")
  else (500%Z, "internal_error").

Definition managementProblem (code : string) : error :=
  if code == "record_not_found" then ErrRecordNotFound
  else if code == "unsupported_capability" then ErrUnsupportedCapability
  else if code == "management_unavailable" then ErrManagementUnavailable
  else if code == "malformed_cursor" then ErrMalformedCursor
  else if code == "invalid_filter" then ErrInvalidFilter
  else if code == "stale_record" then ErrStaleRecord
  else if code == "mutation_conflict" then ErrMutationConflict
  else if code == "partial_mutation" then ErrPartialMutation
  else if code == "unknown_mutation" then ErrUnknownMutation
  else ErrNil.

(** * Round trips *)

Lemma managementCommand_transport c : managementCommand (transportCommand c) = c.
Proof. by destruct c as [?????? [] ??? [[]|] [[]|]], Protocol. Qed.

Lemma managementCommandResult_transport r : managementCommandResult (transportCommandResult r) = r.
Proof. by destruct r as [??? [] ???]. Qed.

Lemma measured_back {T} (m : Measurement T) : managementMeasured (measured m) = m.
Proof. by destruct m. Qed.

Lemma managementWorkerPage_transport p : managementWorkerPage (transportWorkerPage p) = p.
Proof.
  destruct p as [items next]. unfold managementWorkerPage, transportWorkerPage. simpl. f_equal.
  rewrite <-list_fmap_compose. apply fmap_same. by intros [?????????? [] ?].
Qed.

Lemma managementQueuePage_transport p : managementQueuePage (transportQueuePage p) = p.
Proof.
  destruct p as [items next]. unfold managementQueuePage, transportQueuePage. simpl. f_equal.
  rewrite <-list_fmap_compose. apply fmap_same. intros [??? []] _. simpl.
  unfold managementQueueMetrics, transportQueueMetrics. simpl. by rewrite !measured_back.
Qed.

Lemma managementVisibility_wire v : PayloadVisibility_valid v = true -> managementVisibility (wireVisibility v) = v.
Proof.
  unfold PayloadVisibility_valid. rewrite !orb_true_iff, !String.eqb_eq. by intros [[->| ->]| ->].
Qed.

(** A valid record survives the wire: hidden payloads are renamed and absent diagnostics
    are left out, and both come back. *)
Lemma diagnostics_back r :
  PayloadVisibility_valid (P_Visibility (R_Diagnostics r)) = true ->
  managementPayload (transportDiagnostics r) = R_Diagnostics r.
Proof.
  intros Hv. unfold transportDiagnostics. case_test.
  - rewrite !andb_true_iff, !String.eqb_eq, !Z.eqb_eq, len_zero in E.
    destruct (R_Diagnostics r) as [v t z d]. simpl in *. naive_solver.
  - simpl. rewrite managementVisibility_wire by done. by destruct (R_Diagnostics r).
Qed.

Lemma record_diagnostics_valid r :
  record_ok r -> PayloadVisibility_valid (P_Visibility (R_Diagnostics r)) = true.
Proof.
  intros []. destruct ro_version as [[_ H]|[_ H]].
  - unfold hasV1Metadata in H. rewrite !orb_false_iff, !negb_false_iff, !String.eqb_eq in H.
    assert (P_Visibility (R_Diagnostics r) = PayloadHidden) as -> by tauto. done.
  - apply H.
Qed.

Lemma managementRecord_transport r : record_ok r -> managementRecord (transportRecord r) = r.
Proof.
  intros Hr. unfold managementRecord, transportRecord. simpl.
  rewrite managementVisibility_wire by apply Hr.
  rewrite diagnostics_back by (by apply record_diagnostics_valid).
  by destruct r as [??????? []].
Qed.

Lemma managementRecordPage_transport p :
  Forall record_ok (RP_Items p) -> managementRecordPage (transportRecordPage p) = p.
Proof.
  intros H. destruct p as [items next]. unfold managementRecordPage, transportRecordPage. simpl in *.
  f_equal. rewrite <-list_fmap_compose. apply fmap_same. intros r Hr.
  apply managementRecord_transport. by eapply Forall_forall in H.
Qed.
