(* ===== verification/Http.v ===== *)
(** The management HTTP boundary (managementhttp/status.go, control.go, records.go): the
    handler of a worker and the client of an operator. The router, the parser of URLs
    and media types and the JSON codec belong to the Go standard library; the codec and
    the parsers are parameters. *)

From S2P Require Import Prelude GoStd Sentinels Contract Control Failure Job Status Records Codec Wire.

Definition defaultMaxResponseBytes : Z := 4194304.
Definition maxTokenBytes : Z := 4096.
Definition maxCommandRequestBytes : Z := 16384.

Definition ErrInvalidHTTPConfiguration : error := Sentinel "management HTTP: invalid configuration".
Definition ErrInvalidRequest : error := Sentinel "management HTTP: invalid request".
Definition ErrInvalidResponse : error := Sentinel "management HTTP: invalid response".
Definition ErrResponseTooLarge : error := Sentinel "management HTTP: response too large".
Definition ErrRemoteFailure : error := Sentinel "management HTTP: remote failure".

(** * Messages *)

(** A path by its segments and the query by its values, as the server decodes them. *)
Record request := mkRequest {
  H_Method : string;
  H_Path : list string;
  H_Values : gmap string (list string);
  H_Authorization : string;
  H_ContentType : string;
  H_ContentLength : Z;
  H_Body : string
}.

(** [None] is a body that fails while it is read. *)
Record response := mkResponse { StatusCode : Z; A_Body : option string }.

(** [decode] is a strict [Decode] of the whole input: no unknown field, nothing after
    the value. *)
Class JSON (T : Type) := { marshal : T -> option string; decode : string -> option T }.

Record problem := mkProblem { PR_Code : string }.

Definition newline : string := String (Ascii.ascii_of_nat 10) "".

(** [json.NewEncoder(writer).Encode], its error ignored: a value that cannot be encoded
    leaves the body empty. *)
Definition encoded {T} `{!JSON T} (v : T) : string :=
  match marshal v with Some s => s +:+ newline | None => "" end.

Definition writeProblem `{!JSON problem} (status : Z) (code : string) : response :=
  mkResponse status (Some (encoded (mkProblem code))).
Definition writeJSON {T} `{!JSON T} (v : T) : response := mkResponse 200 (Some (encoded v)).

(** * Credentials *)

Definition invalidToken (token : string) : bool :=
  blank token || (maxTokenBytes <? len token)%Z ||
  existsb (fun c => (N_of_ascii c <? 32)%N || (N_of_ascii c =? 127)%N) (list_ascii_of_string token).

Definition bearer : string := "Bearer ".

(** [strings.CutPrefix]. *)
Fixpoint CutPrefix (s prefix : string) {struct prefix} : option string :=
  match prefix, s with
  | "", _ => Some s
  | String a prefix, String b s => if Ascii.eqb a b then CutPrefix s prefix else None
  | _, "" => None
  end.

(** * Queries *)

(** [values.Get]. *)
Definition Get (values : gmap string (list string)) (key : string) : string :=
  match values !! key with Some (v :: _) => v | _ => "" end.

Definition single (entries : list string) : bool := (length entries =? 1)%nat.

Definition statusPageRequest (values : gmap string (list string)) : option StatusPageRequest :=
  if negb (forallb (fun '(key, entries) =>
             negb ((negb (key == "cursor") && negb (key == "limit")) || negb (single entries)))
             (map_to_list values)) then None
  else
    match values !! "limit" with
    | None => None
    | Some rawLimit =>
        let rawLimit := default "" (head rawLimit) in
        if rawLimit == "" then None
        else
          match ParseUintBits rawLimit 32 with
          | None => None
          | Some limit =>
              let finish cursor :=
                let r := mkStatusPageRequest cursor limit in
                if is_nil (StatusPageRequest_Validate r) then Some r else None in
              match values !! "cursor" with
              | None => finish ""
              | Some rawCursor =>
                  let rawCursor := default "" (head rawCursor) in
                  if rawCursor == "" then None else finish rawCursor
              end
          end
    end.

Definition record_keys : list string := ["cursor"; "limit"; "search"; "sort"; "direction"].

Definition recordPageRequest (values : gmap string (list string)) : option PageRequest :=
  if negb (forallb (fun '(key, entries) =>
             bool_decide (key ∈ record_keys) && single entries && (default "" (head entries) != ""))
             (map_to_list values)) then None
  else
    match ParseUintBits (Get values "limit") 32 with
    | None => None
    | Some limit =>
        let r := mkPageRequest (Get values "cursor") limit (Get values "search")
                   (Get values "sort") (Get values "direction") in
        if is_nil (PageRequest_Validate r) then Some r else None
    end.

Definition inspectVisibility (values : gmap string (list string)) : option string :=
  match values !! "visibility" with
  | Some [entry] =>
      if negb (size values =? 1)%nat then None
      else if entry == wirePayloadHidden then Some PayloadHidden
      else if entry == PayloadRedacted then Some PayloadRedacted
      else if entry == PayloadRevealed then Some PayloadRevealed
      else None
  | _ => None
  end.

(** * The handler *)

(** The services of a worker; [None] is a nil interface. *)
Record StatusReader (W : Type) := mkStatusReader {
  SR_ListWorkers : StatusPageRequest -> io W (error + WorkerStatusPage);
  SR_ListQueues : StatusPageRequest -> io W (error + QueueStatusPage)
}.
Record RecordReader (W : Type) := mkRecordReader {
  RR_ListFailures : PageRequest -> io W (error + RecordPage);
  RR_ListDeadLetters : PageRequest -> io W (error + RecordPage);
  RR_Inspect : InspectRequest -> io W (error + JobRecord)
}.
Record handler (W : Type) := mkHandler {
  h_token : string;
  h_status : option (StatusReader W);
  h_controller : option (Command -> io W (error + CommandResult));
  h_records : option (RecordReader W)
}.
Arguments SR_ListWorkers {W} _ _.
Arguments SR_ListQueues {W} _ _.
Arguments RR_ListFailures {W} _ _.
Arguments RR_ListDeadLetters {W} _ _.
Arguments RR_Inspect {W} _ _.
Arguments mkHandler {W} _ _ _ _.
Arguments h_token {W} _.
Arguments h_status {W} _.
Arguments h_controller {W} _.
Arguments h_records {W} _.

Definition missing {A} (a : option A) : bool := match a with None => true | Some _ => false end.

Definition NewHandler {W} (token : string) (status : option (StatusReader W))
    (controller : option (Command -> io W (error + CommandResult))) (records : option (RecordReader W))
  : error + handler W :=
  if invalidToken token || (missing status && missing controller && missing records)
  then inl ErrInvalidHTTPConfiguration
  else inr (mkHandler token status controller records).

Section handler.
Context {W : Type} `{!JSON problem, !JSON command, !JSON commandResult}.
Context `{!JSON workerStatusPage, !JSON queueStatusPage, !JSON recordPage, !JSON jobRecord}.
(** The media type of a header value, if it parses. *)
Context (ParseMediaType : string -> option string).
(** Whether decoding a body beyond the limit fails because of the limit. *)
Context (exceeded : string -> bool).
(** What the router answers when no pattern takes the request. *)
Context (unrouted : request -> response).
(** The orders of [range] over maps, as in [Records]. *)
Context (order : list (string * string) -> list (string * string)).
Context (times : list (string * option Time) -> list (string * option Time)).

Definition invalid_request : response := writeProblem 400 "invalid_request".
Definition internal_error : response := writeProblem 500 "internal_error".
Definition unauthorized : response := writeProblem 401 "unauthorized".
Definition listWorkers (s : StatusReader W) (r : request) : io W response :=
  match statusPageRequest (H_Values r) with
  | None => mret invalid_request
  | Some pageRequest =>
      page ← SR_ListWorkers s pageRequest;
      mret match page with
           | inl _ => internal_error
           | inr page =>
               if negb (is_nil (WorkerStatusPage_Validate page)) then internal_error
               else writeJSON (transportWorkerPage page)
           end
  end.

Definition listQueues (s : StatusReader W) (r : request) : io W response :=
  match statusPageRequest (H_Values r) with
  | None => mret invalid_request
  | Some pageRequest =>
      page ← SR_ListQueues s pageRequest;
      mret match page with
           | inl _ => internal_error
           | inr page =>
               if negb (is_nil (QueueStatusPage_Validate page)) then internal_error
               else writeJSON (transportQueuePage page)
           end
  end.

Definition commandProblemCode (status : Z) : string :=
  if (status =? 413)%Z then "request_too_large" else "invalid_request".

(** A body beyond the limit is never decoded to its end, so it is refused either by the
    first [Decode] or by [ensureEOF]. *)
Definition executeCommand (controller : Command -> io W (error + CommandResult)) (r : request)
  : io W response :=
  if negb (bool_decide (ParseMediaType (H_ContentType r) = Some "application/json"))
  then mret (writeProblem 415 "unsupported_media_type")
  else if (maxCommandRequestBytes <? H_ContentLength r)%Z
  then mret (writeProblem 413 "request_too_large")
  else if (maxCommandRequestBytes <? len (H_Body r))%Z then
    let status := if exceeded (H_Body r) then 413%Z else 400%Z in
    mret (writeProblem status (commandProblemCode status))
  else
    match decode (T := command) (H_Body r) with
    | None => mret (writeProblem 400 (commandProblemCode 400))
    | Some wireCommand =>
        let controlCommand := managementCommand wireCommand in
        if negb (is_nil (Command_Validate controlCommand)) then mret invalid_request
        else
          result ← controller controlCommand;
          mret match result with
               | inl _ => internal_error
               | inr result =>
                   if negb (is_nil (CommandResult_Validate result)) then internal_error
                   else if negb (matchingResult controlCommand result) then internal_error
                   else writeJSON (transportCommandResult result)
               end
    end.

Definition writeRecordProblem (err : error) : response :=
  let '(status, code) := recordProblem err in writeProblem status code.

Definition handler_listRecords (read : PageRequest -> io W (error + RecordPage)) (r : request)
  : io W response :=
  match recordPageRequest (H_Values r) with
  | None => mret invalid_request
  | Some pageRequest =>
      page ← read pageRequest;
      mret match page with
           | inl err => writeRecordProblem err
           | inr page =>
               if negb (is_nil (RecordPage_Validate order times page)) || negb (hiddenRecordPage page)
               then internal_error
               else writeJSON (transportRecordPage page)
           end
  end.

(** What a record of the requested kind may disclose. *)
Definition acceptable (kind visibility : string) (record : JobRecord) : bool :=
  is_nil (JobRecord_Validate order times record) && (R_Kind record == kind) &&
  allowedVisibility visibility (P_Visibility (R_Payload record)) &&
  allowedVisibility visibility (P_Visibility (R_Diagnostics record)).

Definition inspectRecord (s : RecordReader W) (r : request) (kind id : string) : io W response :=
  match inspectVisibility (H_Values r) with
  | None => mret invalid_request
  | Some visibility =>
      let inspect := mkInspectRequest kind id visibility in
      if negb (is_nil (InspectRequest_Validate inspect)) then mret invalid_request
      else
        record ← RR_Inspect s inspect;
        mret match record with
             | inl err => writeRecordProblem err
             | inr record =>
                 if negb (acceptable kind visibility record) then internal_error
                 else writeJSON (transportRecord record)
             end
  end.

(** The routes of [NewHandler]; a GET pattern also takes HEAD. *)
Definition route (h : handler W) (r : request) : io W response :=
  let get := (H_Method r == "GET") || (H_Method r == "HEAD") in
  match H_Path r, h_status h, h_controller h, h_records h with
  | ["v1"; "status"; "workers"], Some s, _, _ => if get then listWorkers s r else mret (unrouted r)
  | ["v1"; "status"; "queues"], Some s, _, _ => if get then listQueues s r else mret (unrouted r)
  | ["v1"; "commands"], _, Some c, _ =>
      if H_Method r == "POST" then executeCommand c r else mret (unrouted r)
  | ["v1"; "records"; "failures"], _, _, Some s =>
      if get then handler_listRecords (RR_ListFailures s) r else mret (unrouted r)
  | ["v1"; "records"; "dead-letters"], _, _, Some s =>
      if get then handler_listRecords (RR_ListDeadLetters s) r else mret (unrouted r)
  | ["v1"; "records"; "failures"; id], _, _, Some s =>
      if get then inspectRecord s r RecordFailure id else mret (unrouted r)
  | ["v1"; "records"; "dead-letters"; id], _, _, Some s =>
      if get then inspectRecord s r RecordDeadLetter id else mret (unrouted r)
  | _, _, _, _ => mret (unrouted r)
  end.

(** [authenticate]; the comparison in constant time is equality. *)
Definition serve (h : handler W) (r : request) : io W response :=
  match CutPrefix (H_Authorization r) bearer with
  | None => mret unauthorized
  | Some provided => if provided == h_token h then route h r else mret unauthorized
  end.
End handler.

(** * The client *)

(** A parsed URL. *)
Record URL := mkURL {
  U_Scheme : string; U_Host : string; U_User : bool; U_Path : string; U_RawQuery : string; U_Fragment : string
}.

Record Client := mkClient { C_baseURL : URL; C_token : string; C_maxResponseBytes : Z }.

(** [parsed] is the result of [url.Parse]. *)
Definition NewClient (parsed : option URL) (token : string) (maxResponseBytes : Z) : error + Client :=
  match parsed with
  | None => inl ErrInvalidHTTPConfiguration
  | Some u =>
      if (U_Host u == "") || ((U_Scheme u != "http") && (U_Scheme u != "https")) || U_User u ||
         ((U_Path u != "") && (U_Path u != "/")) || (U_RawQuery u != "") || (U_Fragment u != "") ||
         invalidToken token || (maxResponseBytes <? 0)%Z
      then inl ErrInvalidHTTPConfiguration
      else inr (mkClient (u <| U_Path := "" |>) token
                  (if (maxResponseBytes =? 0)%Z then defaultMaxResponseBytes else maxResponseBytes))
  end.

(** A context: [None] is nil, otherwise its error once a call has failed. *)
Definition context : Type := option error.

Section client.
Context {W : Type} `{!JSON problem, !JSON command, !JSON commandResult}.
Context `{!JSON workerStatusPage, !JSON queueStatusPage, !JSON recordPage, !JSON jobRecord}.
Context (order : list (string * string) -> list (string * string)).
Context (times : list (string * option Time) -> list (string * option Time)).
(** The HTTP client of the standard library. *)
Context (do : request -> io W (error + response)).
(** The path that [JoinPath] makes of a prefix and a record identifier. *)
Context (join : list string -> string -> list string).
Context (c : Client).

Definition authorization : string := bearer +:+ C_token c.

(** The error of a failed exchange. *)
Definition exchange_error (ctx : error) : error := if negb (is_nil ctx) then ctx else ErrRemoteFailure.

Definition get_request (path : list string) (values : gmap string (list string)) : request :=
  mkRequest "GET" path values authorization "" 0 "".

(** Reads the body within the limit. *)
Definition read_body (body : option string) : error + string :=
  match body with
  | None => inl ErrRemoteFailure
  | Some data => if (C_maxResponseBytes c <? len data)%Z then inl ErrResponseTooLarge else inr data
  end.

Definition Client_Execute (ctx : context) (request : Command) : io W (error + CommandResult) :=
  match ctx with
  | None => mret (inl ErrInvalidRequest)
  | Some ctx =>
      if negb (is_nil (Command_Validate request)) then mret (inl ErrInvalidRequest)
      else
        match marshal (transportCommand request) with
        | None => mret (inl ErrInvalidRequest)
        | Some body =>
            answer ← do (mkRequest "POST" ["v1"; "commands"] ∅ authorization "application/json"
                           (len body) body);
            mret match answer with
                 | inl _ => inl (exchange_error ctx)
                 | inr answer =>
                     if negb (StatusCode answer =? 200)%Z then inl ErrRemoteFailure
                     else
                       match read_body (A_Body answer) with
                       | inl err => inl err
                       | inr data =>
                           match decode (T := commandResult) data with
                           | None => inl ErrInvalidResponse
                           | Some wireResult =>
                               let result := managementCommandResult wireResult in
                               if negb (is_nil (CommandResult_Validate result)) ||
                                  negb (matchingResult request result)
                               then inl ErrInvalidResponse else inr result
                           end
                       end
                 end
        end
  end.

Definition status_values (r : StatusPageRequest) : gmap string (list string) :=
  let values := {["limit" := [pretty (Z.to_N (P_Limit r))]]} in
  if P_Cursor r != "" then <["cursor" := [P_Cursor r]]> values else values.

Definition listStatus {T} `{!JSON T} (ctx : context) (collection : string) (r : StatusPageRequest)
  : io W (error + T) :=
  if negb (is_nil (StatusPageRequest_Validate r)) then mret (inl ErrInvalidRequest)
  else
    match ctx with
    | None => mret (inl ErrInvalidRequest)
    | Some ctx =>
        answer ← do (get_request ["v1"; "status"; collection] (status_values r));
        mret match answer with
             | inl _ => inl (exchange_error ctx)
             | inr answer =>
                 if negb (StatusCode answer =? 200)%Z then inl ErrRemoteFailure
                 else
                   match read_body (A_Body answer) with
                   | inl err => inl err
                   | inr data => match decode (T := T) data with None => inl ErrInvalidResponse | Some v => inr v end
                   end
             end
    end.

Definition Client_ListWorkers (ctx : context) (r : StatusPageRequest) : io W (error + WorkerStatusPage) :=
  wirePage ← listStatus (T := workerStatusPage) ctx "workers" r;
  mret match wirePage with
       | inl err => inl err
       | inr wirePage =>
           let page := managementWorkerPage wirePage in
           if negb (is_nil (WorkerStatusPage_Validate page)) then inl ErrInvalidResponse else inr page
       end.

Definition Client_ListQueues (ctx : context) (r : StatusPageRequest) : io W (error + QueueStatusPage) :=
  wirePage ← listStatus (T := queueStatusPage) ctx "queues" r;
  mret match wirePage with
       | inl err => inl err
       | inr wirePage =>
           let page := managementQueuePage wirePage in
           if negb (is_nil (QueueStatusPage_Validate page)) then inl ErrInvalidResponse else inr page
       end.

Definition getRecords {T} `{!JSON T} (ctx : context) (path : list string)
    (values : gmap string (list string)) : io W (error + T) :=
  match ctx with
  | None => mret (inl ErrInvalidRequest)
  | Some ctx =>
      answer ← do (get_request path values);
      mret match answer with
           | inl _ => inl (exchange_error ctx)
           | inr answer =>
               match read_body (A_Body answer) with
               | inl err => inl err
               | inr data =>
                   if negb (StatusCode answer =? 200)%Z then
                     match decode (T := problem) data with
                     | None => inl ErrRemoteFailure
                     | Some wireProblem =>
                         let target := managementProblem (PR_Code wireProblem) in
                         if negb (is_nil target) then inl (errors_Join [ErrRemoteFailure; target])
                         else inl ErrRemoteFailure
                     end
                   else match decode (T := T) data with None => inl ErrInvalidResponse | Some v => inr v end
               end
           end
  end.

Definition record_values (r : PageRequest) : gmap string (list string) :=
  let values := {["limit" := [pretty (Z.to_N (G_Limit r))]; "sort" := [G_Sort r];
                  "direction" := [G_Direction r]]} in
  let values := if G_Cursor r != "" then <["cursor" := [G_Cursor r]]> values else values in
  if G_Search r != "" then <["search" := [G_Search r]]> values else values.

Definition Client_listRecords (ctx : context) (collection : string) (r : PageRequest)
  : io W (error + RecordPage) :=
  if negb (is_nil (PageRequest_Validate r)) then mret (inl ErrInvalidRequest)
  else
    wirePage ← getRecords (T := recordPage) ctx ["v1"; "records"; collection] (record_values r);
    mret match wirePage with
         | inl err => inl err
         | inr wirePage =>
             let page := managementRecordPage wirePage in
             if negb (is_nil (RecordPage_Validate order times page)) || negb (hiddenRecordPage page)
             then inl ErrInvalidResponse else inr page
         end.

Definition Client_ListFailures (ctx : context) := Client_listRecords ctx "failures".
Definition Client_ListDeadLetters (ctx : context) := Client_listRecords ctx "dead-letters".

Definition Client_Inspect (ctx : context) (r : InspectRequest) : io W (error + JobRecord) :=
  if negb (is_nil (InspectRequest_Validate r)) then mret (inl ErrInvalidRequest)
  else
    let collection := if I_Kind r == RecordDeadLetter then "dead-letters" else "failures" in
    wireRecord ← getRecords (T := jobRecord) ctx (join ["v1"; "records"; collection] (I_ID r))
                   {["visibility" := [wireVisibility (I_Visibility r)]]};
    mret match wireRecord with
         | inl err => inl err
         | inr wireRecord =>
             let record := managementRecord wireRecord in
             if negb (acceptable order times (I_Kind r) (I_Visibility r) record)
             then inl ErrInvalidResponse else inr record
         end.
End client.
