(* ===== verification/HttpSafety.v ===== *)
(** Theorems on the management HTTP boundary: nothing is served without the token, a
    remote command runs at most once and its result is the controller's, and a remote
    listing is the listing of the worker. *)

From S2P Require Import Prelude GoStd Sentinels Contract Control Failure Job Status Records Codec Wire Http.

Lemma CutPrefix_Some s p t : CutPrefix s p = Some t <-> s = p +:+ t.
Proof.
  revert s. induction p as [|a p IH]; intros s; simpl; [naive_solver|].
  destruct s as [|b s]; [done|]. destruct (Ascii.eqb_spec a b) as [->|Hne].
  - rewrite IH. split; [by intros ->|by intros [= ->]].
  - split; [done|by intros [= ??]].
Qed.

(** * Queries: the server reads the request that the client wrote *)

Lemma forallb_map {A} (f : string * A -> bool) (m : gmap string A) :
  map_Forall (fun k v => f (k, v) = true) m -> forallb f (map_to_list m) = true.
Proof.
  intros H. apply forallb_forall. intros [k v] Hin.
  apply list_elem_of_In, elem_of_map_to_list in Hin. by apply H.
Qed.

Lemma limit_read z : (0 <= z <= 4294967295)%Z -> ParseUintBits (pretty (Z.to_N z)) 32 = Some z.
Proof. intros. rewrite ParseUintBits_pretty by lia. f_equal. lia. Qed.

Lemma pretty_nonempty (n : N) : (pretty n == "") = false.
Proof. destruct (pretty_read n) as (c & l & E & _). by destruct (pretty n). Qed.

Lemma status_limit r :
  StatusPageRequest_Validate r = ErrNil -> (0 <= P_Limit r)%Z -> (0 <= P_Limit r <= 4294967295)%Z.
Proof.
  unfold StatusPageRequest_Validate. rewrite !invalid_if, orb_false_iff, Z.ltb_ge.
  unfold MaxStatusPageSize. lia.
Qed.

Lemma statusPageRequest_values r :
  StatusPageRequest_Validate r = ErrNil -> (0 <= P_Limit r)%Z ->
  statusPageRequest (status_values r) = Some r.
Proof.
  intros Hv Hl. pose proof (status_limit r Hv Hl) as Hb. destruct r as [cursor limit].
  unfold statusPageRequest, status_values. simpl in *.
  rewrite forallb_map; simpl.
  - destruct (cursor == "") eqn:E; simpl; rewrite ?lookup_insert_ne, ?lookup_insert_eq by done; simpl;
      rewrite lookup_singleton_eq || rewrite ?lookup_insert_ne by done; simpl;
      rewrite pretty_nonempty, limit_read by done; simpl.
    + apply String.eqb_eq in E as ->. by rewrite Hv.
    + by rewrite E, Hv.
  - destruct (cursor == ""); simpl; intros k v; rewrite ?lookup_insert_Some, lookup_singleton_Some;
      naive_solver.
Qed.

Lemma get_insert_eq (m : gmap string (list string)) k v : Get (<[k := [v]]> m) k = v.
Proof. unfold Get. by rewrite lookup_insert_eq. Qed.
Lemma get_insert_ne (m : gmap string (list string)) k k' v : k <> k' -> Get (<[k := v]> m) k' = Get m k'.
Proof. intros. unfold Get. by rewrite lookup_insert_ne. Qed.

Lemma record_limit r :
  PageRequest_Validate r = ErrNil -> (0 <= G_Limit r)%Z ->
  (0 <= G_Limit r <= 4294967295)%Z /\ G_Sort r <> "" /\ G_Direction r <> "".
Proof.
  unfold PageRequest_Validate. rewrite !invalid_if, orb_false_iff, !Z.ltb_ge, !negb_false.
  unfold MaxPageSize. intros ([_ ?] & _ & _ & Hs & Hd & _) ?. split_and!; try lia.
  - intros E. by rewrite E in Hs.
  - intros E. by rewrite E in Hd.
Qed.

(** The value that a field of a request has among the values of its query. *)
Lemma record_values_get r :
  Get (record_values r) "limit" = pretty (Z.to_N (G_Limit r)) /\
  Get (record_values r) "sort" = G_Sort r /\ Get (record_values r) "direction" = G_Direction r /\
  Get (record_values r) "cursor" = G_Cursor r /\ Get (record_values r) "search" = G_Search r.
Proof.
  unfold record_values.
  destruct (G_Cursor r == "") eqn:Ec, (G_Search r == "") eqn:Es; cbn [negb];
    repeat first [rewrite get_insert_eq | rewrite get_insert_ne by done];
    try apply String.eqb_eq in Ec; try apply String.eqb_eq in Es; by rewrite ?Ec, ?Es.
Qed.

Lemma recordPageRequest_values r :
  PageRequest_Validate r = ErrNil -> (0 <= G_Limit r)%Z ->
  recordPageRequest (record_values r) = Some r.
Proof.
  intros Hv Hl. destruct (record_limit r Hv Hl) as (Hb & Hs & Hd).
  pose proof (record_values_get r) as (El & Eso & Edi & Ec & Ese).
  unfold recordPageRequest. rewrite forallb_map; cbn [negb].
  - rewrite El, Eso, Edi, Ec, Ese, limit_read by done. destruct r. simpl in *. by rewrite Hv.
  - unfold record_values.
    assert (forall s : string, s <> "" -> (s != "") = true) as Hne.
    { intros s ?. by apply negb_true_iff, String.eqb_neq. }
    destruct (G_Cursor r == "") eqn:Ec0, (G_Search r == "") eqn:Es0; cbn [negb];
      intros k v; rewrite ?lookup_insert_Some, lookup_singleton_Some; intros Hk;
      repeat match goal with H : _ \/ _ |- _ => destruct H as [H|H] | H : _ /\ _ |- _ => destruct H end;
      subst; cbn; rewrite ?pretty_nonempty, ?Ec0, ?Es0, ?Hne by done; done.
Qed.

(** * What the boundary relies on *)

(** The strings that a value carries. *)
Definition command_texts (c : Command) : list string :=
  [ID c; IdempotencyKey c; Actor c; Reason c; Action c; Kind (Command_Target c); Name (Command_Target c)] ++
  match Replay c with Some r => [Destination r; IdempotencyPolicy r] | None => [] end.
Definition result_texts (r : CommandResult) : list string :=
  [CommandID r; Result_IdempotencyKey r; WorkerID r; Control.Status r; FailureCode r].
Definition record_texts (r : JobRecord) : list string :=
  [R_Kind r; R_ID r; R_Backend r; R_Queue r; R_FailureCode r; P_Visibility (R_Payload r);
   P_ContentType (R_Payload r); R_PayloadSchemaVersion r; R_OriginalID r; R_Topic r; R_Stream r;
   R_RoutingKey r; R_ConsumerGroup r; R_SourceRecordID r; R_RetryPolicy r; R_Classification r;
   R_FailureSummary r; P_Visibility (R_Diagnostics r); P_ContentType (R_Diagnostics r);
   R_HandlerType r; R_JobType r; R_TraceID r; R_TenantID r; R_ProducerVersion r; R_WorkerVersion r;
   R_OriginalDeadLetterID r; R_PriorDeadLetterID r] ++
  match R_Tags r with Some tags => (map_to_list tags).*1 ++ (map_to_list tags).*2 | None => [] end.

Section wired.
Context (wire_time : Time -> Time).

Definition wired_command (c : command) : command :=
  c <| C_RequestedAt := wire_time (C_RequestedAt c) |> <| C_Deadline := wire_time (C_Deadline c) |>.
Definition wired_result (r : commandResult) : commandResult :=
  r <| CE_CompletedAt := wire_time (CE_CompletedAt r) |>.
(** An empty map is left out, as its field says, and comes back nil. *)
Definition wired_tags (tags : option (gmap string string)) : option (gmap string string) :=
  match tags with Some m => if decide (m = ∅) then None else Some m | None => None end.
Definition wired_record (r : jobRecord) : jobRecord :=
  r <| J_OccurredAt := wire_time (J_OccurredAt r) |> <| J_EnqueuedAt := wire_time <$> J_EnqueuedAt r |>
    <| J_FirstDeliveryAt := wire_time <$> J_FirstDeliveryAt r |>
    <| J_LastDeliveryAt := wire_time <$> J_LastDeliveryAt r |>
    <| J_DeadLetteredAt := wire_time <$> J_DeadLetteredAt r |>
    <| J_RetentionDeadline := wire_time <$> J_RetentionDeadline r |>
    <| J_Tags := wired_tags (J_Tags r) |>.
Definition wired_page (p : recordPage) : recordPage :=
  p <| JP_Items := wired_record <$> JP_Items p |>.

(** The same on the values of the contracts. *)
Definition received_command (c : Command) : Command :=
  c <| RequestedAt := wire_time (RequestedAt c) |> <| Deadline := wire_time (Deadline c) |>.
Definition received_result (r : CommandResult) : CommandResult :=
  r <| CompletedAt := wire_time (CompletedAt r) |>.
Definition received_record (r : JobRecord) : JobRecord :=
  r <| R_OccurredAt := wire_time (R_OccurredAt r) |> <| R_EnqueuedAt := wire_time <$> R_EnqueuedAt r |>
    <| R_FirstDeliveryAt := wire_time <$> R_FirstDeliveryAt r |>
    <| R_LastDeliveryAt := wire_time <$> R_LastDeliveryAt r |>
    <| R_DeadLetteredAt := wire_time <$> R_DeadLetteredAt r |>
    <| R_RetentionDeadline := wire_time <$> R_RetentionDeadline r |>
    <| R_Tags := wired_tags (R_Tags r) |>.
Definition received_page (p : RecordPage) : RecordPage :=
  p <| RP_Items := received_record <$> RP_Items p |>.

Lemma received_command_wired c : managementCommand (wired_command (transportCommand c)) = received_command c.
Proof. by destruct c as [?????? [] ??? [[]|] [[]|]], Protocol. Qed.

Lemma received_result_wired r :
  managementCommandResult (wired_result (transportCommandResult r)) = received_result r.
Proof. by destruct r as [??? [] ???]. Qed.

Lemma received_record_wired r :
  record_ok r -> managementRecord (wired_record (transportRecord r)) = received_record r.
Proof.
  intros Hr%managementRecord_transport. 
  assert (forall j, managementRecord (wired_record j) = received_record (managementRecord j)) as ->.
  { by intros []. }
  by rewrite Hr.
Qed.

Lemma received_page_wired p :
  Forall record_ok (RP_Items p) ->
  managementRecordPage (wired_page (transportRecordPage p)) = received_page p.
Proof.
  intros H. destruct p as [items next]. unfold managementRecordPage, received_page. simpl in *.
  f_equal. rewrite <-!list_fmap_compose. apply list_fmap_ext. intros i r Hi. simpl.
  apply received_record_wired. by eapply Forall_lookup_1 in H.
Qed.
End wired.

(** [encoding/json] on the wire types: values whose strings are valid UTF-8 come back,
    instants without their monotonic reading and location. An empty body is no value. *)
Class WireLaws `{!JSON problem, !JSON command, !JSON commandResult, !JSON recordPage} := {
  utf8 : string -> Prop;
  wire_time : Time -> Time;
  wire_time_wall t : wall (wire_time t) = wall t;
  command_law c s :
    Forall utf8 (command_texts c) -> marshal (transportCommand c) = Some s ->
    decode s = Some (wired_command wire_time (transportCommand c));
  result_law r s :
    Forall utf8 (result_texts r) -> marshal (transportCommandResult r) = Some s ->
    decode (s +:+ newline) = Some (wired_result wire_time (transportCommandResult r));
  page_law p s :
    Forall (fun r => Forall utf8 (record_texts r)) (RP_Items p) ->
    marshal (transportRecordPage p) = Some s ->
    decode (s +:+ newline) = Some (wired_page wire_time (transportRecordPage p));
  result_empty : decode (T := commandResult) "" = None;
  page_empty : decode (T := recordPage) "" = None
}.

(** * The exchange

    A request is lost, or handled and its answer lost, cut off or delivered. The HTTP
    client sends a POST once; it may repeat a GET. *)
Class Exchange {W : Type} (serve : request -> io W response) (do : request -> io W (error + response)) := {
  do_post r w a w' :
    H_Method r = "POST" -> do r w = (a, w') ->
    ((exists e, a = inl e) /\ w' = w) \/
    (w' = (serve r w).2 /\
     ((exists e, a = inl e) \/
      exists x, a = inr x /\ StatusCode x = StatusCode (serve r w).1 /\
                (A_Body x = None \/ A_Body x = A_Body (serve r w).1)));
  do_get r w x w' :
    H_Method r = "GET" -> do r w = (inr x, w') ->
    exists w1, rtc (fun u v => v = (serve r u).2) w w1 /\ w' = (serve r w1).2 /\
      StatusCode x = StatusCode (serve r w1).1 /\
      (A_Body x = None \/ A_Body x = A_Body (serve r w1).1)
}.

Section boundary.
Context {W : Type} `{!JSON problem, !JSON command, !JSON commandResult}.
Context `{!JSON workerStatusPage, !JSON queueStatusPage, !JSON recordPage, !JSON jobRecord}.
Context (ParseMediaType : string -> option string) (exceeded : string -> bool).
Context (unrouted : request -> response).
Context (order : list (string * string) -> list (string * string)).
Context (times : list (string * option Time) -> list (string * option Time)).
Context (h : handler W).

Local Abbreviation handle := (serve ParseMediaType exceeded unrouted order times h).

Lemma serve_spec r w :
  handle r w = if H_Authorization r == bearer +:+ h_token h
               then route ParseMediaType exceeded unrouted order times h r w else (unauthorized, w).
Proof.
  unfold serve. destruct (CutPrefix (H_Authorization r) bearer) as [t|] eqn:E.
  - apply CutPrefix_Some in E as ->. destruct (String.eqb_spec t (h_token h)) as [->|Hne].
    + by rewrite String.eqb_refl.
    + destruct (String.eqb_spec (bearer +:+ t) (bearer +:+ h_token h)) as [E|]; [|done].
      by apply (inj (String.append bearer)) in E.
  - destruct (String.eqb_spec (H_Authorization r) (bearer +:+ h_token h)) as [E'|]; [|done].
    apply CutPrefix_Some in E'. congruence.
Qed.

(** Nothing is served without the token: a request whose authorization is not the
    bearer token of the handler, letter for letter, is answered 401 and no service is
    called; with the token it is answered as the routes say. *)
Theorem access_controlled r w :
  handle r w = if H_Authorization r == bearer +:+ h_token h
               then route ParseMediaType exceeded unrouted order times h r w else (unauthorized, w).
Proof. apply serve_spec. Qed.

(** The handler of commands. *)
Lemma executeCommand_run (ctl : Command -> io W (error + CommandResult)) r w x w' :
  executeCommand ParseMediaType exceeded ctl r w = (x, w') ->
  (w' = w /\ StatusCode x <> 200%Z) \/
  exists wire out, decode (H_Body r) = Some wire /\ Command_Validate (managementCommand wire) = ErrNil /\
    ctl (managementCommand wire) w = (out, w') /\
    (StatusCode x = 200%Z -> exists res, out = inr res /\ x = writeJSON (transportCommandResult res)).
Proof.
  unfold executeCommand. case_bool_decide; cbn [negb]; [|intros [= <- <-]; by left].
  case_test; [intros [= <- <-]; by left|].
  case_test; [intros [= <- <-]; left; split; [done|]; by destruct (exceeded _)|].
  destruct (decode (H_Body r)) as [wire|]; [|intros [= <- <-]; by left].
  destruct (Command_Validate (managementCommand wire)) eqn:Hv; try (intros [= <- <-]; by left).
  cbn [is_nil negb]. intros (out & w1 & Hc & Hx)%io_bind_inv. injection Hx as <- <-.
  right. exists wire, out. split_and!; try done. destruct out as [|res]; [done|].
  repeat case_test; try done. eauto.
Qed.

Lemma serve_command ctl auth type n body w x w' :
  h_controller h = Some ctl ->
  handle (mkRequest "POST" ["v1"; "commands"] ∅ auth type n body) w = (x, w') ->
  (w' = w /\ StatusCode x <> 200%Z) \/
  exists wire out, decode body = Some wire /\ Command_Validate (managementCommand wire) = ErrNil /\
    ctl (managementCommand wire) w = (out, w') /\
    (StatusCode x = 200%Z -> exists res, out = inr res /\ x = writeJSON (transportCommandResult res)).
Proof.
  intros Hc. unfold serve. cbn [H_Authorization].
  destruct (CutPrefix auth bearer); [|intros [= <- <-]; by left].
  case_test; [|intros [= <- <-]; by left]. unfold route. simpl. rewrite Hc.
  by destruct (h_status h), (h_records h); intros ?%executeCommand_run.
Qed.

Context (do : request -> io W (error + response)) `{!Exchange handle do, !WireLaws}.
Context (c : Client).

(** The answer of a call, given the answer of the exchange. *)
Definition command_answer (ctx : error) (cmd : Command) (a : error + response) : error + CommandResult :=
  match a with
  | inl _ => inl (exchange_error ctx)
  | inr x =>
      if negb (StatusCode x =? 200)%Z then inl ErrRemoteFailure
      else match read_body c (A_Body x) with
           | inl err => inl err
           | inr data =>
               match decode (T := commandResult) data with
               | None => inl ErrInvalidResponse
               | Some wire =>
                   let result := managementCommandResult wire in
                   if negb (is_nil (CommandResult_Validate result)) || negb (matchingResult cmd result)
                   then inl ErrInvalidResponse else inr result
               end
           end
  end.

Lemma command_answer_ok ctx cmd a result :
  command_answer ctx cmd a = inr result ->
  exists x data wire, a = inr x /\ StatusCode x = 200%Z /\ A_Body x = Some data /\
    decode data = Some wire /\ result = managementCommandResult wire /\
    CommandResult_Validate result = ErrNil /\ matchingResult cmd result = true.
Proof.
  destruct a as [|x]; [done|]. simpl. destruct (Z.eqb_spec (StatusCode x) 200); [|done]. simpl.
  unfold read_body. destruct (A_Body x) as [data|] eqn:Hb; [|done]. case_test; [done|].
  destruct (decode data) as [wire|] eqn:Hd; [|done].
  destruct (CommandResult_Validate (managementCommandResult wire)) eqn:Hv; try done.
  destruct (matchingResult cmd _) eqn:Hm; [|done]. intros [= <-]. by exists x, data, wire.
Qed.

(** A result that was encoded by the handler and decoded by the client. *)
Lemma result_delivered res data wire :
  Some data = A_Body (writeJSON (transportCommandResult res)) -> decode data = Some wire ->
  Forall utf8 (result_texts res) -> managementCommandResult wire = received_result wire_time res.
Proof.
  simpl. unfold encoded. intros [= ->] Hd Hu.
  destruct (marshal (transportCommandResult res)) as [s|] eqn:Hm.
  - rewrite (result_law _ _ Hu Hm) in Hd. injection Hd as <-. apply received_result_wired.
  - by rewrite result_empty in Hd.
Qed.

Lemma Client_Execute_run ctx cmd w r w' :
  Client_Execute do c (Some ctx) cmd w = (r, w') ->
  (w' = w /\ exists err, r = inl err) \/
  exists body a, marshal (transportCommand cmd) = Some body /\
    do (mkRequest "POST" ["v1"; "commands"] ∅ (authorization c) "application/json" (len body) body) w = (a, w') /\
    r = command_answer ctx cmd a.
Proof.
  unfold Client_Execute. case_test; [intros [= <- <-]; left; eauto|].
  destruct (marshal (transportCommand cmd)) as [body|]; [|intros [= <- <-]; left; eauto].
  intros (a & w1 & Hdo & Hr)%io_bind_inv. injection Hr as <- <-. right. by exists body, a.
Qed.

(** C32: A remote command runs at most once, and only as the command that was sent. A call
    either leaves the worker untouched and fails, or the controller has run one valid
    command, the one sent up to the representation of its instants. A result is returned
    only when the controller produced it for this call, and it answers the command. *)
Theorem remote_execute_once ctl ctx cmd w r w' :
  h_controller h = Some ctl ->
  Client_Execute do c (Some ctx) cmd w = (r, w') ->
  (w' = w /\ exists err, r = inl err) \/
  (exists cmd' out, ctl cmd' w = (out, w') /\ Command_Validate cmd' = ErrNil /\
     (Forall utf8 (command_texts cmd) -> cmd' = received_command wire_time cmd) /\
     (forall result, r = inr result -> exists res, out = inr res /\
        CommandResult_Validate result = ErrNil /\ matchingResult cmd result = true /\
        (Forall utf8 (result_texts res) -> result = received_result wire_time res))).
Proof.
  intros Hc [?|(body & a & Hm & Hdo & ->)]%Client_Execute_run; [by left|].
  destruct (handle (mkRequest "POST" ["v1"; "commands"] ∅ (authorization c) "application/json"
              (len body) body) w) as [x w1] eqn:Hs.
  pose proof (serve_command _ _ _ _ _ _ _ _ Hc Hs) as Hcase.
  apply do_post in Hdo; [|done]. rewrite Hs in Hdo. simpl in Hdo.
  destruct Hdo as [[[e ->] ->]|[-> Ha]]; [left; simpl; eauto|].
  destruct Hcase as [[-> Hne]|(wire & out & Hd & Hv & Hrun & Hok)].
  - left. split; [done|]. destruct (command_answer ctx cmd a) as [err|result] eqn:Er; [by eauto|].
    apply command_answer_ok in Er as (y & ? & ? & -> & Hy & _).
    destruct Ha as [[? ?]|(z & [= <-] & ? & _)]; [done|congruence].
  - right. exists (managementCommand wire), out. split_and!; try done.
    + intros Hu. rewrite (command_law _ _ Hu Hm) in Hd. injection Hd as <-. apply received_command_wired.
    + intros result (y & data & wr & -> & Hy & Hb & Hdec & -> & Hval & Hmatch)%command_answer_ok.
      destruct Ha as [[? ?]|(z & [= <-] & Hz & Hbody)]; [done|].
      destruct Hok as (res & -> & ->); [congruence|]. exists res. split_and!; try done.
      intros Hu. apply (result_delivered res data); try done. rewrite <-Hb. by destruct Hbody; congruence.
Qed.

(** * Listing *)

Context (order_perm : forall l, order l ≡ₚ l) (times_perm : forall l, times l ≡ₚ l).

(** The two listings of a record reader, by the name of their collection. *)
Definition reader_list (s : RecordReader W) (dead : bool) : PageRequest -> io W (error + RecordPage) :=
  if dead then RR_ListDeadLetters s else RR_ListFailures s.
Definition collection (dead : bool) : string := if dead then "dead-letters" else "failures".

(** What the handler writes for the outcome of a listing. *)
Definition list_answer (out : error + RecordPage) : response :=
  match out with
  | inl err => writeRecordProblem err
  | inr page =>
      if negb (is_nil (RecordPage_Validate order times page)) || negb (hiddenRecordPage page)
      then internal_error else writeJSON (transportRecordPage page)
  end.

Lemma serve_list s dead r w :
  h_records h = Some s -> PageRequest_Validate r = ErrNil -> (0 <= G_Limit r)%Z ->
  handle (get_request c ["v1"; "records"; collection dead] (record_values r)) w =
  if authorization c == bearer +:+ h_token h
  then (list_answer (reader_list s dead r w).1, (reader_list s dead r w).2) else (unauthorized, w).
Proof.
  intros Hs Hv Hl. rewrite serve_spec. cbn [H_Authorization get_request]. case_test; [|done].
  unfold route. cbn [H_Path H_Method get_request]. rewrite Hs.
  destruct dead, (h_status h), (h_controller h); simpl; unfold handler_listRecords; cbn [H_Values get_request];
    rewrite recordPageRequest_values by done; unfold mbind, io_bind;
    first [by destruct (RR_ListDeadLetters s r w) | by destruct (RR_ListFailures s r w)].
Qed.

Lemma list_answer_ok out :
  StatusCode (list_answer out) = 200%Z ->
  exists page, out = inr page /\ Forall record_ok (RP_Items page) /\
    list_answer out = writeJSON (transportRecordPage page).
Proof.
  destruct out as [err|page]; simpl.
  { unfold writeRecordProblem, recordProblem. repeat case_test; done. }
  destruct (is_nil (RecordPage_Validate order times page)) eqn:Hv; [|done]. simpl.
  case_test; [done|]. intros _. exists page. split_and!; try done.
  destruct (RecordPage_Validate order times page) eqn:Hp; try done.
  by apply RecordPage_Validate_ok in Hp as (_ & ? & _).
Qed.

(** A page that was encoded by the handler and decoded by the client. *)
Lemma page_delivered page data wire :
  Forall record_ok (RP_Items page) ->
  Some data = A_Body (writeJSON (transportRecordPage page)) -> decode data = Some wire ->
  Forall (fun r => Forall utf8 (record_texts r)) (RP_Items page) ->
  managementRecordPage wire = received_page wire_time page.
Proof.
  simpl. unfold encoded. intros Hr [= ->] Hd Hu.
  destruct (marshal (transportRecordPage page)) as [s|] eqn:Hm.
  - rewrite (page_law _ _ Hu Hm) in Hd. injection Hd as <-. by apply received_page_wired.
  - by rewrite page_empty in Hd.
Qed.

Lemma getRecords_run ctx path values w (v : recordPage) w' :
  getRecords do c (Some ctx) path values w = (inr v, w') ->
  exists x data, do (get_request c path values) w = (inr x, w') /\ StatusCode x = 200%Z /\
    A_Body x = Some data /\ decode data = Some v.
Proof.
  unfold getRecords. intros (a & w1 & Hdo & Hr)%io_bind_inv.
  destruct a as [|x]; [by injection Hr|]. unfold read_body in Hr.
  destruct (A_Body x) as [data|] eqn:Hb; [|by injection Hr]. injection Hr as Hr <-.
  exists x, data. revert Hr. case_test; [done|]. destruct (Z.eqb_spec (StatusCode x) 200); simpl.
  - destruct (decode data) eqn:Hd; [|done]. by intros [= <-].
  - destruct (decode data); [|done]. by case_test.
Qed.

Lemma Client_list_run ctx dead r w page w' :
  Client_listRecords order times do c (Some ctx) (collection dead) r w = (inr page, w') ->
  PageRequest_Validate r = ErrNil /\
  exists wire, getRecords do c (Some ctx) ["v1"; "records"; collection dead] (record_values r) w = (inr wire, w') /\
    page = managementRecordPage wire /\ RecordPage_Validate order times page = ErrNil /\
    hiddenRecordPage page = true.
Proof.
  unfold Client_listRecords. destruct (PageRequest_Validate r) eqn:Hv; try done. simpl.
  intros (a & w1 & Hg & Hr)%io_bind_inv. destruct a as [|wire]; [done|]. injection Hr as Hr <-.
  split; [done|]. exists wire. split; [done|]. revert Hr.
  destruct (RecordPage_Validate order times (managementRecordPage wire)) eqn:Hp; try done. simpl.
  destruct (hiddenRecordPage (managementRecordPage wire)) eqn:Hh; [|done]. by intros [= <-].
Qed.

(** A remote listing is the listing of the worker. When the client returns a page, the
    reader of the worker was asked for exactly the page that was requested and produced
    it; what arrives is valid, discloses no payload, and equals the page of the reader
    up to the representation of instants and empty tags. *)
Theorem remote_list_exact s dead ctx r w page w' :
  h_records h = Some s -> (0 <= G_Limit r)%Z ->
  Client_listRecords order times do c (Some ctx) (collection dead) r w = (inr page, w') ->
  RecordPage_Validate order times page = ErrNil /\ hiddenRecordPage page = true /\
  exists w1 local, rtc (fun u v => v = (reader_list s dead r u).2) w w1 /\
    reader_list s dead r w1 = (inr local, w') /\
    (Forall (fun x => Forall utf8 (record_texts x)) (RP_Items local) ->
     page = received_page wire_time local).
Proof.
  intros Hs Hl (Hv & wire & Hg & -> & Hp & Hh)%Client_list_run. split_and!; [done..|].
  apply getRecords_run in Hg as (x & data & Hdo & Hx & Hb & Hd).
  apply do_get in Hdo as (w1 & Hrtc & -> & Hst & Hbody); [|done].
  rewrite (serve_list s dead r w1 Hs Hv Hl) in *.
  assert (authorization c = bearer +:+ h_token h) as Ha.
  { destruct (String.eqb_spec (authorization c) (bearer +:+ h_token h)); [done|].
    simpl in Hst. congruence. }
  rewrite Ha, String.eqb_refl in *. cbn [fst snd] in *.
  destruct (list_answer_ok (reader_list s dead r w1).1) as (local & Hout & Hr & Hans); [congruence|].
  exists w1, local. split_and!.
  - revert Hrtc. apply rtc_subrel. intros u v ->. rewrite (serve_list s dead r u Hs Hv Hl).
    by rewrite Ha, String.eqb_refl.
  - rewrite <-Hout. by destruct (reader_list s dead r w1).
  - intros Hu. apply (page_delivered local data); try done. rewrite <-Hans.
    destruct Hbody; congruence.
Qed.
End boundary.

(** * A concrete boundary

    A worker that logs the commands it runs, a codec for one command, its result and one
    page of records, and a connection that loses nothing. *)
Module SampleHttp.

#[global] Instance command_dec : EqDecision command.
Proof.
  assert (EqDecision protocolVersion) by solve_decision.
  assert (EqDecision commandTarget) by solve_decision.
  assert (EqDecision commandSelection) by solve_decision.
  assert (EqDecision commandReplay) by solve_decision. solve_decision.
Defined.
#[global] Instance commandResult_dec : EqDecision commandResult.
Proof. assert (EqDecision protocolVersion) by solve_decision. solve_decision. Defined.
#[global] Instance recordPage_dec : EqDecision recordPage.
Proof.
  assert (EqDecision recordPayload) by solve_decision.
  assert (EqDecision jobRecord) by solve_decision. solve_decision.
Defined.

Definition time (t : Time) : Time := mkTime (wall t) None 0.

Definition sent : Command :=
  mkCommand "c1" "key-1" "operator" "incident" (mkVersion 1 0) CommandPause
    (mkTarget TargetQueue "jobs") (mkTime 100 (Some 7%Z) 0) (mkTime 200 (Some 9%Z) 0) true None None.
Definition done : CommandResult :=
  mkResult "c1" "key-1" "worker-1" (mkVersion 1 0) CommandAcknowledged "" (mkTime 150 None 0).
Definition page : RecordPage := mkRecordPage [sample_record "" 5 PayloadHidden] "".

(** A codec that knows one value. *)
Definition table {T} `{!EqDecision T} (v received : T) (text tail : string) : JSON T := {|
  marshal x := if decide (x = v) then Some text else None;
  decode s := if s == text +:+ tail then Some received else None
|}.
Lemma table_law {T} `{!EqDecision T} (v received x : T) text tail s :
  marshal (JSON := table v received text tail) x = Some s ->
  x = v /\ decode (JSON := table v received text tail) (s +:+ tail) = Some received.
Proof. simpl. case_decide; [|done]. intros [= <-]. by rewrite String.eqb_refl. Qed.

Definition silent {T} : JSON T := {| marshal _ := None; decode _ := None |}.

#[global] Instance problem_json : JSON problem :=
  {| marshal p := Some (PR_Code p); decode s := Some (mkProblem s) |}.
#[global] Instance command_json : JSON command :=
  table (transportCommand sent) (wired_command time (transportCommand sent)) "command" "".
#[global] Instance result_json : JSON commandResult :=
  table (transportCommandResult done) (wired_result time (transportCommandResult done)) "result" newline.
#[global] Instance page_json : JSON recordPage :=
  table (transportRecordPage page) (wired_page time (transportRecordPage page)) "page" newline.
#[global] Instance worker_json : JSON workerStatusPage := silent.
#[global] Instance queue_json : JSON queueStatusPage := silent.
#[global] Instance record_json : JSON jobRecord := silent.

#[global] Instance laws : WireLaws.
Proof.
  refine {| utf8 := fun _ => True; wire_time := time |}; try done.
  - intros c s _ [E H]%table_law. rewrite E, <-H.
    assert (s +:+ "" = s) as ->; [|done]. clear. induction s as [|a s IH]; [done|].
    change (String a (s +:+ "") = String a s). by rewrite IH.
  - intros r s _ [E H]%table_law. by rewrite E.
  - intros p s _ [E H]%table_law. by rewrite E.
Defined.

Definition worker : handler (list Command) :=
  mkHandler "secret" None (Some (fun c log => (inr done, c :: log)))
    (Some (mkRecordReader _ (fun _ log => (inr page, log)) (fun _ log => (inr page, log))
             (fun _ log => (inl ErrRecordNotFound, log)))).

Definition serve_worker : request -> io (list Command) response :=
  serve Some (fun _ => true) (fun _ => mkResponse 404 None) id id worker.
Definition connection (r : request) : io (list Command) (error + response) :=
  fun w => let '(x, w') := serve_worker r w in (inr x, w').

#[global] Instance exchange : Exchange serve_worker connection.
Proof.
  split.
  - intros r w a w' _. unfold connection. destruct (serve_worker r w) as [x w1].
    intros [= <- <-]. right. simpl. split; [reflexivity|]. right. exists x. auto.
  - intros r w x w' _. unfold connection. destruct (serve_worker r w) as [y w1] eqn:E.
    intros [= <- <-]. exists w. rewrite E. split; [apply rtc_refl|]. auto.
Defined.

Definition client : Client := mkClient (mkURL "https" "worker" false "" "" "") "secret" 4194304.
Definition request : PageRequest := mkPageRequest "" 10 "" SortOccurredAt SortAscending.
End SampleHttp.

Lemma remote_execute_once_witness :
  Client_Execute SampleHttp.connection SampleHttp.client (Some ErrNil) SampleHttp.sent [] =
    (inr SampleHttp.done, [received_command SampleHttp.time SampleHttp.sent]) /\
  exists cmd', cmd' = received_command SampleHttp.time SampleHttp.sent /\ Command_Validate cmd' = ErrNil.
Proof.
  split; [vm_compute; reflexivity|].
  destruct (remote_execute_once (H := SampleHttp.laws) (Exchange0 := SampleHttp.exchange) _ _ _ _ _
              SampleHttp.worker SampleHttp.connection
              SampleHttp.client (fun c log => (inr SampleHttp.done, c :: log)) ErrNil SampleHttp.sent []
              (inr SampleHttp.done) [received_command SampleHttp.time SampleHttp.sent]
              ltac:(reflexivity) ltac:(vm_compute; reflexivity))
    as [[H _]|(cmd' & out & _ & Hv & Hc & _)]; [discriminate H|].
  exists cmd'. split; [|exact Hv]. apply Hc. repeat constructor.
Defined.

Lemma remote_list_exact_witness :
  RecordPage_Validate id id (received_page SampleHttp.time SampleHttp.page) = ErrNil /\
  hiddenRecordPage (received_page SampleHttp.time SampleHttp.page) = true.
Proof.
  destruct (remote_list_exact (H := SampleHttp.laws) (Exchange0 := SampleHttp.exchange) _ _ _ id id
              SampleHttp.worker SampleHttp.connection SampleHttp.client
              ltac:(reflexivity) ltac:(reflexivity)
              (default (mkRecordReader _ (fun _ w => (inr SampleHttp.page, w))
                 (fun _ w => (inr SampleHttp.page, w)) (fun _ w => (inl ErrNil, w)))
                 (h_records SampleHttp.worker)) false ErrNil SampleHttp.request []
              (received_page SampleHttp.time SampleHttp.page) []
              ltac:(reflexivity) ltac:(vm_compute; discriminate) ltac:(vm_compute; reflexivity))
    as (Hv & Hh & _). exact (conj Hv Hh).
Defined.
