(* ===== verification/Fleet.v ===== *)
(** The fleet client (managementhttp/fleet.go): resolution of the endpoints, collection of
    status pages, and routing and aggregation of commands. What the endpoints answer is an
    argument: a fan-out waits for all of its calls, so its outcome depends on the answers
    and not on their order in time. *)

From S2P Require Import Prelude GoStd Sentinels Contract Control Failure Job Status Records Codec Reader.
From S2P Require Import Wire Http.

Definition MaxFleetEndpoints : Z := 100.

Definition ErrInvalidFleetConfiguration : error := Sentinel "managementhttp: invalid fleet configuration".
Definition ErrInvalidFleetEndpoints : error := Sentinel "managementhttp: invalid fleet endpoints".
Definition ErrFleetTargetUnavailable : error := Sentinel "managementhttp: fleet target unavailable".
Definition ErrFleetUnavailable : error := Sentinel "managementhttp: fleet unavailable".

Record Endpoint := mkEndpoint { EP_ID : string; EP_BaseURL : string }.
Record fleetRemote := mkRemote { remote_id : string; remote_client : Client }.

(** [resolver] tells whether it is present. *)
Record FleetClient := mkFleet { F_resolver : bool; F_token : string; F_maxResponseBytes : Z }.

Definition NewFleetClient (resolver : bool) (token : string) (maxResponseBytes : Z) : error + FleetClient :=
  if negb resolver || invalidToken token || (maxResponseBytes <? 0)%Z
  then inl ErrInvalidFleetConfiguration
  else inr (mkFleet resolver token maxResponseBytes).

(** [ctx] is [ctx.Err()]. *)
Definition fleetOperationError (ctx err : error) : error :=
  if negb (is_nil ctx) then ctx
  else if Is err Canceled || Is err DeadlineExceeded then err
  else ErrFleetUnavailable.

(** * Resolution *)

Definition endpoint_le (a b : Endpoint) : Prop := String.le (EP_ID a) (EP_ID b).
#[export] Instance endpoint_le_dec : RelDecision endpoint_le.
Proof. intros a b. unfold endpoint_le. apply _. Defined.
#[export] Instance endpoint_le_trans : Transitive endpoint_le.
Proof. intros a b c. unfold endpoint_le. apply transitivity. Qed.
#[export] Instance endpoint_le_total : Total endpoint_le.
Proof. intros a b. unfold endpoint_le. apply (total String.le). Qed.

Section resolve.
(** [url.Parse], [URL.String] and [strings.ToLower]. *)
Context (Parse : string -> option URL) (URL_String : URL -> string) (ToLower : string -> string).
Context (fleet : FleetClient).

Definition normalized (u : URL) : string := URL_String (u <| U_Host := ToLower (U_Host u) |>).

(** The loop over the sorted endpoints; [previous] is the identifier before. *)
Fixpoint resolve_loop (previous : option string) (seen : gset string) (endpoints : list Endpoint)
  : error + list fleetRemote :=
  match endpoints with
  | [] => inr []
  | e :: endpoints =>
      if (TrimSpace (EP_ID e) != EP_ID e) || (EP_ID e == "") || (256 <? len (EP_ID e))%Z ||
         blank (EP_BaseURL e) || bool_decide (previous = Some (EP_ID e))
      then inl ErrInvalidFleetEndpoints
      else
        match NewClient (Parse (EP_BaseURL e)) (F_token fleet) (F_maxResponseBytes fleet) with
        | inl _ => inl ErrInvalidFleetEndpoints
        | inr remote =>
            let base := normalized (C_baseURL remote) in
            if bool_decide (base ∈ seen) then inl ErrInvalidFleetEndpoints
            else
              match resolve_loop (Some (EP_ID e)) ({[base]} ∪ seen) endpoints with
              | inl err => inl err
              | inr remotes => inr (mkRemote (EP_ID e) remote :: remotes)
              end
        end
  end.

(** [resolved] is what the resolver answers. *)
Definition resolve (ctx : context) (resolved : error + list Endpoint) : error + list fleetRemote :=
  match ctx with
  | None => inl ErrInvalidFleetConfiguration
  | Some ctx =>
      if negb (F_resolver fleet) then inl ErrInvalidFleetConfiguration
      else if negb (is_nil ctx) then inl ctx
      else
        match resolved with
        | inl err => inl (fleetOperationError ctx err)
        | inr endpoints =>
            if (zlen endpoints =? 0)%Z || (MaxFleetEndpoints <? zlen endpoints)%Z
            then inl ErrInvalidFleetEndpoints
            else resolve_loop None ∅ (merge_sort endpoint_le endpoints)
        end
  end.
End resolve.

(** * Collecting the pages of one endpoint *)

(** [readAllFleetWorkers] and [readAllFleetQueues]: the loop has no bound of its own, so
    it runs for a number of pages, [None] when it is not finished by then. [list_] is the
    answer to the request with a cursor, by the number of pages before it. *)
Fixpoint readAllFleet {T} (fuel : nat) (ctx : error) (list_ : nat -> string -> error + (list T * string))
    (n : nat) (items : list T) (cursor : string) (seen : gset string) : option (error + list T) :=
  match fuel with
  | O => None
  | S fuel =>
      match list_ n cursor with
      | inl err => Some (inl (fleetOperationError ctx err))
      | inr (page, next) =>
          let items := items ++ page in
          if (MaxFleetEndpoints <? zlen items)%Z then Some (inl ErrInvalidFleetEndpoints)
          else if next == "" then Some (inr items)
          else if bool_decide (next ∈ seen) then Some (inl ErrInvalidFleetEndpoints)
          else readAllFleet fuel ctx list_ (S n) items next ({[next]} ∪ seen)
      end
  end.

(** * Status *)

(** One worker; [None] once an identifier was seen twice. *)
Definition add_worker (acc : option (gmap string WorkerStatus)) (worker : WorkerStatus)
  : option (gmap string WorkerStatus) :=
  match acc with
  | None => None
  | Some m =>
      match m !! W_ID worker with Some _ => None | None => Some (<[W_ID worker := worker]> m) end
  end.

(** The merge of [workerStatuses]: an endpoint that failed, or a worker that is reported
    twice, fails the call. *)
Fixpoint merge_workers (ctx : error) (results : list (error + list WorkerStatus))
    (workersByID : gmap string WorkerStatus) : error + gmap string WorkerStatus :=
  match results with
  | [] => inr workersByID
  | inl err :: _ => inl (fleetOperationError ctx err)
  | inr workers :: results =>
      match foldl add_worker (Some workersByID) workers with
      | None => inl ErrInvalidFleetEndpoints
      | Some m => merge_workers ctx results m
      end
  end.

(** The merge of [queueStatuses]: the newest observation of each queue name. *)
Definition keep_newest (m : gmap string QueueStatus) (queue : QueueStatus) : gmap string QueueStatus :=
  match m !! Q_Queue queue with
  | Some current => if After (ObservedAt queue) (ObservedAt current) then <[Q_Queue queue := queue]> m else m
  | None => <[Q_Queue queue := queue]> m
  end.
Fixpoint merge_queues (ctx : error) (results : list (error + list QueueStatus))
    (queuesByName : gmap string QueueStatus) : error + gmap string QueueStatus :=
  match results with
  | [] => inr queuesByName
  | inl err :: _ => inl (fleetOperationError ctx err)
  | inr queues :: results => merge_queues ctx results (foldl keep_newest queuesByName queues)
  end.

Section status.
(** The order in which [range] visits the merged map. *)
Context (visit_workers : list WorkerStatus -> list WorkerStatus).
Context (visit_queues : list QueueStatus -> list QueueStatus).

Definition ListWorkers (ctx : context) (remotes : error + list fleetRemote)
    (read : fleetRemote -> error + list WorkerStatus) (request : StatusPageRequest)
  : error + WorkerStatusPage :=
  if negb (is_nil (StatusPageRequest_Validate request)) then inl ErrInvalidRequest
  else
    match remotes with
    | inl err => inl err
    | inr remotes =>
        match merge_workers (default ErrNil ctx) (read <$> remotes) ∅ with
        | inl err => inl err
        | inr merged =>
            let workers := visit_workers (map_to_list merged).*2 in
            match NewStatusReader ((fun _ => false) <$> workers) [] with
            | inl _ => inl ErrFleetUnavailable
            | inr _ => Reader.ListWorkers (inr <$> workers) request
            end
        end
    end.

Definition ListQueues (ctx : context) (remotes : error + list fleetRemote)
    (read : fleetRemote -> error + list QueueStatus) (request : StatusPageRequest)
  : error + QueueStatusPage :=
  if negb (is_nil (StatusPageRequest_Validate request)) then inl ErrInvalidRequest
  else
    match remotes with
    | inl err => inl err
    | inr remotes =>
        match merge_queues (default ErrNil ctx) (read <$> remotes) ∅ with
        | inl err => inl err
        | inr merged =>
            let queues := visit_queues (map_to_list merged).*2 in
            match NewStatusReader [] ((fun _ => false) <$> queues) with
            | inl _ => inl ErrFleetUnavailable
            | inr _ => Reader.ListQueues (inr <$> queues) request
            end
        end
    end.
End status.

(** * Commands *)

(** One worker of an endpoint; [None] once the name was seen twice. *)
Definition claim_target (remote : fleetRemote) (name : string) (acc : option (option fleetRemote))
    (worker : WorkerStatus) : option (option fleetRemote) :=
  match acc with
  | None => None
  | Some target =>
      if W_ID worker == name
      then match target with Some _ => None | None => Some (Some remote) end
      else Some target
  end.

(** The search of [executeWorker]: the endpoint that reports the worker. *)
Fixpoint find_target (ctx : error) (read : fleetRemote -> error + list WorkerStatus) (name : string)
    (remotes : list fleetRemote) (target : option fleetRemote) : error + option fleetRemote :=
  match remotes with
  | [] => inr target
  | remote :: remotes =>
      match read remote with
      | inl err => inl (fleetOperationError ctx err)
      | inr workers =>
          match foldl (claim_target remote name) (Some target) workers with
          | None => inl ErrInvalidFleetEndpoints
          | Some target => find_target ctx read name remotes target
          end
      end
  end.

(** The endpoints a command is sent to go with its result. *)
Definition executeWorker (ctx : error) (read : fleetRemote -> error + list WorkerStatus)
    (execute : fleetRemote -> error + CommandResult) (remotes : list fleetRemote) (command : Command)
  : (error + CommandResult) * list fleetRemote :=
  match find_target ctx read (Name (Command_Target command)) remotes None with
  | inl err => (inl err, [])
  | inr None => (inl ErrFleetTargetUnavailable, [])
  | inr (Some target) => (execute target, [target])
  end.

(** The aggregation loop: how many endpoints completed, whether they agree, their first
    status and code, and the latest completion. A failed call has the zero result. *)
Record aggregate := mkAggregate {
  g_completed : nat; g_unanimous : bool; g_status : string; g_code : string; g_at : Time
}.
Definition aggregate_step (g : aggregate) (answer : error + CommandResult) : aggregate :=
  let result := match answer with inl _ => zeroResult | inr r => r end in
  let g :=
    match answer with
    | inl _ => g
    | inr _ =>
        let g :=
          if (g_completed g =? 0)%nat
          then g <| g_status := Control.Status result |> <| g_code := FailureCode result |>
          else if (Control.Status result != g_status g) || (FailureCode result != g_code g)
          then g <| g_unanimous := false |> else g in
        g <| g_completed := S (g_completed g) |>
    end in
  if After (CompletedAt result) (g_at g) then g <| g_at := CompletedAt result |> else g.

Definition executeFleet (ctx : error) (answers : list (error + CommandResult)) (command : Command)
  : error + CommandResult :=
  let g := foldl aggregate_step (mkAggregate 0 true "" "" (RequestedAt command)) answers in
  if (g_completed g =? 0)%nat then inl (fleetOperationError ctx ErrFleetUnavailable)
  else
    let '(status, failureCode) :=
      if (g_completed g =? length answers)%nat && g_unanimous g then (g_status g, g_code g)
      else (CommandPartial, "fleet_partial") in
    inr (mkResult (ID command) (IdempotencyKey command) "fleet" (Protocol command) status failureCode (g_at g)).

(** [remotes[0]]. *)
Definition first (remotes : list fleetRemote) : go fleetRemote :=
  match remotes with remote :: _ => Ret remote | [] => Panic "index out of range" end.

Definition FleetClient_Execute (ctx : context) (remotes : error + list fleetRemote)
    (read : fleetRemote -> error + list WorkerStatus) (execute : fleetRemote -> error + CommandResult)
    (command : Command) : go ((error + CommandResult) * list fleetRemote) :=
  match ctx with
  | None => Ret (inl ErrInvalidRequest, [])
  | Some ctx =>
      if negb (is_nil (Command_Validate command)) then Ret (inl ErrInvalidRequest, [])
      else
        match remotes with
        | inl err => Ret (inl err, [])
        | inr remotes =>
            let kind := Kind (Command_Target command) in
            if kind == TargetWorker then Ret (executeWorker ctx read execute remotes command)
            else if (kind == TargetQueue) || (kind == TargetWorkerGroup)
            then Ret (executeFleet ctx (execute <$> remotes) command, remotes)
            else remote ← first remotes; Ret (execute remote, [remote])
        end
  end.

(** * Records: the first endpoint answers for all *)

Definition ask_first {A} (valid : error) (remotes : error + list fleetRemote)
    (ask : fleetRemote -> error + A) : go (error + A) :=
  if negb (is_nil valid) then Ret (inl ErrInvalidRequest)
  else
    match remotes with
    | inl err => Ret (inl err)
    | inr remotes => remote ← first remotes; Ret (ask remote)
    end.

Definition FleetClient_ListFailures (remotes : error + list fleetRemote)
    (ask : fleetRemote -> PageRequest -> error + RecordPage) (request : PageRequest) :=
  ask_first (PageRequest_Validate request) remotes (fun remote => ask remote request).
Definition FleetClient_ListDeadLetters (remotes : error + list fleetRemote)
    (ask : fleetRemote -> PageRequest -> error + RecordPage) (request : PageRequest) :=
  ask_first (PageRequest_Validate request) remotes (fun remote => ask remote request).
Definition FleetClient_Inspect (remotes : error + list fleetRemote)
    (ask : fleetRemote -> InspectRequest -> error + JobRecord) (request : InspectRequest) :=
  ask_first (InspectRequest_Validate request) remotes (fun remote => ask remote request).
