(* ===== verification/FleetSafety.v ===== *)
(** Theorems on the fleet client: its endpoints are distinct and bounded, an aggregated
    result says no more than every endpoint said, a command for one worker reaches the one
    endpoint that reports it, and collecting pages ends. *)

From S2P Require Import Prelude GoStd Sentinels Contract Control Failure Job Status Records Codec Reader.
From S2P Require Import Wire Http Fleet.

(** * Endpoints *)

Section resolve.
Context (Parse : string -> option URL) (URL_String : URL -> string) (ToLower : string -> string).
Context (fleet : FleetClient).

Local Abbreviation base r := (normalized URL_String ToLower (C_baseURL (remote_client r))).

Lemma resolve_loop_ok previous seen endpoints remotes :
  resolve_loop Parse URL_String ToLower fleet previous seen endpoints = inr remotes ->
  remote_id <$> remotes = EP_ID <$> endpoints /\
  NoDup ((fun r => base r) <$> remotes) /\
  Forall (fun r => (base r ∉ seen) /\ C_token (remote_client r) = F_token fleet) remotes /\
  (forall p e rest, previous = Some p -> endpoints = e :: rest -> p <> EP_ID e) /\
  (forall i a b, (EP_ID <$> endpoints) !! i = Some a -> (EP_ID <$> endpoints) !! S i = Some b -> a <> b).
Proof.
  revert previous seen remotes. induction endpoints as [|e endpoints IH]; intros previous seen remotes; simpl.
  { intros [= <-]. split_and!; try done; constructor. }
  destruct (_ || bool_decide (previous = Some (EP_ID e))) eqn:Hbad; [done|].
  apply orb_false_iff in Hbad as [_ Hp%bool_decide_eq_false].
  destruct (NewClient _ _ _) as [|client] eqn:Hn; [done|].
  case_bool_decide as Hseen; [done|].
  destruct (resolve_loop _ _ _ _ _ _ endpoints) as [|rest] eqn:Hl; [done|]. intros [= <-].
  apply IH in Hl as (Hids & Hnd & Hf & Hprev & Hadj). simpl. split_and!.
  - by f_equal.
  - apply NoDup_cons. split; [|done]. intros (r & Er & Hr)%list_elem_of_fmap.
    rewrite Forall_forall in Hf. destruct (Hf r Hr) as [Hin _]. set_solver.
  - constructor.
    + split; [done|]. unfold NewClient in Hn. simpl. destruct (Parse _); [|done].
      case_test; [done|]. by injection Hn as <-.
    + eapply Forall_impl; [exact Hf|]. intros r [? ?]. split; [set_solver|done].
  - intros p e' rest' -> [= -> ->] ->. done.
  - intros [|i] a b; simpl.
    + intros [= <-] Hb. destruct endpoints as [|e2 rest2]; [done|]. injection Hb as <-. by eapply Hprev.
    + apply Hadj.
Qed.

(** Sorted strings whose neighbours differ are distinct. *)
Lemma sorted_distinct (l : list string) :
  StronglySorted String.le l ->
  (forall i a b, l !! i = Some a -> l !! S i = Some b -> a <> b) -> NoDup l.
Proof.
  induction 1 as [|a l Hs IH Hf]; intros Hadj; [constructor|].
  apply NoDup_cons. split; [|apply IH; intros i; apply (Hadj (S i))].
  intros Ha. destruct l as [|b l]; [set_solver|].
  apply (Hadj 0%nat a b); try done. apply (anti_symm String.le).
  - by apply Forall_cons in Hf as [? _].
  - apply StronglySorted_inv in Hs as [_ Hb]. apply elem_of_cons in Ha as [->|Ha]; [done|].
    rewrite Forall_forall in Hb. by apply Hb.
Qed.

(** A resolved fleet has between 1 and 100 endpoints, in the order of their
    identifiers, with distinct identifiers and distinct normalized origins, and only
    clients that carry the token of the fleet. *)
Theorem fleet_endpoints_distinct ctx resolved remotes :
  resolve Parse URL_String ToLower fleet ctx resolved = inr remotes ->
  (1 <= length remotes <= 100)%nat /\
  StronglySorted String.le (remote_id <$> remotes) /\ NoDup (remote_id <$> remotes) /\
  NoDup ((fun r => base r) <$> remotes) /\
  Forall (fun r => C_token (remote_client r) = F_token fleet) remotes.
Proof.
  unfold resolve. destruct ctx as [ctx|]; [|done]. repeat (case_test; [done|]).
  destruct resolved as [|endpoints]; [done|]. destruct (_ || _) eqn:Hlen; [done|].
  intros (Hids & Hnd & Hf & _ & Hadj)%resolve_loop_ok.
  assert (length remotes = length endpoints) as Hl.
  { rewrite <-(length_fmap remote_id), Hids, length_fmap. by rewrite merge_sort_Permutation. }
  assert (StronglySorted String.le (remote_id <$> remotes)) as Hs.
  { rewrite Hids. apply (StronglySorted_fmap EP_ID endpoint_le); [done|].
    apply (StronglySorted_merge_sort endpoint_le). }
  split_and!; try done.
  - unfold zlen, MaxFleetEndpoints in Hlen. lia.
  - unfold zlen, MaxFleetEndpoints in Hlen. lia.
  - apply sorted_distinct; [done|]. by rewrite Hids.
  - eapply Forall_impl; [exact Hf|]. by intros r [_ ?].
Qed.
End resolve.

(** * Aggregation *)

(** What the loop knows after some answers. *)
Record aggregate_ok (requested : Time) (answers : list (error + CommandResult)) (g : aggregate) : Prop := {
  ag_some : (0 < g_completed g)%nat <-> exists r, inr r ∈ answers;
  ag_bound : (g_completed g <= length answers)%nat;
  ag_all : g_completed g = length answers -> forall a, a ∈ answers -> exists r, a = inr r;
  ag_agree : g_unanimous g = true -> forall r, inr r ∈ answers ->
    Control.Status r = g_status g /\ FailureCode r = g_code g;
  ag_first : (0 < g_completed g)%nat -> exists r, inr r ∈ answers /\
    Control.Status r = g_status g /\ FailureCode r = g_code g;
  ag_latest : forall r, inr r ∈ answers -> (wall (CompletedAt r) <= wall (g_at g))%Z;
  ag_after : (wall requested <= wall (g_at g))%Z
}.

Lemma aggregate_start requested : aggregate_ok requested [] (mkAggregate 0 true "" "" requested).
Proof. split; simpl; try done; try lia; intros; [split; [lia|]|..]; set_solver. Qed.

(** The fields after one more answer. *)
Lemma step_failed g e :
  let g' := aggregate_step g (inl e) in
  g_completed g' = g_completed g /\ g_unanimous g' = g_unanimous g /\ g_status g' = g_status g /\
  g_code g' = g_code g /\ (wall (g_at g) <= wall (g_at g'))%Z.
Proof.
  destruct g as [n u st co t]. unfold aggregate_step. simpl.
  destruct (After zeroTime t) eqn:E; simpl; split_and!; try done.
  unfold After in E. simpl in E. lia.
Qed.

Lemma step_completed g r :
  mono (CompletedAt r) = None ->
  let g' := aggregate_step g (inr r) in
  g_completed g' = S (g_completed g) /\
  (wall (g_at g) <= wall (g_at g'))%Z /\ (wall (CompletedAt r) <= wall (g_at g'))%Z /\
  (g_completed g = 0%nat -> g_status g' = Control.Status r /\ g_code g' = FailureCode r) /\
  (g_completed g <> 0%nat -> g_status g' = g_status g /\ g_code g' = g_code g /\
     (g_unanimous g' = true -> g_unanimous g = true /\
        Control.Status r = g_status g /\ FailureCode r = g_code g)).
Proof.
  intros Hm. destruct g as [n u st co t]. unfold aggregate_step. simpl.
  assert (After (CompletedAt r) t = (wall t <? wall (CompletedAt r))%Z) as Ha.
  { unfold After. by rewrite Hm. }
  destruct n as [|n]; simpl.
  - rewrite Ha. case_test; simpl; split_and!; try done; lia.
  - destruct (_ || _) eqn:E; simpl; rewrite Ha; case_test; simpl; split_and!; try done; try lia;
      intros _; split_and!; try done;
      apply orb_false_iff in E as [E1%negb_false_iff%String.eqb_eq E2%negb_false_iff%String.eqb_eq];
      done.
Qed.

Lemma aggregate_step_ok requested answers g a :
  (forall r, a = inr r -> mono (CompletedAt r) = None) -> aggregate_ok requested answers g ->
  aggregate_ok requested (answers ++ [a]) (aggregate_step g a).
Proof.
  intros Hm [Hsome Hb Hall Hagree Hfirst Hlat Haft].
  assert (g_completed g = 0%nat -> forall x, inr x ∉ answers) as Hnone.
  { intros E x Hx. assert (0 < g_completed g)%nat; [|lia]. apply Hsome. by exists x. }
  destruct a as [e|r].
  - destruct (step_failed g e) as (En & Eu & Es & Ec & Et).
    split; rewrite ?En, ?Eu, ?Es, ?Ec, ?length_app; simpl; try lia.
    + rewrite Hsome. set_solver.
    + intros Hu r. rewrite elem_of_app. set_solver.
    + intros (r & ? & ?)%Hfirst. exists r. set_solver.
    + intros r. rewrite elem_of_app. intros [?%Hlat|?]; [lia|set_solver].
  - destruct (step_completed g r (Hm r eq_refl)) as (En & Et & Er & E0 & E1).
    split; rewrite ?En, ?length_app; simpl; try lia.
    + split; [|lia]. intros _. exists r. set_solver.
    + intros Hl a. rewrite elem_of_app, list_elem_of_singleton. intros [?| ->]; [|by exists r].
      apply Hall; [lia|done].
    + intros Hu x. rewrite elem_of_app, list_elem_of_singleton.
      destruct (decide (g_completed g = 0%nat)) as [Hz|Hnz].
      * destruct (E0 Hz) as [-> ->]. intros [Hx|[= ->]]; [by apply Hnone in Hx|done].
      * destruct (E1 Hnz) as (-> & -> & Hu'). destruct (Hu' Hu) as (Hug & Hs1 & Hc1).
        intros [Hx|[= ->]]; [by apply Hagree|done].
    + intros _. destruct (decide (g_completed g = 0%nat)) as [Hz|Hnz].
      * exists r. destruct (E0 Hz) as [-> ->]. set_solver.
      * destruct Hfirst as (x & ? & ?); [lia|]. destruct (E1 Hnz) as (-> & -> & _). exists x. set_solver.
    + intros x. rewrite elem_of_app, list_elem_of_singleton. intros [?%Hlat|[= ->]]; lia.
Qed.

Lemma aggregate_all requested answers :
  (forall r, inr r ∈ answers -> mono (CompletedAt r) = None) ->
  aggregate_ok requested answers (foldl aggregate_step (mkAggregate 0 true "" "" requested) answers).
Proof.
  induction answers as [|a answers IH] using rev_ind; intros Hm; [apply aggregate_start|].
  rewrite foldl_app. simpl. apply aggregate_step_ok.
  - intros r ->. apply Hm. set_solver.
  - apply IH. intros r Hr. apply Hm. set_solver.
Qed.

Lemma result_valid_parts r :
  CommandResult_Validate r = ErrNil ->
  CommandResultStatus_valid (Control.Status r) = true /\
  (requiresFailureCode (Control.Status r) = true -> identity (FailureCode r)).
Proof.
  unfold CommandResult_Validate. rewrite !invalid_if, !invalidIdentity_false, !negb_false.
  intros (_ & _ & _ & _ & ? & _ & Hc & _). split; [done|]. intros Hr. rewrite Hr in Hc. simpl in Hc.
  by apply invalidIdentity_false.
Qed.

Lemma fleet_result_valid command status code at_ :
  Command_Validate command = ErrNil -> CommandResultStatus_valid status = true ->
  (requiresFailureCode status = true -> identity code) -> (0 < wall at_)%Z ->
  CommandResult_Validate (mkResult (ID command) (IdempotencyKey command) "fleet" (Protocol command)
                            status code at_) = ErrNil.
Proof.
  intros Hv Hs Hc Ha. apply Command_Validate_ok in Hv. destruct Hv.
  apply CommandResult_Validate_ok; simpl; try done.
  unfold IsZero. lia.
Qed.

(** The result of a fan-out is honest. The call fails only when no endpoint answered.
    Otherwise its result is valid, answers the command and is not older than any answer;
    it is either marked partial, or every endpoint answered with exactly its status and
    failure code. So a command is acknowledged only when all endpoints acknowledged it. *)
Theorem fleet_result_honest ctx answers command :
  Command_Validate command = ErrNil -> (0 < wall (RequestedAt command))%Z ->
  (forall r, inr r ∈ answers -> CommandResult_Validate r = ErrNil /\ mono (CompletedAt r) = None) ->
  match executeFleet ctx answers command with
  | inl _ => forall r, inr r ∉ answers
  | inr result =>
      CommandResult_Validate result = ErrNil /\ matchingResult command result = true /\
      (forall r, inr r ∈ answers -> (wall (CompletedAt r) <= wall (CompletedAt result))%Z) /\
      ((Control.Status result = CommandPartial /\ FailureCode result = "fleet_partial") \/
       (forall a, a ∈ answers -> exists r, a = inr r /\
          Control.Status r = Control.Status result /\ FailureCode r = FailureCode result))
  end.
Proof.
  intros Hv Hw Hans. unfold executeFleet.
  destruct (aggregate_all (RequestedAt command) answers) as [Hsome Hb Hall Hagree Hfirst Hlat Haft].
  { intros r Hr. by apply Hans. }
  set (g := foldl _ _ _) in *. destruct (Nat.eqb_spec (g_completed g) 0) as [Hz|Hnz].
  { intros r Hr. assert (0 < g_completed g)%nat; [|lia]. apply Hsome. by exists r. }
  assert (matchingResult command (mkResult (ID command) (IdempotencyKey command) "fleet"
            (Protocol command) "" "" zeroTime) = true) as Hm.
  { unfold matchingResult. simpl. by rewrite !String.eqb_refl. }
  destruct (_ && g_unanimous g) eqn:E; split_and!; try done; try (by left).
  - destruct Hfirst as (r & Hr & Hs & Hc); [lia|]. destruct (Hans r Hr) as [Hrv _].
    apply result_valid_parts in Hrv as [? ?]. rewrite Hs, Hc in *. apply fleet_result_valid; try done. lia.
  - right. simpl. apply andb_true_iff in E as [El%Nat.eqb_eq Eu]. intros a Ha.
    destruct (Hall El a Ha) as [r ->]. exists r. split; [done|]. by apply Hagree.
  - apply fleet_result_valid; try done. lia.
Qed.

(** * Routing *)

(** The endpoints that report a worker of this name, once for each report. *)
Definition reporters (read : fleetRemote -> list WorkerStatus) (name : string) (remotes : list fleetRemote)
  : list fleetRemote :=
  remotes ≫= fun remote => (fun _ => remote) <$> filter (fun w => W_ID w = name) (read remote).

Lemma claim_twice remote name workers : foldl (claim_target remote name) None workers = None.
Proof. by induction workers. Qed.

(** The scan of one endpoint. *)
Lemma scan_target remote name workers target :
  foldl (claim_target remote name) (Some target) workers =
  match (fun _ => remote) <$> filter (fun w => W_ID w = name) workers, target with
  | [], _ => Some target
  | [_], None => Some (Some remote)
  | _, _ => None
  end.
Proof.
  revert target. induction workers as [|w workers IH]; intros target; [done|].
  cbn [foldl claim_target]. rewrite filter_cons.
  destruct (String.eqb_spec (W_ID w) name) as [Hw|Hw].
  - rewrite decide_True by done. destruct target; [rewrite claim_twice; by destruct (filter _ workers)|]. rewrite IH.
    rewrite fmap_cons. destruct ((fun _ => remote) <$> filter (fun w => W_ID w = name) workers) as [|? []]; done.
  - rewrite decide_False by done. apply IH.
Qed.

Lemma find_target_ok ctx read name remotes target :
  find_target ctx (fun r => inr (read r)) name remotes target =
  match reporters read name remotes, target with
  | [], _ => inr target
  | [t], None => inr (Some t)
  | _, _ => inl ErrInvalidFleetEndpoints
  end.
Proof.
  revert target. induction remotes as [|remote remotes IH]; intros target; [done|].
  cbn [find_target]. rewrite scan_target. unfold reporters. rewrite bind_cons. fold (reporters read name remotes).
  destruct (filter _ (read remote)) as [|w [|w' ws]]; simpl.
  - apply IH.
  - destruct target; [by destruct (reporters read name remotes) as [|? []]|].
    rewrite IH. by destruct (reporters read name remotes) as [|? []].
  - destruct target; by destruct (reporters read name remotes), ws.
Qed.

Lemma find_target_ext ctx read read' name remotes target :
  (forall r, r ∈ remotes -> read r = read' r) ->
  find_target ctx read name remotes target = find_target ctx read' name remotes target.
Proof.
  revert target. induction remotes as [|remote remotes IH]; intros target H; [done|].
  cbn [find_target]. rewrite <-H by set_solver. destruct (read remote); [done|].
  destruct (foldl _ _ _); [|done]. apply IH. set_solver.
Qed.

(** A failing endpoint fails the search. *)
Lemma find_target_failed ctx read name remotes target :
  (exists r err, r ∈ remotes /\ read r = inl err) ->
  exists err, find_target ctx read name remotes target = inl err.
Proof.
  revert target. induction remotes as [|remote remotes IH]; intros target (r & err & Hr & He); [set_solver|].
  cbn [find_target]. destruct (read remote) as [e|ws] eqn:E; [by eauto|].
  destruct (foldl _ _ _); [|by eauto]. apply IH. exists r, err. split; [|done].
  apply elem_of_cons in Hr as [->|?]; [congruence|done].
Qed.

(** A command for one worker is sent to the one endpoint that reports it and to no
    other. It is sent to nobody when an endpoint cannot be read, when no endpoint reports
    the worker, or when it is reported more than once, also by the same endpoint. *)
Theorem fleet_routes_exact ctx read execute remotes command :
  match mapM (fun r => match read r with inl _ => None | inr ws => Some ws end) remotes with
  | None => exists err, executeWorker ctx read execute remotes command = (inl err, [])
  | Some _ =>
      executeWorker ctx read execute remotes command =
      match reporters (fun r => match read r with inl _ => [] | inr ws => ws end)
              (Name (Command_Target command)) remotes with
      | [] => (inl ErrFleetTargetUnavailable, [])
      | [target] => (execute target, [target])
      | _ => (inl ErrInvalidFleetEndpoints, [])
      end
  end.
Proof.
  unfold executeWorker.
  destruct (mapM _ remotes) as [lists|] eqn:Hm.
  - rewrite (find_target_ext ctx read (fun r => inr match read r with inl _ => [] | inr ws => ws end)).
    + rewrite find_target_ok. by destruct (reporters _ _ remotes) as [|t [|]].
    + intros r Hr. destruct (read r) eqn:E; [|done]. rewrite mapM_None_2 in Hm; [done|].
      apply Exists_exists. exists r. by rewrite E.
  - apply mapM_None, Exists_exists in Hm as (r & Hr & He).
    destruct (read r) as [e|] eqn:E; [|done].
    destruct (find_target_failed ctx read (Name (Command_Target command)) remotes None) as [err ->]; eauto.
Qed.

(** * Collecting pages *)

(** With servers that never send an empty page before the last, 101 pages are enough, and
    what is collected stays within the bound. *)
Lemma readAllFleet_ends {T} fuel ctx (list_ : nat -> string -> error + (list T * string)) n items cursor seen :
  (forall n cursor page next, list_ n cursor = inr (page, next) -> next <> "" -> page <> []) ->
  (zlen items <= MaxFleetEndpoints)%Z -> (101 <= length items + fuel)%nat ->
  exists r, readAllFleet fuel ctx list_ n items cursor seen = Some r /\
    (forall all, r = inr all -> (zlen all <= MaxFleetEndpoints)%Z).
Proof.
  intros Hpage. revert n items cursor seen. unfold zlen, MaxFleetEndpoints.
  induction fuel as [|fuel IH]; intros n items cursor seen Hi Hf; [lia|]. simpl.
  destruct (list_ n cursor) as [err|[page next]] eqn:E; [eexists; split; [done|]; naive_solver|].
  case_test; [eexists; split; [done|]; naive_solver|]. unfold zlen, MaxFleetEndpoints in E0.
  destruct (String.eqb_spec next "") as [->|Hn].
  { eexists. split; [done|]. intros all [= <-]. lia. }
  case_bool_decide; [eexists; split; [done|]; naive_solver|].
  specialize (Hpage _ _ _ _ E Hn). rewrite length_app in *. apply IH; rewrite ?length_app; [lia|].
  destruct page; [done|]. simpl. lia.
Qed.

(** * Concrete fleets *)
Module SampleFleet.

Definition parse (s : string) : option URL := Some (mkURL "https" s false "" "" "").
Definition fleet : FleetClient := mkFleet true "secret" 0.
Definition endpoints : list Endpoint := [mkEndpoint "b" "two"; mkEndpoint "a" "one"].
Definition remotes : list fleetRemote :=
  [mkRemote "a" (mkClient (mkURL "https" "one" false "" "" "") "secret" 4194304);
   mkRemote "b" (mkClient (mkURL "https" "two" false "" "" "") "secret" 4194304)].

Definition command : Command :=
  mkCommand "c1" "key-1" "operator" "incident" (mkVersion 1 0) CommandPause
    (mkTarget TargetQueue "jobs") (mkTime 100 None 0) (mkTime 200 None 0) true None None.
Definition answer (worker status code : string) (at_ : Z) : CommandResult :=
  mkResult "c1" "key-1" worker (mkVersion 1 0) status code (mkTime at_ None 0).
(** One endpoint pauses, the other refuses. *)
Definition answers : list (error + CommandResult) :=
  [inr (answer "w1" CommandAcknowledged "" 150); inr (answer "w2" CommandRejected "not_ready" 140)].
End SampleFleet.

Lemma fleet_endpoints_distinct_witness :
  resolve SampleFleet.parse U_Host id SampleFleet.fleet (Some ErrNil) (inr SampleFleet.endpoints) =
    inr SampleFleet.remotes /\
  NoDup (remote_id <$> SampleFleet.remotes).
Proof.
  split; [vm_compute; reflexivity|].
  exact (proj1 (proj2 (proj2 (fleet_endpoints_distinct SampleFleet.parse U_Host id SampleFleet.fleet
           (Some ErrNil) (inr SampleFleet.endpoints) SampleFleet.remotes ltac:(vm_compute; reflexivity))))).
Defined.

Lemma fleet_result_honest_witness :
  match executeFleet ErrNil SampleFleet.answers SampleFleet.command with
  | inl _ => False
  | inr result => CommandResult_Validate result = ErrNil /\ Control.Status result = CommandPartial
  end.
Proof.
  pose proof (fleet_result_honest ErrNil SampleFleet.answers SampleFleet.command
                ltac:(vm_compute; reflexivity) ltac:(vm_compute; reflexivity)) as H.
  destruct (executeFleet ErrNil SampleFleet.answers SampleFleet.command) as [err|result] eqn:E.
  - vm_compute in E. discriminate E.
  - split.
    + apply H. intros r Hr. unfold SampleFleet.answers in Hr.
      repeat (apply elem_of_cons in Hr as [[= ->]|Hr]; [split; vm_compute; reflexivity|]).
      apply not_elem_of_nil in Hr. destruct Hr.
    + vm_compute in E. injection E as <-. reflexivity.
Defined.
