(* ===== verification/Service.v ===== *)
(** The service adapter (adapters/service/queueservice.go), its sequential part: option
    validation, the callback boundary that turns failures and panics into errors that
    carry no text of their cause, the publish path with its acceptance result, the
    delivery handler, and the small adapter of a queue. The lifecycles of the producer
    and of the worker are in [ServiceLifecycle].

    The correlation and telemetry libraries, contexts and application callbacks are
    the class [Host]; a callback can panic. *)

From S2P Require Import Prelude GoStd Sentinels Contract Job.

Definition MaxNameBytes : Z := 128.

(** * Callback operations and publish acceptance *)

Definition CallbackStartup : Z := 1.
Definition CallbackReadiness : Z := 2.
Definition CallbackPublish : Z := 3.
Definition CallbackHandler : Z := 4.
Definition CallbackRun : Z := 5.
Definition CallbackShutdown : Z := 6.
Definition CallbackAdmission : Z := 7.

Definition PublishNotAccepted : Z := 1.
Definition PublishAccepted : Z := 2.
Definition PublishUnknown : Z := 3.

Definition callbackOperationName (operation : Z) : string :=
  if (operation =? CallbackStartup)%Z then "startup"
  else if (operation =? CallbackReadiness)%Z then "readiness"
  else if (operation =? CallbackPublish)%Z then "publish"
  else if (operation =? CallbackHandler)%Z then "handler"
  else if (operation =? CallbackRun)%Z then "run"
  else if (operation =? CallbackShutdown)%Z then "shutdown"
  else if (operation =? CallbackAdmission)%Z then "admission"
  else "unknown".

Definition publishAcceptanceName (acceptance : Z) : string :=
  if (acceptance =? PublishNotAccepted)%Z then "not-accepted"
  else if (acceptance =? PublishAccepted)%Z then "accepted"
  else if (acceptance =? PublishUnknown)%Z then "unknown"
  else "invalid".

(** * Errors *)

Definition ErrInvalidOptions : error := Sentinel "invalid queue service options".
Definition ErrUnavailable : error := Sentinel "queue service adapter unavailable".
Definition ErrMissingCorrelation : error := Sentinel "queue service producer correlation missing".
Definition ErrCallbackPanic : error := Sentinel "queue service callback panicked".
Definition ErrPublishOutcomeUnknown : error := Sentinel "queue service publish outcome unknown".
Definition ErrInvalidPublishAcceptance : error :=
  Sentinel "queue service publish acceptance invalid".
Definition ErrWorkerExited : error := Sentinel "queue service worker exited unexpectedly".

Definition OptionsError (field reason : string) : error :=
  Wrap (field +:+ ": " +:+ reason +:+ ": invalid queue service options") ErrInvalidOptions.

Definition CallbackPanicError (operation : Z) : error :=
  Wrap ("queue service " +:+ callbackOperationName operation +:+ " callback panicked")
    ErrCallbackPanic.

Definition CallbackError (operation : Z) (err : error) : error :=
  Wrap ("queue service " +:+ callbackOperationName operation +:+ " callback failed") err.

(** Unwraps to the validation and, when there is one, the cleanup failure. *)
Definition StartupError (validation cleanup : error) : error :=
  if negb (is_nil cleanup)
  then Join "queue service startup validation and cleanup failed" [validation; cleanup]
  else Join "queue service startup validation failed" [validation].

Definition PublishError (acceptance : Z) (err : error) : error :=
  Wrap ("queue service publish failed with " +:+ publishAcceptanceName acceptance +:+ " acceptance") err.

(** * utf8.ValidString *)

Definition continuation (c : ascii) : bool := byte_in 128 191 c.

Fixpoint valid_utf8 (s : list ascii) : bool :=
  match s with
  | [] => true
  | a :: s1 =>
      if byte_in 0 127 a then valid_utf8 s1
      else match s1 with
           | [] => false
           | b :: s2 =>
               if byte_in 194 223 a then continuation b && valid_utf8 s2
               else match s2 with
                    | [] => false
                    | c :: s3 =>
                        if byte_in 224 239 a then
                          byte_in (if byte_in 224 224 a then 160 else 128)
                                  (if byte_in 237 237 a then 159 else 191) b
                          && continuation c && valid_utf8 s3
                        else match s3 with
                             | [] => false
                             | d :: s4 =>
                                 byte_in 240 244 a
                                 && byte_in (if byte_in 240 240 a then 144 else 128)
                                            (if byte_in 244 244 a then 143 else 191) b
                                 && continuation c && continuation d && valid_utf8 s4
                             end
                    end
           end
  end.

Definition ValidString (s : string) : bool := valid_utf8 (list_ascii_of_string s).

Definition validName (name : string) : bool :=
  (len name <=? MaxNameBytes)%Z && ValidString name && negb (blank name).

(** A value passed as [any]: a nil interface, a nil pointer, function, map, slice or
    channel inside an interface, or anything else. *)
Inductive dynamic (A : Type) := NilInterface | TypedNil | Value (a : A).
Arguments NilInterface {A}.
Arguments TypedNil {A}.
Arguments Value {A} a.

Definition nilValue {A} (value : dynamic A) : bool :=
  match value with
  | NilInterface => true
  | TypedNil => true
  | Value _ => false
  end.

Definition is_interface_nil {A} (value : dynamic A) : bool :=
  match value with NilInterface => true | _ => false end.

(** * Publish results *)

Definition normalizePublishResult (acceptance : Z) (err : error) : Z * error :=
  if (acceptance =? PublishAccepted)%Z then
    if is_nil err then (acceptance, ErrNil) else (acceptance, PublishError acceptance err)
  else if (acceptance =? PublishNotAccepted)%Z && negb (is_nil err)
  then (acceptance, PublishError acceptance err)
  else if (acceptance =? PublishUnknown)%Z
  then (acceptance, PublishError acceptance (errors_Join [ErrPublishOutcomeUnknown; err]))
  else if negb (acceptance =? PublishNotAccepted)%Z
  then (PublishUnknown,
        PublishError PublishUnknown
          (errors_Join [ErrPublishOutcomeUnknown; ErrInvalidPublishAcceptance; err]))
  else (acceptance, PublishError acceptance (errors_Join [ErrInvalidPublishAcceptance; err])).

(** * Metadata of a publication *)

Abbreviation carrier := (gmap string string).

Section metadata.
Variable order : list (string * string) -> list (string * string).

(** A [range] that stores every entry into a map. *)
Definition store_all (from : list (string * string)) (into : carrier) : carrier :=
  fold_left (fun m kv => <[kv.1 := kv.2]> m) (order from) into.

Definition correlationCarrier (options : list AllowOption) : carrier :=
  match options with
  | [] => ∅
  | o :: _ =>
      match aMetadata o with
      | None => ∅
      | Some m => store_all (entries (Correlation m)) ∅
      end
  end.

Definition service_cloneMetadata (metadata : option Metadata) : option Metadata :=
  match metadata with
  | None => None
  | Some m =>
      Some (m <| Tags := clone_map order (Tags m) |>
              <| TraceContext := clone_map order (TraceContext m) |>)
  end.

Definition zeroMetadata : Metadata := mkMetadata "" "" "" None "" "" "" None "" "" "" None None.
Definition zeroAllowOption : AllowOption := mkAllowOption None None None None None None None None.

Definition withTransportMetadata (options : list AllowOption) (correlation trace : carrier)
    : list AllowOption :=
  let copied := if (length options =? 0)%nat then [zeroAllowOption] else options in
  match copied with
  | [] => []
  | first :: rest =>
      let metadata := default zeroMetadata (service_cloneMetadata (aMetadata first)) in
      let metadata := metadata <| Correlation := Some (store_all (map_to_list correlation) ∅) |> in
      let metadata :=
        metadata <| TraceContext :=
          if (size trace =? 0)%nat then None else Some (store_all (map_to_list trace) ∅) |> in
      first <| aMetadata := Some metadata |> :: rest
  end.

(** The [range] over the map deletes blank values. *)
Definition removeEmptyFields (c : carrier) : carrier :=
  fold_left (fun m kv => if blank kv.2 then delete kv.1 m else m) (order (map_to_list c)) c.

End metadata.

(** * The host: contexts, correlation, telemetry and the message types *)

Class Host (W : Type) := {
  Ctx : Type;
  Values : Type;
  zeroValues : Values;
  Factory : Type;
  CorrelationOptions : Type;
  Adapter : Type;
  Propagator : Type;
  QueuedMessage : Type;
  TaskMessage : Type;
  Cause : Ctx -> io W error;
  FromContext : Ctx -> option Values;
  WithValues : Ctx -> Values -> Ctx;
  NewAdapter : Factory -> CorrelationOptions -> error + Adapter;
  Send : Adapter -> carrier -> Values -> io W (error + Values * carrier);
  Receive : Adapter -> option carrier -> bool -> io W (error + Values);
  Inject : Propagator -> Ctx -> carrier -> io W (go carrier);
  Extract : Propagator -> Ctx -> option carrier -> io W (go Ctx);
  (** A method the message may not have. *)
  correlation_method : TaskMessage -> option (io W (go (option carrier)));
  trace_method : TaskMessage -> option (io W (go (option carrier)))
}.

Section service.
Context {W : Type} `{!Host W}.
Variable order : list (string * string) -> list (string * string).

(** * Callbacks *)

Definition invokeCallback (operation : Z) (callback : io W (go error)) : io W error :=
  r ← callback;
  mret match r with
       | Panic _ => CallbackPanicError operation
       | Ret err => if negb (is_nil err) then CallbackError operation err else ErrNil
       end.

Definition invokePublishCallback (callback : io W (go (Z * error))) : io W (Z * error) :=
  r ← callback;
  mret match r with
       | Panic _ => (PublishUnknown, CallbackPanicError CallbackPublish)
       | Ret (acceptance, err) =>
           if negb (is_nil err) then (acceptance, CallbackError CallbackPublish err)
           else (acceptance, ErrNil)
       end.

(** * The producer *)

Section producer.
Context {R : Type}.

Definition Startup : Type := Ctx -> R -> io W (go error).
Definition Shutdown : Type := Ctx -> R -> io W (go error).
Definition Publish_ : Type := Ctx -> R -> QueuedMessage -> list AllowOption -> io W (go error).
Definition PublishWithAcceptance_ : Type :=
  Ctx -> R -> QueuedMessage -> list AllowOption -> io W (go (Z * error)).

Record ProducerOptions := mkProducerOptions {
  PO_Name : string;
  PO_Resource : dynamic R;
  PO_Correlation : option Factory;
  PO_CorrelationOptions : CorrelationOptions;
  PO_TracePropagator : dynamic Propagator;
  PO_Startup : option Startup;
  PO_Readiness : option Startup;
  PO_Publish : option Publish_;
  PO_PublishWithAcceptance : option PublishWithAcceptance_;
  PO_Shutdown : option Shutdown
}.

(** The fields that do not change; the lifecycle is [ServiceLifecycle.gate]. *)
Record Producer := mkProducer {
  P_name : string;
  P_resource : R;
  P_propagation : Adapter;
  P_trace : option Propagator;
  P_startup : option Startup;
  P_readiness : option Startup;
  P_publish : option Publish_;
  P_publishWithAcceptance : option PublishWithAcceptance_;
  P_shutdown : option Shutdown
}.

Definition propagator (p : dynamic Propagator) : option Propagator :=
  match p with Value p => Some p | _ => None end.

Definition is_set {A} (f : option A) : bool := match f with Some _ => true | None => false end.

Definition NewProducer (options : ProducerOptions) : error + Producer :=
  if negb (validName (PO_Name options))
  then inl (OptionsError "Name" "must be valid UTF-8 within the configured bound")
  else match PO_Resource options with
  | NilInterface | TypedNil => inl (OptionsError "Resource" "must not be nil")
  | Value resource =>
  match PO_Correlation options with
  | None => inl (OptionsError "Correlation" "must not be nil")
  | Some factory =>
  if negb (is_interface_nil (PO_TracePropagator options)) && nilValue (PO_TracePropagator options)
  then inl (OptionsError "TracePropagator" "must not be nil")
  else if Bool.eqb (is_set (PO_Publish options)) (is_set (PO_PublishWithAcceptance options))
  then inl (OptionsError "Publish" "requires exactly one publish callback")
  else match NewAdapter factory (PO_CorrelationOptions options) with
  | inl err => inl err
  | inr adapter =>
      inr (mkProducer (PO_Name options) resource adapter (propagator (PO_TracePropagator options))
             (PO_Startup options) (PO_Readiness options) (PO_Publish options)
             (PO_PublishWithAcceptance options) (PO_Shutdown options))
  end end end.

(** The part of [PublishWithAcceptance] from the transport options on: their validation
    and the one call of a publish callback. A call of a nil function panics; the
    boundary recovers it. *)
Definition publish_prepared (p : Producer) (ctx : Ctx) (message : QueuedMessage)
    (values : Values) (transportOptions : list AllowOption) : io W (Values * Z * error) :=
  let invalid := match transportOptions with
                 | o :: _ => match aMetadata o with
                             | Some m => Metadata_Validate order m
                             | None => ErrNil
                             end
                 | [] => ErrNil
                 end in
  if negb (is_nil invalid) then mret (values, PublishNotAccepted, invalid)
  else
    let publishContext := WithValues ctx values in
    '(acceptance, err) ←
      match P_publishWithAcceptance p with
      | Some callback =>
          invokePublishCallback (callback publishContext (P_resource p) message transportOptions)
      | None =>
          err ← invokeCallback CallbackPublish
                  match P_publish p with
                  | Some callback => callback publishContext (P_resource p) message transportOptions
                  | None => mret (Panic "nil function")
                  end;
          mret (if is_nil err then PublishAccepted else PublishUnknown, err)
      end;
    let '(acceptance, err) := normalizePublishResult acceptance err in
    mret (values, acceptance, err).

(** [admitted] is the answer of [beginUse]; a nil context is [None]. *)
Definition PublishWithAcceptance (p : Producer) (admitted : bool) (ctx : option Ctx)
    (message : QueuedMessage) (options : list AllowOption) : io W (Values * Z * error) :=
  let reject err : io W (Values * Z * error) := mret (zeroValues, PublishNotAccepted, err) in
  if negb admitted then reject ErrUnavailable
  else match ctx with
  | None => reject (OptionsError "ctx" "must not be nil")
  | Some ctx =>
      cause ← Cause ctx;
      if negb (is_nil cause) then reject cause
      else match FromContext ctx with
      | None => reject ErrMissingCorrelation
      | Some parent =>
          sent ← Send (P_propagation p) (correlationCarrier order options) parent;
          match sent with
          | inl err => reject err
          | inr (values, correlation) =>
              match P_trace p with
              | None =>
                  publish_prepared p ctx message values
                    (withTransportMetadata order options correlation ∅)
              | Some trace =>
                  injected ← Inject trace ctx ∅;
                  match injected with
                  | Panic _ =>
                      let '(acceptance, err) :=
                        normalizePublishResult PublishNotAccepted (CallbackPanicError CallbackPublish) in
                      mret (values, acceptance, err)
                  | Ret traceCarrier =>
                      publish_prepared p ctx message values
                        (withTransportMetadata order options correlation
                           (removeEmptyFields order traceCarrier))
                  end
              end
          end
      end
  end.

Definition Publish (p : Producer) (admitted : bool) (ctx : option Ctx)
    (message : QueuedMessage) (options : list AllowOption) : io W (Values * error) :=
  '(values, _, err) ← PublishWithAcceptance p admitted ctx message options;
  mret (values, err).

(** The [Run] of the readiness check; [None] without a configured check. *)
Definition Producer_Readiness (p : Producer) (admitted : bool) (ctx : Ctx) : option (io W error) :=
  match P_readiness p with
  | None => None
  | Some readiness =>
      Some (if negb admitted then mret ErrUnavailable
            else invokeCallback CallbackReadiness (readiness ctx (P_resource p)))
  end.

End producer.

(** * The delivery handler *)

Definition Handler : Type := Ctx -> TaskMessage -> io W (go error).

Record HandlerOptions := mkHandlerOptions {
  HO_Correlation : option Factory;
  HO_CorrelationOptions : CorrelationOptions;
  HO_TrustedMetadata : bool;
  HO_TracePropagator : dynamic Propagator;
  HO_Handler : option Handler
}.

(** Runs a step that can panic before the rest. *)
Definition or_panic {A B} (m : io W (go A)) (f : A -> io W (go B)) : io W (go B) :=
  r ← m; match r with Panic why => mret (Panic why) | Ret a => f a end.

(** An optional method of the message. *)
Definition optional (m : option (io W (go (option carrier)))) : io W (go (option carrier)) :=
  match m with Some m => m | None => mret (Ret None) end.

(** The call of the application's handler. *)
Definition handler_call (handler : Handler) (message : TaskMessage) (values : Values) (ctx : Ctx)
    : io W (go error) :=
  err ← invokeCallback CallbackHandler (handler (WithValues ctx values) message);
  mret (Ret err).

(** The body of the returned function after [Receive]. *)
Definition deliver_received (trace : option Propagator) (handler : Handler) (ctx : Ctx)
    (message : TaskMessage) (received : error + Values) : io W (go error) :=
  match received, trace with
  | inl err, _ => mret (Ret err)
  | inr values, None => handler_call handler message values ctx
  | inr values, Some trace =>
      or_panic (optional (trace_method message)) (fun traceMetadata =>
        let invalid := Metadata_Validate order (zeroMetadata <| TraceContext := traceMetadata |>) in
        if negb (is_nil invalid) then mret (M := io W) (Ret invalid)
        else or_panic (Extract trace ctx traceMetadata) (handler_call handler message values))
  end.

(** The body of the returned function, before its deferred recovery. *)
Definition deliver (adapter : Adapter) (trusted : bool) (trace : option Propagator)
    (handler : Handler) (ctx : Ctx) (message : TaskMessage) : io W (go error) :=
  or_panic (optional (correlation_method message)) (fun metadata =>
    Receive adapter metadata trusted ≫= deliver_received trace handler ctx message).

Definition NewHandler (options : HandlerOptions) : error + (Ctx -> TaskMessage -> io W error) :=
  match HO_Correlation options with
  | None => inl (OptionsError "Correlation" "must not be nil")
  | Some factory =>
  if negb (is_interface_nil (HO_TracePropagator options)) && nilValue (HO_TracePropagator options)
  then inl (OptionsError "TracePropagator" "must not be nil")
  else match HO_Handler options with
  | None => inl (OptionsError "Handler" "must not be nil")
  | Some handler =>
  match NewAdapter factory (HO_CorrelationOptions options) with
  | inl err => inl err
  | inr adapter =>
      inr (fun ctx message =>
        r ← deliver adapter (HO_TrustedMetadata options)
              (propagator (HO_TracePropagator options)) handler ctx message;
        mret match r with
             | Panic _ => CallbackPanicError CallbackHandler
             | Ret err => err
             end)
  end end end.

(** * The typed worker *)

Section worker.
Context {R : Type}.

Definition CloseAdmission_ : Type := R -> io W (go error).
Definition Run_ : Type := Ctx -> R -> (Ctx -> TaskMessage -> io W error) -> io W (go error).

Record LifecycleWorkerOptions := mkLifecycleWorkerOptions {
  LO_Name : string;
  LO_Resource : dynamic R;
  LO_Handler : HandlerOptions;
  LO_Startup : option (Startup (R := R));
  LO_Readiness : option (Startup (R := R));
  LO_CloseAdmission : option CloseAdmission_;
  LO_Run : option Run_;
  LO_Shutdown : option (Shutdown (R := R))
}.

(** The handler before it is guarded by [beginUse] and [finishUse]. *)
Record LifecycleWorker := mkLifecycleWorker {
  LW_name : string;
  LW_resource : R;
  LW_handler : Ctx -> TaskMessage -> io W error;
  LW_startup : option (Startup (R := R));
  LW_readiness : option (Startup (R := R));
  LW_admission : option CloseAdmission_;
  LW_run : Run_;
  LW_shutdown : Shutdown (R := R)
}.

Definition NewLifecycleWorker (options : LifecycleWorkerOptions) : error + LifecycleWorker :=
  if negb (validName (LO_Name options))
  then inl (OptionsError "Name" "must be valid UTF-8 within the configured bound")
  else match LO_Resource options with
  | NilInterface | TypedNil => inl (OptionsError "Resource" "must not be nil")
  | Value resource =>
  match LO_Run options with
  | None => inl (OptionsError "Run" "must not be nil")
  | Some run =>
  match LO_Shutdown options with
  | None => inl (OptionsError "Shutdown" "must not be nil")
  | Some shutdown =>
  match NewHandler (LO_Handler options) with
  | inl err => inl err
  | inr handler =>
      inr (mkLifecycleWorker (LO_Name options) resource handler (LO_Startup options)
             (LO_Readiness options) (LO_CloseAdmission options) run shutdown)
  end end end end.

(** The handler the run callback receives; [admitted] is the answer of [beginUse]. *)
Definition guarded_handler (worker : LifecycleWorker) (admitted : bool) (ctx : Ctx)
    (message : TaskMessage) : io W error :=
  if negb admitted then mret ErrUnavailable else LW_handler worker ctx message.

End worker.

(** * The small worker: a queue *)

(** The operations of [*queue.Queue] it uses. *)
Record QueueOps := mkQueueOps {
  Q_Start : io W (go unit);
  Q_CloseAdmission : io W (go error);
  Q_ReleaseContext : Ctx -> io W (go error)
}.

Record Worker := mkServiceWorker { SW_name : string; SW_queue : QueueOps }.

Definition NewWorker (name : string) (queue : option QueueOps) : error + Worker :=
  if negb (validName name)
  then inl (OptionsError "Name" "must be valid UTF-8 within the configured bound")
  else match queue with
       | None => inl (OptionsError "Queue" "must not be nil")
       | Some queue => inr (mkServiceWorker name queue)
       end.

(** The component's [CloseAdmission], [Start] and [Stop]. *)
Definition Component_CloseAdmission (worker : Worker) : io W error :=
  invokeCallback CallbackAdmission (Q_CloseAdmission (SW_queue worker)).

Definition Component_Start (worker : Worker) : io W error :=
  invokeCallback CallbackStartup
    (r ← Q_Start (SW_queue worker);
     mret match r with Panic why => Panic why | Ret _ => Ret ErrNil end).

Definition Component_Stop (worker : Worker) (ctx : Ctx) : io W error :=
  err ← invokeCallback CallbackShutdown (Q_ReleaseContext (SW_queue worker) ctx);
  mret (if Is err "golang-queue: worker shutdown panic"
        then errors_Join [err; CallbackPanicError CallbackShutdown] else err).

End service.
