(* ===== verification/ServiceLifecycle.v ===== *)
(** The lifecycles of the service adapter's producer and typed worker
    (adapters/service/queueservice.go): startup, admission of uses, the supervised run,
    drain and shutdown, as calls that interleave.

    Every mutex section is one definition on the state [gate], which both types have.
    A call is a thread that runs its sections, its callbacks and its waits one at a
    time. Channels of each role are numbered in the order they are made. *)

From S2P Require Import Prelude GoStd Contract Job Lifecycle Service.

(** * Channels of one role *)

Record chans := mkChans { made : nat; closed : gset nat }.

Definition no_chans : chans := mkChans 0 ∅.
Definition make_chan (c : chans) : nat * chans := (made c, mkChans (S (made c)) (closed c)).
Definition close_chan (n : nat) (c : chans) : go chans :=
  if decide (n ∈ closed c) then Panic "close of closed channel"
  else Ret (mkChans (made c) ({[n]} ∪ closed c)).

(** * The mutable fields of [Producer] and [LifecycleWorker] *)

Inductive once := OnceNew | OnceRunning | OnceDone.

(** An attempt is named by its channel [done]; [shutdownErr] has the field [err] of
    each shutdown attempt. [runStarted], [admissionOnce] and [admissionErr] are the
    worker's only. *)
Record gate := mkServiceGate {
  active : bool;
  stopping : bool;
  runStarted : bool;
  inflight : Z;
  drained : option nat;
  startupAttempt : option nat;
  shutdownAttempt : option nat;
  admissionOnce : once;
  admissionErr : error;
  drain_chans : chans;
  startup_chans : chans;
  shutdown_chans : chans;
  shutdownErr : gmap nat error
}.

Definition new_gate : gate :=
  mkServiceGate false false false 0 None None None OnceNew ErrNil no_chans no_chans no_chans ∅.

Definition with_drained (g : gate) (c : option nat) (cs : chans) : gate :=
  g <| drained := c |> <| drain_chans := cs |>.
Definition with_startup (g : gate) (a : option nat) (cs : chans) : gate :=
  g <| startupAttempt := a |> <| startup_chans := cs |>.
Definition with_shutdown (g : gate) (a : option nat) (cs : chans) : gate :=
  g <| shutdownAttempt := a |> <| shutdown_chans := cs |>.

Definition with_stopping (g : gate) : gate := g <| stopping := true |>.

(** * Sections *)

Definition beginUse (g : gate) : gate * bool :=
  if negb (active g) || stopping g then (g, false)
  else (g <| inflight := (inflight g + 1)%Z |>, true).

Definition finishUse (g : gate) : go gate :=
  let g := g <| inflight := (inflight g - 1)%Z |> in
  if stopping g && (inflight g =? 0)%Z then
    match drained g with
    | Some c =>
        cs ← close_chan c (drain_chans g);
        Ret (with_drained g None cs)
    | None => Ret g
    end
  else Ret g.

(** [closeAdmission] of the producer, and the section of the worker's. *)
Definition closeAdmission (g : gate) : gate := g <| active := false |> <| stopping := true |>.

Definition beginRun (g : gate) : gate * bool :=
  if negb (active g) || stopping g || runStarted g then (g, false)
  else (g <| runStarted := true |> <| inflight := (inflight g + 1)%Z |>, true).

(** The section of [stop]: the startup attempt and the drain channel to wait for. *)
Definition stop_section (g : gate) : go (gate * option nat * nat) :=
  match drained g with
  | Some c => Ret (g, startupAttempt g, c)
  | None =>
      let '(c, cs) := make_chan (drain_chans g) in
      let g := with_drained g (Some c) cs in
      if (inflight g =? 0)%Z then
        cs ← close_chan c (drain_chans g);
        Ret (with_drained g (Some c) cs, startupAttempt g, c)
      else Ret (g, startupAttempt g, c)
  end.

(** The two outcomes of the first section of [shutdownResource]: join an attempt, or
    run a new one. *)
Definition shutdown_section (g : gate) : gate * (nat + nat) :=
  match shutdownAttempt g with
  | Some attempt => (g, inl attempt)
  | None =>
      let '(attempt, cs) := make_chan (shutdown_chans g) in
      (with_shutdown g (Some attempt) cs, inr attempt)
  end.

(** The last section of [shutdownResource]. *)
Definition shutdown_finish (attempt : nat) (err : error) (g : gate) : go gate :=
  let g := g <| shutdownErr := <[attempt := err]> (shutdownErr g) |> in
  cs ← close_chan attempt (shutdown_chans g);
  Ret (with_shutdown g (shutdownAttempt g) cs).

(** * Calls *)

Inductive call := CallStart | CallCloseAdmission | CallStop | CallUse | CallRun.

(** Which call is inside [shutdownResource], and the error it has so far. *)
Inductive caller :=
| FromStart (validation : error)
| FromStop (admissionErr : error).

Inductive pc :=
| StartEnter
| StartCallback (attempt : nat)
| StartFailed (attempt : nat) (err : error)
| StartFinish (attempt : option nat)
| CloseEnter (stop : bool)                  (* closeAdmission; [stop] when [stop] called it *)
| AdmissionDo (stop : bool)                 (* admissionOnce.Do *)
| AdmissionCallback (stop : bool)
| AdmissionStore (stop : bool) (err : error)
| StopEnter (admission : error)
| AwaitStartup (admission : error) (attempt drain : nat)
| AwaitDrained (admission : error) (drain : nat)
| ShutdownEnter (k : caller)
| AwaitShutdown (k : caller) (attempt : nat)
| ShutdownCallback (k : caller) (attempt : nat)
| ShutdownStore (k : caller) (attempt : nat) (err : error)
| UseEnter
| Using                                     (* a publish, readiness check or handler *)
| UseFinish (err : error)
| RunEnter
| Running                                   (* the run callback *)
| RunStopped (err : error)                  (* the deferred section of runTask *)
| RunFinish (err : error)
| Done (c : call) (err : error).

Inductive kind := ProducerKind | WorkerKind.

(** Which callbacks are set. *)
Record config := mkServiceConfig {
  c_kind : kind;
  c_startup : bool;
  c_shutdown : bool;
  c_admission : bool
}.

Definition producer_config {W R} `{!Host W} (p : Producer (R := R)) : config :=
  mkServiceConfig ProducerKind (is_set (P_startup p)) (is_set (P_shutdown p)) false.

Definition worker_config {W R} `{!Host W} (w : LifecycleWorker (R := R)) : config :=
  mkServiceConfig WorkerKind (is_set (LW_startup w)) true (is_set (LW_admission w)).

(** The error [invokeCallback] returns for an outcome of a callback. *)
Definition callback_error (operation : Z) (outcome : go error) : error :=
  match outcome with
  | Panic _ => CallbackPanicError operation
  | Ret err => if negb (is_nil err) then CallbackError operation err else ErrNil
  end.

Section calls.
Variable cfg : config.

(** ** start *)

(** The first section, which both types have. *)
Definition start_enter (g : gate) : gate * pc :=
  if stopping g then (g, Done CallStart ErrUnavailable)
  else if active g then (g, Done CallStart ErrNil)
  else match startupAttempt g with
       | Some _ => (g, Done CallStart ErrUnavailable)
       | None =>
           if c_startup cfg then
             let '(attempt, cs) := make_chan (startup_chans g) in
             (with_startup g (Some attempt) cs, StartCallback attempt)
           else (g, StartFinish None)
       end.

(** The section after a failed startup callback. *)
Definition Producer_start_failed (attempt : nat) (err : error) (g : gate) : go (gate * pc) :=
  let g := if c_shutdown cfg then with_stopping g else g in
  cs ← close_chan attempt (startup_chans g);
  Ret (with_startup g None cs,
       if c_shutdown cfg then ShutdownEnter (FromStart err)
       else Done CallStart (StartupError err ErrNil)).

Definition LifecycleWorker_start_failed (attempt : nat) (err : error) (g : gate)
    : go (gate * pc) :=
  let g := with_stopping g in
  cs ← close_chan attempt (startup_chans g);
  Ret (with_startup g None cs, ShutdownEnter (FromStart err)).

(** The last section, which both types have. *)
Definition start_finish (attempt : option nat) (g : gate) : go (gate * pc) :=
  g ← match attempt with
      | Some attempt =>
          cs ← close_chan attempt (startup_chans g);
          Ret (with_startup g None cs)
      | None => Ret g
      end;
  if stopping g then Ret (g, Done CallStart ErrUnavailable)
  else Ret (g <| active := true |>, Done CallStart ErrNil).

(** A step of [Producer.start]; [outcome] is what the startup callback does. *)
Definition Producer_start (outcome : go error) (g : gate) (p : pc) : go (gate * pc) :=
  match p with
  | StartEnter => Ret (start_enter g)
  | StartCallback attempt =>
      let err := callback_error CallbackStartup outcome in
      Ret (g, if negb (is_nil err) then StartFailed attempt err else StartFinish (Some attempt))
  | StartFailed attempt err => Producer_start_failed attempt err g
  | StartFinish attempt => start_finish attempt g
  | _ => Ret (g, p)
  end.

Definition LifecycleWorker_start (outcome : go error) (g : gate) (p : pc) : go (gate * pc) :=
  match p with
  | StartEnter => Ret (start_enter g)
  | StartCallback attempt =>
      let err := callback_error CallbackStartup outcome in
      Ret (g, if negb (is_nil err) then StartFailed attempt err else StartFinish (Some attempt))
  | StartFailed attempt err => LifecycleWorker_start_failed attempt err g
  | StartFinish attempt => start_finish attempt g
  | _ => Ret (g, p)
  end.

(** ** closeAdmission of the worker; [None] while another call runs the once *)

Definition after_admission (stop : bool) (err : error) : pc :=
  if stop then StopEnter err else Done CallCloseAdmission err.

Definition LifecycleWorker_closeAdmission (outcome : go error) (g : gate) (p : pc)
    : option (gate * pc) :=
  match p with
  | CloseEnter stop => Some (closeAdmission g, AdmissionDo stop)
  | AdmissionDo stop =>
      match admissionOnce g with
      | OnceNew =>
          Some (g <| admissionOnce := OnceRunning |>,
                if c_admission cfg then AdmissionCallback stop else AdmissionStore stop (admissionErr g))
      | OnceRunning => None
      | OnceDone => Some (g, after_admission stop (admissionErr g))
      end
  | AdmissionCallback stop =>
      Some (g, AdmissionStore stop (callback_error CallbackAdmission outcome))
  | AdmissionStore stop err =>
      Some (g <| admissionErr := err |> <| admissionOnce := OnceDone |>, after_admission stop err)
  | _ => None
  end.

(** ** shutdownResource *)

(** The return of [shutdownResource] with [err], in the call that ran it. *)
Definition shutdown_return (k : caller) (err : error) : pc :=
  match k with
  | FromStart validation => Done CallStart (StartupError validation err)
  | FromStop admission =>
      Done CallStop match c_kind cfg with
                    | ProducerKind => err
                    | WorkerKind => errors_Join [admission; err]
                    end
  end.

Definition shutdownResource (outcome : go error) (g : gate) (p : pc) : option (go (gate * pc)) :=
  match p with
  | ShutdownEnter k =>
      let '(g, attempt) := shutdown_section g in
      Some (Ret (g, match attempt with
                    | inl attempt => AwaitShutdown k attempt
                    | inr attempt => ShutdownCallback k attempt
                    end))
  | AwaitShutdown k attempt =>
      if decide (attempt ∈ closed (shutdown_chans g))
      then Some (Ret (g, shutdown_return k (default ErrNil (shutdownErr g !! attempt))))
      else None
  | ShutdownCallback k attempt =>
      Some (Ret (g, ShutdownStore k attempt (callback_error CallbackShutdown outcome)))
  | ShutdownStore k attempt err =>
      Some (g ← shutdown_finish attempt err g; Ret (g, shutdown_return k err))
  | _ => None
  end.

(** ** stop after [closeAdmission] *)

Definition stop_wait (admission : error) (startup : option nat) (drain : nat) : pc :=
  match startup with
  | Some attempt => AwaitStartup admission attempt drain
  | None => AwaitDrained admission drain
  end.

(** A stop that has drained: the producer may have nothing to shut down. *)
Definition stop_drained (admission : error) : pc :=
  match c_kind cfg with
  | ProducerKind =>
      if negb (c_shutdown cfg) then Done CallStop ErrNil else ShutdownEnter (FromStop admission)
  | WorkerKind => ShutdownEnter (FromStop admission)
  end.

Definition stop_step (g : gate) (p : pc) : option (go (gate * pc)) :=
  match p with
  | StopEnter admission =>
      Some ('(g, startup, drain) ← stop_section g; Ret (g, stop_wait admission startup drain))
  | AwaitStartup admission attempt drain =>
      if decide (attempt ∈ closed (startup_chans g))
      then Some (Ret (g, AwaitDrained admission drain)) else None
  | AwaitDrained admission drain =>
      if decide (drain ∈ closed (drain_chans g)) then Some (Ret (g, stop_drained admission)) else None
  | _ => None
  end.

(** The branch of a select that a done context enables. *)
Definition ctx_done (e : ctx_err) (p : pc) : option pc :=
  let stopped admission :=
    Done CallStop match c_kind cfg with
                  | ProducerKind => ctx_Err e
                  | WorkerKind => errors_Join [admission; ctx_Err e]
                  end in
  match p with
  | AwaitStartup admission _ _ => Some (stopped admission)
  | AwaitDrained admission _ => Some (stopped admission)
  | AwaitShutdown k _ => Some (shutdown_return k (ctx_Err e))
  | _ => None
  end.

(** ** Uses and the supervised run *)

Definition use_step (outcome : go error) (g : gate) (p : pc) : go (gate * pc) :=
  match p with
  | UseEnter =>
      let '(g, ok) := beginUse g in Ret (g, if ok then Using else Done CallUse ErrUnavailable)
  | Using => Ret (g, UseFinish match outcome with Ret err => err | Panic _ => ErrCallbackPanic end)
  | UseFinish err => g ← finishUse g; Ret (g, Done CallUse err)
  | _ => Ret (g, p)
  end.

(** [cause] is [context.Cause(ctx)] when the run callback has returned. *)
Definition runTask (outcome : go error) (cause : error) (g : gate) (p : pc) : go (gate * pc) :=
  match p with
  | RunEnter =>
      let '(g, ok) := beginRun g in Ret (g, if ok then Running else Done CallRun ErrUnavailable)
  | Running =>
      let err := callback_error CallbackRun outcome in
      Ret (g, RunStopped (if is_nil err && is_nil cause then ErrWorkerExited else err))
  | RunStopped err => Ret (closeAdmission g, RunFinish err)
  | RunFinish err => g ← finishUse g; Ret (g, Done CallRun err)
  | _ => Ret (g, p)
  end.

(** * A step of one call: [None] while it is blocked or has returned *)

Definition call_step (outcome : go error) (cause : error) (g : gate) (p : pc)
    : option (go (gate * pc)) :=
  match p with
  | StartEnter | StartCallback _ | StartFailed _ _ | StartFinish _ =>
      Some match c_kind cfg with
           | ProducerKind => Producer_start outcome g p
           | WorkerKind => LifecycleWorker_start outcome g p
           end
  | CloseEnter stop =>
      match c_kind cfg with
      | ProducerKind =>
          Some (Ret (closeAdmission g,
                     if stop then StopEnter ErrNil else Done CallCloseAdmission ErrNil))
      | WorkerKind => Ret <$> LifecycleWorker_closeAdmission outcome g p
      end
  | AdmissionDo _ | AdmissionCallback _ | AdmissionStore _ _ =>
      Ret <$> LifecycleWorker_closeAdmission outcome g p
  | StopEnter _ | AwaitStartup _ _ _ | AwaitDrained _ _ => stop_step g p
  | ShutdownEnter _ | AwaitShutdown _ _ | ShutdownCallback _ _ | ShutdownStore _ _ _ =>
      shutdownResource outcome g p
  | UseEnter | Using | UseFinish _ => Some (use_step outcome g p)
  | RunEnter | Running | RunStopped _ | RunFinish _ => Some (runTask outcome cause g p)
  | Done _ _ => None
  end.

Definition call_entry (c : call) : pc :=
  match c with
  | CallStart => StartEnter
  | CallCloseAdmission => CloseEnter false
  | CallStop => CloseEnter true
  | CallUse => UseEnter
  | CallRun => RunEnter
  end.

(** * The component: its state and the calls in progress

    [shutdown_calls] counts the invocations of the shutdown callback. *)

Record component := mkComponent {
  the_gate : gate;
  threads : gmap nat pc;
  shutdown_calls : nat;
  crashed : option string
}.

Definition with_thread (s : component) (t : nat) (p : pc) : component :=
  mkComponent (the_gate s) (<[t := p]> (threads s)) (shutdown_calls s) (crashed s).

Inductive event :=
| EvCall (t : nat) (c : call)
| EvStep (t : nat) (outcome : go error) (cause : error)
| EvCtxDone (t : nat) (e : ctx_err).

Definition invokes_shutdown (p : pc) : nat :=
  match p with ShutdownCallback _ _ => 1 | _ => 0 end.

(** The run call exists for workers only. *)
Definition offered (c : call) : bool :=
  match c, c_kind cfg with CallRun, ProducerKind => false | _, _ => true end.

Definition step (s : component) (ev : event) : option component :=
  match crashed s with
  | Some _ => None
  | None =>
      match ev with
      | EvCall t c =>
          match threads s !! t with
          | Some _ => None
          | None =>
              if offered c
              then Some (with_thread s t (call_entry c)) else None
          end
      | EvStep t outcome cause =>
          p ← threads s !! t;
          r ← call_step outcome cause (the_gate s) p;
          match r with
          | Panic why => Some (mkComponent (the_gate s) (threads s) (shutdown_calls s) (Some why))
          | Ret (g, p') =>
              Some (mkComponent g (<[t := p']> (threads s))
                      (shutdown_calls s + invokes_shutdown p')%nat None)
          end
      | EvCtxDone t e =>
          p ← threads s !! t;
          p' ← ctx_done e p;
          Some (with_thread s t p')
      end
  end.

Fixpoint run (s : component) (evs : list event) : option component :=
  match evs with
  | [] => Some s
  | ev :: evs => s' ← step s ev; run s' evs
  end.

Definition initial : component := mkComponent new_gate ∅ 0 None.

Definition reachable (s : component) : Prop := exists evs, run initial evs = Some s.

End calls.
