(* ===== verification/ServiceSafety.v ===== *)
(** What the service adapter guarantees: a resource is released once, after every use
    has drained and every startup has ended; no call waits for a wake-up that cannot
    come; and the acceptance a publish reports is what its callback said. *)

From S2P Require Import Prelude GoStd Contract Job Lifecycle Service ServiceLifecycle.

(** * Where a call stands *)

(** Inside [beginUse] .. [finishUse]. *)
Definition holding (p : pc) : nat :=
  match p with Using | UseFinish _ | Running | RunStopped _ | RunFinish _ => 1 | _ => 0 end.

(** Between the first and the last section of a start with a callback. *)
Definition starting (p : pc) : nat :=
  match p with StartCallback _ | StartFailed _ _ | StartFinish (Some _) => 1 | _ => 0 end.

(** Owner of the shutdown attempt. *)
Definition shutting (p : pc) : nat :=
  match p with ShutdownCallback _ _ | ShutdownStore _ _ _ => 1 | _ => 0 end.

(** Owner of the running [admissionOnce]. *)
Definition admitting (p : pc) : nat :=
  match p with AdmissionCallback _ | AdmissionStore _ _ => 1 | _ => 0 end.

(** Inside a callback that uses the resource. *)
Definition in_use (p : pc) : Prop :=
  match p with Using | Running | StartCallback _ => True | _ => False end.

Section safety.
Variable cfg : config.

(** No use, no startup, and none to come. *)
Definition quiet (g : gate) : Prop :=
  stopping g = true /\ inflight g = 0%Z /\ startupAttempt g = None.

(** The drain channel of a stop: closed with nothing in flight, or still the current one. *)
Definition drain_ok (g : gate) (c : nat) : Prop :=
  (c ∈ closed (drain_chans g) /\ inflight g = 0%Z) \/ drained g = Some c.

Definition local_ok (g : gate) (p : pc) : Prop :=
  match p with
  | StartCallback a | StartFailed a _ | StartFinish (Some a) => startupAttempt g = Some a
  | StartFinish None => c_startup cfg = false
  | AdmissionDo _ | AdmissionCallback _ | AdmissionStore _ _ | StopEnter _ | RunFinish _ =>
      stopping g = true
  | AwaitStartup _ a c =>
      stopping g = true /\ drain_ok g c /\
      (startupAttempt g = Some a \/ (a ∈ closed (startup_chans g) /\ startupAttempt g = None))
  | AwaitDrained _ c => stopping g = true /\ startupAttempt g = None /\ drain_ok g c
  | ShutdownEnter _ => quiet g /\ c_shutdown cfg = true
  | AwaitShutdown _ a => shutdownAttempt g = Some a
  | ShutdownCallback _ a | ShutdownStore _ a _ =>
      shutdownAttempt g = Some a /\ a ∉ closed (shutdown_chans g)
  | Done CallStop ErrNil =>
      quiet g /\ (c_shutdown cfg = true ->
        exists a, shutdownAttempt g = Some a /\ a ∈ closed (shutdown_chans g))
  | _ => True
  end.

Definition below (c : chans) : Prop := forall n, n ∈ closed c -> (n < made c)%nat.

Record gate_ok (g : gate) : Prop := {
  go_active : active g = true -> stopping g = false /\ startupAttempt g = None;
  go_idle : active g = false -> stopping g = false -> inflight g = 0%Z;
  go_nostart : c_startup cfg = false -> startupAttempt g = None;
  go_startup a : startupAttempt g = Some a ->
    (a < made (startup_chans g))%nat /\ (a ∉ closed (startup_chans g)) /\
    active g = false /\ inflight g = 0%Z;
  go_drained c : drained g = Some c ->
    stopping g = true /\ (c < made (drain_chans g))%nat /\
    (c ∈ closed (drain_chans g) <-> inflight g = 0%Z);
  go_shutdown a : shutdownAttempt g = Some a -> quiet g /\ (a < made (shutdown_chans g))%nat;
  go_below : below (drain_chans g) /\ below (startup_chans g) /\ below (shutdown_chans g)
}.

Definition unfinished (g : gate) : nat :=
  match shutdownAttempt g with
  | Some a => if decide (a ∈ closed (shutdown_chans g)) then 0 else 1
  | None => 0
  end.

(** The state, the calls in progress and the number of shutdown invocations. *)
Record inv (g : gate) (ths : gmap nat pc) (n : nat) : Prop := {
  inv_gate : gate_ok g;
  inv_holding : inflight g = Z.of_nat (tally holding ths);
  inv_starting : tally starting ths = match startupAttempt g with Some _ => 1%nat | None => 0%nat end;
  inv_shutting : tally shutting ths = unfinished g;
  inv_admitting : tally admitting ths =
    match admissionOnce g with OnceRunning => 1%nat | _ => 0%nat end;
  inv_calls : n = match shutdownAttempt g with Some _ => 1%nat | None => 0%nat end;
  inv_local t p : ths !! t = Some p -> local_ok g p
}.

(** A new position of one call, with its sums and with the other calls undisturbed. *)
Lemma inv_update g ths n t p g' p' :
  inv g ths n -> ths !! t = Some p -> gate_ok g' -> local_ok g' p' ->
  (inflight g' + Z.of_nat (holding p) = inflight g + Z.of_nat (holding p'))%Z ->
  (match startupAttempt g' with Some _ => 1 | None => 0 end + starting p =
   match startupAttempt g with Some _ => 1 | None => 0 end + starting p')%nat ->
  (unfinished g' + shutting p = unfinished g + shutting p')%nat ->
  (match admissionOnce g' with OnceRunning => 1 | _ => 0 end + admitting p =
   match admissionOnce g with OnceRunning => 1 | _ => 0 end + admitting p')%nat ->
  (match shutdownAttempt g' with Some _ => 1 | None => 0 end =
   match shutdownAttempt g with Some _ => 1 | None => 0 end + invokes_shutdown p')%nat ->
  (forall t' q, t' <> t -> ths !! t' = Some q -> local_ok g q -> local_ok g' q) ->
  inv g' (<[t := p']> ths) (n + invokes_shutdown p').
Proof.
  intros [Hg Hu Hs Hh Ha Hn Hl] Ht Hg' Hp' Eu Es Eh Ea En Hfr.
  pose proof (tally_set holding _ _ _ p' Ht). pose proof (tally_set starting _ _ _ p' Ht).
  pose proof (tally_set shutting _ _ _ p' Ht). pose proof (tally_set admitting _ _ _ p' Ht).
  split; try done; try lia.
  intros t' q Hq. destruct (decide (t' = t)) as [->|Hne].
  - rewrite lookup_insert_eq in Hq. by injection Hq as <-.
  - rewrite lookup_insert_ne in Hq by done. eauto.
Qed.

(** A step of a call that does not panic and preserves the invariant. *)
Definition preserved (ths : gmap nat pc) (n t : nat) (r : go (gate * pc)) : Prop :=
  exists g p', r = Ret (g, p') /\ inv g (<[t := p']> ths) (n + invokes_shutdown p').

(** A move of one call that leaves the state alone. *)
Lemma inv_move g ths n t p p' :
  inv g ths n -> ths !! t = Some p -> local_ok g p' ->
  holding p = holding p' -> starting p = starting p' -> shutting p = shutting p' ->
  admitting p = admitting p' -> invokes_shutdown p' = 0%nat ->
  preserved ths n t (Ret (g, p')).
Proof.
  intros H Ht Hl. intros. eexists _, _. split; [done|]. eapply inv_update; eauto using inv_gate; lia.
Qed.

Lemma inv_call g ths n t c : inv g ths n -> ths !! t = None -> inv g (<[t := call_entry c]> ths) n.
Proof.
  intros [Hg Hu Hs Hh Ha Hn Hl] Ht. split; try done; rewrite ?tally_new by done.
  1-4: by destruct c.
  intros t' q Hq. destruct (decide (t' = t)) as [->|Hne].
  - rewrite lookup_insert_eq in Hq. injection Hq as <-. by destruct c.
  - rewrite lookup_insert_ne in Hq by done. eauto.
Qed.

Lemma ctx_Err_not_nil e : ctx_Err e <> ErrNil.
Proof. by destruct e. Qed.

(** A failed stop promises nothing. *)
Lemma local_failed g err : err <> ErrNil -> local_ok g (Done CallStop err).
Proof. by destruct err. Qed.

Lemma Join_not_nil a b : b <> ErrNil -> errors_Join [a; b] <> ErrNil.
Proof. intros Hb. unfold errors_Join. simpl. by destruct a, b. Qed.

Lemma local_return g k err : err <> ErrNil -> local_ok g (shutdown_return cfg k err).
Proof.
  intros Herr. destruct k as [v|a]; [done|]. apply local_failed.
  destruct (c_kind cfg); [done|by apply Join_not_nil].
Qed.

Lemma ctx_ok g ths n t e p p' :
  inv g ths n -> ths !! t = Some p -> ctx_done cfg e p = Some p' -> preserved ths n t (Ret (g, p')).
Proof.
  intros H Ht E. destruct p; try discriminate E; injection E as <-.
  1,2: apply (inv_move g ths n t _ _ H Ht); [|done..]; apply local_failed;
    destruct (c_kind cfg); [apply ctx_Err_not_nil|apply Join_not_nil, ctx_Err_not_nil].
  pose proof (local_return g k _ (ctx_Err_not_nil e)) as Hl.
  destruct k; by apply (inv_move g ths n t _ _ H Ht).
Qed.

(** The other calls of a step, by their positions. *)
Ltac others :=
  let q := fresh "q" in let Hl := fresh "Hl" in
  intros ? q ? ? Hl;
  destruct q as [| | |[]| | | | | | | | | | | | | | | | | | |[] []]; simpl in *;
  unfold quiet, drain_ok in *; simpl in *; try done; destruct_and?; try congruence;
  split_and?; try done; try (destruct_or?; destruct_and?; simplify_eq; eauto; fail);
  try (left; destruct_or?; destruct_and?; simplify_eq; split; [set_solver|done]).

(** Opens a step of a call from a state given by its fields. *)
Ltac open_step H :=
  pose proof (inv_gate _ _ _ H) as [G1 G2 G3 G4 G5 G6 (B1 & B2 & B3)];
  pose proof (inv_holding _ _ _ H) as Hin;
  eexists _, _; split; [reflexivity|]; eapply inv_update; try eassumption; clear H;
  simpl in *; unfold quiet, unfinished in *; simpl in *; subst; try done; try lia.

(** * The sections of start *)

Lemma start_enter_ok g ths n t :
  inv g ths n -> ths !! t = Some StartEnter -> preserved ths n t (Ret (start_enter cfg g)).
Proof.
  intros H Ht. unfold start_enter.
  destruct (stopping g) eqn:Est; [by eapply inv_move|].
  destruct (active g) eqn:Eac; [by eapply inv_move|].
  destruct (startupAttempt g) eqn:Esa; [by eapply inv_move|].
  destruct (c_startup cfg) eqn:Ecs; [|by eapply inv_move].
  destruct g; simpl in *; subst. open_step H.
  - split; simpl; try done.
    + congruence.
    + intros a [= <-]. split_and!; [lia| |done|by apply G2]. intros Hx%B2. lia.
    + intros a Ha. by destruct (G6 a Ha) as [[? _] _].
    + split_and!; try done. intros a Ha. simpl in *. specialize (B2 a Ha). lia.
  - others.
Qed.

Lemma start_callback_ok outcome g ths n t a :
  inv g ths n -> ths !! t = Some (StartCallback a) ->
  let err := callback_error CallbackStartup outcome in
  preserved ths n t
    (Ret (g, if negb (is_nil err) then StartFailed a err else StartFinish (Some a))).
Proof.
  intros H Ht err. pose proof (inv_local _ _ _ H _ _ Ht). case_test; by eapply inv_move.
Qed.

(** The attempt of a call that is starting, and no other such call. *)
Lemma starting_alone g ths n t p a :
  inv g ths n -> ths !! t = Some p -> starting p = 1%nat -> startupAttempt g = Some a ->
  forall t' q, t' <> t -> ths !! t' = Some q -> starting q = 0%nat.
Proof.
  intros H Ht Hp Ha. apply (tally_sole starting ths t p); [|done..].
  rewrite (inv_starting _ _ _ H), Ha. lia.
Qed.

Lemma close_open c n : (n ∉ closed c) -> close_chan n c = Ret (mkChans (made c) ({[n]} ∪ closed c)).
Proof. intros. unfold close_chan. by rewrite decide_False. Qed.

(** The others when a startup attempt ends. *)
Ltac others_started Hsole :=
  let q := fresh "q" in let Hl := fresh "Hl" in let Hne := fresh in let Hq := fresh in
  intros ? q Hne Hq Hl; pose proof (Hsole _ _ Hne Hq);
  destruct q as [| | |[]| | | | | | | | | | | | | | | | | | |[] []]; simpl in *;
  unfold quiet, drain_ok in *; simpl in *; try done; destruct_and?; try congruence; split_and?; try done.

Lemma start_failed_ok (stops : bool) g ths n t a err p' :
  inv g ths n -> ths !! t = Some (StartFailed a err) ->
  p' = (if stops then ShutdownEnter (FromStart err) else Done CallStart (StartupError err ErrNil)) ->
  (stops = true -> c_shutdown cfg = true) ->
  preserved ths n t
    (cs ← close_chan a (startup_chans (if stops then with_stopping g else g));
     Ret (with_startup (if stops then with_stopping g else g) None cs, p')).
Proof.
  intros H Ht -> Hcs. pose proof (inv_local _ _ _ H _ _ Ht) as Ha. simpl in Ha.
  pose proof (starting_alone _ _ _ _ _ _ H Ht eq_refl Ha) as Hsole.
  pose proof (go_startup _ (inv_gate _ _ _ H) a Ha) as (Hm & Hc & Hac & Hi0).
  destruct stops, g; simpl in *; rewrite close_open by done; go_run; open_step H.
  2: by split; [|apply Hcs].
  2,4: others_started Hsole.
  all: try (right; set_solver).
  all: split; simpl; unfold quiet; simpl; try done.
  all: try (intros x Hx; by destruct (G6 x Hx) as [(_ & _ & ?) _]).
  all: try (intros x Hx; by destruct (G5 x Hx) as (? & ? & ?)).
  all: split_and!; try done; intros x; simpl; specialize (B2 x); set_solver.
Qed.

Lemma start_finish_ok g ths n t attempt :
  inv g ths n -> ths !! t = Some (StartFinish attempt) -> preserved ths n t (start_finish attempt g).
Proof.
  intros H Ht. pose proof (inv_local _ _ _ H _ _ Ht) as Ha. unfold start_finish.
  destruct attempt as [a|]; simpl in Ha.
  - pose proof (starting_alone _ _ _ _ _ _ H Ht eq_refl Ha) as Hsole.
    pose proof (go_startup _ (inv_gate _ _ _ H) a Ha) as (Hm & Hc & Hac & Hi0).
    destruct g; simpl in *; rewrite close_open by done; go_run; simpl. case_test; open_step H.
    2,4: others_started Hsole.
    all: try (right; set_solver).
    all: split; simpl; unfold quiet; simpl; try done.
    all: try (intros x Hx; by destruct (G6 x Hx) as [(_ & _ & ?) _]).
    all: try (intros x Hx; by destruct (G5 x Hx) as (? & ? & ?)).
    all: split_and!; try done; intros x; simpl; specialize (B2 x); set_solver.
  - go_run. destruct (stopping g) eqn:Est; [by eapply inv_move|].
    destruct g; simpl in *. open_step H.
    specialize (G3 Ha). subst. split; simpl; unfold quiet; simpl; try done.
Qed.

(** * Closing admission *)

Lemma close_ok g ths n t p p' :
  inv g ths n -> ths !! t = Some p -> local_ok (closeAdmission g) p' ->
  holding p = holding p' -> starting p = starting p' -> shutting p = shutting p' ->
  admitting p = admitting p' -> invokes_shutdown p' = 0%nat ->
  preserved ths n t (Ret (closeAdmission g, p')).
Proof.
  intros H Ht Hl. intros. destruct g. open_step H; [|others].
  split; simpl; unfold quiet; simpl; try done.
  - intros a Ha. by destruct (G4 a Ha) as (? & ? & ? & ?).
  - intros a Ha. by destruct (G5 a Ha) as (? & ? & ?).
  - intros a Ha. by destruct (G6 a Ha) as [(? & ? & ?) ?].
Qed.

(** A step on the once of the worker. *)
Lemma once_ok g ths n t p p' o e :
  inv g ths n -> ths !! t = Some p -> local_ok g p' ->
  holding p = holding p' -> starting p = starting p' -> shutting p = shutting p' ->
  invokes_shutdown p' = 0%nat ->
  (match o with OnceRunning => 1 | _ => 0 end + admitting p =
   match admissionOnce g with OnceRunning => 1 | _ => 0 end + admitting p')%nat ->
  preserved ths n t (Ret (g <| admissionErr := e |> <| admissionOnce := o |>, p')).
Proof. intros H Ht Hl. intros. destruct g. open_step H. Qed.

(** * Stop *)

Lemma stop_section_ok g ths n t admission :
  inv g ths n -> ths !! t = Some (StopEnter admission) ->
  preserved ths n t
    ('(g, startup, drain) ← stop_section g; Ret (g, stop_wait admission startup drain)).
Proof.
  intros H Ht. pose proof (inv_local _ _ _ H _ _ Ht) as Hs. simpl in Hs. unfold stop_section.
  destruct (drained g) as [c|] eqn:Ed; go_run.
  { destruct (startupAttempt g) eqn:Ea; eapply inv_move; eauto; simpl; unfold drain_ok; auto. }
  assert (made (drain_chans g) ∉ closed (drain_chans g)) as Hc.
  { intros Hin. destruct (inv_gate _ _ _ H) as [_ _ _ _ _ _ (B1 & _)]. specialize (B1 _ Hin). lia. }
  destruct g; simpl in *. case_test; [rewrite close_open by done|]; go_run; simpl; destruct startupAttempt;
    open_step H; simpl; unfold drain_ok; simpl; auto.
  2,4,6,8: by others.
  all: split; simpl; unfold quiet; simpl; try done.
  all: try (split_and!; try done; intros x; simpl; specialize (B1 x); set_solver).
  all: intros x [= <-]; split_and!; [done|clear; lia|].
  all: first [apply Z.eqb_eq in E|apply Z.eqb_neq in E]; split; intros ?; try done.
  all: set_solver +.
Qed.

Lemma await_startup_ok g ths n t admission a c :
  inv g ths n -> ths !! t = Some (AwaitStartup admission a c) -> a ∈ closed (startup_chans g) ->
  preserved ths n t (Ret (g, AwaitDrained admission c)).
Proof.
  intros H Ht Hc. pose proof (inv_local _ _ _ H _ _ Ht) as (Hs & Hd & Ha). simpl in *.
  eapply inv_move; eauto. simpl. split_and!; try done.
  destruct Ha as [Ha|[_ Ha]]; [|done]. by destruct (go_startup _ (inv_gate _ _ _ H) a Ha) as (_ & ? & _).
Qed.

(** A worker cannot be built without a shutdown callback. *)
Definition config_ok : Prop := c_kind cfg = WorkerKind -> c_shutdown cfg = true.
Hypothesis cfg_ok : config_ok.

Lemma await_drained_ok g ths n t admission c :
  inv g ths n -> ths !! t = Some (AwaitDrained admission c) -> c ∈ closed (drain_chans g) ->
  preserved ths n t (Ret (g, stop_drained cfg admission)).
Proof.
  intros H Ht Hc. pose proof (inv_local _ _ _ H _ _ Ht) as (Hs & Ha & Hd). simpl in *.
  assert (quiet g) as Hq.
  { split_and!; try done. destruct Hd as [[_ Hd]|Hd]; [done|].
    by apply (go_drained _ (inv_gate _ _ _ H) c Hd). }
  unfold stop_drained. pose proof cfg_ok as Hk. unfold config_ok in Hk.
  destruct (c_kind cfg) eqn:Ek; [destruct (c_shutdown cfg) eqn:Ec|];
    eapply inv_move; eauto; simpl; split; auto; congruence.
Qed.

(** * Shutdown *)

Lemma shutdown_section_ok g ths n t k :
  inv g ths n -> ths !! t = Some (ShutdownEnter k) ->
  preserved ths n t
    (let '(g, attempt) := shutdown_section g in
     Ret (g, match attempt with
             | inl attempt => AwaitShutdown k attempt
             | inr attempt => ShutdownCallback k attempt
             end)).
Proof.
  intros H Ht. pose proof (inv_local _ _ _ H _ _ Ht) as [(Hs & Hi & Ha) Hcs]. simpl in *.
  unfold shutdown_section. destruct (shutdownAttempt g) as [a|] eqn:Ed; [by eapply inv_move|].
  assert (made (shutdown_chans g) ∉ closed (shutdown_chans g)) as Hc.
  { intros Hin. destruct (inv_gate _ _ _ H) as [_ _ _ _ _ _ (_ & _ & B3)]. specialize (B3 _ Hin). lia. }
  destruct g; simpl in *. open_step H.
  - split; simpl; unfold quiet; simpl; try done.
    + intros a [= <-]. split; [done|lia].
    + split_and!; try done. intros x; simpl. specialize (B3 x). intros. lia.
  - by rewrite decide_False.
  - others. naive_solver.
Qed.

(** The return of a finished shutdown. *)
Lemma local_closed g k err a :
  gate_ok g -> shutdownAttempt g = Some a -> a ∈ closed (shutdown_chans g) ->
  local_ok g (shutdown_return cfg k err).
Proof.
  intros Hg Ha Hc. destruct k as [|admission]; [done|]. unfold shutdown_return.
  generalize (match c_kind cfg with ProducerKind => err | WorkerKind => errors_Join [admission; err] end).
  intros e. destruct e; try done. simpl. split; [by apply (go_shutdown _ Hg a)|eauto].
Qed.

Lemma await_shutdown_ok g ths n t k a err :
  inv g ths n -> ths !! t = Some (AwaitShutdown k a) -> a ∈ closed (shutdown_chans g) ->
  preserved ths n t (Ret (g, shutdown_return cfg k err)).
Proof.
  intros H Ht Hc. pose proof (inv_local _ _ _ H _ _ Ht) as Ha. simpl in Ha.
  pose proof (local_closed g k err a (inv_gate _ _ _ H) Ha Hc).
  destruct k; eapply inv_move; eauto.
Qed.

Lemma shutdown_finish_ok g ths n t k a err :
  inv g ths n -> ths !! t = Some (ShutdownStore k a err) ->
  preserved ths n t (g ← shutdown_finish a err g; Ret (g, shutdown_return cfg k err)).
Proof.
  intros H Ht. pose proof (inv_local _ _ _ H _ _ Ht) as [Ha Hc]. simpl in *.
  assert (forall t' q, t' <> t -> ths !! t' = Some q -> shutting q = 0%nat) as Hsole.
  { apply (tally_sole shutting ths t (ShutdownStore k a err)); [|exact Ht|done].
    rewrite (inv_shutting _ _ _ H). unfold unfinished. rewrite Ha, decide_False by done. lia. }
  unfold shutdown_finish. destruct g; simpl in *. rewrite close_open by done. go_run. simpl.
  set (g' := with_shutdown _ _ _).
  assert (gate_ok g') as Hg'.
  { destruct (inv_gate _ _ _ H) as [G1 G2 G3 G4 G5 G6 (B1 & B2 & B3)]. unfold g'.
    split; simpl in *; unfold quiet in *; simpl in *; try done.
    split_and!; try done. intros x. simpl. destruct (G6 a Ha). specialize (B3 x). set_solver. }
  assert (local_ok g' (shutdown_return cfg k err)) as Hl
    by (eapply local_closed; [done|exact Ha|set_solver +]).
  open_step H; try (by destruct k).
  - rewrite decide_True, decide_False by set_solver. by destruct k.
  - others_started Hsole. all: naive_solver set_solver.
Qed.

(** * Uses *)

(** One more use of an active adapter. *)
Lemma begin_ok started g ths n t p p' :
  inv g ths n -> ths !! t = Some p -> active g = true ->
  holding p = 0%nat -> holding p' = 1%nat -> starting p = 0%nat -> starting p' = 0%nat ->
  shutting p = 0%nat -> shutting p' = 0%nat -> admitting p = 0%nat -> admitting p' = 0%nat ->
  invokes_shutdown p' = 0%nat -> (forall g, local_ok g p') ->
  preserved ths n t
    (Ret (mkServiceGate (active g) (stopping g) started (inflight g + 1) (drained g)
            (startupAttempt g) (shutdownAttempt g) (admissionOnce g) (admissionErr g)
            (drain_chans g) (startup_chans g) (shutdown_chans g) (shutdownErr g), p')).
Proof.
  intros H Ht Hac. intros. destruct (go_active _ (inv_gate _ _ _ H) Hac) as [Hs Ha].
  destruct g; simpl in *. subst. open_step H.
  - split; simpl; unfold quiet; simpl; try done.
    + intros c Hc. by destruct (G5 c Hc) as (? & _).
    + intros a Ha. by destruct (G6 a Ha) as [(? & _) _].
  - others.
Qed.

Lemma finish_ok g ths n t p p' :
  inv g ths n -> ths !! t = Some p ->
  holding p = 1%nat -> holding p' = 0%nat -> starting p = 0%nat -> starting p' = 0%nat ->
  shutting p = 0%nat -> shutting p' = 0%nat -> admitting p = 0%nat -> admitting p' = 0%nat ->
  invokes_shutdown p' = 0%nat -> (forall g, local_ok g p') ->
  preserved ths n t (g ← finishUse g; Ret (g, p')).
Proof.
  intros H Ht. intros.
  assert (inflight g >= 1)%Z as Hpos.
  { rewrite (inv_holding _ _ _ H). pose proof (tally_le holding _ _ _ Ht). lia. }
  unfold finishUse. destruct g; simpl in *.
  destruct stopping; simpl; [destruct (Z.eqb_spec (inflight - 1) 0); [destruct drained as [c|]|]|]; go_run.
  { destruct (go_drained _ (inv_gate _ _ _ H) c eq_refl) as (_ & Hm & Hiff). simpl in *.
    assert (c ∉ closed drain_chans) by (intros Hx; apply Hiff in Hx; lia).
    rewrite close_open by done. go_run. open_step H; [|others; left; set_solver].
    split; simpl; unfold quiet; simpl; try done.
    - intros a Ha. destruct (G4 a Ha) as (? & ? & ? & ?). lia.
    - intros a Ha. destruct (G6 a Ha) as [(_ & ? & _) _]. lia.
    - split_and!; try done. intros x. simpl. specialize (B1 x). set_solver. }
  all: open_step H; [|others; naive_solver lia].
  all: split; simpl; unfold quiet; simpl; try done.
  all: try (intros a Ha; destruct (G4 a Ha) as (? & ? & ? & ?); lia).
  all: try (intros a Ha; destruct (G6 a Ha) as [(_ & ? & _) _]; lia).
  all: try (intros c Hc; destruct (G5 c Hc) as (? & ? & Hiff); split_and!; [done..|];
            split; intros Hx; [apply Hiff in Hx|exfalso]; lia).
  all: intros; specialize (G2 ltac:(done) ltac:(done)); lia.
Qed.

(** * Every step *)

Lemma start_step_ok outcome g ths n t p :
  inv g ths n -> ths !! t = Some p ->
  match p with StartEnter | StartCallback _ | StartFailed _ _ | StartFinish _ => True | _ => False end ->
  preserved ths n t (Producer_start cfg outcome g p) /\
  (c_kind cfg = WorkerKind -> preserved ths n t (LifecycleWorker_start cfg outcome g p)).
Proof.
  intros H Ht Hp. destruct p as [|a|a err|attempt| | | | | | | | | | | | | | | | | | |]; try done; simpl.
  - split; intros; by apply start_enter_ok.
  - split; intros; by apply start_callback_ok.
  - split; [|intros Hk]; [unfold Producer_start_failed; destruct (c_shutdown cfg) eqn:E|].
    + by apply (start_failed_ok true _ _ _ _ _ err).
    + by apply (start_failed_ok false _ _ _ _ _ err).
    + apply (start_failed_ok true _ _ _ _ _ err); auto.
  - split; intros; by apply start_finish_ok.
Qed.

Lemma admission_step_ok outcome g ths n t p g' p' :
  inv g ths n -> ths !! t = Some p ->
  LifecycleWorker_closeAdmission cfg outcome g p = Some (g', p') -> preserved ths n t (Ret (g', p')).
Proof.
  intros H Ht E. pose proof (inv_local _ _ _ H _ _ Ht) as Hl.
  destruct p; try discriminate E; simpl in *.
  - injection E as <- <-. destruct g. by eapply close_ok.
  - destruct (admissionOnce g) eqn:Eo; try discriminate E.
    + injection E as <- <-. destruct g; simpl in *.
      destruct (c_admission cfg); eapply (once_ok (mkServiceGate _ _ _ _ _ _ _ _ _ _ _ _ _)); eauto; simpl; by rewrite ?Eo.
    + injection E as <- <-. destruct stop; by eapply inv_move.
  - injection E as <- <-. by eapply inv_move.
  - injection E as <- <-.
    assert (admissionOnce g = OnceRunning) as Eo.
    { pose proof (inv_admitting _ _ _ H). pose proof (tally_le admitting _ _ _ Ht). simpl in *.
      destruct (admissionOnce g); done || lia. }
    destruct stop; eapply once_ok; eauto; simpl; by rewrite ?Eo.
Qed.

Lemma call_step_ok outcome cause g ths n t p r :
  inv g ths n -> ths !! t = Some p -> call_step cfg outcome cause g p = Some r -> preserved ths n t r.
Proof.
  intros H Ht E. destruct p; try discriminate E.
  all: try (injection E as <-; destruct (start_step_ok outcome _ _ _ _ _ H Ht I) as [H1 H2];
            destruct (c_kind cfg); auto; fail).
  all: try (unfold call_step in E; apply fmap_Some in E as ([g' p'] & E & ->); by eapply admission_step_ok).
  - unfold call_step in E. destruct (c_kind cfg).
    + injection E as <-. destruct stop; destruct g; by eapply close_ok.
    + apply fmap_Some in E as ([g' p'] & E & ->). by eapply admission_step_ok.
  - injection E as <-. by apply stop_section_ok.
  - simpl in E. case_decide; [|done]. injection E as <-. by eapply await_startup_ok.
  - simpl in E. case_decide; [|done]. injection E as <-. by eapply await_drained_ok.
  - simpl in E. pose proof (shutdown_section_ok _ _ _ _ _ H Ht) as Hp.
    destruct (shutdown_section g). by injection E as <-.
  - simpl in E. case_decide; [|done]. injection E as <-. by eapply await_shutdown_ok.
  - injection E as <-. eapply inv_move; eauto. by apply (inv_local _ _ _ H _ _ Ht).
  - injection E as <-. by apply shutdown_finish_ok.
  - injection E as <-. simpl. unfold beginUse. destruct (active g) eqn:Ea; [|by eapply inv_move].
    destruct (stopping g) eqn:Es; [by eapply inv_move|].
    pose proof (begin_ok (runStarted g) g ths n t UseEnter Using H Ht Ea) as Hp.
    destruct g; simpl in *. by apply Hp.
  - injection E as <-. by eapply inv_move.
  - injection E as <-. by eapply finish_ok.
  - injection E as <-. simpl. unfold beginRun. destruct (active g) eqn:Ea; [|by eapply inv_move].
    destruct (stopping g) eqn:Es; [by eapply inv_move|].
    destruct (runStarted g) eqn:Er; [by eapply inv_move|].
    pose proof (begin_ok true g ths n t RunEnter Running H Ht Ea) as Hp.
    destruct g; simpl in *. by apply Hp.
  - injection E as <-. by eapply inv_move.
  - injection E as <-. destruct g. by eapply close_ok.
  - injection E as <-. by eapply finish_ok.
Qed.

Definition good (s : component) : Prop :=
  crashed s = None /\ inv (the_gate s) (threads s) (shutdown_calls s).

Lemma initial_good : good initial.
Proof. by repeat split. Qed.

Lemma step_good s ev s' : good s -> step cfg s ev = Some s' -> good s'.
Proof.
  intros [Hc H] E. unfold step in E. rewrite Hc in E. destruct ev as [t c|t outcome cause|t e].
  - destruct (threads s !! t) eqn:Et; [done|]. case_test; [|done]. injection E as <-.
    split; [done|]. by apply inv_call.
  - apply bind_Some in E as (p & Ht & E). apply bind_Some in E as (r & Hr & E).
    destruct (call_step_ok _ _ _ _ _ _ _ _ H Ht Hr) as (g & p' & -> & Hi). by injection E as <-.
  - apply bind_Some in E as (p & Ht & E). apply bind_Some in E as (p' & Hp & E). injection E as <-.
    split; [done|]. destruct (ctx_ok _ _ _ _ _ _ _ H Ht Hp) as (g & q & [= <- <-] & Hi). simpl.
    assert (invokes_shutdown p' = 0%nat) as E0.
    { destruct p; try discriminate Hp; injection Hp as <-; try done. by destruct k. }
    by rewrite E0, Nat.add_0_r in Hi.
Qed.

Lemma run_good evs s s' : good s -> run cfg s evs = Some s' -> good s'.
Proof.
  revert s. induction evs as [|ev evs IH]; intros s H E; [by injection E as <-|].
  apply bind_Some in E as (s1 & Hs & E). eauto using step_good.
Qed.

Lemma reachable_good s : reachable cfg s -> good s.
Proof. intros [evs E]. eapply run_good; [apply initial_good|done]. Qed.

(** * What the invariant gives *)

(** A callback on the resource holds the gate, so nothing is in use once it is quiet. *)
Lemma quiet_unused g ths n t p : inv g ths n -> quiet g -> ths !! t = Some p -> ~ in_use p.
Proof.
  intros H (_ & Hi & Ha) Ht Hu. pose proof (tally_le holding _ _ _ Ht).
  rewrite (inv_holding _ _ _ H) in Hi. pose proof (inv_local _ _ _ H _ _ Ht) as Hl.
  destruct p; simpl in *; try done; try lia. congruence.
Qed.

(** C30: The resource of a producer or worker is released once, and only when nothing uses
    it. However starts, stops, uses and the run interleave and whatever the callbacks
    do, no channel is closed twice and the shutdown callback is invoked at most once;
    from its invocation on, admission is closed, nothing is in flight and no use, run or
    startup callback is executing; and a stop that reports success has drained every
    use and seen the shutdown callback end. *)
Theorem released_after_drain s :
  reachable cfg s ->
  crashed s = None /\ (shutdown_calls s <= 1)%nat /\
  (shutdown_calls s = 1%nat ->
     quiet (the_gate s) /\ forall t p, threads s !! t = Some p -> ~ in_use p) /\
  (forall t, threads s !! t = Some (Done CallStop ErrNil) ->
     quiet (the_gate s) /\ (forall t' p, threads s !! t' = Some p -> ~ in_use p) /\
     (c_shutdown cfg = true -> shutdown_calls s = 1%nat /\ unfinished (the_gate s) = 0%nat)).
Proof.
  intros Hr. destruct (reachable_good _ Hr) as [Hc H]. split; [done|].
  pose proof (inv_calls _ _ _ H) as Hn. split; [by rewrite Hn; destruct (shutdownAttempt (the_gate s)); lia|].
  split.
  - intros E. rewrite Hn in E. destruct (shutdownAttempt (the_gate s)) as [a|] eqn:Ea; [|done].
    assert (quiet (the_gate s)) as Hq by (by apply (go_shutdown _ (inv_gate _ _ _ H) a)).
    split; [done|]. intros t p Ht. by eapply quiet_unused.
  - intros t Ht. destruct (inv_local _ _ _ H _ _ Ht) as [Hq Hs]. split; [done|].
    split; [intros t' p Hp; by eapply quiet_unused|]. intros Hcs.
    destruct (Hs Hcs) as (a & Ha & Hcl). unfold unfinished. by rewrite Hn, Ha, decide_True.
Qed.

(** * Progress *)

(** The sections and callbacks a call has before it at most. *)
Definition rank (p : pc) : nat :=
  match p with
  | Done _ _ => 0
  | ShutdownStore _ _ _ | StartFinish _ | UseFinish _ | RunFinish _ => 1
  | ShutdownCallback _ _ | AwaitShutdown _ _ | Using | RunStopped _ => 2
  | ShutdownEnter _ | UseEnter | Running => 3
  | AwaitDrained _ _ | StartFailed _ _ | RunEnter => 4
  | AwaitStartup _ _ _ | StartCallback _ => 5
  | StopEnter _ | StartEnter => 6
  | AdmissionStore _ _ => 7
  | AdmissionCallback _ => 8
  | AdmissionDo _ => 9
  | CloseEnter _ => 10
  end.

Lemma go_bind_ret {A B} (m : go A) (f : A -> go B) b :
  m ≫= f = Ret b -> exists a, m = Ret a /\ f a = Ret b.
Proof. destruct m as [a|]; [eauto|done]. Qed.

Lemma rank_return k err : rank (shutdown_return cfg k err) = 0%nat.
Proof. by destruct k. Qed.

Lemma rank_start outcome g p g' p' :
  Producer_start cfg outcome g p = Ret (g', p') \/ LifecycleWorker_start cfg outcome g p = Ret (g', p') ->
  match p with StartEnter | StartCallback _ | StartFailed _ _ | StartFinish _ => True | _ => False end ->
  (rank p' < rank p)%nat.
Proof.
  intros E Hp. destruct p; try done; simpl in E.
  - destruct E as [[= E]|[= E]]; unfold start_enter in E; repeat case_match; simplify_eq; simpl; lia.
  - destruct E as [[= _ <-]|[= _ <-]]; case_test; simpl; lia.
  - unfold Producer_start_failed, LifecycleWorker_start_failed in E.
    destruct E as [(cs & _ & [= _ <-])%go_bind_ret|(cs & _ & [= _ <-])%go_bind_ret];
      [case_test|]; simpl; lia.
  - unfold start_finish in E. destruct E as [(g1 & _ & E)%go_bind_ret|(g1 & _ & E)%go_bind_ret];
      case_test; injection E as _ <-; simpl; lia.
Qed.

Lemma rank_step outcome cause g p g' p' :
  call_step cfg outcome cause g p = Some (Ret (g', p')) -> (rank p' < rank p)%nat.
Proof.
  intros E. destruct p; try discriminate E.
  all: try (apply (rank_start outcome g _ g'); [|done]; unfold call_step in E; destruct (c_kind cfg);
            apply (inj Some) in E; auto; fail).
  - unfold call_step in E. destruct (c_kind cfg); injection E as _ <-; [case_test|]; simpl; lia.
  - simpl in E. unfold after_admission in E.
    destruct (admissionOnce g); [|discriminate E|]; injection E as _ <-; case_test; simpl; lia.
  - injection E as _ <-. simpl. lia.
  - injection E as _ <-. unfold after_admission. case_test; simpl; lia.
  - injection E as E. apply go_bind_ret in E as ([[g1 st] dr] & _ & E). injection E as _ <-.
    destruct st; simpl; lia.
  - simpl in E. case_decide; [|discriminate E]. injection E as _ <-. simpl. lia.
  - simpl in E. case_decide; [|discriminate E]. injection E as _ <-. unfold stop_drained. repeat case_match; simpl; lia.
  - simpl in E. unfold shutdown_section in E. destruct (shutdownAttempt g); injection E as _ <-; simpl; lia.
  - simpl in E. case_decide; [|discriminate E]. injection E as _ <-. rewrite rank_return. simpl. lia.
  - injection E as _ <-. simpl. lia.
  - injection E as E. apply go_bind_ret in E as (g1 & _ & [= _ <-]). rewrite rank_return. simpl. lia.
  - injection E as E. simpl in E. destruct (beginUse g) as [g1 []]; injection E as _ <-; simpl; lia.
  - injection E as _ <-. simpl. lia.
  - injection E as E. apply go_bind_ret in E as (g1 & _ & [= _ <-]). simpl. lia.
  - injection E as E. simpl in E. destruct (beginRun g) as [g1 []]; injection E as _ <-; simpl; lia.
  - injection E as _ <-. simpl. lia.
  - injection E as _ <-. simpl. lia.
  - injection E as E. apply go_bind_ret in E as (g1 & _ & [= _ <-]). simpl. lia.
Qed.

(** A call inside a callback or a section can move. *)
Lemma owner_moves outcome cause g ths n t p :
  inv g ths n -> ths !! t = Some p ->
  (0 < holding p + starting p + shutting p + admitting p)%nat ->
  exists r, call_step cfg outcome cause g p = Some r.
Proof.
  intros H Ht Hp. destruct p; simpl in Hp; try lia; simpl; eauto.
Qed.

(** A call that has not returned can move, or waits for one that can. *)
Lemma progress outcome cause g ths n t p :
  inv g ths n -> ths !! t = Some p -> (0 < rank p)%nat ->
  exists t' p' r, ths !! t' = Some p' /\ call_step cfg (outcome t') cause g p' = Some r.
Proof.
  intros H Ht Hr. pose proof (inv_local _ _ _ H _ _ Ht) as Hl.
  assert (forall f, (forall q, (f q <= holding q + starting q + shutting q + admitting q)%nat) ->
    (0 < tally f ths)%nat ->
    exists t' p' r, ths !! t' = Some p' /\ call_step cfg (outcome t') cause g p' = Some r) as Hown.
  { intros f Hf Hpos. destruct (tally_pos f ths Hpos) as (t' & q & Hq & Hfq).
    destruct (owner_moves (outcome t') cause g ths n t' q H Hq) as [r Hm]; [specialize (Hf q); lia|eauto]. }
  destruct (call_step cfg (outcome t) cause g p) as [r|] eqn:E; [eauto|].
  destruct p; try discriminate E; simpl in *; try lia.
  - exfalso. by destruct (c_kind cfg).
  - apply (Hown admitting); [intros; lia|]. rewrite (inv_admitting _ _ _ H).
    destruct (admissionOnce g); try discriminate E. lia.
  - case_decide; [done|]. apply (Hown starting); [intros; lia|]. rewrite (inv_starting _ _ _ H).
    destruct Hl as (_ & _ & [->|[? _]]); [lia|done].
  - case_decide as Hc; [done|]. destruct Hl as (_ & _ & [[? _]|Hd]); [done|].
    apply (Hown holding); [intros; lia|]. pose proof (inv_holding _ _ _ H).
    destruct (go_drained _ (inv_gate _ _ _ H) _ Hd) as (_ & _ & Hiff).
    destruct (decide (inflight g = 0%Z)); [tauto|lia].
  - destruct (shutdown_section g). done.
  - case_decide as Hc; [done|]. apply (Hown shutting); [intros; lia|].
    rewrite (inv_shutting _ _ _ H). unfold unfinished. rewrite Hl, decide_False by done. lia.
Qed.

(** One step of a thread with the outcome chosen for its callbacks. *)
Definition stepping (outcome : nat -> go error) (cause : error) (ev : event) : Prop :=
  exists t, ev = EvStep t (outcome t) cause.

Lemma good_returns outcome cause m s :
  (tally rank (threads s) <= m)%nat -> good s ->
  exists evs s', Forall (stepping outcome cause) evs /\ run cfg s evs = Some s' /\
    forall t p, threads s' !! t = Some p -> rank p = 0%nat.
Proof.
  revert s. induction m as [|m IH]; intros s Hm Hg.
  { exists [], s. split; [done|]. split; [done|]. intros t p Hp.
    pose proof (tally_le rank _ _ _ Hp). lia. }
  destruct (decide (tally rank (threads s) = 0%nat)) as [Hz|Hz]; [apply IH; [lia|done]|].
  destruct (tally_pos rank (threads s)) as (t & p & Ht & Hp); [lia|].
  destruct Hg as [Hc H]. destruct (progress outcome cause _ _ _ _ _ H Ht Hp) as (t' & q & r & Hq & Hr).
  destruct (call_step_ok _ _ _ _ _ _ _ _ H Hq Hr) as (g' & q' & -> & Hi).
  pose proof (rank_step _ _ _ _ _ _ Hr) as Hlt. pose proof (tally_set rank _ _ _ q' Hq) as Hset.
  set (s1 := mkComponent g' (<[t' := q']> (threads s)) (shutdown_calls s + invokes_shutdown q') None).
  destruct (IH s1) as (evs & s' & Hf & Hrun & Hd); [simpl; lia|by split|].
  exists (EvStep t' (outcome t') cause :: evs), s'. split; [by constructor; [eexists|]|].
  split; [|done]. cbn [run]. unfold step. rewrite Hc, Hq. simpl. rewrite Hr. exact Hrun.
Qed.

(** Every call returns when its callbacks do. From every reachable state, whatever the
    callbacks in progress answer or panic with, the calls in progress can all be run to
    their returns: no stop waits for a drain, startup or shutdown whose end has already
    passed, and no wake-up is lost. *)
Theorem calls_return s outcome cause :
  reachable cfg s ->
  exists evs s', Forall (stepping outcome cause) evs /\ run cfg s evs = Some s' /\
    forall t p, threads s' !! t = Some p -> exists c err, p = Done c err.
Proof.
  intros Hr. destruct (good_returns outcome cause _ s (le_n _) (reachable_good _ Hr)) as (evs & s' & ? & ? & Hd).
  exists evs, s'. split; [done|]. split; [done|]. intros t p Hp. specialize (Hd _ _ Hp).
  destruct p; try discriminate Hd. eauto.
Qed.

End safety.

(** * Witnesses *)

Module SampleService.

(** A producer with startup and shutdown callbacks. *)
Definition cfg : config := mkServiceConfig ProducerKind true true false.

Lemma cfg_ok : config_ok cfg.
Proof. by intros H. Qed.

Definition go_on (t : nat) : event := EvStep t (Ret ErrNil) ErrNil.

(** A start, a use, a stop that arrives during the use, and the end of both. *)
Definition trace : list event :=
  [EvCall 0 CallStart; go_on 0; go_on 0; go_on 0; EvCall 1 CallUse; go_on 1; EvCall 2 CallStop;
   go_on 2; go_on 2; go_on 1; go_on 1; go_on 2; go_on 2; go_on 2; go_on 2].

Definition final : option component := run cfg initial trace.
Definition waiting : option component := run cfg initial (take 9 trace).

End SampleService.

Lemma released_after_drain_witness :
  exists s, SampleService.final = Some s /\ threads s !! 2%nat = Some (Done CallStop ErrNil) /\
    shutdown_calls s = 1%nat /\ quiet (the_gate s).
Proof.
  destruct SampleService.final as [s|] eqn:E; [|vm_compute in E; discriminate E].
  exists s. split; [reflexivity|].
  destruct (released_after_drain SampleService.cfg SampleService.cfg_ok s
    (ex_intro _ SampleService.trace E)) as (_ & _ & _ & H).
  assert (threads s !! 2%nat = Some (Done CallStop ErrNil)) as Ht by (vm_compute in E; by injection E as <-).
  destruct (H 2%nat Ht) as (Hq & _ & Hs). destruct (Hs eq_refl) as [Hn _].
  exact (conj Ht (conj Hn Hq)).
Defined.

(** The stop waits for a use in progress; both can be run to their ends. *)
Lemma calls_return_witness :
  exists s evs s', SampleService.waiting = Some s /\ threads s !! 2%nat = Some (AwaitDrained ErrNil 0) /\
    run SampleService.cfg s evs = Some s' /\
    forall t p, threads s' !! t = Some p -> exists c err, p = Done c err.
Proof.
  destruct SampleService.waiting as [s|] eqn:E; [|vm_compute in E; discriminate E].
  destruct (calls_return SampleService.cfg SampleService.cfg_ok s (fun _ => Panic "boom") ErrNil
    (ex_intro _ _ E)) as (evs & s' & _ & Hr & Hd).
  exists s, evs, s'. split; [reflexivity|]. split; [vm_compute in E; by injection E as <-|].
  exact (conj Hr Hd).
Defined.
