(* ===== verification/ServicePublish.v ===== *)
(** What a publish through the service adapter reports, and what a delivery through its
    handler does: the application callback runs at most once, with the correlation of
    its own hop, and its outcome is what the caller sees. *)

From S2P Require Import Prelude GoStd Sentinels Contract Job Service.

(** [ctx.Value] finds what [WithValue] stored; an error result is not nil. *)
Class HostLaws (W : Type) `{!Host W} : Prop := {
  FromContext_law c v : FromContext (WithValues c v) = Some v;
  Send_law a c v w e w' : Send a c v w = (inl e, w') -> e <> ErrNil;
  Receive_law a m trusted w e w' : Receive a m trusted w = (inl e, w') -> e <> ErrNil
}.

(** The text an error prints. *)
Definition text_of (e : error) : string :=
  match e with
  | ErrNil => ""
  | Sentinel t | Leaf t | Wrap t _ | Join t _ => t
  | ValidationError f p => f +:+ ": " +:+ p
  | FailureErr _ code _ => code
  end.

Section publish.
Context {W : Type} `{!Host W, !HostLaws W}.
Context (order : list (string * string) -> list (string * string)).
Context {R : Type}.
Implicit Types p q : Producer (R := R).

(** The one call of a publish callback: the legacy one answers for acceptance with its
    error alone. *)
Definition publish_call p (ctx : Ctx) (message : QueuedMessage) (options : list AllowOption)
    : io W (go (Z * error)) :=
  match P_publishWithAcceptance p with
  | Some callback => callback ctx (P_resource p) message options
  | None =>
      r ← match P_publish p with
          | Some callback => callback ctx (P_resource p) message options
          | None => mret (Panic "nil function")
          end;
      mret match r with
           | Panic why => Panic why
           | Ret err => Ret (if is_nil err then PublishAccepted else PublishUnknown, err)
           end
  end.

(** What the caller is told about an outcome of the callback. *)
Definition reported (outcome : go (Z * error)) (acceptance : Z) (err : error) : Prop :=
  (err = ErrNil <-> outcome = Ret (PublishAccepted, ErrNil)) /\
  (err <> ErrNil -> text_of err =
     "queue service publish failed with " +:+ publishAcceptanceName acceptance +:+ " acceptance") /\
  (acceptance = PublishUnknown -> Is err "queue service publish outcome unknown" = true) /\
  match outcome with
  | Panic _ => acceptance = PublishUnknown /\ Is err "queue service callback panicked" = true
  | Ret (said, cause) =>
      acceptance = (if (said =? PublishAccepted)%Z || (said =? PublishNotAccepted)%Z
                    then said else PublishUnknown) /\
      forall target, Is cause target = true -> Is err target = true
  end.

(** The first option with its metadata replaced, and the others as they were. *)
Definition carries (options transport : list AllowOption) (m : Metadata) : Prop :=
  exists first : AllowOption, transport = first <| aMetadata := Some m |> :: tail options /\
    (options = [] \/ head options = Some first).

(** Producers that differ in their callbacks only. *)
Definition same_but_callbacks p q : Prop :=
  P_propagation q = P_propagation p /\ P_trace q = P_trace p.

Lemma Join_Is es target :
  Is (errors_Join es) target = existsb (fun e => Is e target) es.
Proof.
  unfold errors_Join. assert (forall l : list error,
    existsb (fun e => Is e target) (List.filter (fun e => negb (is_nil e)) l) =
    existsb (fun e => Is e target) l) as H.
  { induction l as [|e l IH]; [done|]. simpl. rewrite <- IH. by destruct e. }
  rewrite <- H. by destruct (List.filter _ es).
Qed.

(** The boundary and the normalisation together report honestly. *)
Lemma normalized_reported (outcome : go (Z * error)) acceptance err :
  normalizePublishResult
    match outcome with Panic _ => PublishUnknown | Ret (a, _) => a end
    match outcome with
    | Panic _ => CallbackPanicError CallbackPublish
    | Ret (_, e) => if negb (is_nil e) then CallbackError CallbackPublish e else ErrNil
    end = (acceptance, err) ->
  reported outcome acceptance err.
Proof.
  destruct outcome as [[a e]|why]; simpl.
  2: { intros [= <- <-]. unfold reported. split_and!; try done. }
  set (c := if negb (is_nil e) then _ else _).
  assert (forall target, Is e target = true -> Is c target = true) as Hc by (unfold c; by destruct e).
  assert (is_nil c = is_nil e) as Hn by (unfold c; by destruct e).
  unfold normalizePublishResult, PublishError. rewrite Hn. intros E.
  destruct (Z.eqb_spec a PublishAccepted) as [->|H1].
  { destruct e eqn:Ee; injection E as <- <-; unfold reported; simpl; split_and!; try done; intros; by apply Hc. }
  assert (forall er, (er = ErrNil <-> Ret (a, e) = Ret (PublishAccepted, ErrNil)) <-> er <> ErrNil) as Hne.
  { intros er. split; [intros Hx Hy; apply Hx in Hy; congruence|intros; split; congruence]. }
  destruct (Z.eqb_spec a PublishNotAccepted) as [->|H2]; simpl in E.
  { destruct (is_nil e) eqn:Ee; injection E as <- <-; unfold reported; rewrite Hne; split_and!; try done.
    intros target Ht. by destruct e. }
  destruct (Z.eqb_spec a PublishUnknown) as [->|H3]; simpl in E; injection E as <- <-;
    unfold reported; rewrite Hne; split_and!; try done; try (cbn -[errors_Join]; by rewrite Join_Is).
  - intros target Ht. cbn -[errors_Join]. rewrite Join_Is. simpl. rewrite (Hc target Ht). by rewrite orb_true_r.
  - by destruct (Z.eqb_spec a PublishAccepted), (Z.eqb_spec a PublishNotAccepted).
  - intros target Ht. cbn -[errors_Join]. rewrite Join_Is. simpl. rewrite (Hc target Ht). by rewrite !orb_true_r.
Qed.

(** From the transport options on: rejected as invalid, or one call of the callback. *)
Lemma publish_prepared_once p ctx message values (first : AllowOption) rest m w r w' :
  is_set (P_publish p) <> is_set (P_publishWithAcceptance p) ->
  publish_prepared order p ctx message values (first <| aMetadata := Some m |> :: rest) w = (r, w') ->
  (Metadata_Validate order m <> ErrNil /\ r = (values, PublishNotAccepted, Metadata_Validate order m) /\ w' = w) \/
  (Metadata_Validate order m = ErrNil /\
   exists outcome acceptance err,
     publish_call p (WithValues ctx values) message (first <| aMetadata := Some m |> :: rest) w = (outcome, w') /\
     r = (values, acceptance, err) /\ reported outcome acceptance err).
Proof.
  intros Hp. unfold publish_prepared. destruct first as [f1 f2 f3 f4 f5 f6 f7 f8]. simpl.
  destruct (is_nil (Metadata_Validate order m)) eqn:Ev; simpl.
  2: { intros [= <- <-]. left. split_and!; try done. intros H. by rewrite H in Ev. }
  assert (Metadata_Validate order m = ErrNil) as Hm by (by destruct (Metadata_Validate order m)).
  intros ([acceptance err] & w1 & H & Hr)%io_bind_inv. right. split; [done|].
  unfold publish_call. destruct (P_publishWithAcceptance p) as [callback|].
  - apply io_bind_inv in H as (outcome & w2 & Hcall & [= H <-]).
    destruct (normalizePublishResult acceptance err) as [a e] eqn:En. injection Hr as <- <-.
    exists outcome, a, e. split_and!; try done. apply normalized_reported. rewrite <- En.
    destruct outcome as [[x y]|]; simpl in *; [destruct y; simpl in *|]; by simplify_eq.
  - destruct (P_publish p) as [callback|]; [|done].
    apply io_bind_inv in H as (err1 & w2 & H & [= <- <- <-]).
    apply io_bind_inv in H as (outcome & w3 & Hcall & [= <- <-]).
    destruct (normalizePublishResult _ _) as [a e] eqn:En. injection Hr as <- <-.
    eexists _, a, e. split; [unfold mbind, io_bind; rewrite Hcall; reflexivity|]. split; [done|].
    apply normalized_reported. rewrite <- En. destruct outcome as [y|]; [by destruct y|done].
Qed.

Hypothesis order_perm : forall l, order l ≡ₚ l.

(** A copy made entry by entry is the map. *)
Lemma store_all_copy (c : carrier) : store_all order (map_to_list c) ∅ = c.
Proof.
  unfold store_all. apply map_eq. intros k.
  assert (forall l (m : carrier), NoDup l.*1 ->
    fold_left (fun m kv => <[kv.1 := kv.2]> m) l m !! k =
    match list_to_map (M := carrier) l !! k with Some v => Some v | None => m !! k end) as Hf.
  { induction l as [|[a b] l IH]; intros m Hl; [done|]. simpl in *. apply NoDup_cons in Hl as [Ha Hl].
    rewrite IH by done. destruct (decide (k = a)) as [->|Hk].
    - rewrite lookup_insert_eq. rewrite (proj1 (not_elem_of_list_to_map _ _)) by done.
      by rewrite lookup_insert_eq.
    - by rewrite !lookup_insert_ne by done. }
  assert (NoDup (order (map_to_list c)).*1) as Hd by (rewrite order_perm; apply NoDup_fst_map_to_list).
  rewrite Hf by done. rewrite (list_to_map_proper _ (map_to_list c)) by (done || apply order_perm).
  rewrite list_to_map_to_list. by destruct (c !! k).
Qed.

Lemma transport_shape options correlation trace :
  exists (first : AllowOption) m,
    withTransportMetadata order options correlation trace = first <| aMetadata := Some m |> :: tail options /\
    (options = [] \/ head options = Some first) /\ Correlation m = Some correlation /\
    TraceContext m = (if (size trace =? 0)%nat then None else Some trace).
Proof.
  unfold withTransportMetadata.
  destruct options as [|first rest]; simpl.
  - exists zeroAllowOption. eexists. split; [reflexivity|]. split; [by left|]. simpl. by rewrite !store_all_copy.
  - exists first. eexists. split; [reflexivity|]. split; [by right|].
    destruct (default _ _) as [? ? ? ? ? ? ? ? ? ? ? ? ?]. simpl. by rewrite !store_all_copy.
Qed.

(** The trace fields of a publish: none without a propagator, else what one injection gave. *)
Definition traced (propagator : option Propagator) (c : Ctx) (w : W) (trace : carrier) (w' : W) : Prop :=
  match propagator with
  | None => trace = ∅ /\ w' = w
  | Some t => exists raw, Inject t c ∅ w = (Ret raw, w') /\ trace = removeEmptyFields order raw
  end.

(** A publish through a producer, from the world [w] in which it begins to the world [w'] in
    which it returns: the context is alive, one message hop is made, its trace is injected,
    and the callback is called once; nothing else happens before or after. *)
Definition attempted p (message : QueuedMessage) (options : list AllowOption) (c : Ctx) (w : W)
    (values : Values) (acceptance : Z) (err : error) (w' : W) : Prop :=
  exists parent correlation trace transport m w0 w1 w2 outcome,
    Cause c w = (ErrNil, w0) /\ FromContext c = Some parent /\
    Send (P_propagation p) (correlationCarrier order options) parent w0 = (inr (values, correlation), w1) /\
    traced (P_trace p) c w1 trace w2 /\
    carries options transport m /\ Correlation m = Some correlation /\
    TraceContext m = (if (size trace =? 0)%nat then None else Some trace) /\
    Metadata_Validate order m = ErrNil /\
    FromContext (WithValues c values) = Some values /\
    publish_call p (WithValues c values) message transport w2 = (outcome, w') /\
    reported outcome acceptance err.

(** The steps before the callback decide alone. *)
Lemma prepared_attempted p message options c parent correlation trace values w w0 w1 w2 r w' :
  is_set (P_publish p) <> is_set (P_publishWithAcceptance p) ->
  Cause c w = (ErrNil, w0) -> FromContext c = Some parent ->
  Send (P_propagation p) (correlationCarrier order options) parent w0 = (inr (values, correlation), w1) ->
  traced (P_trace p) c w1 trace w2 ->
  publish_prepared order p c message values (withTransportMetadata order options correlation trace) w2 = (r, w') ->
  (exists err, err <> ErrNil /\ r = (values, PublishNotAccepted, err) /\
     forall q, publish_prepared order q c message values
       (withTransportMetadata order options correlation trace) w2 = (r, w')) \/
  (exists acceptance err, r = (values, acceptance, err) /\
     attempted p message options c w values acceptance err w').
Proof.
  intros Hp Ha Hc Hs Ht. destruct (transport_shape options correlation trace) as (first & m & -> & Hh & Hm & Htr).
  intros H. apply publish_prepared_once in H as [(Hv & -> & ->)|(Hv & o & a & e & Ho & -> & Hr)]; [left|right|done].
  - eexists. split; [exact Hv|]. split; [done|]. intros q. unfold publish_prepared.
    destruct first. simpl. destruct (Metadata_Validate order m); done.
  - exists a, e. split; [done|]. exists parent, correlation, trace. eexists _, m, w0, w1, w2, o.
    split_and!; try done; [by exists first|apply FromContext_law].
Qed.

(** C31: A publish reports what happened, and the callback runs at most once. A publish
    ends without the callback (the result does not depend on which callback is
    configured), reports a definite rejection and an error; or it made one message hop,
    injected the trace once and then called the callback once, each in the world that the
    step before left and the publish returning in the world that the callback left, on
    the child correlation that its context, its metadata and the caller all see, after
    the metadata passed validation. Then the result is an acceptance without error
    exactly when the callback said so, an ambiguous or invalid answer and a panic are
    reported as unknown, the cause stays visible to errors.Is, and the text of the error
    never contains that of the cause. *)
Theorem publish_honest p admitted ctx message options w values acceptance err w' :
  is_set (P_publish p) <> is_set (P_publishWithAcceptance p) ->
  PublishWithAcceptance order p admitted ctx message options w = ((values, acceptance, err), w') ->
  (acceptance = PublishNotAccepted /\ err <> ErrNil /\
   forall q, same_but_callbacks p q ->
     PublishWithAcceptance order q admitted ctx message options w = ((values, acceptance, err), w')) \/
  (admitted = true /\ exists c, ctx = Some c /\ attempted p message options c w values acceptance err w').
Proof.
  intros Hp. unfold PublishWithAcceptance.
  destruct admitted; simpl; [|intros [= <- <- <- <-]; left; by split_and!].
  destruct ctx as [c|]; [|intros [= <- <- <- <-]; left; by split_and!].
  unfold mbind, io_bind. destruct (Cause c w) as [cause w0] eqn:Ec.
  destruct (is_nil cause) eqn:En; simpl;
    [|intros [= <- <- <- <-]; left; split_and!; [done|by intros ->|done]].
  apply is_nil_iff in En as ->.
  destruct (FromContext c) as [parent|] eqn:Ef; [|intros [= <- <- <- <-]; left; by split_and!].
  destruct (Send (P_propagation p) _ parent w0) as [sent w1] eqn:Es.
  destruct sent as [e|[v correlation]].
  { intros [= <- <- <- <-]. left. split_and!; [done|by eapply Send_law|]. intros q [-> _]. by rewrite Es. }
  destruct (P_trace p) as [trace|] eqn:Et.
  2: { intros H. eapply (prepared_attempted p) in H as [(e & He & [= -> -> ->] & Hq)|(a & e & [= -> -> ->] & H)]; eauto.
    2: { by rewrite Et. }
    left. split_and!; [done..|]. intros q [-> Eq]. rewrite Es, Eq, Et. apply Hq. }
  destruct (Inject trace c ∅ w1) as [[injected|why] w2] eqn:Ei.
  - intros H. eapply (prepared_attempted p) in H as [(e & He & [= -> -> ->] & Hq)|(a & e & [= -> -> ->] & H)]; eauto.
    2: { rewrite Et. by exists injected. }
    left. split_and!; [done..|]. intros q [-> Eq]. rewrite Es, Eq, Et, Ei. apply Hq.
  - intros [= <- <- <- <-]. left. split_and!; [done..|]. intros q [-> Eq]. by rewrite Es, Eq, Et, Ei.
Qed.

End publish.

(** * Deliveries *)

Section delivery.
Context {W : Type} `{!Host W, !HostLaws W}.
Context (order : list (string * string) -> list (string * string)).

(** The context of a delivery: its own without a propagator, else the one extracted from
    the trace metadata of the message, which is valid. *)
Definition extracted (trace : option Propagator) (ctx : Ctx) (message : TaskMessage) (w : W) (c : Ctx) (w' : W) : Prop :=
  match trace with
  | None => c = ctx /\ w' = w
  | Some t => exists metadata w1,
      optional (trace_method message) w = (Ret metadata, w1) /\
      Metadata_Validate order (zeroMetadata <| TraceContext := metadata |>) = ErrNil /\
      Extract t ctx metadata w1 = (Ret c, w')
  end.

(** The handler ran once, in a context that carries the values received for this
    delivery, and its outcome is the error of the delivery; the worlds are those that
    each step leaves to the next, from [w] to [w']. *)
Definition handled (adapter : Adapter) (trusted : bool) (trace : option Propagator) (handler : Handler)
    (ctx : Ctx) (message : TaskMessage) (w : W) (err : error) (w' : W) : Prop :=
  exists metadata values c w0 w1 w2 outcome,
    optional (correlation_method message) w = (Ret metadata, w0) /\
    Receive adapter metadata trusted w0 = (inr values, w1) /\
    extracted trace ctx message w1 c w2 /\
    FromContext (WithValues c values) = Some values /\
    handler (WithValues c values) message w2 = (outcome, w') /\
    err = match outcome with
          | Panic _ => CallbackPanicError CallbackHandler
          | Ret e => if negb (is_nil e) then CallbackError CallbackHandler e else ErrNil
          end.

Lemma handler_call_once adapter trusted trace handler message metadata values ctx c w w0 w1 w2 r w' :
  optional (correlation_method message) w = (Ret metadata, w0) ->
  Receive adapter metadata trusted w0 = (inr values, w1) -> extracted trace ctx message w1 c w2 ->
  handler_call handler message values c w2 = (r, w') ->
  exists err, r = Ret err /\ handled adapter trusted trace handler ctx message w err w'.
Proof.
  intros Hm Hr He (err & w3 & (outcome & w4 & Ho & [= <- <-])%io_bind_inv & [= <- <-])%io_bind_inv.
  eexists. split; [done|]. exists metadata, values, c, w0, w1, w2, outcome.
  split_and!; [done..|apply FromContext_law|exact Ho|done].
Qed.

(** Every delivery runs the application's handler at most once. It ends before the
    handler, with an error and whatever the handler is; or the handler ran once, in a
    context that carries the correlation values received for this delivery, and the
    delivery fails exactly when the handler failed or panicked. *)
Theorem delivery_once options h ctx message w err w' :
  NewHandler order options = inr h -> h ctx message w = (err, w') ->
  (err <> ErrNil /\ forall handler h', NewHandler order (options <| HO_Handler := Some handler |>) = inr h' ->
     h' ctx message w = (err, w')) \/
  (exists adapter handler, HO_Handler options = Some handler /\
     handled adapter (HO_TrustedMetadata options) (propagator (HO_TracePropagator options)) handler ctx message w err w').
Proof.
  destruct options as [factory copts trusted tp hd]. unfold NewHandler. simpl.
  destruct factory as [factory|]; [|done]. case_test; [done|].
  destruct hd as [handler|]; [|done]. destruct (NewAdapter factory copts) as [?|adapter]; [done|].
  intros [= <-] (r & w1 & H & [= <- <-])%io_bind_inv.
  enough ((match r with Panic _ => True | Ret e => e <> ErrNil end /\
           forall handler', deliver order adapter trusted (propagator tp) handler' ctx message w = (r, w1)) \/
          (exists e, r = Ret e /\ handled adapter trusted (propagator tp) handler ctx message w e w1)) as [[Hn Hi]|(e & -> & He)].
  { left. split; [by destruct r|]. intros handler' h' [= <-]. unfold mbind, io_bind. by rewrite Hi. }
  { right. by exists adapter, handler. }
  revert H. unfold deliver, or_panic, mbind, io_bind.
  destruct (optional (correlation_method message) w) as [[metadata|why] w2] eqn:Eo;
    [|intros [= <- <-]; left; by split].
  destruct (Receive adapter metadata trusted w2) as [[e|values] w3] eqn:Er; simpl.
  { intros [= <- <-]. left. split; [by eapply Receive_law|done]. }
  destruct (propagator tp) as [trace|]; [|intros H; right; by eapply handler_call_once].
  unfold or_panic, mbind, io_bind. destruct (optional (trace_method message) w3) as [[tm|why] w4] eqn:Et;
    [|intros [= <- <-]; left; by split].
  destruct (Metadata_Validate order _) eqn:Ev; simpl; try (intros [= <- <-]; left; by split).
  unfold or_panic, mbind, io_bind.
  destruct (Extract trace ctx tm w4) as [[c|why] w5] eqn:Ex; [|intros [= <- <-]; left; by split].
  intros H. right. eapply handler_call_once; [done..| |exact H]. by exists tm, w4.
Qed.
End delivery.

(** * A host: contexts that carry at most one correlation value, a counter for new ones *)
Module SampleHost.

Record world := mkWorld { next : nat; log : list string }.

#[global] Instance host : Host world := {|
  Ctx := option string;
  Values := string;
  zeroValues := "";
  Factory := unit;
  CorrelationOptions := unit;
  Adapter := unit;
  Propagator := unit;
  QueuedMessage := string;
  TaskMessage := string;
  Cause _ w := (ErrNil, w);
  FromContext c := c;
  WithValues _ v := Some v;
  NewAdapter _ _ := inr tt;
  Send _ c v w :=
    let child := v +:+ "." +:+ pretty (next w) in
    (inr (child, <["correlation_id" := child]> c), mkWorld (S (next w)) (log w));
  Receive _ _ _ w := (inr (pretty (next w)), mkWorld (S (next w)) (log w));
  Inject _ _ c w := (Ret c, w);
  Extract _ c _ w := (Ret c, w);
  correlation_method _ := None;
  trace_method _ := None
|}.

#[global] Instance host_laws : HostLaws world.
Proof. by split. Qed.

Definition publish (ctx : option string) (r : string) (m : string) (_ : list AllowOption)
    : io world (go (Z * error)) :=
  fun w => (Ret (PublishUnknown, Leaf "timeout"), mkWorld (next w) (log w ++ [r +:+ m])).

Definition producer : Producer (W := world) (R := string) :=
  mkProducer "p" "topic/" tt None None None None (Some publish) None.

Definition handler (ctx : option string) (m : string) : io world (go error) :=
  fun w => (Panic "boom", mkWorld (next w) (log w ++ [m])).

Definition handler_options : HandlerOptions (W := world) :=
  mkHandlerOptions (Some tt) tt false NilInterface (Some handler).

End SampleHost.

(** A publish whose backend times out is reported as ambiguous. *)
Lemma publish_honest_witness :
  let w := SampleHost.mkWorld 0 [] in
  let '((values, acceptance, err), w') :=
    PublishWithAcceptance (fun l => l) SampleHost.producer true (Some (Some "root")) "m" [] w in
  attempted (fun l => l) SampleHost.producer "m" [] (Some "root") w values acceptance err w' /\
  acceptance = PublishUnknown /\ SampleHost.log w' = ["topic/m"].
Proof.
  intros w. destruct (PublishWithAcceptance _ _ _ _ _ _ w) as [[[values acceptance] err] w'] eqn:E.
  destruct (publish_honest (fun l => l) (fun l => Permutation_refl l) SampleHost.producer true
    (Some (Some "root")) "m" [] w values acceptance err w' ltac:(done) E) as [(Ha & _)|(_ & c & [= <-] & H)].
  - vm_compute in E. exfalso. revert Ha. by injection E as _ <- _ _.
  - split; [exact H|]. vm_compute in E. by injection E as _ <- _ <-.
Defined.

Lemma delivery_once_witness :
  exists adapter handler w',
    HO_Handler SampleHost.handler_options = Some handler /\
    handled (fun l => l) adapter false (propagator (HO_TracePropagator SampleHost.handler_options)) handler (Some "root") "m"
      (SampleHost.mkWorld 0 []) (CallbackPanicError CallbackHandler) w'.
Proof.
  destruct (NewHandler (fun l => l) SampleHost.handler_options) as [e|h] eqn:Eh; [discriminate Eh|].
  destruct (h (Some "root") "m" (SampleHost.mkWorld 0 [])) as [err w'] eqn:E.
  destruct (delivery_once (fun l => l) SampleHost.handler_options h (Some "root") "m"
    (SampleHost.mkWorld 0 []) err w' Eh E) as [[Hn Hi]|(a & hd & Hh & H)].
  - exfalso. specialize (Hi (fun _ _ w => (Ret ErrNil, w)) _ eq_refl).
    vm_compute in Hi. by injection Hi as <-.
  - exists a, hd, w'. split; [exact Hh|]. injection Eh as <-. vm_compute in E. injection E as <- <-. exact H.
Defined.
