(* ===== verification/RedisOptions.v ===== *)
(** Configuration of the Redis Streams worker (adapters/redisstream/options.go): the
    options in their order of application, the derived stream names and the policy that
    construction enforces. *)

From S2P Require Import Prelude GoStd Sentinels Contract Failure Job Status Stream ValkeyOptions.

(** The parts of a TLS configuration the options set. *)
Record tlsConfig := mkTls { MinVersion : Z; InsecureSkipVerify : bool }.

(** A nil map of replay destinations is [None]. The logger only writes. *)
Record redisOptions := mkRedisOptions {
  R_runFunc : Message -> go error;
  R_addr : string;
  R_db : Z;
  R_connectionString : string;
  R_username : string;
  R_password : string;
  R_streamName : string;
  R_cluster : bool;
  R_group : string;
  R_consumer : string;
  R_maxLength : Z;
  R_blockTime : Z;
  R_tls : option tlsConfig;
  R_requestTimeout : Z;
  R_connectTimeout : Z;
  R_reclaimMinIdle : Z;
  R_reclaimInterval : Z;
  R_reclaimBatchSize : Z;
  R_failureStream : string;
  R_deadLetterStream : string;
  R_maxDeliveryAttempts : Z;
  R_commandTimeout : Z;
  R_management : option StatusMetadata;
  R_replayDestinations : option (gset string);
  R_replayInvalid : bool;
  R_recordMaxLength : Z;
  R_recordRetentionInvalid : bool
}.

(** The functions of the package that return an [Option]. *)
Inductive Option :=
| WithRecordRetention (maxRecords : Z)
| WithReplayDestinations (destinations : list string)
| WithReclaim (minIdle interval batchSize : Z)
| WithFailureStream (stream : string)
| WithDeadLetter (stream : string) (maxAttempts : Z)
| WithCommandTimeout (timeout : Z)
| WithManagementStatus (metadata : StatusMetadata)
| WithAddr (addr : string)
| WithMaxLength (m : Z)
| WithBlockTime (m : Z)
| WithDB (db : Z)
| WithCluster
| WithStreamName (name : string)
| WithGroup (name : string)
| WithConsumer (name : string)
| WithUsername (username : string)
| WithPassword (passwd : string)
| WithConnectionString (connectionString : string)
| WithRunFunc (fn : Message -> go error)
| WithLogger
| WithTLS
| WithSkipTLSVerify
| WithRequestTimeout (timeout : Z)
| WithConnectTimeout (timeout : Z).

(** The loop of [WithReplayDestinations]: the destinations kept, and whether one was
    rejected. *)
Fixpoint destinations_loop (destinations : list string) (kept : gset string) (invalid : bool)
    : gset string * bool :=
  match destinations with
  | [] => (kept, invalid)
  | destination :: destinations =>
      let destination := TrimSpace destination in
      if (destination == "") || (MaxIdentityBytes <? len destination)%Z
         || ContainsAny destination control_chars
      then destinations_loop destinations kept true
      else if bool_decide (destination ∈ kept) then destinations_loop destinations kept true
      else destinations_loop destinations ({[destination]} ∪ kept) invalid
  end.

Definition apply_WithReplayDestinations (destinations : list string) (w : redisOptions) : redisOptions :=
  if (zlen destinations =? 0)%Z || (maxReplayDestinations <? zlen destinations)%Z
  then w <| R_replayDestinations := Some (∅ : gset string) |> <| R_replayInvalid := true |>
  else let '(kept, invalid) := destinations_loop destinations ∅ (R_replayInvalid w) in
       w <| R_replayDestinations := Some kept |> <| R_replayInvalid := invalid |>.

Definition apply (option : Option) (w : redisOptions) : redisOptions :=
  match option with
  | WithRecordRetention maxRecords =>
      w <| R_recordMaxLength := maxRecords |> <| R_recordRetentionInvalid := (maxRecords <=? 0)%Z |>
  | WithReplayDestinations destinations => apply_WithReplayDestinations destinations w
  | WithReclaim minIdle interval batchSize =>
      w <| R_reclaimMinIdle := minIdle |> <| R_reclaimInterval := interval |>
        <| R_reclaimBatchSize := batchSize |>
  | WithFailureStream stream => w <| R_failureStream := stream |>
  | WithDeadLetter stream maxAttempts =>
      w <| R_deadLetterStream := stream |> <| R_maxDeliveryAttempts := maxAttempts |>
  | WithCommandTimeout timeout => w <| R_commandTimeout := timeout |>
  | WithManagementStatus metadata => w <| R_management := Some metadata |>
  | WithAddr addr => w <| R_addr := addr |>
  | WithMaxLength m => w <| R_maxLength := m |>
  | WithBlockTime m => w <| R_blockTime := m |>
  | WithDB db => w <| R_db := db |>
  | WithCluster => w <| R_cluster := true |>
  | WithStreamName name => w <| R_streamName := name |>
  | WithGroup name => w <| R_group := name |>
  | WithConsumer name => w <| R_consumer := name |>
  | WithUsername username => w <| R_username := username |>
  | WithPassword passwd => w <| R_password := passwd |>
  | WithConnectionString connectionString => w <| R_connectionString := connectionString |>
  | WithRunFunc fn => w <| R_runFunc := fn |>
  | WithLogger => w
  | WithTLS => w <| R_tls := Some (mkTls VersionTLS12 false) |>
  | WithSkipTLSVerify =>
      w <| R_tls := match R_tls w with
                    | None => Some (mkTls 0 true)
                    | Some tls => Some (mkTls (MinVersion tls) true)
                    end |>
  | WithRequestTimeout timeout => w <| R_requestTimeout := timeout |>
  | WithConnectTimeout timeout => w <| R_connectTimeout := timeout |>
  end.

Definition redis_defaults : redisOptions :=
  mkRedisOptions (fun _ => Ret ErrNil) "" 0 "" "" "" "golang-queue" false "golang-queue" "golang-queue"
    0 (60 * Second) None (6 * Second) (5 * Second) (30 * Second) Second 16 "" "" 5 (5 * Second) None
    None false 0 false.

Definition newRedisOptions (opts : list Option) : redisOptions :=
  let w := fold_left (fun w opt => apply opt w) opts redis_defaults in
  let w := if R_failureStream w == ""
           then w <| R_failureStream := R_streamName w +:+ "-failures" |> else w in
  if R_deadLetterStream w == ""
  then w <| R_deadLetterStream := R_streamName w +:+ "-dead" |> else w.

(** The loop over the destinations finds a conflict in any iteration order. *)
Definition validateDeadLetter (o : redisOptions) : error :=
  let invalid :=
    (R_reclaimMinIdle o <=? 0)%Z || (R_reclaimInterval o <=? 0)%Z
    || (R_reclaimBatchSize o <=? 0)%Z || (MaxBatchSize <? R_reclaimBatchSize o)%Z
    || (R_maxDeliveryAttempts o <? 2)%Z || (R_commandTimeout o <=? 0)%Z
    || blank (R_failureStream o) || blank (R_deadLetterStream o)
    || (R_failureStream o == R_streamName o) || (R_deadLetterStream o == R_streamName o)
    || (R_failureStream o == R_deadLetterStream o) || R_replayInvalid o
    || match R_replayDestinations o with Some d => bool_decide (d = ∅) | None => false end
    || R_recordRetentionInvalid o || (R_recordMaxLength o <? 0)%Z in
  let conflict :=
    match R_replayDestinations o with
    | Some d => bool_decide (R_failureStream o ∈ d) || bool_decide (R_deadLetterStream o ∈ d)
    | None => false
    end in
  if invalid || conflict
  then Wrap "golang-queue: invalid configuration: unsafe Redis Streams dead-letter policy"
         ErrInvalidConfiguration
  else ErrNil.

(** * Specification: what every constructed worker can rely on *)

Definition destinations (o : redisOptions) : gset string := default ∅ (R_replayDestinations o).

Record redis_policy (o : redisOptions) : Prop := {
  rp_reclaim : (0 < R_reclaimMinIdle o /\ 0 < R_reclaimInterval o /\
                0 < R_reclaimBatchSize o <= MaxBatchSize)%Z;
  rp_attempts : (2 <= R_maxDeliveryAttempts o)%Z;
  rp_timeout : (0 < R_commandTimeout o)%Z;
  rp_streams : NoDup [R_streamName o; R_failureStream o; R_deadLetterStream o];
  rp_named : blank (R_failureStream o) = false /\ blank (R_deadLetterStream o) = false;
  rp_retention : (0 <= R_recordMaxLength o)%Z;
  rp_replay : (R_failureStream o ∉ destinations o) /\ (R_deadLetterStream o ∉ destinations o)
}.

Lemma validateDeadLetter_policy o : validateDeadLetter o = ErrNil -> redis_policy o.
Proof.
  unfold validateDeadLetter. case_test; [done|]. intros _.
  apply orb_false_iff in E as [E Ec]. rewrite !orb_false_iff, !String.eqb_neq in E.
  destruct E as ((((((((((((((? & ?) & ?) & ?) & ?) & ?) & ?) & ?) & ?) & ?) & ?) & ?) & ?) & ?) & ?).
  split; try lia; try done.
  - rewrite !NoDup_cons, !not_elem_of_cons. naive_solver (apply NoDup_nil_2 || set_solver).
  - unfold destinations. destruct (R_replayDestinations o); simpl; [|set_solver].
    apply orb_false_iff in Ec as [?%bool_decide_eq_false ?%bool_decide_eq_false]. done.
Qed.

(** The default streams are distinct and named. *)
Lemma redis_defaults_valid : validateDeadLetter (newRedisOptions []) = ErrNil.
Proof. reflexivity. Qed.
