(* ===== verification/Redis.v ===== *)
(** The sequential part of the Redis Streams worker (adapters/redisstream/redis.go and
    adapters/redisstream/status.go) over an abstract client: construction, submission,
    decoding of a delivery, settlement, statistics and status. *)

From S2P Require Import Prelude GoStd Sentinels Contract Control Failure Job Status Protocol Codec Records Stream.
From S2P Require Import Valkey RedisOptions.

(** * The client library: its values and its commands *)

(** A value of type [any]: what the library decodes a field to, and what it encodes as
    a field. *)
Inductive any := AString (s : string) | ABytes (s : string) | AInt (z : Z) | AOther.

#[export] Instance any_eq_dec : EqDecision any.
Proof. solve_decision. Defined.

Record XMessage := mkXMessage { X_ID : string; Values : gmap string any }.

(** The fields of the library's records that the worker reads. *)
Record XPendingExt := mkXPendingExt { PX_ID : string; RetryCount : Z }.
Record XInfoGroup := mkXInfoGroup {
  XG_Name : string; XG_Pending : Z; LastDeliveredID : string; XG_Lag : Z
}.

(** The commands of [redis.Cmdable] that the worker sends, by the type of their result. *)
Inductive request : Type -> Type :=
| Ping : request unit
| Info (section : string) : request string
| EvalEnqueue (key : string) (capacity : Z) (body : string) : request string
| EvalAcknowledge (key group id : string) : request string
| XGroupCreateMkStream (stream group start : string) : request unit
| XReadGroup (group consumer stream id : string) (count block : Z)
    : request (list (string * list XMessage))
| XAutoClaim (stream group consumer : string) (minIdle : Z) (start : string) (count : Z)
    : request (list XMessage * string)
| XPending (stream group start stop : string) (count : Z) : request (list XPendingExt)
| XRangeN (stream start stop : string) (count : Z) : request (list XMessage)
| XRevRangeN (stream stop start : string) (count : Z) : request (list XMessage)
| XAdd (stream : string) (maxLen : Z) (values : gmap string any) : request string
| XDel (stream id : string) : request Z
| Del (key : string) : request Z
| XLen (stream : string) : request Z
| XInfoGroups (stream : string) : request (list XInfoGroup)
| HGet (key field : string) : request string
| HSetNX (key field value : string) : request bool
| HSet (key field value : string) : request Z
| HLen (key : string) : request Z.

(** Sends a command and waits for its result. *)
Class redisClient (W : Type) := Result : forall A, request A -> io W (error + A).
Arguments Result {W _ A} _ _.

(** [redis.Nil], the answer of a command that found nothing. *)
Definition redis_Nil : string := "redis: nil".

(** [m] with its error handled by [fail], its value by [k]. *)
Definition ok_or {W A B} (m : io W (error + A)) (fail : error -> B) (k : A -> io W B) : io W B :=
  r ← m; match r with inl err => mret (fail err) | inr a => k a end.

(** * Fields of a message *)

Definition redisRecordString (value : option any) : option string :=
  match value with
  | Some (AString typed) | Some (ABytes typed) => Some typed
  | _ => None
  end.

Record redisReplayLineage := mkLineage { original : string; prior : string; generation : Z }.

Definition no_lineage : redisReplayLineage := mkLineage "" "" 0.

Definition redisLineageFromValues (values : gmap string any) : error + redisReplayLineage :=
  match redisRecordString (values !! "replay_original_dead_letter_id"),
        redisRecordString (values !! "replay_prior_dead_letter_id"),
        redisRecordString (values !! "replay_generation") with
  | None, None, None => inr no_lineage
  | Some original, Some prior, Some generationText =>
      if blank original || blank prior then inl (Leaf "malformed replay lineage")
      else if negb (Z.max (len original) MaxIdentityBytes =? MaxIdentityBytes)%Z ||
              negb (Z.max (len prior) MaxIdentityBytes =? MaxIdentityBytes)%Z
      then inl (Leaf "malformed replay lineage")
      else
        match ParseUintBits generationText 32 with
        | None => inl (Leaf "malformed replay generation")
        | Some generation =>
            if (generation =? 0)%Z then inl (Leaf "malformed replay generation")
            else inr (mkLineage original prior generation)
        end
  | _, _, _ => inl (Leaf "malformed replay lineage")
  end.

(** * Failure policy *)

Definition redisFailureMetadata (err : error) (fallbackCode : string) : FailureMetadata :=
  let resolution := ResolveFailure err in
  mkFailureMetadata (Classification resolution)
    (if Code resolution != "" then Code resolution else fallbackCode).

Definition redisTerminalFailure (handlerErr : error) (attempts maximumAttempts : Z) : bool :=
  let classification := ClassifyFailure handlerErr in
  if (classification == ClassificationPermanent) || (classification == ClassificationMalformed)
  then true
  else if classification == ClassificationRetryable then (maximumAttempts <=? attempts)%Z
  else false.

(** The failure code of a terminal failure. *)
Definition exhausted (attempts maximumAttempts : Z) (failure : FailureMetadata) : FailureMetadata :=
  if (maximumAttempts <=? attempts)%Z && (F_Code failure == "handler_failed")
  then mkFailureMetadata (F_Classification failure) "attempts_exhausted" else failure.

Definition BackendName : string := "redis-streams".

Section worker.
Context {W : Type} `{!redisClient W} (opts : redisOptions).
(** The iteration order of metadata maps and the JSON decoder, as in [Job.DecodeE]. *)
Context (order : list (string * string) -> list (string * string)).
Context (unmarshal : string -> error + Message).

(** * Records and acknowledgement *)

Definition record_values (originalID body : string) (attempts : Z) (failure : FailureMetadata)
    (lineage : redisReplayLineage) : gmap string any :=
  let values : gmap string any :=
    {["body" := ABytes body; "original_id" := AString originalID;
      "delivery_attempts" := AInt attempts; "envelope_version" := AInt CurrentEnvelopeVersion;
      "classification" := AString (F_Classification failure);
      "failure_code" := AString (F_Code failure);
      "source_stream" := AString (R_streamName opts); "consumer_group" := AString (R_group opts)]} in
  if (0 <? generation lineage)%Z
  then <["replay_generation" := AString (FormatInt (generation lineage))]>
         (<["replay_prior_dead_letter_id" := AString (prior lineage)]>
            (<["replay_original_dead_letter_id" := AString (original lineage)]> values))
  else values.

Definition appendRecordWithLineage (stream originalID body : string) (attempts : Z)
    (failure : FailureMetadata) (lineage : redisReplayLineage) : io W error :=
  ok_or (Result (XAdd stream (R_recordMaxLength opts)
                   (record_values originalID body attempts failure lineage)))
    (fun err => err) (fun _ => mret ErrNil).

Definition appendRecord (stream originalID body : string) (attempts : Z)
    (failure : FailureMetadata) : io W error :=
  appendRecordWithLineage stream originalID body attempts failure no_lineage.

Definition lease_lost (cause : error) : error :=
  NewFailure ClassificationInfrastructure FailureCodeLeaseLost cause.

Definition acknowledgeRecord (id : string) : io W error :=
  ok_or (Result (EvalAcknowledge (R_streamName opts) (R_group opts) id))
    (fun err => lease_lost (Wrap "settle Redis stream dead letter source" err))
    (fun outcome =>
       mret (if outcome == "lease_lost"
             then lease_lost (Leaf "redis stream delivery is no longer pending")
             else if (outcome != "deleted") && (outcome != "retained")
             then lease_lost (Leaf "redis stream acknowledgement result is unknown")
             else ErrNil)).

Definition pendingAttempts (id : string) : io W (error + Z) :=
  ok_or (Result (XPending (R_streamName opts) (R_group opts) id id 1)) inl
    (fun pending =>
       mret match pending with
            | [p] => if (PX_ID p != id) || (RetryCount p <? 1)%Z
                     then inl (Leaf "redis stream pending delivery is unavailable")
                     else inr (RetryCount p)
            | _ => inl (Leaf "redis stream pending delivery is unavailable")
            end).

(** * Settlement *)

(** Appends a terminal record and acknowledges its source. *)
Definition dead_letter (message : XMessage) (body : string) (attempts : Z)
    (failure : FailureMetadata) (lineage : redisReplayLineage) : io W error :=
  err ← appendRecordWithLineage (R_deadLetterStream opts) (X_ID message) body attempts failure lineage;
  if negb (is_nil err)
  then mret (NewFailure ClassificationInfrastructure FailureCodeDeadLetterDestinationUnavailable err)
  else acknowledgeRecord (X_ID message).

Definition deadLetterMalformed (message : XMessage) (body failureCode : string) : io W error :=
  ok_or (pendingAttempts (X_ID message)) (Wrap "inspect Redis stream delivery attempts") (fun attempts =>
    match redisLineageFromValues (Values message) with
    | inl err => mret (Wrap "inspect Redis stream replay lineage" err)
    | inr lineage =>
        dead_letter message body attempts
          (mkFailureMetadata ClassificationMalformed failureCode) lineage
    end).

(** The failure record is in: the rest of [settleHandlerFailure]. *)
Definition settle_recorded (message : XMessage) (body : string) (handlerErr : error) (attempts : Z)
    (failure : FailureMetadata) (lineage : redisReplayLineage) : io W error :=
  if negb (redisTerminalFailure handlerErr attempts (R_maxDeliveryAttempts opts)) then mret ErrNil
  else dead_letter message body attempts (exhausted attempts (R_maxDeliveryAttempts opts) failure) lineage.

Definition settleHandlerFailure (message : XMessage) (body : string) (handlerErr : error) : io W error :=
  ok_or (pendingAttempts (X_ID message)) (Wrap "inspect Redis stream delivery attempts") (fun attempts =>
    let failure := redisFailureMetadata handlerErr "handler_failed" in
    match redisLineageFromValues (Values message) with
    | inl err => mret (Wrap "inspect Redis stream replay lineage" err)
    | inr lineage =>
        err ← appendRecordWithLineage (R_failureStream opts) (X_ID message) body attempts failure lineage;
        if negb (is_nil err) then mret (Wrap "append Redis stream failure" err)
        else settle_recorded message body handlerErr attempts failure lineage
    end).

(** The settlement callbacks of one delivery share a [sync.Once] and its result. *)
Record settlement := mkSettlement {
  s_message : XMessage;
  s_body : string;
  s_once : option error
}.

Definition settle (action : io W error) (s : settlement) : io W (error * settlement) :=
  match s_once s with
  | Some settlementErr => mret (settlementErr, s)
  | None => err ← action; mret (err, mkSettlement (s_message s) (s_body s) (Some err))
  end.

Definition settle_ack (s : settlement) : io W (error * settlement) :=
  settle (acknowledgeRecord (X_ID (s_message s))) s.
Definition settle_fail (handlerErr : error) (s : settlement) : io W (error * settlement) :=
  settle (settleHandlerFailure (s_message s) (s_body s) handlerErr) s.

(** [Request] once a message has arrived. *)
Definition Request_received (task : XMessage) : io W (error + (Message * settlement)) :=
  match Values task !! "body" with
  | Some (AString body) =>
      match DecodeE order unmarshal body DefaultMaxMessageBytes with
      | inl err =>
          let tooLarge := Is err "message exceeds byte limit" in
          deadLetterErr ← deadLetterMalformed task (if tooLarge then "" else body)
                            (if tooLarge then "message_too_large" else "malformed_delivery");
          let decodeErr := Wrap "decode Redis stream message" err in
          mret (inl (if negb (is_nil deadLetterErr) then errors_Join [decodeErr; deadLetterErr]
                     else decodeErr))
      | inr data => mret (inr (data, mkSettlement task body None))
      end
  | _ =>
      deadLetterErr ← deadLetterMalformed task "" "malformed_delivery";
      let decodeErr := Leaf "redis stream message body must be a string" in
      mret (inl (if negb (is_nil deadLetterErr) then errors_Join [decodeErr; deadLetterErr]
                 else decodeErr))
  end.

(** * Submission *)

Definition queue (body : string) : io W error :=
  ok_or (Result (EvalEnqueue (R_streamName opts) (R_maxLength opts) body)) (fun err => err)
    (fun outcome => mret (if outcome == "capacity" then ErrMaxCapacity else ErrNil)).

(** [Queue]; [stopFlag] is what the atomic load returns, [bytes] is [task.Bytes()]. *)
Definition Queue (stopFlag : bool) (bytes : string) : io W error :=
  if stopFlag then mret ErrQueueShutdown else queue bytes.

(** * Statistics *)

Record Stats := mkRedisStats {
  Depth : Z; Pending : Z; Lag : Z; LagKnown : bool; OldestJobAge : Z
}.

Definition streamMessageAge (id : string) (now : Time) : error + Z :=
  match MessageAge id now with
  | inl err => inl (Wrap "invalid Redis stream message ID" err)
  | inr age => inr age
  end.

(** The loop over the oldest identifiers. *)
Fixpoint oldest_age (ids : list string) (now : Time) (oldest : Z) : error + Z :=
  match ids with
  | [] => inr oldest
  | id :: ids =>
      match streamMessageAge id now with
      | inl err => inl err
      | inr age => oldest_age ids now (Z.max oldest age)
      end
  end.

(** The oldest delivered entry of the group, when it has one. *)
Definition oldest_pending (group : XInfoGroup) : io W (error + list string) :=
  if (0 <? XG_Pending group)%Z then
    ok_or (Result (XPending (R_streamName opts) (R_group opts) "-" "+" 1))
      (fun err => inl (Wrap "read Redis pending jobs" err))
      (fun pending => mret (inr (PX_ID <$> take 1 pending)))
  else mret (inr []).

(** The oldest entry the group has not been given, when it has one. *)
Definition oldest_queued (group : XInfoGroup) : io W (error + list string) :=
  if (0 <? XG_Lag group)%Z then
    ok_or (Result (XRangeN (R_streamName opts) ("(" +:+ LastDeliveredID group) "+" 1))
      (fun err => inl (Wrap "read Redis queued jobs" err))
      (fun messages => mret (inr (X_ID <$> take 1 messages)))
  else mret (inr []).

(** [now] is the clock after the reads. *)
Definition Worker_Stats (now : Time) : io W (error + Stats) :=
  ok_or (Result (XInfoGroups (R_streamName opts))) (fun err => inl (Wrap "read Redis stream groups" err))
    (fun groups =>
       match List.find (fun g => XG_Name g == R_group opts) groups with
       | None => mret (inl (Leaf "redis stream group does not exist"))
       | Some group =>
           let shared := GroupState_Stats (mkGroupState (XG_Pending group) (XG_Lag group) "") in
           let stats := mkRedisStats (ST_Depth shared) (ST_Pending shared) (ST_Lag shared)
                          (Stream.LagKnown shared) in
           if (XG_Pending group =? 0)%Z && (XG_Lag group =? 0)%Z then mret (inr (stats 0%Z))
           else
             ok_or (oldest_pending group) inl (fun pending =>
               ok_or (oldest_queued group) inl (fun queued =>
                 mret match oldest_age (pending ++ queued) now 0 with
                      | inl err => inl err
                      | inr age => inr (stats age)
                      end))
       end).

(** * Status *)

Definition ErrManagementStatusDisabled : error := Sentinel "redisstream: management status disabled".
Definition ErrInvalidManagementStatus : error := Sentinel "redisstream: invalid management status".

Definition statusNow (now : Time) : Time := UTC now.

(** [stopFlag] and [currentJobs] are what the atomic loads return. *)
Definition ObserveWorker (ctx_err : error) (now startedAt : Time) (stopFlag : bool) (currentJobs : Z)
    : error + WorkerStatus :=
  match R_management opts with
  | None => inl ErrManagementStatusDisabled
  | Some metadata =>
      if IsZero startedAt then inl ErrManagementStatusDisabled
      else if negb (is_nil ctx_err) then inl ctx_err
      else
        let now := statusNow now in
        if Before now startedAt then inl ErrInvalidManagementStatus
        else
          let capabilities :=
            [CapabilityWorkerStatus; CapabilityQueueStatus; CapabilityFailures;
             CapabilityDeadLetters; CapabilityRetry; CapabilityBulkRetry; CapabilityDelete;
             CapabilityPurge] ++
            (if bool_decide (destinations opts = ∅) then [] else [CapabilityReplay]) ++
            (if (0 <? R_recordMaxLength opts)%Z then [CapabilityRetentionCount] else []) in
          inr (mkWorkerStatus (M_ID metadata) (M_Version metadata) startedAt now
                 [R_streamName opts] (M_Concurrency metadata)
                 (if stopFlag then WorkerStopped else WorkerRunning) currentJobs
                 DrainNotRequested BackendName (M_Protocol metadata) capabilities)
  end.

Definition measured {T} (v : T) : Measurement T := mkMeasurement v true.
Definition unmeasured : Measurement Z := mkMeasurement 0%Z false.

(** The clock is read once more for the observation. *)
Definition ObserveQueue (groupLagSupported : bool) (ctx_err : error) (now observed : Time)
    : io W (error + QueueStatus) :=
  if bool_decide (R_management opts = None) then mret (inl ErrManagementStatusDisabled)
  else if negb (is_nil ctx_err) then mret (inl ctx_err)
  else
    ok_or (Worker_Stats now) inl (fun stats =>
      let lag := groupLagSupported && LagKnown stats in
      mret (inr (mkQueueStatus BackendName (R_streamName opts) (statusNow observed)
        (mkMetrics (if lag then measured (Depth stats) else unmeasured)
           (if lag then measured (Lag stats) else unmeasured)
           (measured (Pending stats)) (measured (OldestJobAge stats))
           (mkMeasurement zero64 false) unmeasured unmeasured unmeasured unmeasured unmeasured
           unmeasured unmeasured)))).
End worker.

(** * Construction *)

(** [strings.Split] and [strings.Cut] with a separator of one byte. *)
Fixpoint Split (sep : ascii) (s : string) : list string :=
  match s with
  | "" => [""]
  | String c s =>
      if Ascii.eqb c sep then "" :: Split sep s
      else match Split sep s with
           | part :: parts => String c part :: parts
           | [] => [String c ""]
           end
  end.

Fixpoint Cut_byte (sep : ascii) (s : string) : option (string * string) :=
  match s with
  | "" => None
  | String c s =>
      if Ascii.eqb c sep then Some ("", s)
      else '(before, after) ← Cut_byte sep s; Some (String c before, after)
  end.

(** [strings.TrimPrefix]. *)
Definition TrimPrefix (s prefix : string) : string :=
  if String.prefix prefix s
  then String.substring (String.length prefix) (String.length s - String.length prefix) s else s.

Definition version_prefix : string := "redis_version:".

(** The loop over the lines of the server's information. *)
Fixpoint group_lag_lines (lines : list string) : bool :=
  match lines with
  | [] => false
  | line :: lines =>
      let line := TrimSpace line in
      if negb (String.prefix version_prefix line) then group_lag_lines lines
      else
        match Cut_byte "." (TrimSpace (TrimPrefix line version_prefix)) with
        | None => false
        | Some (major, _) =>
            match ParseUintBits major 16 with Some value => (7 <=? value)%Z | None => false end
        end
  end.

Definition redisGroupLagSupported (info : string) : bool :=
  group_lag_lines (Split (ascii_of_N 10) info).

Definition redisGroupLagCapability (info : error + string) : bool :=
  match info with inr info => redisGroupLagSupported info | inl _ => false end.

(** [redis.Options] and [redis.ClusterOptions], as far as they are set. *)
Record clientOptions := mkClientOptions {
  C_Addr : string; C_Username : string; C_Password : string; C_DB : Z; C_TLS : option tlsConfig;
  DialTimeout : Z; DialerRetries : Z; MaxRetries : Z; ContextTimeoutEnabled : bool
}.

Record clusterOptions := mkClusterOptions {
  Addrs : list string; U_Username : string; U_Password : string; U_TLS : option tlsConfig;
  U_DialTimeout : Z; U_DialerRetries : Z; MaxRedirects : Z; U_ContextTimeoutEnabled : bool
}.

Definition configureRedisOptions (options : clientOptions) (timeout : Z) : clientOptions :=
  options <| DialTimeout := timeout |> <| DialerRetries := (-1)%Z |> <| MaxRetries := (-1)%Z |>
    <| ContextTimeoutEnabled := true |>.

Definition redisClusterOptions (opts : redisOptions) : clusterOptions :=
  mkClusterOptions (Split "," (R_addr opts)) (R_username opts) (R_password opts) (R_tls opts)
    (R_connectTimeout opts) (-1) (-1) true.

(** What construction fixes of a worker; what changes later is in [RedisWorker]. *)
Record Worker := mkRedisWorker {
  RW_opts : redisOptions; RW_startedAt : Time; groupLagSupported : bool
}.

Section construction.
Context {W : Type} `{!redisClient W}.
(** The library: parsing of a connection string, the two clients, and [Close]. *)
Context (ParseURL : string -> error + clientOptions).
Context (NewClient : clientOptions -> W) (NewClusterClient : clusterOptions -> W).
Context (closeRedisClient : W -> W).

(** The client the options ask for; [None] is a nil client. *)
Definition make_client (opts : redisOptions) : error + option W :=
  if R_connectionString opts != "" then
    match ParseURL (R_connectionString opts) with
    | inl err => inl (safe_Wrap "parse Redis connection string" err)
    | inr options => inr (Some (NewClient (configureRedisOptions options (R_connectTimeout opts))))
    end
  else if R_addr opts != "" then
    if R_cluster opts then inr (Some (NewClusterClient (redisClusterOptions opts)))
    else
      let options := mkClientOptions (R_addr opts) (R_username opts) (R_password opts) (R_db opts)
                       (R_tls opts) 0 0 0 false in
      inr (Some (NewClient (configureRedisOptions options (R_connectTimeout opts))))
  else inr None.

(** The worker, and the client if one was made. *)
Definition NewWorkerE (args : list Option) (now : Time) : (error + Worker) * option W :=
  let opts := newRedisOptions args in
  let err := validateDeadLetter opts in
  if negb (is_nil err) then (inl err, None)
  else if match R_management opts with
          | Some metadata => negb (is_nil (StatusMetadata_Validate metadata))
          | None => false
          end
  then (inl ErrInvalidManagementStatus, None)
  else
    match make_client opts with
    | inl err => (inl err, None)
    | inr None => (inl (Leaf "redis address or connection string is required"), None)
    | inr (Some w) =>
        let '(r, w) := Result Ping w in
        match r with
        | inl err => (inl (Wrap "connect to Redis" err), Some (closeRedisClient w))
        | inr _ =>
            match R_management opts with
            | None => (inr (mkRedisWorker opts (UTC now) false), Some w)
            | Some _ =>
                let '(info, w) := Result (Info "server") w in
                (inr (mkRedisWorker opts (UTC now) (redisGroupLagCapability info)), Some w)
            end
        end
    end.

(** [NewWorker] panics on every error of [NewWorkerE]. *)
Definition NewWorker (args : list Option) (now : Time) : go Worker * option W :=
  let '(r, w) := NewWorkerE args now in
  (match r with inl _ => Panic "NewWorker" | inr worker => Ret worker end, w).

(** A worker that is handed out has a safe policy, valid management metadata and a
    client that answered; a client that did not answer is closed. *)
Theorem constructed args now r w :
  NewWorkerE args now = (r, w) ->
  match r with
  | inr worker =>
      RW_opts worker = newRedisOptions args /\ redis_policy (RW_opts worker) /\
      (forall metadata, R_management (RW_opts worker) = Some metadata ->
         StatusMetadata_Validate metadata = ErrNil) /\
      exists w0 w1, make_client (RW_opts worker) = inr (Some w0) /\ Result Ping w0 = (inr tt, w1)
  | inl _ =>
      w = None \/
      exists w0 w1 err, make_client (newRedisOptions args) = inr (Some w0) /\
        Result Ping w0 = (inl err, w1) /\ w = Some (closeRedisClient w1)
  end.
Proof.
  unfold NewWorkerE. set (opts := newRedisOptions args). cbv zeta.
  destruct (negb (is_nil (validateDeadLetter opts))) eqn:Ev; [intros [= <- <-]; by left|].
  apply is_nil_nil, validateDeadLetter_policy in Ev.
  destruct (match R_management opts with Some _ => _ | None => _ end) eqn:Em;
    [intros [= <- <-]; by left|].
  assert (forall metadata, R_management opts = Some metadata -> StatusMetadata_Validate metadata = ErrNil)
    as Hm by (intros metadata E; rewrite E in Em; by apply is_nil_nil).
  clear Em. destruct (make_client opts) as [err|[w0|]] eqn:Ec; try (intros [= <- <-]; by left).
  destruct (Result Ping w0) as [[err|[]] w1] eqn:Ep.
  { intros [= <- <-]. right. by exists w0, w1, err. }
  destruct (R_management opts) eqn:E; [destruct (Result (Info "server") w1)|];
    intros [= <- _]; cbn [RW_opts]; (split_and!; [done|done|by rewrite E|by exists w0, w1]).
Qed.
End construction.
