(* ===== verification/RedisSafety.v ===== *)
(** The Redis Streams worker against a server: what settlement, submission and the
    handling of malformed deliveries leave in the streams when any command can be
    refused, applied, or applied without its answer arriving. *)

From S2P Require Import Prelude GoStd Sentinels Contract Control Failure Job Status Codec Records Stream.
From S2P Require Import Server Scripts ScriptSafety Valkey ValkeySafety RedisOptions Redis.

(** * The server's side of the commands *)

(** Commands of the Redis worker beyond those of the scripts, and their documented
    behaviour: a pending summary of one identifier with its delivery count, the size of
    a hash, the conditional store and the removal of a key. *)
Class RedisServer (St : Type) `{!Server St} := {
  XPENDING_EXT : St -> string -> string -> string -> option (list (string * Z));
  HLEN : St -> string -> option Z;
  HSETNX : St -> string -> string -> string -> option (bool * St);
  DEL : St -> string -> option (Z * St)
}.

Class RedisServerLaws (St : Type) `{!Server St, !RedisServer St} : Prop := {
  XPENDING_EXT_law (s : St) k g id l :
    XPENDING_EXT s k g id = Some l -> full_id id ->
    if decide (id ∈ pending_of s k g) then exists n, l = [(id, n)] else l = [];
  XRANGE_within (s : St) k id l : XRANGE s k id = Some l -> l ⊆ entries_of s k;
  HLEN_law (s : St) k n : HLEN s k = Some n -> n = Z.of_nat (size (hash_of s k));
  HSETNX_law (s s' : St) k f v b :
    HSETNX s k f v = Some (b, s') ->
    if b then hash_of s k !! f = None /\ hash_of s' k = <[f := v]> (hash_of s k) /\ only_key s s' k
    else is_Some (hash_of s k !! f) /\ same_state s s';
  DEL_law (s s' : St) k n : DEL s k = Some (n, s') -> entries_of s' k = [] /\ only_key s s' k
}.

(** The text a field value is sent as. *)
Definition arg_text (v : any) : string :=
  match v with AString s | ABytes s => s | AInt z => FormatInt z | AOther => "" end.

(** The fields of an entry that was sent as a Go map: in any order. *)
Definition sent_as (values : gmap string any) (fields : list (string * string)) : Prop :=
  fields ≡ₚ map_to_list (arg_text <$> values).

(** An entry as the client decodes it. *)
Definition message_of (e : entry) : XMessage :=
  mkXMessage (e_id e) (AString <$> fields_map (e_fields e)).

Definition pending_reply (l : option (list (string * Z))) : option (list XPendingExt) :=
  fmap (M := list) (fun p => mkXPendingExt p.1 p.2) <$> l.
Definition range_reply (count : Z) (l : option (list entry)) : option (list XMessage) :=
  (fun l => message_of <$> take (Z.to_nat count) l) <$> l.

(** An answer that is an error of the connection or of the server: not the one of a
    command that found nothing, and none of the queue's own. *)
Definition refused {A} (r : error + A) : Prop :=
  exists err, r = inl err /\ err <> ErrNil /\ Is err redis_Nil = false /\ err <> ErrMaxCapacity.

(** The answer of a script or command that ran, or raised. *)
Definition answers {A} (o : option A) (r : error + A) : Prop :=
  match o with Some a => r = inr a | None => refused r end.

Section execution.
Context {St num : Type} `{!Server St, !RedisServer St, !LuaNumber num}.
Implicit Types s : St.

Definition ran {A} (m : lua St A) s (r : error + A) s' : Prop :=
  answers (m s).1 r /\ s' = (m s).2.

(** What a command does at the server. Nothing is said here of the commands of intake
    and of the connection itself, nor of what a listing over a range answers. *)
Definition executes {A} (c : request A) s : (error + A) -> St -> Prop :=
  match c in request A return (error + A) -> St -> Prop with
  | EvalEnqueue key capacity body =>
      ran (redisEnqueueScript (num := num) key (FormatInt capacity) body) s
  | EvalAcknowledge key group id => ran (acknowledgeScript key group id) s
  | XAdd stream maxLen values => fun r s' =>
      exists fields, sent_as values fields /\
        ran (call (fun s => if (0 <? maxLen)%Z then XADD_MAXLEN s stream (FormatInt maxLen) fields
                            else XADD s stream fields)) s r s'
  | XDel stream id => ran (call (fun s => XDEL s stream id)) s
  | Del key => ran (call (fun s => DEL s key)) s
  | XLen stream => ran (query (fun s => XLEN s stream)) s
  | XPending stream group start stop count => fun r s' =>
      s' = s /\ (start = stop -> (0 < count)%Z -> answers (pending_reply (XPENDING_EXT s stream group start)) r)
  | XRangeN stream start stop count => fun r s' =>
      s' = s /\ (start = stop -> (0 < count)%Z -> answers (range_reply count (XRANGE s stream start)) r)
  | XRevRangeN _ _ _ _ => fun _ s' => s' = s
  | HGet key field => fun r s' =>
      s' = s /\ match HGET s key field with
                | Some (Some v) => r = inr v
                | Some None => exists err, r = inl err /\ Is err redis_Nil = true
                | None => refused r
                end
  | HSetNX key field value => ran (call (fun s => HSETNX s key field value)) s
  | HSet key field value => fun r s' =>
      match HSET s key field value with
      | Some s1 => s' = s1 /\ exists n, r = inr n
      | None => s' = s /\ refused r
      end
  | HLen key => ran (query (fun s => HLEN s key)) s
  | _ => fun _ _ => True
  end.

(** The client runs a command once at the server and hands over its answer, or fails:
    before the command ran or after it. A failure of the connection is never the answer
    of a command that found nothing. *)
Class RedisConnection (W : Type) `{!redisClient W} := {
  server_of : W -> St;
  Result_law {A} (c : request A) w r w' :
    Result c w = (r, w') ->
    (refused r /\ server_of w' = server_of w) \/
    exists r0, executes c (server_of w) r0 (server_of w') /\ (r = r0 \/ refused r)
}.
End execution.
Arguments RedisConnection St num {_ _ _} W {_}.

(** * A client of the reference server whose network loses requests and answers *)
Module LossyRedis.
Import Reference.

#[global] Instance redis_server : RedisServer state := {|
  XPENDING_EXT s k g id :=
    Some (if decide (complete id ∈ pending_at s k g) then [(complete id, 1%Z)] else []);
  HLEN s k := Some (Z.of_nat (size (hash_at s k)));
  HSETNX s k f v :=
    Some (if decide (hash_at s k !! f = None) then (true, with_hash s k (<[f := v]> (hash_at s k)))
          else (false, s));
  DEL s k := Some (1%Z, with_stream s k [])
|}.

#[global] Instance redis_server_laws : RedisServerLaws state.
Proof.
  split; simpl.
  - intros s k g id l [= <-] Hid. rewrite complete_full by done. case_decide; eauto.
  - intros s k id l [= <-] e. rewrite !list_elem_of_In, filter_In. tauto.
  - congruence.
  - intros s s' k f v b. destruct (decide (hash_at s k !! f = None)) as [H|H]; intros [= <- <-].
    + rewrite hash_with. split_and!; [done..|apply only_hash].
    + split; [by apply not_eq_None_Some|reflexivity].
  - intros s s' k n [= <- <-]. rewrite entries_with. split; [done|apply only_stream].
Qed.

Definition of_option {A} (o : option A) : error + A :=
  match o with Some a => inr a | None => inl (Leaf "raised") end.

(** A command at the reference server. *)
Definition run {A} (c : request A) (s : state) : (error + A) * state :=
  match c in request A return (error + A) * state with
  | EvalEnqueue key capacity body =>
      let '(o, s') := redisEnqueueScript (num := Z) key (FormatInt capacity) body s in (of_option o, s')
  | EvalAcknowledge key group id =>
      let '(o, s') := acknowledgeScript key group id s in (of_option o, s')
  | XAdd stream maxLen values =>
      let fields := map_to_list (arg_text <$> values) in
      let '(o, s') := call (fun s => if (0 <? maxLen)%Z
                                     then XADD_MAXLEN s stream (FormatInt maxLen) fields
                                     else XADD s stream fields) s in (of_option o, s')
  | XDel stream id => let '(o, s') := call (fun s => XDEL s stream id) s in (of_option o, s')
  | Del key => let '(o, s') := call (fun s => DEL s key) s in (of_option o, s')
  | XLen stream => (of_option (XLEN s stream), s)
  | XPending stream group start _ _ => (of_option (pending_reply (XPENDING_EXT s stream group start)), s)
  | XRangeN stream start _ count => (of_option (range_reply count (XRANGE s stream start)), s)
  | HGet key field =>
      (match hash_at s key !! field with Some v => inr v | None => inl (Sentinel redis_Nil) end, s)
  | HSetNX key field value => let '(o, s') := call (fun s => HSETNX s key field value) s in (of_option o, s')
  | HSet key field value => (inr 1%Z, with_hash s key (<[field := value]> (hash_at s key)))
  | HLen key => (of_option (HLEN s key), s)
  | _ => (inl (Leaf "unsupported"), s)
  end.

#[global] Instance client : redisClient Lossy.world := fun A c w =>
  let '(r, s') := run c (Lossy.w_server w) in
  match Lossy.w_faults w with
  | [] => (r, Lossy.mkWorld s' [])
  | Lossy.Delivered :: faults => (r, Lossy.mkWorld s' faults)
  | Lossy.Unsent text :: faults => (inl (Leaf text), Lossy.mkWorld (Lossy.w_server w) faults)
  | Lossy.Unanswered text :: faults => (inl (Leaf text), Lossy.mkWorld s' faults)
  end.

Lemma refused_leaf {A} text : refused (A := A) (inl (Leaf text)).
Proof. by eexists. Qed.

Lemma answers_of_option {A} (o : option A) : answers o (of_option o).
Proof. destruct o; [done|apply refused_leaf]. Qed.

Lemma ran_of {A} (m : lua state A) s : ran m s (of_option (m s).1) (m s).2.
Proof. split; [apply answers_of_option|done]. Qed.

Lemma run_executes {A} (c : request A) s : executes (num := Z) c s (run c s).1 (run c s).2.
Proof.
  destruct c; unfold executes, run; try done.
  all: try match goal with |- context [let '(_, _) := ?x in _] =>
         rewrite (surjective_pairing x); cbn [fst snd] end.
  all: try (split; [done|intros _ _; apply answers_of_option]); try match goal with |- ran ?m ?s _ _ => exact (ran_of m s) end.
  - eexists. split; [by unfold sent_as|]. match goal with |- ran ?m ?s _ _ => exact (ran_of m s) end.
  - simpl. split; [done|]. destruct (hash_at s key !! field); [done|]. by eexists.
  - simpl. split; [done|]. by eexists.
Qed.

#[global] Instance connection : RedisConnection state Z Lossy.world.
Proof.
  refine {| server_of := Lossy.w_server |}. intros A c w r w' Hdo.
  unfold Result, client in Hdo. pose proof (run_executes c (Lossy.w_server w)) as Hrun.
  destruct (run c (Lossy.w_server w)) as [r0 s']. simpl in Hrun.
  destruct (Lossy.w_faults w) as [|[] faults]; injection Hdo as <- <-; simpl.
  - right. eauto.
  - right. eauto.
  - left. split; [apply refused_leaf|done].
  - right. exists r0. split; [done|]. right. apply refused_leaf.
Defined.

End LossyRedis.

Section safety.
Context {W St num : Type} `{!redisClient W, !Server St, !RedisServer St, !LuaNumber num}.
Context `{!RedisConnection St num W, !ServerLaws St, !RedisServerLaws St, !LuaLaws num}.
Implicit Types (w : W) (s : St).

(** * Commands *)

(** A command at the server: not run, or run with what it guarantees. *)
Lemma Result_outcome {A} (c : request A) (m : lua St A) Q w r w' :
  (forall r0 s', executes (num := num) c (server_of w) r0 s' -> ran m (server_of w) r0 s') ->
  outcome m Q (server_of w) -> Result c w = (r, w') ->
  (refused r /\ server_of w' = server_of w) \/
  (exists o, Q o (server_of w') /\ (refused r \/ exists a, o = Some a /\ r = inr a)).
Proof.
  intros Hm HQ Hdo. destruct (Result_law _ _ _ _ Hdo) as [?|(r0 & Hr & Hor)]; [by left|right].
  apply Hm in Hr as [Ha Hs]. exists (m (server_of w)).1. split; [rewrite Hs; exact HQ|].
  destruct Hor as [->|?]; [|by left]. destruct ((m (server_of w)).1) as [a|]; [right; eauto|by left].
Qed.

(** A command that only reads. *)
Lemma Result_query {A} (c : request A) (f : St -> option A) w r w' :
  (forall r0 s', executes (num := num) c (server_of w) r0 s' -> ran (query f) (server_of w) r0 s') ->
  Result c w = (r, w') ->
  server_of w' = server_of w /\ (refused r \/ exists a, f (server_of w) = Some a /\ r = inr a).
Proof.
  intros Hm Hdo. destruct (Result_law _ _ _ _ Hdo) as [[? ->]|(r0 & [Ha Hs]%Hm & Hor)]; [by split; [|left]|].
  unfold query in *. simpl in *. split; [done|]. destruct Hor as [->|?]; [|by left].
  destruct (f (server_of w)) as [a|]; [right; eauto|by left].
Qed.

(** One new entry with the given values at the end of its stream, where retention can
    drop the oldest ones. *)
Definition stored s s' (stream : string) (values : gmap string any) : Prop :=
  exists fields, sent_as values fields /\ recorded s s' stream fields.

Lemma stored_only s s' stream values : stored s s' stream values -> only_key s s' stream.
Proof. by intros (fields & _ & H & _). Qed.

Lemma XAdd_stored stream maxLen values w r w' :
  Result (XAdd stream maxLen values) w = (r, w') ->
  (refused r /\ (server_of w' = server_of w \/ stored (server_of w) (server_of w') stream values)) \/
  (exists id, r = inr id /\ stored (server_of w) (server_of w') stream values).
Proof.
  intros Hdo. destruct (Result_law _ _ _ _ Hdo) as [[? ->]|(r0 & (fields & Hf & Ha & Hs) & Hor)];
    [by left; split; [|left]|].
  match type of Ha with answers (?m ?s).1 _ =>
    assert (outcome m (fun o s' => match o with Some _ => recorded s s' stream fields | None => s' = s end) s)
      as Hout
  end.
  { destruct (Z.ltb_spec 0 maxLen).
    - rewrite FormatInt_pretty by lia. apply xadd_recorded. lia.
    - lua_enter; [|done]. intros id s' (_ & Hfresh & _ & He & _ & [_ _ _ Hk])%XADD_law.
      split; [done|]. exists id. split; [done|]. rewrite He. apply elem_of_app. right. by left. }
  unfold outcome in Hout. rewrite <-Hs in Hout.
  destruct (_ (server_of w)).1 as [id|] in Ha, Hout; simpl in Ha.
  - assert (stored (server_of w) (server_of w') stream values) by (by exists fields).
    destruct Hor as [->|?]; [right; eauto|left; eauto].
  - left. split; [by destruct Hor as [->|?]|]. left. exact Hout.
Qed.

Lemma refused_inr {A} (a : A) : ~ refused (inr a).
Proof. by intros (err & [=] & _). Qed.

Section records.
Context (opts : redisOptions).

Lemma append_exact stream originalID body attempts failure lineage w err w' :
  appendRecordWithLineage opts stream originalID body attempts failure lineage w = (err, w') ->
  let st := stored (server_of w) (server_of w') stream
              (record_values opts originalID body attempts failure lineage) in
  (err = ErrNil -> st) /\ (server_of w' = server_of w \/ st).
Proof.
  unfold appendRecordWithLineage, ok_or. intros (r & w1 & Hdo & H)%io_bind_inv.
  apply XAdd_stored in Hdo as [[(e & -> & He & _) Hs]|(id & -> & Hs)]; injection H as <- <-;
    [by split; [intros E; destruct (He E)|]|auto].
Qed.

Abbreviation source := (R_streamName opts).
Abbreviation group := (R_group opts).

(** What the acknowledgement command does, by the error it returns. *)
Lemma acknowledgeRecord_exact id w err w' :
  full_id id -> acknowledgeRecord opts id w = (err, w') ->
  let s := server_of w in let s' := server_of w' in
  s' = s /\ err <> ErrNil \/
  exists o, acknowledgement s source group id o s' /\
    (err = ErrNil -> o = Some "deleted" \/ o = Some "retained").
Proof.
  intros Hid. unfold acknowledgeRecord, ok_or. intros (r & w1 & Hdo & H)%io_bind_inv.
  eapply (Result_outcome (EvalAcknowledge source group id) (acknowledgeScript source group id)) in Hdo;
    [|done|by apply acknowledge_outcome].
  destruct Hdo as [[(e & -> & _) Hs]|(o & Hq & Hr)].
  { injection H as <- <-. by left. }
  right. exists o. destruct Hr as [(e & -> & _)|(x & -> & ->)].
  { injection H as <- <-. done. }
  destruct Hq as [([= ->] & Hq)|[([= ->] & Hq)|[([= ->] & Hq)|([=] & _)]]]; injection H as <- <-;
    (split; [|by auto]).
  - left. auto.
  - right; left. auto.
  - right; right; left. auto.
Qed.

Lemma acknowledgement_released s id o s' :
  acknowledgement s source group id o s' -> o = Some "deleted" \/ o = Some "retained" ->
  id ∉ pending_of s' source group.
Proof.
  intros [(-> & _)|[(_ & _ & _ & _ & (Hp & _) & _)|[(_ & _ & _ & _ & (Hp & _) & _)|(-> & _)]]] Ho;
    try (destruct Ho; discriminate); rewrite Hp; set_solver.
Qed.

Lemma pendingAttempts_exact id w r w' :
  full_id id -> pendingAttempts opts id w = (r, w') ->
  server_of w' = server_of w /\ forall n, r = inr n -> id ∈ pending_of (server_of w) source group.
Proof.
  intros Hid. unfold pendingAttempts, ok_or. intros (r0 & w1 & Hdo & H)%io_bind_inv.
  eapply (Result_query (XPending source group id id 1)
    (fun s => pending_reply (XPENDING_EXT s source group id))) in Hdo; [|by intros r1 s' [-> Hr]; split; [apply Hr|]].
  destruct Hdo as [Hs [(e & -> & _)|(l & Hl & ->)]]; injection H as <- <-; (split; [done|]); [done|].
  intros n. unfold pending_reply in Hl. apply fmap_Some in Hl as (l0 & Hl0 & ->).
  apply XPENDING_EXT_law in Hl0; [|done]. case_decide; [done|]. by subst.
Qed.

(** * Settlement *)

(** A stream has a new entry with the given values between two states. *)
Definition new_entry s s' (stream : string) (values : gmap string any) : Prop :=
  exists id fields, sent_as values fields /\ (id ∉ (e_id <$> entries_of s stream)) /\
    (mkStreamEntry id fields ∈ entries_of s' stream).

Lemma stored_new s s' stream values : stored s s' stream values -> new_entry s s' stream values.
Proof. intros (fields & ? & _ & id & ? & ?). by exists id, fields. Qed.

Lemma new_entry_frame s0 s s' s1 stream values :
  same_key stream s0 s -> same_key stream s' s1 ->
  new_entry s s' stream values -> new_entry s0 s1 stream values.
Proof.
  intros Ha Hb (id & fields & ? & ? & ?). exists id, fields.
  rewrite (sk_entries _ _ _ Hb), <-(sk_entries _ _ _ Ha). done.
Qed.

Hypothesis policy : redis_policy opts.

Lemma streams_apart :
  (source <> R_failureStream opts) /\ (source <> R_deadLetterStream opts) /\
  (R_failureStream opts <> R_deadLetterStream opts).
Proof.
  destruct policy as [_ _ _ H _ _ _]. rewrite !NoDup_cons, !not_elem_of_cons in H. naive_solver.
Qed.

Lemma acknowledgeRecord_frame id w err w' :
  full_id id -> acknowledgeRecord opts id w = (err, w') ->
  only_key (server_of w) (server_of w') source /\
  (err = ErrNil -> id ∉ pending_of (server_of w') source group).
Proof.
  intros Hid H. apply acknowledgeRecord_exact in H as [[-> ?]|(o & Ho & Herr)]; [| |done].
  - split; [intros k _; reflexivity|done].
  - split; [by eapply acknowledgement_only|]. intros E. by eapply acknowledgement_released, Herr.
Qed.

Lemma dead_letter_exact message body attempts failure lineage w err w' :
  full_id (X_ID message) -> dead_letter opts message body attempts failure lineage w = (err, w') ->
  let s := server_of w in let s' := server_of w' in
  let values := record_values opts (X_ID message) body attempts failure lineage in
  (same_key source s s' \/ new_entry s s' (R_deadLetterStream opts) values) /\
  (err = ErrNil -> new_entry s s' (R_deadLetterStream opts) values /\
                   X_ID message ∉ pending_of s' source group) /\
  same_key (R_failureStream opts) s s'.
Proof.
  intros Hid. unfold dead_letter. intros (e1 & w1 & Happ & H)%io_bind_inv.
  destruct streams_apart as (Hsf & Hsd & Hfd). apply append_exact in Happ as [Hok Hst].
  destruct (is_nil e1) eqn:E; simpl in H.
  - assert (e1 = ErrNil) as -> by (by destruct e1). pose proof (Hok eq_refl) as Hnew. clear Hok Hst.
    apply acknowledgeRecord_frame in H as [Hk Hp]; [|done].
    assert (new_entry (server_of w) (server_of w') (R_deadLetterStream opts)
              (record_values opts (X_ID message) body attempts failure lineage)) as Hn.
    { eapply new_entry_frame; [reflexivity|by apply Hk|by apply stored_new]. }
    split; [by right|]. split; [auto|].
    transitivity (server_of w1); [by apply (stored_only _ _ _ _ Hnew)|by apply Hk].
  - injection H as <- <-. destruct Hst as [->|Hst]; split_and!; try done.
    + by left.
    + right. by apply stored_new.
    + by apply (stored_only _ _ _ _ Hst).
Qed.

(** The dead letter of a delivery is stored between two states. *)
Definition buried s s' (message : XMessage) (body : string) : Prop :=
  exists attempts failure lineage,
    new_entry s s' (R_deadLetterStream opts)
      (record_values opts (X_ID message) body attempts failure lineage).

(** A rejection that reports success. *)
Definition rejection s s' (message : XMessage) (body : string) (handlerErr : error) (attempts : Z)
    (failure : FailureMetadata) (lineage : redisReplayLineage) : Prop :=
  new_entry s s' (R_failureStream opts)
    (record_values opts (X_ID message) body attempts failure lineage) /\
  if redisTerminalFailure handlerErr attempts (R_maxDeliveryAttempts opts)
  then new_entry s s' (R_deadLetterStream opts)
         (record_values opts (X_ID message) body attempts
            (exhausted attempts (R_maxDeliveryAttempts opts) failure) lineage) /\
       X_ID message ∉ pending_of s' source group
  else same_key source s s'.

(** What becomes of a rejected delivery. *)
Definition rejected s s' (message : XMessage) (body : string) (handlerErr err : error) : Prop :=
  (same_key source s s' \/ buried s s' message body) /\
  (err = ErrNil ->
   exists attempts lineage, redisLineageFromValues (Values message) = inr lineage /\
     rejection s s' message body handlerErr attempts
       (redisFailureMetadata handlerErr "handler_failed") lineage).

#[local] Opaque redisFailureMetadata redisTerminalFailure.

Lemma settle_failure_exact message body handlerErr w err w' :
  full_id (X_ID message) -> settleHandlerFailure opts message body handlerErr w = (err, w') ->
  rejected (server_of w) (server_of w') message body handlerErr err.
Proof.
  intros Hid. unfold settleHandlerFailure, ok_or. intros (r & w1 & Hp & H)%io_bind_inv.
  apply pendingAttempts_exact in Hp as [Hs1 _]; [|done].
  destruct r as [e|attempts]; [injection H as <- <-; split; [left; by rewrite Hs1|done]|].
  destruct (redisLineageFromValues (Values message)) as [e|lineage] eqn:El;
    [injection H as <- <-; split; [left; by rewrite Hs1|done]|].
  apply io_bind_inv in H as (e2 & w2 & Happ & H). apply append_exact in Happ as [Hok Hst].
  rewrite Hs1 in Hok, Hst. clear Hs1. destruct streams_apart as (Hsf & Hsd & Hfd).
  assert (same_key source (server_of w) (server_of w2) /\
          same_key (R_deadLetterStream opts) (server_of w) (server_of w2)) as [Hks Hkd].
  { destruct Hst as [->|Hst]; [done|]. split; apply (stored_only _ _ _ _ Hst); done. }
  destruct (is_nil e2) eqn:E; simpl in H; [|injection H as <- <-; split; [by left|done]].
  assert (e2 = ErrNil) as -> by (by destruct e2). pose proof (Hok eq_refl) as Hnew. clear Hok Hst.
  unfold settle_recorded in H. case_test.
  - injection H as <- <-. split; [by left|]. intros _. exists attempts, lineage.
    apply negb_true_iff in E0. unfold rejection. rewrite E0. split; [done|]. split; [by apply stored_new|done].
  - apply negb_false_iff in E0. apply dead_letter_exact in H as (Hor & Hnil & Hkf); [|done].
    split.
    + destruct Hor as [Hor|Hor]; [left; by transitivity (server_of w2)|right].
      unfold buried. do 3 eexists. eapply new_entry_frame; [exact Hkd|reflexivity|exact Hor].
    + intros En. destruct (Hnil En) as [Hd Hpend]. exists attempts, lineage. unfold rejection. rewrite E0.
      split; [done|]. split; [|split; [|done]].
      * eapply new_entry_frame; [reflexivity|exact Hkf|by apply stored_new].
      * eapply new_entry_frame; [exact Hkd|reflexivity|exact Hd].
Qed.

Lemma malformed_exact message body code w err w' :
  full_id (X_ID message) -> deadLetterMalformed opts message body code w = (err, w') ->
  let s := server_of w in let s' := server_of w' in
  (same_key source s s' \/ buried s s' message body) /\
  (err = ErrNil -> buried s s' message body /\ X_ID message ∉ pending_of s' source group).
Proof.
  intros Hid. unfold deadLetterMalformed, ok_or. intros (r & w1 & Hp & H)%io_bind_inv.
  apply pendingAttempts_exact in Hp as [Hs1 _]; [|done].
  destruct r as [e|attempts]; [injection H as <- <-; split; [left; by rewrite Hs1|done]|].
  destruct (redisLineageFromValues (Values message)) as [e|lineage];
    [injection H as <- <-; split; [left; by rewrite Hs1|done]|].
  apply dead_letter_exact in H as (Hor & Hnil & _); [|done]. rewrite Hs1 in Hor, Hnil. split.
  - destruct Hor as [?|Hor]; [by left|right]. by exists attempts, (mkFailureMetadata ClassificationMalformed code), lineage.
  - intros E. destruct (Hnil E) as [Hor' ?]. split; [|done].
    by exists attempts, (mkFailureMetadata ClassificationMalformed code), lineage.
Qed.

(** * One delivery, from its arrival to its settlement *)

Context (order : list (string * string) -> list (string * string)).
Context (unmarshal : string -> error + Message).

Inductive verdict := Acknowledge | Reject (handlerErr : error).

Definition settle_with (v : verdict) (st : settlement) : io W (error * settlement) :=
  match v with Acknowledge => settle_ack opts st | Reject e => settle_fail opts e st end.

(** Calls of the settlement callbacks, one after the other. *)
Fixpoint settle_all (vs : list verdict) (st : settlement) : io W (list error * settlement) :=
  match vs with
  | [] => mret ([], st)
  | v :: vs =>
      '(err, st) ← settle_with v st;
      '(errs, st) ← settle_all vs st;
      mret (err :: errs, st)
  end.

Lemma settle_all_repeats vs st e w :
  s_once st = Some e -> settle_all vs st w = ((replicate (length vs) e, st), w).
Proof.
  intros He. induction vs as [|v vs IH]; [done|]. cbn [settle_all]. unfold mbind, io_bind.
  assert (settle_with v st w = ((e, st), w)) as -> by (destruct v; simpl; unfold settle_ack, settle_fail, settle; by rewrite He).
  by rewrite IH.
Qed.

(** The effect of the first settlement call of a delivery. *)
Definition settled_by (v : verdict) s s' (message : XMessage) (body : string) (err : error) : Prop :=
  match v with
  | Acknowledge =>
      only_key s s' source /\ (err = ErrNil -> X_ID message ∉ pending_of s' source group)
  | Reject handlerErr => rejected s s' message body handlerErr err
  end.

Lemma settle_with_exact v message body w err st w' :
  full_id (X_ID message) -> settle_with v (mkSettlement message body None) w = ((err, st), w') ->
  s_once st = Some err /\ settled_by v (server_of w) (server_of w') message body err.
Proof.
  intros Hid H. assert (exists action, (action : io W error) w = (err, w') /\
    action = match v with Acknowledge => acknowledgeRecord opts (X_ID message)
             | Reject e => settleHandlerFailure opts message body e end /\ s_once st = Some err)
    as (action & Ha & -> & Hst).
  { eexists. split; [|split; [done|]]; destruct v; unfold settle_with, settle_ack, settle_fail, settle in H;
      simpl in H; apply io_bind_inv in H as (e & w1 & He & [= <- <- <-]); done. }
  split; [done|]. destruct v; simpl.
  - by apply acknowledgeRecord_frame.
  - by apply settle_failure_exact.
Qed.

Lemma received_exact task w r w0 :
  full_id (X_ID task) -> Request_received opts order unmarshal task w = (r, w0) ->
  match r with
  | inl err => err <> ErrNil /\
      (same_key source (server_of w) (server_of w0) \/
       exists body, buried (server_of w) (server_of w0) task body)
  | inr (data, st) => w0 = w /\
      exists body, Values task !! "body" = Some (AString body) /\
        DecodeE order unmarshal body DefaultMaxMessageBytes = inr data /\ st = mkSettlement task body None
  end.
Proof.
  intros Hid. unfold Request_received.
  assert (forall body code decodeErr (w1 : W), decodeErr <> ErrNil ->
    (deadLetterErr ← deadLetterMalformed opts task body code;
     mret (inl (A := error) (B := Message * settlement)
       (if negb (is_nil deadLetterErr) then errors_Join [decodeErr; deadLetterErr] else decodeErr))) w = (r, w1) ->
    exists err, r = inl err /\ err <> ErrNil /\
      (same_key source (server_of w) (server_of w1) \/ exists body, buried (server_of w) (server_of w1) task body))
    as Hdead.
  { intros body code decodeErr w1 Hne (e & w2 & Hm & [= <- <-])%io_bind_inv.
    apply malformed_exact in Hm as [Hor _]; [|done]. eexists. split; [done|]. split.
    - destruct (negb (is_nil e)); [|done]. unfold errors_Join. destruct decodeErr; done.
    - destruct Hor as [?|?]; [by left|right]. by exists body. }
  destruct (Values task !! "body") as [[body|body|z|]|];
    try (intros (err & -> & ? & ?)%Hdead; [done|done]).
  destruct (DecodeE order unmarshal body DefaultMaxMessageBytes) as [err|data] eqn:Ed.
  - cbv zeta. intros (e & -> & ? & ?)%Hdead; done.
  - intros [= <- <-]. split; [done|]. by exists body.
Qed.

(** C7: A delivery is never lost between its arrival and its settlement, whatever
    commands are refused, raise, or lose their answers. A message that cannot be decoded
    stays pending or has its dead letter stored. One that decodes changes nothing until
    it is settled; then only the first settlement call acts and every later one repeats
    its result. An acknowledgement touches the source only. A rejection leaves the source
    as it was unless a dead letter is stored, and when it reports success the failure is
    recorded and the delivery is dead-lettered and released exactly when the failure is
    terminal. *)
Theorem delivery_keeps_work task w r w0 :
  full_id (X_ID task) -> Request_received opts order unmarshal task w = (r, w0) ->
  match r with
  | inl err => err <> ErrNil /\
      (same_key source (server_of w) (server_of w0) \/
       exists body, buried (server_of w) (server_of w0) task body)
  | inr (data, st) => w0 = w /\
      forall v vs errs st' w', settle_all (v :: vs) st w = ((errs, st'), w') ->
        exists err, errs = replicate (S (length vs)) err /\
          settled_by v (server_of w) (server_of w') task (s_body st) err
  end.
Proof.
  intros Hid Hr. apply received_exact in Hr; [|done]. destruct r as [err|[data st]]; [done|].
  destruct Hr as (-> & body & _ & _ & ->). split; [done|].
  intros v vs errs st' w' ([err st1] & w1 & Hv & ([errs1 st2] & w2 & Hrest & [= <- <- <-])%io_bind_inv)%io_bind_inv.
  apply settle_with_exact in Hv as [Hst Hv]; [|done].
  rewrite (settle_all_repeats _ _ _ _ Hst) in Hrest. injection Hrest as <- <- <-. eauto.
Qed.
End records.

(** * Submission *)

(** A submission never exceeds the configured limit and never evicts: success stored
    the body in one new entry; a capacity error found the stream full and changed
    nothing; any other failure leaves the stream as it was or with that one entry. *)
Theorem queue_exact opts stopFlag bytes w err w' :
  (0 <= R_maxLength opts)%Z -> exact_int (R_maxLength opts) ->
  countable (server_of w) (R_streamName opts) -> Queue opts stopFlag bytes w = (err, w') ->
  let s := server_of w in let s' := server_of w' in
  let limited := (0 < R_maxLength opts)%Z in
  let one := exists id, appended s s' (R_streamName opts) [("body", bytes)] id /\
    (limited -> Z.of_nat (length (entries_of s' (R_streamName opts))) <= R_maxLength opts)%Z in
  (err = ErrNil -> one) /\ (s' = s \/ one) /\
  (err = ErrMaxCapacity -> s' = s /\
     (limited -> R_maxLength opts <= Z.of_nat (length (entries_of s (R_streamName opts))))%Z).
Proof.
  intros Hpos Hex Hc. unfold Queue. cbv zeta.
  destruct stopFlag; [intros [= <- <-]; split_and!; [done|by left|done]|].
  unfold queue, ok_or. intros (r & w1 & Hdo & H)%io_bind_inv.
  eapply (Result_outcome (EvalEnqueue _ _ bytes)
    (redisEnqueueScript (num := num) (R_streamName opts) (FormatInt (R_maxLength opts)) bytes)) in Hdo;
    [|done|rewrite FormatInt_pretty by lia; apply redis_enqueue_outcome; [rewrite Z2N.id by lia; done|done]].
  set (limit := if (Z.to_N (R_maxLength opts) =? 0)%N then None else Some (Z.to_N (R_maxLength opts))) in *.
  assert (forall n, limit = Some n <-> (0 < R_maxLength opts)%Z /\ n = Z.to_N (R_maxLength opts)) as Hlim.
  { intros n. unfold limit. destruct (N.eqb_spec (Z.to_N (R_maxLength opts)) 0); split; try done; try lia.
    - intros [= <-]. split; [lia|done].
    - by intros [_ ->]. }
  clearbody limit.
  destruct Hdo as [[(e & -> & He & _ & Hm) Hs]|(o & Hq & Hr)].
  { injection H as <- <-. split_and!; [by intros ->|by left|by intros ->]. }
  assert (forall x, o = Some x -> x <> "capacity" -> exists id,
    appended (server_of w) (server_of w1) (R_streamName opts) [("body", bytes)] id /\
    ((0 < R_maxLength opts)%Z ->
     (Z.of_nat (length (entries_of (server_of w1) (R_streamName opts))) <= R_maxLength opts)%Z)) as Hone.
  { intros x -> Hx. destruct Hq as [(? & _)|(_ & Ha & Hl)]; [done|]. exists x. split; [done|].
    intros Hp. specialize (Hl (Z.to_N (R_maxLength opts))). rewrite Hlim in Hl. lia. }
  destruct Hr as [(e & -> & He & _ & Hm)|(x & -> & ->)]; injection H as <- <-.
  - split_and!; [by intros ->| |by intros ->]. destruct o as [x|]; [|by left].
    destruct (decide (x = "capacity")) as [->|]; [|right; eauto]. destruct Hq as [(_ & -> & _)|[? _]]; [by left|done].
  - destruct (String.eqb_spec x "capacity") as [->|Hx].
    + destruct Hq as [(_ & Hs & n & Hn & Hle)|[? _]]; [|done]. apply Hlim in Hn as [? ->].
      split_and!; [done|by left|]. intros _. split; [done|]. lia.
    + split_and!; [eauto|right; eauto|done].
Qed.
End safety.

(** * Witnesses *)

Module SampleRedis.

Definition opts : redisOptions :=
  newRedisOptions [WithStreamName "q"; WithGroup "g"; WithDeadLetter "dead" 5; WithFailureStream "failed"].

Lemma policy : redis_policy opts.
Proof. apply validateDeadLetter_policy. reflexivity. Qed.

(** The pending delivery of stream [q] and its replay lineage. *)
Definition task : XMessage := message_of Sample.q_entry.

Definition data : Message := NewMessage (fun l => l) "payload" [].
Definition unmarshal (body : string) : error + Message := inr data.

(** The last answer is lost. *)
Definition world : Lossy.world :=
  Lossy.mkWorld Sample.state
    [Lossy.Delivered; Lossy.Delivered; Lossy.Delivered; Lossy.Unanswered "timeout"].

Definition permanent : error := FailureErr "permanent" "bad_input" (Leaf "bad").

End SampleRedis.

(** A permanent failure is rejected, and acknowledged afterwards; the answer to the
    acknowledgement script is lost. *)
Lemma delivery_keeps_work_witness :
  exists err st w',
    settle_all SampleRedis.opts [Reject SampleRedis.permanent; Acknowledge]
      (mkSettlement SampleRedis.task "job" None) SampleRedis.world =
      (([err; err], st), w') /\
    rejected SampleRedis.opts Sample.state (Lossy.w_server w') SampleRedis.task "job"
      SampleRedis.permanent err.
Proof.
  destruct (delivery_keeps_work (num := Z) SampleRedis.opts SampleRedis.policy (fun l => l)
    SampleRedis.unmarshal SampleRedis.task SampleRedis.world
    (inr (SampleRedis.data, mkSettlement SampleRedis.task "job" None)) SampleRedis.world
    (Sample.id_full 5 0) eq_refl) as [_ H].
  destruct (settle_all SampleRedis.opts [Reject SampleRedis.permanent; Acknowledge]
      (mkSettlement SampleRedis.task "job" None) SampleRedis.world) as [[errs st] w'] eqn:E.
  destruct (H _ _ _ _ _ E) as (err & -> & Hr). exists err, st, w'. exact (conj eq_refl Hr).
Defined.
