(* ===== verification/RedisRecords.v ===== *)
(** Management record listing and inspection of the Redis Streams worker
    (adapters/redisstream/records.go): conversion of stored records, search, cursors and
    pages; what settlement stores is what the listing reads. *)

From S2P Require Import Prelude GoStd Sentinels Contract Control Failure Job Status Codec Records Stream.
From S2P Require Import Server Scripts Valkey ValkeySafety ValkeyRecords RedisOptions Redis RedisSafety.

Definition redisRecordSearchFactor : Z := 4.

Definition redisRecordTime (id : string) : error + Time :=
  match Cut id with
  | None => inl (Leaf "invalid Redis stream identifier")
  | Some (milliseconds, _) =>
      match ParseInt milliseconds with
      | None => inl (Leaf "strconv.ParseInt: invalid syntax")
      | Some value => inr (UTC (UnixMilli value))
      end
  end.

(** * Cursors *)

Definition encodeRedisRecordCursor (id : string) : string := EncodeToString id.

Definition decodeRedisRecordCursor (cursor : string) : error + string :=
  if cursor == "" then inr ""
  else
    match DecodeString cursor with
    | None => inl ErrMalformedCursor
    | Some decoded =>
        if EncodeToString decoded != cursor then inl ErrMalformedCursor
        else if negb (Z.max (len decoded) MaxIdentityBytes =? MaxIdentityBytes)%Z
        then inl ErrMalformedCursor
        else match redisRecordTime decoded with
             | inl _ => inl ErrMalformedCursor
             | inr _ => inr decoded
             end
    end.

Definition redisRecordScanLimit (request : PageRequest) : Z :=
  if G_Search request == "" then G_Limit request
  else (G_Limit request * redisRecordSearchFactor)%Z.

Definition redisRecordReadError (operation : string) (err : error) : error :=
  if Is err Canceled || Is err DeadlineExceeded then err
  else errors_Join [ErrManagementUnavailable; safe_Wrap operation err].

Section records.
Context (opts : redisOptions).
(** Iteration orders, the JSON decoder and [strings.ToLower], as in [ValkeyRecords]. *)
Context (order : list (string * string) -> list (string * string)).
Context (times : list (string * option Time) -> list (string * option Time)).
Context (unmarshal : string -> error + Message).
Context (ToLower : string -> string).

(** * Conversion *)

Definition redis_malformed : error := Leaf "redisstream: malformed management record".

(** The fields that every record has. *)
Definition stored_record (kind visibility id body originalID stream group classification failureCode : string)
    (attempts version : Z) (occurredAt : Time) : JobRecord :=
  let payload := if visibility == PayloadRevealed
                 then mkPayload visibility "application/octet-stream" (len body) body
                 else mkPayload visibility "" (len body) "" in
  mkJobRecord kind id BackendName stream occurredAt attempts failureCode payload version "" originalID
    "" stream "" group originalID None None None None "" classification "" (mkPayload "" "" 0 "")
    "" "" None "" "" "" "" "" "" 0 None.

(** The rest of the conversion: envelope metadata, lineage and times. *)
Definition complete_record (kind body originalID : string) (lineage : redisReplayLineage)
    (occurredAt : Time) (record : JobRecord) : JobRecord :=
  let record := ApplyMessageMetadata order record (MessageMetadata order unmarshal body) in
  let record := record <| R_OriginalDeadLetterID := original lineage |>
                       <| R_PriorDeadLetterID := prior lineage |>
                       <| R_ReplayGeneration := generation lineage |> in
  let record :=
    match R_EnqueuedAt record, redisRecordTime originalID with
    | None, inr enqueuedAt => record <| R_EnqueuedAt := Some enqueuedAt |>
    | _, _ => record
    end in
  if kind == RecordDeadLetter then record <| R_DeadLetteredAt := Some occurredAt |> else record.

Definition redisManagementRecord (message : XMessage) (kind visibility : string) : error + JobRecord :=
  let text name := redisRecordString (Values message !! name) in
  match text "body", text "original_id", text "delivery_attempts", text "envelope_version",
        text "classification", text "failure_code", text "source_stream", text "consumer_group" with
  | Some body, Some originalID, Some attemptText, Some versionText, Some classification,
    Some failureCode, Some stream, Some group =>
      match ParseUintBits attemptText 32, ParseUintBits versionText 16, redisRecordTime (X_ID message) with
      | Some attempts, Some version, inr occurredAt =>
          if (originalID == "") || (attempts =? 0)%Z || negb (version =? CurrentEnvelopeVersion)%Z ||
             negb (is_nil (Failure_Validate classification failureCode)) ||
             (stream == "") || (group == "")
          then inl redis_malformed
          else
            match redisLineageFromValues (Values message) with
            | inl _ => inl (Leaf "redisstream: malformed replay lineage")
            | inr lineage =>
                let record := complete_record kind body originalID lineage occurredAt
                  (stored_record kind visibility (X_ID message) body originalID stream group
                     classification failureCode attempts version occurredAt) in
                let err := JobRecord_Validate order times record in
                if negb (is_nil err) then inl (Wrap "invalid Redis management record" err) else inr record
            end
      | _, _, _ => inl redis_malformed
      end
  | _, _, _, _, _, _, _, _ => inl redis_malformed
  end.

Definition enrichManagementRecord (record : JobRecord) : JobRecord :=
  if negb (R_EnvelopeVersion record =? CurrentEnvelopeVersion)%Z then record
  else
    let record := record <| R_LastDeliveryAt := Some (R_OccurredAt record) |> in
    match R_management opts with
    | Some metadata => record <| R_WorkerVersion := M_Version metadata |>
    | None => record
    end.

Definition matchesRedisRecord (record : JobRecord) (search : string) : bool :=
  let needle := ToLower (TrimSpace search) in
  if needle == "" then true
  else Contains (ToLower (R_ID record +:+ " " +:+ R_OriginalID record +:+ " " +:+ R_Queue record +:+ " " +:+
                          R_FailureCode record +:+ " " +:+ R_Classification record)) needle.

(** The loop over the messages of a page: every one is converted, the matching ones are
    kept up to the limit. *)
Fixpoint page_loop (messages : list XMessage) (kind search : string) (limit itemCount : Z)
    : error + list JobRecord :=
  match messages with
  | [] => inr []
  | message :: messages =>
      match redisManagementRecord message kind PayloadHidden with
      | inl err => inl err
      | inr record =>
          let record := enrichManagementRecord record in
          let keep := matchesRedisRecord record search && (itemCount <? limit)%Z in
          match page_loop messages kind search limit (if keep then itemCount + 1 else itemCount)%Z with
          | inl err => inl err
          | inr items => inr (if keep then record :: items else items)
          end
      end
  end.

(** * Pages *)

Section pages.
Context {W : Type} `{!redisClient W}.

Definition readRecordPage (stream cursor : string) (limit : Z) (direction : string)
    : io W (error + list XMessage) :=
  if direction == SortDescending
  then Result (XRevRangeN stream (if cursor != "" then "(" +:+ cursor else "+") "-" limit)
  else Result (XRangeN stream (if cursor != "" then "(" +:+ cursor else "-") "+" limit).

Definition listRecords (request : PageRequest) (kind stream : string) : io W (error + RecordPage) :=
  let err := PageRequest_Validate request in
  if negb (is_nil err) then mret (inl err)
  else if G_Sort request != SortOccurredAt then mret (inl ErrInvalidFilter)
  else
    match decodeRedisRecordCursor (G_Cursor request) with
    | inl err => mret (inl err)
    | inr cursor =>
        let scanLimit := redisRecordScanLimit request in
        ok_or (readRecordPage stream cursor scanLimit (G_Direction request))
          (fun err => inl (redisRecordReadError "redisstream: read management records" err))
          (fun messages =>
             mret match page_loop messages kind (G_Search request) (G_Limit request) 0 with
                  | inl err => inl err
                  | inr items =>
                      inr (mkRecordPage items
                             (if (zlen messages =? scanLimit)%Z
                              then match last messages with
                                   | Some message => encodeRedisRecordCursor (X_ID message)
                                   | None => ""
                                   end
                              else ""))
                  end)
    end.

Definition ListFailures (request : PageRequest) : io W (error + RecordPage) :=
  listRecords request Records.RecordFailure (R_failureStream opts).

Definition ListDeadLetters (request : PageRequest) : io W (error + RecordPage) :=
  listRecords request RecordDeadLetter (R_deadLetterStream opts).

Definition Inspect (request : InspectRequest) : io W (error + JobRecord) :=
  let err := InspectRequest_Validate request in
  if negb (is_nil err) then mret (inl err)
  else
    let stream := if I_Kind request == RecordDeadLetter then R_deadLetterStream opts
                  else R_failureStream opts in
    ok_or (Result (XRangeN stream (I_ID request) (I_ID request) 1))
      (fun err => inl (redisRecordReadError "redisstream: inspect management record" err))
      (fun messages =>
         mret match messages with
              | [message] =>
                  if X_ID message != I_ID request then inl ErrRecordNotFound
                  else
                    match redisManagementRecord message (I_Kind request) (I_Visibility request) with
                    | inl err => inl err
                    | inr record => inr (enrichManagementRecord record)
                    end
              | _ => inl ErrRecordNotFound
              end).
End pages.
End records.

(** * What is stored reads back *)

Lemma fields_map_lookup l f :
  NoDup l.*1 -> forall (m : gmap string string), (forall g, g ∈ l.*1 -> m !! g = None) ->
  foldl (fun m kv => <[kv.1 := kv.2]> m) m l !! f =
  match (list_to_map l : gmap string string) !! f with Some v => Some v | None => m !! f end.
Proof.
  induction l as [|[k v] l IH]; simpl; [done|]. intros [Hk Hd]%NoDup_cons m Hm.
  rewrite IH; [|done|].
  - destruct (decide (f = k)) as [->|].
    + rewrite lookup_insert_eq, not_elem_of_list_to_map_1, lookup_insert_eq by done. done.
    + by rewrite !lookup_insert_ne.
  - intros g Hg. rewrite lookup_insert_ne; [apply Hm; by right|]. intros <-. done.
Qed.

(** The fields of a sent entry, in whatever order, decode to the values that were sent. *)
Lemma sent_lookup values fields f :
  sent_as values fields -> fields_map fields !! f = arg_text <$> values !! f.
Proof.
  intros Hs. assert (NoDup fields.*1) as Hd.
  { unfold sent_as in Hs. rewrite Hs. apply NoDup_fst_map_to_list. }
  unfold fields_map. rewrite fields_map_lookup by (done || intros; apply lookup_empty).
  rewrite (list_to_map_proper _ _ Hd Hs), list_to_map_to_list, lookup_fmap, lookup_empty.
  by destruct (arg_text <$> values !! f).
Qed.

Lemma sent_text values fields id f :
  sent_as values fields ->
  redisRecordString (Values (message_of (mkStreamEntry id fields)) !! f) = arg_text <$> values !! f.
Proof.
  intros Hs. unfold message_of. simpl. rewrite lookup_fmap, (sent_lookup _ _ _ Hs).
  by destruct (values !! f).
Qed.

(** A lineage that settlement can store: absent, or complete with a 32-bit generation. *)
Definition lineage_stored (l : redisReplayLineage) : Prop :=
  l = no_lineage \/
  (identity (original l) /\ identity (prior l) /\ (0 < generation l < 2 ^ 32)%Z).

Lemma digits_nonneg acc l v : digits acc l = Some v -> (0 <= acc)%Z -> (0 <= v)%Z.
Proof.
  revert acc. induction l as [|c l IH]; simpl; intros acc H Ha; [by simplify_eq|].
  apply bind_Some in H as (d & Hd & H). apply (IH _ H). unfold digit in Hd. case_test; [|done].
  injection Hd as <-. lia.
Qed.

Lemma ParseUintBits_range t bits n : ParseUintBits t bits = Some n -> (0 <= n < 2 ^ bits)%Z.
Proof.
  unfold ParseUintBits, ParseUint. destruct (list_ascii_of_string t) as [|c l]; [done|].
  intros (v & H & Hv)%bind_Some. apply bind_Some in H as (v0 & Hd & H).
  apply digits_nonneg in Hd; [|done]. do 2 (case_test; [|done]). simplify_eq. lia.
Qed.

(** Every lineage that a delivery carries can be stored. *)
Lemma parsed_lineage_stored values l : redisLineageFromValues values = inr l -> lineage_stored l.
Proof.
  unfold redisLineageFromValues.
  destruct (redisRecordString (values !! "replay_original_dead_letter_id")) as [o|],
    (redisRecordString (values !! "replay_prior_dead_letter_id")) as [p|],
    (redisRecordString (values !! "replay_generation")) as [g|]; try done; [|intros [= <-]; by left].
  do 2 (case_test; [done|]). destruct (ParseUintBits g 32) as [n|] eqn:Eg; [|done].
  apply ParseUintBits_range in Eg. case_test; [done|]. intros [= <-]. right. simpl. unfold identity.
  apply orb_false_iff in E as [? ?]. apply orb_false_iff in E0 as [? ?].
  split_and!; (done || lia).
Qed.

(** The lineage of a stored record is the one it was stored with. *)
Lemma stored_lineage opts id originalID body attempts failure lineage fields :
  lineage_stored lineage ->
  sent_as (record_values opts originalID body attempts failure lineage) fields ->
  redisLineageFromValues (Values (message_of (mkStreamEntry id fields))) = inr lineage.
Proof.
  intros Hl Hs. unfold redisLineageFromValues. rewrite !(sent_text _ _ _ _ Hs).
  unfold record_values. destruct Hl as [->|([Hb1 Hl1] & [Hb2 Hl2] & Hg)]; [done|].
  destruct (Z.ltb_spec 0 (generation lineage)); [|lia].
  rewrite lookup_insert_ne, lookup_insert_ne, lookup_insert_eq by done.
  rewrite lookup_insert_ne, lookup_insert_eq, lookup_insert_eq by done. simpl.
  rewrite Hb1, Hb2. cbn [orb]. rewrite FormatInt_pretty, ParseUintBits_pretty, Z2N.id by lia.
  case_test; [lia|]. case_test; [lia|]. by destruct lineage.
Qed.

Lemma record_values_lookup opts originalID body attempts failure lineage :
  let m := record_values opts originalID body attempts failure lineage in
  m !! "body" = Some (ABytes body) /\ m !! "original_id" = Some (AString originalID) /\
  m !! "delivery_attempts" = Some (AInt attempts) /\
  m !! "envelope_version" = Some (AInt CurrentEnvelopeVersion) /\
  m !! "classification" = Some (AString (F_Classification failure)) /\
  m !! "failure_code" = Some (AString (F_Code failure)) /\
  m !! "source_stream" = Some (AString (R_streamName opts)) /\
  m !! "consumer_group" = Some (AString (R_group opts)).
Proof.
  unfold record_values. destruct (0 <? generation lineage)%Z; [|done].
  cbv zeta. rewrite !lookup_insert_ne by done. done.
Qed.

Section roundtrip.
Context (opts : redisOptions).
Context (order : list (string * string) -> list (string * string)).
Context (times : list (string * option Time) -> list (string * option Time)).
Context (unmarshal : string -> error + Message).

(** What a stored record says, however it is viewed. *)
Record reads_back (id originalID body kind visibility : string) (attempts : Z)
    (failure : FailureMetadata) (lineage : redisReplayLineage) (occurredAt : Time) (r : JobRecord)
    : Prop := {
  rb_identity : R_Kind r = kind /\ R_ID r = id /\ R_SourceRecordID r = originalID;
  rb_place : R_Backend r = BackendName /\ R_Queue r = R_streamName opts /\
    R_Stream r = R_streamName opts /\ R_ConsumerGroup r = R_group opts;
  rb_delivery : R_Attempts r = attempts /\ R_OccurredAt r = occurredAt /\
    R_EnvelopeVersion r = CurrentEnvelopeVersion;
  rb_failure : R_Classification r = F_Classification failure /\ R_FailureCode r = F_Code failure;
  rb_lineage : R_OriginalDeadLetterID r = original lineage /\ R_PriorDeadLetterID r = prior lineage /\
    R_ReplayGeneration r = generation lineage;
  rb_dead : R_DeadLetteredAt r = if kind == RecordDeadLetter then Some occurredAt else None;
  rb_payload : discloses visibility body r
}.

Lemma complete_reads_back id originalID body kind visibility attempts failure lineage occurredAt :
  reads_back id originalID body kind visibility attempts failure lineage occurredAt
    (complete_record order unmarshal kind body originalID lineage occurredAt
       (stored_record kind visibility id body originalID (R_streamName opts) (R_group opts)
          (F_Classification failure) (F_Code failure) attempts CurrentEnvelopeVersion occurredAt)).
Proof.
  unfold complete_record, stored_record. cbv zeta.
  destruct (MessageMetadata order unmarshal body) as [m|]; cbn [ApplyMessageMetadata];
    destruct (visibility == PayloadRevealed) eqn:Ev; destruct (redisRecordTime originalID) as [|t];
    destruct (kind == RecordDeadLetter) eqn:Ek; simpl; try (destruct (EnqueuedAt m)); simpl;
    (split; simpl; rewrite ?Ek; try done; unfold discloses; simpl; by rewrite Ev).
Qed.

(** A failure or dead-letter record that settlement stores reads back as it was
    written, in whatever order its fields were sent: identifiers, place, attempts, time of
    the record, classification and code, replay lineage and payload at the requested
    visibility. The reader never calls it malformed: what it answers is that record, or
    the verdict of the contract's validation on it. *)
Theorem redis_record_roundtrip (ms seq : N) fields originalID body attempts failure lineage kind visibility :
  (Z.of_N ms < 2 ^ 63)%Z -> R_streamName opts <> "" -> R_group opts <> "" -> originalID <> "" ->
  (1 <= attempts < 2 ^ 32)%Z -> FailureMetadata_Validate failure = ErrNil -> lineage_stored lineage ->
  sent_as (record_values opts originalID body attempts failure lineage) fields ->
  let id := pretty ms +:+ "-" +:+ pretty seq in
  exists r, reads_back id originalID body kind visibility attempts failure lineage
              (UTC (UnixMilli (Z.of_N ms))) r /\
    redisManagementRecord order times unmarshal (message_of (mkStreamEntry id fields)) kind visibility =
    if is_nil (JobRecord_Validate order times r) then inr r
    else inl (Wrap "invalid Redis management record" (JobRecord_Validate order times r)).
Proof.
  intros Hms Hs Hg Hid Ha Hf Hl Hsent id. eexists. split; [apply complete_reads_back|].
  unfold redisManagementRecord. cbv zeta. rewrite !(sent_text _ _ _ _ Hsent).
  destruct (record_values_lookup opts originalID body attempts failure lineage)
    as (-> & -> & -> & -> & -> & -> & -> & ->).
  rewrite (stored_lineage _ _ _ _ _ _ _ _ Hl Hsent). cbn [fmap option_fmap option_map arg_text X_ID message_of e_id].
  unfold redisRecordTime at 1, id. rewrite Reference.cut_full, ParseInt_pretty by done.
  rewrite FormatInt_pretty, ParseUintBits_pretty, Z2N.id by lia.
  unfold FailureMetadata_Validate in Hf. rewrite Hf. apply String.eqb_neq in Hs, Hg, Hid.
  assert (ParseUintBits (FormatInt CurrentEnvelopeVersion) 16 = Some CurrentEnvelopeVersion) as ->
    by reflexivity.
  rewrite Hs, Hg, Hid. destruct (Z.eqb_spec attempts 0); [lia|].
  cbn -[JobRecord_Validate complete_record stored_record].
  by destruct (is_nil (JobRecord_Validate _ _ _)).
Qed.
End roundtrip.

(** * Disclosure *)

Section disclosure.
Context (opts : redisOptions).
Context (order : list (string * string) -> list (string * string)).
Context (times : list (string * option Time) -> list (string * option Time)).
Context (unmarshal : string -> error + Message) (ToLower : string -> string).

Lemma converted_discloses message kind visibility r :
  redisManagementRecord order times unmarshal message kind visibility = inr r ->
  within visibility kind r /\ R_ID r = X_ID message.
Proof.
  unfold redisManagementRecord. cbv zeta.
  repeat (match goal with |- context [match ?x with Some _ => _ | None => _ end] =>
            destruct x; [|done] end).
  destruct (redisRecordTime (X_ID message)) as [|t]; [done|]. case_test; [done|].
  destruct (redisLineageFromValues (Values message)) as [|lineage]; [done|]. case_test; [done|].
  clear E E0. intros [= <-]. unfold complete_record, stored_record, within. cbv zeta.
  match goal with |- context [MessageMetadata ?o ?u ?b] => destruct (MessageMetadata o u b) as [m|] end;
    cbn [ApplyMessageMetadata]; destruct (String.eqb_spec visibility PayloadRevealed) as [Ev|Ev];
    match goal with |- context [redisRecordTime ?x] => destruct (redisRecordTime x) as [|t0] end;
    destruct (kind == RecordDeadLetter); simpl; try (destruct (EnqueuedAt m)); simpl; by split_and!.
Qed.

Lemma enrich_within kind visibility r :
  within visibility kind r -> within visibility kind (enrichManagementRecord opts r).
Proof.
  unfold enrichManagementRecord. case_test; [done|]. destruct r, (R_management opts); exact id.
Qed.

Lemma page_loop_within messages kind search limit n items :
  page_loop opts order times unmarshal ToLower messages kind search limit n = inr items ->
  Forall (within PayloadHidden kind) items /\
  ((n <= limit)%Z -> (Z.of_nat (length items) <= limit - n)%Z).
Proof.
  revert n items. induction messages as [|message messages IH]; intros n items; simpl.
  { intros [= <-]. split; [constructor|simpl; lia]. }
  destruct (redisManagementRecord _ _ _ message kind PayloadHidden) as [|r] eqn:Er; [done|].
  apply converted_discloses in Er as [Hw%enrich_within _].
  set (keep := matchesRedisRecord _ _ _ && _).
  destruct (page_loop _ _ _ _ _ messages kind search limit _) as [|rest] eqn:El; [done|].
  apply IH in El as [Hf Hl]. intros [= <-]. destruct keep eqn:Ek.
  - apply andb_prop in Ek as [_ Hlt%Z.ltb_lt]. split; [by constructor|]. simpl. lia.
  - split; [done|]. lia.
Qed.

Context {W : Type} `{!redisClient W}.
Implicit Types w : W.

(** Listings of the Redis worker disclose no payload bytes, hold only records of the
    requested kind and no more than the requested number; inspection discloses the payload
    only when the caller asked for it to be revealed, and diagnostics never. *)
Theorem redis_disclosure w :
  (forall request kind stream page w',
     (0 <= G_Limit request)%Z ->
     listRecords opts order times unmarshal ToLower request kind stream w = (inr page, w') ->
     page_ok request kind page) /\
  (forall request item w',
     Inspect opts order times unmarshal request w = (inr item, w') ->
     within (I_Visibility request) (I_Kind request) item /\ R_ID item = I_ID request).
Proof.
  split.
  - intros request kind stream page w' Hl. unfold listRecords. do 2 (case_test; [done|]).
    destruct (decodeRedisRecordCursor _) as [|cursor]; [done|]. unfold ok_or.
    intros (r & w1 & _ & H)%io_bind_inv. destruct r as [|messages]; [done|].
    destruct (page_loop _ _ _ _ _ messages _ _ _ _) as [|items] eqn:Ep; [done|].
    injection H as <- _. apply page_loop_within in Ep as [Hf Hb]. split; [done|]. simpl. lia.
  - intros request item w'. unfold Inspect. case_test; [done|]. unfold ok_or.
    intros (r & w1 & _ & H)%io_bind_inv. destruct r as [|[|message [|]]]; try done.
    destruct (String.eqb_spec (X_ID message) (I_ID request)) as [Hid|]; [|done]. simpl in H.
    destruct (redisManagementRecord _ _ _ message _ _) as [|r] eqn:Er; [done|].
    injection H as <- _. apply converted_discloses in Er as [Hw Hr]. split; [by apply enrich_within|].
    rewrite <-Hid, <-Hr. unfold enrichManagementRecord. case_test; [done|].
    by destruct r, (R_management opts).
Qed.
End disclosure.

(** * A concrete stream of records *)

Module SampleStored.

Definition failure : FailureMetadata := mkFailureMetadata "permanent" "bad_input".
Definition lineage : redisReplayLineage := mkLineage "1-0" "2-0" 7.

(** The record of delivery [5-0] as settlement sends it. *)
Definition values : gmap string any := record_values SampleRedis.opts "5-0" "job" 3 failure lineage.
Definition fields : list (string * string) := map_to_list (arg_text <$> values).
Definition message (id : string) : XMessage := message_of (mkStreamEntry id fields).

Lemma lineage_ok : lineage_stored lineage.
Proof. right. split; [|split]; [by apply (bool_decide_unpack _)..|simpl; lia]. Qed.

(** A client that answers every range with two records. *)
#[global] Instance client : redisClient unit := fun A c w =>
  match c in request A return (error + A) * unit with
  | XRangeN _ _ _ _ => (inr [message "9-0"; message "9-1"], w)
  | _ => (inl (Leaf "unsupported"), w)
  end.

Definition list_failures (request : PageRequest) : (error + RecordPage) * unit :=
  ListFailures SampleRedis.opts (fun l => l) (fun l => l) (fun _ => inl ErrInvalidMessage) (fun s => s)
    request tt.

Definition ids (r : (error + RecordPage) * unit) : option (list string * string) :=
  match r.1 with inr page => Some (R_ID <$> RP_Items page, RP_NextCursor page) | inl _ => None end.

End SampleStored.

Lemma redis_record_roundtrip_witness :
  exists r, reads_back SampleRedis.opts "9-0" "5-0" "job" RecordDeadLetter PayloadRevealed 3
              SampleStored.failure SampleStored.lineage (UTC (UnixMilli 9)) r /\
    redisManagementRecord (fun l => l) (fun l => l) (fun _ => inl ErrInvalidMessage)
      (SampleStored.message "9-0") RecordDeadLetter PayloadRevealed = inr r.
Proof.
  destruct (redis_record_roundtrip SampleRedis.opts (fun l => l) (fun l => l)
    (fun _ => inl ErrInvalidMessage) 9 0 SampleStored.fields "5-0" "job" 3 SampleStored.failure
    SampleStored.lineage RecordDeadLetter PayloadRevealed ltac:(lia) ltac:(discriminate)
    ltac:(discriminate) ltac:(discriminate) ltac:(lia) ltac:(vm_compute; reflexivity)
    SampleStored.lineage_ok (reflexivity _)) as (r & Hr & E).
  exists r. split; [exact Hr|]. etransitivity; [exact E|].
  destruct (is_nil (JobRecord_Validate _ _ r)); [reflexivity|].
  assert (exists x, redisManagementRecord (fun l => l) (fun l => l) (fun _ => inl ErrInvalidMessage)
    (SampleStored.message "9-0") RecordDeadLetter PayloadRevealed = inr x) as [x Hx]
    by (eexists; vm_compute; reflexivity).
  discriminate (eq_trans (eq_sym E) Hx).
Defined.

(** A search drops matches, as in the Valkey worker: with two matching records and a page
    size of one, the page has the first record and no cursor. *)
Lemma redis_search_drops_match :
  SampleStored.ids (SampleStored.list_failures (mkPageRequest "" 2 "9-" "occurred_at" "asc")) =
    Some (["9-0"; "9-1"], "") /\
  SampleStored.ids (SampleStored.list_failures (mkPageRequest "" 1 "9-" "occurred_at" "asc")) =
    Some (["9-0"], "").
Proof. vm_compute. auto. Qed.
