(* ===== verification/RedisControl.v ===== *)
(** Management mutations of the Redis Streams worker (adapters/redisstream/control.go):
    retry, bulk retry, delete, purge and replay of stored records as sequences of
    commands, and the worker as a backend of the command cache. *)

From S2P Require Import Prelude GoStd Sentinels Contract Control Failure Job Status Codec Records Stream.
From S2P Require Import Valkey RedisOptions Redis ControlCache.

Definition redisReplayRegistryCapacity : Z := 1024.

Definition ErrManagementControlDisabled : error :=
  errors_Join [Sentinel "redisstream: management control disabled"; ErrUnsupportedCapability].

(** The lineage of the job that a record is enqueued as; [None] for a malformed or
    exhausted one. *)
Definition redisNextReplayLineage (message : XMessage) : option (string * string * Z) :=
  match redisLineageFromValues (Values message) with
  | inl _ => None
  | inr lineage =>
      if (generation lineage =? 0)%Z then Some (X_ID message, X_ID message, 1%Z)
      else if (generation lineage =? 2 ^ 32 - 1)%Z then None
      else Some (original lineage, X_ID message, (generation lineage + 1)%Z)
  end.

(** The values of an enqueued job that carries a lineage. *)
Definition lineage_values (body original prior : string) (generation : Z) : gmap string any :=
  {["body" := AString body; "replay_original_dead_letter_id" := AString original;
    "replay_prior_dead_letter_id" := AString prior;
    "replay_generation" := AString (FormatInt generation)]}.

Section control.
Context {W : Type} `{!redisClient W} (opts : redisOptions).
(** [opts.management], which [Execute] has checked to be present. *)
Context (metadata : StatusMetadata).

Definition recordStream (kind : string) : string :=
  if kind == TargetDeadLetter then R_deadLetterStream opts else R_failureStream opts.

(** * Mutations: the status and failure code of each *)

Definition redisStreamHasCapacity (stream replacementID : string) : io W (error + bool) :=
  if (R_maxLength opts <=? 0)%Z then mret (inr true)
  else
    ok_or (Result (XLen stream)) inl (fun length =>
      if replacementID != "" then
        ok_or (Result (XRangeN stream replacementID replacementID 1)) inl (fun replacement =>
          let length := match replacement with
                        | [message] => if X_ID message == replacementID then (length - 1)%Z else length
                        | _ => length
                        end in
          mret (inr (length <? R_maxLength opts)%Z))
      else mret (inr (length <? R_maxLength opts)%Z)).

(** The stored record of an identifier, handed to [found]. *)
Definition with_record (stream id : string) (found : XMessage -> io W (string * string))
    : io W (string * string) :=
  ok_or (Result (XRangeN stream id id 1)) (fun _ => (CommandUnknown, "")) (fun messages =>
    match messages with
    | [message] => if X_ID message != id then mret (CommandRejected, "record_not_found") else found message
    | _ => mret (CommandRejected, "record_not_found")
    end).

(** The end of a retry: the job is enqueued. *)
Definition retry_settle (failure : bool) (record id originalID : string) : io W (string * string) :=
  ackErr ← (if failure then acknowledgeRecord opts originalID else mret ErrNil);
  if negb (is_nil ackErr) then mret (CommandPartial, "source_ack_unknown")
  else
    ok_or (Result (XDel record id)) (fun _ => (CommandPartial, "record_delete_unknown")) (fun deleted =>
      mret (if negb (deleted =? 1)%Z then (CommandPartial, "record_delete_unknown")
            else (CommandAcknowledged, ""))).

(** The capacity check, the append and the settlement of a retry. *)
Definition retry_enqueue (failure : bool) (record id originalID : string) (values : gmap string any)
    : io W (string * string) :=
  ok_or (redisStreamHasCapacity (R_streamName opts) "") (fun _ => (CommandUnknown, "")) (fun hasCapacity =>
    if negb hasCapacity then mret (CommandRejected, "queue_capacity")
    else
      ok_or (Result (XAdd (R_streamName opts) 0 values)) (fun _ => (CommandFailed, "enqueue_failed"))
        (fun _ => retry_settle failure record id originalID)).

(** What a retry enqueues of a record. *)
Definition retry_values (failure : bool) (body : string) (message : XMessage) : option (gmap string any) :=
  if failure then Some {["body" := AString body]}
  else
    '(original, prior, generation) ← redisNextReplayLineage message;
    Some (lineage_values body original prior generation).

(** A retry whose record is well formed and, for a failure, still pending. *)
Definition retry_accepted (failure : bool) (record id originalID body : string) (message : XMessage)
    : io W (string * string) :=
  match retry_values failure body message with
  | None => mret (CommandFailed, "record_malformed")
  | Some values => retry_enqueue failure record id originalID values
  end.

Definition retry_found (failure : bool) (record id : string) (message : XMessage)
    : io W (string * string) :=
  match redisRecordString (Values message !! "body"),
        redisRecordString (Values message !! "original_id") with
  | Some body, Some originalID =>
      if originalID == "" then mret (CommandFailed, "record_malformed")
      else if failure then
        ok_or (Result (XPending (R_streamName opts) (R_group opts) originalID originalID 1))
          (fun _ => (CommandUnknown, "")) (fun pending =>
            match pending with
            | [p] => if PX_ID p != originalID then mret (CommandRejected, "source_record_stale")
                     else retry_accepted failure record id originalID body message
            | _ => mret (CommandRejected, "source_record_stale")
            end)
      else retry_accepted failure record id originalID body message
  | _, _ => mret (CommandFailed, "record_malformed")
  end.

Definition retryRedisRecord (kind id : string) : io W (string * string) :=
  let failure := kind == TargetFailure in
  let record := if failure then R_failureStream opts else R_deadLetterStream opts in
  with_record record id (retry_found failure record id).

(** The loop over the selected records, from [index]. *)
Fixpoint bulk_loop (kind : string) (index : nat) (messages : list XMessage) : io W (string * string) :=
  match messages with
  | [] => mret (CommandAcknowledged, "")
  | message :: messages =>
      '(status, code) ← retryRedisRecord kind (X_ID message);
      if status == CommandAcknowledged then bulk_loop kind (S index) messages
      else if (index =? 0)%nat then mret (status, code)
      else mret (CommandPartial, "bulk_retry_partial")
  end.

(** [command.Selection] is present: validation requires it for a bulk retry. *)
Definition bulkRetryRedisRecords (command : Command) : io W (string * string) :=
  let kind := Kind (Command_Target command) in
  let limit := match Command_Selection command with Some s => Limit s | None => 0%Z end in
  ok_or (Result (XRangeN (recordStream kind) "-" "+" limit)) (fun _ => (CommandFailed, "records_unavailable"))
    (bulk_loop kind 0).

Definition deleteRedisRecord (command : Command) : io W (string * string) :=
  let target := Command_Target command in
  ok_or (Result (XDel (recordStream (Kind target)) (Name target))) (fun _ => (CommandUnknown, ""))
    (fun deleted => mret (if negb (deleted =? 1)%Z then (CommandRejected, "record_not_found")
                          else (CommandAcknowledged, ""))).

Definition purgeRedisRecords (command : Command) : io W (string * string) :=
  ok_or (Result (Del (recordStream (Kind (Command_Target command))))) (fun _ => (CommandUnknown, ""))
    (fun _ => mret (CommandAcknowledged, "")).

(** The end of a replay: the job is enqueued as [replayedID]. *)
Definition replay_register (policy destination registry replayKey priorReplay replayedID : string)
    : io W (string * string) :=
  if policy == ReplayRejectDuplicate then
    ok_or (Result (HSetNX registry replayKey replayedID))
      (fun _ => (CommandPartial, "replay_registry_unknown")) (fun stored =>
        if negb stored then
          ok_or (Result (XDel destination replayedID))
            (fun _ => (CommandPartial, "replay_duplicate_unknown")) (fun deleted =>
              mret (if negb (deleted =? 1)%Z then (CommandPartial, "replay_duplicate_unknown")
                    else (CommandRejected, "replay_duplicate")))
        else mret (CommandAcknowledged, ""))
  else
    ok_or (Result (HSet registry replayKey replayedID))
      (fun _ => (CommandPartial, "replay_registry_unknown")) (fun _ =>
        if priorReplay != "" then
          ok_or (Result (XDel destination priorReplay))
            (fun _ => (CommandPartial, "replay_replace_unknown")) (fun deleted =>
              mret (if negb (deleted =? 1)%Z then (CommandPartial, "replay_replace_unknown")
                    else (CommandAcknowledged, "")))
        else mret (CommandAcknowledged, "")).

(** The capacity check, the append and the registration of a replay. *)
Definition replay_enqueue (policy destination registry replayKey priorReplay : string)
    (values : gmap string any) : io W (string * string) :=
  ok_or (redisStreamHasCapacity destination priorReplay) (fun _ => (CommandUnknown, ""))
    (fun hasCapacity =>
       if negb hasCapacity then mret (CommandRejected, "queue_capacity")
       else
         ok_or (Result (XAdd destination 0 values)) (fun _ => (CommandFailed, "enqueue_failed"))
           (replay_register policy destination registry replayKey priorReplay)).

(** The registered replay of a record, "" when there is none. *)
Definition prior_replay (registry replayKey : string) : io W (error + string) :=
  registered ← Result (HGet registry replayKey);
  mret match registered with
       | inr priorReplay => inr priorReplay
       | inl err => if Is err redis_Nil then inr "" else inl err
       end.

Definition replay_found (policy destination record id : string) (message : XMessage)
    : io W (string * string) :=
  match redisRecordString (Values message !! "body"), redisNextReplayLineage message with
  | Some body, Some (original, prior, generation) =>
      let replayKey := EncodeToString (record +:+ String zero id) in
      let registry := destination +:+ ":queue:replay-index" in
      let values := lineage_values body original prior generation in
      ok_or (prior_replay registry replayKey) (fun _ => (CommandUnknown, "")) (fun priorReplay =>
        if (priorReplay != "") && (policy == ReplayRejectDuplicate)
        then mret (CommandRejected, "replay_duplicate")
        else if priorReplay == "" then
          ok_or (Result (HLen registry)) (fun _ => (CommandUnknown, "")) (fun registrySize =>
            if (redisReplayRegistryCapacity <=? registrySize)%Z
            then mret (CommandRejected, "replay_registry_capacity")
            else replay_enqueue policy destination registry replayKey priorReplay values)
        else replay_enqueue policy destination registry replayKey priorReplay values)
  | _, _ => mret (CommandFailed, "record_malformed")
  end.

(** [command.Replay] is present: validation requires it for a replay. *)
Definition replayRedisRecord (command : Command) : io W (string * string) :=
  if bool_decide (destinations opts = ∅) then mret (CommandUnsupported, "unsupported_action")
  else
    let '(destination, policy) :=
      match Replay command with Some r => (Destination r, IdempotencyPolicy r) | None => ("", "") end in
    if negb (bool_decide (destination ∈ destinations opts))
    then mret (CommandRejected, "destination_not_allowed")
    else
      let record := recordStream (Kind (Command_Target command)) in
      let id := Name (Command_Target command) in
      with_record record id (replay_found policy destination record id).

(** * Commands *)

Definition redisControlResult (now : Time) (command : Command) (status failureCode : string)
    : CommandResult :=
  Control.mkResult (Control.ID command) (IdempotencyKey command) (M_ID metadata) (M_Protocol metadata)
    status failureCode (UTC now).

(** [now] is the clock before the mutation, [later] the clock of its result. *)
Definition executeRedisCommand (now later : Time) (command : Command) : io W CommandResult :=
  let result '(status, code) := redisControlResult later command status code in
  if negb (version_eqb (Protocol command) (M_Protocol metadata))
  then mret (result (CommandUnsupported, "protocol_mismatch"))
  else if negb (After (Deadline command) now)
  then mret (result (CommandTimedOut, "deadline_exceeded"))
  else if Action command == CommandRetry then
    r ← retryRedisRecord (Kind (Command_Target command)) (Name (Command_Target command));
    mret (result r)
  else if Action command == CommandBulkRetry then r ← bulkRetryRedisRecords command; mret (result r)
  else if Action command == CommandDelete then r ← deleteRedisRecord command; mret (result r)
  else if Action command == CommandPurge then
    if Kind (Command_Target command) == TargetQueue
    then mret (result (CommandUnsupported, "unsupported_action"))
    else r ← purgeRedisRecords command; mret (result r)
  else if Action command == CommandReplay then r ← replayRedisRecord command; mret (result r)
  else mret (result (CommandUnsupported, "unsupported_action")).

(** * The command cache *)

(** [redisControlEntry], under its mutex: the entry by its key, whether it existed, and
    an immediate result. *)
Definition redisControlEntry (capacity : Z) (now : Time) (command : Command) (es : controlEntries)
    : (option string * bool * CommandResult) * controlEntries :=
  let key := IdempotencyKey command in
  match es !! key with
  | Some entry =>
      if negb (bool_decide (E_command entry = command))
      then ((None, false, redisControlResult now command CommandRejected "idempotency_conflict"), es)
      else ((Some key, true, zeroResult), es)
  | None =>
      let capacity := if (capacity <=? 0)%Z then defaultControlCapacity else capacity in
      if (capacity <=? Z.of_nat (size es))%Z
      then ((None, false, redisControlResult now command CommandRejected "idempotency_capacity"), es)
      else ((Some key, false, zeroResult), <[key := mkEntry command None]> es)
  end.

(** The cache of this worker is the shared one. *)
Lemma redisControlEntry_shared : redisControlEntry = controlEntry metadata.
Proof. reflexivity. Qed.

(** [Execute] before [redisControlEntry]. *)
Definition Execute_begin (ctx_err : error) (command : Command) : caller :=
  if bool_decide (R_management opts = None)
  then Returned command zeroResult ErrManagementControlDisabled
  else if negb (is_nil (Command_Validate command))
  then Returned command zeroResult (Command_Validate command)
  else if negb (is_nil ctx_err) then Returned command zeroResult ctx_err
  else Checked command.

Lemma redis_begin_cases ctx_err command :
  Execute_begin ctx_err command = Checked command \/
  exists err, err <> ErrNil /\ Execute_begin ctx_err command = Returned command zeroResult err.
Proof.
  unfold Execute_begin. repeat case_test; auto; right; eexists; (split; [|done]); try done.
  all: intros Hn; by rewrite Hn in *.
Qed.

(** The worker as a backend of the cache. *)
Definition redis_control_backend : ControlBackend W := {|
  observation := error;
  Execute_checks := Execute_begin;
  Execute_apply := executeRedisCommand;
  Execute_checks_law := redis_begin_cases
|}.
End control.
