(* ===== verification/RedisControlSafety.v ===== *)
(** Theorems on the management mutations of the Redis Streams worker: what a retry, a
    bulk retry and a replay have done at the server on each of their answers, when any
    command can be refused, applied, or applied without its answer arriving. *)

From S2P Require Import Prelude GoStd Sentinels Contract Control Failure Job Status Codec Records Stream.
From S2P Require Import Server Scripts ScriptSafety Valkey ValkeySafety RedisOptions Redis RedisSafety.
From S2P Require Import ControlCache RedisControl.

Section mutations.
Context {W St num : Type} `{!redisClient W, !Server St, !RedisServer St, !LuaNumber num}.
Context `{!RedisConnection St num W, !ServerLaws St, !RedisServerLaws St, !LuaLaws num}.
Context (opts : redisOptions).
Implicit Types (w : W) (s : St).

Abbreviation source := (R_streamName opts).
Abbreviation group := (R_group opts).

(** * Single commands *)

(** An appended entry with the given values. *)
Definition appended_as s s' (stream : string) (values : gmap string any) (id : string) : Prop :=
  exists fields, sent_as values fields /\ XADD s stream fields = Some (id, s').

Lemma appended_new s s' stream values id :
  appended_as s s' stream values id -> new_entry s s' stream values.
Proof.
  intros (fields & Hf & (_ & Hfresh & _ & He & _)%XADD_law). exists id, fields. rewrite He.
  split_and!; [done..|]. apply elem_of_app. right. by left.
Qed.

Lemma XAdd_appended stream values w r w' :
  Result (XAdd stream 0 values) w = (r, w') ->
  (refused r /\ (server_of w' = server_of w \/
                 exists id, appended_as (server_of w) (server_of w') stream values id)) \/
  (exists id, r = inr id /\ appended_as (server_of w) (server_of w') stream values id).
Proof.
  intros Hdo. destruct (Result_law _ _ _ _ Hdo) as [[? ->]|(r0 & (fields & Hf & Ha & Hs) & Hor)];
    [by left; split; [|left]|].
  assert (outcome (call (fun s => XADD s stream fields))
    (fun o s' => match o with Some id => XADD (server_of w) stream fields = Some (id, s')
                 | None => s' = server_of w end) (server_of w)) as Hout.
  { lua_enter; [|done]. by intros id s'. }
  unfold outcome in Hout. simpl in Ha, Hs. rewrite <-Hs in Hout.
  destruct (call _ (server_of w)).1 as [id|] in Ha, Hout; simpl in Ha.
  - assert (appended_as (server_of w) (server_of w') stream values id) by (by exists fields).
    destruct Hor as [->|?]; [right; eauto|left; eauto].
  - left. split; [by destruct Hor as [->|?]|]. by left.
Qed.

(** Removing one entry. *)
Definition removed s s' (stream id : string) : Prop :=
  entries_of s' stream = without id (entries_of s stream) /\
  (forall g, pending_of s' stream g = pending_of s stream g) /\ stream_command stream s s'.

Lemma XDel_removed stream id w r w' :
  full_id id -> Result (XDel stream id) w = (r, w') ->
  (refused r /\ (server_of w' = server_of w \/ removed (server_of w) (server_of w') stream id)) \/
  (exists n, r = inr n /\ removed (server_of w) (server_of w') stream id /\
     (n = 1%Z <-> id ∈ (e_id <$> entries_of (server_of w) stream))).
Proof.
  intros Hid Hdo.
  eapply (Result_outcome (XDel stream id) (call (fun s => XDEL s stream id))
    (fun o s' => match o with
      | Some n => removed (server_of w) s' stream id /\
                  (n = 1%Z <-> id ∈ (e_id <$> entries_of (server_of w) stream))
      | None => s' = server_of w end)) in Hdo; [|done|].
  2: { lua_enter; [|done]. intros n s' (-> & ? & ? & ?)%XDEL_law; [|done]. split; [done|].
       by case_decide. }
  destruct Hdo as [[? Hs]|(o & Hq & [?|(n & -> & ->)])].
  - left. eauto.
  - left. split; [done|]. destruct o; [right; apply Hq|by left].
  - right. exists n. by destruct Hq.
Qed.

(** The identifiers of a stream's entries are complete ones. *)
Definition identified s (stream : string) : Prop := Forall (fun e => full_id (e_id e)) (entries_of s stream).

Lemma lookup_message e f : Values (message_of e) !! f = AString <$> fields_map (e_fields e) !! f.
Proof. apply lookup_fmap. Qed.

(** Looking up a record: nothing changes, and what is found is stored. *)
Lemma with_record_exact stream id found w status code w' :
  with_record stream id found w = ((status, code), w') ->
  (server_of w' = server_of w /\ status = CommandUnknown) \/
  (server_of w' = server_of w /\ status = CommandRejected) \/
  exists e w1, server_of w1 = server_of w /\ (e ∈ entries_of (server_of w) stream) /\ e_id e = id /\
    found (message_of e) w1 = ((status, code), w').
Proof.
  unfold with_record, ok_or. intros (r & w1 & Hdo & H)%io_bind_inv.
  eapply (Result_query (XRangeN stream id id 1) (fun s => range_reply 1 (XRANGE s stream id))) in Hdo;
    [|by intros r1 s' [-> Hr]; split; [apply Hr|]].
  destruct Hdo as [Hs [(e & -> & _)|(l & Hl & ->)]]; [injection H as <- _ <-; by left|].
  right. unfold range_reply in Hl. apply fmap_Some in Hl as (l0 & Hl0%XRANGE_within & ->).
  destruct (take _ l0) as [|e [|]] eqn:E; simpl in H; try (injection H as <- _ <-; by left).
  destruct (String.eqb_spec (e_id e) id) as [He|]; simpl in H; [|injection H as <- _ <-; by left].
  right. exists e, w1. split_and!; try done. apply Hl0.
  assert (e ∈ take (Z.to_nat 1) l0) as Hin by (rewrite E; by left). by apply elem_of_take in Hin as (i & Hi%list_elem_of_lookup_2 & _).
Qed.

(** * Retry *)

Lemma capacity_exact stream replacementID w r w' :
  redisStreamHasCapacity opts stream replacementID w = (r, w') ->
  server_of w' = server_of w /\
  (r = inr true -> replacementID = "" -> (0 < R_maxLength opts)%Z ->
   (Z.of_nat (length (entries_of (server_of w) stream)) < R_maxLength opts)%Z).
Proof.
  unfold redisStreamHasCapacity, ok_or. case_test; [intros [= <- <-]; split; [done|lia]|].
  intros (r0 & w1 & Hdo & H)%io_bind_inv.
  apply (Result_query (XLen stream) (fun s => XLEN s stream)) in Hdo; [|done].
  destruct Hdo as [Hs [(e & -> & _)|(n & Hn%XLEN_law & ->)]]; [by injection H as <- <-|].
  case_test.
  - apply io_bind_inv in H as (r1 & w2 & Hdo & H).
    apply (Result_query (XRangeN stream replacementID replacementID 1)
      (fun s => range_reply 1 (XRANGE s stream replacementID))) in Hdo; [|by intros r2 s' [-> Hr]; split; [apply Hr|]].
    destruct Hdo as [Hs2 Hr]. assert (server_of w' = server_of w) as Hw.
    { destruct Hr as [(e & -> & _)|(l & _ & ->)]; injection H as <- <-; congruence. }
    split; [done|]. intros _ ->. done.
  - injection H as <- <-. split; [done|]. intros [= Hlt]. lia.
Qed.

(** An acknowledgement keeps every other entry of its stream. *)
Lemma acknowledgement_keeps s id o s' e :
  acknowledgement s source group id o s' -> (e ∈ entries_of s source) -> e_id e <> id ->
  e ∈ entries_of s' source.
Proof.
  intros H Hin Hne. destruct H as [(_ & _ & H)|[(_ & _ & _ & -> & _)|[(_ & _ & _ & -> & _)|(_ & -> & _)]]];
    try done.
  - by rewrite (sk_entries _ _ _ (H source)).
  - by apply list_elem_of_filter.
Qed.

Lemma acknowledgement_shrinks s id o s' :
  acknowledgement s source group id o s' ->
  (length (entries_of s' source) <= length (entries_of s source))%nat.
Proof.
  intros [(_ & _ & H)|[(_ & _ & _ & -> & _)|[(_ & _ & _ & -> & _)|(_ & -> & _)]]]; try done.
  - by rewrite (sk_entries _ _ _ (H source)).
  - apply length_filter.
Qed.

(** The source after the acknowledgement of a retry. *)
Record source_settled s s' (failure : bool) (originalID : string) : Prop := {
  ss_keeps e : (e ∈ entries_of s source) -> failure = false \/ e_id e <> originalID ->
    e ∈ entries_of s' source;
  ss_shrinks : (length (entries_of s' source) <= length (entries_of s source))%nat;
  ss_only : only_key s s' source
}.

Lemma ack_settled (failure : bool) originalID w err w' :
  (failure = true -> full_id originalID) ->
  (if failure then acknowledgeRecord opts originalID else mret ErrNil) w = (err, w') ->
  source_settled (server_of w) (server_of w') failure originalID /\
  (err = ErrNil -> failure = true -> originalID ∉ pending_of (server_of w') source group).
Proof.
  intros Hid. destruct failure; [|by intros [= <- <-]].
  intros H. apply acknowledgeRecord_exact in H as [[-> ?]|(o & Ho & Herr)]; [| |by apply Hid].
  - done.
  - split; [|intros E _; by eapply acknowledgement_released, Herr]. split.
    + intros e He [?|?]; [done|]. by eapply acknowledgement_keeps.
    + by eapply acknowledgement_shrinks.
    + by eapply acknowledgement_only.
Qed.

(** What the steps after the append of a retry do. *)
Definition settled_after (failure : bool) (record id originalID status : string) s s' : Prop :=
  (status = CommandAcknowledged \/ status = CommandPartial) /\
  (exists s1, source_settled s s1 failure originalID /\ (s' = s1 \/ removed s1 s' record id)) /\
  (status = CommandAcknowledged ->
     entries_of s' record = without id (entries_of s record) /\
     (failure = true -> originalID ∉ pending_of s' source group)).

Lemma retry_settle_exact failure record id originalID w status code w' :
  record <> source -> full_id id -> (failure = true -> full_id originalID) ->
  retry_settle opts failure record id originalID w = ((status, code), w') ->
  settled_after failure record id originalID status (server_of w) (server_of w').
Proof.
  intros Hne Hid Hfull. unfold retry_settle. intros (e & w1 & Hack & H)%io_bind_inv.
  apply ack_settled in Hack as [Hs Hp]; [|done].
  destruct (is_nil e) eqn:En; simpl in H.
  2: { injection H as <- _ <-. split; [by right|]. split; [by exists (server_of w1); split; [|left]|done]. }
  assert (e = ErrNil) as -> by (by destruct e). specialize (Hp eq_refl).
  unfold ok_or in H. apply io_bind_inv in H as (r & w2 & Hdo & H).
  apply XDel_removed in Hdo; [|done].
  destruct Hdo as [[(e & -> & _) Hr]|(n & -> & Hr & _)].
  - injection H as <- _ <-. split; [by right|]. split; [by exists (server_of w1)|done].
  - case_test; injection H as <- _ <-; (split; [auto|]);
      (split; [by exists (server_of w1); split; [|right]|]); [done|].
    intros _. destruct Hr as (He & Hpend & [_ _ _ Hk]). split.
    + by rewrite He, (sk_entries _ _ _ (ss_only _ _ _ _ Hs record Hne)).
    + intros Hf. rewrite (sk_pending _ _ _ (Hk source (not_eq_sym Hne))). auto.
Qed.

(** A job was enqueued again: the new entry is there, and when the answer is an
    acknowledgement the record is gone, the failed delivery is released and the queue is
    within its limit. *)
Record enqueued_again (failure : bool) (record id originalID status : string)
    (values : gmap string any) s s' : Prop := {
  ea_new : new_entry s s' source values;
  ea_status : status = CommandAcknowledged \/ status = CommandPartial \/ status = CommandFailed;
  ea_record : status = CommandAcknowledged -> entries_of s' record = without id (entries_of s record);
  ea_released : status = CommandAcknowledged -> failure = true -> originalID ∉ pending_of s' source group;
  ea_limit : (0 < R_maxLength opts)%Z ->
    (Z.of_nat (length (entries_of s' source)) <= R_maxLength opts)%Z
}.

Lemma settled_enqueued failure record id originalID status values new s s1 s' :
  record <> source -> (failure = true -> originalID ∈ pending_of s source group) ->
  ((0 < R_maxLength opts)%Z -> (Z.of_nat (length (entries_of s source)) < R_maxLength opts)%Z) ->
  appended_as s s1 source values new -> settled_after failure record id originalID status s1 s' ->
  enqueued_again failure record id originalID status values s s'.
Proof.
  intros Hne Hpend Hcap (fields & Hf & (_ & Hfresh & Hnp & He & _ & [_ _ _ Hk])%XADD_law)
    (Hst & (s2 & [Hkeep Hlen _] & Hs') & Hack).
  assert (same_key source s2 s') as Hsrc.
  { destruct Hs' as [->|(_ & _ & [_ _ _ Hk'])]; [done|by apply Hk']. }
  split.
  - exists new, fields. split_and!; [done..|]. rewrite (sk_entries _ _ _ Hsrc). apply Hkeep.
    + rewrite He. apply elem_of_app. right. by left.
    + destruct failure; [right|by left]. simpl. intros ->. by apply (Hnp group), Hpend.
  - tauto.
  - intros E. rewrite (proj1 (Hack E)). f_equal. apply (sk_entries _ _ _ (Hk _ Hne)).
  - intros E. apply (proj2 (Hack E)).
  - intros Hp. specialize (Hcap Hp). rewrite (sk_entries _ _ _ Hsrc).
    rewrite He, length_app in Hlen. simpl in Hlen. lia.
Qed.

Lemma retry_enqueue_exact failure record id originalID values w status code w' :
  record <> source -> full_id id ->
  (failure = true -> full_id originalID /\ originalID ∈ pending_of (server_of w) source group) ->
  retry_enqueue opts failure record id originalID values w = ((status, code), w') ->
  (server_of w' = server_of w /\ status <> CommandAcknowledged /\ status <> CommandPartial) \/
  enqueued_again failure record id originalID status values (server_of w) (server_of w').
Proof.
  intros Hne Hid Hfail. unfold retry_enqueue, ok_or. intros (r & w1 & Hc & H)%io_bind_inv.
  apply capacity_exact in Hc as [Hs Hcap].
  destruct r as [e|[]]; simpl in H; try (injection H as <- _ <-; by left).
  specialize (Hcap eq_refl eq_refl). apply io_bind_inv in H as (r & w2 & Hdo & H).
  apply XAdd_appended in Hdo. rewrite Hs in Hdo.
  destruct Hdo as [[(e & -> & _) Hor]|(new & -> & Ha)].
  - injection H as <- _ <-. destruct Hor as [Heq|(new & Ha)]; [left; by rewrite Heq|right].
    pose proof (appended_new _ _ _ _ _ Ha). destruct Ha as (fields & _ & (_ & _ & _ & He & _)%XADD_law).
    split; try done; [tauto|]. intros Hp. specialize (Hcap Hp). rewrite He, length_app. simpl. lia.
  - right. apply retry_settle_exact in H; [|done|done|intros E; by apply Hfail].
    eapply settled_enqueued; try done. intros E. by apply Hfail.
Qed.

Lemma record_field_map f l found (m : gmap string string) :
  m !! f = found -> record_field f l found = foldl (fun m kv => <[kv.1 := kv.2]> m) m l !! f.
Proof.
  revert found m. induction l as [|[g v] l IH]; intros found m Hm; simpl; [done|].
  apply IH. destruct (String.eqb_spec g f) as [->|].
  - apply lookup_insert_eq.
  - by rewrite lookup_insert_ne.
Qed.

(** The string of a field, as the worker reads it. *)
Definition field_of (e : entry) (f : string) : option string := fields_map (e_fields e) !! f.

Lemma redisRecordString_field e f : redisRecordString (Values (message_of e) !! f) = field_of e f.
Proof. rewrite lookup_message. unfold field_of. by destruct (fields_map (e_fields e) !! f). Qed.

Lemma originals_field s record e originalID :
  originals s record -> (e ∈ entries_of s record) -> field_of e "original_id" = Some originalID ->
  full_id originalID.
Proof. intros Ho He Hf. apply (Ho e); [done|]. by rewrite (record_field_map _ _ _ ∅). Qed.

Lemma retry_values_body failure body message values :
  retry_values failure body message = Some values -> values !! "body" = Some (AString body).
Proof.
  unfold retry_values. destruct failure; [by intros [= <-]|].
  intros ([[o p] g] & _ & [= <-])%bind_Some. done.
Qed.

(** A record is retried: its job is enqueued with its body. *)
Definition record_retried (failure : bool) (record id status : string) s s' : Prop :=
  exists e body originalID values,
    (e ∈ entries_of s record) /\ e_id e = id /\ field_of e "body" = Some body /\
    field_of e "original_id" = Some originalID /\
    retry_values failure body (message_of e) = Some values /\ values !! "body" = Some (AString body) /\
    (failure = true -> originalID ∈ pending_of s source group) /\
    enqueued_again failure record id originalID status values s s'.

(** Nothing happened, and the answer does not say otherwise. *)
Definition nothing_done (status : string) s s' : Prop :=
  s' = s /\ status <> CommandAcknowledged /\ status <> CommandPartial.

Lemma retry_accepted_exact failure record id originalID body e w status code w' :
  record <> source -> full_id id -> (e ∈ entries_of (server_of w) record) -> e_id e = id ->
  field_of e "body" = Some body -> field_of e "original_id" = Some originalID ->
  (failure = true -> full_id originalID /\ originalID ∈ pending_of (server_of w) source group) ->
  retry_accepted opts failure record id originalID body (message_of e) w = ((status, code), w') ->
  nothing_done status (server_of w) (server_of w') \/
  record_retried failure record id status (server_of w) (server_of w').
Proof.
  intros Hne Hid He Hei Hb Ho Hf. unfold retry_accepted.
  destruct (retry_values failure body (message_of e)) as [values|] eqn:Ev;
    [|intros [= <- _ <-]; by left].
  intros [?|H]%retry_enqueue_exact; try done; [by left|right].
  exists e, body, originalID, values. split_and!; try done.
  - by eapply retry_values_body.
  - intros E. by apply Hf.
Qed.

Lemma retry_found_exact failure record id e w status code w' :
  record <> source -> full_id id -> originals (server_of w) record ->
  (e ∈ entries_of (server_of w) record) -> e_id e = id ->
  retry_found opts failure record id (message_of e) w = ((status, code), w') ->
  nothing_done status (server_of w) (server_of w') \/
  record_retried failure record id status (server_of w) (server_of w').
Proof.
  intros Hne Hid Hor He Hei. unfold retry_found. rewrite !redisRecordString_field.
  destruct (field_of e "body") as [body|] eqn:Hb; [|intros [= <- _ <-]; by left].
  destruct (field_of e "original_id") as [originalID|] eqn:Ho; [|intros [= <- _ <-]; by left].
  pose proof (originals_field _ _ _ _ Hor He Ho) as Hfull.
  case_test; [intros [= <- _ <-]; by left|].
  destruct failure; [|intros H; by eapply retry_accepted_exact].
  unfold ok_or. intros (r & w1 & Hdo & H)%io_bind_inv.
  apply (Result_query (XPending source group originalID originalID 1)
    (fun s => pending_reply (XPENDING_EXT s source group originalID))) in Hdo; [|by intros r1 s' [-> Hr]; split; [apply Hr|]].
  destruct Hdo as [Hs [(err & -> & _)|(l & Hl & ->)]]; [injection H as <- _ <-; by left|].
  unfold pending_reply in Hl. apply fmap_Some in Hl as (l0 & Hl0%XPENDING_EXT_law & ->); [|done].
  case_decide as Hp; [|subst l0; injection H as <- _ <-; by left].
  destruct Hl0 as (n & ->). simpl in H. rewrite String.eqb_refl in H. simpl in H.
  rewrite <-Hs in *. by eapply retry_accepted_exact.
Qed.

(** The stream a retry takes its record from. *)
Definition retry_stream (kind : string) : string :=
  if kind == TargetFailure then R_failureStream opts else R_deadLetterStream opts.

Lemma retry_record_exact kind id w status code w' :
  redis_policy opts -> identified (server_of w) (retry_stream kind) ->
  originals (server_of w) (retry_stream kind) ->
  retryRedisRecord opts kind id w = ((status, code), w') ->
  nothing_done status (server_of w) (server_of w') \/
  record_retried (kind == TargetFailure) (retry_stream kind) id status (server_of w) (server_of w').
Proof.
  intros Hpol Hids Hor. unfold retryRedisRecord. fold (retry_stream kind).
  intros [[Hs ->]|[[Hs ->]|(e & w1 & Hs & He & Hei & H)]]%with_record_exact;
    [left; split; done|left; split; done|].
  rewrite <-Hs in *. apply retry_found_exact in H; try done.
  - destruct (streams_apart opts Hpol) as (? & ? & ?). unfold retry_stream. by case_test; apply not_eq_sym.
  - rewrite <-Hei. by apply (proj1 (Forall_forall _ _) Hids).
Qed.

(** C9: A retry never loses a job and never claims more than it did, whatever commands are
    refused, raise, or lose their answers. Either nothing changed, and the answer is
    neither acknowledged nor partial; or the job of the stored record is enqueued again
    with its body (a dead letter with its next lineage), within the limit of the queue. An
    acknowledged retry has also removed the record and released the failed delivery. *)
Theorem redis_retry_keeps_work kind id w status code w' :
  redis_policy opts -> identified (server_of w) (retry_stream kind) ->
  originals (server_of w) (retry_stream kind) ->
  retryRedisRecord opts kind id w = ((status, code), w') ->
  nothing_done status (server_of w) (server_of w') \/
  record_retried (kind == TargetFailure) (retry_stream kind) id status (server_of w) (server_of w').
Proof. apply retry_record_exact. Qed.

(** * Bulk retry *)

(** The records [ids] are retried one after the other, each of them completely. *)
Inductive all_retried (kind : string) : list string -> St -> St -> Prop :=
| retried_none s : all_retried kind [] s s
| retried_next id ids s s1 s2 :
    record_retried (kind == TargetFailure) (retry_stream kind) id CommandAcknowledged s s1 ->
    all_retried kind ids s1 s2 -> all_retried kind (id :: ids) s s2.

(** Removing the record keeps the stream's identifiers and originals as they are. *)
Lemma retried_invariant kind id s s' :
  identified s (retry_stream kind) -> originals s (retry_stream kind) ->
  record_retried (kind == TargetFailure) (retry_stream kind) id CommandAcknowledged s s' ->
  identified s' (retry_stream kind) /\ originals s' (retry_stream kind).
Proof.
  intros Hids Hor (e & body & originalID & values & _ & _ & _ & _ & _ & _ & _ & Hea).
  pose proof (ea_record _ _ _ _ _ _ _ _ Hea eq_refl) as He. split.
  - unfold identified in *. rewrite He, Forall_forall in *. intros e1 [_ ?]%list_elem_of_filter. auto.
  - intros e1 o1. rewrite He. intros [_ Hin]%list_elem_of_filter. by apply Hor.
Qed.

(** How far a bulk retry got: [n] records were retried, ending in [s1]. *)
Definition bulk_progress (kind : string) (index : nat) (messages : list XMessage) (status : string)
    s s' : Prop :=
  exists n s1, all_retried kind (X_ID <$> take n messages) s s1 /\
    ((n = length messages /\ status = CommandAcknowledged /\ s' = s1) \/
     (exists message answer, messages !! n = Some message /\ status <> CommandAcknowledged /\
        answer <> CommandAcknowledged /\
        (nothing_done answer s1 s' \/
         record_retried (kind == TargetFailure) (retry_stream kind) (X_ID message) answer s1 s') /\
        (status = if (index + n =? 0)%nat then answer else CommandPartial))).

Lemma bulk_loop_exact kind index messages w status code w' :
  redis_policy opts -> identified (server_of w) (retry_stream kind) ->
  originals (server_of w) (retry_stream kind) ->
  bulk_loop opts kind index messages w = ((status, code), w') ->
  bulk_progress kind index messages status (server_of w) (server_of w').
Proof.
  intros Hpol. revert index w. induction messages as [|message messages IH]; intros index w Hids Hor H.
  { injection H as <- _ <-. exists 0%nat, (server_of w). split; [constructor|by left]. }
  cbn [bulk_loop] in H. apply io_bind_inv in H as ([st c] & w1 & Hr & H).
  apply retry_record_exact in Hr as Hcases; try done.
  destruct (String.eqb_spec st CommandAcknowledged) as [->|Hst].
  - destruct Hcases as [(_ & ? & _)|Hret]; [done|].
    destruct (retried_invariant _ _ _ _ Hids Hor Hret) as [Hids1 Hor1].
    destruct (IH _ _ Hids1 Hor1 H) as (n & s1 & Hall & Hend). exists (S n), s1.
    split; [by econstructor|]. destruct Hend as [(-> & ? & ?)|(m & a & ? & ? & ? & ? & Hs)]; [by left|].
    right. exists m, a. split_and!; try done. rewrite Hs. by replace (index + S n)%nat with (S index + n)%nat by lia.
  - exists 0%nat, (server_of w). split; [constructor|]. right. exists message, st. simpl.
    rewrite Nat.add_0_r. destruct (index =? 0)%nat; injection H as <- _ <-; split_and!; done.
Qed.

(** What a bulk retry has done on each of its answers: its records are retried in order
    up to the first that does not succeed. Acknowledged means that every one was retried
    completely; once one was, a later failure is reported as partial. *)
Theorem redis_bulk_exact command w status code w' :
  let kind := Kind (Command_Target command) in
  redis_policy opts -> identified (server_of w) (retry_stream kind) ->
  originals (server_of w) (retry_stream kind) ->
  bulkRetryRedisRecords opts command w = ((status, code), w') ->
  (server_of w' = server_of w /\ status = CommandFailed) \/
  exists messages, bulk_progress kind 0 messages status (server_of w) (server_of w').
Proof.
  intros kind Hpol Hids Hor. unfold bulkRetryRedisRecords, ok_or. fold kind.
  intros (r & w1 & Hdo & H)%io_bind_inv.
  assert (server_of w1 = server_of w) as Hs.
  { by destruct (Result_law _ _ _ _ Hdo) as [[_ ?]|(r0 & [? _] & _)]. }
  destruct r as [err|messages]; [injection H as <- _ <-; by left|]. right. exists messages.
  rewrite <-Hs in *. by eapply bulk_loop_exact.
Qed.

(** * Replay *)

(** Storing a value in a hash, always or when its field is absent. *)
Definition hash_stored s s' (key field value : string) : Prop :=
  hash_of s' key = <[field := value]> (hash_of s key) /\ only_key s s' key.

Lemma HSet_stored key field value w r w' :
  Result (HSet key field value) w = (r, w') ->
  (refused r /\ (server_of w' = server_of w \/ hash_stored (server_of w) (server_of w') key field value)) \/
  (exists n, r = inr n /\ hash_stored (server_of w) (server_of w') key field value).
Proof.
  intros Hdo. destruct (Result_law _ _ _ _ Hdo) as [[? ->]|(r0 & Hr & Hor)]; [by left; split; [|left]|].
  simpl in Hr. destruct (HSET (server_of w) key field value) as [s1|] eqn:E.
  - destruct Hr as [Hs [n ->]]. subst s1. apply HSET_law in E.
    destruct Hor as [->|?]; [right; eauto|left; split; [done|by right]].
  - destruct Hr as [Hs Hr0]. left. split; [by destruct Hor as [->|?]|by left].
Qed.

Lemma HSetNX_stored key field value w r w' :
  Result (HSetNX key field value) w = (r, w') ->
  (refused r /\ (same_state (server_of w) (server_of w') \/
                 hash_stored (server_of w) (server_of w') key field value)) \/
  (r = inr true /\ hash_of (server_of w) key !! field = None /\
   hash_stored (server_of w) (server_of w') key field value) \/
  (r = inr false /\ is_Some (hash_of (server_of w) key !! field) /\
   same_state (server_of w) (server_of w')).
Proof.
  intros Hdo.
  apply (Result_outcome (HSetNX key field value) (call (fun s => HSETNX s key field value))
    (fun o s' => match o with
       | Some true => hash_of (server_of w) key !! field = None /\ hash_stored (server_of w) s' key field value
       | Some false => is_Some (hash_of (server_of w) key !! field) /\ same_state (server_of w) s'
       | None => s' = server_of w end)) in Hdo; [|done|].
  2: { lua_enter; [|done]. intros b s' H%HSETNX_law. destruct b; [|done]. destruct H as (? & ? & ?). done. }
  destruct Hdo as [[? ->]|(o & Hq & [?|(b & -> & ->)])]; [by left; split; [|left]| |].
  - left. split; [done|]. destruct o as [[]|]; [right; apply Hq|left; apply Hq|left; by rewrite Hq].
  - right. destruct b; [by left|by right].
Qed.

Lemma HGet_exact key field w r w' :
  Result (HGet key field) w = (r, w') ->
  server_of w' = server_of w /\
  match r with
  | inr v => hash_of (server_of w) key !! field = Some v
  | inl err => if Is err redis_Nil then hash_of (server_of w) key !! field = None else True
  end.
Proof.
  intros Hdo. destruct (Result_law _ _ _ _ Hdo) as [[(err & -> & _ & E & _) ->]|(r0 & [Hs Hr] & Hor)];
    [by rewrite E|].
  split; [done|]. destruct Hor as [->|(err & -> & _ & E & _)]; [|by rewrite E].
  destruct (HGET (server_of w) key field) as [v|] eqn:Eg; [|by destruct Hr as (err & -> & _ & -> & _)].
  apply HGET_law in Eg. destruct v as [v|]; [by subst r0|]. by destruct Hr as (err & -> & ->).
Qed.

(** What registering the replay [new] does, by its answer. *)
Inductive registration (policy destination registry replayKey prior new : string) s s' : string -> Prop :=
| reg_stored :
    (policy = ReplayRejectDuplicate -> hash_of s registry !! replayKey = None) ->
    (policy <> ReplayRejectDuplicate -> prior = "") ->
    hash_stored s s' registry replayKey new ->
    registration policy destination registry replayKey prior new s s' CommandAcknowledged
| reg_replaced s1 :
    policy <> ReplayRejectDuplicate -> hash_stored s s1 registry replayKey new ->
    removed s1 s' destination prior ->
    registration policy destination registry replayKey prior new s s' CommandAcknowledged
| reg_withdrawn s1 :
    policy = ReplayRejectDuplicate -> is_Some (hash_of s registry !! replayKey) -> same_state s s1 ->
    removed s1 s' destination new ->
    registration policy destination registry replayKey prior new s s' CommandRejected
| reg_unknown :
    same_key destination s s' -> only_key s s' registry ->
    registration policy destination registry replayKey prior new s s' CommandPartial
| reg_half_replaced s1 :
    policy <> ReplayRejectDuplicate -> hash_stored s s1 registry replayKey new ->
    removed s1 s' destination prior ->
    registration policy destination registry replayKey prior new s s' CommandPartial
| reg_half_withdrawn s1 :
    policy = ReplayRejectDuplicate -> is_Some (hash_of s registry !! replayKey) -> same_state s s1 ->
    removed s1 s' destination new ->
    registration policy destination registry replayKey prior new s s' CommandPartial.

Lemma hash_stored_unknown policy destination registry replayKey prior new s s' :
  registry <> destination -> s' = s \/ hash_stored s s' registry replayKey new ->
  registration policy destination registry replayKey prior new s s' CommandPartial.
Proof.
  intros Hne [->|[_ Hk]]; apply reg_unknown; try done.
  by apply Hk, not_eq_sym.
Qed.

Lemma register_duplicate_exact policy destination registry replayKey prior new w status code w' :
  registry <> destination -> full_id new -> policy = ReplayRejectDuplicate ->
  replay_register policy destination registry replayKey prior new w = ((status, code), w') ->
  registration policy destination registry replayKey prior new (server_of w) (server_of w') status.
Proof.
  intros Hne Hid Hp. unfold replay_register, ok_or. rewrite Hp, String.eqb_refl, <-Hp.
  intros (r & w1 & Hdo & H)%io_bind_inv.
  apply HSetNX_stored in Hdo as [[(e & -> & _) Hs]|[(-> & Hnone & Hs)|(-> & Hsome & Hsame)]].
  - injection H as <- _ <-. destruct Hs as [Hs|Hs]; [|by apply hash_stored_unknown; [|right]].
    apply reg_unknown; [apply Hs|intros k _; apply Hs].
  - injection H as <- _ <-. by apply reg_stored.
  - simpl in H. apply io_bind_inv in H as (r & w2 & Hdo & H).
    apply XDel_removed in Hdo as [[(e & -> & _) Hor]|(n & -> & Hr & _)]; [| |done].
    + injection H as <- _ <-. destruct Hor as [->|Hr]; [|by eapply reg_half_withdrawn].
      apply reg_unknown; [apply Hsame|intros k _; apply Hsame].
    + case_test; injection H as <- _ <-; [by eapply reg_half_withdrawn|by eapply reg_withdrawn].
Qed.

Lemma register_replace_exact policy destination registry replayKey prior new w status code w' :
  registry <> destination -> prior = "" \/ full_id prior -> policy <> ReplayRejectDuplicate ->
  replay_register policy destination registry replayKey prior new w = ((status, code), w') ->
  registration policy destination registry replayKey prior new (server_of w) (server_of w') status.
Proof.
  intros Hne Hid Hp. unfold replay_register, ok_or. rewrite (proj2 (String.eqb_neq _ _) Hp).
  intros (r & w1 & Hdo & H)%io_bind_inv.
  apply HSet_stored in Hdo as [[(e & -> & _) Hs]|(n & -> & Hs)].
  { injection H as <- _ <-. by apply hash_stored_unknown. }
  case_test; [|injection H as <- _ <-; apply reg_stored; try done].
  2: { intros _. by apply negb_false_iff, String.eqb_eq in E. }
  apply negb_true_iff, String.eqb_neq in E. destruct Hid as [?|Hid]; [done|].
  apply io_bind_inv in H as (r & w2 & Hdo & H).
  apply XDel_removed in Hdo as [[(e & -> & _) Hor]|(m & -> & Hr & _)]; [| |done].
  - injection H as <- _ <-. destruct Hor as [->|Hr]; [by apply hash_stored_unknown; [|right]|by eapply reg_half_replaced].
  - case_test; injection H as <- _ <-; [by eapply reg_half_replaced|by eapply reg_replaced].
Qed.

(** An identifier that the stream has issued before: it is not issued again. *)
Definition used s (stream id : string) : Prop :=
  forall fields new s', XADD s stream fields = Some (new, s') -> new <> id.

(** The registry of a destination holds identifiers that the destination issued. *)
Definition registered_ids s (destination registry : string) : Prop :=
  map_Forall (fun _ id => full_id id /\ used s destination id) (hash_of s registry).

Lemma removed_keeps s s' stream id e :
  removed s s' stream id -> (e ∈ entries_of s stream) -> e_id e <> id -> e ∈ entries_of s' stream.
Proof. intros (-> & _) He Hne. by apply list_elem_of_filter. Qed.

(** Registration leaves every key but the destination and the registry alone. *)
Lemma registration_only policy destination registry replayKey prior new s s' status k :
  registration policy destination registry replayKey prior new s s' status ->
  k <> destination -> k <> registry -> same_key k s s'.
Proof.
  intros H Hd Hr. destruct H as [_ _ [_ Hk]|s1 _ [_ Hk] (_ & _ & [_ _ _ Hk'])|s1 _ _ Hs (_ & _ & [_ _ _ Hk'])
    |_ Hk|s1 _ [_ Hk] (_ & _ & [_ _ _ Hk'])|s1 _ _ Hs (_ & _ & [_ _ _ Hk'])]; auto;
    (transitivity s1; [|by apply Hk']); auto.
Qed.

(** A registration without an earlier duplicate keeps the replay. *)
Lemma registration_keeps policy destination registry replayKey prior new s s' status e :
  registry <> destination ->
  (policy = ReplayRejectDuplicate -> hash_of s registry !! replayKey = None) ->
  registration policy destination registry replayKey prior new s s' status ->
  (e ∈ entries_of s destination) -> e_id e <> prior ->
  (e ∈ entries_of s' destination) /\ status <> CommandRejected.
Proof.
  intros Hne Hnone H He Hp.
  assert (forall s1, hash_stored s s1 registry replayKey new -> e ∈ entries_of s1 destination) as Hst.
  { intros s1 [_ Hk]. by rewrite (sk_entries _ _ _ (Hk _ (not_eq_sym Hne))). }
  destruct H as [_ _ Hs|s1 _ Hs Hr|s1 Hpol [v Hv] _ _|Hs _|s1 _ Hs Hr|s1 Hpol [v Hv] _ _];
    try (by rewrite Hnone in Hv); (split; [|done]).
  - by apply Hst.
  - eapply removed_keeps; eauto.
  - by rewrite (sk_entries _ _ _ Hs).
  - eapply removed_keeps; eauto.
Qed.

(** What the steps of a replay after its checks do. *)
Definition replay_outcome (policy destination registry replayKey prior status : string)
    (values : gmap string any) s s' : Prop :=
  exists new s1, appended_as s s1 destination values new /\ new_entry s s' destination values /\
    (status = CommandFailed /\ s' = s1 \/
     status <> CommandRejected /\
     registration policy destination registry replayKey prior new s1 s' status).

Lemma replay_enqueue_exact policy destination registry replayKey prior values w status code w' :
  registry <> destination -> prior = "" \/ full_id prior /\ used (server_of w) destination prior ->
  (policy = ReplayRejectDuplicate -> hash_of (server_of w) registry !! replayKey = None) ->
  replay_enqueue opts policy destination registry replayKey prior values w = ((status, code), w') ->
  nothing_done status (server_of w) (server_of w') \/
  replay_outcome policy destination registry replayKey prior status values (server_of w) (server_of w').
Proof.
  intros Hne Hprior Hnone. unfold replay_enqueue, ok_or. intros (r & w1 & Hc & H)%io_bind_inv.
  apply capacity_exact in Hc as [Hs _].
  destruct r as [e|[]]; simpl in H; try (injection H as <- _ <-; by left).
  apply io_bind_inv in H as (r & w2 & Hdo & H). apply XAdd_appended in Hdo. rewrite Hs in Hdo.
  destruct Hdo as [[(e & -> & _) Hor]|(new & -> & Ha)].
  - injection H as <- _ <-. destruct Hor as [Heq|(new & Ha)]; [left; by rewrite Heq|right].
    exists new, (server_of w2). split_and!; [done|by eapply appended_new|by left].
  - right. pose proof Ha as (fields & Hf & Hadd).
    pose proof (XADD_law _ _ _ _ _ Hadd) as (Hid & Hfresh & _ & He & _ & [_ _ _ Hk]).
    assert (registration policy destination registry replayKey prior new (server_of w2) (server_of w') status)
      as Hreg.
    { destruct (decide (policy = ReplayRejectDuplicate)).
      - by eapply register_duplicate_exact.
      - eapply register_replace_exact; try done. destruct Hprior as [?|[? _]]; auto. }
    assert (mkStreamEntry new fields ∈ entries_of (server_of w2) destination) as Hin.
    { rewrite He. apply elem_of_app. right. by left. }
    destruct (registration_keeps _ _ _ _ _ _ _ _ _ _ Hne
      (fun E => eq_trans (f_equal (.!! replayKey) (sk_hash _ _ _ (Hk _ Hne))) (Hnone E)) Hreg Hin) as [Hin' Hst].
    { simpl. destruct Hprior as [->|[_ Hu]]; [|by eapply Hu]. intros ->. destruct Hid as (? & ? & E).
      revert E. by destruct (pretty _). }
    exists new, (server_of w2). split_and!; [done|by exists new, fields|by right].
Qed.

(** The registry key of a record, and the registry of a destination. *)
Definition replay_key (record id : string) : string := EncodeToString (record +:+ String zero id).
Definition replay_registry (destination : string) : string := destination +:+ ":queue:replay-index".

Lemma registry_apart destination : replay_registry destination <> destination.
Proof.
  unfold replay_registry. induction destination as [|c destination IH]; [done|].
  intros E. apply IH. by injection E.
Qed.

Lemma prior_replay_exact registry replayKey w r w' :
  prior_replay registry replayKey w = (r, w') ->
  server_of w' = server_of w /\
  forall prior, r = inr prior ->
    hash_of (server_of w) registry !! replayKey = Some prior \/
    (prior = "" /\ hash_of (server_of w) registry !! replayKey = None).
Proof.
  unfold prior_replay. intros (r0 & w1 & Hdo & [= <- <-])%io_bind_inv.
  apply HGet_exact in Hdo as [Hs Hr]. split; [done|]. intros prior E.
  destruct r0 as [err|v]; [|injection E as ->; by left].
  destruct (Is err redis_Nil); [|done]. injection E as <-. by right.
Qed.

Lemma full_nonempty id : full_id id -> id <> "".
Proof. intros (ms & seq & ->) E. revert E. by destruct (pretty ms). Qed.

(** A record is replayed: its job is enqueued with its body and its next lineage. *)
Definition record_replayed (policy destination record id status : string) s s' : Prop :=
  exists e body original prior generation replaced,
    (e ∈ entries_of s record) /\ e_id e = id /\ field_of e "body" = Some body /\
    redisNextReplayLineage (message_of e) = Some (original, prior, generation) /\
    replay_outcome policy destination (replay_registry destination) (replay_key record id) replaced
      status (lineage_values body original prior generation) s s'.

Lemma replay_found_exact policy destination record id e w status code w' :
  registered_ids (server_of w) destination (replay_registry destination) ->
  (e ∈ entries_of (server_of w) record) -> e_id e = id ->
  replay_found opts policy destination record id (message_of e) w = ((status, code), w') ->
  nothing_done status (server_of w) (server_of w') \/
  record_replayed policy destination record id status (server_of w) (server_of w').
Proof.
  intros Hids He Hei. unfold replay_found. rewrite redisRecordString_field.
  destruct (field_of e "body") as [body|] eqn:Hb; [|intros [= <- _ <-]; by left].
  destruct (redisNextReplayLineage (message_of e)) as [[[o p] g]|] eqn:El; [|intros [= <- _ <-]; by left].
  cbv zeta. fold (replay_key record id) (replay_registry destination). unfold ok_or.
  intros (r & w1 & Hdo & H)%io_bind_inv. apply prior_replay_exact in Hdo as [Hs Hprior].
  destruct r as [err|replaced]; [injection H as <- _ <-; by left|]. specialize (Hprior _ eq_refl).
  assert (replaced = "" \/ full_id replaced /\ used (server_of w1) destination replaced) as Hrep.
  { destruct Hprior as [Hp|[-> _]]; [right|by left]. rewrite Hs. by apply (Hids _ _ Hp). }
  assert (replaced = "" -> hash_of (server_of w1) (replay_registry destination) !! replay_key record id = None)
    as Hnone.
  { intros ->. rewrite Hs. destruct Hprior as [Hp|[_ ?]]; [|done].
    destruct (Hids _ _ Hp) as [Hf _]. by apply full_nonempty in Hf. }
  assert (forall w2, server_of w2 = server_of w1 -> (policy = ReplayRejectDuplicate -> replaced = "") ->
    replay_enqueue opts policy destination (replay_registry destination) (replay_key record id) replaced
      (lineage_values body o p g) w2 = ((status, code), w') ->
    nothing_done status (server_of w) (server_of w') \/
    record_replayed policy destination record id status (server_of w) (server_of w')) as Henq.
  { intros w2 Hs2 Hpol Hq. rewrite <-Hs, <-Hs2 in *.
    apply replay_enqueue_exact in Hq as [?|Hq]; [by left| |apply registry_apart|done|auto].
    right. by exists e, body, o, p, g, replaced. }
  destruct (String.eqb_spec replaced "") as [Hr|Hr]; simpl in H.
  - apply io_bind_inv in H as (r & w2 & Hdo & H).
    apply (Result_query (HLen _) (fun s => HLEN s (replay_registry destination))) in Hdo; [|done].
    destruct Hdo as [Hs2 Hr2]. destruct Hr2 as [(err & -> & _)|(n & _ & ->)].
    + injection H as <- _ <-. left. split; [congruence|done].
    + case_test; [injection H as <- _ <-; left; split; [congruence|done]|]. by apply (Henq w2).
  - case_test; [injection H as <- _ <-; by left|]. apply (Henq w1); [done| |done].
    intros ->. by rewrite String.eqb_refl in E.
Qed.

(** A replay never loses a job and never claims more than it did, whatever commands
    are refused, raise, or lose their answers. The stored record stays as it is. Either
    nothing changed, and the answer is neither acknowledged nor partial; or the job of the
    record is enqueued in an allowed destination with its body and its next lineage, and
    the registry follows: an acknowledged replay is registered, under the rejecting policy
    as the first of its record, under the replacing policy with its predecessor removed
    only after it was stored. *)
Theorem redis_replay_exact command r w status code w' :
  Replay command = Some r ->
  let record := recordStream opts (Kind (Command_Target command)) in
  redis_policy opts -> replay_registry (Destination r) <> record ->
  registered_ids (server_of w) (Destination r) (replay_registry (Destination r)) ->
  replayRedisRecord opts command w = ((status, code), w') ->
  same_key record (server_of w) (server_of w') /\
  (nothing_done status (server_of w) (server_of w') \/
   (Destination r ∈ destinations opts) /\
   record_replayed (IdempotencyPolicy r) (Destination r) record (Name (Command_Target command)) status
     (server_of w) (server_of w')).
Proof.
  intros Hr record Hpol Hne Hids. unfold replayRedisRecord. rewrite Hr. cbv beta iota zeta.
  case_test; [intros [= <- _ <-]; split; [done|by left]|].
  clear E. case_bool_decide as Hd; cbn [negb]; [|intros [= <- _ <-]; split; [done|by left]].
  fold record. intros [[Hs ->]|[[Hs ->]|(e & w1 & Hs & He & Hei & H)]]%with_record_exact;
    [rewrite Hs; split; [done|by left]..|].
  rewrite <-Hs in *. apply replay_found_exact in H as [[Heq ?]|H]; try done.
  { split; [by rewrite Heq|by left]. }
  split; [|by right]. destruct H as (e1 & body & o & p & g & x & _ & _ & _ & _ & new & s1 & Ha & _ & Hend).
  assert (record <> Destination r) as Hrd.
  { destruct Hpol as [_ _ _ _ _ _ [Hf Hdl]]. unfold record, recordStream. case_test; intros E1; rewrite <-E1 in Hd; auto. }
  destruct Ha as (fields & _ & (_ & _ & _ & _ & _ & [_ _ _ Hk])%XADD_law).
  destruct Hend as [[_ ->]|[_ Hreg]]; [by apply Hk|].
  transitivity s1; [by apply Hk|]. eapply registration_only; [exact Hreg|done|by apply not_eq_sym].
Qed.
End mutations.

(** * Witnesses *)

Module SampleMutations.

Definition opts : redisOptions :=
  newRedisOptions [WithStreamName "q"; WithGroup "g"; WithDeadLetter "dead" 5; WithFailureStream "failed";
                   WithReplayDestinations ["again"]].

Lemma sample_policy : redis_policy opts.
Proof. apply validateDeadLetter_policy. vm_compute. reflexivity. Qed.

Lemma identified_record record (ms : N) :
  Reference.entries_at Sample.state record = [Sample.record_entry (pretty ms +:+ "-" +:+ pretty 0%N)] ->
  identified Sample.state record.
Proof.
  intros E. unfold identified. simpl. rewrite E. constructor; [apply (Sample.id_full ms 0)|constructor].
Qed.

Definition command : Command :=
  mkCommand "a" "key-1" "operator" "incident" (mkVersion 1 0) CommandReplay
    (mkTarget TargetDeadLetter "7-0") (mkTime 100 None 0) (mkTime 200 None 0) true
    None (Some (mkReplay "again" ReplayReplaceDuplicate)).

(** The answer of the fifth command is lost. *)
Definition world : Lossy.world :=
  Lossy.mkWorld Sample.state
    [Lossy.Delivered; Lossy.Delivered; Lossy.Delivered; Lossy.Delivered; Lossy.Unanswered "timeout"].

End SampleMutations.

(** A failure is retried: the job is enqueued, its delivery acknowledged, its record
    deleted. *)
Lemma redis_retry_keeps_work_witness :
  let r := retryRedisRecord SampleMutations.opts TargetFailure "9-0" (Lossy.mkWorld Sample.state []) in
  r.1 = (CommandAcknowledged, "") /\
  record_retried SampleMutations.opts true "failed" "9-0" CommandAcknowledged Sample.state
    (Lossy.w_server r.2).
Proof.
  intros r. assert (r.1 = (CommandAcknowledged, "")) as E by (vm_compute; reflexivity). split; [exact E|].
  destruct (redis_retry_keeps_work (num := Z) SampleMutations.opts TargetFailure "9-0"
    (Lossy.mkWorld Sample.state []) CommandAcknowledged "" r.2 SampleMutations.sample_policy
    ltac:(exact (SampleMutations.identified_record "failed" 9 eq_refl))
    ltac:(exact (Sample.originals_record "failed" "9-0" eq_refl))) as [(_ & H & _)|H].
  - rewrite <-E. apply surjective_pairing.
  - by destruct H.
  - exact H.
Defined.

(** A dead letter is replayed; the answer of the registration is lost. *)
Lemma redis_replay_exact_witness :
  let r := replayRedisRecord SampleMutations.opts SampleMutations.command SampleMutations.world in
  r.1 = (CommandPartial, "replay_registry_unknown") /\
  record_replayed ReplayReplaceDuplicate "again" "dead" "7-0" CommandPartial Sample.state
    (Lossy.w_server r.2).
Proof.
  intros r. assert (r.1 = (CommandPartial, "replay_registry_unknown")) as E by (vm_compute; reflexivity).
  split; [exact E|].
  destruct (redis_replay_exact (num := Z) SampleMutations.opts SampleMutations.command
    (mkReplay "again" ReplayReplaceDuplicate) SampleMutations.world CommandPartial
    "replay_registry_unknown" r.2 eq_refl SampleMutations.sample_policy ltac:(done)
    ltac:(exact (map_Forall_empty _))) as [_ [(_ & _ & H)|[_ H]]].
  - rewrite <-E. apply surjective_pairing.
  - by destruct H.
  - exact H.
Defined.
