(* ===== verification/RedisWorker.v ===== *)
(** Intake of the Redis Streams worker (adapters/redisstream/redis.go): the consumer that
    reclaims and reads deliveries, concurrent calls of [Request] and [Shutdown], and the
    channels between them, as one transition system. *)

From S2P Require Import Prelude GoStd Sentinels Contract Control Failure Job Status Codec Records Stream.
From S2P Require Import RedisOptions Redis.

(** How long a read blocks at the server. *)
Definition block_time (opts : redisOptions) : Z :=
  Z.min (if (R_blockTime opts <=? 0)%Z then Second else R_blockTime opts) Second.

(** [t.Add(d)]. *)
Definition Time_Add (t : Time) (d : Z) : Time := mkTime (wall t + d) (Z.add d <$> mono t) (loc t).

(** * State *)

(** Where the consumer goroutine stands: not started; at the top of its loop; handing
    over reclaimed messages; before the read; handing over read messages; returned. *)
Inductive fetcher_pc :=
| Idle
| Top (cursor : string) (nextReclaim : Time)
| HandReclaimed (cursor : string) (nextReclaim : Time) (message : XMessage) (rest : list XMessage)
| Reading (cursor : string) (nextReclaim : Time)
| HandRead (cursor : string) (nextReclaim : Time) (message : XMessage) (rest : list XMessage)
| Exited.

(** Where a call of [Request], [Shutdown] or [Run] stands. *)
Inductive call_pc :=
| Starting                         (* Request, in startConsumer, without the lock *)
| Creating                         (* in startOnce, with the lock *)
| Waiting                          (* in the select of Request *)
| Got (task : XMessage)
| Answered (r : error + (Message * settlement))
| Stopping                         (* Shutdown, before the swap *)
| Locking                          (* before the lock *)
| Closing                          (* holds the lock and waits for the consumer *)
| Stopped (err : error)
| Running                          (* Run, in the handler *)
| Ran.

(** The client, the atomics, the lock and the channels; [fetched], [handed] and [dropped]
    are the messages the server delivered, those a call received and those the consumer
    left pending when it stopped. *)
Record intake (W : Type) := mkIntake {
  rdb : W;
  client_closed : bool;
  stopFlag : bool;
  started : bool;
  lock : option nat;
  stop_closed : bool;
  exit_closed : bool;
  tasks_closed : bool;
  currentJobs : Z;
  fetcher : fetcher_pc;
  calls : gmap nat call_pc;
  fetched : list XMessage;
  handed : list XMessage;
  dropped : list XMessage
}.
Arguments mkIntake {W} _ _ _ _ _ _ _ _ _ _ _ _ _ _.
Arguments rdb {W} _.
Arguments client_closed {W} _.
Arguments stopFlag {W} _.
Arguments started {W} _.
Arguments lock {W} _.
Arguments stop_closed {W} _.
Arguments exit_closed {W} _.
Arguments tasks_closed {W} _.
Arguments currentJobs {W} _.
Arguments fetcher {W} _.
Arguments calls {W} _.
Arguments fetched {W} _.
Arguments handed {W} _.
Arguments dropped {W} _.

Section intake.
Context {W : Type} `{!redisClient W} (opts : redisOptions).
Context (order : list (string * string) -> list (string * string)).
Context (unmarshal : string -> error + Message).
Implicit Types s : intake W.

Definition with_rdb (w : W) s : intake W := s <| @rdb W := w |>.
Definition with_fetcher (p : fetcher_pc) s : intake W := s <| @fetcher W := p |>.
Definition with_call (t : nat) (p : call_pc) s : intake W := s <| @calls W := <[t := p]> (calls s) |>.
Definition with_lock (l : option nat) s : intake W := s <| @lock W := l |>.

(** [close] of a channel: a panic when it is closed already. *)
Definition closing (closed : bool) (k : go (intake W)) : go (intake W) :=
  if closed then Panic "close of closed channel" else k.

(** ** The consumer *)

(** The next message of a list to hand over, or [next] when there is none. *)
Definition hand_over (hand : XMessage -> list XMessage -> fetcher_pc) (l : list XMessage)
    (next : fetcher_pc) : fetcher_pc :=
  match l with [] => next | message :: rest => hand message rest end.

Definition claim_request (cursor : string) : request (list XMessage * string) :=
  XAutoClaim (R_streamName opts) (R_group opts) (R_consumer opts) (R_reclaimMinIdle opts) cursor
    (R_reclaimBatchSize opts).
Definition read_request : request (list (string * list XMessage)) :=
  XReadGroup (R_group opts) (R_consumer opts) (R_streamName opts) ">" 1 (block_time opts).

(** The deferred close of [exit] when the consumer returns; what it still held stays
    pending at the server. *)
Definition fetch_return (held : list XMessage) s : go (intake W) :=
  closing (exit_closed s)
    (Ret (s <| @exit_closed W := true |> <| @fetcher W := Exited |> <| @dropped W := held |>)).

(** The reclaim, [later] being the clock after it. *)
Definition fetch_reclaim (cursor : string) (nextReclaim later : Time) s : intake W :=
  let '(r, w) := Result (claim_request cursor) (rdb s) in
  let nextReclaim := Time_Add later (R_reclaimInterval opts) in
  let claimed cursor l : intake W :=
    (with_rdb w s) <| @fetcher W := hand_over (HandReclaimed cursor nextReclaim) l (Reading cursor nextReclaim) |>
      <| @fetched W := fetched s ++ l |> in
  match r with
  | inl err => if Is err redis_Nil then claimed "0-0" [] else claimed cursor []
  | inr (l, next) => claimed (if (next == "") || (next == "0-0") then "0-0" else next) l
  end.

(** The top of the loop, [now] being the clock there. *)
Definition fetch_top (cursor : string) (nextReclaim now later : Time) s : go (intake W) :=
  if stop_closed s then fetch_return [] s
  else if negb (Before now nextReclaim) then Ret (fetch_reclaim cursor nextReclaim later s)
  else Ret (with_fetcher (Reading cursor nextReclaim) s).

Definition fetch_read (cursor : string) (nextReclaim : Time) s : intake W :=
  let '(r, w) := Result read_request (rdb s) in
  match r with
  | inl _ => with_fetcher (Top cursor nextReclaim) (with_rdb w s)
  | inr data =>
      let l := data ≫= snd in
      (with_rdb w s) <| @fetcher W := hand_over (HandRead cursor nextReclaim) l (Top cursor nextReclaim) |>
        <| @fetched W := fetched s ++ l |>
  end.

(** A step of [fetchTask] other than a send; [None] while it has none. *)
Definition fetchTask (now later : Time) s : option (go (intake W)) :=
  match fetcher s with
  | Idle | Exited => None
  | Top cursor nextReclaim => Some (fetch_top cursor nextReclaim now later s)
  | Reading cursor nextReclaim => Some (Ret (fetch_read cursor nextReclaim s))
  | HandReclaimed _ _ message rest | HandRead _ _ message rest =>
      if stop_closed s then Some (fetch_return (message :: rest) s) else None
  end.

(** The message a send offers, and the consumer after it. *)
Definition offer (p : fetcher_pc) : option (XMessage * fetcher_pc) :=
  match p with
  | HandReclaimed cursor next message rest =>
      Some (message, hand_over (HandReclaimed cursor next) rest (Reading cursor next))
  | HandRead cursor next message rest =>
      Some (message, hand_over (HandRead cursor next) rest (Top cursor next))
  | _ => None
  end.

(** The rendezvous of a send with the select of call [t]; a send on a closed channel
    panics. *)
Definition hand (t : nat) s : option (go (intake W)) :=
  '(message, next) ← offer (fetcher s);
  if tasks_closed s then Some (Panic "send on closed channel")
  else
    match calls s !! t with
    | Some Waiting =>
        Some (Ret ((with_call t (Got message) (with_fetcher next s)) <| @handed W := handed s ++ [message] |>))
    | _ => None
    end.

(** ** Calls *)

(** [startConsumer] up to its check of the flag and of [startOnce]. *)
Definition startConsumer_enter (t : nat) s : option (intake W) :=
  match lock s with
  | Some _ => None
  | None =>
      Some (if stopFlag s || started s then with_call t Waiting s
            else with_lock (Some t) (with_call t Creating s))
  end.

(** The body of [startOnce]; the group may exist already, so the error is logged. *)
Definition startConsumer_do (t : nat) s : intake W :=
  let '(_, w) := Result (XGroupCreateMkStream (R_streamName opts) (R_group opts) "0") (rdb s) in
  with_lock None (with_call t Waiting
    ((with_rdb w s) <| @started W := true |> <| @fetcher W := Top "0-0" zeroTime |>)).

(** The end of [Shutdown]: the client and the tasks are closed. *)
Definition shutdown_close (t : nat) s : go (intake W) :=
  closing (tasks_closed s)
    (Ret (with_lock None (with_call t (Stopped ErrNil)
      (s <| @client_closed W := true |> <| @tasks_closed W := true |>)))).

(** [Shutdown] with the lock: [stop] is closed, and a started consumer is waited for. *)
Definition shutdown_locked (t : nat) s : go (intake W) :=
  closing (stop_closed s)
    (let s := s <| @stop_closed W := true |> in
     if started s then Ret (with_lock (Some t) (with_call t Closing s)) else shutdown_close t s).

(** The counter around the handler of [Run]: [Add(1)] and [Add(^uint32(0))]. *)
Definition run_begin (t : nat) s : intake W :=
  with_call t Running (s <| @currentJobs W := wrap_u32 (currentJobs s + 1) |>).
Definition run_end (t : nat) s : intake W :=
  with_call t Ran (s <| @currentJobs W := wrap_u32 (currentJobs s + (2 ^ 32 - 1)) |>).

(** A step of call [t]; [None] while it is blocked or has returned. *)
Definition call_step (t : nat) (p : call_pc) s : option (go (intake W)) :=
  match p with
  | Starting => Ret <$> startConsumer_enter t s
  | Creating => Some (Ret (startConsumer_do t s))
  | Waiting => if tasks_closed s then Some (Ret (with_call t (Answered (inl ErrQueueHasBeenClosed)) s)) else None
  | Got task =>
      let '(r, w) := Request_received opts order unmarshal task (rdb s) in
      Some (Ret (with_call t (Answered r) (with_rdb w s)))
  | Stopping =>
      Some (Ret (if stopFlag s then with_call t (Stopped ErrQueueShutdown) s
                 else with_call t Locking (s <| @stopFlag W := true |>)))
  | Locking => match lock s with Some _ => None | None => Some (shutdown_locked t s) end
  | Closing => if exit_closed s then Some (shutdown_close t s) else None
  | Running => Some (Ret (run_end t s))
  | Answered _ | Stopped _ | Ran => None
  end.

(** ** Events *)

Inductive event :=
| Request (t : nat)
| Shutdown (t : nat)
| Run (t : nat)
| Fetch (now later : Time)
| Hand (t : nat)
| Step (t : nat)
| Timeout (t : nat)
| Elsewhere (w : W).                (* other goroutines use the client *)

(** A new call, by a caller that has none. *)
Definition enter (t : nat) (entered : intake W) s : option (go (intake W)) :=
  match calls s !! t with Some _ => None | None => Some (Ret entered) end.

Definition step (e : event) s : option (go (intake W)) :=
  match e with
  | Request t => enter t (with_call t Starting s) s
  | Shutdown t => enter t (with_call t Stopping s) s
  | Run t => enter t (run_begin t s) s
  | Fetch now later => fetchTask now later s
  | Hand t => hand t s
  | Step t => p ← calls s !! t; call_step t p s
  | Timeout t =>
      match calls s !! t with
      | Some Waiting => Some (Ret (with_call t (Answered (inl ErrNoTaskInQueue)) s))
      | _ => None
      end
  | Elsewhere w => Some (Ret (with_rdb w s))
  end.

(** A run stops at a panic or at an event that is not enabled. *)
Fixpoint run (es : list event) s : option (go (intake W)) :=
  match es with
  | [] => Some (Ret s)
  | e :: es => match step e s with Some (Ret s) => run es s | r => r end
  end.

Definition initial (w : W) : intake W :=
  mkIntake w false false false None false false false 0 Idle ∅ [] [] [].
End intake.
