(* ===== verification/RedisWorkerSafety.v ===== *)
(** What the intake of the Redis Streams worker guarantees: no channel is closed twice or
    used after its close, every delivered message is handed to one call or left pending,
    the client is closed once and after the consumer, and [Shutdown] is never stuck. *)

From S2P Require Import Prelude GoStd Sentinels Contract Control Failure Job Status Codec Records Stream.
From S2P Require Import RedisOptions Redis RedisWorker.

(** * Kinds of calls *)

Definition creating (p : call_pc) : nat := match p with Creating => 1 | _ => 0 end.
Definition locking (p : call_pc) : nat := match p with Locking => 1 | _ => 0 end.
Definition waiting_exit (p : call_pc) : nat := match p with Closing => 1 | _ => 0 end.
Definition stopped (p : call_pc) : nat := match p with Stopped ErrNil => 1 | _ => 0 end.
Definition executing (p : call_pc) : nat := match p with Running => 1 | _ => 0 end.

(** The messages the consumer holds. *)
Definition held (p : fetcher_pc) : list XMessage :=
  match p with
  | HandReclaimed _ _ message rest | HandRead _ _ message rest => message :: rest
  | _ => []
  end.

Definition inactive (p : fetcher_pc) : bool := match p with Idle | Exited => true | _ => false end.
Definition idle (p : fetcher_pc) : bool := match p with Idle => true | _ => false end.

Lemma held_hand_over f l q :
  (forall m r, held (f m r) = m :: r) -> held q = [] -> held (hand_over f l q) = l.
Proof. destruct l; simpl; auto. Qed.

Lemma hand_over_active f l q :
  (forall m r, inactive (f m r) = false) -> inactive q = false -> inactive (hand_over f l q) = false.
Proof. destruct l; simpl; auto. Qed.

Lemma inactive_idle p : inactive p = false -> idle p = false.
Proof. by destruct p. Qed.

Lemma wrap_u32_succ n : wrap_u32 (wrap_u32 (Z.of_nat n) + 1) = wrap_u32 (Z.of_nat (1 + n)).
Proof. unfold wrap_u32. rewrite Zplus_mod_idemp_l. f_equal. lia. Qed.

Lemma wrap_u32_pred n : wrap_u32 (wrap_u32 (Z.of_nat (1 + n)) + (2 ^ 32 - 1)) = wrap_u32 (Z.of_nat n).
Proof.
  unfold wrap_u32. rewrite Zplus_mod_idemp_l.
  replace (Z.of_nat (1 + n) + (2 ^ 32 - 1))%Z with (Z.of_nat n + 1 * 2 ^ 32)%Z by lia.
  apply Z.mod_add. lia.
Qed.

Section safety.
Context {W : Type} `{!redisClient W} (opts : redisOptions).
Context (order : list (string * string) -> list (string * string)).
Context (unmarshal : string -> error + Message).
Implicit Types s : intake W.

Abbreviation step := (step opts order unmarshal).
Abbreviation run := (run opts order unmarshal).

(** * The invariant *)

(** The consumer: started once, gone only after the stop, and holding what was delivered
    and neither handed over nor dropped. *)
Record consumer_invariant s : Prop := {
  ci_started : started s = negb (idle (fetcher s));
  ci_exit : exit_closed s = inactive (fetcher s) && started s;
  ci_stopped : exit_closed s = true -> stop_closed s = true;
  ci_dropped : exit_closed s = false -> dropped s = [];
  ci_messages : fetched s = handed s ++ held (fetcher s) ++ dropped s
}.

(** The calls: who holds the lock, and how far the one effective [Shutdown] is. *)
Record call_invariant s : Prop := {
  li_lock : (tally creating (calls s) + tally waiting_exit (calls s))%nat =
            match lock s with Some _ => 1%nat | None => 0%nat end;
  li_locking : (tally locking (calls s) + Nat.b2n (stop_closed s))%nat = Nat.b2n (stopFlag s);
  li_closing : (tally waiting_exit (calls s) + Nat.b2n (tasks_closed s))%nat = Nat.b2n (stop_closed s);
  li_stopped : tally stopped (calls s) = Nat.b2n (tasks_closed s);
  li_creating : (0 < tally creating (calls s))%nat -> started s = false /\ stop_closed s = false;
  li_waiting : (0 < tally waiting_exit (calls s))%nat -> started s = true;
  li_jobs : currentJobs s = wrap_u32 (Z.of_nat (tally executing (calls s)))
}.

Record invariant s : Prop := {
  i_consumer : consumer_invariant s;
  i_calls : call_invariant s;
  i_client : client_closed s = tasks_closed s;
  i_drained : tasks_closed s = true -> inactive (fetcher s) = true
}.

Lemma initial_invariant w : invariant (initial w).
Proof.
  split; [by split..| |done|done].
  unfold initial. split; simpl; unfold tally; rewrite ?map_fold_empty; done || lia.
Qed.

(** * Preservation *)

Ltac tallies Ht p :=
  pose proof (tally_set creating _ _ _ p Ht); pose proof (tally_set locking _ _ _ p Ht);
  pose proof (tally_set waiting_exit _ _ _ p Ht); pose proof (tally_set stopped _ _ _ p Ht);
  pose proof (tally_set executing _ _ _ p Ht); simpl in *.

(** What a step between phases of no consequence leaves alone. *)
Definition plain (p : call_pc) : Prop :=
  creating p = 0%nat /\ locking p = 0%nat /\ waiting_exit p = 0%nat /\ stopped p = 0%nat /\
  executing p = 0%nat.

Lemma with_call_invariant t p p' s :
  invariant s -> calls s !! t = Some p -> plain p -> plain p' -> invariant (with_call t p' s).
Proof.
  destruct s. intros [[] [H1 H2 H3 H4 H5 H6 H7] Ho Hd] Ht (?&?&?&?&?) (?&?&?&?&?). simpl in *.
  tallies Ht p'. split; [by split| |done|done]. split; simpl; try lia.
  rewrite H7. do 2 f_equal. lia.
Qed.

Lemma enter_invariant t p s :
  invariant s -> calls s !! t = None -> plain p -> invariant (with_call t p s).
Proof.
  destruct s. intros [[] [] Ho Hd] Ht (E1&E2&E3&E4&E5). simpl in *.
  split; [by split| |done|done].
  split; simpl; rewrite ?tally_new, ?E1, ?E2, ?E3, ?E4, ?E5 by done; done.
Qed.

Lemma with_rdb_invariant w s : invariant s -> invariant (with_rdb w s).
Proof. destruct s. intros [[] [] ? ?]. split; [by split..|done|done]. Qed.

(** A move of an active consumer that takes over [l]. *)
Lemma fetch_invariant w p l s :
  invariant s -> inactive (fetcher s) = false -> inactive p = false ->
  held p = held (fetcher s) ++ l ->
  invariant ((with_rdb w s) <| @fetcher W := p |> <| @fetched W := fetched s ++ l |>).
Proof.
  destruct s. intros [[H1 H2 H3 H4 H5] [] Ho Hd] Ha Hp Hh. simpl in *.
  rewrite Ha in H2. simpl in H2. subst.
  split; simpl; [|by split|done|].
  - split; simpl; [by rewrite !inactive_idle|by rewrite Hp|done|done|].
    rewrite Hh, H4, !app_nil_r by done. by rewrite app_assoc.
  - intros Ht. by rewrite Hd in Ha.
Qed.

Lemma with_fetcher_invariant w p s :
  invariant s -> inactive (fetcher s) = false -> inactive p = false -> held p = held (fetcher s) ->
  invariant (with_fetcher p (with_rdb w s)).
Proof.
  intros H Ha Hp Hh. pose proof (fetch_invariant w p [] s H Ha Hp) as Hi. destruct s.
  simpl in *. rewrite !app_nil_r in Hi. auto.
Qed.

Lemma fetch_reclaim_invariant cursor next later s :
  invariant s -> fetcher s = Top cursor next -> invariant (fetch_reclaim opts cursor next later s).
Proof.
  intros H E. unfold fetch_reclaim. destruct (Result _ _) as [[err|[l c]] w].
  1: destruct (Is err redis_Nil).
  all: apply fetch_invariant; rewrite ?E; try done.
  - by apply hand_over_active.
  - by apply held_hand_over.
Qed.

Lemma fetch_read_invariant cursor next s :
  invariant s -> fetcher s = Reading cursor next -> invariant (fetch_read opts cursor next s).
Proof.
  intros H E. unfold fetch_read. destruct (Result _ _) as [[err|data] w].
  - apply with_fetcher_invariant; by rewrite ?E.
  - apply fetch_invariant; rewrite ?E; try done; [by apply hand_over_active|by apply held_hand_over].
Qed.

Lemma fetch_return_invariant s :
  invariant s -> inactive (fetcher s) = false -> stop_closed s = true ->
  exists s', fetch_return (held (fetcher s)) s = Ret s' /\ invariant s' /\ exit_closed s' = true /\
    calls s' = calls s.
Proof.
  destruct s. intros [[H1 H2 H3 H4 H5] [] Ho Hd] Ha Hs. simpl in *.
  rewrite Ha in H2. simpl in H2. subst. rewrite H4 by done. unfold fetch_return. simpl.
  eexists. split; [done|]. split; [|done].
  split; simpl; [|by split|done|done].
  split; simpl; [by rewrite inactive_idle|by rewrite inactive_idle|done|done|by rewrite app_nil_r].
Qed.

Lemma fetchTask_invariant now later s r :
  invariant s -> fetchTask opts now later s = Some r -> exists s', r = Ret s' /\ invariant s'.
Proof.
  intros H. pose proof (fetch_return_invariant s H) as Hr. unfold fetchTask.
  destruct (fetcher s) eqn:Ef; [done| | | | |done]; cbn [held] in Hr.
  2,4: destruct (stop_closed s); intros [= <-]; destruct Hr as (? & -> & ? & _); eauto.
  - intros [= <-]. unfold fetch_top. destruct (stop_closed s).
    { destruct Hr as (? & -> & ? & _); eauto. }
    destruct (negb _); eexists; (split; [done|]); [by apply fetch_reclaim_invariant|].
    pose proof (with_fetcher_invariant (rdb s) (Reading cursor nextReclaim) s H) as Hi.
    destruct s; simpl in *. subst. by apply Hi.
  - intros [= <-]. eauto using fetch_read_invariant.
Qed.

(** The consumer after a send. *)
Lemma offer_spec p message next :
  offer p = Some (message, next) ->
  held p = message :: held next /\ inactive p = false /\ inactive next = false.
Proof.
  destruct p as [| |c n m rest| |c n m rest|]; try done; simpl; intros [= -> <-]; by destruct rest.
Qed.

Lemma hand_invariant t s r :
  invariant s -> hand t s = Some r -> exists s', r = Ret s' /\ invariant s'.
Proof.
  unfold hand. destruct (offer (fetcher s)) as [[message next]|] eqn:Eo; [|done]. simpl.
  intros H. destruct (offer_spec _ _ _ Eo) as (Hh & Ha & Hn).
  destruct (tasks_closed s) eqn:Et; [by rewrite (i_drained s H Et) in Ha|].
  destruct (calls s !! t) as [[]|] eqn:Ec; try done. intros [= <-].
  eexists. split; [done|].
  assert (Hg : invariant (with_call t (Got message) s)) by (by eapply with_call_invariant).
  clear H. destruct s. destruct Hg as [[H1 H2 H3 H4 H5] [] Ho Hd]. simpl in *.
  rewrite Ha in H2. simpl in H2. subst. split; simpl; [|by split|done|done].
  split; simpl; [by rewrite !inactive_idle|by rewrite Hn|done|done|].
  rewrite Hh, <- app_assoc. done.
Qed.

(** ** Calls *)

(** A step of call [t] that changes the phase of the worker: what is left to show. *)
Ltac phase Ht p' :=
  try match goal with s : intake W |- _ => destruct s end;
  repeat match goal with H : invariant _ |- _ => destruct H as [[] [? ? ? ? ? ? Hj] ? ?] end;
  simpl in *; subst; tallies Ht p';
  repeat match goal with
  | H : context [Nat.b2n ?b] |- _ => is_var b; destruct b; simpl in *
  | H : context [match ?l with Some _ => _ | None => _ end] |- _ => is_var l; destruct l
  end;
  try lia;
  (split; simpl; [split; simpl; try done|split; simpl; try lia|try done|try done]);
  try (do 2 f_equal; lia).

Lemma startConsumer_enter_invariant t s s' :
  invariant s -> calls s !! t = Some Starting -> startConsumer_enter t s = Some s' -> invariant s'.
Proof.
  unfold startConsumer_enter. destruct (lock s) eqn:El; [done|]. intros H Ht [= <-].
  destruct (_ || _) eqn:E; [by eapply with_call_invariant|].
  apply orb_false_iff in E as [E1 E2]. phase Ht Creating.
Qed.

(** The consumer is not started while a call is about to start it. *)
Lemma creating_idle t s :
  invariant s -> calls s !! t = Some Creating -> fetcher s = Idle /\ stop_closed s = false.
Proof.
  intros H Ht. pose proof (tally_le creating _ _ _ Ht) as Hl.
  destruct (li_creating s (i_calls s H) Hl) as [Hs ?]. split; [|done].
  rewrite (ci_started s (i_consumer s H)) in Hs. by destruct (fetcher s).
Qed.

Lemma startConsumer_do_invariant t s :
  invariant s -> calls s !! t = Some Creating -> invariant (startConsumer_do opts t s).
Proof.
  intros H Ht. destruct (creating_idle t s H Ht) as [Ef Es].
  unfold startConsumer_do. destruct (Result _ _) as [? w]. phase Ht Waiting.
Qed.

Lemma shutdown_swap_invariant t s :
  invariant s -> calls s !! t = Some Stopping -> stopFlag s = false ->
  invariant (with_call t Locking (s <| @stopFlag W := true |>)).
Proof. intros H Ht E. phase Ht Locking. Qed.

Lemma shutdown_locked_invariant t s :
  invariant s -> calls s !! t = Some Locking -> lock s = None ->
  exists s', shutdown_locked t s = Ret s' /\ invariant s' /\ fetcher s' = fetcher s /\
    calls s' !! t = Some (if started s then Closing else Stopped ErrNil).
Proof.
  intros H Ht El. unfold shutdown_locked, shutdown_close, closing.
  pose proof (tally_le locking _ _ _ Ht) as Hl. pose proof (li_locking s (i_calls s H)) as Hs.
  pose proof (li_closing s (i_calls s H)) as Hc. simpl in *.
  destruct (stop_closed s) eqn:E; [destruct (stopFlag s); simpl in *; lia|].
  destruct (tasks_closed s) eqn:Et; [simpl in *; lia|].
  pose proof (ci_started s (i_consumer s H)) as Est.
  destruct s as [? ? ? st]. simpl in *. rewrite Et. destruct st; eexists; (split; [done|]).
  all: split; [|split; [done|by simpl; rewrite lookup_insert_eq]].
  - phase Ht Closing.
  - destruct fetcher; try done. phase Ht (Stopped ErrNil).
Qed.

Lemma shutdown_close_invariant t s :
  invariant s -> calls s !! t = Some Closing -> exit_closed s = true ->
  exists s', shutdown_close t s = Ret s' /\ invariant s' /\ calls s' !! t = Some (Stopped ErrNil).
Proof.
  intros H Ht Ee. unfold shutdown_close, closing.
  pose proof (tally_le waiting_exit _ _ _ Ht) as Hl. pose proof (li_closing s (i_calls s H)) as Hc.
  pose proof (ci_exit s (i_consumer s H)) as Hx. rewrite Ee in Hx. symmetry in Hx.
  apply andb_true_iff in Hx as [Hx _].
  destruct (tasks_closed s) eqn:Et; [destruct (stop_closed s); simpl in *; lia|].
  eexists. split; [done|]. split; [|by destruct s; simpl; rewrite lookup_insert_eq].
  phase Ht (Stopped ErrNil).
Qed.

Lemma run_begin_invariant t s :
  invariant s -> calls s !! t = None -> invariant (run_begin t s).
Proof.
  destruct s. intros [[] [] ? ?] Ht. simpl in *. subst.
  split; [by split| |done|done].
  split; simpl; rewrite ?tally_new by done; try done. apply wrap_u32_succ.
Qed.

Lemma run_end_invariant t s :
  invariant s -> calls s !! t = Some Running -> invariant (run_end t s).
Proof.
  intros H Ht. pose proof (tally_set executing _ _ _ Ran Ht) as Hn. simpl in Hn.
  rewrite Nat.add_0_r, Nat.add_comm in Hn. unfold run_end.
  phase Ht Ran; rewrite <- Hn; apply wrap_u32_pred.
Qed.

Lemma call_step_invariant t p s r :
  invariant s -> calls s !! t = Some p -> call_step opts order unmarshal t p s = Some r ->
  exists s', r = Ret s' /\ invariant s'.
Proof.
  intros H Ht. destruct p; simpl; try done.
  - destruct (startConsumer_enter t s) eqn:E; [|done]. intros [= <-].
    eauto using startConsumer_enter_invariant.
  - intros [= <-]. eauto using startConsumer_do_invariant.
  - destruct (tasks_closed s); [|done]. intros [= <-]. eexists. split; [done|].
    by eapply with_call_invariant.
  - destruct (Request_received _ _ _ _ _) as [a w]. intros [= <-]. eexists. split; [done|].
    apply (with_call_invariant t (Got task)); [by apply with_rdb_invariant| |done|done]. by destruct s.
  - intros [= <-]. eexists. split; [done|]. destruct (stopFlag s) eqn:E.
    + by eapply with_call_invariant.
    + by apply shutdown_swap_invariant.
  - destruct (lock s) eqn:El; [done|]. intros [= <-].
    destruct (shutdown_locked_invariant t s H Ht El) as (s' & -> & ? & _). eauto.
  - destruct (exit_closed s) eqn:Ee; [|done]. intros [= <-].
    destruct (shutdown_close_invariant t s H Ht Ee) as (s' & -> & ? & _). eauto.
  - intros [= <-]. eauto using run_end_invariant.
Qed.

Lemma step_invariant e s r :
  invariant s -> step e s = Some r -> exists s', r = Ret s' /\ invariant s'.
Proof.
  intros H. destruct e; simpl; unfold enter.
  1-3: destruct (calls s !! t) eqn:Ht; [done|]; intros [= <-]; eexists; (split; [done|]).
  - by apply enter_invariant.
  - by apply enter_invariant.
  - by apply run_begin_invariant.
  - by apply fetchTask_invariant.
  - by apply hand_invariant.
  - destruct (calls s !! t) eqn:Ht; [|done]. by apply call_step_invariant.
  - destruct (calls s !! t) as [[]|] eqn:Ht; try done. intros [= <-].
    eexists. split; [done|]. by eapply with_call_invariant.
  - intros [= <-]. eauto using with_rdb_invariant.
Qed.

Lemma run_invariant es s r :
  invariant s -> run es s = Some r -> exists s', r = Ret s' /\ invariant s'.
Proof.
  revert s. induction es as [|e es IH]; intros s H; simpl; [intros [= <-]; eauto|].
  destruct (step e s) as [a|] eqn:E; [|done].
  destruct (step_invariant e s a H E) as (s' & -> & H'). by apply IH.
Qed.

(** ** Progress *)

(** A step of the worker's own goroutines: the consumer or a call that has begun. *)
Definition own (e : @event W) : Prop :=
  match e with Fetch _ _ | Step _ => True | _ => False end.

(** [t] can reach a successful return within [n] such steps. *)
Definition returns_within (n : nat) (t : nat) s : Prop :=
  exists es s', (length es <= n)%nat /\ Forall own es /\ run es s = Some (Ret s') /\
    calls s' !! t = Some (Stopped ErrNil).

Lemma returns_after e n t s s' :
  own e -> step e s = Some (Ret s') -> returns_within n t s' -> returns_within (S n) t s.
Proof.
  intros He Hs (es & s2 & Hl & Ho & Hr & Hc). exists (e :: es), s2. simpl. rewrite Hs.
  split_and!; [lia|by constructor|done|done].
Qed.

Lemma returns_more n m t s : (n <= m)%nat -> returns_within n t s -> returns_within m t s.
Proof. intros Hn (es & s' & ? & H). exists es, s'. split; [lia|done]. Qed.

Lemma closing_exited t s :
  invariant s -> calls s !! t = Some Closing -> exit_closed s = true -> returns_within 1 t s.
Proof.
  intros H Ht He. destruct (shutdown_close_invariant t s H Ht He) as (s' & Hs & _ & Hc).
  exists [Step t], s'. simpl. rewrite Ht. simpl. rewrite He, Hs.
  split_and!; [lia|by repeat constructor|done|done].
Qed.

(** A consumer that sees the stop returns at once. *)
Lemma closing_stoppable t s :
  invariant s -> calls s !! t = Some Closing -> inactive (fetcher s) = false ->
  (forall c n, fetcher s <> Reading c n) -> returns_within 2 t s.
Proof.
  intros H Ht Ha Hn. assert (Hs : stop_closed s = true).
  { pose proof (tally_le waiting_exit _ _ _ Ht). pose proof (li_closing s (i_calls s H)).
    destruct (stop_closed s); [done|]. simpl in *. lia. }
  destruct (fetch_return_invariant s H Ha Hs) as (s' & Hr & H' & He & Hc).
  apply (returns_after (Fetch zeroTime zeroTime) _ _ _ s'); [done| |].
  - simpl. unfold fetchTask, fetch_top. rewrite Hs.
    destruct (fetcher s) eqn:Ef; simpl in *; try done; try by rewrite Hr. by destruct (Hn _ _ eq_refl).
  - apply closing_exited; [done|by rewrite Hc|done].
Qed.

Lemma closing_returns t s :
  invariant s -> calls s !! t = Some Closing -> returns_within 3 t s.
Proof.
  intros H Ht. destruct (inactive (fetcher s)) eqn:Ha.
  - apply (returns_more 1); [lia|]. apply closing_exited; [done..|].
    rewrite (ci_exit s (i_consumer s H)), Ha. apply (li_waiting s (i_calls s H)).
    exact (tally_le waiting_exit _ _ _ Ht).
  - destruct (fetcher s) as [| | |c n| |] eqn:Ef; try done.
    3: { apply (returns_after (Fetch zeroTime zeroTime) _ _ _ (fetch_read opts c n s)); [done| |].
         { simpl. unfold fetchTask. by rewrite Ef. }
         apply closing_stoppable; [by apply fetch_read_invariant|..]; unfold fetch_read;
           destruct (Result _ _) as [[err|data] w]; destruct s; try done; simpl.
         - by apply hand_over_active.
         - intros c' n'. by destruct (data ≫= snd). }
    all: apply (returns_more 2); [lia|]; apply closing_stoppable; [done|done|by rewrite Ef|].
    all: intros; by rewrite Ef.
Qed.

Lemma locking_free t s :
  invariant s -> calls s !! t = Some Locking -> lock s = None -> returns_within 4 t s.
Proof.
  intros H Ht El. destruct (shutdown_locked_invariant t s H Ht El) as (s' & Hs & H' & _ & Hc).
  apply (returns_after (Step t) _ _ _ s'); [done|simpl; rewrite Ht; simpl; by rewrite El, Hs|].
  destruct (started s); [by apply closing_returns|].
  exists [], s'. split_and!; [simpl; lia|constructor|done|done].
Qed.

Lemma locking_returns t s :
  invariant s -> calls s !! t = Some Locking -> returns_within 5 t s.
Proof.
  intros H Ht. destruct (lock s) as [u|] eqn:El; [|apply (returns_more 4); [lia|by apply locking_free]].
  assert (exists t', calls s !! t' = Some Creating) as [t' Ht'].
  { destruct (i_calls s H) as [Hk Hl Hc _ _ _ _]. rewrite El in Hk.
    pose proof (tally_le locking _ _ _ Ht). destruct (tally_pos creating (calls s)) as (t' & p & ? & ?).
    - destruct (stopFlag s), (stop_closed s), (tasks_closed s); simpl in *; lia.
    - exists t'. destruct p; simpl in *; try lia. done. }
  apply (returns_after (Step t') _ _ _ (startConsumer_do opts t' s)); [done|by simpl; rewrite Ht'|].
  apply locking_free; [by apply startConsumer_do_invariant|..]; unfold startConsumer_do;
    destruct (Result _ _) as [? w]; destruct s; simpl in *; [|done].
  rewrite lookup_insert_ne; [done|]. congruence.
Qed.

(** * Theorems *)

(** C8: Whatever the interleaving of requests, shutdowns, executions, the consumer and
    other users of the client: no channel is closed twice and nothing is sent on a closed
    one; the messages the server delivered are, in order, those handed to calls, those the
    consumer holds and those it left pending; at most one [Shutdown] succeeds, and once
    one has, the consumer is gone, the client and the tasks are closed; the client is
    never closed under a live consumer; and the job counter is the number of running
    handlers modulo 2^32. *)
Theorem intake_safe (w : W) (es : list event) (r : go (intake W)) :
  run es (initial w) = Some r ->
  exists s, r = Ret s /\
    fetched s = handed s ++ held (fetcher s) ++ dropped s /\
    (forall t, calls s !! t = Some (Stopped ErrNil) -> client_closed s = true /\ tasks_closed s = true) /\
    (forall t t', calls s !! t = Some (Stopped ErrNil) -> calls s !! t' = Some (Stopped ErrNil) -> t = t') /\
    (client_closed s = true -> inactive (fetcher s) = true) /\
    currentJobs s = wrap_u32 (Z.of_nat (tally executing (calls s))).
Proof.
  intros Hr. destruct (run_invariant es _ r (initial_invariant w) Hr) as (s & -> & [Hc Hl Ho Hd]).
  assert (Hb : forall b, (0 < Nat.b2n b)%nat -> b = true) by (by intros []; simpl; lia).
  exists s. split_and!; [done|apply Hc| | |by rewrite Ho|apply Hl].
  - intros t Ht. rewrite Ho. pose proof (tally_le stopped _ _ _ Ht) as Hp.
    rewrite (li_stopped s Hl) in Hp. split; by apply Hb.
  - intros t t' Ht Ht'. destruct (decide (t = t')) as [|Hn]; [done|].
    pose proof (tally_two stopped _ _ _ _ _ Ht Ht' Hn) as Hp. rewrite (li_stopped s Hl) in Hp.
    destruct (tasks_closed s); simpl in Hp; lia.
Qed.

(** A [Shutdown] that has won the swap is never stuck: from any reachable state, at
    most five steps of calls that have begun and of the consumer (starting the consumer,
    closing [stop], one read, the consumer's return, closing the client) let it return
    without an error; no further request or timeout is needed. *)
Theorem shutdown_returns (w : W) (es : list event) (s : intake W) (t : nat) (p : call_pc) :
  run es (initial w) = Some (Ret s) -> calls s !! t = Some p -> p = Locking \/ p = Closing ->
  exists es' s', (length es' <= 5)%nat /\ Forall own es' /\ run es' s = Some (Ret s') /\
    calls s' !! t = Some (Stopped ErrNil).
Proof.
  intros Hr Ht Hp.
  destruct (run_invariant es _ _ (initial_invariant w) Hr) as (s1 & [= <-] & H).
  destruct Hp as [->| ->]; [by apply locking_returns|].
  apply (returns_more 3); [lia|]. by apply closing_returns.
Qed.
End safety.

(** * Examples *)

Module SampleIntake.

(** A client whose reads deliver the given messages, one at a time; every other command
    fails. *)
#[local] Instance client : redisClient (list XMessage) := fun A c w =>
  match c in request A return (error + A) * list XMessage with
  | XReadGroup _ _ stream _ _ _ =>
      match w with
      | [] => (inl (Sentinel redis_Nil), [])
      | message :: w => (inr [(stream, [message])], w)
      end
  | _ => (inl (Leaf "connection refused"), w)
  end.

Definition first : XMessage := {| X_ID := "1-0"; Values := {[ "body" := AString "job" ]} |}.
Definition second : XMessage := {| X_ID := "2-0"; Values := {[ "body" := AString "next" ]} |}.

Definition data : Message := NewMessage (fun l => l) "payload" [].
Definition opts : redisOptions := newRedisOptions [].

(** A request starts the consumer and receives the first message; the second is held when
    a shutdown begins. *)
Definition prefix : list (@event (list XMessage)) :=
  [Request 1; Step 1; Step 1; Fetch zeroTime zeroTime; Fetch zeroTime zeroTime; Hand 1; Step 1;
   Run 2; Fetch zeroTime zeroTime; Fetch zeroTime zeroTime; Shutdown 3; Step 3; Step 3].

Definition perform (es : list (@event (list XMessage))) (s : intake (list XMessage)) :
    option (go (intake (list XMessage))) :=
  run opts (fun l => l) (fun _ => inr data) es s.
Definition start : intake (list XMessage) := initial [first; second].

(** The rest of the shutdown. *)
Definition finish : list (@event (list XMessage)) := [Fetch zeroTime zeroTime; Step 3; Shutdown 4; Step 4].

(** The message a call received, the ones left pending and the results of the shutdowns. *)
Definition summary (r : option (go (intake (list XMessage)))) :=
  match r with
  | Some (Ret s) => Some (X_ID <$> handed s, X_ID <$> dropped s, calls s !! 3%nat, calls s !! 4%nat, currentJobs s)
  | _ => None
  end.

End SampleIntake.

Lemma intake_safe_witness :
  exists s, SampleIntake.perform (SampleIntake.prefix ++ SampleIntake.finish) SampleIntake.start = Some (Ret s) /\
    SampleIntake.summary (Some (Ret s)) =
      Some (["1-0"], ["2-0"], Some (Stopped ErrNil), Some (Stopped ErrQueueShutdown), 1%Z) /\
    client_closed s = true /\ fetched s = handed s ++ held (fetcher s) ++ dropped s.
Proof.
  destruct (SampleIntake.perform (SampleIntake.prefix ++ SampleIntake.finish) SampleIntake.start) as [r|] eqn:E;
    [|exfalso; vm_compute in E; discriminate].
  destruct (intake_safe _ _ _ _ _ _ E) as (s & -> & Hm & Hs & _). exists s.
  assert (Hsum : SampleIntake.summary (Some (Ret s)) =
    Some (["1-0"], ["2-0"], Some (Stopped ErrNil), Some (Stopped ErrQueueShutdown), 1%Z))
    by (rewrite <- E; vm_compute; reflexivity).
  split; [done|]. split; [exact Hsum|]. split; [|exact Hm].
  apply (Hs 3%nat). simpl in Hsum. congruence.
Defined.

Lemma shutdown_returns_witness :
  exists s es' s', SampleIntake.perform SampleIntake.prefix SampleIntake.start = Some (Ret s) /\
    calls s !! 3%nat = Some Closing /\ (length es' <= 5)%nat /\
    SampleIntake.perform es' s = Some (Ret s') /\
    calls s' !! 3%nat = Some (Stopped ErrNil).
Proof.
  destruct (SampleIntake.perform SampleIntake.prefix SampleIntake.start) as [[s|]|] eqn:E;
    [|exfalso; vm_compute in E; discriminate..].
  assert (Hc : calls s !! 3%nat = Some Closing).
  { assert (Hsum : SampleIntake.summary (Some (Ret s)) = Some (["1-0"], [], Some Closing, None, 1%Z))
      by (rewrite <- E; vm_compute; reflexivity).
    simpl in Hsum. congruence. }
  destruct (shutdown_returns _ _ _ _ _ _ _ _ E Hc (or_intror eq_refl)) as (es' & s' & Hl & _ & Hr & Ht).
  exists s, es', s'. done.
Defined.
