(* ===== verification/Rabbit.v ===== *)
(** The RabbitMQ worker (adapters/rabbitmq/): construction, submission and the settlement
    of one delivery, over the native client library. *)

From S2P Require Import Prelude GoStd Sentinels Contract Failure Job Status Records RabbitOptions.

(** * The native library *)

Inductive HeaderKind := HeaderString | HeaderInt64 | HeaderOther.
Record Header := mkHeader { H_Key : string; H_Kind : HeaderKind; H_Int64 : Z; H_String : string }.

(** [NativeUnset] is the empty kind. *)
Inductive ExchangeKind := NativeDirect | NativeTopic | NativeUnset.

(** What a delivery carries and its replacement copies. *)
Record Properties := mkProperties {
  CorrelationID : string;
  ReplyTo : string;
  ContentType : string;
  ContentEncoding : string;
  MessageType : string;
  AppID : string;
  Timestamp : Time;
  Expiration : option Z
}.

Record Delivery := mkDelivery {
  V_Body : string;
  V_MessageID : string;
  V_Properties : Properties;
  V_Priority : Z;
  V_Headers : list Header
}.

Record NativeMessage := mkNativeMessage {
  M_Body : string;
  M_MessageID : string;
  M_Properties : Properties;
  M_Priority : option Z;
  M_Headers : list Header
}.

Record Publication := mkPublication {
  B_Exchange : string;
  B_ExchangeKind : ExchangeKind;
  B_RoutingKey : string;
  B_Mandatory : bool;
  B_Persistent : bool;
  B_Message : NativeMessage
}.

Inductive PublishState :=
| PublishConfirmed | PublishReturned | PublishRejected | PublishAmbiguous | PublishNotSent | PublishUnset.

(** [Valid] is the answer of the library's check of the result. *)
Record PublishResult := mkPublishResult { State : PublishState; Valid : bool }.

(** What a handler answers for a delivery. *)
Inductive Settlement := Acknowledge | NegativeAcknowledge (requeue : bool) | Reject (requeue : bool).

(** [C_Failure] settles a delivery whose handler gives up; the settings the adapter hands on
    unread are of type [S]. *)
Record ProducerConfig (S : Type) := mkProducerConfig { PublishTimeout : Z; P_settings : S }.
Record ConsumerConfig (S : Type) := mkConsumerConfig {
  C_QueueName : string; C_Name : string; C_Prefetch : Z; C_HandlerTimeout : Z;
  C_Failure : Settlement; C_settings : S
}.
Arguments mkProducerConfig {S} _ _.
Arguments PublishTimeout {S} _.
Arguments P_settings {S} _.
Arguments mkConsumerConfig {S} _ _ _ _ _ _.
Arguments C_QueueName {S} _.
Arguments C_Name {S} _.
Arguments C_Prefetch {S} _.
Arguments C_HandlerTimeout {S} _.
Arguments C_Failure {S} _.
Arguments C_settings {S} _.

Class Native := {
  settings : Type;
  StringHeader : string -> string -> Header;
  Int64Header : string -> Z -> Header;
  Connection_Validate : settings -> error;
  Producer_Validate : ProducerConfig settings -> error;
  Consumer_Validate : ConsumerConfig settings -> error;
  ErrMessageIDRequired : error;
  ErrProducerUnavailable : error;
  ErrPublishReturned : error;
  ErrPublishRejected : error;
  ErrPublishAmbiguous : error
}.

(** A client environment: opening, using and closing a producer. *)
Class nativeProducer `{!Native} (W : Type) := {
  openNativeProducer : settings -> ProducerConfig settings -> io W error;
  Publish : Publication -> io W (PublishResult * error);
  Producer_Close : io W error
}.

(** * Configuration *)

(** [NativeConfig]; [Task] is the type of submitted tasks. *)
Record NativeConfig `{!Native} (Task : Type) := mkNativeConfig {
  N_Connection : settings;
  N_Producer : ProducerConfig settings;
  N_Consumer : ConsumerConfig settings;
  N_MessageID : option (Task -> string * error);
  N_DeliveryMessageID : option (Delivery -> option Message -> string * error)
}.
Arguments mkNativeConfig {_ Task} _ _ _ _ _.
Arguments N_Connection {_ Task} _.
Arguments N_Producer {_ Task} _.
Arguments N_Consumer {_ Task} _.
Arguments N_MessageID {_ Task} _.
Arguments N_DeliveryMessageID {_ Task} _.

Definition deliveryAttemptHeader : string := "x-queue-delivery-attempt".
Definition classificationHeader : string := "x-queue-classification".
Definition failureCodeHeader : string := "x-queue-failure-code".
Definition envelopeVersionHeader : string := "x-queue-envelope-version".
Definition sourceQueueHeader : string := "x-queue-source-queue".
Definition sourceExchangeHeader : string := "x-queue-source-exchange".
Definition sourceRoutingKeyHeader : string := "x-queue-source-routing-key".

Definition nativeExchangeKind (kind : string) : error + ExchangeKind :=
  if kind == ExchangeDirect then inr NativeDirect
  else if kind == ExchangeTopic then inr NativeTopic
  else inl ErrInvalidConfiguration.

Section rabbit.
Context `{!Native} {W : Type} `{!nativeProducer W}.
Context {Task : Type} (Bytes : Task -> string).
Implicit Types (opts : rabbitOptions (NativeConfig Task)).

(** * Construction *)

(** The opened adapter: its native configuration and its options. *)
Record adapterWorker := mkAdapter { A_config : NativeConfig Task; A_options : rabbitOptions (NativeConfig Task) }.

Definition adapter_config (config : NativeConfig Task) opts : NativeConfig Task :=
  mkNativeConfig (N_Connection config)
    (mkProducerConfig (Q_publishTimeout opts) (P_settings (N_Producer config)))
    (mkConsumerConfig (Q_queue opts) (Q_tag opts) (C_Prefetch (N_Consumer config))
       (C_HandlerTimeout (N_Consumer config)) (C_Failure (N_Consumer config)) (C_settings (N_Consumer config)))
    (N_MessageID config) (N_DeliveryMessageID config).

(** The validations of the native configuration, in order. *)
Definition native_invalid (config : NativeConfig Task) : error :=
  let checks := [Connection_Validate (N_Connection config); Producer_Validate (N_Producer config);
                 Consumer_Validate (N_Consumer config)] in
  match List.filter (fun err => negb (is_nil err)) checks with
  | [] => ErrNil
  | err :: _ => errors_Join [ErrInvalidConfiguration; err]
  end.

Definition newAdapterWorker opts : io W (error + adapterWorker) :=
  match Q_native opts with
  | None => mret (inl ErrInvalidConfiguration)
  | Some native =>
      if Q_autoAck opts || bool_decide (N_MessageID native = None) then mret (inl ErrInvalidConfiguration)
      else
        match nativeExchangeKind (Q_exchangeType opts) with
        | inl err => mret (inl err)
        | inr _ =>
            if negb (is_nil (validateDeadLetter opts)) then mret (inl (validateDeadLetter opts))
            else
              let config := adapter_config native opts in
              if negb (is_nil (native_invalid config)) then mret (inl (native_invalid config))
              else
                err ← openNativeProducer (N_Connection config) (N_Producer config);
                mret (if negb (is_nil err) then inl err else inr (mkAdapter config opts))
        end
  end.

Definition NewWorkerE (options : list (Option (NativeConfig Task))) : io W (error + adapterWorker) :=
  newAdapterWorker (newOptions options).

Definition NewWorker (options : list (Option (NativeConfig Task))) : io W (go adapterWorker) :=
  r ← NewWorkerE options;
  mret match r with inl err => Panic "NewWorker" | inr worker => Ret worker end.

Context (adapter : adapterWorker).
Definition options : rabbitOptions (NativeConfig Task) := A_options adapter.

(** * Publication *)

Definition adapterPublishError (result : PublishResult) (err : error) : error :=
  if negb (is_nil err) then err
  else if negb (Valid result) then ErrProducerUnavailable
  else
    match State result with
    | PublishConfirmed => ErrNil
    | PublishReturned => ErrPublishReturned
    | PublishRejected => ErrPublishRejected
    | PublishAmbiguous => ErrPublishAmbiguous
    | _ => ErrProducerUnavailable
    end.

Definition no_properties : Properties := mkProperties "" "" "" "" "" "" zeroTime None.

(** Construction requires [MessageID]: a call without it would be a nil dereference. *)
Definition adapter_queue (task : Task) : io W (go error) :=
  match N_MessageID (A_config adapter) with
  | None => mret (Panic "invalid memory address or nil pointer dereference")
  | Some MessageID =>
      let '(messageID, err) := MessageID task in
      if negb (is_nil err) || (messageID == "")
      then mret (Ret (errors_Join [ErrInvalidConfiguration; ErrMessageIDRequired]))
      else
        match nativeExchangeKind (Q_exchangeType options) with
        | inl err => mret (Ret err)
        | inr kind =>
            '(result, err) ← Publish (mkPublication (Q_exchangeName options) kind (Q_routingKey options) true true
              (mkNativeMessage (Bytes task) messageID no_properties None []));
            mret (Ret (adapterPublishError result err))
        end
  end.

(** [Queue]; [stopFlag] is what the atomic load returns. *)
Definition Queue (stopFlag : bool) (task : Task) : io W (go error) :=
  if stopFlag then mret (Ret ErrQueueShutdown) else adapter_queue task.

(** * Settlement of a failure *)

(** The attempt a delivery carries, and whether its header is valid. *)
Fixpoint adapterDeliveryAttempt (headers : list Header) : Z * bool :=
  match headers with
  | [] => (1%Z, true)
  | header :: headers =>
      if H_Key header != deliveryAttemptHeader then adapterDeliveryAttempt headers
      else (H_Int64 header,
            match H_Kind header with HeaderInt64 => true | _ => false end
            && (1 <=? H_Int64 header)%Z && (H_Int64 header <=? MaxRetryCount + 1)%Z)
  end.

(** The headers that settlement owns. *)
Definition settlement_header (key : string) : bool :=
  (key == deliveryAttemptHeader) || (key == classificationHeader) || (key == failureCodeHeader)
  || (key == envelopeVersionHeader) || (key == sourceQueueHeader) || (key == sourceExchangeHeader)
  || (key == sourceRoutingKeyHeader).

Definition adapterSettlementHeaders (headers : list Header) (attempt : Z) : list Header :=
  List.filter (fun header => negb (settlement_header (H_Key header))) headers
  ++ [Int64Header deliveryAttemptHeader attempt].

(** The resolution with its defaults, and the attempt. *)
Definition resolve_delivery (resolution : FailureResolution) (headers : list Header)
    : FailureResolution * Z :=
  let '(attempt, valid) := adapterDeliveryAttempt headers in
  let '(resolution, attempt) :=
    if negb valid then (mkResolution ClassificationMalformed "malformed_delivery_attempt", 1%Z)
    else (resolution, attempt) in
  (if Code resolution == "" then mkResolution (Classification resolution) "handler_failed" else resolution,
   attempt).

Definition exhausted (attempt : Z) : bool :=
  (D_MaxDeliveryAttempts (Q_deadLetter options) <=? attempt)%Z.

Definition terminal (resolution : FailureResolution) (attempt : Z) : bool :=
  (Classification resolution == ClassificationPermanent)
  || (Classification resolution == ClassificationMalformed) || exhausted attempt.

(** The failure code of a dead letter. *)
Definition terminal_code (resolution : FailureResolution) (attempt : Z) : string :=
  if exhausted attempt && (Classification resolution == ClassificationRetryable)
  then "attempts_exhausted" else Code resolution.

(** The identity of the replacement, or [None] when there is none. *)
Definition replacement_id (delivery : Delivery) (message : option Message) : option string :=
  let '(messageID, identityErr) :=
    match N_DeliveryMessageID (A_config adapter) with
    | Some DeliveryMessageID =>
        if V_MessageID delivery == "" then DeliveryMessageID delivery message
        else (V_MessageID delivery, ErrNil)
    | None => (V_MessageID delivery, ErrNil)
    end in
  if negb (is_nil identityErr) || (messageID == "") then None else Some messageID.

(** What is published in place of a failed delivery. *)
Definition replacement (delivery : Delivery) (messageID : string) (resolution : FailureResolution)
    (attempt : Z) : Publication :=
  let dead := terminal resolution attempt in
  let deadLetter := Q_deadLetter options in
  let headers := adapterSettlementHeaders (V_Headers delivery) (if dead then attempt else attempt + 1) in
  let headers := if dead then headers ++
      [StringHeader classificationHeader (Classification resolution);
       StringHeader failureCodeHeader (terminal_code resolution attempt);
       Int64Header envelopeVersionHeader CurrentEnvelopeVersion;
       StringHeader sourceQueueHeader (Q_queue options);
       StringHeader sourceExchangeHeader (Q_exchangeName options);
       StringHeader sourceRoutingKeyHeader (Q_routingKey options)] else headers in
  mkPublication (if dead then D_Exchange deadLetter else Q_exchangeName options)
    (if dead then NativeDirect
     else match nativeExchangeKind (Q_exchangeType options) with inr kind => kind | inl _ => NativeUnset end)
    (if dead then D_RoutingKey deadLetter else Q_routingKey options) true true
    (mkNativeMessage (V_Body delivery) messageID (V_Properties delivery)
       (if (0 <? V_Priority delivery)%Z then Some (V_Priority delivery) else None) headers).

Definition resolveFailure (delivery : Delivery) (message : option Message) (handlerErr : error)
    : io W Settlement :=
  if is_nil handlerErr then mret (NegativeAcknowledge true)
  else
    let resolution := ResolveFailure handlerErr in
    if (Classification resolution == ClassificationCanceled)
       || (Classification resolution == ClassificationInfrastructure)
    then mret (NegativeAcknowledge true)
    else
      let '(resolution, attempt) := resolve_delivery resolution (V_Headers delivery) in
      match replacement_id delivery message with
      | None => mret (NegativeAcknowledge true)
      | Some messageID =>
          '(result, err) ← Publish (replacement delivery messageID resolution attempt);
          mret (if negb (is_nil (adapterPublishError result err)) then NegativeAcknowledge true
                else Acknowledge)
      end.
End rabbit.
