(* ===== verification/RabbitSafety.v ===== *)
(** What settlement of the RabbitMQ worker guarantees: a failed delivery is acknowledged
    only when its replacement is confirmed, and a message that keeps failing reaches the
    dead-letter route after exactly the configured number of attempts. *)

From S2P Require Import Prelude GoStd Sentinels Contract Failure Job Status Records RabbitOptions Rabbit.

(** * What the adapter relies on of the native library *)

Class NativeLaws `{!Native} : Prop := {
  Int64Header_law key value :
    H_Key (Int64Header key value) = key /\ H_Kind (Int64Header key value) = HeaderInt64 /\
    H_Int64 (Int64Header key value) = value;
  StringHeader_law key value :
    H_Key (StringHeader key value) = key /\ H_String (StringHeader key value) = value;
  ErrProducerUnavailable_law : ErrProducerUnavailable <> ErrNil;
  ErrPublish_law : ErrPublishReturned <> ErrNil /\ ErrPublishRejected <> ErrNil /\
                   ErrPublishAmbiguous <> ErrNil
}.

(** Publisher confirms: [taken w] are the publications of this producer that the broker
    has taken responsibility for. A confirmed publication is among them; one that fails
    may be. *)
Class Broker (W : Type) `{!Native, !nativeProducer W} := {
  taken : W -> list Publication;
  Publish_law p w r err w' :
    Publish p w = ((r, err), w') ->
    (taken w' = taken w \/ taken w' = taken w ++ [p]) /\
    (err = ErrNil -> Valid r = true -> State r = PublishConfirmed -> taken w' = taken w ++ [p]);
  Producer_Close_law w err w' : Producer_Close w = (err, w') -> taken w' = taken w
}.

(** * Headers *)

(** The headers of the application. *)
Definition foreign (headers : list Header) : list Header :=
  List.filter (fun header => negb (settlement_header (H_Key header))) headers.

(** The first header with a key. *)
Definition carried (key : string) (headers : list Header) : option Header :=
  List.find (fun header => H_Key header == key) headers.

Lemma foreign_owned headers key :
  settlement_header key = true ->
  List.find (fun header => H_Key header == key) (foreign headers) = None.
Proof.
  intros Hk. induction headers as [|h headers IH]; simpl; [done|].
  destruct (negb _) eqn:E; simpl; [|done]. case_test; [|done].
  apply String.eqb_eq in E0. by rewrite E0, Hk in E.
Qed.

Lemma foreign_idem headers : foreign (foreign headers) = foreign headers.
Proof.
  induction headers as [|h headers IH]; simpl; [done|].
  destruct (negb _) eqn:E; simpl; [by rewrite E; f_equal|done].
Qed.

Lemma foreign_app l k : foreign (l ++ k) = foreign l ++ foreign k.
Proof. apply List.filter_app. Qed.

Lemma attempt_foreign headers rest :
  adapterDeliveryAttempt (foreign headers ++ rest) = adapterDeliveryAttempt rest.
Proof.
  induction headers as [|h headers IH]; simpl; [done|].
  destruct (negb _) eqn:E; simpl; [|done]. case_test; [done|].
  apply negb_false_iff, String.eqb_eq in E0. by rewrite E0 in E.
Qed.

Section safety.
Context `{!Native, !NativeLaws} {W : Type} `{!nativeProducer W, !Broker W}.
Context {Task : Type} (Bytes : Task -> string) (adapter : adapterWorker (Task := Task)).
Implicit Types (w : W) (d : Delivery).

#[local] Opaque ResolveFailure.

Abbreviation opts := (options adapter).
Abbreviation resolve := (resolveFailure (W := W) adapter).

(** * Round trip of the attempt *)

Lemma attempt_roundtrip headers attempt rest :
  (1 <= attempt <= MaxRetryCount + 1)%Z ->
  adapterDeliveryAttempt (adapterSettlementHeaders headers attempt ++ rest) = (attempt, true).
Proof.
  intros Ha. unfold adapterSettlementHeaders. rewrite <- app_assoc. change (List.filter _ headers) with (foreign headers).
  rewrite attempt_foreign. simpl. destruct (Int64Header_law deliveryAttemptHeader attempt) as (-> & -> & ->).
  rewrite String.eqb_refl. simpl. do 2 f_equal. lia.
Qed.

Lemma settlement_foreign headers attempt rest :
  (forall h, h ∈ rest -> settlement_header (H_Key h) = true) ->
  foreign (adapterSettlementHeaders headers attempt ++ rest) = foreign headers.
Proof.
  intros Hr. unfold adapterSettlementHeaders. change (List.filter _ headers) with (foreign headers).
  rewrite !foreign_app, foreign_idem. simpl.
  destruct (Int64Header_law deliveryAttemptHeader attempt) as (-> & _). simpl. rewrite app_nil_r.
  rewrite <- (app_nil_r (foreign headers)) at 2. f_equal.
  induction rest as [|h rest IH]; simpl; [done|]. rewrite (Hr h) by set_solver. simpl. apply IH. set_solver.
Qed.

(** * Replacements *)

(** The attempt of a delivery, when its header is valid. *)
Definition attempt_of d : option Z :=
  let '(attempt, valid) := adapterDeliveryAttempt (V_Headers d) in
  if valid then Some attempt else None.

Definition max_attempts : Z := D_MaxDeliveryAttempts (Q_deadLetter opts).
Definition work_route : string * string := (Q_exchangeName opts, Q_routingKey opts).
Definition dead_route : string * string :=
  (D_Exchange (Q_deadLetter opts), D_RoutingKey (Q_deadLetter opts)).
Definition route (p : Publication) : string * string := (B_Exchange p, B_RoutingKey p).

(** The failure ends the delivery: its kind is final, its attempt is not known, or the
    attempts are used up. *)
Definition final (err : error) d : Prop :=
  ClassifyFailure err = ClassificationPermanent \/ ClassifyFailure err = ClassificationMalformed \/
  attempt_of d = None \/ exists attempt, attempt_of d = Some attempt /\ (max_attempts <= attempt)%Z.

(** [p] is the job of [d]: a durable message with its body, identity, properties and the
    headers of the application. *)
Record replaces (p : Publication) d : Prop := {
  rp_durable : B_Mandatory p = true /\ B_Persistent p = true;
  rp_body : M_Body (B_Message p) = V_Body d;
  rp_id : M_MessageID (B_Message p) <> "" /\
          (V_MessageID d <> "" -> M_MessageID (B_Message p) = V_MessageID d);
  rp_properties : M_Properties (B_Message p) = V_Properties d;
  rp_priority : (0 <= V_Priority d)%Z -> default 0%Z (M_Priority (B_Message p)) = V_Priority d;
  rp_headers : foreign (M_Headers (B_Message p)) = foreign (V_Headers d)
}.

(** The classification a dead letter records. *)
Definition recorded_class (err : error) d : string :=
  match attempt_of d with Some _ => ClassifyFailure err | None => ClassificationMalformed end.

(** [p] is the dead letter of [d] for [err]. *)
Record dead_letter (p : Publication) d (err : error) : Prop := {
  dl_route : route p = dead_route;
  dl_attempt : adapterDeliveryAttempt (M_Headers (B_Message p)) = (default 1%Z (attempt_of d), true);
  dl_class : carried classificationHeader (M_Headers (B_Message p)) =
    Some (StringHeader classificationHeader
      (recorded_class err d));
  dl_code : exists code, code <> "" /\
    carried failureCodeHeader (M_Headers (B_Message p)) = Some (StringHeader failureCodeHeader code);
  dl_source : carried sourceQueueHeader (M_Headers (B_Message p)) =
                Some (StringHeader sourceQueueHeader (Q_queue opts)) /\
              carried sourceExchangeHeader (M_Headers (B_Message p)) =
                Some (StringHeader sourceExchangeHeader (Q_exchangeName opts)) /\
              carried sourceRoutingKeyHeader (M_Headers (B_Message p)) =
                Some (StringHeader sourceRoutingKeyHeader (Q_routingKey opts))
}.

(** [p] is the next attempt of [d]. *)
Record next_attempt (p : Publication) d : Prop := {
  na_route : route p = work_route;
  na_attempt : exists attempt, attempt_of d = Some attempt /\ (1 <= attempt < max_attempts)%Z /\
    adapterDeliveryAttempt (M_Headers (B_Message p)) = ((attempt + 1)%Z, true)
}.

Lemma attempt_of_bounds d attempt :
  attempt_of d = Some attempt -> (1 <= attempt <= MaxRetryCount + 1)%Z.
Proof.
  unfold attempt_of. induction (V_Headers d) as [|h headers IH]; simpl.
  - intros [= <-]. unfold MaxRetryCount. lia.
  - case_test; [done|]. case_test; [|done]. intros [= <-].
    rewrite !andb_true_iff in E0. lia.
Qed.

(** What [resolve_delivery] makes of a failure that is neither canceled nor of the
    infrastructure. *)
Lemma resolve_delivery_spec err d :
  let '(r, attempt) := resolve_delivery (ResolveFailure err) (V_Headers d) in
  attempt = default 1%Z (attempt_of d) /\ Code r <> "" /\
  Classification r = recorded_class err d /\
  (1 <= attempt <= MaxRetryCount + 1)%Z.
Proof.
  unfold resolve_delivery, recorded_class, ClassifyFailure. generalize (ResolveFailure err). intros resolution.
  pose proof (attempt_of_bounds d) as Hb. unfold attempt_of in *.
  destruct (adapterDeliveryAttempt (V_Headers d)) as [attempt []]; simpl.
  - specialize (Hb _ eq_refl). case_test; simpl; split_and!; try done; try lia.
    by apply String.eqb_neq.
  - split_and!; [done|done|done|unfold MaxRetryCount; lia..].
Qed.

Lemma replacement_id_spec d message id :
  replacement_id adapter d message = Some id -> id <> "" /\ (V_MessageID d <> "" -> id = V_MessageID d).
Proof.
  unfold replacement_id. destruct (N_DeliveryMessageID _) as [f|]; [case_test|].
  - destruct (f d message) as [i e]. case_test; [done|]. intros [= <-].
    apply orb_false_iff in E0 as [_ E0%String.eqb_neq]. apply String.eqb_eq in E. done.
  - case_test; [done|]. intros [= <-]. apply orb_false_iff in E0 as [_ E0%String.eqb_neq]. done.
  - case_test; [done|]. intros [= <-]. apply orb_false_iff in E as [_ E%String.eqb_neq]. done.
Qed.

Lemma carried_owned key headers attempt rest :
  settlement_header key = true -> key <> deliveryAttemptHeader ->
  carried key (adapterSettlementHeaders headers attempt ++ rest) = carried key rest.
Proof.
  intros Hk Hn. unfold carried, adapterSettlementHeaders. rewrite <- app_assoc.
  change (List.filter _ headers) with (foreign headers).
  assert (Hf : forall l k, List.find (fun h => H_Key h == key) l = None ->
    List.find (fun h => H_Key h == key) (l ++ k) = List.find (fun h => H_Key h == key) k).
  { intros l k. induction l as [|h l IH]; simpl; [done|]. by case_test. }
  rewrite Hf by by apply foreign_owned. simpl.
  destruct (Int64Header_law deliveryAttemptHeader attempt) as (-> & _).
  case_test; [|done]. apply String.eqb_eq in E. congruence.
Qed.

Lemma replacement_replaces d id r attempt :
  id <> "" -> (V_MessageID d <> "" -> id = V_MessageID d) ->
  replaces (replacement adapter d id r attempt) d.
Proof.
  intros Hi He. unfold replacement. split; simpl; [done|done|done|done| |].
  - intros Hp. case_test; simpl; lia.
  - case_test; [|rewrite <- (app_nil_r (adapterSettlementHeaders _ _))]; apply settlement_foreign; [|set_solver].
    intros h. rewrite !elem_of_cons, elem_of_nil.
    destruct (Int64Header_law envelopeVersionHeader CurrentEnvelopeVersion) as (Hv & _).
    intros [->|[->|[->|[->|[->|[->|[]]]]]]];
      rewrite ?Hv, ?(proj1 (StringHeader_law _ _)); done.
Qed.

Lemma replacement_dead err d id :
  let '(r, attempt) := resolve_delivery (ResolveFailure err) (V_Headers d) in
  terminal adapter r attempt = true -> dead_letter (replacement adapter d id r attempt) d err.
Proof.
  pose proof (resolve_delivery_spec err d) as Hs.
  destruct (resolve_delivery _ _) as [r attempt]. destruct Hs as (Ha & Hc & Hr & Hb).
  intros Ht. unfold replacement. rewrite Ht.
  assert (Hl : forall k v, H_Key (StringHeader k v) = k) by (intros; apply StringHeader_law).
  destruct (Int64Header_law envelopeVersionHeader CurrentEnvelopeVersion) as (Hv & _).
  split; simpl; [done|rewrite <- Ha; by apply attempt_roundtrip|..];
    rewrite ?carried_owned by done; unfold carried; simpl; rewrite ?Hl, ?Hv; simpl.
  - by rewrite Hr.
  - exists (terminal_code adapter r attempt). split; [|done]. unfold terminal_code. by case_test.
  - done.
Qed.

Lemma replacement_next err d id :
  let '(r, attempt) := resolve_delivery (ResolveFailure err) (V_Headers d) in
  (max_attempts <= MaxRetryCount + 1)%Z ->
  terminal adapter r attempt = false -> next_attempt (replacement adapter d id r attempt) d.
Proof.
  pose proof (resolve_delivery_spec err d) as Hs.
  destruct (resolve_delivery _ _) as [r attempt]. destruct Hs as (Ha & Hc & Hr & Hb).
  intros Hm Ht. unfold replacement. rewrite Ht. split; simpl; [done|].
  unfold terminal, exhausted in Ht. rewrite !orb_false_iff, !String.eqb_neq in Ht.
  destruct Ht as [[_ Hn] Hx]. unfold recorded_class in Hr. fold max_attempts in Hx.
  destruct (attempt_of d) as [n|]; [|done]. simpl in Ha. subst.
  exists n. split_and!; [done|lia|lia|].
  rewrite <- (app_nil_r (adapterSettlementHeaders _ _)). apply attempt_roundtrip. lia.
Qed.

Lemma terminal_final err d :
  let '(r, attempt) := resolve_delivery (ResolveFailure err) (V_Headers d) in
  terminal adapter r attempt = true <-> final err d.
Proof.
  pose proof (resolve_delivery_spec err d) as Hs.
  destruct (resolve_delivery _ _) as [r attempt]. destruct Hs as (Ha & _ & Hr & _).
  unfold terminal, exhausted, final. fold max_attempts.
  rewrite !orb_true_iff, !String.eqb_eq, Hr, Z.leb_le. unfold recorded_class.
  destruct (attempt_of d) as [n|]; simpl in Ha; subst; naive_solver.
Qed.

(** * Theorems *)

(** The publication of a replacement, and its answer. *)
Lemma resolve_cases d message err w s w' :
  resolve d message err w = (s, w') ->
  (s = NegativeAcknowledge true /\ w' = w) \/
  (err <> ErrNil /\ ClassifyFailure err <> ClassificationCanceled /\
   ClassifyFailure err <> ClassificationInfrastructure /\
   exists id result pubErr, id <> "" /\ (V_MessageID d <> "" -> id = V_MessageID d) /\
     (let '(r, attempt) := resolve_delivery (ResolveFailure err) (V_Headers d) in
      Publish (replacement adapter d id r attempt) w = ((result, pubErr), w')) /\
     s = if negb (is_nil (adapterPublishError result pubErr)) then NegativeAcknowledge true else Acknowledge).
Proof.
  unfold resolveFailure. destruct (is_nil err) eqn:En; [intros [= <- <-]; by left|].
  fold (ClassifyFailure err). case_test; [intros [= <- <-]; by left|].
  rewrite orb_false_iff, !String.eqb_neq in E. destruct E as [E1 E2].
  destruct (resolve_delivery _ _) as [r attempt].
  destruct (replacement_id adapter d message) as [id|] eqn:Ei; [|intros [= <- <-]; by left].
  intros ([result pubErr] & w1 & Hp & [= <- <-])%io_bind_inv. right.
  apply replacement_id_spec in Ei as [? ?].
  split_and!; [by intros ->|done|done|]. by exists id, result, pubErr.
Qed.

Lemma confirmed result err :
  adapterPublishError result err = ErrNil -> err = ErrNil /\ Valid result = true /\ State result = PublishConfirmed.
Proof.
  unfold adapterPublishError. destruct ErrPublish_law as (? & ? & ?).
  pose proof ErrProducerUnavailable_law. destruct (is_nil err) eqn:E; simpl; [|by intros ->].
  apply is_nil_iff in E. destruct (Valid result); simpl; [|done]. by destruct (State result).
Qed.

Lemma resolve_keeps d message err w s w' :
  rabbit_policy opts -> resolve d message err w = (s, w') ->
  (s = NegativeAcknowledge true /\
    (taken w' = taken w \/ exists p, taken w' = taken w ++ [p] /\ replaces p d)) \/
  (s = Acknowledge /\ err <> ErrNil /\ ClassifyFailure err <> ClassificationCanceled /\
    ClassifyFailure err <> ClassificationInfrastructure /\
    exists p, taken w' = taken w ++ [p] /\ replaces p d /\
      ((final err d /\ dead_letter p d err) \/ (~ final err d /\ next_attempt p d))).
Proof.
  intros Hpol [[-> ->]|(Hn & Hc & Hi & id & result & pubErr & Hid & Hd & Hp & ->)]%resolve_cases; [by left; auto|].
  pose proof (terminal_final err d) as Hf. pose proof (replacement_dead err d id) as Hdead.
  pose proof (replacement_next err d id) as Hnext. destruct (resolve_delivery _ _) as [r attempt].
  pose proof (replacement_replaces d id r attempt Hid Hd) as Hrep.
  destruct (Publish_law _ _ _ _ _ Hp) as [Hor Hok].
  destruct (is_nil (adapterPublishError result pubErr)) eqn:E; simpl; [right|left; naive_solver].
  apply is_nil_iff, confirmed in E as (-> & Hv & Hs). split_and!; try done.
  exists (replacement adapter d id r attempt). split_and!; [by apply Hok|done|].
  destruct (terminal adapter r attempt) eqn:Et; [left; split; [by apply Hf|by apply Hdead]|right].
  split; [intros Hx%Hf; congruence|]. apply Hnext; [|done].
  destruct (qp_attempts _ Hpol). unfold max_attempts, MaxRetryCount. lia.
Qed.

(** C10: A failed delivery is never lost. It is either returned to its queue, or
    acknowledged after the broker has confirmed one durable replacement with its body,
    identity, properties and application headers: the dead letter with its classification,
    code and source when the failure is final (permanent, malformed, with an invalid
    attempt or at the last attempt), the next attempt on the work route otherwise. Canceled
    and infrastructure failures, and the absence of a failure, return it unchanged. *)
Theorem failure_keeps_work d message err w s w' :
  rabbit_policy opts -> resolve d message err w = (s, w') ->
  (s = NegativeAcknowledge true /\
    (taken w' = taken w \/ exists p, taken w' = taken w ++ [p] /\ replaces p d)) \/
  (s = Acknowledge /\ err <> ErrNil /\ ClassifyFailure err <> ClassificationCanceled /\
    ClassifyFailure err <> ClassificationInfrastructure /\
    exists p, taken w' = taken w ++ [p] /\ replaces p d /\
      ((final err d /\ dead_letter p d err) \/ (~ final err d /\ next_attempt p d))).
Proof. apply resolve_keeps. Qed.

(** [d] is a delivery of the published message. *)
Record delivers (p : Publication) d : Prop := {
  dv_body : V_Body d = M_Body (B_Message p);
  dv_id : V_MessageID d = M_MessageID (B_Message p);
  dv_properties : V_Properties d = M_Properties (B_Message p);
  dv_priority : V_Priority d = default 0%Z (M_Priority (B_Message p));
  dv_headers : V_Headers d = M_Headers (B_Message p)
}.

(** [d] is the delivery of the [n]-th replacement of [d0] on the work route, each settled
    after a retryable failure. *)
Inductive redelivered (d0 : Delivery) : nat -> Delivery -> Prop :=
| redelivered_first : redelivered d0 0 d0
| redelivered_again n d message err w w' p d' :
    redelivered d0 n d -> ClassifyFailure err = ClassificationRetryable ->
    resolve d message err w = (Acknowledge, w') -> taken w' = taken w ++ [p] ->
    route p = work_route -> delivers p d' -> redelivered d0 (S n) d'.

(** A retryable failure at a known attempt. *)
Lemma retryable_step d message err w w' attempt :
  rabbit_policy opts -> ClassifyFailure err = ClassificationRetryable ->
  attempt_of d = Some attempt -> resolve d message err w = (Acknowledge, w') ->
  exists p, taken w' = taken w ++ [p] /\ replaces p d /\
    (((max_attempts <= attempt)%Z /\ route p = dead_route) \/
     ((attempt < max_attempts)%Z /\ route p = work_route /\
      adapterDeliveryAttempt (M_Headers (B_Message p)) = ((attempt + 1)%Z, true))).
Proof.
  intros Hpol Hc Ha Hr. apply resolve_keeps in Hr as [[? _]|(_ & _ & _ & _ & p & Ht & Hp & Hor)]; [done| |done].
  exists p. split_and!; [done|done|]. destruct Hor as [[Hf Hd]|[Hf Hn]].
  - left. split; [|apply Hd]. unfold final in Hf. rewrite Hc, Ha in Hf. naive_solver.
  - right. destruct Hn as [? (n & Hn & ? & ?)]. rewrite Ha in Hn. injection Hn as <-. split_and!; [lia|done|done].
Qed.

(** C11: A message that keeps failing with retryable failures is delivered again exactly
    until its attempts are used up: the n-th redelivery carries attempt number plus n and
    the unchanged body and application headers, its attempt never exceeds the maximum, and
    its next replacement goes to the dead-letter route at the maximum and to the work
    route before it. *)
Theorem attempts_exact d0 n d attempt :
  rabbit_policy opts -> attempt_of d0 = Some attempt -> (attempt <= max_attempts)%Z ->
  redelivered d0 n d ->
  attempt_of d = Some (attempt + Z.of_nat n)%Z /\ (attempt + Z.of_nat n <= max_attempts)%Z /\
  V_Body d = V_Body d0 /\ foreign (V_Headers d) = foreign (V_Headers d0) /\
  forall message err w w',
    ClassifyFailure err = ClassificationRetryable -> resolve d message err w = (Acknowledge, w') ->
    exists p, taken w' = taken w ++ [p] /\
      (route p = dead_route <-> (attempt + Z.of_nat n = max_attempts)%Z) /\
      (route p = work_route <-> (attempt + Z.of_nat n < max_attempts)%Z).
Proof.
  intros Hpol Ha Hm Hred.
  assert (Hne : dead_route <> work_route) by (destruct Hpol; done).
  assert (Hall : attempt_of d = Some (attempt + Z.of_nat n)%Z /\ (attempt + Z.of_nat n <= max_attempts)%Z /\
    V_Body d = V_Body d0 /\ foreign (V_Headers d) = foreign (V_Headers d0)).
  { induction Hred as [|n d message err w w' p d' _ IH Hc Hr Ht Hw Hd].
    - rewrite Z.add_0_r. done.
    - destruct IH as (Hi & Hle & Hb & Hf).
      destruct (retryable_step d message err w w' _ Hpol Hc Hi Hr) as (p' & Ht' & Hp & Hor).
      rewrite Ht in Ht'. apply app_inj_tail in Ht' as [_ <-].
      destruct Hor as [[_ ?]|(Hlt & _ & Hat)]; [congruence|]. destruct Hd, Hp.
      unfold attempt_of. rewrite dv_headers0, Hat. split_and!; [f_equal; lia|lia|congruence|congruence]. }
  destruct Hall as (Hi & Hle & Hb & Hf). split_and!; try done. intros message err w w' Hc Hr.
  destruct (retryable_step d message err w w' _ Hpol Hc Hi Hr) as (p & Ht & _ & Hor).
  exists p. split; [done|]. destruct Hor as [[? E]|(? & E & _)]; rewrite E; split; split; intros; done || lia || congruence.
Qed.

(** * Submission *)

(** A submission that reports success is stored by the broker as one durable message with
    the bytes of the task on the work route; submission never panics. *)
Lemma submission_stored task w r w' :
  is_Some (N_MessageID (A_config adapter)) -> adapter_queue (W := W) Bytes adapter task w = (r, w') ->
  exists err, r = Ret err /\
    (err = ErrNil -> exists p, taken w' = taken w ++ [p] /\ route p = work_route /\
       M_Body (B_Message p) = Bytes task /\ M_MessageID (B_Message p) <> "" /\
       B_Mandatory p = true /\ B_Persistent p = true).
Proof.
  intros [f Hf]. unfold adapter_queue. rewrite Hf. destruct (f task) as [id e].
  case_test; [intros [= <- <-]; eexists; split; [done|]|].
  { unfold errors_Join. simpl. by case_test. }
  apply orb_false_iff in E as [_ E%String.eqb_neq].
  destruct (nativeExchangeKind (Q_exchangeType (options adapter))) as [err|kind] eqn:Ek.
  { intros [= <- <-]. eexists. split; [done|]. unfold nativeExchangeKind in Ek. repeat case_test; naive_solver. }
  intros ([result err] & w1 & Hp & [= <- <-])%io_bind_inv. eexists. split; [done|].
  intros (-> & Hv & Hs)%confirmed. destruct (Publish_law _ _ _ _ _ Hp) as [_ Hok].
  eexists. split; [by apply Hok|]. done.
Qed.

(** A constructed worker has a valid policy and an identity for what it submits. *)
Lemma constructed_valid (args : list (Option (NativeConfig Task))) w worker w' :
  NewWorkerE (W := W) args w = (inr worker, w') ->
  rabbit_policy (A_options worker) /\ is_Some (N_MessageID (A_config worker)) /\
  Q_autoAck (A_options worker) = false /\ exists kind, nativeExchangeKind (Q_exchangeType (A_options worker)) = inr kind.
Proof.
  unfold NewWorkerE, newAdapterWorker. destruct (Q_native _) as [native|]; [|done].
  case_test; [done|]. apply orb_false_iff in E as [Ea Em%bool_decide_eq_false].
  destruct (nativeExchangeKind _) as [|kind] eqn:Ek; [done|].
  case_test; [done|]. apply is_nil_nil, validateDeadLetter_iff in E.
  case_test; [done|]. intros (err & w1 & _ & Hr)%io_bind_inv. case_test; [done|]. injection Hr as <- _.
  simpl. split_and!; [done| |done|eauto]. by apply not_eq_None_Some.
Qed.
End safety.

(** * Examples *)

Module SampleRabbit.

#[local] Instance native : Native := {|
  settings := unit;
  StringHeader k v := mkHeader k HeaderString 0 v;
  Int64Header k v := mkHeader k HeaderInt64 v "";
  Connection_Validate _ := ErrNil;
  Producer_Validate _ := ErrNil;
  Consumer_Validate _ := ErrNil;
  ErrMessageIDRequired := Sentinel "message id required";
  ErrProducerUnavailable := Sentinel "producer unavailable";
  ErrPublishReturned := Sentinel "returned";
  ErrPublishRejected := Sentinel "rejected";
  ErrPublishAmbiguous := Sentinel "ambiguous"
|}.

#[local] Instance native_laws : NativeLaws.
Proof. by split. Qed.

(** A broker that confirms what it is told to; the rest is stored without an answer. *)
Record world := mkWorld { answers : list PublishState; stored : list Publication }.

#[local] Instance producer : nativeProducer world := {|
  openNativeProducer _ _ w := (ErrNil, w);
  Publish p w :=
    match answers w with
    | PublishConfirmed :: l => ((mkPublishResult PublishConfirmed true, ErrNil), mkWorld l (stored w ++ [p]))
    | PublishRejected :: l => ((mkPublishResult PublishRejected true, ErrNil), mkWorld l (stored w))
    | _ :: l => ((mkPublishResult PublishAmbiguous true, ErrNil), mkWorld l (stored w ++ [p]))
    | [] => ((mkPublishResult PublishUnset false, Leaf "closed"), w)
    end;
  Producer_Close w := (ErrNil, w)
|}.

#[local] Instance broker : Broker world.
Proof.
  refine {| taken := stored |}.
  - intros p w r err w'. simpl.
    destruct (answers w) as [|[] l]; intros [= <- <- <-]; simpl; (split; [by auto|]); done.
  - by intros w err w' [= _ <-].
Defined.

Definition config : NativeConfig string :=
  mkNativeConfig tt (mkProducerConfig 1 tt) (mkConsumerConfig "" "" 1 1 (Reject false) tt)
    (Some (fun task => (task, ErrNil))) None.

Definition args : list (Option (NativeConfig string)) :=
  [WithNativeConfig config; WithDeadLetter (mkDeadLetterConfig "dlx" "dead" "dead" 2)].

Definition adapter : adapterWorker := mkAdapter (adapter_config config (newOptions args)) (newOptions args).

Lemma adapter_policy : rabbit_policy (options adapter).
Proof. apply validateDeadLetter_iff. reflexivity. Qed.

Definition first : Delivery := mkDelivery "job" "id-1" no_properties 3 [mkHeader "tenant" HeaderString 0 "a"].
Definition failed : error := Leaf "temporarily out of order".

Definition settle (d : Delivery) (w : world) : Settlement * world :=
  resolveFailure adapter d None failed w.

Definition idle : world := mkWorld [PublishConfirmed; PublishConfirmed] [].

(** The delivery of the last publication. *)
Definition redeliver (w : world) : Delivery :=
  match last (stored w) with
  | Some p => let m := B_Message p in
      mkDelivery (M_Body m) (M_MessageID m) (M_Properties m) (default 0%Z (M_Priority m)) (M_Headers m)
  | None => first
  end.

Definition second : Delivery := redeliver (settle first idle).2.

Lemma second_redelivered : redelivered (W := world) adapter first 1 second.
Proof.
  destruct (settle first idle) as [s w'] eqn:E.
  eapply (redelivered_again adapter first 0 first None failed idle).
  - constructor.
  - reflexivity.
  - vm_compute; reflexivity.
  - vm_compute; reflexivity.
  - reflexivity.
  - split; reflexivity.
Qed.

(** What a settlement left behind: the routes of the stored messages and their attempts. *)
Definition left_behind (w : world) : list ((string * string) * (Z * bool)) :=
  (fun p => (route p, adapterDeliveryAttempt (M_Headers (B_Message p)))) <$> stored w.

(** The broker stores the replacement and its confirmation is lost. *)
Definition unsure : world := mkWorld [PublishAmbiguous] [].
End SampleRabbit.

#[local] Existing Instances SampleRabbit.native SampleRabbit.native_laws SampleRabbit.producer SampleRabbit.broker.

(** A retryable failure whose replacement is confirmed, and one whose confirmation is lost. *)
Lemma failure_keeps_work_witness :
  (exists p, SampleRabbit.stored (SampleRabbit.settle SampleRabbit.first SampleRabbit.idle).2 = [p] /\
     replaces p SampleRabbit.first /\ next_attempt SampleRabbit.adapter p SampleRabbit.first) /\
  (SampleRabbit.settle SampleRabbit.first SampleRabbit.unsure).1 = NegativeAcknowledge true /\
  SampleRabbit.left_behind (SampleRabbit.settle SampleRabbit.first SampleRabbit.unsure).2 =
    [(("test-exchange", "test-key"), (2%Z, true))].
Proof.
  assert (Hf : ~ final SampleRabbit.adapter SampleRabbit.failed SampleRabbit.first).
  { intros [H|[H|[H|(n & H & Hm)]]]; [vm_compute in H; discriminate..|].
    injection H as <-. vm_compute in Hm. by apply Hm. }
  destruct (failure_keeps_work SampleRabbit.adapter SampleRabbit.first None SampleRabbit.failed
    SampleRabbit.idle _ _ SampleRabbit.adapter_policy
    (surjective_pairing (SampleRabbit.settle SampleRabbit.first SampleRabbit.idle)))
    as [[H _]|(_ & _ & _ & _ & p & Ht & Hp & [[H _]|[_ Hn]])].
  - vm_compute in H. discriminate.
  - by apply Hf in H.
  - split; [exists p; split_and!; [exact Ht|exact Hp|exact Hn]|]. split; vm_compute; reflexivity.
Defined.

(** With two attempts the first redelivery is the last one: its replacement is a dead
    letter. *)
Lemma attempts_exact_witness :
  attempt_of SampleRabbit.second = Some 2%Z /\ V_Body SampleRabbit.second = "job" /\
  exists p, SampleRabbit.stored (SampleRabbit.settle SampleRabbit.second SampleRabbit.idle).2 = [p] /\
    route p = dead_route SampleRabbit.adapter.
Proof.
  destruct (attempts_exact SampleRabbit.adapter SampleRabbit.first 1 SampleRabbit.second 1
    SampleRabbit.adapter_policy eq_refl ltac:(vm_compute; discriminate) SampleRabbit.second_redelivered)
    as (Ha & _ & Hb & _ & Hn).
  destruct (Hn None SampleRabbit.failed SampleRabbit.idle
    (SampleRabbit.settle SampleRabbit.second SampleRabbit.idle).2 eq_refl
    ltac:(vm_compute; reflexivity)) as (p & Ht & Hd & _).
  split; [exact Ha|]. split; [exact Hb|]. exists p. split; [exact Ht|]. apply Hd. reflexivity.
Defined.
