(* ===== verification/RabbitWorker.v ===== *)
(** The bridge between the native consumer and the queue (adapters/rabbitmq/adapter.go and
    rabbitmq.go): deliveries in their handlers, concurrent calls of [Request],
    [startConsumer], the settlement callbacks and [Shutdown], as one transition system. *)

From S2P Require Import Prelude GoStd Sentinels Contract Failure Job Status Records RabbitOptions Rabbit.

(** * State *)

(** A [sync.Once]: not called; call [t] in its function, at [phase]; or done. *)
Inductive once (P : Type) := Unused | Busy (t : nat) (phase : P) | Done.
Arguments Unused {P}.
Arguments Busy {P} _ _.
Arguments Done {P}.

Record adapterSettlementRequest := mkRequest { success : bool; handlerErr : error }.

(** Where the handler of a delivery stands: before decoding; at the send to [deliver];
    waiting for its settlement; returned. *)
Inductive handler_pc := Decoding | Sending | Awaiting | Returned (s : Settlement) (err : error).

(** [adapterDelivery] and its handler; [requested] is the channel with its one slot,
    [asked] the request that was ever put into it. *)
Record handler := mkHandler {
  h_pc : handler_pc;
  h_delivery : Delivery;
  h_message : option Message;
  requested : option adapterSettlementRequest;
  asked : option adapterSettlementRequest;
  settleOnce : once unit;
  settled : bool;
  settleErr : error
}.

(** Where the function of [consumerOnce] stands: before its first section; before the
    native consumer is opened; before the second section; stopping, with a consumer to
    close; before the third section. *)
Inductive open_phase :=
| OnceCheck
| OnceOpen
| OnceStore (openErr : error)
| OnceClose (openErr : error)
| OnceFinish (openErr closeErr : error).

(** Where the function of [closeOnce] stands. *)
Inductive close_phase :=
| CloseLock
| CloseWait
| CloseRead
| CloseConsumer (consumer : bool)
| CloseProducer.

(** Where a call of [Request], [startConsumer], a settlement callback or [Shutdown]
    stands; [select] tells a [Request] from a [startConsumer]. *)
Inductive call_pc :=
| Beginning (select : bool)                    (* before the flag *)
| Ensuring (select : bool)                     (* at consumerOnce *)
| Opening (select : bool)                      (* in its function *)
| Ensured (select : bool)
| Started
| Selecting
| Taken (n : nat)
| Refused (err : error)
| Settling (n : nat) (request : adapterSettlementRequest)
| AwaitSettlement (n : nat)                    (* in settleOnce *)
| Reported (n : nat) (err : error)
| ShuttingDown                                 (* before the swap *)
| Closing                                      (* at or in closeOnce *)
| ShutDown (err : error).

(** The fields of [Worker] and [adapterWorker]; [opened] and [closes] count what the
    library was asked: consumers that opened and calls that closed one. *)
Record bridge (W : Type) := mkBridge {
  client : W;
  stopFlag : bool;
  consumerOnce : once open_phase;
  consumerErr : error;
  consumerOpen : bool;
  consumerStop : bool;
  consumerDone : bool;
  consumerCloseErr : error;
  consumer : bool;
  closeOnce : once close_phase;
  closeErr : error;
  producer_closes : nat;
  lifetime_done : bool;
  deliver : list nat;
  handlers : gmap nat handler;
  calls : gmap nat call_pc;
  opened : nat;
  closes : nat
}.
Arguments mkBridge {W} _ _ _ _ _ _ _ _ _ _ _ _ _ _ _ _ _ _.
Arguments client {W} _.
Arguments stopFlag {W} _.
Arguments consumerOnce {W} _.
Arguments consumerErr {W} _.
Arguments consumerOpen {W} _.
Arguments consumerStop {W} _.
Arguments consumerDone {W} _.
Arguments consumerCloseErr {W} _.
Arguments consumer {W} _.
Arguments closeOnce {W} _.
Arguments closeErr {W} _.
Arguments producer_closes {W} _.
Arguments lifetime_done {W} _.
Arguments deliver {W} _.
Arguments handlers {W} _.
Arguments calls {W} _.
Arguments opened {W} _.
Arguments closes {W} _.

Section bridge.
Context `{!Native} {W : Type} `{!nativeProducer W}.
Context {Task : Type} (Bytes : Task -> string) (adapter : adapterWorker (Task := Task)).
Context (order : list (string * string) -> list (string * string)).
Context (unmarshal : string -> error + Message).
Implicit Types s : bridge W.

Definition capacity : nat := Z.to_nat (C_Prefetch (N_Consumer (A_config adapter))).

Definition with_call (t : nat) (p : call_pc) s : bridge W := s <| @calls W := <[t := p]> (calls s) |>.
Definition with_handler (n : nat) (h : handler) s : bridge W := s <| @handlers W := <[n := h]> (handlers s) |>.

(** ** ensureConsumer *)

Definition opening (t : nat) (phase : open_phase) s : bridge W := s <| @consumerOnce W := Busy t phase |>.

(** The function returns: [consumerDone] is closed in its last section. *)
Definition opening_done (t : nat) (select : bool) s : go (bridge W) :=
  if consumerDone s then Panic "close of closed channel"
  else Ret (with_call t (Ensured select) (s <| @consumerDone W := true |> <| @consumerOnce W := @Done open_phase |>)).

(** A step of the function of [consumerOnce]; [answer] is what the library returns. *)
Definition once_step (t : nat) (select : bool) (answer : error) (phase : open_phase) s : go (bridge W) :=
  match phase with
  | OnceCheck =>
      if consumerStop s then opening_done t select (s <| @consumerErr W := ErrQueueHasBeenClosed |>)
      else Ret (opening t OnceOpen (s <| @consumerOpen W := true |>))
  | OnceOpen =>
      Ret (opening t (OnceStore answer) (if is_nil answer then s <| @opened W := S (opened s) |> else s))
  | OnceStore openErr =>
      if negb (consumerStop s)
      then opening_done t select (s <| @consumer W := is_nil openErr |> <| @consumerErr W := openErr |>
                             <| @consumerOpen W := false |>)
      else Ret (opening t (if is_nil openErr then OnceClose openErr else OnceFinish openErr ErrNil) s)
  | OnceClose openErr => Ret (opening t (OnceFinish openErr answer) (s <| @closes W := S (closes s) |>))
  | OnceFinish openErr closeErr =>
      opening_done t select (s <| @consumerErr W := errors_Join [ErrQueueHasBeenClosed; openErr; closeErr] |>
                        <| @consumerCloseErr W := closeErr |> <| @consumerOpen W := false |>)
  end.

(** The end of [ensureConsumer], and the select, which needs a consumer. *)
Definition ensured (t : nat) (select : bool) s : go (bridge W) :=
  if negb (is_nil (consumerErr s)) then Ret (with_call t (Refused (consumerErr s)) s)
  else if negb select then Ret (with_call t Started s)
  else if consumer s then Ret (with_call t Selecting s)
  else Panic "invalid memory address or nil pointer dereference".

(** ** Settlement *)

Definition on_handler (n : nat) s (k : handler -> option (go (bridge W))) : option (go (bridge W)) :=
  match handlers s !! n with Some h => k h | None => None end.

(** [settle]: the first call sends its request, the others wait for it. *)
Definition settle (t n : nat) (request : adapterSettlementRequest) s : option (go (bridge W)) :=
  on_handler n s (fun h => match settleOnce h with
  | Unused =>
      Some (Ret (with_call t (AwaitSettlement n)
        (with_handler n (h <| requested := Some request |> <| asked := Some request |> <| settleOnce := Busy t tt |>) s)))
  | Busy _ _ => None
  | Done => Some (Ret (with_call t (Reported n (settleErr h)) s))
  end).

(** The native settlement has answered. *)
Definition settle_end (t n : nat) (answer : error) s : option (go (bridge W)) :=
  on_handler n s (fun h => Some (if settled h then Panic "close of closed channel"
        else Ret (with_call t (Reported n answer)
               (with_handler n (h <| settleErr := answer |> <| settled := true |> <| settleOnce := @Done unit |>) s)))).

(** ** close *)

Definition closing (t : nat) (phase : close_phase) s : bridge W := s <| @closeOnce W := Busy t phase |>.

Definition close_producer (t : nat) s : bridge W :=
  let '(err, w) := Producer_Close (client s) in
  let s := s <| @client W := w |> <| @closeErr W := errors_Join [closeErr s; err] |>
             <| @producer_closes W := S (producer_closes s) |> <| @lifetime_done W := true |>
             <| @closeOnce W := @Done close_phase |> in
  with_call t (ShutDown (closeErr s)) s.

(** A step of the function of [closeOnce]. *)
Definition close_step (t : nat) (answer : error) (phase : close_phase) s : option (bridge W) :=
  match phase with
  | CloseLock =>
      Some (closing t (if consumerOpen s then CloseWait else CloseConsumer (consumer s))
              (s <| @consumerStop W := true |>))
  | CloseWait => if consumerDone s then Some (closing t CloseRead s) else None
  | CloseRead =>
      Some (closing t (CloseConsumer (consumer s))
              (s <| @closeErr W := errors_Join [closeErr s; consumerCloseErr s] |>))
  | CloseConsumer consumer =>
      Some (closing t CloseProducer
        (if consumer
         then s <| @closeErr W := errors_Join [closeErr s; answer] |> <| @closes W := S (closes s) |>
         else s))
  | CloseProducer => Some (close_producer t s)
  end.

(** The call of [close]: it runs the function, is in it, waits for another call, or finds
    it done. *)
Definition close_call (t : nat) (answer : error) s : option (go (bridge W)) :=
  match closeOnce s with
  | Unused => Some (Ret (closing t CloseLock s))
  | Busy u phase => if (u =? t)%nat then Ret <$> close_step t answer phase s else None
  | Done => Some (Ret (with_call t (ShutDown (closeErr s)) s))
  end.

(** A step of call [t]; [answer] is the error a library call returns; [None] while the call
    is blocked or has returned. *)
Definition call_step (t : nat) (answer : error) (p : call_pc) s : option (go (bridge W)) :=
  match p with
  | Beginning select =>
      Some (Ret (with_call t (if stopFlag s
                              then Refused (if select then ErrQueueHasBeenClosed else ErrQueueShutdown)
                              else Ensuring select) s))
  | Ensuring select =>
      match consumerOnce s with
      | Unused => Some (Ret (with_call t (Opening select) (opening t OnceCheck s)))
      | Busy _ _ => None
      | Done => Some (Ret (with_call t (Ensured select) s))
      end
  | Opening select =>
      match consumerOnce s with
      | Busy u phase => if (u =? t)%nat then Some (once_step t select answer phase s) else None
      | _ => None
      end
  | Ensured select => Some (ensured t select s)
  | Selecting =>
      match deliver s with
      | n :: rest => Some (Ret (with_call t (Taken n) (s <| @deliver W := rest |>)))
      | [] => None
      end
  | Settling n request => settle t n request s
  | AwaitSettlement n => settle_end t n answer s
  | ShuttingDown =>
      Some (Ret (if stopFlag s then with_call t (ShutDown ErrQueueShutdown) s
                 else with_call t Closing (s <| @stopFlag W := true |>)))
  | Closing => close_call t answer s
  | Started | Taken _ | Refused _ | Reported _ _ | ShutDown _ => None
  end.

(** Why a call stops waiting. *)
Inductive cause := TimerFired | ConsumerGone | LifetimeDone.

(** Call [t] stops waiting: the request timeout, the end of the native consumer or of the
    lifetime in the select; the bound on waiting for an opening consumer in [close]. *)
Definition expire (t : nat) (why : cause) (p : call_pc) s : option (go (bridge W)) :=
  match p with
  | Selecting =>
      match why with
      | TimerFired => Some (Ret (with_call t (Refused ErrNoTaskInQueue) s))
      | ConsumerGone => Some (Ret (with_call t (Refused ErrQueueHasBeenClosed) s))
      | LifetimeDone => if lifetime_done s then Some (Ret (with_call t (Refused ErrQueueHasBeenClosed) s)) else None
      end
  | Closing =>
      match closeOnce s with
      | Busy u CloseWait =>
          if (u =? t)%nat then Some (Ret (closing t CloseRead (s <| @closeErr W := Sentinel DeadlineExceeded |>)))
          else None
      | _ => None
      end
  | _ => None
  end.

(** ** The handler *)

(** The empty channel. *)
Definition no_request : option adapterSettlementRequest := None.

Definition malformed (err : error) : error := NewFailure ClassificationMalformed "malformed_delivery" err.

(** The handler returns what the resolution of the failure says. *)
Definition handler_fails (n : nat) (err : error) (h : handler) s : go (bridge W) :=
  let '(settlement, w) := resolveFailure adapter (h_delivery h) (h_message h) err (client s) in
  Ret (with_handler n (h <| h_pc := Returned settlement ErrNil |> <| requested := no_request |>) (s <| @client W := w |>)).

Definition handle (n : nat) (h : handler) s : option (go (bridge W)) :=
  match h_pc h with
  | Decoding =>
      Some match DecodeE order unmarshal (V_Body (h_delivery h)) DefaultMaxMessageBytes with
           | inl err => handler_fails n (malformed err) h s
           | inr message => Ret (with_handler n (h <| h_pc := Sending |> <| h_message := Some message |>) s)
           end
  | Sending =>
      if (length (deliver s) <? capacity)%nat
      then Some (Ret (with_handler n (h <| h_pc := Awaiting |>) (s <| @deliver W := deliver s ++ [n] |>)))
      else None
  | Awaiting =>
      match requested h with
      | None => None
      | Some request =>
          Some (if success request
                then Ret (with_handler n (h <| h_pc := Returned Acknowledge ErrNil |> <| requested := no_request |>) s)
                else handler_fails n (handlerErr request) h s)
      end
  | Returned _ _ => None
  end.

(** The context of the handler ends with [err], or the lifetime of the adapter ends: the
    answer is the failure settlement of the consumer's configuration. *)
Definition abandon (n : nat) (err : error) (h : handler) s : option (go (bridge W)) :=
  match h_pc h with
  | Sending | Awaiting => Some (Ret (with_handler n (h <| h_pc := Returned (C_Failure (N_Consumer (A_config adapter))) err |>) s))
  | _ => None
  end.

(** ** Events *)

Inductive event :=
| Request (t : nat)
| StartConsumer (t : nat)
| Settle (t n : nat) (request : adapterSettlementRequest)
| Shutdown (t : nat)
| Submit (task : Task)
| Deliver (n : nat) (d : Delivery)              (* the native consumer runs a handler *)
| Step (t : nat) (answer : error)
| Expire (t : nat) (why : cause)
| Handle (n : nat)
| Abandon (n : nat) (err : error)
| Lifetime (n : nat)
| Pass (t n : nat).                             (* a send and a receive without a buffer *)

Definition enter (t : nat) (p : call_pc) s : option (go (bridge W)) :=
  match calls s !! t with Some _ => None | None => Some (Ret (with_call t p s)) end.

(** [Queue] of a running worker uses the same producer. *)
Definition submit (task : Task) s : go (bridge W) :=
  let '(r, w) := Queue Bytes adapter (stopFlag s) task (client s) in
  match r with Ret _ => Ret (s <| @client W := w |>) | Panic why => Panic why end.

(** A settlement callback exists for a message that a request returned. *)
Definition received (n : nat) s : bool :=
  existsb (fun '(_, p) => match p with Taken m => (m =? n)%nat | _ => false end) (map_to_list (calls s)).

Definition pass (t n : nat) s : option (go (bridge W)) :=
  on_handler n s (fun h => match calls s !! t, h_pc h, capacity with
  | Some Selecting, Sending, 0 => Some (Ret (with_call t (Taken n) (with_handler n (h <| h_pc := Awaiting |>) s)))
  | _, _, _ => None
  end).

Definition step (e : event) s : option (go (bridge W)) :=
  match e with
  | Request t => enter t (Beginning true) s
  | StartConsumer t => enter t (Beginning false) s
  | Settle t n request => if received n s then enter t (Settling n request) s else None
  | Shutdown t => enter t ShuttingDown s
  | Submit task => Some (submit task s)
  | Deliver n d =>
      match handlers s !! n with
      | Some _ => None
      | None => if (closes s <? opened s)%nat
                then Some (Ret (with_handler n (mkHandler Decoding d None None None Unused false ErrNil) s))
                else None
      end
  | Step t answer => p ← calls s !! t; call_step t answer p s
  | Expire t why => p ← calls s !! t; expire t why p s
  | Handle n => on_handler n s (fun h => handle n h s)
  | Abandon n err => if is_nil err then None else on_handler n s (fun h => abandon n err h s)
  | Lifetime n => if lifetime_done s then on_handler n s (fun h => abandon n (Sentinel Canceled) h s) else None
  | Pass t n => pass t n s
  end.

Fixpoint run (es : list event) s : option (go (bridge W)) :=
  match es with
  | [] => Some (Ret s)
  | e :: es => match step e s with Some (Ret s) => run es s | r => r end
  end.

Definition initial (w : W) : bridge W :=
  mkBridge w false Unused ErrNil false false false ErrNil false Unused ErrNil 0 false [] ∅ ∅ 0 0.
End bridge.
