(* ===== verification/RabbitWorkerSafety.v ===== *)
(** What the bridge of the RabbitMQ worker guarantees: a native consumer is opened at most
    once and closed by whoever holds it, no channel is closed twice, a delivery goes to one
    request, is settled once and is acknowledged only when its job is done or stored. *)

From S2P Require Import Prelude GoStd Sentinels Contract Failure Job Status Records RabbitOptions Rabbit RabbitSafety.
From S2P Require Import RabbitWorker.

(** * Phases *)

Definition is_done {P} (o : once P) : bool := match o with Done => true | _ => false end.

(** The function that opens the consumer has set its flag. *)
Definition is_open (o : once open_phase) : bool :=
  match o with Busy _ OnceCheck => false | Busy _ _ => true | _ => false end.

(** [close] has set [consumerStop]. *)
Definition has_stopped (o : once close_phase) : bool :=
  match o with Unused | Busy _ CloseLock => false | _ => true end.

(** [close] is past the native consumer. *)
Definition past_consumer (o : once close_phase) : bool :=
  match o with Busy _ CloseProducer | Done => true | _ => false end.

(** The consumers that the opening function holds. *)
Definition held_open (o : once open_phase) : nat :=
  match o with
  | Busy _ (OnceStore openErr) => Nat.b2n (is_nil openErr)
  | Busy _ (OnceClose _) => 1
  | _ => 0
  end.

Definition not_opened (o : once open_phase) : bool :=
  match o with Unused | Busy _ OnceCheck | Busy _ OnceOpen => true | _ => false end.

Definition stopping_phase (o : once open_phase) : bool :=
  match o with Busy _ (OnceClose _) | Busy _ (OnceFinish _ _) => true | _ => false end.

Definition call_ok (opened closed : bool) (p : call_pc) : Prop :=
  match p with
  | Ensured _ => opened = true
  | ShutDown err => err = ErrQueueShutdown \/ closed = true
  | _ => True
  end.

(** What [close] knows of the consumer. *)
Definition closing_ok (o : once close_phase) (consumer : bool) : Prop :=
  match o with
  | Busy _ (CloseWait | CloseRead) => consumer = false
  | Busy _ (CloseConsumer b) => b = consumer
  | _ => True
  end.

Definition shutting (p : call_pc) : nat := match p with Closing => 1 | _ => 0 end.

Section safety.
Context `{NA : !Native} {W : Type} `{!nativeProducer W}.
Context {Task : Type} (Bytes : Task -> string) (adapter : adapterWorker (Task := Task)).
Context (order : list (string * string) -> list (string * string)).
Context (unmarshal : string -> error + Message).
Implicit Types s : bridge W.

Abbreviation step := (step Bytes adapter order unmarshal).
Abbreviation run := (run Bytes adapter order unmarshal).

(** * The native consumer *)

Record consumer_ok s : Prop := {
  a_done : consumerDone s = is_done (consumerOnce s);
  a_consumer : consumer s = is_done (consumerOnce s) && is_nil (consumerErr s);
  a_open : consumerOpen s = is_open (consumerOnce s);
  a_stop : consumerStop s = has_stopped (closeOnce s);
  a_stopping : stopping_phase (consumerOnce s) = true -> consumerStop s = true;
  a_closing : closing_ok (closeOnce s) (consumer s);
  a_producer : producer_closes s = Nat.b2n (is_done (closeOnce s)) /\
               lifetime_done s = is_done (closeOnce s);
  a_count : opened s = (closes s + held_open (consumerOnce s) +
                        Nat.b2n (consumer s && negb (past_consumer (closeOnce s))))%nat;
  a_once : (opened s <= 1)%nat /\ (not_opened (consumerOnce s) = true -> opened s = 0%nat);
  a_calls : map_Forall (fun _ => call_ok (is_done (consumerOnce s)) (is_done (closeOnce s))) (calls s);
  a_shutting : (tally shutting (calls s) + Nat.b2n (is_done (closeOnce s)))%nat = Nat.b2n (stopFlag s);
  a_owner : match closeOnce s with Busy t _ => calls s !! t = Some Closing | _ => True end
}.

Lemma calls_insert a b (m : gmap nat call_pc) t p :
  map_Forall (fun _ => call_ok a b) m -> call_ok a b p -> map_Forall (fun _ => call_ok a b) (<[t := p]> m).
Proof. intros. by apply map_Forall_insert_2. Qed.

Lemma calls_grow a b a' b' (m : gmap nat call_pc) :
  map_Forall (fun _ => call_ok a b) m -> (a = true -> a' = true) -> (b = true -> b' = true) ->
  map_Forall (fun _ => call_ok a' b') m.
Proof. intros H Ha Hb t p Hp. specialize (H t p Hp). destruct p; simpl in *; tauto. Qed.

Lemma initial_consumer w : consumer_ok (initial w).
Proof.
  unfold initial. split; simpl; try done; try (by split; lia); try apply map_Forall_empty.
Qed.

(** The fields of the consumer do not depend on the rest of the state. *)
Lemma handler_consumer n h s : consumer_ok s -> consumer_ok (with_handler n h s).
Proof. destruct s. intros []. by split. Qed.

Lemma client_consumer w s : consumer_ok s -> consumer_ok (s <| @client W := w |>).
Proof. destruct s. intros []. by split. Qed.

Lemma deliver_consumer l s : consumer_ok s -> consumer_ok (s <| @deliver W := l |>).
Proof. destruct s. intros []. by split. Qed.

(** The owner of [closeOnce] keeps its place when another call moves. *)
Lemma owner_insert (o : once close_phase) (m : gmap nat call_pc) t p p' :
  match o with Busy u _ => m !! u = Some Closing | _ => True end ->
  m !! t = p -> p <> Some Closing ->
  match o with Busy u _ => <[t := p']> m !! u = Some Closing | _ => True end.
Proof.
  destruct o as [|u ph|]; [done| |done]. intros Ho Hp Hn.
  destruct (decide (u = t)) as [->|]; [congruence|by rewrite lookup_insert_ne].
Qed.

Lemma shutting_insert (m : gmap nat call_pc) t p p' :
  m !! t = Some p -> p <> Closing -> shutting p' = 0%nat ->
  tally shutting (<[t := p']> m) = tally shutting m.
Proof.
  intros Ht Hp H'. pose proof (tally_set shutting m t p p' Ht).
  assert (shutting p = 0%nat) by (by destruct p). lia.
Qed.

(** A call moves between points that concern neither function. *)
Lemma call_consumer t p p' s :
  consumer_ok s -> calls s !! t = Some p -> p <> Closing -> shutting p' = 0%nat ->
  call_ok (is_done (consumerOnce s)) (is_done (closeOnce s)) p' -> consumer_ok (with_call t p' s).
Proof.
  destruct s. intros [] Ht Hp H' Hok. simpl in *. split; simpl; try done.
  - by apply calls_insert.
  - by rewrite (shutting_insert _ _ p).
  - eapply owner_insert; [done|exact Ht|congruence].
Qed.

Lemma enter_consumer t p s :
  consumer_ok s -> calls s !! t = None -> shutting p = 0%nat ->
  call_ok (is_done (consumerOnce s)) (is_done (closeOnce s)) p -> consumer_ok (with_call t p s).
Proof.
  destruct s. intros [] Ht Hp Hok. simpl in *. split; simpl; try done.
  - by apply calls_insert.
  - by rewrite tally_new, Hp.
  - eapply owner_insert; [done|exact Ht|congruence].
Qed.

(** Opens the state and its invariant. *)
Ltac open_consumer :=
  match goal with s : bridge W |- _ => destruct s end;
  match goal with H : consumer_ok _ |- _ => destruct H as [? ? ? ? ? ? [? ?] ? [? ?] ? ? ?] end;
  simpl in *; subst; simpl in *.

(** Closes what follows from the booleans and counters of the state; [t] is at [p]. *)
Ltac close_field Ht :=
  try done; try lia; try tauto;
  try (by eapply calls_insert; [eapply calls_grow; [eassumption|done|done]|done]);
  try (by erewrite shutting_insert by done);
  try (by eapply owner_insert; [done|exact Ht|done]).

Lemma once_consumer t select answer phase s :
  consumer_ok s -> consumerOnce s = Busy t phase -> calls s !! t = Some (Opening select) ->
  exists s', once_step t select answer phase s = Ret s' /\ consumer_ok s'.
Proof.
  intros H E Ht. destruct phase; unfold once_step, opening_done, opening.
  - destruct (consumerStop s) eqn:Es; open_consumer; rewrite ?Es; eexists; (split; [done|]).
    + split; simpl; close_field Ht.
    + split; simpl; close_field Ht.
  - destruct (is_nil answer) eqn:Ea; open_consumer; eexists; (split; [done|]);
      (split; simpl; rewrite ?Ea; close_field Ht).
  - destruct (consumerStop s) eqn:Es; simpl; destruct (is_nil openErr) eqn:Ea; open_consumer;
      rewrite ?Es, ?Ea in *; eexists; (split; [done|]).
    all: split; simpl; rewrite ?Es, ?Ea; close_field Ht.
    all: destruct closeOnce as [|? []|]; simpl in *; close_field Ht.
  - open_consumer. eexists. split; [done|]. split; simpl; close_field Ht.
  - open_consumer. eexists. split; [done|]. split; simpl; close_field Ht.
Qed.

(** A step of the function of [closeOnce]. *)
Lemma close_consumer_ok t answer phase s s' :
  consumer_ok s -> closeOnce s = Busy t phase -> close_step t answer phase s = Some s' ->
  consumer_ok s'.
Proof.
  intros H E. assert (Ht : calls s !! t = Some Closing) by (by destruct H; rewrite E in *).
  destruct phase; simpl.
  - destruct (consumerOpen s) eqn:Eo; intros [= <-]; open_consumer; rewrite ?Eo in *.
    all: split; simpl; close_field Ht. by destruct consumerOnce as [|? []|].
  - destruct (consumerDone s) eqn:Eo; [|done]. intros [= <-]. open_consumer. split; simpl; close_field Ht.
  - intros [= <-]. open_consumer. split; simpl; close_field Ht.
  - destruct consumer; intros [= <-]; open_consumer. all: split; simpl; close_field Ht.
  - unfold close_producer. destruct (Producer_Close _) as [err w]. intros [= <-]. open_consumer.
    split; simpl; close_field Ht.
    + eapply calls_insert; [by eapply calls_grow|by right].
    + pose proof (tally_set shutting calls t Closing (ShutDown (errors_Join [closeErr; err])) Ht).
      simpl in *. lia.
Qed.

Lemma close_call_ok t answer s r :
  consumer_ok s -> calls s !! t = Some Closing -> close_call t answer s = Some r ->
  exists s', r = Ret s' /\ consumer_ok s'.
Proof.
  intros H Ht. unfold close_call. destruct (closeOnce s) as [|u phase|] eqn:E.
  - intros [= <-]. eexists. split; [done|]. open_consumer. by split.
  - destruct (Nat.eqb_spec u t) as [->|]; [|done].
    destruct (close_step t answer phase s) eqn:Es; [|done]. intros [= <-]. eauto using close_consumer_ok.
  - pose proof (a_shutting s H) as Hs. rewrite E in Hs. pose proof (tally_le shutting _ _ _ Ht).
    destruct (stopFlag s); simpl in *; lia.
Qed.

Lemma expire_consumer t why p s s' :
  consumer_ok s -> calls s !! t = Some p -> expire t why p s = Some (Ret s') -> consumer_ok s'.
Proof.
  intros H Ht. destruct p; simpl; try done.
  - destruct why; [| |destruct (lifetime_done s); [|done]]; intros [= <-]; by eapply call_consumer.
  - destruct (closeOnce s) as [|u []|] eqn:E; try done. case_test; [|done].
    apply Nat.eqb_eq in E0 as ->. intros [= <-]. open_consumer. by split.
Qed.

(** A call that is not about settlement. *)
Lemma calls_consumer t answer p s r :
  consumer_ok s -> calls s !! t = Some p -> call_step t answer p s = Some r ->
  (forall n, p <> AwaitSettlement n) -> exists s', r = Ret s' /\ consumer_ok s'.
Proof.
  intros H Ht. destruct p; simpl; try done; intros Hr Hn.
  - injection Hr as <-. eexists. split; [done|]. eapply call_consumer; [done|done|done|by case_test..].
  - destruct (consumerOnce s) as [| |] eqn:E; try done; injection Hr as <-; eexists; (split; [done|]).
    + open_consumer. split; simpl; close_field Ht.
    + eapply call_consumer; [done|done|done|done|by rewrite E].
  - destruct (consumerOnce s) as [|u phase|] eqn:E; try done.
    destruct (Nat.eqb_spec u t) as [->|]; [|done]. injection Hr as <-. by apply once_consumer.
  - injection Hr as <-. unfold ensured.
    pose proof (a_calls s H t _ Ht) as Hd. simpl in Hd.
    destruct (is_nil (consumerErr s)) eqn:E; simpl.
    + rewrite (a_consumer s H), Hd, E. case_test; eexists; (split; [done|]); by eapply call_consumer.
    + eexists. split; [done|]. by eapply call_consumer.
  - destruct (deliver s) as [|n l] eqn:E; [done|]. injection Hr as <-. eexists. split; [done|].
    apply (call_consumer t Selecting); [by apply deliver_consumer|by destruct s|done|done|by destruct s].
  - unfold settle, on_handler in Hr. destruct (handlers s !! n) as [h|]; [|done].
    destruct (settleOnce h); [|done|]; injection Hr as <-; eexists; (split; [done|]).
    + apply (call_consumer t (Settling n request)); [by apply handler_consumer|by destruct s|done..].
    + by eapply call_consumer.
  - by destruct (Hn n).
  - injection Hr as <-. destruct (stopFlag s) eqn:E; eexists; (split; [done|]).
    + eapply call_consumer; [done|done|done|done|by left].
    + pose proof (tally_set shutting _ _ _ Closing Ht) as Hs. simpl in Hs.
      open_consumer. split; simpl; close_field Ht.
  - by eapply close_call_ok.
Qed.
End safety.
