(* ===== verification/RabbitDelivery.v ===== *)
(** What becomes of a delivery in the bridge of the RabbitMQ worker: it goes to at most one
    request, its settlement is decided once, and the broker is told to forget it only when
    the job is done or stored again; and the theorems on the whole bridge. *)

From S2P Require Import Prelude GoStd Sentinels Contract Failure Job Status Records RabbitOptions Rabbit RabbitSafety.
From S2P Require Import RabbitWorker RabbitWorkerSafety.

(** The handler has not handed its delivery over. *)
Definition early (h : handler) : bool :=
  match h_pc h with Decoding | Sending => true | _ => false end.

(** The handler after the hand-over. *)
Definition handed (h : handler) : handler := h <| h_pc := Awaiting |>.

(** How often a delivery may be waiting or taken. *)
Definition due (n : nat) (hs : gmap nat handler) : nat :=
  match hs !! n with Some h => Nat.b2n (negb (early h)) | None => 0 end.

Definition taking (n : nat) (p : call_pc) : nat :=
  match p with Taken m => Nat.b2n (m =? n)%nat | _ => 0 end.

(** Points of a call that hold no delivery. *)
Definition neutral (p : call_pc) : Prop :=
  match p with Taken _ | AwaitSettlement _ => False | _ => True end.

Abbreviation occurrences := (count_occ Nat.eq_dec).

Section delivery.
Context `{NA : !Native, NL : !NativeLaws} {W : Type} `{NP : !nativeProducer W, BR : !Broker W}.
Context {Task : Type} (Bytes : Task -> string) (adapter : adapterWorker (Task := Task)).
Context (order : list (string * string) -> list (string * string)).
Context (unmarshal : string -> error + Message).
Implicit Types (s : bridge W) (w : W).

Abbreviation step := (step Bytes adapter order unmarshal).
Abbreviation run := (run Bytes adapter order unmarshal).

(** The job of a delivery is done, or the broker has taken a replacement of it. *)
Definition accounted w (h : handler) : Prop :=
  (exists request, asked h = Some request /\ success request = true) \/
  exists p, p ∈ taken w /\ replaces p (h_delivery h).

(** The delivery could not be decoded, or the settlement call that decided it reported a
    failure. *)
Definition failing (h : handler) : Prop :=
  h_message h = None \/ exists request, asked h = Some request /\ success request = false.

(** What a handler that has returned may answer. *)
Inductive verdict w (h : handler) : Settlement -> error -> Prop :=
| verdict_done request :                          (* the job is done *)
    asked h = Some request -> success request = true -> verdict w h Acknowledge ErrNil
| verdict_replaced p :                            (* it failed and is stored again *)
    failing h -> p ∈ taken w -> replaces p (h_delivery h) -> verdict w h Acknowledge ErrNil
| verdict_again :                                 (* it failed and goes back to its queue *)
    failing h -> verdict w h (NegativeAcknowledge true) ErrNil
| verdict_abandoned err :                         (* the context or the lifetime ended first *)
    err <> ErrNil -> verdict w h (C_Failure (N_Consumer (A_config adapter))) err.

(** The settlements after which the broker no longer has the delivery in its queue. *)
Definition forgets (v : Settlement) : bool :=
  match v with Acknowledge => true | NegativeAcknowledge requeue | Reject requeue => negb requeue end.

Record handler_ok w (h : handler) : Prop := {
  hk_settled : settled h = is_done (settleOnce h);
  hk_asked : asked h = None <-> settleOnce h = Unused;
  hk_requested : requested h = None \/ requested h = asked h;
  hk_decoding : h_pc h = Decoding -> h_message h = None;
  hk_verdict : forall v err, h_pc h = Returned v err -> verdict w h v err
}.

Record delivery_ok s : Prop := {
  d_handlers : map_Forall (fun _ => handler_ok (client s)) (handlers s);
  d_tokens : forall n, (occurrences (deliver s) n + tally (taking n) (calls s) <= due n (handlers s))%nat;
  d_buffer : (length (deliver s) <= capacity adapter)%nat;
  d_waits : forall t n, calls s !! t = Some (AwaitSettlement n) ->
    exists h, handlers s !! n = Some h /\ settleOnce h = Busy t tt
}.

Lemma initial_delivery w : delivery_ok (initial w).
Proof.
  unfold initial. split; simpl; [apply map_Forall_empty| |lia|].
  - intros n. unfold tally. rewrite map_fold_empty. lia.
  - intros t n. by rewrite lookup_empty.
Qed.

(** What the broker has taken stays taken. *)
Definition keeps w w' : Prop := forall p, p ∈ taken w -> p ∈ taken w'.

Lemma accounted_keeps w w' h : keeps w w' -> accounted w h -> accounted w' h.
Proof. intros Hk [?|(p & Hp & ?)]; [by left|right; eauto]. Qed.

Lemma verdict_keeps w w' h v err : keeps w w' -> verdict w h v err -> verdict w' h v err.
Proof. intros Hk []; [by eapply verdict_done|by eapply verdict_replaced; [|apply Hk|]|by apply verdict_again|by apply verdict_abandoned]. Qed.

Lemma verdict_forgets w h v err :
  verdict w h v err -> forgets v = true ->
  accounted w h \/ (err <> ErrNil /\ v = C_Failure (N_Consumer (A_config adapter))).
Proof. intros [] Hv; [left; left; eauto|left; right; eauto|done|by right]. Qed.

Lemma handler_keeps w w' h : keeps w w' -> handler_ok w h -> handler_ok w' h.
Proof. intros Hk []. split; [done..|]. eauto using verdict_keeps. Qed.

Lemma Publish_keeps p w r err w' : Publish p w = ((r, err), w') -> keeps w w'.
Proof. intros [[E|E] _]%Publish_law q Hq; rewrite E; [done|]. apply elem_of_app. by left. Qed.

(** A step that leaves handlers and channel alone and moves call [t] at most to a neutral
    point. *)
Record quiet (t : nat) s s' : Prop := {
  q_handlers : handlers s' = handlers s;
  q_deliver : deliver s' = deliver s;
  q_client : keeps (client s) (client s');
  q_calls : calls s' = calls s \/ exists p, neutral p /\ calls s' = <[t := p]> (calls s)
}.

Lemma taking_neutral n p : neutral p -> taking n p = 0%nat.
Proof. by destruct p. Qed.

Lemma tally_neutral n (m : gmap nat call_pc) t p :
  neutral p -> (forall k, m !! t <> Some (Taken k)) -> tally (taking n) (<[t := p]> m) = tally (taking n) m.
Proof.
  intros Hp Hn. destruct (m !! t) as [q|] eqn:E.
  - pose proof (tally_set (taking n) m t q p E) as Hs. rewrite (taking_neutral n p Hp) in Hs.
    assert (taking n q = 0%nat) by (destruct q; try done; by destruct (Hn n0)). lia.
  - rewrite tally_new by done. by rewrite taking_neutral.
Qed.

Lemma quiet_delivery t s s' :
  delivery_ok s -> (forall k, calls s !! t <> Some (Taken k)) -> quiet t s s' -> delivery_ok s'.
Proof.
  intros [Hh Ht Hb Hw] Hn [Eh Ed Hk Hc]. split; rewrite ?Eh, ?Ed.
  - intros n h Hl. eapply handler_keeps; [done|]. by apply (Hh n).
  - intros n. destruct Hc as [->|(p & Hp & ->)]; [done|]. by rewrite tally_neutral.
  - done.
  - intros u n. destruct Hc as [->|(p & Hp & ->)]; [apply Hw|].
    intros [[_ E]|[_ ?]]%lookup_insert_Some; [by subst|by apply Hw].
Qed.

(** A step of the handler of [n] that leaves its once alone. *)
Lemma handler_delivery n h h' w s :
  delivery_ok s -> handlers s !! n = Some h -> handler_ok w h' -> keeps (client s) w ->
  settleOnce h' = settleOnce h -> (early h' = true -> early h = true) ->
  delivery_ok (with_handler n h' (s <| @client W := w |>)).
Proof.
  destruct s. intros [Hh Ht Hb Hw] Hn H' Hk Hs He. simpl in *. split; simpl.
  - apply map_Forall_insert_2; [done|]. intros k g Hg. eapply handler_keeps; [done|]. by apply (Hh k).
  - intros k. specialize (Ht k). unfold due in *. destruct (decide (k = n)) as [->|].
    + rewrite lookup_insert_eq, Hn in *. destruct (early h), (early h'); simpl in *; auto; lia || naive_solver.
    + by rewrite lookup_insert_ne.
  - done.
  - intros u k (g & Hg & Hgs)%Hw. destruct (decide (k = n)) as [->|].
    + rewrite lookup_insert_eq. exists h'. split; [done|]. congruence.
    + rewrite lookup_insert_ne by done. eauto.
Qed.

Lemma handler_same n h h' s :
  delivery_ok s -> handlers s !! n = Some h -> handler_ok (client s) h' ->
  settleOnce h' = settleOnce h -> (early h' = true -> early h = true) ->
  delivery_ok (with_handler n h' s).
Proof.
  intros H Hn H' Hs He. pose proof (handler_delivery n h h' (client s) s H Hn H' (fun _ Hp => Hp) Hs He).
  by destruct s.
Qed.

(** A delivery enters the channel, or is passed to a request without one. *)
Lemma due_send n h (hs : gmap nat handler) k :
  hs !! n = Some h -> early h = true ->
  (due k hs + Nat.b2n (k =? n))%nat = due k (<[n := handed h]> hs).
Proof.
  intros Hn He. unfold due. destruct (Nat.eqb_spec k n) as [->|].
  - rewrite lookup_insert_eq, Hn, He. by destruct h.
  - rewrite lookup_insert_ne by done. simpl. lia.
Qed.

Lemma awaiting_ok w h : handler_ok w h -> handler_ok w (handed h).
Proof. destruct h. intros []. by split. Qed.

Lemma waits_send n h (hs : gmap nat handler) (calls : gmap nat call_pc) :
  hs !! n = Some h ->
  (forall t k, calls !! t = Some (AwaitSettlement k) -> exists g, hs !! k = Some g /\ settleOnce g = Busy t tt) ->
  forall t k, calls !! t = Some (AwaitSettlement k) ->
    exists g, <[n := handed h]> hs !! k = Some g /\ settleOnce g = Busy t tt.
Proof.
  intros Hn Hw t k (g & Hg & Hs)%Hw. destruct (decide (k = n)) as [->|].
  - rewrite lookup_insert_eq. eexists. split; [done|]. rewrite Hn in Hg. injection Hg as <-. by destruct h.
  - rewrite lookup_insert_ne by done. eauto.
Qed.

Lemma send_delivery n h s :
  delivery_ok s -> handlers s !! n = Some h -> h_pc h = Sending ->
  (length (deliver s) <? capacity adapter)%nat = true ->
  delivery_ok (with_handler n (handed h) (s <| @deliver W := deliver s ++ [n] |>)).
Proof.
  destruct s. intros [Hh Ht Hb Hw] Hn Hp Hc. simpl in *.
  assert (He : early h = true) by (unfold early; by rewrite Hp). split; simpl.
  - apply map_Forall_insert_2; [|done]. apply awaiting_ok. by apply (Hh n).
  - intros k. rewrite <- (due_send n h) by done. specialize (Ht k).
    rewrite count_occ_app. simpl. destruct (Nat.eq_dec n k) as [->|]; [rewrite Nat.eqb_refl|]; simpl; lia.
  - rewrite length_app. simpl. apply Nat.ltb_lt in Hc. lia.
  - by apply waits_send.
Qed.

Lemma pass_delivery t n h s :
  delivery_ok s -> handlers s !! n = Some h -> h_pc h = Sending -> calls s !! t = Some Selecting ->
  delivery_ok (with_call t (Taken n) (with_handler n (handed h) s)).
Proof.
  destruct s. intros [Hh Ht Hb Hw] Hn Hp Hc. simpl in *.
  assert (He : early h = true) by (unfold early; by rewrite Hp). split; simpl.
  - apply map_Forall_insert_2; [|done]. apply awaiting_ok. by apply (Hh n).
  - intros k. rewrite <- (due_send n h) by done. specialize (Ht k).
    pose proof (tally_set (taking k) _ _ _ (Taken n) Hc) as E. simpl in E.
    rewrite (Nat.eqb_sym n k) in E. lia.
  - done.
  - intros u k [[_ ?]|[_ Hu]]%lookup_insert_Some; [done|]. by eapply waits_send.
Qed.

(** A request takes a delivery from the channel. *)
Lemma take_delivery t n l s :
  delivery_ok s -> deliver s = n :: l -> calls s !! t = Some Selecting ->
  delivery_ok (with_call t (Taken n) (s <| @deliver W := l |>)).
Proof.
  destruct s. intros [Hh Ht Hb Hw] E Hc. simpl in *. subst. split; simpl.
  - done.
  - intros k. specialize (Ht k). pose proof (tally_set (taking k) _ _ _ (Taken n) Hc) as E. simpl in *.
    destruct (Nat.eq_dec n k) as [->|Hne]; [rewrite Nat.eqb_refl in E; simpl in E; lia|].
    apply Nat.eqb_neq in Hne. rewrite Hne in E. simpl in E. lia.
  - simpl in Hb. lia.
  - intros u k [[_ ?]|[_ Hu]]%lookup_insert_Some; [done|]. by apply Hw.
Qed.

(** ** Handlers *)

Context (Hpolicy : rabbit_policy (options adapter)).

Lemma resolve_accounts d message err w st w' :
  resolveFailure adapter d message err w = (st, w') ->
  keeps w w' /\
  (st = NegativeAcknowledge true \/ st = Acknowledge /\ exists p, p ∈ taken w' /\ replaces p d).
Proof.
  intros Hr. apply resolve_keeps in Hr; [|done]. unfold keeps.
  destruct Hr as [[-> [E|(p & E & _)]]|(-> & _ & _ & _ & p & E & Hp & _)]; rewrite E;
    (split; [intros q Hq|]); rewrite ?elem_of_app; auto.
  right. split; [done|]. exists p. split; [|done]. apply elem_of_app. right. by apply list_elem_of_singleton.
Qed.

Lemma handler_fails_delivery n err h s r :
  delivery_ok s -> handlers s !! n = Some h -> failing h ->
  handler_fails adapter n err h s = r -> exists s', r = Ret s' /\ delivery_ok s'.
Proof.
  intros H Hn Hf. unfold handler_fails.
  destruct (resolveFailure _ _ _ _ _) as [st w] eqn:E. intros <-. eexists. split; [done|].
  apply resolve_accounts in E as [Hk Ha]. pose proof (d_handlers s H n h Hn) as Hh.
  eapply handler_delivery; [done|done| |done|by destruct h|by destruct h].
  eapply handler_keeps in Hh as []; [|exact Hk]. destruct h. simpl in *. split; simpl; [by auto..|].
  intros v e [= <- <-]. destruct Ha as [->|(-> & p & Hp & Hr)]; [by apply verdict_again|by eapply verdict_replaced].
Qed.

Lemma handle_delivery n h s r :
  delivery_ok s -> handlers s !! n = Some h -> handle adapter order unmarshal n h s = Some r ->
  exists s', r = Ret s' /\ delivery_ok s'.
Proof.
  intros H Hn. pose proof (d_handlers s H n h Hn) as Hh. unfold handle.
  destruct (h_pc h) eqn:Ep; [| | |done].
  - destruct (DecodeE _ _ _ _); intros [= Hr].
    { eapply handler_fails_delivery; [done..| |done]. left. by apply (hk_decoding _ _ Hh). }
    subst r. eexists. split; [done|].
    apply (handler_same n h); [done|done| |by destruct h|by destruct h; simpl in *; subst].
    destruct h, Hh. simpl in *. by split.
  - case_test; [|done]. intros [= <-]. eexists. split; [done|]. by apply send_delivery.
  - destruct (requested h) as [request|] eqn:Eq; [|done]. intros [= Hr].
    assert (Ha : asked h = Some request) by (destruct (hk_requested _ _ Hh); congruence).
    destruct (success request) eqn:Es.
    2: { eapply handler_fails_delivery; [done..| |done]. right. by exists request. }
    subst r. eexists. split; [done|].
    apply (handler_same n h); [done|done| |by destruct h|by destruct h].
    destruct h, Hh; simpl in *; subst. split; simpl; [done|done|by left|done|].
    intros v e [= <- <-]. by apply (verdict_done _ _ request).
Qed.

(** The handler gives up: the settlement is the configured one. *)
Lemma abandon_delivery n err h s r :
  err <> ErrNil -> delivery_ok s -> handlers s !! n = Some h -> abandon adapter n err h s = Some r ->
  exists s', r = Ret s' /\ delivery_ok s'.
Proof.
  intros He H Hn. pose proof (d_handlers s H n h Hn) as [].
  unfold abandon. destruct (h_pc h); [done| | |done]; intros [= <-]; eexists; (split; [done|]).
  all: apply (handler_same n h); [done|done| |by destruct h|by destruct h].
  all: destruct h; split; simpl in *; [done..|]; intros v e [= <- <-]; by apply verdict_abandoned.
Qed.

Lemma keeps_refl w : keeps w w.
Proof. by intros p. Qed.

(** A step that only moves its own call or the phases of the two functions. *)
Ltac silent :=
  match goal with s : bridge W |- _ => destruct s end; split; simpl in *; subst;
  try reflexivity; try apply keeps_refl;
  try (by left); try (by right; eexists; split; [|reflexivity]).

(** ** Settlement *)

(** The once of a delivery and the call that waits in it change together. *)
Lemma once_delivery t n h h' p s :
  delivery_ok s -> handlers s !! n = Some h -> handler_ok (client s) h' -> h_pc h' = h_pc h ->
  taking n p = 0%nat -> (forall k, taking k p = 0%nat) -> (forall k, calls s !! t <> Some (Taken k)) ->
  (forall u, settleOnce h = Busy u tt -> u = t) ->
  (forall k, p = AwaitSettlement k -> k = n /\ settleOnce h' = Busy t tt) ->
  delivery_ok (with_call t p (with_handler n h' s)).
Proof.
  destruct s. intros [Hh Ht Hb Hw] Hn H' Hp _ Hk Hc Hu Ha. simpl in *. split; simpl.
  - by apply map_Forall_insert_2.
  - intros k. specialize (Ht k).
    assert (Ed : due k (<[n := h']> handlers) = due k handlers).
    { unfold due, early. destruct (decide (k = n)) as [->|]; [by rewrite lookup_insert_eq, Hn, Hp|].
      by rewrite lookup_insert_ne. }
    assert (Et : tally (taking k) (<[t := p]> calls) = tally (taking k) calls).
    { destruct (calls !! t) as [q|] eqn:E; [|by rewrite tally_new, Hk].
      pose proof (tally_set (taking k) calls t q p E) as Hs. rewrite Hk in Hs.
      assert (taking k q = 0%nat) by (destruct q; try done; by destruct (Hc n0)). lia. }
    by rewrite Ed, Et.
  - done.
  - intros u k [[<- E]|[Hne E]]%lookup_insert_Some.
    + destruct (Ha k E) as [-> ?]. rewrite lookup_insert_eq. eauto.
    + destruct (Hw u k E) as (g & Hg & Hs). destruct (decide (k = n)) as [->|].
      * rewrite Hn in Hg. injection Hg as <-. by apply Hu in Hs.
      * rewrite lookup_insert_ne by done. eauto.
Qed.

Lemma settle_delivery t n request s r :
  delivery_ok s -> calls s !! t = Some (Settling n request) -> settle t n request s = Some r ->
  exists s', r = Ret s' /\ delivery_ok s'.
Proof.
  intros H Ht. unfold settle, on_handler. destruct (handlers s !! n) as [h|] eqn:Hn; [|done].
  pose proof (d_handlers s H n h Hn) as Hh.
  destruct (settleOnce h) as [| |] eqn:Es; [|done|]; intros [= <-]; eexists; (split; [done|]).
  - eapply once_delivery; [done|done| |by destruct h|done|done|by rewrite Ht|by rewrite Es|].
    + destruct h, Hh as [? Ha ? Hdec Hv]. simpl in *. subst. split; simpl; [done|done|by right|done|].
      assert (Hn' : asked = None) by by apply Ha. intros v e E. specialize (Hv v e E) as [q Hq|p Hf|Hf|]; simpl in *.
      * congruence.
      * eapply verdict_replaced; [|done..]. destruct Hf as [?|(q & Hq & _)]; [by left|simpl in Hq; congruence].
      * apply verdict_again. destruct Hf as [?|(q & Hq & _)]; [by left|simpl in Hq; congruence].
      * by apply verdict_abandoned.
    + intros k [= <-]. by destruct h.
  - apply (quiet_delivery t s); [done|by rewrite Ht|]. silent.
Qed.

Lemma settle_end_delivery t n answer s r :
  delivery_ok s -> calls s !! t = Some (AwaitSettlement n) -> settle_end t n answer s = Some r ->
  exists s', r = Ret s' /\ delivery_ok s'.
Proof.
  intros H Ht. unfold settle_end, on_handler. destruct (d_waits s H t n Ht) as (h & Hn & Hs).
  rewrite Hn. pose proof (d_handlers s H n h Hn) as Hh. rewrite (hk_settled _ _ Hh), Hs.
  intros [= <-]. eexists. split; [done|].
  eapply once_delivery; [done|done| |by destruct h|done|done|by rewrite Ht|congruence|done].
  destruct h, Hh as [? Ha ? Hdec Hv]. simpl in *. subst. split; simpl; [done| |done|done|].
  - split; [|done]. intros E. by apply Ha in E.
  - intros v e E. by specialize (Hv v e E) as []; [eapply verdict_done|eapply verdict_replaced|apply verdict_again|apply verdict_abandoned].
Qed.

(** ** Other calls *)

Lemma once_quiet t select answer phase s s' : once_step t select answer phase s = Ret s' -> quiet t s s'.
Proof.
  destruct phase; unfold once_step, opening_done, opening; repeat case_test; intros [= <-]; silent.
Qed.

Lemma close_quiet t answer phase s s' : close_step t answer phase s = Some s' -> quiet t s s'.
Proof.
  destruct phase; simpl; unfold close_producer, closing.
  5: { destruct (Producer_Close (client s)) as [err w] eqn:E. apply Producer_Close_law in E.
       intros [= <-]. silent. unfold keeps. by rewrite E. }
  all: repeat case_test; intros [= <-]; silent.
Qed.

Lemma close_call_quiet t answer s s' : close_call t answer s = Some (Ret s') -> quiet t s s'.
Proof.
  unfold close_call, closing. destruct (closeOnce s) as [|u phase|]; [intros [= <-]; silent| |intros [= <-]; silent].
  case_test; [|done]. destruct (close_step _ _ _ _) eqn:Es; [|done]. intros [= <-]. by eapply close_quiet.
Qed.

Lemma call_delivery t answer p s s' :
  delivery_ok s -> calls s !! t = Some p -> call_step t answer p s = Some (Ret s') ->
  (forall n, p <> AwaitSettlement n) -> delivery_ok s'.
Proof.
  intros H Ht Hs Hn. destruct p; simpl in Hs; try done.
  5: { destruct (deliver s) as [|n l] eqn:E; [done|]. injection Hs as <-. by apply take_delivery. }
  5: { destruct (settle_delivery _ _ _ _ _ H Ht Hs) as (s1 & [= <-] & ?). done. }
  5: by destruct (Hn n).
  all: apply (quiet_delivery t s); [done|by rewrite Ht|].
  - injection Hs as <-. repeat case_test; silent.
  - destruct (consumerOnce s) eqn:E; [|done|]; injection Hs as <-; silent.
  - destruct (consumerOnce s); try done. case_test; [|done]. injection Hs as Hs. by eapply once_quiet.
  - unfold ensured in Hs. repeat case_test; try done; injection Hs as <-; silent.
  - injection Hs as <-. case_test; silent.
  - by eapply close_call_quiet.
Qed.

Lemma expire_quiet t why p s s' : expire t why p s = Some (Ret s') -> quiet t s s'.
Proof.
  destruct p; simpl; try done; [destruct why; repeat case_test; try done; intros [= <-]; silent|].
  destruct (closeOnce s) as [|u []|]; try done. case_test; [|done]. intros [= <-]. silent.
Qed.

(** ** Submission *)

Lemma submit_safe task s r :
  is_Some (N_MessageID (A_config adapter)) -> delivery_ok s -> submit Bytes adapter task s = r ->
  exists w, r = Ret (s <| @client W := w |>) /\ keeps (client s) w.
Proof.
  intros [f Hf] H. unfold submit, Queue. destruct (stopFlag s); simpl.
  { intros <-. exists (client s). split; [done|apply keeps_refl]. }
  unfold adapter_queue. rewrite Hf. destruct (f task) as [id e].
  case_test; simpl; [intros <-; exists (client s); split; [done|apply keeps_refl]|].
  destruct (nativeExchangeKind _); simpl; [intros <-; exists (client s); split; [done|apply keeps_refl]|].
  unfold mbind, io_bind. destruct (Publish _ (client s)) as [[result err] w] eqn:Ep. simpl.
  intros <-. exists w. split; [done|]. by eapply Publish_keeps.
Qed.

(** * The whole bridge *)

Record bridge_ok s : Prop := { b_consumer : consumer_ok s; b_delivery : delivery_ok s }.

Context (Hidentity : is_Some (N_MessageID (A_config adapter))).

Lemma client_delivery w s : delivery_ok s -> keeps (client s) w -> delivery_ok (s <| @client W := w |>).
Proof.
  destruct s. intros [] Hk. split; simpl; try done. intros n h Hn. eapply handler_keeps; [done|]. eauto.
Qed.

Lemma enter_ok t p s r :
  bridge_ok s -> neutral p -> shutting p = 0%nat -> (forall a b, call_ok a b p) -> enter t p s = Some r ->
  exists s', r = Ret s' /\ bridge_ok s'.
Proof.
  intros [Hc Hd] Hp Hs Ho. unfold enter. destruct (calls s !! t) eqn:Ht; [done|]. intros [= <-].
  eexists. split; [done|]. split; [by apply enter_consumer|].
  apply (quiet_delivery t s); [done|by rewrite Ht|silent].
Qed.

(** The native consumer hands a new delivery to a handler. *)
Lemma deliver_ok n d s :
  bridge_ok s -> handlers s !! n = None ->
  bridge_ok (with_handler n (mkHandler Decoding d None None None Unused false ErrNil) s).
Proof.
  intros [Hc Hd] Hn. split; [by apply handler_consumer|].
  destruct s, Hd as [Hh Ht Hb Hw]. simpl in *. split; simpl.
  - apply map_Forall_insert_2; [|done]. split; simpl; [done|done|by left|done|done].
  - intros k. specialize (Ht k). unfold due in *. destruct (decide (k = n)) as [->|].
    + by rewrite lookup_insert_eq, Hn in *.
    + by rewrite lookup_insert_ne.
  - done.
  - intros t k (h & Hk & Hs)%Hw. exists h. split; [|done]. rewrite lookup_insert_ne; [done|]. congruence.
Qed.

Lemma bridge_call_step_ok t answer p s r :
  bridge_ok s -> calls s !! t = Some p -> call_step t answer p s = Some r ->
  exists s', r = Ret s' /\ bridge_ok s'.
Proof.
  intros [Hc Hd] Ht Hs. assert (Hp : (forall n, p <> AwaitSettlement n) \/ exists n, p = AwaitSettlement n).
  { destruct p; eauto; by left. }
  destruct Hp as [Hn|[n ->]].
  - destruct (calls_consumer t answer p s r Hc Ht Hs Hn) as (s' & -> & ?).
    exists s'. split; [done|]. split; [done|]. by eapply call_delivery.
  - destruct (settle_end_delivery t n answer s r Hd Ht Hs) as (s' & -> & ?). exists s'. split; [done|].
    split; [|done]. simpl in Hs. unfold settle_end, on_handler in Hs.
    destruct (handlers s !! n) as [h|]; [|done]. destruct (settled h); [done|]. injection Hs as <-.
    apply (call_consumer t (AwaitSettlement n)); [by apply handler_consumer|by destruct s|done..].
Qed.

Lemma expire_ok t why p s r :
  bridge_ok s -> calls s !! t = Some p -> expire t why p s = Some r -> exists s', r = Ret s' /\ bridge_ok s'.
Proof.
  intros [Hc Hd] Ht Hs. assert (exists s', r = Ret s') as [s' ->].
  { destruct p; simpl in Hs; try done.
    - destruct why; repeat case_test; naive_solver.
    - destruct (closeOnce s) as [|u []|]; try done. case_test; naive_solver. }
  exists s'. split; [done|]. split; [by eapply expire_consumer|].
  apply (quiet_delivery t s); [done| |by eapply expire_quiet]. intros k Hk. rewrite Ht in Hk. by simplify_eq.
Qed.

(** Handlers do not touch the consumer. *)
Lemma handle_consumer n h s s' :
  consumer_ok s -> handle adapter order unmarshal n h s = Some (Ret s') -> consumer_ok s'.
Proof.
  intros H. assert (Hf : forall err, handler_fails adapter n err h s = Ret s' -> consumer_ok s').
  { intros err. unfold handler_fails. destruct (resolveFailure _ _ _ _ _) as [st w]. intros [= <-].
    by apply handler_consumer, client_consumer. }
  unfold handle. destruct (h_pc h).
  - destruct (DecodeE _ _ _ _); intros [= Hr]; [by eapply Hf|]. subst. by apply handler_consumer.
  - case_test; [|done]. intros [= <-]. by apply handler_consumer, deliver_consumer.
  - destruct (requested h); [|done]. case_test; intros [= Hr]; [|by eapply Hf]. subst. by apply handler_consumer.
  - done.
Qed.

Lemma abandon_ok n err h s r :
  err <> ErrNil -> bridge_ok s -> handlers s !! n = Some h -> abandon adapter n err h s = Some r ->
  exists s', r = Ret s' /\ bridge_ok s'.
Proof.
  intros He [Hc Hd] Hn Hr. destruct (abandon_delivery n err h s r He Hd Hn Hr) as (s' & -> & ?).
  exists s'. split; [done|]. split; [|done]. unfold abandon in Hr.
  destruct (h_pc h); try done; injection Hr as <-; by apply handler_consumer.
Qed.

Lemma pass_ok t n s r : bridge_ok s -> pass adapter t n s = Some r -> exists s', r = Ret s' /\ bridge_ok s'.
Proof.
  intros [Hc Hd]. unfold pass, on_handler. destruct (handlers s !! n) as [h|] eqn:Hn; [|done].
  destruct (calls s !! t) as [[]|] eqn:Ht; try done. destruct (h_pc h) eqn:Ep; try done.
  destruct (capacity adapter); [|done]. intros [= <-]. eexists. split; [done|]. split.
  - apply (call_consumer t Selecting); [by apply handler_consumer|by destruct s|done..].
  - by apply pass_delivery.
Qed.

Lemma on_handler_inv n s k r :
  on_handler n s k = Some r -> exists h, handlers s !! n = Some h /\ k h = Some r.
Proof. unfold on_handler. destruct (handlers s !! n); [eauto|done]. Qed.

Lemma step_ok e s r : bridge_ok s -> step e s = Some r -> exists s', r = Ret s' /\ bridge_ok s'.
Proof.
  intros H. destruct e; simpl.
  1,2,4: by apply enter_ok.
  - case_test; [|done]. by apply enter_ok.
  - intros [= Hr]. destruct H as [Hc Hd].
    destruct (submit_safe _ _ _ Hidentity Hd Hr) as (w & -> & Hk).
    eexists. split; [done|]. split; [by apply client_consumer|by apply client_delivery].
  - destruct (handlers s !! n) eqn:Hn; [done|]. case_test; [|done]. intros [= <-].
    eexists. split; [done|]. by apply deliver_ok.
  - destruct (calls s !! t) eqn:Ht; [|done]. by apply bridge_call_step_ok.
  - destruct (calls s !! t) eqn:Ht; [|done]. by apply expire_ok.
  - intros (h & Hn & Hr)%on_handler_inv. destruct H as [Hc Hd].
    destruct (handle_delivery n h s r Hd Hn Hr) as (s' & -> & ?). exists s'. split; [done|].
    split; [by eapply handle_consumer|done].
  - destruct (is_nil err) eqn:En; [done|]. intros (h & Hn & Hr)%on_handler_inv.
    eapply (abandon_ok n err); [by intros ->|done..].
  - case_test; [|done]. intros (h & Hn & Hr)%on_handler_inv. by eapply (abandon_ok n (Sentinel Canceled)).
  - by apply pass_ok.
Qed.

Lemma run_ok es s r : bridge_ok s -> run es s = Some r -> exists s', r = Ret s' /\ bridge_ok s'.
Proof.
  revert s. induction es as [|e es IH]; intros s H; simpl; [intros [= <-]; eauto|].
  destruct (step e s) as [a|] eqn:E; [|done].
  destruct (step_ok e s a H E) as (s' & -> & H'). by apply IH.
Qed.

Lemma initial_ok w : bridge_ok (initial w).
Proof. split; [apply initial_consumer|apply initial_delivery]. Qed.

(** ** The verdict of a delivery *)

(** Handlers stay, and a verdict that was asked for stays the one that was asked for. *)
Definition decided s s' : Prop :=
  forall n h, handlers s !! n = Some h ->
    exists h', handlers s' !! n = Some h' /\ h_delivery h' = h_delivery h /\
      forall request, asked h = Some request -> asked h' = Some request.

Lemma decided_same s s' : handlers s' = handlers s -> decided s s'.
Proof. intros E n h Hn. exists h. by rewrite E. Qed.

Lemma decided_insert n h h' s s' :
  handlers s !! n = Some h -> handlers s' = <[n := h']> (handlers s) -> h_delivery h' = h_delivery h ->
  (forall request, asked h = Some request -> asked h' = Some request) -> decided s s'.
Proof.
  intros Hn E Hd Ha k g Hg. rewrite E. destruct (decide (k = n)) as [->|].
  - rewrite lookup_insert_eq. exists h'. rewrite Hn in Hg. injection Hg as <-. done.
  - rewrite lookup_insert_ne by done. eauto.
Qed.

Lemma decided_trans s1 s2 s3 : decided s1 s2 -> decided s2 s3 -> decided s1 s3.
Proof.
  intros H1 H2 n h (h' & Hn & Hd & Ha)%H1. destruct (H2 n h' Hn) as (h2 & Hn2 & Hd2 & Ha2).
  exists h2. split_and!; [done|congruence|auto].
Qed.

Lemma handle_decided n h s s' :
  handlers s !! n = Some h -> handle adapter order unmarshal n h s = Some (Ret s') -> decided s s'.
Proof.
  intros Hn. assert (Hf : forall err, handler_fails adapter n err h s = Ret s' -> decided s s').
  { intros err. unfold handler_fails. destruct (resolveFailure _ _ _ _ _) as [st w]. intros [= <-].
    destruct s. eapply decided_insert; [done|reflexivity|by destruct h..]. }
  unfold handle. destruct (h_pc h); [| | |done].
  - destruct (DecodeE _ _ _ _); intros [= Hr]; [by eapply Hf|]. subst.
    destruct s. eapply decided_insert; [done|reflexivity|by destruct h..].
  - case_test; [|done]. intros [= <-]. destruct s. eapply decided_insert; [done|reflexivity|by destruct h..].
  - destruct (requested h); [|done]. case_test; intros [= Hr]; [|by eapply Hf]. subst.
    destruct s. eapply decided_insert; [done|reflexivity|by destruct h..].
Qed.

Lemma call_decided t answer p s s' :
  bridge_ok s -> calls s !! t = Some p -> call_step t answer p s = Some (Ret s') -> decided s s'.
Proof.
  intros [Hc Hd] Ht. destruct p; simpl; try done.
  - intros [= <-]. apply decided_same. by destruct s.
  - destruct (consumerOnce s); try done; intros [= <-]; apply decided_same; by destruct s.
  - destruct (consumerOnce s); try done. case_test; [|done]. intros [= Hs].
    apply decided_same. by eapply q_handlers, once_quiet.
  - unfold ensured. repeat case_test; try done; intros [= <-]; apply decided_same; by destruct s.
  - destruct (deliver s); [done|]. intros [= <-]. apply decided_same. by destruct s.
  - intros (h & Hn & Hr)%on_handler_inv. pose proof (hk_asked _ _ (d_handlers s Hd n h Hn)) as Ha.
    destruct (settleOnce h) eqn:Es; [|done|]; injection Hr as <-.
    + destruct s. eapply decided_insert; [done|reflexivity|by destruct h|].
      intros q Hq. by rewrite (proj2 Ha) in Hq.
    + apply decided_same. by destruct s.
  - intros (h & Hn & Hr)%on_handler_inv. destruct (settled h); [done|]. injection Hr as <-.
    destruct s. eapply decided_insert; [done|reflexivity|by destruct h..].
  - intros [= <-]. apply decided_same. case_test; by destruct s.
  - intros Hs. apply decided_same. by eapply q_handlers, close_call_quiet.
Qed.

Lemma step_decided e s s' : bridge_ok s -> step e s = Some (Ret s') -> decided s s'.
Proof.
  intros H. destruct e; simpl; unfold enter.
  1,2,4: destruct (calls s !! t); [done|]; intros [= <-]; apply decided_same; by destruct s.
  - case_test; [|done]. destruct (calls s !! t); [done|]. intros [= <-]. apply decided_same. by destruct s.
  - intros [= Hr]. destruct (submit_safe _ _ _ Hidentity (b_delivery s H) Hr) as (w & [= ->] & _).
    apply decided_same. by destruct s.
  - destruct (handlers s !! n) eqn:Hn; [done|]. case_test; [|done]. intros [= <-] k h Hk.
    exists h. split; [|done]. destruct s. simpl in *. rewrite lookup_insert_ne; [done|]. congruence.
  - destruct (calls s !! t) eqn:Ht; [|done]. by apply call_decided.
  - destruct (calls s !! t) eqn:Ht; [|done]. intros Hs. apply decided_same. by eapply q_handlers, expire_quiet.
  - intros (h & Hn & Hr)%on_handler_inv. by eapply handle_decided.
  - case_test; [done|]. intros (h & Hn & Hr)%on_handler_inv. unfold abandon in Hr.
    destruct (h_pc h); try done; injection Hr as <-; destruct s;
      (eapply decided_insert; [done|reflexivity|by destruct h..]).
  - case_test; [|done]. intros (h & Hn & Hr)%on_handler_inv. unfold abandon in Hr.
    destruct (h_pc h); try done; injection Hr as <-; destruct s;
      (eapply decided_insert; [done|reflexivity|by destruct h..]).
  - intros (h & Hn & Hr)%on_handler_inv. destruct (calls s !! t) as [[]|]; try done.
    destruct (h_pc h); try done. destruct (capacity adapter); [|done]. injection Hr as <-.
    destruct s. eapply decided_insert; [done|reflexivity|by destruct h..].
Qed.

Lemma run_decided es s s' : bridge_ok s -> run es s = Some (Ret s') -> decided s s'.
Proof.
  revert s. induction es as [|e es IH]; intros s H; simpl; [intros [= <-]; by apply decided_same|].
  destruct (step e s) as [a|] eqn:E; [|done].
  destruct (step_ok e s a H E) as (s1 & -> & H1). intros Hr.
  eapply decided_trans; [by eapply step_decided|by apply IH].
Qed.

(** ** Progress of [close] *)

(** A step of call [t] itself, or the expiry of its bound. *)
Definition own (t : nat) (e : event (Task := Task)) : Prop :=
  match e with Step u _ | Expire u _ => u = t | _ => False end.

(** [t] can return from [Shutdown] within [k] such steps. *)
Definition returns_within (k t : nat) s : Prop :=
  exists es s' err, (length es <= k)%nat /\ Forall (own t) es /\ run es s = Some (Ret s') /\
    calls s' !! t = Some (ShutDown err).

Lemma bridge_returns_after e k t s s' :
  own t e -> step e s = Some (Ret s') -> returns_within k t s' -> returns_within (S k) t s.
Proof.
  intros He Hs (es & s2 & err & Hl & Ho & Hr & Hc). exists (e :: es), s2, err. simpl. rewrite Hs.
  split_and!; [lia|by constructor|done|done].
Qed.

Lemma bridge_returns_more k m t s : (k <= m)%nat -> returns_within k t s -> returns_within m t s.
Proof. intros Hk (es & s' & err & ? & H). exists es, s', err. split; [lia|done]. Qed.

(** Call [t] runs the function of [closeOnce], at [phase]. *)
Definition runs_close (t : nat) (phase : close_phase) s : Prop :=
  calls s !! t = Some Closing /\ closeOnce s = Busy t phase.

Lemma runs_step t phase answer s s' :
  runs_close t phase s -> close_step t answer phase s = Some s' -> step (Step t answer) s = Some (Ret s').
Proof.
  intros [Ht Ho] E. simpl. rewrite Ht. simpl. unfold close_call. by rewrite Ho, Nat.eqb_refl, E.
Qed.

Lemma close_producer_returns t s : runs_close t CloseProducer s -> returns_within 1 t s.
Proof.
  intros H. eapply (bridge_returns_after (Step t ErrNil)); [done|by eapply runs_step|].
  unfold close_producer. destruct (Producer_Close (client s)) as [err w].
  eexists [], _, (errors_Join [closeErr s; err]).
  split_and!; [simpl; lia|constructor|reflexivity|]. destruct s. simpl. by rewrite lookup_insert_eq.
Qed.

Lemma close_consumer_returns t b s : runs_close t (CloseConsumer b) s -> returns_within 2 t s.
Proof.
  intros H. eapply (bridge_returns_after (Step t ErrNil)); [done|by eapply runs_step|].
  apply close_producer_returns. destruct H as [Ht _], s, b; by split.
Qed.

Lemma close_read_returns t s : runs_close t CloseRead s -> returns_within 3 t s.
Proof.
  intros H. eapply (bridge_returns_after (Step t ErrNil)); [done|by eapply runs_step|].
  eapply close_consumer_returns. destruct H as [Ht _], s; by split.
Qed.

Lemma close_wait_returns t s : runs_close t CloseWait s -> returns_within 4 t s.
Proof.
  intros [Ht Ho]. eapply (bridge_returns_after (Expire t TimerFired)); [done| |].
  - simpl. rewrite Ht. simpl. by rewrite Ho, Nat.eqb_refl.
  - apply close_read_returns. destruct s; by split.
Qed.

Lemma close_lock_returns t s : runs_close t CloseLock s -> returns_within 5 t s.
Proof.
  intros H. eapply (bridge_returns_after (Step t ErrNil)); [done|by eapply runs_step|].
  destruct H as [Ht _], (consumerOpen s) eqn:E.
  - apply close_wait_returns. destruct s; by split.
  - eapply bridge_returns_more, close_consumer_returns; [lia|]. destruct s; by split.
Qed.

Lemma bridge_closing_returns t s : bridge_ok s -> calls s !! t = Some Closing -> returns_within 6 t s.
Proof.
  intros [Hc _] Ht. destruct (closeOnce s) as [|u phase|] eqn:Eo.
  - eapply (bridge_returns_after (Step t ErrNil)); [done| |].
    + simpl. rewrite Ht. simpl. unfold close_call. by rewrite Eo.
    + apply close_lock_returns. destruct s; by split.
  - pose proof (a_owner s Hc) as Hu. pose proof (a_shutting s Hc) as Hs. rewrite Eo in Hu, Hs.
    assert (u = t) as ->.
    { destruct (decide (u = t)) as [|Hne]; [done|].
      pose proof (tally_two shutting _ _ _ _ _ Hu Ht Hne). destruct (stopFlag s); simpl in *; lia. }
    assert (Hr : runs_close t phase s) by done.
    destruct phase; [eapply (bridge_returns_more 5)|eapply (bridge_returns_more 4)|eapply (bridge_returns_more 3)|
      eapply (bridge_returns_more 2)|eapply (bridge_returns_more 1)]; try lia;
      eauto using close_lock_returns, close_wait_returns, close_read_returns, close_consumer_returns,
        close_producer_returns.
  - pose proof (a_shutting s Hc) as Hs. rewrite Eo in Hs. pose proof (tally_le shutting _ _ _ Ht).
    destruct (stopFlag s); simpl in *; lia.
Qed.
End delivery.

(** * Theorems *)

Section theorems.
Context `{NA : !Native, NL : !NativeLaws} {W : Type} `{NP : !nativeProducer W, BR : !Broker W}.
Context {Task : Type} (Bytes : Task -> string).
Context (order : list (string * string) -> list (string * string)).
Context (unmarshal : string -> error + Message).
Context (args : list (Option (NativeConfig Task))) (adapter : adapterWorker (Task := Task)) (w0 w : W).

Abbreviation run := (run Bytes adapter order unmarshal).

Lemma constructed_run es r :
  NewWorkerE args w0 = (inr adapter, w) -> run es (initial w) = Some r ->
  exists s, r = Ret s /\ bridge_ok adapter s.
Proof.
  intros (Hp & Hi & _)%constructed_valid. apply run_ok; [exact Hp|exact Hi|apply initial_ok].
Qed.

(** C13: Whatever the interleaving of requests, settlements, submissions, deliveries and
    shutdowns of a constructed worker: nothing panics and no channel is closed twice; the
    native consumer is opened at most once and closed at most as often; the buffer stays
    within the prefetch; the producer is closed at most once, and after a shutdown that was
    not refused the producer is closed, the lifetime has ended and the consumer is closed,
    unless it is still being opened by a call that closes it itself. *)
Theorem bridge_safe es r :
  NewWorkerE args w0 = (inr adapter, w) -> run es (initial w) = Some r ->
  exists s, r = Ret s /\ (opened s <= 1)%nat /\ (closes s <= opened s)%nat /\
    (length (deliver s) <= capacity adapter)%nat /\ (producer_closes s <= 1)%nat /\
    forall t err, calls s !! t = Some (ShutDown err) -> err <> ErrQueueShutdown ->
      producer_closes s = 1%nat /\ lifetime_done s = true /\
      (closes s = opened s \/ exists u phase, consumerOnce s = Busy u phase /\ consumerStop s = true).
Proof.
  intros Hn Hr. destruct (constructed_run es r Hn Hr) as (s & -> & [Hc Hd]). exists s.
  destruct (a_producer s Hc) as [Hp Hl]. pose proof (a_count s Hc) as Hcount.
  split_and!; [done|apply (a_once s Hc)|lia|apply Hd| |].
  - rewrite Hp. by destruct (is_done (closeOnce s)); simpl; lia.
  - intros t err Ht He. destruct (a_calls s Hc t _ Ht) as [|Hdone]; [done|].
    rewrite Hp, Hl, Hdone. split_and!; [done|done|].
    assert (Hpast : past_consumer (closeOnce s) = true) by (by destruct (closeOnce s)).
    rewrite Hpast, andb_false_r in Hcount. simpl in Hcount.
    destruct (held_open (consumerOnce s)) eqn:Eh; [left; lia|right].
    destruct (consumerOnce s) as [|u phase|]; try done. exists u, phase. split; [done|].
    rewrite (a_stop s Hc). by destruct (closeOnce s).
Qed.

(** C12: What the bridge answers for a delivery. In every reachable state a handler that has
    returned acknowledged its delivery because the one settlement call that decided it
    reported success, or after the broker had taken a replacement with its body, identity
    and headers; or it returned the delivery to its queue after a failure; or its context
    or the lifetime of the adapter ended first, and it answered with an error and the
    failure settlement of the consumer's configuration. So the broker is told to forget a
    delivery whose job is neither done nor stored again only by a configured settlement
    that does not requeue; with one that does, none is lost. A delivery goes to at most one
    request, and no longer waits in the channel then; and the verdict of the first
    settlement call is never overturned later. *)
Theorem bridge_keeps_work es s :
  NewWorkerE args w0 = (inr adapter, w) -> run es (initial w) = Some (Ret s) ->
  (forall n h v err, handlers s !! n = Some h -> h_pc h = Returned v err ->
     verdict adapter (client s) h v err /\
     (forgets v = true -> accounted (client s) h \/
        (err <> ErrNil /\ v = C_Failure (N_Consumer (A_config adapter))))) /\
  (forgets (C_Failure (N_Consumer (A_config adapter))) = false ->
     forall n h v err, handlers s !! n = Some h -> h_pc h = Returned v err -> forgets v = true ->
       accounted (client s) h) /\
  (forall n t t', calls s !! t = Some (Taken n) -> calls s !! t' = Some (Taken n) -> t = t') /\
  (forall n t, calls s !! t = Some (Taken n) -> n ∉ deliver s) /\
  (forall es' s', run es' s = Some (Ret s') -> decided s s').
Proof.
  intros Hn Hr. destruct (constructed_run es _ Hn Hr) as (s1 & [= <-] & Hok).
  apply constructed_valid in Hn as (Hp & Hi & _). pose proof (b_delivery _ s Hok) as Hd.
  assert (Htok : forall n, (occurrences (deliver s) n + tally (taking n) (calls s) <= 1)%nat).
  { intros n. pose proof (d_tokens _ s Hd n) as H. unfold due in H.
    destruct (handlers s !! n) as [h|]; [destruct (early h)|]; simpl in H; lia. }
  assert (Hv : forall n h v err, handlers s !! n = Some h -> h_pc h = Returned v err ->
    verdict adapter (client s) h v err).
  { intros n h v err Hh. apply (d_handlers _ s Hd n h Hh). }
  split_and!.
  - intros n h v err Hh Hp'. split; [by eapply Hv|]. eapply verdict_forgets. by eapply Hv.
  - intros Hf n h v err Hh Hp' Hg. destruct (verdict_forgets _ _ _ _ _ (Hv _ _ _ _ Hh Hp') Hg) as [?|[_ ->]]; [done|congruence].
  - intros n t t' Ht Ht'. destruct (decide (t = t')) as [|Hne]; [done|].
    pose proof (tally_two (taking n) _ _ _ _ _ Ht Ht' Hne) as H2. simpl in H2.
    rewrite Nat.eqb_refl in H2. specialize (Htok n). simpl in H2. lia.
  - intros n t Ht Hin. pose proof (tally_le (taking n) _ _ _ Ht) as H1. simpl in H1.
    rewrite Nat.eqb_refl in H1. specialize (Htok n).
    apply list_elem_of_In, (count_occ_In Nat.eq_dec) in Hin. simpl in H1. lia.
  - intros es' s'. by eapply run_decided.
Qed.

(** A [Shutdown] that won the swap is never stuck: from every reachable state its own
    steps, and the bound on waiting for a consumer that is being opened, let it return
    within six steps, whatever the other calls and handlers do. *)
Theorem bridge_shutdown_returns es s t :
  NewWorkerE args w0 = (inr adapter, w) -> run es (initial w) = Some (Ret s) ->
  calls s !! t = Some Closing ->
  exists es' s' err, (length es' <= 6)%nat /\ Forall (own t) es' /\ run es' s = Some (Ret s') /\
    calls s' !! t = Some (ShutDown err).
Proof.
  intros Hn Hr Ht. destruct (constructed_run es _ Hn Hr) as (s1 & [= <-] & Hok).
  by apply bridge_closing_returns.
Qed.
End theorems.

(** * Examples *)

#[local] Existing Instances SampleRabbit.native SampleRabbit.native_laws SampleRabbit.producer SampleRabbit.broker.

Module SampleBridge.

Definition data : Message := NewMessage (fun l => l) "payload" [].

Definition perform (es : list (@event string)) (s : bridge SampleRabbit.world) : option (go (bridge SampleRabbit.world)) :=
  run (Task := string) (fun task => task) SampleRabbit.adapter (fun l => l) (fun _ => inr data) es s.

Definition start : bridge SampleRabbit.world := initial SampleRabbit.idle.

(** A request opens the consumer and takes a delivery, which fails and is settled; then a
    shutdown wins the swap. *)
Definition prefix : list (@event string) :=
  [Request 1; Step 1 ErrNil; Step 1 ErrNil; Step 1 ErrNil; Step 1 ErrNil; Step 1 ErrNil; Step 1 ErrNil;
   Deliver 7 SampleRabbit.first; Handle 7; Handle 7; Step 1 ErrNil;
   Settle 2 7 (mkRequest false SampleRabbit.failed); Step 2 ErrNil; Handle 7; Step 2 ErrNil;
   Shutdown 3; Step 3 ErrNil].

Definition finish : list (@event string) := [Step 3 ErrNil; Step 3 ErrNil; Step 3 ErrNil; Step 3 ErrNil].

Definition summary (r : option (go (bridge SampleRabbit.world))) :=
  match r with
  | Some (Ret s) => Some (opened s, closes s, producer_closes s, h_pc <$> handlers s !! 7%nat,
                          calls s !! 1%nat, calls s !! 3%nat)
  | _ => None
  end.

(** A second delivery waits for its settlement when the shutdown ends the lifetime. *)
Definition abandoned : list (@event string) :=
  prefix ++ [Deliver 8 SampleRabbit.first; Handle 8; Handle 8] ++ finish ++ [Lifetime 8].

Lemma bridge_constructed : NewWorkerE SampleRabbit.args SampleRabbit.idle = (inr SampleRabbit.adapter, SampleRabbit.idle).
Proof. reflexivity. Qed.

Lemma stopping : exists s, perform prefix start = Some (Ret s) /\
  summary (Some (Ret s)) = Some (1, 0, 0, Some (Returned Acknowledge ErrNil), Some (Taken 7), Some Closing)%nat.
Proof.
  destruct (perform prefix start) as [[s|]|] eqn:E; [|exfalso; vm_compute in E; discriminate..].
  exists s. split; [done|]. rewrite <- E. vm_compute. reflexivity.
Qed.

Lemma gave_up : exists s, perform abandoned start = Some (Ret s) /\
  (h_pc <$> handlers s !! 7%nat, h_pc <$> handlers s !! 8%nat, calls s !! 1%nat) =
  (Some (Returned Acknowledge ErrNil), Some (Returned (Reject false) (Sentinel Canceled)), Some (Taken 7)).
Proof.
  assert (Hsum : match perform abandoned start with
    | Some (Ret s) => Some (h_pc <$> handlers s !! 7%nat, h_pc <$> handlers s !! 8%nat, calls s !! 1%nat)
    | _ => None
    end = Some (Some (Returned Acknowledge ErrNil), Some (Returned (Reject false) (Sentinel Canceled)), Some (Taken 7)))
    by (vm_compute; reflexivity).
  destruct (perform abandoned start) as [[s|]|]; try discriminate Hsum.
  exists s. split; [done|]. injection Hsum as H1 H2 H3. by rewrite H1, H2, H3.
Qed.
End SampleBridge.

Lemma bridge_safe_witness :
  exists s, SampleBridge.perform (SampleBridge.prefix ++ SampleBridge.finish) SampleBridge.start = Some (Ret s) /\
    calls s !! 3%nat = Some (ShutDown ErrNil) /\ producer_closes s = 1%nat /\ (closes s <= opened s)%nat.
Proof.
  destruct (SampleBridge.perform (SampleBridge.prefix ++ SampleBridge.finish) SampleBridge.start)
    as [r|] eqn:E; [|exfalso; vm_compute in E; discriminate].
  destruct (bridge_safe _ _ _ _ _ _ _ _ _ SampleBridge.bridge_constructed E) as (s & -> & _ & Hc & _ & _ & Hs).
  exists s. assert (Ht : calls s !! 3%nat = Some (ShutDown ErrNil)).
  { assert (Hsum : SampleBridge.summary (Some (Ret s)) =
      Some (1, 1, 1, Some (Returned Acknowledge ErrNil), Some (Taken 7), Some (ShutDown ErrNil))%nat)
      by (rewrite <- E; vm_compute; reflexivity).
    simpl in Hsum. congruence. }
  split; [done|]. split; [exact Ht|]. split; [|exact Hc]. by apply (Hs 3%nat ErrNil Ht).
Defined.

(** The configuration rejects what is given up. A delivery that fails is acknowledged after
    its replacement; one that waits when the shutdown ends is rejected. *)
Lemma bridge_keeps_work_witness :
  exists s h, SampleBridge.perform SampleBridge.abandoned SampleBridge.start = Some (Ret s) /\
    handlers s !! 7%nat = Some h /\ h_pc h = Returned Acknowledge ErrNil /\ accounted (client s) h /\
    (exists g, handlers s !! 8%nat = Some g /\
       verdict SampleRabbit.adapter (client s) g (Reject false) (Sentinel Canceled)) /\
    7%nat ∉ deliver s.
Proof.
  destruct SampleBridge.gave_up as (s & E & Hsum).
  destruct (bridge_keeps_work _ _ _ _ _ _ _ _ _ SampleBridge.bridge_constructed E) as (Ha & _ & _ & Hd & _).
  destruct (handlers s !! 7%nat) as [h|] eqn:Hh; [|discriminate].
  destruct (handlers s !! 8%nat) as [g|] eqn:Hg; [|discriminate].
  injection Hsum as Hp Hq Ht. exists s, h.
  split; [exact E|]. split; [exact Hh|]. split; [exact Hp|].
  split; [|split; [exists g; split; [exact Hg|exact (proj1 (Ha _ _ _ _ Hg Hq))]|exact (Hd _ _ Ht)]].
  destruct (proj2 (Ha _ _ _ _ Hh Hp) eq_refl) as [H|[H _]]; [exact H|exfalso; apply H; reflexivity].
Defined.

Lemma bridge_shutdown_returns_witness :
  exists s es' s' err, SampleBridge.perform SampleBridge.prefix SampleBridge.start = Some (Ret s) /\
    (length es' <= 6)%nat /\ SampleBridge.perform es' s = Some (Ret s') /\
    calls s' !! 3%nat = Some (ShutDown err).
Proof.
  destruct SampleBridge.stopping as (s & E & Hsum).
  simpl in Hsum. injection Hsum as _ _ _ _ _ Ht.
  destruct (bridge_shutdown_returns _ _ _ _ _ _ _ _ _ _ SampleBridge.bridge_constructed E Ht)
    as (es' & s' & err & Hl & _ & Hr & Hs).
  exists s, es', s', err. done.
Defined.
