(* ===== verification/Nsq.v ===== *)
(** The NSQ worker (nsq/): options, construction, submission, the settlement of one
    delivery and the dead-letter envelope, over the go-nsq client. *)

From S2P Require Import Prelude GoStd Sentinels Contract Failure Job Status Codec Records Stream ValkeyOptions.

(** * Options *)

Record Options := mkOptions {
  maxInFlight : Z;
  addr : string;
  topic : string;
  channel : string;
  runFunc : Message -> go error;
  logLevel : Z;
  requestTimeout : Z;
  touchInterval : Z;
  connectTimeout : Z;
  deadLetterTopic : string;
  maxDeliveryAttempts : Z;
  deadLetterConfigured : bool
}.

(** The functions of the package that return an [Option]; the logger only writes. *)
Inductive Option :=
| WithDeadLetter (topic : string) (maxAttempts : Z)
| WithAddr (addr : string)
| WithTopic (topic : string)
| WithChannel (channel : string)
| WithRunFunc (fn : Message -> go error)
| WithMaxInFlight (num : Z)
| WithLogger
| WithLogLevel (lvl : Z)
| WithRequestTimeout (timeout : Z)
| WithTouchInterval (interval : Z)
| WithConnectTimeout (timeout : Z).

Definition Apply (option : Option) (o : Options) : Options :=
  match option with
  | WithDeadLetter t n =>
      o <| deadLetterTopic := t |> <| maxDeliveryAttempts := n |> <| deadLetterConfigured := true |>
  | WithAddr a => o <| addr := a |>
  | WithTopic t => o <| topic := t |>
  | WithChannel c => o <| channel := c |>
  | WithRunFunc fn => o <| runFunc := fn |>
  | WithMaxInFlight num => o <| maxInFlight := num |>
  | WithLogger => o
  | WithLogLevel lvl => o <| logLevel := lvl |>
  | WithRequestTimeout timeout => o <| requestTimeout := timeout |>
  | WithTouchInterval interval => o <| touchInterval := interval |>
  | WithConnectTimeout timeout => o <| connectTimeout := timeout |>
  end.

(** [nsq.LogLevelInfo] is 1. *)
Definition nsq_defaults : Options :=
  mkOptions 1 "127.0.0.1:4150" "gorush" "ch" (fun _ => Ret ErrNil) 1 (6 * Second) (2 * Second) Second
    "" 0 false.

Definition newOptions (opts : list Option) : Options :=
  let o := fold_left (fun o opt => Apply opt o) opts nsq_defaults in
  if negb (deadLetterConfigured o)
  then o <| deadLetterTopic := topic o +:+ "-dead" |> <| maxDeliveryAttempts := 5%Z |>
  else o.

(** * encoding/hex *)

Definition hex_digit (n : N) : ascii := ascii_of_N (if (n <? 10)%N then 48 + n else 87 + n)%N.

(** [hex.EncodeToString]. *)
Fixpoint hex_EncodeToString (s : string) : string :=
  match s with
  | "" => ""
  | String c s =>
      let n := N_of_ascii c in
      String (hex_digit (n / 16)%N) (String (hex_digit (n mod 16)%N) (hex_EncodeToString s))
  end.

Definition is_hex (c : ascii) : bool :=
  let n := N_of_ascii c in
  ((48 <=? n) && (n <=? 57) || (97 <=? n) && (n <=? 102) || (65 <=? n) && (n <=? 70))%N.

(** [hex.DecodeString] returns no error: digits only, in pairs. *)
Fixpoint hex_valid (s : string) : bool :=
  match s with
  | "" => true
  | String _ "" => false
  | String a (String b s) => is_hex a && is_hex b && hex_valid s
  end.

(** [time.Unix(0, ns)]. *)
Definition UnixNano (ns : Z) : Time := mkTime (62135596800 * Second + ns) None 1.

(** * The client library *)

(** The fields of [nsq.Config] and [nsq.Message] that matter here; [MaxAttempts] is set by
    the library. *)
Record Config := mkConfig { MaxInFlight : Z; DialTimeout : Z; MaxAttempts : Z }.
Record NsqMessage := mkNsqMessage { N_ID : string; N_Body : string; N_Timestamp : Z; N_Attempts : Z }.

(** A client environment: what the worker asks of the producer and of a message. *)
Class nsqClient (W : Type) := {
  NewConfig : Config;
  NewProducer : string -> Config -> io W error;
  Publish : string -> string -> io W error;
  Finish : NsqMessage -> io W unit;
  Requeue : NsqMessage -> io W unit;          (* Requeue(-1) *)
  Touch : NsqMessage -> io W unit
}.

(** * The dead-letter envelope *)

Record nsqDeadLetterRecord := mkNsqRecord {
  L_EnvelopeVersion : Z;
  L_Backend : string;
  L_SourceTopic : string;
  L_SourceChannel : string;
  L_SourceID : string;
  L_EnqueuedAt : Time;
  L_DeadLetteredAt : Time;
  L_Attempts : Z;
  L_Classification : string;
  L_FailureCode : string;
  L_PayloadSize : Z;
  L_Payload : string;
  L_Metadata : option Metadata
}.

(** encoding/json on the envelope: [Marshal] fails or gives text; [Decode] takes the first
    value of a text, without unknown fields, and leaves the rest; [at_EOF] tells that no
    value follows. *)
Class EnvelopeJSON := {
  Marshal : nsqDeadLetterRecord -> option string;
  Decode : string -> error + (nsqDeadLetterRecord * string);
  at_EOF : string -> bool
}.

Definition maxNSQDeadLetterEnvelopeBytes : Z := 2 * DefaultMaxMessageBytes.

Definition ErrInvalidRecord : error := Leaf "invalid NSQ dead-letter record".

Section nsq.
Context {W : Type} `{!nsqClient W, !EnvelopeJSON}.
Context (order : list (string * string) -> list (string * string)).
Context (times : list (string * option Time) -> list (string * option Time)).
Context (unmarshal : string -> error + Message).

Definition validate (r : nsqDeadLetterRecord) : error :=
  if negb (L_EnvelopeVersion r =? CurrentEnvelopeVersion)%Z || (L_Backend r != "nsq")
     || (L_SourceTopic r == "") || (L_SourceChannel r == "") || negb (len (L_SourceID r) =? 32)%Z
     || negb (hex_valid (L_SourceID r))
     || IsZero (L_EnqueuedAt r) || IsZero (L_DeadLetteredAt r) || (L_Attempts r =? 0)%Z
     || Before (L_DeadLetteredAt r) (L_EnqueuedAt r)
     || (L_PayloadSize r <? 0)%Z
     || ((DefaultMaxMessageBytes <? L_PayloadSize r)%Z && negb (len (L_Payload r) =? 0)%Z)
     || (DefaultMaxMessageBytes <? len (L_Payload r))%Z
     || negb (is_nil (Failure_Validate (L_Classification r) (L_FailureCode r)))
  then ErrInvalidRecord
  else
    match L_Metadata r with
    | Some m => if negb (is_nil (Metadata_Validate order m)) then ErrInvalidRecord else ErrNil
    | None => ErrNil
    end.

(** The envelope of a message; [now] is the clock. *)
Definition envelope (o : Options) (message : NsqMessage) (classification failureCode : string)
    (attempts : Z) (now : Time) : nsqDeadLetterRecord :=
  let payload := if (DefaultMaxMessageBytes <? len (N_Body message))%Z then "" else N_Body message in
  mkNsqRecord CurrentEnvelopeVersion "nsq" (topic o) (channel o) (hex_EncodeToString (N_ID message))
    (UTC (UnixNano (N_Timestamp message))) (UTC now) attempts classification failureCode
    (len (N_Body message)) payload (MessageMetadata order unmarshal payload).

(** A failed [Marshal] leaves no bytes; its error is dropped. *)
Definition encodeNSQDeadLetter (o : Options) (message : NsqMessage) (classification failureCode : string)
    (attempts : Z) (now : Time) : error + string :=
  let record := envelope o message classification failureCode attempts now in
  if negb (is_nil (validate record)) then inl (validate record)
  else inr (default "" (Marshal record)).

Definition decodeNSQDeadLetter (encoded : string) : error + nsqDeadLetterRecord :=
  if (len encoded =? 0)%Z || (maxNSQDeadLetterEnvelopeBytes <? len encoded)%Z
  then inl (Leaf "decode NSQ dead letter: invalid size")
  else
    match Decode encoded with
    | inl err => inl (Wrap "decode NSQ dead letter" err)
    | inr (record, rest) =>
        if negb (at_EOF rest) then inl (Leaf "decode NSQ dead letter: trailing data")
        else if negb (is_nil (validate record)) then inl (validate record)
        else inr record
    end.

(** The management record of an envelope. *)
Definition management_record (record : nsqDeadLetterRecord) (visibility : string) : JobRecord :=
  let payload := if visibility == PayloadRevealed
                 then mkPayload visibility "application/octet-stream" (L_PayloadSize record) (L_Payload record)
                 else mkPayload visibility "" (L_PayloadSize record) "" in
  ApplyMessageMetadata order
    (mkJobRecord RecordDeadLetter (L_SourceID record) (L_Backend record) (L_SourceTopic record)
       (L_DeadLetteredAt record) (L_Attempts record) (L_FailureCode record) payload
       (L_EnvelopeVersion record) "" (L_SourceID record) (L_SourceTopic record) "" ""
       (L_SourceChannel record) (L_SourceID record) (Some (L_EnqueuedAt record)) None None
       (Some (L_DeadLetteredAt record)) "" (L_Classification record) "" (mkPayload "" "" 0 "")
       "" "" None "" "" "" "" "" "" 0 None)
    (L_Metadata record).

Definition DecodeDeadLetter (encoded visibility : string) : error + JobRecord :=
  match decodeNSQDeadLetter encoded with
  | inl err => inl err
  | inr record =>
      let result := management_record record visibility in
      let err := JobRecord_Validate order times result in
      if negb (is_nil err) then inl (Wrap "decode NSQ dead letter" err) else inr result
  end.

(** * Construction *)

(** A worker; [publishes] tells that [publish] is set. *)
Record Worker := mkWorker { opts : Options; cfg : Config; publishes : bool }.

Definition unsafe_policy (o : Options) : bool :=
  blank (deadLetterTopic o) || (deadLetterTopic o == topic o)
  || ContainsAny (deadLetterTopic o) control_chars
  || (maxDeliveryAttempts o <? 2)%Z || (101 <? maxDeliveryAttempts o)%Z.

Definition NewWorkerE (args : list Option) : io W (error + Worker) :=
  let o := newOptions args in
  if blank (addr o) then mret (inl (Leaf "NSQ address is required"))
  else if unsafe_policy o
  then mret (inl (Wrap "golang-queue: invalid configuration: unsafe NSQ dead-letter policy" ErrInvalidConfiguration))
  else
    let cfg := mkConfig (maxInFlight o) (connectTimeout o) (MaxAttempts NewConfig) in
    err ← NewProducer (addr o) cfg;
    mret (if negb (is_nil err) then inl err else inr (mkWorker o cfg true)).

Definition NewWorker (args : list Option) : io W (go Worker) :=
  r ← NewWorkerE args;
  mret match r with inl _ => Panic "NewWorker" | inr worker => Ret worker end.

(** * Settlement *)

Context (w : Worker).

Definition unavailable (err : error) : error :=
  NewFailure ClassificationInfrastructure FailureCodeDeadLetterDestinationUnavailable err.

(** [message.Requeue(-1)] and the error that follows. *)
Definition requeue (message : NsqMessage) (err : error) : io W error := _ ← Requeue message; mret err.

(** The dead letter is published before the message is finished. *)
Definition deadLetter (message : NsqMessage) (classification code : string) (attempts : Z) (now : Time)
    : io W error :=
  match encodeNSQDeadLetter (opts w) message classification code attempts now with
  | inl err => requeue message err
  | inr record =>
      if negb (publishes w) then requeue message (unavailable (Leaf "NSQ producer unavailable"))
      else
        err ← Publish (deadLetterTopic (opts w)) record;
        if negb (is_nil err) then requeue message (unavailable err)
        else _ ← Finish message; mret ErrNil
  end.

Definition nsq_code (resolution : FailureResolution) : string :=
  if Classification resolution == ClassificationRetryable then "attempts_exhausted"
  else if Code resolution != "" then Code resolution else "handler_failed".

Definition settleNSQFailure (message : NsqMessage) (handlerErr : error) (now : Time) : io W error :=
  if is_nil handlerErr then requeue message ErrNil
  else
    let resolution := ResolveFailure handlerErr in
    let classification := Classification resolution in
    if (classification == ClassificationCanceled) || (classification == ClassificationInfrastructure)
    then requeue message ErrNil
    else
      let attempts := if (N_Attempts message =? 0)%Z then 1%Z else N_Attempts message in
      if (classification == ClassificationRetryable) && (attempts <? maxDeliveryAttempts (opts w))%Z
      then requeue message ErrNil
      else deadLetter message classification (nsq_code resolution) attempts now.

(** [Request] once a message has arrived: a decoded message, or an error after settlement. *)
Definition Request_received (task : NsqMessage) (now : Time) : io W (error + Message) :=
  match DecodeE order unmarshal (N_Body task) DefaultMaxMessageBytes with
  | inl err =>
      let decodeErr := Wrap "decode NSQ message" err in
      settlementErr ← settleNSQFailure task (NewFailure ClassificationMalformed "malformed_delivery" err) now;
      mret (inl (if negb (is_nil settlementErr) then errors_Join [decodeErr; settlementErr] else decodeErr))
  | inr data => mret (inr data)
  end.

(** The callbacks of a received message. *)
Definition settle_ack (task : NsqMessage) : io W error := _ ← Finish task; mret ErrNil.
Definition settle_fail (task : NsqMessage) (handlerErr : error) (now : Time) : io W error :=
  settleNSQFailure task handlerErr now.

(** [Queue]; [stopFlag] is what the atomic load returns, [bytes] is [job.Bytes()]. *)
Definition Queue (stopFlag : bool) (bytes : string) : io W error :=
  if stopFlag then mret ErrQueueShutdown else Publish (topic (opts w)) bytes.
End nsq.
