(* ===== verification/NsqSafety.v ===== *)
(** What settlement of the NSQ worker guarantees: every settled message is answered once,
    finished only after its dead letter is published, and the dead letter reads back as the
    record of the message and fits the limit of its decoder. *)

From S2P Require Import Prelude GoStd Sentinels Contract Failure Job Status Codec Records Stream ValkeyOptions Execution Nsq.

(** * What the worker relies on of the client library *)

Inductive response := FIN | REQ | TOUCH.

(** [published w] are the messages nsqd has taken from this producer, [responses w] what
    the worker answered. A publish without an error was taken; a failed one may be. *)
Class NsqBroker (W : Type) `{!nsqClient W} := {
  published : W -> list (string * string);
  responses : W -> list (NsqMessage * response);
  Publish_law t body w err w' :
    Publish t body w = (err, w') ->
    responses w' = responses w /\
    (published w' = published w \/ published w' = published w ++ [(t, body)]) /\
    (err = ErrNil -> published w' = published w ++ [(t, body)]);
  Finish_law m w w' : Finish m w = (tt, w') ->
    published w' = published w /\ responses w' = responses w ++ [(m, FIN)];
  Requeue_law m w w' : Requeue m w = (tt, w') ->
    published w' = published w /\ responses w' = responses w ++ [(m, REQ)];
  Touch_law m w w' : Touch m w = (tt, w') ->
    published w' = published w /\ responses w' = responses w ++ [(m, TOUCH)]
}.

(** Years 0 to 9999, which RFC 3339 can write. *)
Definition representable (t : Time) : Prop := (0 <= wall t < 315537897600 * Second)%Z.

Definition encodable (r : nsqDeadLetterRecord) : Prop :=
  representable (L_EnqueuedAt r) /\ representable (L_DeadLetteredAt r) /\
  match L_Metadata r with Some m => forall t, EnqueuedAt m = Some t -> representable t | None => True end.

(** encoding/json fails on an envelope only for an instant it cannot write. *)
Class MarshalTotal `{!EnvelopeJSON} :=
  Marshal_total r : encodable r -> is_Some (Marshal r).

(** * Hexadecimal identifiers *)

Lemma hex_digit_valid n : (n < 16)%N -> is_hex (hex_digit n) = true.
Proof.
  intros Hn. unfold is_hex, hex_digit. rewrite N_ascii_embedding; destruct (N.ltb_spec n 10); lia.
Qed.

Lemma hex_encode_valid s : hex_valid (hex_EncodeToString s) = true.
Proof.
  induction s as [|c s IH]; [done|]. simpl. rewrite IH, !hex_digit_valid; [done| |].
  - apply N.mod_lt. done.
  - pose proof (byte_small c). apply N.Div0.div_lt_upper_bound. lia.
Qed.

Lemma hex_encode_len s : len (hex_EncodeToString s) = (2 * len s)%Z.
Proof. unfold len. induction s as [|c s IH]; simpl; lia. Qed.

(** * Settlement *)

Lemma classification_valid err : Classification_valid (Classification (ResolveFailure err)) = true.
Proof. unfold ResolveFailure. by apply resolve_loop_good. Qed.

Section safety.
Context {W : Type} `{NC : !nsqClient W, NB : !NsqBroker W, EJ : !EnvelopeJSON}.
Context (order : list (string * string) -> list (string * string)).
Context (unmarshal : string -> error + Message).
Context (worker : Worker).
Implicit Types m : NsqMessage.

#[local] Opaque ResolveFailure.

(** The attempt a message carries, and whether its failure ends it. *)
Definition attempt m : Z := if (N_Attempts m =? 0)%Z then 1%Z else N_Attempts m.

Definition final (err : error) m : Prop :=
  err <> ErrNil /\ ClassifyFailure err <> ClassificationCanceled /\
  ClassifyFailure err <> ClassificationInfrastructure /\
  (ClassifyFailure err = ClassificationRetryable -> (maxDeliveryAttempts (opts worker) <= attempt m)%Z).

(** The envelope that settlement writes. *)
Definition dead_letter_of m (err : error) (now : Time) : nsqDeadLetterRecord :=
  envelope order unmarshal (opts worker) m (ClassifyFailure err) (nsq_code (ResolveFailure err)) (attempt m) now.

(** The timestamp of the message is an int64, and [now] and the instants of a decoded body
    are in the years that can be written. *)
Record dated m (now : Time) : Prop := {
  dt_timestamp : (- 2 ^ 63 <= N_Timestamp m < 2 ^ 63)%Z;
  dt_now : representable now;
  dt_metadata body d t : MessageMetadata order unmarshal body = Some d -> EnqueuedAt d = Some t -> representable t
}.

(** A message with its identifier of 16 bytes and a timestamp that is not ahead of the clock,
    on a topic and a channel with names. *)
Record receivable m (now : Time) : Prop := {
  rc_dated : dated m now;
  rc_id : len (N_ID m) = 16%Z;
  rc_names : topic (opts worker) <> "" /\ channel (opts worker) <> "";
  rc_clock : (wall (UnixNano (N_Timestamp m)) <= wall now)%Z;
  rc_attempts : (0 <= N_Attempts m)%Z
}.

(** One answer for message [m] that failed with [err]. *)
Inductive settled m (err : error) (now : Time) (w w' : W) : error -> Prop :=
| settled_again :                                 (* to be delivered again *)
    ~ final err m -> published w' = published w ->
    responses w' = responses w ++ [(m, REQ)] -> settled m err now w w' ErrNil
| settled_invalid :                               (* there is no valid dead letter of it *)
    final err m -> validate order (dead_letter_of m err now) <> ErrNil -> published w' = published w ->
    responses w' = responses w ++ [(m, REQ)] -> settled m err now w w' (validate order (dead_letter_of m err now))
| settled_unavailable body cause :                (* the dead letter was not confirmed *)
    final err m -> validate order (dead_letter_of m err now) = ErrNil -> Marshal (dead_letter_of m err now) = Some body -> cause <> ErrNil ->
    (published w' = published w \/ published w' = published w ++ [(deadLetterTopic (opts worker), body)]) ->
    responses w' = responses w ++ [(m, REQ)] -> settled m err now w w' (unavailable cause)
| settled_dead body :                             (* stored as a dead letter, then finished *)
    final err m -> validate order (dead_letter_of m err now) = ErrNil -> Marshal (dead_letter_of m err now) = Some body ->
    published w' = published w ++ [(deadLetterTopic (opts worker), body)] ->
    responses w' = responses w ++ [(m, FIN)] -> settled m err now w w' ErrNil.

Context (order_perm : forall l, order l ≡ₚ l).

Lemma failure_code_valid err : Failure_Validate (ClassifyFailure err) (nsq_code (ResolveFailure err)) = ErrNil.
Proof.
  unfold Failure_Validate, ClassifyFailure, nsq_code.
  rewrite classification_valid. simpl. assert (identity (if Classification (ResolveFailure err) == ClassificationRetryable then "attempts_exhausted"
                   else if Code (ResolveFailure err) != "" then Code (ResolveFailure err) else "handler_failed"))
    as ->%invalidIdentity_false; [|done].
  destruct (_ == ClassificationRetryable); [by vm_compute|].
  destruct (String.eqb_spec (Code (ResolveFailure err)) "") as [|Hc]; [by vm_compute|].
  by destruct (resolution_code err).
Qed.

Lemma attempt_pos m : (0 <= N_Attempts m)%Z -> (0 < attempt m)%Z.
Proof. unfold attempt. destruct (Z.eqb_spec (N_Attempts m) 0); lia. Qed.

Lemma received_instant m : (- 2 ^ 63 <= N_Timestamp m)%Z -> (0 < wall (UnixNano (N_Timestamp m)))%Z.
Proof. unfold UnixNano, Second. simpl. lia. Qed.

(** Every envelope of a received message is valid. *)
Lemma dead_letter_valid m err now : receivable m now -> validate order (dead_letter_of m err now) = ErrNil.
Proof.
  intros [[Hts Hnow _] Hid [Ht Hc] Hclock Hat]. unfold validate, dead_letter_of, envelope. cbn [L_EnvelopeVersion
    L_Backend L_SourceTopic L_SourceChannel L_SourceID L_EnqueuedAt L_DeadLetteredAt L_Attempts L_Classification
    L_FailureCode L_PayloadSize L_Payload L_Metadata].
  pose proof (received_instant m ltac:(lia)). pose proof (attempt_pos m Hat).
  rewrite failure_code_valid, hex_encode_valid, hex_encode_len, Hid.
  apply String.eqb_neq in Ht as ->, Hc as ->. unfold IsZero, Before, After. cbn [wall mono UTC].
  set (body := N_Body m). assert (0 <= len body)%Z by (unfold len; lia).
  set (payload := if (DefaultMaxMessageBytes <? len body)%Z then "" else body).
  assert (Hp : (len payload <= DefaultMaxMessageBytes)%Z /\ ((DefaultMaxMessageBytes < len body)%Z -> len payload = 0%Z)).
  { unfold payload. destruct (Z.ltb_spec DefaultMaxMessageBytes (len body)); [by vm_compute|split; lia]. }
  destruct Hp as [Hp1 Hp2].
  assert (((DefaultMaxMessageBytes <? len body)%Z && negb (len payload =? 0)%Z) = false) as ->.
  { destruct (Z.ltb_spec DefaultMaxMessageBytes (len body)); [|done]. by rewrite Hp2. }
  replace (wall (UnixNano (N_Timestamp m)) =? 0)%Z with false by lia.
  replace (wall now =? 0)%Z with false by lia. replace (attempt m =? 0)%Z with false by lia.
  replace (wall now <? wall (UnixNano (N_Timestamp m)))%Z with false by lia.
  replace (len body <? 0)%Z with false by lia. replace (DefaultMaxMessageBytes <? len payload)%Z with false by lia.
  cbn -[MessageMetadata].
  destruct (MessageMetadata order unmarshal payload) as [d|] eqn:E; [|done].
  apply MessageMetadata_ok, (Metadata_Validate_ok order order_perm) in E; [|done]. by rewrite E.
Qed.

Lemma dead_letter_encodable m err now : dated m now -> encodable (dead_letter_of m err now).
Proof.
  intros [Hts Hnow Hd]. pose proof (received_instant m ltac:(lia)) as Hi.
  unfold encodable, dead_letter_of, envelope, representable in *. simpl in *. split_and!; try (unfold Second in *; lia).
  destruct (MessageMetadata order unmarshal _) as [d|] eqn:E; [|done]. intros t Ht. exact (Hd _ d t E Ht).
Qed.

Context `{MT : !MarshalTotal}.

(** The body that a final failure publishes, if its dead letter is valid. *)
Lemma encode_dead_letter m err now :
  dated m now ->
  match encodeNSQDeadLetter order unmarshal (opts worker) m (ClassifyFailure err) (nsq_code (ResolveFailure err))
      (attempt m) now with
  | inl e => e = validate order (dead_letter_of m err now) /\ e <> ErrNil
  | inr body => validate order (dead_letter_of m err now) = ErrNil /\ Marshal (dead_letter_of m err now) = Some body
  end.
Proof.
  intros Hm. destruct (Marshal_total _ (dead_letter_encodable m err now Hm)) as [body E].
  unfold encodeNSQDeadLetter. fold (dead_letter_of m err now). rewrite E.
  destruct (is_nil (validate order (dead_letter_of m err now))) eqn:En; simpl.
  - by apply is_nil_iff in En.
  - split; [done|]. intros Hv. by rewrite Hv in En.
Qed.

Lemma requeue_settles m e w r w' :
  requeue m e w = (r, w') -> r = e /\ published w' = published w /\ responses w' = responses w ++ [(m, REQ)].
Proof.
  unfold requeue. intros ([] & w1 & E & [= <- <-])%io_bind_inv. by apply Requeue_law in E.
Qed.

Lemma settleNSQFailure_settled m err now w r w' :
  dated m now -> settleNSQFailure order unmarshal worker m err now w = (r, w') -> settled m err now w w' r.
Proof.
  intros Hm. unfold settleNSQFailure.
  destruct (is_nil err) eqn:En.
  { intros (-> & ? & ?)%requeue_settles. apply is_nil_iff in En. apply settled_again; [|done..].
    by intros [? _]. }
  cbv zeta. fold (ClassifyFailure err). fold (attempt m).
  destruct (_ || _) eqn:Ec.
  { intros (-> & ? & ?)%requeue_settles. apply settled_again; [|done..].
    intros (_ & ? & ? & _). apply orb_true_iff in Ec as [?%String.eqb_eq|?%String.eqb_eq]; done. }
  apply orb_false_iff in Ec as [Hc%String.eqb_neq Hi%String.eqb_neq].
  destruct (_ && _) eqn:Er.
  { intros (-> & ? & ?)%requeue_settles. apply settled_again; [|done..].
    apply andb_true_iff in Er as [?%String.eqb_eq ?%Z.ltb_lt]. intros (_ & _ & _ & Hf). specialize (Hf ltac:(done)). lia. }
  assert (Hf : final err m).
  { split; [by intros ->|]. split_and!; [done..|]. intros Hr%String.eqb_eq. rewrite Hr in Er. simpl in Er. lia. }
  pose proof (encode_dead_letter m err now Hm) as He. unfold deadLetter.
  destruct (encodeNSQDeadLetter _ _ _ _ _ _ _ _) as [e|body].
  { destruct He as [-> He]. intros (-> & ? & ?)%requeue_settles. by apply settled_invalid. }
  destruct He as [Hv Eb]. destruct (publishes worker); simpl.
  2: { intros (-> & ? & ?)%requeue_settles. eapply settled_unavailable; eauto. }
  intros (e & w1 & E1 & E2)%io_bind_inv.
  destruct (Publish_law _ _ _ _ _ E1) as (Hr & Hpub & Hok).
  destruct (is_nil e) eqn:Ene; simpl in E2.
  - apply is_nil_iff in Ene. apply io_bind_inv in E2 as ([] & w2 & E2 & [= <- <-]).
    destruct (Finish_law _ _ _ E2) as [H1 H2].
    eapply settled_dead; [done..| |]; rewrite ?H1, ?H2, ?Hr; auto.
  - apply requeue_settles in E2 as (-> & H1 & H2).
    eapply settled_unavailable; [done..| | |]; rewrite ?H1, ?H2, ?Hr; auto. by intros ->.
Qed.

Lemma received_settles m now w q w' :
  dated m now -> Request_received order unmarshal worker m now w = (q, w') ->
  match q with
  | inr data => DecodeE order unmarshal (N_Body m) DefaultMaxMessageBytes = inr data /\ w' = w
  | inl _ => exists e r, DecodeE order unmarshal (N_Body m) DefaultMaxMessageBytes = inl e /\
      settled m (NewFailure ClassificationMalformed "malformed_delivery" e) now w w' r
  end.
Proof.
  intros Hm. unfold Request_received.
  destruct (DecodeE order unmarshal (N_Body m) DefaultMaxMessageBytes) as [e|data] eqn:E; [|by intros [= <- <-]].
  cbv zeta. intros (r & w1 & Es & [= <- <-])%io_bind_inv. exists e, r. split; [done|].
  by apply settleNSQFailure_settled.
Qed.

Lemma constructed_policy args w w' :
  NewWorkerE args w = (inr worker, w') ->
  publishes worker = true /\ deadLetterTopic (opts worker) <> topic (opts worker) /\
  (2 <= maxDeliveryAttempts (opts worker) <= 101)%Z /\ MaxAttempts (cfg worker) = MaxAttempts NewConfig.
Proof.
  unfold NewWorkerE. cbv zeta. destruct (blank _); [done|].
  destruct (unsafe_policy _) eqn:Eu; [done|]. intros (e & w1 & _ & E)%io_bind_inv.
  destruct (negb _); [done|]. injection E as <- _. simpl.
  unfold unsafe_policy in Eu. rewrite !orb_false_iff, String.eqb_neq, !Z.ltb_ge in Eu. intuition lia.
Qed.

(** C14: How the NSQ worker settles a message it was given. A failure is answered once: with
    a requeue while it is transient or attempts are left; otherwise with a FIN only after
    nsqd took the dead letter of the message on another topic, and with a requeue and an
    error when the message has no valid dead letter or its publication was not confirmed.
    A message with an identifier of its length, on a topic and a channel with names and not
    ahead of the clock always has a valid one. An acknowledgement is one FIN. A message that
    cannot be decoded is settled as malformed before the request returns, any other one is
    handed out unanswered. *)
Theorem nsq_settles_once m now w :
  dated m now ->
  (receivable m now -> forall err, validate order (dead_letter_of m err now) = ErrNil) /\
  (forall args w0 w1, NewWorkerE args w0 = (inr worker, w1) -> deadLetterTopic (opts worker) <> topic (opts worker)) /\
  (forall err r w', settle_fail order unmarshal worker m err now w = (r, w') -> settled m err now w w' r) /\
  (forall r w', settle_ack m w = (r, w') ->
     r = ErrNil /\ published w' = published w /\ responses w' = responses w ++ [(m, FIN)]) /\
  (forall q w', Request_received order unmarshal worker m now w = (q, w') ->
     match q with
     | inr data => DecodeE order unmarshal (N_Body m) DefaultMaxMessageBytes = inr data /\ w' = w
     | inl _ => exists e r, DecodeE order unmarshal (N_Body m) DefaultMaxMessageBytes = inl e /\
         settled m (NewFailure ClassificationMalformed "malformed_delivery" e) now w w' r
     end).
Proof.
  intros Hm. split_and!; [intros Hr err; by apply dead_letter_valid|by intros args w0 w1 (_ & ? & _)%constructed_policy| | |].
  - intros err r w' E. by apply settleNSQFailure_settled.
  - unfold settle_ack. intros r w' ([] & w2 & E & [= <- <-])%io_bind_inv. by apply Finish_law in E.
  - intros q w' E. by apply received_settles.
Qed.

(** The worker leaves [MaxAttempts] of the library as it is, and nothing else stops a
    failure that is not final: at the last delivery that the library makes such a message is
    requeued like any other. Its next delivery is past the bound at which the library gives
    up, finishing a message without its handler, so it never becomes a dead letter. *)
Theorem requeued_past_library args w0 w1 err m m' now w r w' :
  NewWorkerE args w0 = (inr worker, w1) -> dated m now -> ~ final err m ->
  N_Attempts m = MaxAttempts NewConfig -> N_Attempts m' = (N_Attempts m + 1)%Z ->
  settle_fail order unmarshal worker m err now w = (r, w') ->
  published w' = published w /\ responses w' = responses w ++ [(m, REQ)] /\
  (MaxAttempts (cfg worker) < N_Attempts m')%Z.
Proof.
  intros (_ & _ & _ & Hc)%constructed_policy Hm Hf Ha Ha' E.
  apply settleNSQFailure_settled in E as [| | |]; [|done..]. split_and!; [done..|]. lia.
Qed.

End safety.

(** * A client for one worker *)

Module SampleNsq.
(** What nsqd has and was told, and whether it takes publications. *)
Record world := mkWorld { up : bool; taken : list (string * string); told : list (NsqMessage * response) }.

#[export] Instance sample_client : nsqClient world := {|
  NewConfig := mkConfig 1 Second 5;
  NewProducer _ _ w := (ErrNil, w);
  Publish t body w := if up w then (ErrNil, mkWorld true (taken w ++ [(t, body)]) (told w)) else (Leaf "refused", w);
  Finish m w := (tt, mkWorld (up w) (taken w) (told w ++ [(m, FIN)]));
  Requeue m w := (tt, mkWorld (up w) (taken w) (told w ++ [(m, REQ)]));
  Touch m w := (tt, mkWorld (up w) (taken w) (told w ++ [(m, TOUCH)]))
|}.

#[export] Instance broker : NsqBroker world.
Proof.
  refine {| published := taken; responses := told |}.
  - intros t body [[] p q] err w' [= <- <-]; simpl; naive_solver.
  - by intros m w w' [= <-].
  - by intros m w w' [= <-].
  - by intros m w w' [= <-].
Defined.

#[export] Instance json : EnvelopeJSON := {|
  Marshal _ := Some "letter"; Decode _ := inl (Leaf "not JSON"); at_EOF _ := true
|}.

#[export] Instance json_total : MarshalTotal.
Proof. intros r _. by eexists. Defined.

Definition unmarshal (_ : string) : error + Message := inl (Leaf "not JSON").

Definition args : list Option := [WithTopic "jobs"; WithDeadLetter "jobs-dead" 9].
Definition idle : world := mkWorld true [] [].
Definition worker : Worker := mkWorker (newOptions args) (mkConfig 1 Second 5) true.

Definition message (attempts : Z) : NsqMessage := mkNsqMessage "0123456789abcdef" "{" 1767225600000000000 attempts.
Definition now : Time := mkTime (62135596800 * Second + 1767225601000000000) (Some 7%Z) 1.

(** A message from a host whose clock is an hour ahead. *)
Definition early_message : NsqMessage := mkNsqMessage "0123456789abcdef" "{" 1767229200000000000 1.

Lemma sample_metadata body d t :
  MessageMetadata reverse unmarshal body = Some d -> EnqueuedAt d = Some t -> representable t.
Proof. unfold MessageMetadata, DecodeE. simpl. by repeat case_match. Qed.

Lemma sample_dated n : dated reverse unmarshal (message n) now.
Proof. split; [by vm_compute|by vm_compute|exact sample_metadata]. Qed.

Lemma early_dated : dated reverse unmarshal early_message now.
Proof. split; [by vm_compute|by vm_compute|exact sample_metadata]. Qed.

Lemma sample_receivable n : (0 <= n)%Z -> receivable reverse unmarshal worker (message n) now.
Proof. intros Hn. split; [apply sample_dated|done|by split|by vm_compute|done]. Qed.
End SampleNsq.
Import SampleNsq.

(** A body that is not JSON: its dead letter is published and the message finished. One of
    a host whose clock is ahead has no valid dead letter, and goes back to nsqd. *)
Lemma nsq_settles_once_witness :
  (exists e r w, DecodeE reverse unmarshal "{" DefaultMaxMessageBytes = inl e /\
    settled reverse unmarshal worker (message 1)
      (NewFailure ClassificationMalformed "malformed_delivery" e) now idle w r /\
    published w = [("jobs-dead", "letter")] /\ responses w = [(message 1, FIN)]) /\
  (exists r w, settled reverse unmarshal worker early_message
      (NewFailure ClassificationPermanent "unsupported" (Leaf "failed")) now idle w r /\ r <> ErrNil /\
    published w = [] /\ responses w = [(early_message, REQ)]).
Proof.
  split.
  - destruct (nsq_settles_once reverse unmarshal worker (fun l => reverse_Permutation l)
                (message 1) now idle (sample_dated 1)) as (_ & _ & _ & _ & H).
    destruct (Request_received reverse unmarshal worker (message 1) now
                idle) as [[e|data] w] eqn:E.
    + specialize (H _ _ eq_refl) as (e' & r & He & Hs). exists e', r, w. split; [done|]. split; [done|].
      apply (f_equal snd) in E. cbn [snd] in E. rewrite <- E. split; vm_compute; reflexivity.
    + exfalso. apply (f_equal fst) in E. vm_compute in E. discriminate E.
  - destruct (nsq_settles_once reverse unmarshal worker (fun l => reverse_Permutation l)
                early_message now idle early_dated) as (_ & _ & H & _ & _).
    destruct (settle_fail reverse unmarshal worker early_message
      (NewFailure ClassificationPermanent "unsupported" (Leaf "failed")) now idle) as [r w] eqn:E.
    exists r, w. split; [exact (H _ _ _ E)|].
    split; [apply (f_equal fst) in E; cbn [fst] in E; rewrite <- E; vm_compute; discriminate|].
    apply (f_equal snd) in E. cbn [snd] in E. rewrite <- E. split; vm_compute; reflexivity.
Defined.
