(* ===== verification/NsqRecords.v ===== *)
(** The dead letters of the NSQ worker: what it publishes is within the size its decoder
    accepts and reads back as the management record of the message. *)

From S2P Require Import Prelude GoStd Sentinels Contract Failure Job Status Codec Records Stream ValkeyOptions Nsq NsqSafety.

(** * The wire form *)

(** [omitempty] leaves out an empty map. *)
Definition wired_map (tags : option (gmap string string)) : option (gmap string string) :=
  match tags with
  | Some m => if decide (m = ∅) then None else Some m
  | None => None
  end.

Definition wired_metadata (time : Time -> Time) (m : Metadata) : Metadata :=
  m <| EnqueuedAt := time <$> EnqueuedAt m |> <| Tags := wired_map (Tags m) |>
    <| Correlation := wired_map (Correlation m) |> <| TraceContext := wired_map (TraceContext m) |>.

Definition wired (time : Time -> Time) (r : nsqDeadLetterRecord) : nsqDeadLetterRecord :=
  r <| L_EnqueuedAt := time (L_EnqueuedAt r) |> <| L_DeadLetteredAt := time (L_DeadLetteredAt r) |>
    <| L_Metadata := wired_metadata time <$> L_Metadata r |>.

(** The pairs of the metadata, its texts, and those of the envelope. *)
Definition metadata_pairs (m : Metadata) : list (string * string) :=
  entries (Tags m) ++ entries (Correlation m) ++ entries (TraceContext m).

Definition metadata_texts (m : Metadata) : list string :=
  (snd <$> metadata_fields m) ++ (fst <$> metadata_pairs m) ++ (snd <$> metadata_pairs m).

Definition envelope_texts (r : nsqDeadLetterRecord) : list string :=
  [L_Backend r; L_SourceTopic r; L_SourceChannel r; L_SourceID r; L_Classification r; L_FailureCode r]
  ++ match L_Metadata r with Some m => metadata_texts m | None => [] end.

Definition text_bytes (l : list string) : Z := foldr (fun s n => len s + n)%Z 0%Z l.

(** [encoding/json] on the envelope. A value whose texts are valid UTF-8 comes back, instants
    without their monotonic reading. A byte of text takes at most six bytes, a pair of a map
    eight more, three bytes of payload take four; names, numbers, instants and punctuation
    of this struct stay below 2048 bytes. *)
Class EnvelopeLaws `{!EnvelopeJSON} := {
  text_ok : string -> Prop;
  wire_instant : Time -> Time;
  wire_instant_wall t : wall (wire_instant t) = wall t;
  wire_instant_mono t : mono (wire_instant t) = None;
  Decode_Marshal r s :
    encodable r -> Forall text_ok (envelope_texts r) -> Marshal r = Some s ->
    exists rest, Decode s = inr (wired wire_instant r, rest) /\ at_EOF rest = true;
  Marshal_size r s :
    Marshal r = Some s ->
    (0 < len s <= 2048 + 6 * text_bytes (envelope_texts r)
       + 8 * (match L_Metadata r with Some m => zlen (metadata_pairs m) | None => 0 end)
       + 4 * ((len (L_Payload r) + 2) / 3))%Z
}.

(** * Metadata on the wire *)

Lemma wired_map_entries t : entries (wired_map t) = entries t /\ map_len (wired_map t) = map_len t.
Proof.
  destruct t as [m|]; [|done]. simpl. destruct (decide (m = ∅)) as [->|]; [|done].
  by rewrite map_to_list_empty, map_size_empty.
Qed.

Lemma wired_metadata_ok time m :
  (forall t, wall (time t) = wall t) -> metadata_ok m -> metadata_ok (wired_metadata time m).
Proof.
  intros Hw [? He]. destruct (wired_map_entries (Tags m)) as [Et1 Et2], (wired_map_entries (Correlation m)) as [Ec1 Ec2],
    (wired_map_entries (TraceContext m)) as [Er1 Er2].
  destruct m; simpl in *. split; simpl; rewrite ?Et1, ?Et2, ?Ec1, ?Ec2, ?Er1, ?Er2; try done.
  intros t (u & Hu & ->)%fmap_Some. unfold IsZero. rewrite Hw. by apply He.
Qed.

(** * Sizes *)

Lemma text_bytes_app a b : text_bytes (a ++ b) = (text_bytes a + text_bytes b)%Z.
Proof. unfold text_bytes. induction a as [|s a IH]; simpl; lia. Qed.

Lemma text_bytes_cons s l : text_bytes (s :: l) = (len s + text_bytes l)%Z.
Proof. done. Qed.

Lemma text_bytes_bound n l : Forall (fun s => len s <= n)%Z l -> (text_bytes l <= n * zlen l)%Z.
Proof. unfold text_bytes, zlen. induction 1 as [|s l ? ? IH]; simpl length; simpl foldr; lia. Qed.

Lemma pairs_bytes l : (text_bytes (fst <$> l) + text_bytes (snd <$> l) = total_bytes l)%Z.
Proof. unfold text_bytes, total_bytes. induction l as [|[a b] l IH]; [done|]. rewrite !fmap_cons. simpl in *. lia. Qed.

Lemma total_bytes_app a b : total_bytes (a ++ b) = (total_bytes a + total_bytes b)%Z.
Proof. unfold total_bytes. induction a as [|s a IH]; simpl; lia. Qed.

Lemma total_bytes_bound i j l :
  Forall (fun kv => bounded i kv.1 /\ bounded j kv.2) l -> (total_bytes l <= (i + j) * zlen l)%Z.
Proof. unfold total_bytes, zlen, bounded. induction 1 as [|kv l ? ? IH]; simpl length; simpl foldr; lia. Qed.

Lemma zlen_entries t : zlen (entries t) = map_len t.
Proof. destruct t as [m|]; [|done]. unfold zlen. simpl. by rewrite length_map_to_list. Qed.

(** The metadata of a valid message is small. *)
Lemma metadata_size m :
  metadata_ok m -> (text_bytes (metadata_texts m) <= 30144)%Z /\ (zlen (metadata_pairs m) <= 51)%Z.
Proof.
  intros [Hf _ Htc Ht Hcc Hc Hrc _ Hrt].
  apply total_bytes_bound in Ht, Hc. rewrite zlen_entries in Ht, Hc.
  assert (text_bytes (snd <$> metadata_fields m) <= 256 * zlen (snd <$> metadata_fields m))%Z as Hb.
  { apply text_bytes_bound, Forall_fmap. eapply Forall_impl; [exact Hf|]. intros kv [Hk|[_ Hk]]; simpl; [by rewrite Hk|done]. }
  unfold metadata_texts, metadata_pairs. rewrite !text_bytes_app, pairs_bytes, !total_bytes_app.
  pose proof (zlen_entries (Tags m)). pose proof (zlen_entries (Correlation m)). pose proof (zlen_entries (TraceContext m)).
  unfold zlen, MaxMetadataTags, MaxCorrelationFields, MaxTraceContextFields, MaxTraceContextBytes,
    MaxMetadataValueBytes, MaxCorrelationFieldBytes, MaxCorrelationValueBytes in *.
  rewrite !length_app. simpl length in Hb. lia.
Qed.

(** * Reading back *)

Lemma hex_not_blank s : hex_valid s = true -> s <> "" -> blank s = false.
Proof.
  intros Hh Hs. apply not_true_is_false. rewrite blank_iff. destruct s as [|a [|b s]]; [done..|].
  simpl in Hh. apply andb_true_iff in Hh as [[Ha _]%andb_true_iff _]. unfold is_hex in Ha.
  intros Hb. inversion Hb as [| ? ? H | ? ? ? H | ? ? ? ? H]; subst; unfold space1, space2, space3, byte_in in H; lia.
Qed.

Section reading.
Context {W : Type} `{NC : !nsqClient W, EJ : !EnvelopeJSON, EL : !EnvelopeLaws}.
Context (order : list (string * string) -> list (string * string)).
Context (times : list (string * option Time) -> list (string * option Time)).
Context (unmarshal : string -> error + Message) (worker : Worker).
Context (order_perm : forall l, order l ≡ₚ l) (times_perm : forall l, times l ≡ₚ l).

Lemma wired_zero t : IsZero (wire_instant t) = IsZero t.
Proof. unfold IsZero. by rewrite wire_instant_wall. Qed.

Lemma wired_before t u : mono t = None -> Before (wire_instant t) (wire_instant u) = Before t u.
Proof.
  intros Ht. unfold Before, After. rewrite !wire_instant_wall, !wire_instant_mono, Ht. by destruct (mono u).
Qed.

(** The decoder accepts what the encoder accepts. *)
Lemma wired_valid r :
  mono (L_DeadLetteredAt r) = None -> validate order r = ErrNil ->
  validate order (wired wire_instant r) = ErrNil.
Proof.
  intros Hm. unfold validate. destruct r as [v b t c i e d a k f z p md]. simpl in *.
  rewrite !wired_zero, wired_before by done. destruct (_ || _); [done|].
  destruct md as [m|]; simpl; [|done].
  destruct (is_nil (Metadata_Validate order m)) eqn:E; [|done]. intros _.
  apply is_nil_iff, (Metadata_Validate_ok order order_perm) in E.
  apply (wired_metadata_ok _ _ wire_instant_wall), (Metadata_Validate_ok order order_perm) in E. by rewrite E.
Qed.

(** What a valid envelope holds. *)
Lemma validate_inv r :
  validate order r = ErrNil ->
  L_EnvelopeVersion r = CurrentEnvelopeVersion /\ L_Backend r = "nsq" /\ len (L_SourceID r) = 32%Z /\
  hex_valid (L_SourceID r) = true /\ IsZero (L_EnqueuedAt r) = false /\ IsZero (L_DeadLetteredAt r) = false /\
  L_Attempts r <> 0%Z /\ (0 <= L_PayloadSize r)%Z /\ (len (L_Payload r) <= DefaultMaxMessageBytes)%Z /\
  Failure_Validate (L_Classification r) (L_FailureCode r) = ErrNil /\
  forall m, L_Metadata r = Some m -> metadata_ok m.
Proof.
  unfold validate. destruct (_ || _) eqn:E; [done|]. intros Hm.
  rewrite !orb_false_iff, !negb_false_iff, !Z.eqb_eq, String.eqb_eq, is_nil_iff in E.
  destruct E as [[[[[[[[[[[[[? ?] ?] ?] ?] ?] ?] ?] ?] ?] ?] ?] ?] ?]. split_and!; try done; [lia..|].
  intros m Em. rewrite Em in Hm. apply (Metadata_Validate_ok order order_perm).
  by destruct (is_nil (Metadata_Validate order m)) eqn:E; [apply is_nil_iff|].
Qed.

Lemma shown_payload_ok v size data :
  PayloadVisibility_valid v = true -> (len data <= DefaultMaxMessageBytes)%Z -> (0 <= size)%Z -> (len data <= size)%Z ->
  payload_ok (if v == PayloadRevealed then mkPayload v "application/octet-stream" size data else mkPayload v "" size "").
Proof.
  intros. destruct (String.eqb_spec v PayloadRevealed) as [->|Hn]; split; simpl; try done; try (by left).
  right. by vm_compute.
Qed.

(** The record of a valid envelope without metadata is valid, shown or hidden. *)
Lemma plain_record_valid r v :
  validate order r = ErrNil -> identity (L_SourceTopic r) -> identity (L_SourceChannel r) ->
  PayloadVisibility_valid v = true -> (len (L_Payload r) <= L_PayloadSize r)%Z -> L_Metadata r = None ->
  JobRecord_Validate order times (management_record order r v) = ErrNil.
Proof.
  intros (Hver & Hb & Hl & Hh & He & Hd & Ha & Hs & Hp & Hf & _)%validate_inv Ht Hc Hv Hz Hm.
  assert (identity (L_SourceID r)) as Hi.
  { split; [|rewrite Hl; by vm_compute]. apply hex_not_blank; [done|]. by intros E%len_zero; lia. }
  assert (identity "nsq") by by vm_compute.
  unfold Failure_Validate in Hf. destruct (Classification_valid (L_Classification r)) eqn:Hk; [|done].
  destruct (invalidIdentity (L_FailureCode r)) eqn:Hq; [done|]. apply invalidIdentity_false in Hq.
  apply JobRecord_Validate_ok; [done..|]. unfold management_record. rewrite Hm. simpl.
  split; simpl; rewrite ?Hb; try done.
  - by apply shown_payload_ok.
  - right. split; [done|]. split; simpl; try done; try lia.
    + by eexists.
    + split; simpl; auto; by vm_compute.
    + unfold optional_fields. simpl. repeat (apply Forall_cons_2; [simpl; auto|]). done.
    + split; simpl; try done. unfold knownTimes. simpl. rewrite !Forall_cons. simpl. naive_solver.
Qed.

(** The record of a valid envelope is valid. *)
Lemma management_record_valid r v :
  validate order r = ErrNil -> identity (L_SourceTopic r) -> identity (L_SourceChannel r) ->
  PayloadVisibility_valid v = true -> (len (L_Payload r) <= L_PayloadSize r)%Z ->
  JobRecord_Validate order times (management_record order r v) = ErrNil.
Proof.
  intros Hr Ht Hc Hv Hz. pose proof (validate_inv r Hr) as (Hver & _ & _ & _ & _ & _ & _ & _ & _ & _ & Hm).
  assert (Hb : JobRecord_Validate order times (management_record order (r <| L_Metadata := @None Metadata |>) v) = ErrNil).
  { apply plain_record_valid; destruct r; simpl in *; try done. unfold validate in *. simpl in *.
    by destruct (_ || _). }
  destruct r as [? ? ? ? ? ? ? ? ? ? ? ? [m|]]; [|done].
  by apply apply_metadata_ok; [..|apply Hm| |exact Hb|].
Qed.
Lemma dead_letter_payload m err now :
  let r := dead_letter_of order unmarshal worker m err now in
  (len (L_Payload r) <= DefaultMaxMessageBytes)%Z /\ (len (L_Payload r) <= L_PayloadSize r)%Z.
Proof.
  unfold dead_letter_of, envelope. cbn [L_Payload L_PayloadSize].
  destruct (Z.ltb_spec DefaultMaxMessageBytes (len (N_Body m))); [|lia]. unfold len, DefaultMaxMessageBytes. simpl. lia.
Qed.

Lemma failure_size c k : Failure_Validate c k = ErrNil -> (len c <= 14)%Z /\ (len k <= 256)%Z.
Proof.
  unfold Failure_Validate. destruct (Classification_valid c) eqn:Hk; [|done].
  destruct (invalidIdentity k) eqn:Hq; [done|]. apply invalidIdentity_false in Hq as [_ Hq]. intros _. split; [|done].
  unfold Classification_valid in Hk. rewrite !orb_true_iff, !String.eqb_eq in Hk.
  by destruct Hk as [[[[->| ->]| ->]| ->]| ->].
Qed.

(** A valid envelope with bounded names fits the limit of the decoder. *)
Lemma envelope_fits r body :
  validate order r = ErrNil -> identity (L_SourceTopic r) -> identity (L_SourceChannel r) ->
  Marshal r = Some body -> (0 < len body <= maxNSQDeadLetterEnvelopeBytes)%Z.
Proof.
  intros (_ & Hn & Hl & _ & _ & _ & _ & _ & Hp & Hf & Hd)%validate_inv [_ Ht] [_ Hc] Hb%Marshal_size.
  apply failure_size in Hf as [Hk1 Hk2]. assert (len "nsq" = 3%Z) as H3 by done.
  assert (Hx : (4 * ((len (L_Payload r) + 2) / 3) <= 1398104)%Z).
  { unfold DefaultMaxMessageBytes in Hp. pose proof (Z.mul_div_le (len (L_Payload r) + 2) 3). lia. }
  unfold envelope_texts in Hb. rewrite text_bytes_app, Hn, !text_bytes_cons in Hb. change (text_bytes []) with 0%Z in Hb.
  unfold maxNSQDeadLetterEnvelopeBytes, DefaultMaxMessageBytes, MaxIdentityBytes in *.
  destruct (L_Metadata r) as [d|]; [destruct (metadata_size d (Hd d eq_refl))|change (text_bytes []) with 0%Z in Hb]; lia.
Qed.

Lemma decode_encoded r body v :
  validate order r = ErrNil -> identity (L_SourceTopic r) -> identity (L_SourceChannel r) ->
  mono (L_DeadLetteredAt r) = None -> (len (L_Payload r) <= L_PayloadSize r)%Z ->
  encodable r -> Forall text_ok (envelope_texts r) -> PayloadVisibility_valid v = true -> Marshal r = Some body ->
  let record := management_record order (wired wire_instant r) v in
  DecodeDeadLetter order times body v = inr record /\ JobRecord_Validate order times record = ErrNil.
Proof.
  intros Hr Ht Hc Hm Hp He Hx Hv Hb record.
  pose proof (wired_valid r Hm Hr) as Hw. pose proof (envelope_fits r body Hr Ht Hc Hb) as Hl.
  assert (Hrec : JobRecord_Validate order times record = ErrNil) by (apply management_record_valid; by destruct r).
  split; [|done]. destruct (Decode_Marshal r body He Hx Hb) as (rest & Hd & Heof).
  unfold DecodeDeadLetter, decodeNSQDeadLetter.
  replace (_ || _) with false by (symmetry; apply orb_false_iff; lia).
  rewrite Hd, Heof, Hw. simpl. fold record. by rewrite Hrec.
Qed.

(** The fields of the record that metadata leaves alone. *)
Lemma record_fields r v :
  let record := management_record order r v in
  R_Kind record = RecordDeadLetter /\ R_ID record = L_SourceID r /\
  R_Queue record = L_SourceTopic r /\ R_ConsumerGroup record = L_SourceChannel r /\
  R_Attempts record = L_Attempts r /\ R_Classification record = L_Classification r /\
  R_FailureCode record = L_FailureCode r /\ R_DeadLetteredAt record = Some (L_DeadLetteredAt r) /\
  P_Size (R_Payload record) = L_PayloadSize r /\
  P_Data (R_Payload record) = if v == PayloadRevealed then L_Payload r else "".
Proof.
  unfold management_record. destruct r as [? ? ? ? ? ? ? ? ? ? ? ? [m|]]; simpl; by destruct (v == PayloadRevealed).
Qed.

(** C34: A dead letter of the NSQ worker is never too large for its own decoder and reads
    back, shown or hidden, as a valid record of the message: its identity, topic, channel,
    attempts, failure, time and size, and its body when it is shown and was within the
    message limit. *)
Theorem dead_letter_roundtrip m err now body v :
  receivable order unmarshal worker m now ->
  identity (topic (opts worker)) -> identity (channel (opts worker)) ->
  Forall text_ok (envelope_texts (dead_letter_of order unmarshal worker m err now)) ->
  PayloadVisibility_valid v = true ->
  encodeNSQDeadLetter order unmarshal (opts worker) m (ClassifyFailure err) (nsq_code (ResolveFailure err))
    (attempt m) now = inr body ->
  Marshal (dead_letter_of order unmarshal worker m err now) <> None ->
  (len body <= maxNSQDeadLetterEnvelopeBytes)%Z /\
  exists r, DecodeDeadLetter order times body v = inr r /\ JobRecord_Validate order times r = ErrNil /\
    R_Kind r = RecordDeadLetter /\ R_ID r = hex_EncodeToString (N_ID m) /\
    R_Queue r = topic (opts worker) /\ R_ConsumerGroup r = channel (opts worker) /\
    R_Attempts r = attempt m /\ R_Classification r = ClassifyFailure err /\
    R_FailureCode r = nsq_code (ResolveFailure err) /\ wall <$> R_DeadLetteredAt r = Some (wall now) /\
    P_Size (R_Payload r) = len (N_Body m) /\
    P_Data (R_Payload r) =
      if (v == PayloadRevealed) && (len (N_Body m) <=? DefaultMaxMessageBytes)%Z then N_Body m else "".
Proof.
  intros Hm Ht Hc Hx Hv He Hn. pose proof (dead_letter_valid order unmarshal worker order_perm m err now Hm) as Hr.
  pose proof (dead_letter_payload m err now) as [_ Hp].
  pose proof (dead_letter_encodable order unmarshal worker m err now (rc_dated _ _ _ _ _ Hm)) as Henc.
  assert (Hb : Marshal (dead_letter_of order unmarshal worker m err now) = Some body).
  { unfold encodeNSQDeadLetter in He. fold (dead_letter_of order unmarshal worker m err now) in He.
    rewrite Hr in He. simpl in He. injection He as <-. by destruct (Marshal _). }
  split; [by apply (envelope_fits _ body Hr)|].
  destruct (decode_encoded _ body v Hr Ht Hc eq_refl Hp Henc Hx Hv Hb) as [Hd Hrec].
  eexists. split; [exact Hd|]. split; [exact Hrec|].
  destruct (record_fields (wired wire_instant (dead_letter_of order unmarshal worker m err now)) v)
    as (-> & -> & -> & -> & -> & -> & -> & -> & -> & ->).
  split_and!; try done; simpl; [by rewrite wire_instant_wall|].
  destruct (v == PayloadRevealed); [|done]. simpl.
  destruct (Z.ltb_spec DefaultMaxMessageBytes (len (N_Body m))), (Z.leb_spec (len (N_Body m)) DefaultMaxMessageBytes); done || lia.
Qed.
End reading.

(** * A codec for one envelope *)

#[export] Instance Metadata_eq_dec : EqDecision Metadata.
Proof. solve_decision. Defined.

#[export] Instance nsqDeadLetterRecord_eq_dec : EqDecision nsqDeadLetterRecord.
Proof. solve_decision. Defined.

Lemma text_bytes_nonneg l : (0 <= text_bytes l)%Z.
Proof. unfold text_bytes, len. induction l; simpl; lia. Qed.

Module SampleLetter.
Import SampleNsq.

(** A message that used up its attempts. *)
Definition failed : NsqMessage := message 9.
Definition letter : nsqDeadLetterRecord := dead_letter_of reverse unmarshal worker failed (Leaf "boom") now.

#[export] Instance letter_json : EnvelopeJSON := {|
  Marshal r := if decide (r = letter) then Some "{}" else None;
  Decode s := if s == "{}" then inr (wired UTC letter, "") else inl (Leaf "not JSON");
  at_EOF s := s == ""
|}.

#[export] Instance letter_laws : EnvelopeLaws.
Proof.
  refine {| text_ok := fun _ => True; wire_instant := UTC |}; [done..| |].
  - intros r s _ _. simpl. destruct (decide (r = letter)) as [->|]; [|done]. intros [= <-]. by exists "".
  - intros r s. simpl. destruct (decide (r = letter)) as [->|]; [|done]. intros [= <-].
    pose proof (text_bytes_nonneg (envelope_texts letter)). by vm_compute.
Defined.
End SampleLetter.
Import SampleLetter.

(** The ninth failure of a message, shown. *)
Lemma dead_letter_roundtrip_witness :
  exists r, DecodeDeadLetter reverse reverse "{}" PayloadRevealed = inr r /\
    R_ID r = "30313233343536373839616263646566" /\ R_Attempts r = 9%Z /\
    R_FailureCode r = "attempts_exhausted" /\ P_Data (R_Payload r) = "{".
Proof.
  destruct (dead_letter_roundtrip reverse reverse SampleNsq.unmarshal SampleNsq.worker
              (fun l => reverse_Permutation l) (fun l => reverse_Permutation l) SampleLetter.failed (Leaf "boom")
              SampleNsq.now "{}" PayloadRevealed) as (_ & r & Hd & _ & _ & Hi & _ & _ & Ha & _ & Hf & _ & _ & Hp).
  - by apply SampleNsq.sample_receivable.
  - by vm_compute.
  - by vm_compute.
  - by apply Forall_true.
  - done.
  - vm_compute. reflexivity.
  - by vm_compute.
  - exists r. split; [exact Hd|]. rewrite Hi, Ha, Hf, Hp. vm_compute. auto.
Defined.
