(* ===== verification/Handoff.v ===== *)
(** The hand-over of a delivered message to a request, as the workers of nsq/ and nats/ have
    it: message handlers select between an unbuffered channel of tasks and a channel that is
    closed to stop them. *)

From S2P Require Import Prelude GoStd.

(** * State *)

(** Where a handler stands: about to select; waiting in the select; chosen by the closed
    stop channel; returned, its message received by request [t]; returned after its
    stop case; returned without a select. *)
Inductive offer_pc := Entering | Parked | Stopping | Taken (t : nat) | Withdrawn | Discarded.

#[export] Instance offer_pc_eq_dec : EqDecision offer_pc.
Proof. solve_decision. Defined.

(** The channels [stop] and [tasks] (closed or not) and the handlers with their messages. *)
Record handoff (M : Type) := mkHandoff {
  stopped : bool;
  tasks_closed : bool;
  offers : gmap nat (M * offer_pc)
}.
Arguments mkHandoff {M} _ _ _.
Arguments stopped {M} _.
Arguments tasks_closed {M} _.
Arguments offers {M} _.

Section handoff.
Context {M : Type}.
Implicit Types h : handoff M.

Definition no_offers : handoff M := mkHandoff false false ∅.

(** The select of a handler has not been decided. *)
Definition undecided (p : offer_pc) : bool := match p with Entering | Parked => true | _ => false end.

(** The handler has not returned. *)
Definition running (p : offer_pc) : bool := match p with Entering | Parked | Stopping => true | _ => false end.

Definition set_offer (n : nat) (m : M) (p : offer_pc) h : handoff M :=
  mkHandoff (stopped h) (tasks_closed h) (<[n := (m, p)]> (offers h)).

(** A handler is called with [m]. *)
Definition offer_new (n : nat) (m : M) (p : offer_pc) h : option (handoff M) :=
  match offers h !! n with Some _ => None | None => Some (set_offer n m p h) end.

(** What the select does: it waits when no case is ready; the closed stop channel is ready;
    a send on the closed channel of tasks is ready and panics. *)
Inductive select_choice := ToPark | ToStop | ToSend.

Definition offer_select (n : nat) (choice : select_choice) h : option (go (handoff M)) :=
  match offers h !! n with
  | Some (m, Entering) =>
      match choice with
      | ToPark => if stopped h || tasks_closed h then None else Some (Ret (set_offer n m Parked h))
      | ToStop => if stopped h then Some (Ret (set_offer n m Stopping h)) else None
      | ToSend => if tasks_closed h then Some (Panic "send on closed channel") else None
      end
  | _ => None
  end.

(** A receiver takes the message of a handler that selects. *)
Definition offer_take (t n : nat) h : option (handoff M) :=
  match offers h !! n with
  | Some (m, p) => if undecided p && negb (tasks_closed h) then Some (set_offer n m (Taken t) h) else None
  | None => None
  end.

(** The timer of a waiting select fires and the handler selects again. *)
Definition offer_tick (n : nat) h : option (M * handoff M) :=
  match offers h !! n with
  | Some (m, Parked) => Some (m, set_offer n m Entering h)
  | _ => None
  end.

(** The handler returns after its stop case. *)
Definition offer_end (n : nat) h : option (M * handoff M) :=
  match offers h !! n with
  | Some (m, Stopping) => Some (m, set_offer n m Withdrawn h)
  | _ => None
  end.

Definition wake_parked (o : M * offer_pc) : M * offer_pc :=
  match o with (m, Parked) => (m, Stopping) | _ => o end.

(** [close(stop)] wakes every waiting handler. *)
Definition close_stop h : go (handoff M) :=
  if stopped h then Panic "close of closed channel"
  else Ret (mkHandoff true (tasks_closed h) (wake_parked <$> offers h)).

Definition parked (o : M * offer_pc) : bool := match o.2 with Parked => true | _ => false end.

(** [close(tasks)]: a handler that waits to send panics. *)
Definition close_tasks h : go (handoff M) :=
  if tasks_closed h then Panic "close of closed channel"
  else if existsb (fun kv => parked kv.2) (map_to_list (offers h)) then Panic "send on closed channel"
  else Ret (mkHandoff (stopped h) true (offers h)).

(** * What it guarantees *)

(** Nothing waits once the handlers were told to stop, and tasks are closed after that. *)
Record handoff_ok h : Prop := {
  ho_parked : stopped h = true -> forall n m, offers h !! n <> Some (m, Parked);
  ho_closed : tasks_closed h = true -> stopped h = true
}.

(** No handler runs. *)
Definition quiet h : Prop := forall n m p, offers h !! n = Some (m, p) -> running p = false.

(** Decisions are final: messages stay what they are, and a handler that returned stays so. *)
Definition handoff_mono h h' : Prop :=
  (stopped h = true -> stopped h' = true) /\ (tasks_closed h = true -> tasks_closed h' = true) /\
  forall n m p, offers h !! n = Some (m, p) ->
    exists p', offers h' !! n = Some (m, p') /\ (running p = false -> p' = p).

Lemma no_offers_ok : handoff_ok no_offers.
Proof. by split. Qed.

Lemma set_offer_ok n m p h :
  handoff_ok h -> (p = Parked -> stopped h = false) -> handoff_ok (set_offer n m p h).
Proof.
  intros [Hp Hc] Hn. split; [|done]. simpl. intros Hs n' m'. rewrite lookup_insert_Some.
  intros [[<- [= <- ->]]|[_ H]]; [|by eapply Hp]. rewrite Hn in Hs; done.
Qed.

Lemma close_stop_ok h h' : handoff_ok h -> close_stop h = Ret h' ->
  handoff_ok h' /\ stopped h' = true /\ tasks_closed h' = tasks_closed h /\ offers h' = wake_parked <$> offers h.
Proof.
  intros [Hp Hc]. unfold close_stop. destruct (stopped h) eqn:Es; [done|]. intros [= <-].
  split; [|done]. split; [|done]. simpl. intros _ n m. rewrite lookup_fmap.
  destruct (offers h !! n) as [[m' []]|]; simpl; congruence.
Qed.

Lemma close_tasks_ok h :
  handoff_ok h -> stopped h = true -> tasks_closed h = false ->
  close_tasks h = Ret (mkHandoff true true (offers h)).
Proof.
  intros [Hp _] Hs Hc. unfold close_tasks. rewrite Hc.
  destruct (existsb _ _) eqn:E; [|by rewrite Hs].
  apply existsb_exists in E as ([n [m p]] & Hin & Hpk).
  apply list_elem_of_In, elem_of_map_to_list in Hin.
  destruct p; try done. by apply Hp in Hin.
Qed.

Lemma handoff_mono_refl h : handoff_mono h h.
Proof. split_and!; eauto. Qed.

Lemma handoff_mono_trans h1 h2 h3 : handoff_mono h1 h2 -> handoff_mono h2 h3 -> handoff_mono h1 h3.
Proof.
  intros (A1 & A2 & A3) (B1 & B2 & B3). split_and!; [auto..|]. intros n m p Hn.
  destruct (A3 _ _ _ Hn) as (p' & Hn' & Hp). destruct (B3 _ _ _ Hn') as (p'' & Hn'' & Hp').
  exists p''. split; [done|]. intros H. specialize (Hp H) as ->. auto.
Qed.

Lemma set_offer_mono n m p q h :
  offers h !! n = Some (m, q) -> running q = true -> handoff_mono h (set_offer n m p h).
Proof.
  intros Hn Hq. split_and!; [done..|]. intros n' m' p' Hn'. simpl.
  destruct (decide (n' = n)) as [->|Hne].
  - rewrite Hn in Hn'. injection Hn' as <- <-. exists p. rewrite lookup_insert_eq. split; [done|]. congruence.
  - exists p'. by rewrite lookup_insert_ne.
Qed.

Lemma offer_new_mono n m p h h' : offer_new n m p h = Some h' -> handoff_mono h h'.
Proof.
  unfold offer_new. destruct (offers h !! n) eqn:E; [done|]. intros [= <-]. split_and!; [done..|].
  intros n' m' p' Hn'. exists p'. simpl. rewrite lookup_insert_ne by congruence. done.
Qed.

Lemma close_stop_mono h h' : close_stop h = Ret h' -> handoff_mono h h'.
Proof.
  unfold close_stop. destruct (stopped h) eqn:E; [done|]. intros [= <-]. split_and!; [done..|].
  intros n m p Hn. simpl. rewrite lookup_fmap, Hn. simpl. destruct p; simpl; eexists; (split; [reflexivity|done]).
Qed.
End handoff.

(** * Custody

    Who has a message that was taken from its handler: [carried p] is the message of a call
    at [p], [owner p] tells that such a call has received one or returned. *)
Section custody.
Context {M P : Type} (carried : P -> option nat) (owner : P -> bool).

(** A taken message is with the call that took it, or was dropped by it; a call takes one. *)
Record custody (dropped : M -> Prop) (h : handoff M) (cs : gmap nat P) : Prop := {
  cu_taken n m t : offers h !! n = Some (m, Taken t) -> exists p, cs !! t = Some p /\
    owner p = true /\ (carried p = Some n \/ carried p = None /\ dropped m);
  cu_carried t p n : cs !! t = Some p -> carried p = Some n -> exists m, offers h !! n = Some (m, Taken t);
  cu_sole n n' m m' t : offers h !! n = Some (m, Taken t) -> offers h !! n' = Some (m', Taken t) -> n = n'
}.

Lemma custody_empty dropped : custody dropped no_offers ∅.
Proof. by split. Qed.

Lemma custody_mono (dropped dropped' : M -> Prop) h cs :
  custody dropped h cs -> (forall m, dropped m -> dropped' m) -> custody dropped' h cs.
Proof.
  intros [H1 H2 H3] Hd. split; [|done..]. intros n m t Hn.
  destruct (H1 _ _ _ Hn) as (p & Hp & Ho & [|[? ?]]); exists p; eauto 10.
Qed.

(** A call without a message moves on. *)
Lemma custody_call dropped h cs t p' :
  custody dropped h cs -> (forall p, cs !! t = Some p -> owner p = false) -> carried p' = None ->
  custody dropped h (<[t := p']> cs).
Proof.
  intros [H1 H2 H3] Ho Hc. split; [| |done].
  - intros n m u Hn. destruct (H1 _ _ _ Hn) as (p & Hp & Hop & Hw). exists p.
    rewrite lookup_insert_ne by (intros <-; specialize (Ho _ Hp); congruence). done.
  - intros u p n. rewrite lookup_insert_Some. intros [[<- <-]|[_ Hu]] Hn; [congruence|eauto].
Qed.

(** A handler whose message is not taken moves on. *)
Lemma custody_handler dropped h cs n m p :
  custody dropped h cs -> (forall t m', offers h !! n <> Some (m', Taken t)) -> (forall t, p <> Taken t) ->
  custody dropped (set_offer n m p h) cs.
Proof.
  intros [H1 H2 H3] Hn Hp. split; simpl.
  - intros i j t. rewrite lookup_insert_Some. intros [[<- [= <- Ht]]|[_ Hi]]; [by apply Hp in Ht|eauto].
  - intros t r i Hr Hc. destruct (H2 _ _ _ Hr Hc) as (j & Hj). exists j. rewrite lookup_insert_ne; [done|].
    intros <-. by apply Hn in Hj.
  - intros i i' j j' t. rewrite !lookup_insert_Some.
    intros [[<- [= <- Ht]]|[_ Hi]] [[<- [= <- Ht']]|[_ Hi']]; try (by apply Hp in Ht); try (by apply Hp in Ht'); eauto.
Qed.

Lemma wake_parked_back (h : handoff M) n m p :
  p <> Stopping -> (wake_parked <$> offers h) !! n = Some (m, p) -> offers h !! n = Some (m, p).
Proof. intros Hp. rewrite lookup_fmap. destruct (offers h !! n) as [[m' []]|]; simpl; congruence. Qed.

Lemma custody_stop dropped h h' cs : custody dropped h cs -> close_stop h = Ret h' -> custody dropped h' cs.
Proof.
  intros [H1 H2 H3]. unfold close_stop. destruct (stopped h); [done|]. intros [= <-]. split; simpl.
  - intros n m t Hn. eapply H1, wake_parked_back; done.
  - intros t p n Hp Hc. destruct (H2 _ _ _ Hp Hc) as (m & Hm). exists m. by rewrite lookup_fmap, Hm.
  - intros n n' m m' t Hn Hn'. eapply H3; eapply wake_parked_back; done.
Qed.

Lemma custody_closed dropped h h' cs : custody dropped h cs -> close_tasks h = Ret h' -> custody dropped h' cs.
Proof.
  intros [H1 H2 H3]. unfold close_tasks. destruct (tasks_closed _); [done|]. destruct (existsb _ _); [done|].
  intros [= <-]. by split.
Qed.

(** A call receives a message. *)
Lemma custody_take dropped h h' cs t n p p' :
  custody dropped h cs -> cs !! t = Some p -> owner p = false -> carried p' = Some n -> owner p' = true ->
  offer_take t n h = Some h' -> custody dropped h' (<[t := p']> cs).
Proof.
  intros [H1 H2 H3] Ht Ho Hc' Ho'. unfold offer_take. destruct (offers h !! n) as [[m pc]|] eqn:En; [|done].
  destruct (undecided pc) eqn:Eu; [|done]. destruct (negb _); [|done]. intros [= <-].
  assert (Hno : forall i j, offers h !! i <> Some (j, Taken t)).
  { intros i j Hi. destruct (H1 _ _ _ Hi) as (r & Hr & Hor & _). congruence. }
  split; simpl.
  - intros i j u. rewrite lookup_insert_Some. intros [[<- [= <- <-]]|[Hne Hi]].
    + exists p'. rewrite lookup_insert_eq. auto.
    + destruct (H1 _ _ _ Hi) as (r & Hr & Hop & Hw). exists r. rewrite lookup_insert_ne; [done|]. congruence.
  - intros u r i. rewrite lookup_insert_Some. intros [[<- <-]|[Hne Hu]] Hc.
    + assert (i = n) as -> by congruence. exists m. by rewrite lookup_insert_eq.
    + destruct (H2 _ _ _ Hu Hc) as (j & Hj). exists j. rewrite lookup_insert_ne; [done|].
      intros <-. rewrite En in Hj. injection Hj as -> ->. done.
  - intros i i' j j' u. rewrite !lookup_insert_Some.
    intros [[<- E1]|[_ Hi]] [[<- E2]|[_ Hi']]; simplify_eq; [done|by apply Hno in Hi'|by apply Hno in Hi|eauto].
Qed.

(** A call with a message returns it or drops it. *)
Lemma custody_return dropped h cs t n m p p' :
  custody dropped h cs -> cs !! t = Some p -> carried p = Some n -> offers h !! n = Some (m, Taken t) ->
  owner p' = true -> (carried p' = Some n \/ carried p' = None /\ dropped m) -> custody dropped h (<[t := p']> cs).
Proof.
  intros [H1 H2 H3] Ht Hc Hn Ho Hw. split; [| |done].
  - intros i j u Hi. destruct (decide (u = t)) as [->|Hne].
    + assert (i = n) as -> by (by eapply H3). rewrite Hn in Hi. injection Hi as <-. exists p'. by rewrite lookup_insert_eq.
    + destruct (H1 _ _ _ Hi) as (r & Hr & Hop & Hwr). exists r. by rewrite lookup_insert_ne.
  - intros u r i. rewrite lookup_insert_Some. intros [[<- <-]|[_ Hu]] Hr; [|eauto].
    destruct Hw as [Hw|[Hw _]]; [|congruence]. assert (i = n) as -> by congruence. by exists m.
Qed.
End custody.
