(* ===== verification/NsqWorker.v ===== *)
(** The intake of the NSQ worker (nsq/nsq.go): message handlers and concurrent calls of
    [Request], [Shutdown], [Stats], [Queue] and the settlement callbacks, as one transition
    system over the client library. *)

From S2P Require Import Prelude GoStd Sentinels Contract Failure Job Status Records Stream ValkeyOptions Nsq Handoff.

(** * State *)

(** [ConnectToNSQD] is called; has succeeded; has failed. *)
Inductive link := Connecting | Linked | Unlinked.

(** The consumer of the library; [q_exited] is its closed [StopChan]. *)
Record consumer := mkConsumer { q_link : link; q_stopping : bool; q_exited : bool }.

(** Where a call stands. *)
Inductive call_pc :=
| RequestLock                                    (* startConsumer, at the mutex *)
| RequestStart                                   (* holding it *)
| RequestCreate                                  (* in startOnce, at NewConsumer *)
| RequestConnect                                 (* in startOnce, at connectConsumer *)
| RequestSelect
| RequestGot (n : nat)
| RequestDone (result : error + nat * Message)
| ShutdownSwap
| ShutdownLock
| ShutdownStop                                   (* holding the mutex, in stopOnce *)
| ShutdownQuit
| ShutdownWait
| ShutdownProducer
| ShutdownTasks
| ShutdownDone (err : error)
| StatsLock
| StatsDone (known : bool).

(** The fields of [Worker]; [producer_stops] counts the calls of [stopProducer]. *)
Record intake (W : Type) := mkIntake {
  client : W;
  stopFlag : bool;
  lifecycleMu : option nat;
  startOnce : bool;
  stopOnce : bool;
  q : option consumer;
  hand : handoff NsqMessage;
  producer_stops : nat;
  calls : gmap nat call_pc
}.
Arguments mkIntake {W} _ _ _ _ _ _ _ _ _.
Arguments client {W} _.
Arguments stopFlag {W} _.
Arguments lifecycleMu {W} _.
Arguments startOnce {W} _.
Arguments stopOnce {W} _.
Arguments q {W} _.
Arguments hand {W} _.
Arguments producer_stops {W} _.
Arguments calls {W} _.

Section intake.
Context {W : Type} `{!nsqClient W, !EnvelopeJSON}.
Context (order : list (string * string) -> list (string * string)).
Context (unmarshal : string -> error + Message).
Context (worker : Worker).
Implicit Types s : intake W.

Definition with_call (t : nat) (p : call_pc) s : intake W := s <| @calls W := <[t := p]> (calls s) |>.

(** [lifecycleMu.Unlock] and the return of the call or of [startConsumer]. *)
Definition unlock (t : nat) (p : call_pc) s : intake W := with_call t p (s <| @lifecycleMu W := @None nat |>).

(** [lifecycleMu.Lock]. *)
Definition lock (t : nat) (p : call_pc) s : option (go (intake W)) :=
  match lifecycleMu s with
  | Some _ => None
  | None => Some (Ret (with_call t p (s <| @lifecycleMu W := Some t |>)))
  end.

(** What the worker does to the consumer it has. *)
Definition on_consumer (f : consumer -> consumer) s : intake W :=
  match q s with Some c => s <| @q W := Some (f c) |> | None => s end.

(** ** startConsumer *)

Definition start (t : nat) s : intake W :=
  if stopFlag s then unlock t (RequestDone (inl ErrQueueShutdown)) s
  else if startOnce s then unlock t RequestSelect s
  else with_call t RequestCreate (s <| @startOnce W := true |>).

Definition create (t : nat) (err : error) s : intake W :=
  if negb (is_nil err) then unlock t (RequestDone (inl err)) s
  else with_call t RequestConnect (s <| @q W := Some (mkConsumer Connecting false false) |>).

Definition connect (t : nat) (err : error) s : intake W :=
  let linked := if is_nil err then Linked else Unlinked in
  unlock t (if is_nil err then RequestSelect else RequestDone (inl err))
    (on_consumer (fun c => c <| q_link := linked |>) s).

(** ** handleMessage *)

(** The library calls the handler while it is connected and has not exited. A message
    without a body is finished by the library when the handler returns. *)
Definition deliver (n : nat) (m : NsqMessage) s : option (go (intake W)) :=
  match q s with
  | Some c =>
      if q_exited c then None
      else match q_link c with
           | Unlinked => None
           | _ =>
               if (len (N_Body m) =? 0)%Z
               then match offer_new n m Discarded (hand s) with
                    | Some h => Some (Ret (s <| @hand W := h |> <| @client W := (Finish m (client s)).2 |>))
                    | None => None
                    end
               else match offer_new n m Entering (hand s) with
                    | Some h => Some (Ret (s <| @hand W := h |>))
                    | None => None
                    end
           end
  | None => None
  end.

Definition select (n : nat) (choice : select_choice) s : option (go (intake W)) :=
  match offer_select n choice (hand s) with
  | Some (Ret h) => Some (Ret (s <| @hand W := h |>))
  | Some (Panic why) => Some (Panic why)
  | None => None
  end.

(** [msg.Touch()] after the interval, and the next round of the loop. *)
Definition touch (n : nat) s : option (go (intake W)) :=
  match offer_tick n (hand s) with
  | Some (m, h) => Some (Ret (s <| @hand W := h |> <| @client W := (Touch m (client s)).2 |>))
  | None => None
  end.

(** [msg.Requeue(-1)] after the stop case. *)
Definition withdraw (n : nat) s : option (go (intake W)) :=
  match offer_end n (hand s) with
  | Some (m, h) => Some (Ret (s <| @hand W := h |> <| @client W := (Requeue m (client s)).2 |>))
  | None => None
  end.

(** ** Request *)

(** A request in its select receives the message of handler [n]. *)
Definition take (t n : nat) s : option (go (intake W)) :=
  match calls s !! t, offer_take t n (hand s) with
  | Some RequestSelect, Some h => Some (Ret (with_call t (RequestGot n) (s <| @hand W := h |>)))
  | _, _ => None
  end.

(** The received message is decoded, or settled as malformed. *)
Definition receive (t n : nat) (now : Time) s : option (go (intake W)) :=
  match offers (hand s) !! n with
  | Some (m, _) =>
      let '(r, w) := Request_received order unmarshal worker m now (client s) in
      let result := match r with inl err => inl err | inr data => inr (n, data) end in
      Some (Ret (with_call t (RequestDone result) (s <| @client W := w |>)))
  | None => None
  end.

(** ** Shutdown *)

Definition swap (t : nat) s : intake W :=
  if stopFlag s then with_call t (ShutdownDone ErrQueueShutdown) s
  else with_call t ShutdownLock (s <| @stopFlag W := true |>).

Definition stop (t : nat) s : go (intake W) :=
  if stopOnce s then Ret (unlock t (ShutdownDone ErrNil) s)
  else
    match close_stop (hand s) with
    | Ret h =>
        Ret (with_call t (match q s with Some _ => ShutdownQuit | None => ShutdownProducer end)
               (s <| @hand W := h |> <| @stopOnce W := true |>))
    | Panic why => Panic why
    end.

Definition quit (t : nat) s : intake W :=
  with_call t ShutdownWait (on_consumer (fun c => c <| q_stopping := true |>) s).

(** The receive from [StopChan]. *)
Definition wait (t : nat) s : option (intake W) :=
  match q s with
  | Some c => if q_exited c then Some (with_call t ShutdownProducer s) else None
  | None => None
  end.

Definition close (t : nat) s : go (intake W) :=
  match close_tasks (hand s) with
  | Ret h => Ret (unlock t (ShutdownDone ErrNil) (s <| @hand W := h |>))
  | Panic why => Panic why
  end.

(** A step of call [t]; [answer] is the error a library call returns, [now] the clock;
    [None] while the call is blocked or has returned. *)
Definition call_step (t : nat) (answer : error) (now : Time) (p : call_pc) s : option (go (intake W)) :=
  match p with
  | RequestLock => lock t RequestStart s
  | RequestStart => Some (Ret (start t s))
  | RequestCreate => Some (Ret (create t answer s))
  | RequestConnect => Some (Ret (connect t answer s))
  | RequestSelect =>
      if tasks_closed (hand s) then Some (Ret (with_call t (RequestDone (inl ErrQueueHasBeenClosed)) s)) else None
  | RequestGot n => receive t n now s
  | ShutdownSwap => Some (Ret (swap t s))
  | ShutdownLock => lock t ShutdownStop s
  | ShutdownStop => Some (stop t s)
  | ShutdownQuit => Some (Ret (quit t s))
  | ShutdownWait => Ret <$> wait t s
  | ShutdownProducer => Some (Ret (with_call t ShutdownTasks (s <| @producer_stops W := S (producer_stops s) |>)))
  | ShutdownTasks => Some (close t s)
  | StatsLock =>
      match lifecycleMu s with
      | Some _ => None
      | None => Some (Ret (with_call t (StatsDone (match q s with Some _ => true | None => false end)) s))
      end
  | RequestDone _ | ShutdownDone _ | StatsDone _ => None
  end.

(** ** Events *)

Inductive verdict := Acknowledged | Failed (err : error).

Inductive event :=
| Request (t : nat)
| Shutdown (t : nat)
| Stats (t : nat)
| Submit (bytes : string)
| Settle (t : nat) (v : verdict) (now : Time)        (* a callback of the message of call [t] *)
| Step (t : nat) (answer : error) (now : Time)
| Timeout (t : nat)
| Deliver (n : nat) (m : NsqMessage)
| Select (n : nat) (choice : select_choice)
| TouchTimer (n : nat)
| Withdraw (n : nat)
| Take (t n : nat)
| Exit.                                             (* the library closes [StopChan] *)

Definition enter (t : nat) (p : call_pc) s : option (go (intake W)) :=
  match calls s !! t with Some _ => None | None => Some (Ret (with_call t p s)) end.

Definition settle (t : nat) (v : verdict) (now : Time) s : option (go (intake W)) :=
  match calls s !! t with
  | Some (RequestDone (inr (n, _))) =>
      match offers (hand s) !! n with
      | Some (m, _) =>
          let run := match v with
                     | Acknowledged => settle_ack m
                     | Failed err => settle_fail order unmarshal worker m err now
                     end in
          Some (Ret (s <| @client W := (run (client s)).2 |>))
      | None => None
      end
  | _ => None
  end.

Definition handler_runs (o : NsqMessage * offer_pc) : bool := running o.2.

(** [StopChan] is closed after [Stop], when no handler runs any more. *)
Definition exit s : option (go (intake W)) :=
  match q s with
  | Some c =>
      if q_stopping c && negb (q_exited c) && negb (existsb (fun kv => handler_runs kv.2) (map_to_list (offers (hand s))))
      then Some (Ret (s <| @q W := Some (c <| q_exited := true |>) |>))
      else None
  | None => None
  end.

Definition step (e : event) s : option (go (intake W)) :=
  match e with
  | Request t => enter t RequestLock s
  | Shutdown t => enter t ShutdownSwap s
  | Stats t => enter t StatsLock s
  | Submit bytes => Some (Ret (s <| @client W := (Queue worker (stopFlag s) bytes (client s)).2 |>))
  | Settle t v now => settle t v now s
  | Step t answer now => match calls s !! t with Some p => call_step t answer now p s | None => None end
  | Timeout t =>
      match calls s !! t with
      | Some RequestSelect => Some (Ret (with_call t (RequestDone (inl ErrNoTaskInQueue)) s))
      | _ => None
      end
  | Deliver n m => deliver n m s
  | Select n choice => select n choice s
  | TouchTimer n => touch n s
  | Withdraw n => withdraw n s
  | Take t n => take t n s
  | Exit => exit s
  end.

Fixpoint run (es : list event) s : option (go (intake W)) :=
  match es with
  | [] => Some (Ret s)
  | e :: es => match step e s with Some (Ret s) => run es s | r => r end
  end.

Definition initial (w : W) : intake W := mkIntake w false None false false None no_offers 0 ∅.
End intake.
