(* ===== verification/NsqWorkerSafety.v ===== *)
(** Safety of the intake of the NSQ worker: the invariants of its mutex, of its shutdown and
    of the messages it hands over, and the theorems on its runs. *)

From S2P Require Import Prelude GoStd Sentinels Contract Failure Job Status Records Stream ValkeyOptions Execution Nsq NsqSafety Handoff NsqWorker.

(** * The mutex and the shutdown *)

(** The call holds the mutex. *)
Definition holding (p : call_pc) : bool :=
  match p with
  | RequestStart | RequestCreate | RequestConnect
  | ShutdownStop | ShutdownQuit | ShutdownWait | ShutdownProducer | ShutdownTasks => true
  | _ => false
  end.

(** The call is in the function of [startOnce]. *)
Definition starting (p : call_pc) : bool :=
  match p with RequestCreate | RequestConnect => true | _ => false end.

(** The call is the shutdown that won the swap. *)
Definition closing (p : call_pc) : bool :=
  match p with
  | ShutdownLock | ShutdownStop | ShutdownQuit | ShutdownWait | ShutdownProducer | ShutdownTasks => true
  | ShutdownDone err => is_nil err
  | _ => false
  end.

(** The consumer has ended by then. *)
Definition finished (p : call_pc) : bool :=
  match p with ShutdownProducer | ShutdownTasks | ShutdownDone _ => true | _ => false end.

(** The shutdown waits for a consumer. *)
Definition quitting (p : call_pc) : bool :=
  match p with ShutdownQuit | ShutdownWait => true | _ => false end.

(** How far the shutdown at [p] is: stop closed, producer stopped, tasks closed. *)
Definition phase (p : call_pc) : bool * nat * bool :=
  match p with
  | ShutdownLock | ShutdownStop => (false, 0, false)
  | ShutdownQuit | ShutdownWait | ShutdownProducer => (true, 0, false)
  | ShutdownTasks => (true, 1, false)
  | _ => (true, 1, true)
  end.

(** The mutex is held by the one call in a section of it. *)
Definition mutex_ok (mu : option nat) (cs : gmap nat call_pc) : Prop :=
  (forall t p, cs !! t = Some p -> holding p = true -> mu = Some t) /\
  (forall t, mu = Some t -> exists p, cs !! t = Some p /\ holding p = true).

Lemma mutex_keep mu cs t p p' :
  mutex_ok mu cs -> cs !! t = Some p -> holding p' = holding p -> mutex_ok mu (<[t := p']> cs).
Proof.
  intros [H1 H2] Ht Hh. split.
  - intros u r. rewrite lookup_insert_Some. intros [[<- <-]|[_ H]] Hr; eapply H1; [done|congruence|done|done].
  - intros u Hu. destruct (H2 u Hu) as (r & Hr & Hhr). destruct (decide (u = t)) as [->|Hne].
    + exists p'. rewrite lookup_insert_eq. split; [done|]. congruence.
    + exists r. by rewrite lookup_insert_ne.
Qed.

Lemma mutex_new mu cs t p' :
  mutex_ok mu cs -> cs !! t = None -> holding p' = false -> mutex_ok mu (<[t := p']> cs).
Proof.
  intros [H1 H2] Ht Hh. split.
  - intros u r. rewrite lookup_insert_Some. intros [[<- <-]|[_ H]] Hr; [congruence|eauto].
  - intros u Hu. destruct (H2 u Hu) as (r & Hr & Hhr). exists r. rewrite lookup_insert_ne by congruence. done.
Qed.

Lemma mutex_take cs t p' : mutex_ok None cs -> holding p' = true -> mutex_ok (Some t) (<[t := p']> cs).
Proof.
  intros [H1 H2] Hh. split.
  - intros u r. rewrite lookup_insert_Some. intros [[<- <-]|[_ H]] Hr; [done|]. by specialize (H1 _ _ H Hr).
  - intros u [= <-]. exists p'. by rewrite lookup_insert_eq.
Qed.

Lemma mutex_drop mu cs t p p' :
  mutex_ok mu cs -> cs !! t = Some p -> holding p = true -> holding p' = false -> mutex_ok None (<[t := p']> cs).
Proof.
  intros [H1 H2] Ht Hh Hh'. split; [|done]. intros u r. rewrite lookup_insert_Some.
  intros [[<- <-]|[Hne H]] Hr; [congruence|]. specialize (H1 _ _ H Hr) as H3. specialize (H1 _ _ Ht Hh). congruence.
Qed.

(** The step returned a state. *)
Ltac returned :=
  let H := fresh in intros H; apply (inj Some) in H; rewrite <- H; clear H; eexists; split; [reflexivity|].

Section safety.
Context {W : Type}.
Implicit Types s : intake W.

Definition progress s : bool * nat * bool := (stopOnce s, producer_stops s, tasks_closed (hand s)).

Definition ended s : Prop := match q s with Some c => q_exited c = true | None => True end.

(** There is a consumer, and it was told to stop before [p] waits for it. *)
Definition quitting_ok s (p : call_pc) : Prop :=
  exists c, q s = Some c /\ (p = ShutdownWait -> q_stopping c = true).

(** What the shutdown call at [p] has established. *)
Definition phase_ok s (p : call_pc) : Prop :=
  progress s = phase p /\ (finished p = true -> ended s) /\ (quitting p = true -> quitting_ok s p).

(** The consumer stays, and stays told to stop. *)
Definition consumer_kept s s' : Prop :=
  forall c, q s = Some c -> exists c', q s' = Some c' /\ (q_stopping c = true -> q_stopping c' = true).

Lemma quitting_kept s s' p : consumer_kept s s' -> quitting_ok s p -> quitting_ok s' p.
Proof. intros Hk (c & Hc & Hp). destruct (Hk c Hc) as (c' & Hc' & H). exists c'. auto. Qed.

Record intake_ok s : Prop := {
  io_hand : handoff_ok (hand s);
  io_once : stopped (hand s) = stopOnce s;
  io_mutex : mutex_ok (lifecycleMu s) (calls s);
  io_open : stopFlag s = false -> progress s = (false, 0, false) /\ forall t p, calls s !! t = Some p -> closing p = false;
  io_closing : stopFlag s = true -> exists t p, calls s !! t = Some p /\ closing p = true;
  io_sole t t' p p' : calls s !! t = Some p -> closing p = true -> calls s !! t' = Some p' -> closing p' = true -> t = t';
  io_phase t p : calls s !! t = Some p -> closing p = true -> phase_ok s p;
  io_late t p : tasks_closed (hand s) = true -> calls s !! t = Some p -> starting p = false;
  io_quiet : ended s -> quiet (hand s)
}.

Lemma nsq_initial_ok (w : W) : intake_ok (initial w).
Proof. by split. Qed.

(** A change outside of the calls: of the client, of the consumer or of the handlers. *)
Lemma frame_ok s s' :
  intake_ok s -> calls s' = calls s -> lifecycleMu s' = lifecycleMu s -> stopFlag s' = stopFlag s ->
  progress s' = progress s -> handoff_ok (hand s') -> stopped (hand s') = stopped (hand s) ->
  (ended s -> ended s') -> consumer_kept s s' -> (ended s' -> quiet (hand s')) -> intake_ok s'.
Proof.
  intros [Hh Ho Hm Hop Hcl Hs Hp Hl Hq] Ec Em Ef Epr Hh' Est He Hn Hq'.
  assert (stopOnce s' = stopOnce s /\ tasks_closed (hand s') = tasks_closed (hand s)) as [E1 E2]
    by (unfold progress in Epr; by split; congruence).
  split; rewrite ?Ec, ?Em, ?Ef, ?Epr, ?E1, ?E2; auto; [congruence|].
  intros t p Ht Hc. destruct (Hp t p Ht Hc) as (? & ? & ?). unfold phase_ok. rewrite Epr.
  split_and!; auto. intros. eapply quitting_kept; eauto.
Qed.

(** A call other than the shutdown moves on. *)
Lemma move_ok t p' s s' :
  intake_ok s -> (forall p, calls s !! t = Some p -> closing p = false) -> closing p' = false ->
  (starting p' = true -> tasks_closed (hand s) = false) ->
  calls s' = <[t := p']> (calls s) -> mutex_ok (lifecycleMu s') (calls s') -> stopFlag s' = stopFlag s ->
  progress s' = progress s -> hand s' = hand s ->
  (ended s' -> ended s) -> (forall u r, calls s !! u = Some r -> closing r = true -> phase_ok s r -> phase_ok s' r) ->
  intake_ok s'.
Proof.
  intros [Hh Ho Hm Hop Hcl Hs Hp Hl Hq] Hc Hc' Hst Ec Hm' Ef Epr Ehd He Hph.
  assert (stopOnce s' = stopOnce s) as E1 by (unfold progress in Epr; congruence).
  assert (Hget : forall u r, calls s' !! u = Some r -> closing r = true -> calls s !! u = Some r).
  { intros u r. rewrite Ec, lookup_insert_Some. intros [[<- <-]|[_ H]] Hr; [congruence|done]. }
  split; rewrite ?Ehd, ?Ef, ?Epr, ?E1; auto; try congruence.
  - intros H. destruct (Hop H) as [H1 H2]. split; [done|]. intros u r. rewrite Ec, lookup_insert_Some.
    intros [[<- <-]|[_ Hr]]; [done|eauto].
  - intros H. destruct (Hcl H) as (u & r & Hr & Hcr). exists u, r. rewrite Ec, lookup_insert_ne; [done|].
    intros <-. specialize (Hc _ Hr). congruence.
  - intros u u' r r' H1 H2 H3 H4. eauto.
  - intros u r H Hr. eauto.
  - intros u r Hcl'. rewrite Ec, lookup_insert_Some. intros [[<- <-]|[_ H]]; [|eauto].
    destruct (starting p') eqn:E; [|done]. by rewrite (Hst eq_refl) in Hcl'.
Qed.

(** The shutdown moves on. *)
Lemma advance_ok t p p' s s' :
  intake_ok s -> calls s !! t = Some p -> closing p = true -> closing p' = true ->
  calls s' = <[t := p']> (calls s) -> mutex_ok (lifecycleMu s') (calls s') -> stopFlag s' = stopFlag s ->
  handoff_ok (hand s') -> stopped (hand s') = stopOnce s' -> phase_ok s' p' ->
  (tasks_closed (hand s') = true -> forall u r, calls s !! u = Some r -> starting r = false) ->
  (ended s' -> quiet (hand s')) -> intake_ok s'.
Proof.
  intros [Hh Ho Hm Hop Hcl Hs Hp Hl Hq] Ht Hc Hc' Ec Hm' Ef Hh' Est Hph Hlate Hq'.
  assert (Hget : forall u r, calls s' !! u = Some r -> closing r = true -> u = t /\ r = p').
  { intros u r. rewrite Ec, lookup_insert_Some. intros [[<- <-]|[Hne H]] Hr; [done|]. by destruct Hne; eapply Hs. }
  split; auto.
  - rewrite Ef. intros H. destruct (Hop H) as [_ H2]. specialize (H2 _ _ Ht). congruence.
  - intros _. exists t, p'. rewrite Ec, lookup_insert_eq. done.
  - intros u u' r r' H1 H2 H3 H4. destruct (Hget _ _ H1 H2), (Hget _ _ H3 H4). congruence.
  - intros u r H1 H2. by destruct (Hget _ _ H1 H2) as [_ ->].
  - intros u r Hcl'. rewrite Ec, lookup_insert_Some. intros [[<- <-]|[_ H]]; [|eauto]. by destruct p'.
Qed.

(** While a call is in [startOnce], the shutdown has not passed the consumer. *)
Lemma starting_first t p u r s :
  intake_ok s -> calls s !! t = Some p -> starting p = true -> calls s !! u = Some r -> closing r = true ->
  finished r = false /\ quitting r = false.
Proof.
  intros [_ _ [Hm _] _ _ _ Hp Hl _] Ht Hst Hu Hc. assert (lifecycleMu s = Some t) as E by (eapply Hm; [done|by destruct p]).
  destruct (holding r) eqn:Hh.
  - specialize (Hm _ _ Hu Hh). rewrite E in Hm. injection Hm as <-. rewrite Ht in Hu. injection Hu as <-. by destruct p.
  - destruct (Hp _ _ Hu Hc) as (Hpr & _ & _). destruct r; try done.
    injection Hpr as _ _ Hcl. specialize (Hl _ _ Hcl Ht). congruence.
Qed.

Lemma nsq_enter_ok t p s r :
  intake_ok s -> holding p = false -> closing p = false -> starting p = false -> enter t p s = Some r ->
  exists s', r = Ret s' /\ intake_ok s'.
Proof.
  intros Hok Hh Hc Hst. unfold enter. destruct (calls s !! t) eqn:E; [done|]. intros [= <-]. eexists. split; [done|].
  eapply (move_ok t p s); [done|congruence|done|congruence|by destruct s| |by destruct s..|].
  - destruct s; simpl. apply mutex_new; [apply Hok|done..].
  - intros u r _ _. by destruct s.
Qed.

(** A call that does not take or give back the mutex. *)
Lemma keep_ok t p p' s :
  intake_ok s -> calls s !! t = Some p -> holding p' = holding p -> closing p = false -> closing p' = false ->
  starting p' = false -> intake_ok (with_call t p' s).
Proof.
  intros Hok Ht Hh Hc Hc' Hst. eapply (move_ok t p' s); [done|congruence|done|congruence|by destruct s| |by destruct s..|].
  - destruct s; simpl. eapply mutex_keep; [apply Hok|done..].
  - intros u r _ _. by destruct s.
Qed.

(** A call of [Request] gives back the mutex. *)
Lemma unlock_ok t p p' s :
  intake_ok s -> calls s !! t = Some p -> holding p = true -> closing p = false ->
  holding p' = false -> closing p' = false -> starting p' = false -> intake_ok (unlock t p' s).
Proof.
  intros Hok Ht Hh Hc Hh' Hc' Hst. eapply (move_ok t p' s); [done|congruence|done|congruence|by destruct s| |by destruct s..|].
  - destruct s; simpl. eapply mutex_drop; [apply Hok|done..].
  - intros u r _ _. by destruct s.
Qed.

Lemma nsq_start_ok t s : intake_ok s -> calls s !! t = Some RequestStart -> intake_ok (start t s).
Proof.
  intros Hok Ht. unfold start. destruct (stopFlag s) eqn:Ef; [by eapply unlock_ok|].
  destruct (startOnce s); [by eapply unlock_ok|].
  eapply (move_ok t RequestCreate s); [done|naive_solver|done| |by destruct s| |by destruct s..|].
  - intros _. destruct (io_open _ Hok Ef) as [H _]. by injection H.
  - destruct s; simpl in *. eapply mutex_keep; [apply Hok|done..].
  - intros u r _ _. by destruct s.
Qed.

Lemma create_ok t err s : intake_ok s -> calls s !! t = Some RequestCreate -> intake_ok (create t err s).
Proof.
  intros Hok Ht. unfold create. destruct (negb _); [by eapply unlock_ok|].
  eapply (move_ok t RequestConnect s); [done|naive_solver|done| |by destruct s| |by destruct s..| |].
  - intros _. destruct (tasks_closed (hand s)) eqn:E; [|done]. by specialize (io_late _ Hok _ _ E Ht).
  - destruct s; simpl in *. eapply mutex_keep; [apply Hok|done..].
  - by destruct s.
  - intros u r Hu Hc (H1 & _ & _). split; [by destruct s|].
    by destruct (starting_first t _ u r s Hok Ht eq_refl Hu Hc) as [-> ->].
Qed.

Lemma on_consumer_fields f s :
  calls (on_consumer f s) = calls s /\ hand (on_consumer f s) = hand s /\ stopFlag (on_consumer f s) = stopFlag s /\
  lifecycleMu (on_consumer f s) = lifecycleMu s /\ progress (on_consumer f s) = progress s /\
  ((forall c, q_stopping c = true -> q_stopping (f c) = true) -> consumer_kept s (on_consumer f s)) /\
  ((forall c, q_exited (f c) = q_exited c) -> ended (on_consumer f s) <-> ended s).
Proof.
  unfold on_consumer, progress, ended, consumer_kept. destruct s as [? ? ? ? ? [c|] ? ? ?]; simpl; split_and!; try done.
  - intros H c' [= <-]. eauto.
  - intros H. by rewrite H.
Qed.

Lemma connect_ok t err s : intake_ok s -> calls s !! t = Some RequestConnect -> intake_ok (connect t err s).
Proof.
  intros Hok Ht. unfold connect. cbv zeta. apply (unlock_ok t RequestConnect); try by destruct (is_nil err).
  - destruct (on_consumer_fields (fun c => c <| q_link := if is_nil err then Linked else Unlinked |>) s)
      as (E1 & E2 & E3 & E4 & E5 & E6 & E7).
    apply (frame_ok s); rewrite ?E2; auto; try apply Hok.
    + apply E7. by intros [].
    + apply E6. by intros [].
    + rewrite E7; [apply Hok|by intros []].
  - by destruct (on_consumer_fields (fun c => c <| q_link := if is_nil err then Linked else Unlinked |>) s) as [-> _].
Qed.

Lemma swap_ok t s : intake_ok s -> calls s !! t = Some ShutdownSwap -> intake_ok (swap t s).
Proof.
  intros Hok Ht. unfold swap. destruct (stopFlag s) eqn:Ef; [by eapply keep_ok|].
  destruct Hok as [Hh Ho Hm Hop _ _ _ Hl Hq]. destruct (Hop Ef) as [Hpr Hnc].
  assert (Hget : forall u r, <[t := ShutdownLock]> (calls s) !! u = Some r -> closing r = true -> u = t /\ r = ShutdownLock).
  { intros u r. rewrite lookup_insert_Some. intros [[<- <-]|[Hne H]] Hr; [done|]. specialize (Hnc _ _ H). congruence. }
  destruct s; simpl in *. split; simpl; try done.
  - by eapply mutex_keep.
  - intros _. exists t, ShutdownLock. by rewrite lookup_insert_eq.
  - intros u u' r r' H1 H2 H3 H4. destruct (Hget _ _ H1 H2), (Hget _ _ H3 H4). congruence.
  - intros u r H1 H2. by destruct (Hget _ _ H1 H2) as [_ ->].
  - intros u r Hcl. rewrite lookup_insert_Some. intros [[<- <-]|[_ H]]; [done|eauto].
Qed.

Lemma lock_ok t p p' s r :
  intake_ok s -> calls s !! t = Some p -> closing p' = closing p -> phase p' = phase p ->
  holding p' = true -> starting p' = false -> finished p' = false -> quitting p' = false ->
  lock t p' s = Some r -> exists s', r = Ret s' /\ intake_ok s'.
Proof.
  intros Hok Ht Hc Hph Hh Hst Hf Hqt. unfold lock. destruct (lifecycleMu s) eqn:Em; [done|]. intros [= <-].
  eexists. split; [done|]. assert (Hm : mutex_ok (Some t) (<[t := p']> (calls s))).
  { apply mutex_take; [rewrite <- Em; apply Hok|done]. }
  destruct (closing p) eqn:Ecl.
  - eapply (advance_ok t p p' s); [done..| | | | | | | |]; try by destruct s; [..].
    all: try by destruct s; apply Hok.
    + destruct (io_phase _ Hok _ _ Ht Ecl) as (H & _ & _). split; [unfold progress in *; destruct s; simpl in *; congruence|].
      by rewrite Hf, Hqt.
    + intros Hcl u r. assert (tasks_closed (hand s) = true) by by destruct s. intros. eapply (io_late _ Hok); done.
  - eapply (move_ok t p' s); [done|naive_solver|done|congruence|by destruct s| |by destruct s..|].
    + by destruct s.
    + intros u r _ _. by destruct s.
Qed.

Lemma stop_ok t s : intake_ok s -> calls s !! t = Some ShutdownStop -> exists s', stop t s = Ret s' /\ intake_ok s'.
Proof.
  intros Hok Ht. destruct (io_phase _ Hok _ _ Ht eq_refl) as (Hpr & _ & _). injection Hpr as H1 H2 H3.
  unfold stop. rewrite H1. destruct (close_stop (hand s)) as [h|] eqn:E.
  2:{ unfold close_stop in E. rewrite (io_once _ Hok), H1 in E. done. }
  eexists. split; [done|]. destruct (close_stop_ok _ _ (io_hand _ Hok) E) as (Hh & Hs & Hcl & Ho).
  set (p' := match q s with Some _ => ShutdownQuit | None => ShutdownProducer end).
  eapply (advance_ok t ShutdownStop p' s); [done|done|done|by unfold p'; destruct (q s)|by destruct s| |by destruct s..| | |].
  - destruct s; simpl in *. eapply mutex_keep; [apply Hok|done|]. unfold p'. by destruct q.
  - unfold phase_ok, p', ended. destruct s as [? ? ? ? ? [c|] ? ? ?]; simpl in *; split_and!; try done;
      try (unfold progress; simpl; congruence). intros _. by exists c.
  - intros Hcl'. destruct s; simpl in *. congruence.
  - intros He n m pc. assert (Hqt : quiet (hand s)) by (apply (io_quiet _ Hok); by destruct s).
    assert (offers h !! n = Some (m, pc) -> running pc = false); [|by destruct s].
    rewrite Ho, lookup_fmap. destruct (offers (hand s) !! n) as [[m' p]|] eqn:En; simpl; [|done].
    specialize (Hqt _ _ _ En). destruct p; try done; simpl; intros [= _ <-]; done.
Qed.

Lemma quit_ok t s : intake_ok s -> calls s !! t = Some ShutdownQuit -> intake_ok (quit t s).
Proof.
  intros Hok Ht. destruct (io_phase _ Hok _ _ Ht eq_refl) as (Hpr & _ & Hq). unfold quit.
  set (f := fun c : consumer => c <| q_stopping := true |>).
  destruct (on_consumer_fields f s) as (E1 & E2 & E3 & E4 & E5 & E6 & E7). specialize (E7 ltac:(by intros [])).
  assert (Hf : intake_ok (on_consumer f s)).
  { apply (frame_ok s); rewrite ?E2; auto; try apply Hok; [apply E7|apply E6; by intros []|]. intros H%E7. by apply Hok. }
  eapply (advance_ok t ShutdownQuit ShutdownWait (on_consumer f s)); [done|by rewrite E1|done|done| | | | | | | |].
  all: destruct (on_consumer f s) as [? ? ? ? ? q' ? ? ?] eqn:Eon; simpl in *; try done; try apply Hf.
  - subst. eapply mutex_keep; [apply Hf|done|done].
  - split_and!; try done; [exact (eq_trans E5 Hpr)|]. intros _. destruct (Hq eq_refl) as (c & Hc & _).
    exists (f c). split; [|by destruct c]. unfold on_consumer in Eon. rewrite Hc in Eon. apply (f_equal q) in Eon. by destruct s.
  - intros Hcl u r Hr. eapply (io_late _ Hf); [exact Hcl|exact Hr].
Qed.

Lemma wait_ok t s s' : intake_ok s -> calls s !! t = Some ShutdownWait -> wait t s = Some s' -> intake_ok s'.
Proof.
  intros Hok Ht. destruct (io_phase _ Hok _ _ Ht eq_refl) as (Hpr & _ & _). unfold wait.
  destruct (q s) as [c|] eqn:Eq; [|done]. destruct (q_exited c) eqn:Ee; [|done]. intros [= <-].
  assert (He : ended s) by (unfold ended; by rewrite Eq).
  eapply (advance_ok t ShutdownWait ShutdownProducer s); [done..| | | | | | | |]; destruct s; simpl in *; try done; try apply Hok.
  - eapply mutex_keep; [apply Hok|done..].
  - intros Hcl u r Hr. by eapply (io_late _ Hok).
Qed.

Lemma producer_ok t s :
  intake_ok s -> calls s !! t = Some ShutdownProducer ->
  intake_ok (with_call t ShutdownTasks (s <| @producer_stops W := S (producer_stops s) |>)).
Proof.
  intros Hok Ht. destruct (io_phase _ Hok _ _ Ht eq_refl) as (Hpr & He & _).
  eapply (advance_ok t ShutdownProducer ShutdownTasks s); [done..| | | | | | | |]; destruct s; simpl in *; try done; try apply Hok.
  - eapply mutex_keep; [apply Hok|done..].
  - split_and!; try done. unfold progress in *. simpl in *. congruence.
  - intros Hcl u r Hr. by eapply (io_late _ Hok).
Qed.

Lemma nsq_close_ok t s : intake_ok s -> calls s !! t = Some ShutdownTasks -> exists s', close t s = Ret s' /\ intake_ok s'.
Proof.
  intros Hok Ht. destruct (io_phase _ Hok _ _ Ht eq_refl) as (Hpr & He & _). injection Hpr as H1 H2 H3.
  assert (Hs : stopped (hand s) = true) by by rewrite (io_once _ Hok).
  unfold close. rewrite (close_tasks_ok _ (io_hand _ Hok) Hs H3). eexists. split; [done|].
  assert (Hst : forall u r, calls s !! u = Some r -> starting r = false).
  { intros u r Hu. destruct (starting r) eqn:E; [|done].
    by destruct (starting_first u r t _ s Hok Hu E Ht eq_refl). }
  pose proof (io_quiet _ Hok (He eq_refl)) as Hq.
  eapply (advance_ok t ShutdownTasks (ShutdownDone ErrNil) s); [done..| | | | | | | |]; destruct s; simpl in *; try done; try apply Hok.
  - eapply mutex_drop; [apply Hok|done..].
  - split; [|done]. intros _. simpl. apply (ho_parked _ (io_hand _ Hok)). done.
  - split_and!; try done. unfold progress. simpl. congruence.
Qed.

(** The handler of a message moves on, and the client with it. *)
Lemma handler_ok n m p p' w s :
  intake_ok s -> offers (hand s) !! n = Some (m, p) -> running p = true -> (p' = Parked -> stopped (hand s) = false) ->
  intake_ok (s <| @hand W := set_offer n m p' (hand s) |> <| @client W := w |>).
Proof.
  intros Hok Hn Hr Hp. assert (~ ended s) as He.
  { intros He. specialize (io_quiet _ Hok He _ _ _ Hn). congruence. }
  apply (frame_ok s); destruct s; simpl in *; try done; try (by intros c Hc; exists c). apply set_offer_ok; [apply Hok|done].
Qed.

Lemma client_ok w s : intake_ok s -> intake_ok (s <| @client W := w |>).
Proof. intros Hok. apply (frame_ok s); destruct s; simpl in *; try done; try (by intros c Hc; exists c); apply Hok. Qed.

Lemma offer_ok n m p h w s :
  intake_ok s -> ~ ended s -> p <> Parked -> offer_new n m p (hand s) = Some h ->
  intake_ok (s <| @hand W := h |> <| @client W := w |>).
Proof.
  intros Hok He Hp. unfold offer_new. destruct (offers (hand s) !! n); [done|]. intros [= <-].
  apply (frame_ok s); destruct s; simpl in *; try done; try (by intros c Hc; exists c). apply set_offer_ok; [apply Hok|done].
Qed.

Context `{NC : !nsqClient W, EJ : !EnvelopeJSON}.
Context (order : list (string * string) -> list (string * string)) (unmarshal : string -> error + Message).
Context (worker : Worker).

Lemma hand_only h s :
  intake_ok (s <| @hand W := h |> <| @client W := client s |>) -> intake_ok (s <| @hand W := h |>).
Proof. by destruct s. Qed.

Lemma nsq_deliver_ok n m s r : intake_ok s -> deliver n m s = Some r -> exists s', r = Ret s' /\ intake_ok s'.
Proof.
  intros Hok. unfold deliver. destruct (q s) as [c|] eqn:Eq; [|done]. destruct (q_exited c) eqn:Ex; [done|].
  assert (~ ended s) as He by (unfold ended; rewrite Eq; congruence).
  destruct (q_link c); [..|done].
  all: destruct (len (N_Body m) =? 0)%Z; (destruct (offer_new _ _ _ _) as [h|] eqn:E; [|done]);
    returned.
  all: try apply hand_only; eapply offer_ok; [exact Hok|exact He| |exact E]; discriminate.
Qed.

Lemma select_ok n choice s r : intake_ok s -> select n choice s = Some r -> exists s', r = Ret s' /\ intake_ok s'.
Proof.
  intros Hok. unfold select, offer_select. destruct (offers (hand s) !! n) as [[m []]|] eqn:En; try done.
  assert (~ ended s) as He.
  { intros He. by specialize (io_quiet _ Hok He _ _ _ En). }
  assert (tasks_closed (hand s) = false) as Hcl.
  { destruct (tasks_closed (hand s)) eqn:E; [|done]. destruct He.
    destruct (stopFlag s) eqn:Ef.
    - destruct (io_closing _ Hok Ef) as (t & p & Ht & Hc). destruct (io_phase _ Hok _ _ Ht Hc) as (Hpr & He & _).
      apply He. apply (f_equal snd) in Hpr. simpl in Hpr. rewrite E in Hpr. by destruct p.
    - destruct (io_open _ Hok Ef) as [Hpr _]. injection Hpr as _ _ H. congruence. }
  rewrite Hcl, orb_false_r. destruct choice.
  - destruct (stopped (hand s)) eqn:Es; [done|]. returned.
    apply hand_only. by eapply handler_ok.
  - destruct (stopped (hand s)) eqn:Es; [|done]. returned.
    apply hand_only. by eapply handler_ok.
  - done.
Qed.

Lemma touch_ok n s r : intake_ok s -> touch n s = Some r -> exists s', r = Ret s' /\ intake_ok s'.
Proof.
  intros Hok. unfold touch, offer_tick. destruct (offers (hand s) !! n) as [[m []]|] eqn:En; try done.
  returned. by eapply handler_ok.
Qed.

Lemma withdraw_ok n s r : intake_ok s -> withdraw n s = Some r -> exists s', r = Ret s' /\ intake_ok s'.
Proof.
  intros Hok. unfold withdraw, offer_end. destruct (offers (hand s) !! n) as [[m []]|] eqn:En; try done.
  returned. by eapply handler_ok.
Qed.

Lemma undecided_running p : undecided p = true -> running p = true.
Proof. by destruct p. Qed.

Lemma take_ok t n s r : intake_ok s -> take t n s = Some r -> exists s', r = Ret s' /\ intake_ok s'.
Proof.
  intros Hok. unfold take, offer_take. destruct (calls s !! t) as [[]|] eqn:Et; try done.
  destruct (offers (hand s) !! n) as [[m p]|] eqn:En; [|done]. destruct (undecided p) eqn:Eu; [|done].
  destruct (negb _); [|done]. returned.
  apply (keep_ok t RequestSelect); try done; [|by destruct s].
  apply hand_only. by eapply handler_ok; [..|apply undecided_running|].
Qed.

Lemma exit_ok s r : intake_ok s -> exit s = Some r -> exists s', r = Ret s' /\ intake_ok s'.
Proof.
  intros Hok. unfold exit. destruct (q s) as [c|] eqn:Eq; [|done]. destruct (_ && _) eqn:E; [|done].
  returned. apply andb_true_iff in E as [_ Hq%negb_true_iff].
  apply (frame_ok s); destruct s, c; simpl in *; try done; try (by intros c Hc; simplify_eq/=; eauto); try apply Hok.
  intros _ n m p Hn. destruct (running p) eqn:Hr; [|done].
  assert (existsb (fun kv => handler_runs kv.2) (map_to_list (offers hand)) = true) as H; [|congruence].
  apply existsb_exists. exists (n, (m, p)). split; [by apply list_elem_of_In, elem_of_map_to_list|done].
Qed.

Lemma nsq_call_ok t answer now p s r :
  intake_ok s -> calls s !! t = Some p -> call_step order unmarshal worker t answer now p s = Some r ->
  exists s', r = Ret s' /\ intake_ok s'.
Proof.
  intros Hok Ht. destruct p; simpl; try done.
  - by eapply lock_ok.
  - intros [= <-]. eauto using nsq_start_ok.
  - intros [= <-]. eauto using create_ok.
  - intros [= <-]. eauto using connect_ok.
  - destruct (tasks_closed _); [|done]. returned. by eapply keep_ok.
  - unfold receive. destruct (offers (hand s) !! n) as [[m ?]|]; [|done].
    destruct (Request_received _ _ _ _ _ _) as [res w]. returned.
    apply (keep_ok t (RequestGot n)); try done; [by apply client_ok|by destruct s].
  - intros [= <-]. eauto using swap_ok.
  - by eapply lock_ok.
  - intros [= <-]. by apply stop_ok.
  - intros [= <-]. eauto using quit_ok.
  - destruct (wait t s) as [s'|] eqn:E; [|done]. intros [= <-]. eauto using wait_ok.
  - intros [= <-]. eauto using producer_ok.
  - intros [= <-]. by apply nsq_close_ok.
  - destruct (lifecycleMu s); [done|]. returned. by eapply keep_ok.
Qed.

Lemma nsq_step_ok e s r : intake_ok s -> step order unmarshal worker e s = Some r -> exists s', r = Ret s' /\ intake_ok s'.
Proof.
  intros Hok. destruct e; simpl.
  - by apply nsq_enter_ok.
  - by apply nsq_enter_ok.
  - by apply nsq_enter_ok.
  - returned. by apply client_ok.
  - unfold settle. destruct (calls s !! t) as [[| | | | | |[?|[i ?]]| | | | | | | | | |]|]; try done.
    destruct (offers (hand s) !! i) as [[msg ?]|]; [|done]. returned. by apply client_ok.
  - destruct (calls s !! t) as [p|] eqn:Et; [|done]. by apply nsq_call_ok.
  - destruct (calls s !! t) as [[]|] eqn:Et; try done. returned. by eapply keep_ok.
  - by apply nsq_deliver_ok.
  - by apply select_ok.
  - by apply touch_ok.
  - by apply withdraw_ok.
  - by apply take_ok.
  - by apply exit_ok.
Qed.

Lemma nsq_run_ok es s r : intake_ok s -> run order unmarshal worker es s = Some r -> exists s', r = Ret s' /\ intake_ok s'.
Proof.
  revert s. induction es as [|e es IH]; intros s Hok; simpl; [intros [= <-]; eauto|].
  destruct (step _ _ _ e s) as [r'|] eqn:E; [|done].
  destruct (nsq_step_ok e s r' Hok E) as (s' & -> & Hok'). by apply IH.
Qed.
End safety.
