(* ===== verification/NsqDelivery.v ===== *)
(** What becomes of the messages that the NSQ worker is given, and the theorems on the runs
    of its intake. *)

From S2P Require Import Prelude GoStd Sentinels Contract Failure Job Status Records Stream ValkeyOptions Execution Nsq NsqSafety Handoff NsqWorker NsqWorkerSafety.

Section delivery.
Context {W : Type} `{NC : !nsqClient W, NB : !NsqBroker W, EJ : !EnvelopeJSON}.
Context (order : list (string * string) -> list (string * string)) (unmarshal : string -> error + Message).
Context (worker : Worker).
Implicit Types s : intake W.

#[local] Opaque ResolveFailure.

(** * What the broker knows *)

(** Nothing that was taken or answered is forgotten. *)
Definition grows (w w' : W) : Prop :=
  (forall x, x ∈ responses w -> x ∈ responses w') /\ (forall x, x ∈ published w -> x ∈ published w').

(** The message was requeued, or finished after a publication on the dead-letter topic. *)
Definition answered (w : W) (m : NsqMessage) : Prop :=
  (m, REQ) ∈ responses w \/
  ((m, FIN) ∈ responses w /\ exists body, (deadLetterTopic (opts worker), body) ∈ published w).

Lemma grows_refl w : grows w w.
Proof. by split. Qed.

Lemma grows_append w w' r p : responses w' = responses w ++ r -> published w' = published w ++ p -> grows w w'.
Proof. intros Hr Hp. split; intros x; rewrite ?Hr, ?Hp, elem_of_app; auto. Qed.

Lemma grows_answered w w' m : grows w w' -> answered w m -> answered w' m.
Proof. intros [H1 H2] [H|(H & body & Hb)]; [left|right]; eauto. Qed.

Lemma publish_grows t b w : grows w (Publish t b w).2.
Proof.
  destruct (Publish t b w) as [e w'] eqn:E. destruct (Publish_law _ _ _ _ _ E) as (Hr & [Hp|Hp] & _).
  - apply (grows_append w w' [] []); by rewrite app_nil_r.
  - by apply (grows_append w w' [] [(t, b)]); rewrite ?app_nil_r.
Qed.

Lemma finish_grows m w : grows w (Finish m w).2.
Proof.
  destruct (Finish m w) as [[] w'] eqn:E. apply Finish_law in E as [Hp Hr].
  eapply (grows_append w w' [_] []); by rewrite ?app_nil_r.
Qed.

Lemma settle_ack_grows m w : grows w (settle_ack m w).2.
Proof.
  pose proof (finish_grows m w) as Hg. destruct (settle_ack m w) as [r w'] eqn:E. unfold settle_ack in E.
  apply io_bind_inv in E as ([] & w1 & E & [= <- <-]). by rewrite E in Hg.
Qed.

Lemma touch_grows m w : grows w (Touch m w).2.
Proof.
  destruct (Touch m w) as [[] w'] eqn:E. apply Touch_law in E as [Hp Hr].
  eapply (grows_append w w' [_] []); by rewrite ?app_nil_r.
Qed.

Lemma requeue_grows m w : grows w (Requeue m w).2 /\ (m, REQ) ∈ responses (Requeue m w).2.
Proof.
  destruct (Requeue m w) as [[] w'] eqn:E. apply Requeue_law in E as [Hp Hr]. simpl.
  split; [eapply (grows_append w w' [_] []); by rewrite ?app_nil_r|].
  rewrite Hr, elem_of_app. right. by apply list_elem_of_singleton.
Qed.

Lemma requeue_answers m e w : grows w (requeue m e w).2 /\ answered (requeue m e w).2 m.
Proof.
  destruct (requeue m e w) as [r w'] eqn:E. unfold requeue in E. apply io_bind_inv in E as ([] & w1 & E & [= <- <-]).
  destruct (requeue_grows m w) as [H1 H2]. rewrite E in H1, H2. split; [done|]. by left.
Qed.

Lemma settle_fail_answers m err now w :
  grows w (settle_fail order unmarshal worker m err now w).2 /\
  answered (settle_fail order unmarshal worker m err now w).2 m.
Proof.
  unfold settle_fail, settleNSQFailure. destruct (is_nil err); [apply requeue_answers|]. cbv zeta.
  destruct (_ || _); [apply requeue_answers|]. destruct (_ && _); [apply requeue_answers|].
  unfold deadLetter. destruct (encodeNSQDeadLetter _ _ _ _ _ _ _ _) as [e|body]; [apply requeue_answers|].
  destruct (negb _); [apply requeue_answers|].
  match goal with |- grows w (?x w).2 /\ _ => destruct (x w) as [r w'] eqn:E end. apply io_bind_inv in E as (e & w1 & E1 & E2).
  pose proof (publish_grows (deadLetterTopic (opts worker)) body w) as Hg. rewrite E1 in Hg.
  destruct (Publish_law _ _ _ _ _ E1) as (_ & _ & Hok). simpl in *.
  destruct (is_nil e) eqn:En; simpl in E2.
  - apply io_bind_inv in E2 as ([] & w2 & E2 & [= <- <-]). pose proof (finish_grows m w1) as Hf. rewrite E2 in Hf.
    apply Finish_law in E2 as [Hp Hr]. simpl in Hf. split.
    + destruct Hg, Hf. split; auto.
    + right. rewrite Hr, Hp, (Hok (proj1 (is_nil_iff e) En)). split; [|exists body]; rewrite elem_of_app; right;
        by apply list_elem_of_singleton.
  - pose proof (requeue_answers m (unavailable e) w1) as [H1 H2]. rewrite E2 in H1, H2. simpl in *.
    split; [|done]. destruct Hg, H1. split; auto.
Qed.

Lemma received_answers m now w r w' :
  Request_received order unmarshal worker m now w = (r, w') ->
  grows w w' /\ (forall err, r = inl err -> answered w' m).
Proof.
  unfold Request_received. destruct (DecodeE _ _ _ _) as [e|data].
  - cbv zeta. intros (se & w1 & E & [= <- <-])%io_bind_inv.
    pose proof (settle_fail_answers m (NewFailure ClassificationMalformed "malformed_delivery" e) now w) as [H1 H2].
    unfold settle_fail in H1, H2. rewrite E in H1, H2. split; [done|]. by intros _ _.
  - intros [= <- <-]. split; [apply grows_refl|done].
Qed.

(** * The messages *)

(** The call has received a message or returned. *)
Definition owner (p : call_pc) : bool :=
  match p with RequestGot _ | RequestDone _ => true | _ => false end.

(** The message that a call is about to return or has returned. *)
Definition carried (p : call_pc) : option nat :=
  match p with RequestGot n | RequestDone (inr (n, _)) => Some n | _ => None end.

Record work_ok s : Prop := {
  wo_custody : custody carried owner (answered (client s)) (hand s) (calls s);
  wo_withdrawn n m : offers (hand s) !! n = Some (m, Withdrawn) -> (m, REQ) ∈ responses (client s);
  wo_discarded n m : offers (hand s) !! n = Some (m, Discarded) -> len (N_Body m) = 0%Z
}.

Lemma initial_work (w : W) : work_ok (initial w).
Proof. split; [apply custody_empty|done..]. Qed.

(** A call that has no message moves on. *)
Lemma call_work t p' s s' :
  work_ok s -> (forall p, calls s !! t = Some p -> owner p = false) -> carried p' = None ->
  calls s' = <[t := p']> (calls s) -> hand s' = hand s -> client s' = client s -> work_ok s'.
Proof. intros [H1 H2 H3] Ho Hc Ec Eh Ew. split; rewrite ?Ec, ?Eh, ?Ew; auto using custody_call. Qed.

(** A change of the client alone. *)
Lemma client_work w s : work_ok s -> grows (client s) w -> work_ok (s <| @client W := w |>).
Proof.
  intros [H1 H2 H3] Hg. destruct s; simpl in *. split; simpl; [|intros; apply Hg; eauto|eauto].
  eapply custody_mono; [done|]. intros m. by apply grows_answered.
Qed.

(** A handler moves to a place that is not [Taken]. *)
Lemma handler_work n m p w s :
  work_ok s -> (forall t m', offers (hand s) !! n <> Some (m', Taken t)) -> (forall t, p <> Taken t) ->
  grows (client s) w -> (p = Withdrawn -> (m, REQ) ∈ responses w) -> (p = Discarded -> len (N_Body m) = 0%Z) ->
  work_ok (s <| @hand W := set_offer n m p (hand s) |> <| @client W := w |>).
Proof.
  intros [H1 H2 H3] Hn Hp Hg Hw Hd. destruct s; simpl in *. split; simpl.
  - apply custody_handler; [|done..]. eapply custody_mono; [done|]. intros m'. by apply grows_answered.
  - intros i j. rewrite lookup_insert_Some. intros [[<- [= <- ->]]|[_ Hi]]; [auto|]. apply Hg. eauto.
  - intros i j. rewrite lookup_insert_Some. intros [[<- [= <- ->]]|[_ Hi]]; eauto.
Qed.

(** The stop channel is closed. *)
Lemma stop_work h s : work_ok s -> close_stop (hand s) = Ret h -> work_ok (s <| @hand W := h |>).
Proof.
  intros [H1 H2 H3] E. pose proof (custody_stop _ _ _ _ _ _ H1 E) as H1'. unfold close_stop in E.
  destruct (stopped (hand s)); [done|]. injection E as <-. destruct s; simpl in *. split; simpl; [done|..].
  - intros n m Hn. eapply H2, wake_parked_back; done.
  - intros n m Hn. eapply H3, wake_parked_back; done.
Qed.

(** Tasks are closed. *)
Lemma closed_work h s : work_ok s -> close_tasks (hand s) = Ret h -> work_ok (s <| @hand W := h |>).
Proof.
  intros [H1 H2 H3] E. pose proof (custody_closed _ _ _ _ _ _ H1 E) as H1'. unfold close_tasks in E.
  destruct (tasks_closed _); [done|]. destruct (existsb _ _); [done|]. injection E as <-. destruct s; simpl in *. by split.
Qed.

Lemma take_work t n s s' : work_ok s -> take t n s = Some (Ret s') -> work_ok s'.
Proof.
  intros [H1 H2 H3]. unfold take. destruct (calls s !! t) as [[]|] eqn:Et; try done.
  destruct (offer_take t n (hand s)) as [h|] eqn:E; [|done]. intros [= <-].
  pose proof (custody_take _ _ _ _ _ _ _ n _ (RequestGot n) H1 Et eq_refl eq_refl eq_refl E) as H1'.
  unfold offer_take in E. destruct (offers (hand s) !! n) as [[m p]|]; [|done]. destruct (_ && _); [|done].
  injection E as <-. destruct s; simpl in *. split; simpl; [done|..].
  - intros i j. rewrite lookup_insert_Some. intros [[_ ?]|[_ Hi]]; [done|eauto].
  - intros i j. rewrite lookup_insert_Some. intros [[_ ?]|[_ Hi]]; [done|eauto].
Qed.

Lemma receive_work t n now s s' :
  work_ok s -> calls s !! t = Some (RequestGot n) -> receive order unmarshal worker t n now s = Some (Ret s') -> work_ok s'.
Proof.
  intros [H1 H2 H3] Ht. unfold receive. destruct (cu_carried _ _ _ _ _ H1 _ _ n Ht eq_refl) as (m & Hm). rewrite Hm.
  destruct (Request_received _ _ _ _ _ _) as [r w] eqn:E. destruct (received_answers _ _ _ _ _ E) as [Hg Ha].
  intros [= <-]. destruct s; simpl in *. split; simpl; [|intros; apply Hg; eauto|eauto].
  eapply custody_return; [|exact Ht|done|exact Hm|done|].
  - eapply custody_mono; [done|]. intros m'. by apply grows_answered.
  - destruct r as [e|data]; simpl; [right; eauto|by left].
Qed.

(** The calls that have no message. *)
Ltac idle_call :=
  match goal with
  | Hok : work_ok ?s, Ht : calls ?s !! ?t = Some _ |- work_ok ?s' =>
      eapply (call_work t _ s);
      [exact Hok|intros ? E0; rewrite Ht in E0; by injection E0 as <-| |by destruct s|by destruct s|by destruct s];
      try done
  end.

Lemma on_consumer_work f s : work_ok s -> work_ok (on_consumer f s).
Proof.
  intros [H1 H2 H3]. unfold on_consumer. destruct s as [? ? ? ? ? [c|] ? ? ?]; simpl in *; by split.
Qed.

Lemma call_step_work t answer now p s s' :
  work_ok s -> calls s !! t = Some p -> call_step order unmarshal worker t answer now p s = Some (Ret s') -> work_ok s'.
Proof.
  intros Hok Ht. destruct p; simpl; try done.
  - unfold lock. destruct (lifecycleMu s); [done|]. intros [= <-]. idle_call.
  - intros [= <-]. unfold start, unlock. destruct (stopFlag s); [idle_call|]. destruct (startOnce s); idle_call.
  - intros [= <-]. unfold create, unlock. destruct (negb _); idle_call.
  - intros [= <-]. unfold connect, unlock.
    set (f := fun c : consumer => c <| q_link := if is_nil answer then Linked else Unlinked |>).
    pose proof (on_consumer_work f s Hok) as Hok'. destruct (on_consumer_fields f s) as (E & _). rewrite <- E in Ht.
    destruct (is_nil answer); idle_call.
  - destruct (tasks_closed _); [|done]. intros [= <-]. idle_call.
  - by apply receive_work.
  - intros [= <-]. unfold swap. destruct (stopFlag s); idle_call.
  - unfold lock. destruct (lifecycleMu s); [done|]. intros [= <-]. idle_call.
  - unfold stop, unlock. destruct (stopOnce s); [intros [= <-]; idle_call|].
    destruct (close_stop (hand s)) as [h|] eqn:E; [|done]. intros [= <-].
    pose proof (stop_work h s Hok E) as Hok'. eapply (call_work t _ (s <| @hand W := h |>)); [done| | | | |].
    + intros p Hp. replace (calls (s <| @hand W := h |>)) with (calls s) in Hp by by destruct s.
      rewrite Ht in Hp. by injection Hp as <-.
    + by instantiate (1 := match q s with Some _ => ShutdownQuit | None => ShutdownProducer end); destruct (q s).
    + by destruct s.
    + by destruct s.
    + by destruct s.
  - intros [= <-]. unfold quit. set (f := fun c : consumer => c <| q_stopping := true |>).
    pose proof (on_consumer_work f s Hok) as Hok'. destruct (on_consumer_fields f s) as (E & _). rewrite <- E in Ht. idle_call.
  - unfold wait. destruct (q s) as [c|]; [|done]. destruct (q_exited c); [|done]. intros [= <-]. idle_call.
  - intros [= <-]. idle_call.
  - unfold close, unlock. destruct (close_tasks (hand s)) as [h|] eqn:E; [|done]. intros [= <-].
    pose proof (closed_work h s Hok E) as Hok'. eapply (call_work t _ (s <| @hand W := h |>)); [done| | | | |].
    + intros p Hp. replace (calls (s <| @hand W := h |>)) with (calls s) in Hp by by destruct s.
      rewrite Ht in Hp. by injection Hp as <-.
    + by instantiate (1 := ShutdownDone ErrNil).
    + by destruct s.
    + by destruct s.
    + by destruct s.
  - destruct (lifecycleMu s); [done|]. intros [= <-]. idle_call.
Qed.

Lemma returned_inj (a b : intake W) : Some (Ret a) = Some (Ret b) -> a = b.
Proof. by intros [= ->]. Qed.

Lemma handler_work_only n m p s :
  work_ok s -> (forall t m', offers (hand s) !! n <> Some (m', Taken t)) -> (forall t, p <> Taken t) ->
  (p = Withdrawn -> (m, REQ) ∈ responses (client s)) -> (p = Discarded -> len (N_Body m) = 0%Z) ->
  work_ok (s <| @hand W := set_offer n m p (hand s) |>).
Proof.
  intros Hok Hn Hp Hw Hd. pose proof (handler_work n m p (client s) s Hok Hn Hp (grows_refl _) Hw Hd) as H. by destruct s.
Qed.

Lemma step_work e s s' : work_ok s -> step order unmarshal worker e s = Some (Ret s') -> work_ok s'.
Proof.
  intros Hok. assert (Hnew : forall t p, calls s !! t = None -> carried p = None -> work_ok (with_call t p s)).
  { intros t p Ht Hc. eapply (call_work t p s); [done|congruence|done|by destruct s..]. }
  destruct e; cbn [step].
  - unfold enter. destruct (calls s !! t) eqn:E; [done|]. intros [= <-]. by apply Hnew.
  - unfold enter. destruct (calls s !! t) eqn:E; [done|]. intros [= <-]. by apply Hnew.
  - unfold enter. destruct (calls s !! t) eqn:E; [done|]. intros [= <-]. by apply Hnew.
  - intros H%returned_inj. subst s'. apply client_work; [done|]. unfold Queue. destruct (stopFlag s); [apply grows_refl|apply publish_grows].
  - unfold settle. destruct (calls s !! t) as [[| | | | | |[?|[i ?]]| | | | | | | | | |]|]; try done.
    destruct (offers (hand s) !! i) as [[msg ?]|]; [|done].
    intros H%returned_inj. subst s'. apply client_work; [done|]. destruct v as [|err]; [|apply settle_fail_answers].
    apply settle_ack_grows.
  - destruct (calls s !! t) as [p|] eqn:Et; [|done]. by apply call_step_work.
  - destruct (calls s !! t) as [[]|] eqn:Et; try done. intros [= <-]. idle_call.
  - unfold deliver. destruct (q s) as [c|]; [|done]. destruct (q_exited c); [done|].
    destruct (q_link c); [..|done].
    all: destruct (Z.eqb_spec (len (N_Body m)) 0); unfold offer_new; (destruct (offers (hand s) !! n) eqn:En; [done|]);
      intros H%returned_inj; subst s';
      first [apply handler_work|apply handler_work_only]; try done; try apply finish_grows; intros; congruence.
  - unfold select, offer_select. destruct (offers (hand s) !! n) as [[m []]|] eqn:En; try done.
    destruct choice; (destruct (_ : bool); [|]); try done; intros H%returned_inj; subst s';
      apply handler_work_only; try done; intros; congruence.
  - unfold touch, offer_tick. destruct (offers (hand s) !! n) as [[m []]|] eqn:En; try done.
    intros H%returned_inj; subst s'. apply handler_work; try done; try apply touch_grows; intros; congruence.
  - unfold withdraw, offer_end. destruct (offers (hand s) !! n) as [[m []]|] eqn:En; try done.
    intros H%returned_inj; subst s'. apply handler_work; try done; intros; first [apply requeue_grows|congruence].
  - by apply take_work.
  - unfold exit. destruct (q s) as [c|]; [|done]. destruct (_ && _); [|done]. intros [= <-].
    destruct Hok. destruct s; by split.
Qed.

Lemma run_work es s s' : work_ok s -> run order unmarshal worker es s = Some (Ret s') -> work_ok s'.
Proof.
  revert s. induction es as [|e es IH]; intros s Hok; simpl; [by intros [= <-]|].
  destruct (step _ _ _ e s) as [[s1|]|] eqn:E; try done. apply IH. by eapply step_work.
Qed.

(** * Decisions are final *)

Lemma take_mono t n h h' : offer_take t n h = Some h' -> handoff_mono (M := NsqMessage) h h'.
Proof.
  unfold offer_take. destruct (offers h !! n) as [[m p]|] eqn:E; [|done]. destruct (undecided p) eqn:Eu; [|done].
  destruct (negb _); [|done]. intros [= <-]. eapply set_offer_mono; [done|by apply undecided_running].
Qed.

Lemma on_consumer_hand f s : hand (on_consumer f s) = hand s.
Proof. by apply on_consumer_fields. Qed.

Lemma call_step_mono t answer now p s s' :
  call_step order unmarshal worker t answer now p s = Some (Ret s') -> handoff_mono (hand s) (hand s').
Proof.
  assert (Hsame : forall x : intake W, hand x = hand s -> handoff_mono (hand s) (hand x)).
  { intros x ->. apply handoff_mono_refl. }
  destruct p; cbn [call_step]; try done.
  - unfold lock. destruct (lifecycleMu s); [done|]. intros [= <-]. apply Hsame. by destruct s.
  - intros [= <-]. apply Hsame. unfold start. destruct (stopFlag s); [by destruct s|]. destruct (startOnce s); by destruct s.
  - intros [= <-]. apply Hsame. unfold create. destruct (negb _); by destruct s.
  - intros [= <-]. apply Hsame. unfold connect. cbv zeta.
    rewrite <- (on_consumer_hand (fun c => c <| q_link := if is_nil answer then Linked else Unlinked |>) s).
    by destruct (on_consumer _ s).
  - destruct (tasks_closed _); [|done]. intros [= <-]. apply Hsame. by destruct s.
  - unfold receive. destruct (offers (hand s) !! n) as [[m ?]|]; [|done].
    destruct (Request_received _ _ _ _ _ _) as [r w]. intros [= <-]. apply Hsame. by destruct s.
  - intros [= <-]. apply Hsame. unfold swap. destruct (stopFlag s); by destruct s.
  - unfold lock. destruct (lifecycleMu s); [done|]. intros [= <-]. apply Hsame. by destruct s.
  - unfold stop. destruct (stopOnce s); [intros [= <-]; apply Hsame; by destruct s|].
    destruct (close_stop (hand s)) as [h|] eqn:E; [|done]. intros [= <-]. apply close_stop_mono in E. by destruct s.
  - intros [= <-]. apply Hsame. unfold quit. rewrite <- (on_consumer_hand (fun c => c <| q_stopping := true |>) s).
    by destruct (on_consumer _ s).
  - unfold wait. destruct (q s) as [c|]; [|done]. destruct (q_exited c); [|done]. intros [= <-]. apply Hsame. by destruct s.
  - intros [= <-]. apply Hsame. by destruct s.
  - unfold close, close_tasks. destruct (tasks_closed _); [done|]. destruct (existsb _ _); [done|]. intros [= <-].
    destruct s; simpl. split_and!; [done|done|]. intros n m p Hn. by exists p.
  - destruct (lifecycleMu s); [done|]. intros [= <-]. apply Hsame. by destruct s.
Qed.

Lemma step_mono e s s' : step order unmarshal worker e s = Some (Ret s') -> handoff_mono (hand s) (hand s').
Proof.
  assert (Hsame : forall x : intake W, hand x = hand s -> handoff_mono (hand s) (hand x)).
  { intros x ->. apply handoff_mono_refl. }
  assert (Hhand : forall h (x : intake W), handoff_mono (hand s) h -> hand x = h -> handoff_mono (hand s) (hand x)) by by intros h x ? ->.
  destruct e; cbn [step].
  - unfold enter. destruct (calls s !! t); [done|]. intros [= <-]. apply Hsame. by destruct s.
  - unfold enter. destruct (calls s !! t); [done|]. intros [= <-]. apply Hsame. by destruct s.
  - unfold enter. destruct (calls s !! t); [done|]. intros [= <-]. apply Hsame. by destruct s.
  - intros [= <-]. apply Hsame. by destruct s.
  - unfold settle. destruct (calls s !! t) as [[| | | | | |[?|[i ?]]| | | | | | | | | |]|]; try done.
    destruct (offers (hand s) !! i) as [[msg ?]|]; [|done]. intros [= <-]. apply Hsame. by destruct s.
  - destruct (calls s !! t) as [p|]; [|done]. apply call_step_mono.
  - destruct (calls s !! t) as [[]|]; try done. intros [= <-]. apply Hsame. by destruct s.
  - unfold deliver. destruct (q s) as [c|]; [|done]. destruct (q_exited c); [done|]. destruct (q_link c); [..|done].
    all: destruct (len (N_Body m) =? 0)%Z; (destruct (offer_new _ _ _ _) as [h|] eqn:E; [|done]); intros [= <-];
      (apply (Hhand h); [by eapply offer_new_mono|by destruct s]).
  - unfold select, offer_select. destruct (offers (hand s) !! n) as [[m []]|] eqn:En; try done.
    destruct choice; (destruct (_ : bool); [|]); try done; intros [= <-];
      (eapply Hhand; [by eapply set_offer_mono|by destruct s]).
  - unfold touch, offer_tick. destruct (offers (hand s) !! n) as [[m []]|] eqn:En; try done.
    intros [= <-]. eapply Hhand; [by eapply set_offer_mono|by destruct s].
  - unfold withdraw, offer_end. destruct (offers (hand s) !! n) as [[m []]|] eqn:En; try done.
    intros [= <-]. eapply Hhand; [by eapply set_offer_mono|by destruct s].
  - unfold take. destruct (calls s !! t) as [[]|]; try done. destruct (offer_take t n (hand s)) as [h|] eqn:E; [|done].
    intros [= <-]. apply (Hhand h); [by eapply take_mono|by destruct s].
  - unfold exit. destruct (q s) as [c|]; [|done]. destruct (_ && _); [|done]. intros [= <-]. apply Hsame. by destruct s.
Qed.

Lemma run_mono es s s' : run order unmarshal worker es s = Some (Ret s') -> handoff_mono (hand s) (hand s').
Proof.
  revert s. induction es as [|e es IH]; intros s; simpl; [intros [= <-]; apply handoff_mono_refl|].
  destruct (step _ _ _ e s) as [[s1|]|] eqn:E; try done. intros H.
  eapply handoff_mono_trans; [by eapply step_mono|by apply IH].
Qed.

(** * Theorems *)

Lemma stops_bounded s : intake_ok s -> (producer_stops s <= 1)%nat.
Proof.
  intros Hok. destruct (stopFlag s) eqn:Ef.
  - destruct (io_closing _ Hok Ef) as (t & p & Ht & Hc). destruct (io_phase _ Hok _ _ Ht Hc) as (Hpr & _ & _).
    unfold progress in Hpr. destruct p; simplify_eq/=; lia.
  - destruct (io_open _ Hok Ef) as [Hpr _]. unfold progress in Hpr. simplify_eq. lia.
Qed.

(** C16: Whatever the interleaving of requests, shutdowns, statistics, submissions,
    settlements and message handlers of the NSQ worker: nothing panics, so no channel is
    closed twice and nothing is sent on a closed one; the producer is stopped at most once;
    one shutdown at most succeeds, and when it has, the producer is stopped, the consumer
    has ended, tasks are closed and no handler runs, now or later. *)
Theorem nsq_intake_safe w es r :
  run order unmarshal worker es (initial w) = Some r ->
  exists s, r = Ret s /\ (producer_stops s <= 1)%nat /\
    (forall t t', calls s !! t = Some (ShutdownDone ErrNil) -> calls s !! t' = Some (ShutdownDone ErrNil) -> t = t') /\
    forall t, calls s !! t = Some (ShutdownDone ErrNil) ->
      producer_stops s = 1%nat /\ tasks_closed (hand s) = true /\
      (forall c, q s = Some c -> q_exited c = true) /\ quiet (hand s) /\
      forall es' s', run order unmarshal worker es' s = Some (Ret s') -> tasks_closed (hand s') = true /\ quiet (hand s').
Proof.
  intros Hr. destruct (nsq_run_ok _ _ _ _ _ _ (nsq_initial_ok w) Hr) as (s & -> & Hok). exists s. split; [done|].
  split; [by apply stops_bounded|]. split; [intros t t' Ht Ht'; by eapply (io_sole _ Hok)|].
  intros t Ht. destruct (io_phase _ Hok _ _ Ht eq_refl) as (Hpr & He & _). specialize (He eq_refl). injection Hpr as _ H2 H3.
  split_and!; [done|done| |by apply Hok|].
  - intros c Hc. unfold ended in He. by rewrite Hc in He.
  - intros es' s' Hr'. destruct (nsq_run_ok _ _ _ _ _ _ Hok Hr') as (s1 & [= <-] & Hok').
    assert (Hcl : tasks_closed (hand s') = true) by by apply (run_mono _ _ _ Hr').
    split; [done|]. apply (io_quiet _ Hok'). destruct (stopFlag s') eqn:Ef.
    + destruct (io_closing _ Hok' Ef) as (u & p & Hu & Hc). destruct (io_phase _ Hok' _ _ Hu Hc) as (Hp & He' & _).
      apply He'. apply (f_equal snd) in Hp. simpl in Hp. rewrite Hcl in Hp. by destruct p.
    + destruct (io_open _ Hok' Ef) as [Hp _]. apply (f_equal snd) in Hp. simpl in Hp. congruence.
Qed.

(** C15: No message is lost between its handler and a request. In every reachable state of the
    NSQ worker a handler has returned only because one request received its message, or
    the message was requeued, or it has no body; a request receives one message at most,
    and holds it or has returned it, or has failed after the message was answered, with
    a FIN only behind a publication on the dead-letter topic; and this stays so. *)
Theorem nsq_intake_keeps_work w es s :
  run order unmarshal worker es (initial w) = Some (Ret s) ->
  (forall n m p, offers (hand s) !! n = Some (m, p) ->
     match p with
     | Taken t => exists pc, calls s !! t = Some pc /\
         (pc = RequestGot n \/ (exists data, pc = RequestDone (inr (n, data))) \/
          (exists err, pc = RequestDone (inl err)) /\ answered (client s) m)
     | Withdrawn => (m, REQ) ∈ responses (client s)
     | Discarded => N_Body m = ""
     | Entering | Parked | Stopping => True
     end) /\
  (forall n n' m m' t, offers (hand s) !! n = Some (m, Taken t) -> offers (hand s) !! n' = Some (m', Taken t) -> n = n') /\
  (forall es' s', run order unmarshal worker es' s = Some (Ret s') -> handoff_mono (hand s) (hand s')).
Proof.
  intros Hr. pose proof (run_work _ _ _ (initial_work w) Hr) as [[H1 H2 H5] H3 H4]. split_and!; [|done|].
  - intros n m [| | |t| |] Hn; try done; [| |by apply H4, len_zero in Hn].
    + destruct (H1 _ _ _ Hn) as (pc & Hpc & Ho & Hc). exists pc. split; [done|].
      destruct pc; try done; simpl in Hc.
      * destruct Hc as [[= ->]|[? _]]; [by left|done].
      * destruct result as [err|[i data]]; simpl in Hc.
        -- destruct Hc as [?|[_ Ha]]; [done|]. right. right. split; [by eexists|done].
        -- destruct Hc as [[= ->]|[? _]]; [|done]. right. left. by eexists.
    + by apply H3 in Hn.
  - intros es' s'. apply run_mono.
Qed.
End delivery.

(** * A run *)

Module SampleIntake.
Import SampleNsq.

Definition perform (es : list event) (s : intake world) : option (go (intake world)) :=
  run reverse unmarshal worker es s.

Definition start : intake world := initial idle.

Definition go_on (t : nat) : event := Step t ErrNil zeroTime.

(** A request opens the consumer and receives a malformed message; another message waits
    when a shutdown closes the stop channel. *)
Definition prefix : list event :=
  [Request 0; go_on 0; go_on 0; go_on 0; go_on 0; Deliver 7 (message 1); Select 7 ToPark; Take 0 7; Step 0 ErrNil now;
   Deliver 8 (message 2); Select 8 ToPark; Shutdown 1; go_on 1; go_on 1; go_on 1].

(** Its handler requeues the message, the consumer ends and the shutdown returns. *)
Definition finish : list event := [go_on 1; Withdraw 8; Exit; go_on 1; go_on 1; go_on 1].

Definition summary (r : option (go (intake world))) :=
  match r with
  | Some (Ret s) => Some (producer_stops s, offers (hand s) !! 7%nat, offers (hand s) !! 8%nat, calls s !! 1%nat)
  | _ => None
  end.

Lemma perform_whole : exists s, perform (prefix ++ finish) start = Some (Ret s) /\
  summary (Some (Ret s)) =
    Some (1, Some (message 1, Taken 0), Some (message 2, Withdrawn), Some (ShutdownDone ErrNil))%nat.
Proof.
  destruct (perform (prefix ++ finish) start) as [[s|]|] eqn:E; [|exfalso; vm_compute in E; discriminate..].
  exists s. split; [done|]. rewrite <- E. vm_compute. reflexivity.
Qed.
End SampleIntake.
Import SampleNsq.

Lemma nsq_intake_safe_witness :
  exists s, SampleIntake.perform (SampleIntake.prefix ++ SampleIntake.finish) SampleIntake.start = Some (Ret s) /\
    calls s !! 1%nat = Some (ShutdownDone ErrNil) /\ producer_stops s = 1%nat /\ quiet (hand s).
Proof.
  destruct SampleIntake.perform_whole as (s & E & Hsum). simpl in Hsum. injection Hsum as _ _ _ Ht.
  destruct (nsq_intake_safe _ _ _ _ _ _ E) as (s1 & [= <-] & _ & _ & Hs).
  destruct (Hs 1%nat Ht) as (H1 & _ & _ & H2 & _). exists s.
  split; [exact E|]. split; [exact Ht|]. split; [exact H1|exact H2].
Defined.

Lemma nsq_intake_keeps_work_witness :
  exists s, SampleIntake.perform (SampleIntake.prefix ++ SampleIntake.finish) SampleIntake.start = Some (Ret s) /\
    (message 2, REQ) ∈ responses (client s) /\
    exists pc, calls s !! 0%nat = Some pc /\
      (pc = RequestGot 7 \/ (exists data, pc = RequestDone (inr (7%nat, data))) \/
       (exists err, pc = RequestDone (inl err)) /\ answered worker (client s) (message 1)).
Proof.
  destruct SampleIntake.perform_whole as (s & E & Hsum). simpl in Hsum. injection Hsum as _ H7 H8 _.
  destruct (nsq_intake_keeps_work _ _ _ _ _ _ E) as (H & _ & _).
  exists s. split; [exact E|]. split; [exact (H _ _ _ H8)|exact (H _ _ _ H7)].
Defined.
