(* ===== verification/NsqLiveness.v ===== *)
(** Progress of the intake of the NSQ worker: a shutdown that won the swap can return, and a
    consumer that failed to start never starts. *)

From S2P Require Import Prelude GoStd Sentinels Contract Failure Job Status Records Stream ValkeyOptions Execution Nsq NsqSafety Handoff NsqWorker NsqWorkerSafety NsqDelivery.

Section liveness.
Context {W : Type} `{NC : !nsqClient W, EJ : !EnvelopeJSON}.
Context (order : list (string * string) -> list (string * string)) (unmarshal : string -> error + Message).
Context (worker : Worker).
Implicit Types s : intake W.

Abbreviation run := (run order unmarshal worker).
Abbreviation step := (step order unmarshal worker).

(** * A shutdown can return *)

(** Steps of calls and handlers that are under way, and the exit of the library. *)
Definition helps (e : event) : bool :=
  match e with Step _ ErrNil _ | Select _ ToStop | Withdraw _ | Exit => true | _ => false end.

(** [s'] follows from [s] after at most [k] such steps. *)
Definition reaches (k : nat) s s' : Prop :=
  exists es, Forall (fun e => helps e = true) es /\ (length es <= k)%nat /\ run es s = Some (Ret s').

Lemma reaches_refl k s : reaches k s s.
Proof. exists []. split; [done|]. split; [simpl; lia|done]. Qed.

Lemma nsq_run_app es es' s s' : run es s = Some (Ret s') -> run (es ++ es') s = run es' s'.
Proof.
  revert s. induction es as [|e es IH]; intros s; simpl; [by intros [= ->]|].
  destruct (step e s) as [[s1|]|]; try done. apply IH.
Qed.

Lemma reaches_trans k k' s1 s2 s3 : reaches k s1 s2 -> reaches k' s2 s3 -> reaches (k + k') s1 s3.
Proof.
  intros (es & H1 & H2 & H3) (es' & H1' & H2' & H3'). exists (es ++ es').
  split; [by apply Forall_app|]. split; [rewrite length_app; lia|]. by rewrite (nsq_run_app es es' s1 s2).
Qed.

Lemma reaches_step e k s1 s2 s3 : helps e = true -> step e s1 = Some (Ret s2) -> reaches k s2 s3 -> reaches (S k) s1 s3.
Proof.
  intros He Hs (es & H1 & H2 & H3). exists (e :: es). split; [by apply Forall_cons|]. split; [simpl; lia|].
  simpl. by rewrite Hs.
Qed.

(** ** The handlers return *)

Definition busy (o : NsqMessage * offer_pc) : nat := if running o.2 then 2 else 0.

(** The same state but for the handlers and the client. *)
Record same_calls s s' : Prop := {
  sc_calls : calls s' = calls s;
  sc_flag : stopFlag s' = stopFlag s;
  sc_mu : lifecycleMu s' = lifecycleMu s;
  sc_q : q s' = q s;
  sc_progress : progress s' = progress s
}.

Lemma withdraw_one n m s :
  offers (hand s) !! n = Some (m, Stopping) ->
  exists s', step (Withdraw n) s = Some (Ret s') /\ same_calls s s' /\
    offers (hand s') = <[n := (m, Withdrawn)]> (offers (hand s)).
Proof.
  intros Hn. cbn [NsqWorker.step]. unfold withdraw, offer_end. rewrite Hn. eexists. split; [done|]. by destruct s.
Qed.

Lemma select_stop n m s :
  offers (hand s) !! n = Some (m, Entering) -> stopped (hand s) = true ->
  exists s', step (Select n ToStop) s = Some (Ret s') /\ same_calls s s' /\
    offers (hand s') = <[n := (m, Stopping)]> (offers (hand s)).
Proof.
  intros Hn Hs. cbn [NsqWorker.step]. unfold select, offer_select. rewrite Hn, Hs. eexists. split; [done|]. by destruct s.
Qed.

Lemma same_calls_trans s1 s2 s3 : same_calls s1 s2 -> same_calls s2 s3 -> same_calls s1 s3.
Proof. intros [] []. split; congruence. Qed.

Lemma stopped_same s s' : intake_ok s -> intake_ok s' -> same_calls s s' -> stopped (hand s') = stopped (hand s).
Proof.
  intros H1 H2 [_ _ _ _ Hp]. rewrite (io_once _ H1), (io_once _ H2). unfold progress in Hp. congruence.
Qed.

(** One handler returns. *)
Lemma handler_returns n m p s :
  intake_ok s -> stopped (hand s) = true -> offers (hand s) !! n = Some (m, p) -> running p = true ->
  exists s', reaches 2 s s' /\ intake_ok s' /\ same_calls s s' /\
    offers (hand s') = <[n := (m, Withdrawn)]> (offers (hand s)).
Proof.
  intros Hok Hs Hn Hr. destruct p; try done.
  - destruct (select_stop n m s Hn Hs) as (s1 & E1 & Hc1 & Ho1).
    destruct (nsq_step_ok _ _ _ _ _ _ Hok E1) as (s1' & [= <-] & Hok1).
    destruct (withdraw_one n m s1) as (s2 & E2 & Hc2 & Ho2); [by rewrite Ho1, lookup_insert_eq|].
    destruct (nsq_step_ok _ _ _ _ _ _ Hok1 E2) as (s2' & [= <-] & Hok2).
    exists s2. split; [|split; [done|]; split; [by eapply same_calls_trans|]].
    + eapply reaches_step; [|exact E1|]; [done|]. eapply reaches_step; [|exact E2|]; [done|]. apply reaches_refl.
    + by rewrite Ho2, Ho1, insert_insert_eq.
  - by apply (ho_parked _ (io_hand _ Hok) Hs) in Hn.
  - destruct (withdraw_one n m s Hn) as (s2 & E2 & Hc2 & Ho2).
    destruct (nsq_step_ok _ _ _ _ _ _ Hok E2) as (s2' & [= <-] & Hok2).
    exists s2. split; [|done]. eapply reaches_step; [|exact E2|]; [done|]. apply reaches_refl.
Qed.

(** All of them do. *)
Lemma handlers_return k s :
  intake_ok s -> stopped (hand s) = true -> (tally busy (offers (hand s)) <= k)%nat ->
  exists s', reaches k s s' /\ intake_ok s' /\ same_calls s s' /\ quiet (hand s').
Proof.
  revert s. induction k as [k IH] using lt_wf_ind. intros s Hok Hs Hk.
  destruct (tally busy (offers (hand s))) as [|j] eqn:Et.
  - exists s. split; [apply reaches_refl|]. split; [done|]. split; [by split|].
    intros n m p Hn. pose proof (tally_le busy _ _ _ Hn) as Hl. rewrite Et in Hl. unfold busy in Hl. simpl in Hl.
    destruct (running p); [lia|done].
  - destruct (tally_pos busy (offers (hand s))) as (n & [m p] & Hn & Hb); [lia|].
    unfold busy in Hb. simpl in Hb. destruct (running p) eqn:Hr; [|lia].
    destruct (handler_returns n m p s Hok Hs Hn Hr) as (s1 & R1 & Hok1 & Hc1 & Ho1).
    pose proof (tally_set busy _ _ _ (m, Withdrawn) Hn) as Hset. rewrite <- Ho1 in Hset. unfold busy at 2 4 in Hset.
    simpl in Hset. rewrite Hr in Hset.
    destruct (IH (k - 2)%nat ltac:(lia) s1 Hok1) as (s2 & R2 & Hok2 & Hc2 & Hq); [|lia|].
    + by rewrite (stopped_same s s1).
    + exists s2. split; [|split; [done|]; split; [by eapply same_calls_trans|done]].
      replace k with (2 + (k - 2))%nat by lia. by eapply reaches_trans.
Qed.

(** ** The shutdown moves on *)

(** Call [t] takes a step of its own. *)
Lemma own_step t p s s' :
  intake_ok s -> calls s !! t = Some p -> call_step order unmarshal worker t ErrNil zeroTime p s = Some (Ret s') ->
  reaches 1 s s' /\ intake_ok s'.
Proof.
  intros Hok Ht E. assert (Es : step (Step t ErrNil zeroTime) s = Some (Ret s')) by (cbn [NsqWorker.step]; by rewrite Ht).
  destruct (nsq_step_ok _ _ _ _ _ _ Hok Es) as (s1 & [= <-] & Hok'). split; [|done].
  eapply (reaches_step (Step t ErrNil zeroTime)); [done|exact Es|apply reaches_refl].
Qed.

(** The state has a way to the return of the shutdown [t]. *)
Definition returns (t : nat) s : Prop := exists k s', reaches k s s' /\ calls s' !! t = Some (ShutdownDone ErrNil).

Lemma nsq_returns_after k t s s' : reaches k s s' -> returns t s' -> returns t s.
Proof. intros H (k' & s2 & H2 & H3). exists (k + k')%nat, s2. split; [by eapply reaches_trans|done]. Qed.

Lemma own_returns t p s s' :
  intake_ok s -> calls s !! t = Some p -> call_step order unmarshal worker t ErrNil zeroTime p s = Some (Ret s') ->
  (intake_ok s' -> returns t s') -> returns t s.
Proof. intros Hok Ht E Hr. destruct (own_step t p s s' Hok Ht E) as [H1 H2]. eapply nsq_returns_after; eauto. Qed.

Lemma tasks_returns t s : intake_ok s -> calls s !! t = Some ShutdownTasks -> returns t s.
Proof.
  intros Hok Ht. destruct (nsq_close_ok t s Hok Ht) as (s' & E & _).
  eapply (own_returns t _ s s'); [done|done|by rewrite <- E|]. intros _. exists 0, s'. split; [apply reaches_refl|].
  unfold close in E. destruct (close_tasks (hand s)); [|done]. injection E as <-. destruct s; simpl. apply lookup_insert_eq.
Qed.

Lemma producer_returns t s : intake_ok s -> calls s !! t = Some ShutdownProducer -> returns t s.
Proof.
  intros Hok Ht. eapply own_returns; [done|done|reflexivity|]. intros Hok'. apply tasks_returns; [done|].
  destruct s; simpl. apply lookup_insert_eq.
Qed.

Lemma exited_returns t c s :
  intake_ok s -> calls s !! t = Some ShutdownWait -> q s = Some c -> q_exited c = true -> returns t s.
Proof.
  intros Hok Ht Hc He. eapply own_returns; [done|done|cbn [call_step]; unfold wait; rewrite Hc, He; reflexivity|].
  intros Hok'. apply producer_returns; [done|]. destruct s; simpl. apply lookup_insert_eq.
Qed.

Lemma wait_returns t s : intake_ok s -> calls s !! t = Some ShutdownWait -> returns t s.
Proof.
  intros Hok Ht. destruct (io_phase _ Hok _ _ Ht eq_refl) as (Hpr & _ & Hq). destruct (Hq eq_refl) as (c & Hc & Hst).
  specialize (Hst eq_refl). injection Hpr as Ho _ _.
  destruct (handlers_return (tally busy (offers (hand s))) s Hok) as (s1 & R1 & Hok1 & [Ec _ _ Eq _] & Hqt); [by rewrite (io_once _ Hok)|done|].
  eapply nsq_returns_after; [exact R1|]. rewrite <- Ec in Ht. rewrite <- Eq in Hc.
  destruct (q_exited c) eqn:Ex; [by eapply exited_returns|].
  assert (exists s2, step Exit s1 = Some (Ret s2) /\ calls s2 = calls s1 /\ q s2 = Some (c <| q_exited := true |>))
    as (s2 & E2 & Ec2 & Eq2).
  { cbn [NsqWorker.step]. unfold exit. rewrite Hc, Hst, Ex.
    destruct (existsb _ _) eqn:E; [|eexists; split; [reflexivity|by destruct s1]].
    apply existsb_exists in E as ([n [m p]] & Hin & Hr). apply list_elem_of_In, elem_of_map_to_list in Hin.
    specialize (Hqt _ _ _ Hin). unfold handler_runs in Hr. simpl in Hr. congruence. }
  destruct (nsq_step_ok _ _ _ _ _ _ Hok1 E2) as (s2' & [= <-] & Hok2).
  eapply nsq_returns_after; [eapply (reaches_step Exit); [done|exact E2|apply (reaches_refl 0)]|].
  eapply (exited_returns t (c <| q_exited := true |>)); [done|by rewrite Ec2|done|by destruct c].
Qed.

Lemma quit_returns t s : intake_ok s -> calls s !! t = Some ShutdownQuit -> returns t s.
Proof.
  intros Hok Ht. eapply own_returns; [done|done|reflexivity|]. intros Hok'. apply wait_returns; [done|].
  unfold quit. destruct (on_consumer _ s); simpl. apply lookup_insert_eq.
Qed.

Lemma stop_returns t s : intake_ok s -> calls s !! t = Some ShutdownStop -> returns t s.
Proof.
  intros Hok Ht. destruct (stop_ok t s Hok Ht) as (s' & E & _).
  eapply (own_returns t _ s s'); [done|done|by rewrite <- E|]. intros Hok'.
  destruct (io_phase _ Hok _ _ Ht eq_refl) as (Hpr & _ & _). injection Hpr as Ho _ _.
  assert (calls s' !! t = Some ShutdownQuit \/ calls s' !! t = Some ShutdownProducer) as [?|?];
    [|by apply quit_returns|by apply producer_returns].
  unfold stop in E. rewrite Ho in E. destruct (close_stop (hand s)); [|done]. injection E as <-.
  destruct s as [? ? ? ? ? [c|] ? ? ?]; simpl; rewrite lookup_insert_eq; auto.
Qed.

Lemma lock_returns t s : intake_ok s -> calls s !! t = Some ShutdownLock -> lifecycleMu s = None -> returns t s.
Proof.
  intros Hok Ht Hm. eapply own_returns; [done|done|cbn [call_step]; unfold lock; rewrite Hm; reflexivity|].
  intros Hok'. apply stop_returns; [done|]. destruct s; simpl. apply lookup_insert_eq.
Qed.

(** The request that holds the mutex gives it back. *)
Lemma holder_step u p t s :
  intake_ok s -> calls s !! t = Some ShutdownLock -> calls s !! u = Some p -> holding p = true ->
  (exists s', reaches 1 s s' /\ intake_ok s' /\ calls s' !! t = Some ShutdownLock /\
     (lifecycleMu s' = None \/ p = RequestCreate /\ calls s' !! u = Some RequestConnect)).
Proof.
  intros Hok Ht Hu Hh. assert (u <> t) as Hne by (intros ->; rewrite Ht in Hu; by injection Hu as <-).
  assert (Hf : stopFlag s = true).
  { destruct (stopFlag s) eqn:Ef; [done|]. destruct (io_open _ Hok Ef) as [_ H]. by specialize (H _ _ Ht). }
  assert (Hc : closing p = false).
  { destruct (closing p) eqn:E; [|done]. by destruct Hne; eapply (io_sole _ Hok). }
  destruct p; try done.
  - eexists. destruct (own_step u _ s _ Hok Hu eq_refl) as [H1 H2]. split; [exact H1|]. split; [exact H2|].
    unfold start. rewrite Hf. destruct s; simpl in *. rewrite lookup_insert_ne by done. auto.
  - eexists. destruct (own_step u _ s _ Hok Hu eq_refl) as [H1 H2]. split; [exact H1|]. split; [exact H2|].
    unfold create. destruct s; simpl in *. rewrite lookup_insert_ne, lookup_insert_eq by done. auto.
  - eexists. destruct (own_step u _ s _ Hok Hu eq_refl) as [H1 H2]. split; [exact H1|]. split; [exact H2|].
    unfold connect, on_consumer. destruct s as [? ? ? ? ? [c|] ? ? ?]; simpl in *; rewrite lookup_insert_ne by done; auto.
Qed.

Lemma closing_has_way t p s : intake_ok s -> calls s !! t = Some p -> closing p = true -> returns t s.
Proof.
  intros Hok Ht Hc. destruct p; try done.
  - destruct (lifecycleMu s) as [u|] eqn:Em; [|by apply lock_returns].
    destruct (io_mutex _ Hok) as [_ H]. destruct (H u Em) as (p & Hu & Hh).
    destruct (holder_step u p t s Hok Ht Hu Hh) as (s1 & R1 & Hok1 & Ht1 & Hm1). eapply nsq_returns_after; [exact R1|].
    destruct Hm1 as [Hm1|[_ Hu1]]; [by apply lock_returns|].
    destruct (holder_step u _ t s1 Hok1 Ht1 Hu1 eq_refl) as (s2 & R2 & Hok2 & Ht2 & [Hm2|[? _]]); [|done].
    eapply nsq_returns_after; [exact R2|]. by apply lock_returns.
  - by apply stop_returns.
  - by apply quit_returns.
  - by apply wait_returns.
  - by apply producer_returns.
  - by apply tasks_returns.
  - exists 0, s. split; [apply reaches_refl|]. simpl in Hc. apply is_nil_iff in Hc as ->. done.
Qed.

(** C33: A shutdown of the NSQ worker that won the swap is never stuck: from every reachable
    state steps of the calls and handlers under way, and the exit of the library once its
    handlers have returned, lead to its return; no new call or delivery is needed. *)
Theorem nsq_shutdown_returns w es s t p :
  run es (initial w) = Some (Ret s) -> calls s !! t = Some p -> closing p = true ->
  exists es' s', Forall (fun e => helps e = true) es' /\ run es' s = Some (Ret s') /\
    calls s' !! t = Some (ShutdownDone ErrNil).
Proof.
  intros Hr Ht Hc. destruct (nsq_run_ok _ _ _ _ _ _ (nsq_initial_ok w) Hr) as (s1 & [= <-] & Hok).
  destruct (closing_has_way t p s Hok Ht Hc) as (k & s' & (es' & H1 & _ & H2) & H3). by exists es', s'.
Qed.

(** * A failed start *)

(** [startOnce] is used up, without a connection. *)
Record unstarted s : Prop := {
  us_once : startOnce s = true;
  us_calls t p : calls s !! t = Some p -> starting p = false;
  us_link c : q s = Some c -> q_link c = Unlinked;
  us_quiet : quiet (hand s)
}.

(** A request without a message and without the error of the connection. *)
Definition idle_result (err : error) : Prop :=
  err = ErrNoTaskInQueue \/ err = ErrQueueShutdown \/ err = ErrQueueHasBeenClosed.

Definition idle_pc (p : call_pc) : Prop :=
  match p with
  | RequestGot _ | RequestDone (inr _) => False
  | RequestDone (inl err) => idle_result err
  | _ => True
  end.

(** Call [t] is not there yet, or is such a request. *)
Definition idles (t : nat) s : Prop := forall p, calls s !! t = Some p -> idle_pc p.

Lemma unstarted_move u p' s s' :
  unstarted s -> starting p' = false -> calls s' = <[u := p']> (calls s) -> startOnce s' = startOnce s ->
  (forall c, q s' = Some c -> exists c', q s = Some c' /\ q_link c = q_link c') -> quiet (hand s') -> unstarted s'.
Proof.
  intros [H1 H2 H3 H4] Hp Ec Eo Hq Hh. split; [congruence| | |done].
  - intros t p. rewrite Ec, lookup_insert_Some. intros [[<- <-]|[_ H]]; eauto.
  - intros c Hc. destruct (Hq c Hc) as (c' & Hc' & ->). eauto.
Qed.

Lemma idles_move t u p' s s' :
  idles t s -> calls s' = <[u := p']> (calls s) -> (u = t -> (forall p, calls s !! t = Some p -> idle_pc p) -> idle_pc p') -> idles t s'.
Proof.
  intros Hi Ec Hp p. rewrite Ec, lookup_insert_Some. intros [[<- <-]|[_ H]]; [by apply Hp|by apply Hi].
Qed.

(** A call of an unstarted worker. *)
Lemma unstarted_call u answer now p s s' t :
  unstarted s -> idles t s -> calls s !! u = Some p ->
  call_step order unmarshal worker u answer now p s = Some (Ret s') -> unstarted s' /\ idles t s'.
Proof.
  intros Hun Hid Hu E. pose proof Hun as [H1 H2 H3 H4].
  assert (Hgo : forall p' x, starting p' = false -> calls x = <[u := p']> (calls s) -> startOnce x = startOnce s ->
            (forall c, q x = Some c -> exists c', q s = Some c' /\ q_link c = q_link c') -> quiet (hand x) ->
            (u = t -> idle_pc p') -> unstarted x /\ idles t x).
  { intros p' x Hst Ec Eo Hq Hh Hp. split; [by eapply unstarted_move|]. eapply idles_move; [done|done|auto]. }
  assert (Hself : u = t -> idle_pc p) by (intros ->; by apply Hid).
  destruct p; cbn [call_step] in E; try done.
  - unfold lock in E. destruct (lifecycleMu s); [done|]. injection E as <-.
    eapply (Hgo RequestStart); [done|by destruct s..|destruct s; naive_solver|by destruct s|done].
  - unfold start in E. rewrite H1 in E. injection E as <-. destruct (stopFlag s).
    + eapply (Hgo (RequestDone (inl ErrQueueShutdown))); [done|by destruct s..|destruct s; naive_solver|by destruct s|].
      intros _. right. by left.
    + eapply (Hgo RequestSelect); [done|by destruct s..|destruct s; naive_solver|by destruct s|done].
  - by specialize (H2 _ _ Hu).
  - by specialize (H2 _ _ Hu).
  - destruct (tasks_closed _); [|done]. injection E as <-.
    eapply (Hgo (RequestDone (inl ErrQueueHasBeenClosed))); [done|by destruct s..|destruct s; naive_solver|by destruct s|].
    intros _. right. by right.
  - unfold receive in E. destruct (offers (hand s) !! n) as [[m ?]|]; [|done].
    destruct (Request_received _ _ _ _ _ _) as [r w]. injection E as <-.
    eapply (Hgo (RequestDone _)); [done|by destruct s..|destruct s; naive_solver|by destruct s|]. intros e. by apply Hself in e.
  - unfold swap in E. injection E as <-. destruct (stopFlag s).
    + eapply (Hgo (ShutdownDone ErrQueueShutdown)); [done|by destruct s..|destruct s; naive_solver|by destruct s|done].
    + eapply (Hgo ShutdownLock); [done|by destruct s..|destruct s; naive_solver|by destruct s|done].
  - unfold lock in E. destruct (lifecycleMu s); [done|]. injection E as <-.
    eapply (Hgo ShutdownStop); [done|by destruct s..|destruct s; naive_solver|by destruct s|done].
  - unfold stop in E. destruct (stopOnce s).
    { injection E as <-. eapply (Hgo (ShutdownDone ErrNil)); [done|by destruct s..|destruct s; naive_solver|by destruct s|done]. }
    destruct (close_stop (hand s)) as [h|] eqn:Eh; [|done]. injection E as <-.
    eapply (Hgo (match q s with Some _ => ShutdownQuit | None => ShutdownProducer end));
      [by destruct (q s)|by destruct s..|destruct s; naive_solver| |by destruct (q s)].
    unfold close_stop in Eh. destruct (stopped (hand s)); [done|]. injection Eh as <-.
    destruct s; simpl in *. intros n m p. simpl. rewrite lookup_fmap.
    destruct (offers hand !! n) as [[m' p0]|] eqn:En; [|done]. specialize (H4 _ _ _ En). destruct p0; simpl; naive_solver.
  - injection E as <-. unfold quit, on_consumer.
    eapply (Hgo ShutdownWait); destruct s as [? ? ? ? ? [c|] ? ? ?]; try done. simpl. intros c' [= <-]. by exists c; destruct c.
  - unfold wait in E. destruct (q s) as [c|] eqn:Eq; [|done]. destruct (q_exited c); [|done]. injection E as <-.
    eapply (Hgo ShutdownProducer); [done|by destruct s..|destruct s; naive_solver|by destruct s|done].
  - injection E as <-. eapply (Hgo ShutdownTasks); [done|by destruct s..|destruct s; naive_solver|by destruct s|done].
  - unfold close, close_tasks in E. destruct (tasks_closed _); [done|]. destruct (existsb _ _); [done|]. injection E as <-.
    eapply (Hgo (ShutdownDone ErrNil)); [done|by destruct s..|destruct s; naive_solver|by destruct s|done].
  - destruct (lifecycleMu s); [done|]. injection E as <-.
    eapply (Hgo (StatsDone _)); [done|by destruct s..|destruct s; naive_solver|by destruct s|done].
Qed.

Lemma unstarted_step e s s' t :
  unstarted s -> idles t s -> step e s = Some (Ret s') -> unstarted s' /\ idles t s'.
Proof.
  intros Hun Hid E. pose proof Hun as [H1 H2 H3 H4].
  assert (Hgo : forall u p' x, starting p' = false -> calls x = <[u := p']> (calls s) -> startOnce x = startOnce s ->
            q x = q s -> hand x = hand s -> (u = t -> idle_pc p') -> unstarted x /\ idles t x).
  { intros u p' x Hst Ec Eo Eq Eh Hp. split; [|eapply idles_move; [done|done|auto]].
    eapply unstarted_move; [done|done|done|done| |by rewrite Eh]. rewrite Eq. eauto. }
  assert (Hsame : forall x, calls x = calls s -> startOnce x = startOnce s -> q x = q s -> hand x = hand s ->
            unstarted x /\ idles t x).
  { intros x Ec Eo Eq Eh. split; [split; rewrite ?Ec, ?Eo, ?Eq, ?Eh; auto|]. unfold idles. by rewrite Ec. }
  assert (Hno : forall n m p, offers (hand s) !! n = Some (m, p) -> running p = true -> unstarted s' /\ idles t s').
  { intros n m p Hn Hr. specialize (H4 _ _ _ Hn). congruence. }
  destruct e; cbn [NsqWorker.step] in E.
  - unfold enter in E. destruct (calls s !! t0); [done|]. injection E as <-. eapply (Hgo t0 RequestLock); by destruct s.
  - unfold enter in E. destruct (calls s !! t0); [done|]. injection E as <-. eapply (Hgo t0 ShutdownSwap); by destruct s.
  - unfold enter in E. destruct (calls s !! t0); [done|]. injection E as <-. eapply (Hgo t0 StatsLock); by destruct s.
  - injection E as <-. apply Hsame; by destruct s.
  - unfold settle in E. destruct (calls s !! t0) as [[| | | | | |[?|[i ?]]| | | | | | | | | |]|]; try done.
    destruct (offers (hand s) !! i) as [[msg ?]|]; [|done]. injection E as <-. apply Hsame; by destruct s.
  - destruct (calls s !! t0) as [p|] eqn:Et; [|done]. by eapply unstarted_call.
  - destruct (calls s !! t0) as [[]|] eqn:Et; try done. injection E as <-.
    eapply (Hgo t0 (RequestDone (inl ErrNoTaskInQueue))); try by destruct s. intros _. by left.
  - unfold deliver in E. destruct (q s) as [c|] eqn:Eq; [|done]. rewrite (H3 c eq_refl) in E. by destruct (q_exited c).
  - unfold select, offer_select in E. destruct (offers (hand s) !! n) as [[m []]|] eqn:En; try done. by eapply Hno.
  - unfold touch, offer_tick in E. destruct (offers (hand s) !! n) as [[m []]|] eqn:En; try done. by eapply Hno.
  - unfold withdraw, offer_end in E. destruct (offers (hand s) !! n) as [[m []]|] eqn:En; try done. by eapply Hno.
  - unfold take, offer_take in E. destruct (calls s !! t0) as [[]|]; try done.
    destruct (offers (hand s) !! n) as [[m p]|] eqn:En; [|done]. destruct (undecided p) eqn:Eu; [|done].
    by eapply Hno; [|apply undecided_running].
  - unfold exit in E. destruct (q s) as [c|] eqn:Eq; [|done]. destruct (_ && _); [|done]. injection E as <-.
    split; [|by destruct s]. split; try by destruct s. destruct s; simpl in *. intros c' [= <-]. specialize (H3 _ eq_refl). by destruct c.
Qed.

(** C35: A consumer that failed to start never starts: whatever happens afterwards, a later
    request returns no message and does not report the failure again. *)
Theorem failed_start_is_silent es s s' t r :
  unstarted s -> calls s !! t = None -> run es s = Some (Ret s') -> calls s' !! t = Some (RequestDone r) ->
  r = inl ErrNoTaskInQueue \/ r = inl ErrQueueShutdown \/ r = inl ErrQueueHasBeenClosed.
Proof.
  intros Hun Hn Hr Ht. assert (Hid : idles t s) by (intros p; by rewrite Hn).
  assert (unstarted s' /\ idles t s') as [_ Hid'].
  { clear Hn Ht. revert s Hun Hid Hr. induction es as [|e es IH]; intros s Hun Hid; simpl; [by intros [= <-]|].
    destruct (step e s) as [[s1|]|] eqn:E; try done. destruct (unstarted_step e s s1 t Hun Hid E). by apply IH. }
  specialize (Hid' _ Ht). destruct r as [err|]; [|done]. destruct Hid' as [->|[->| ->]]; auto.
Qed.
End liveness.

Import SampleNsq.

(** The shutdown waits for the consumer while a handler runs. *)
Lemma nsq_shutdown_returns_witness :
  exists s es' s', SampleIntake.perform SampleIntake.prefix SampleIntake.start = Some (Ret s) /\
    SampleIntake.perform es' s = Some (Ret s') /\ calls s' !! 1%nat = Some (ShutdownDone ErrNil).
Proof.
  destruct (SampleIntake.perform SampleIntake.prefix SampleIntake.start) as [[s|]|] eqn:E;
    [|exfalso; vm_compute in E; discriminate..].
  assert (Hsum : SampleIntake.summary (Some (Ret s)) =
    Some (0, Some (message 1, Taken 0), Some (message 2, Stopping), Some ShutdownQuit)%nat)
    by (rewrite <- E; vm_compute; reflexivity).
  simpl in Hsum. injection Hsum as _ _ _ Ht.
  destruct (nsq_shutdown_returns _ _ _ _ _ _ _ _ E Ht eq_refl) as (es' & s' & _ & Hr & Hs).
  exists s, es', s'. split; [reflexivity|]. split; [exact Hr|exact Hs].
Defined.

(** The first request fails to connect; the next one times out. *)
Module SampleFailure.
Definition refused : error := Leaf "connection refused".
Definition prefix : list event :=
  [Request 0; Step 0 ErrNil zeroTime; Step 0 ErrNil zeroTime; Step 0 ErrNil zeroTime; Step 0 refused zeroTime].
Definition retry : list event := [Request 1; Step 1 ErrNil zeroTime; Step 1 ErrNil zeroTime; Timeout 1].

(** Decides [unstarted]. *)
Definition check (s : intake world) : bool :=
  startOnce s && forallb (fun kv => negb (starting kv.2)) (map_to_list (calls s))
  && match q s with Some c => match q_link c with Unlinked => true | _ => false end | None => true end
  && forallb (fun kv => negb (running kv.2.2)) (map_to_list (offers (hand s))).

Lemma check_unstarted s : check s = true -> unstarted s.
Proof.
  unfold check. rewrite !andb_true_iff, !forallb_forall. intros [[[H1 H2] H3] H4]. split; [done| | |].
  - intros t p Ht. apply negb_true_iff, (H2 (t, p)), list_elem_of_In, elem_of_map_to_list, Ht.
  - intros c Hc. rewrite Hc in H3. by destruct (q_link c).
  - intros n m p Hn. apply negb_true_iff, (H4 (n, (m, p))), list_elem_of_In, elem_of_map_to_list, Hn.
Qed.

Lemma fails : exists s s', SampleIntake.perform prefix SampleIntake.start = Some (Ret s) /\
  SampleIntake.perform retry s = Some (Ret s') /\ check s = true /\
  calls s !! 0%nat = Some (RequestDone (inl refused)) /\ calls s !! 1%nat = None /\
  calls s' !! 1%nat = Some (RequestDone (inl ErrNoTaskInQueue)).
Proof.
  assert (Hsum : match SampleIntake.perform prefix SampleIntake.start with
    | Some (Ret s) =>
        match SampleIntake.perform retry s with
        | Some (Ret s') => Some (check s, calls s !! 0%nat, calls s !! 1%nat, calls s' !! 1%nat)
        | _ => None
        end
    | _ => None
    end = Some (true, Some (RequestDone (inl refused)), None, Some (RequestDone (inl ErrNoTaskInQueue))))
    by (vm_compute; reflexivity).
  destruct (SampleIntake.perform prefix SampleIntake.start) as [[s|]|]; try discriminate Hsum.
  destruct (SampleIntake.perform retry s) as [[s'|]|] eqn:E'; try discriminate Hsum.
  exists s, s'. injection Hsum as H1 H2 H3 H4. split; [reflexivity|]. split; [exact E'|]. auto.
Qed.
End SampleFailure.

Lemma failed_start_is_silent_witness :
  exists s s' r, SampleIntake.perform SampleFailure.prefix SampleIntake.start = Some (Ret s) /\
    calls s !! 0%nat = Some (RequestDone (inl SampleFailure.refused)) /\
    SampleIntake.perform SampleFailure.retry s = Some (Ret s') /\ calls s' !! 1%nat = Some (RequestDone r) /\
    (r = inl ErrNoTaskInQueue \/ r = inl ErrQueueShutdown \/ r = inl ErrQueueHasBeenClosed).
Proof.
  destruct SampleFailure.fails as (s & s' & E & E' & Hc & H0 & H1 & H1').
  exists s, s', (inl ErrNoTaskInQueue). split; [exact E|]. split; [exact H0|]. split; [exact E'|]. split; [exact H1'|].
  exact (failed_start_is_silent _ _ _ _ _ _ _ _ (SampleFailure.check_unstarted s Hc) H1 E' H1').
Defined.
