(* ===== verification/Nats.v ===== *)
(** The Core NATS worker (nats/): options, construction, and its message handlers and
    concurrent calls of [Request], [Queue] and [Shutdown] as one transition system over the
    client library. *)

From S2P Require Import Prelude GoStd Sentinels Contract Failure Job Status Records Server Scripts Valkey Handoff.

(** * Options *)

Record options := mkOptions {
  runFunc : Message -> go error;
  addr : string;
  subj : string;
  queue : string;
  requestTimeout : Z;
  connectTimeout : Z
}.

(** The functions of the package that return an [Option]; the logger only writes. *)
Inductive Option :=
| WithAddr (addrs : list string)
| WithSubj (subj : string)
| WithQueue (queue : string)
| WithRunFunc (fn : Message -> go error)
| WithLogger
| WithRequestTimeout (timeout : Z)
| WithConnectTimeout (timeout : Z).

Definition apply (option : Option) (w : options) : options :=
  match option with
  | WithAddr addrs => if (0 <? length addrs)%nat then w <| addr := String.concat "," addrs |> else w
  | WithSubj s => w <| subj := s |>
  | WithQueue s => w <| queue := s |>
  | WithRunFunc fn => w <| runFunc := fn |>
  | WithLogger => w
  | WithRequestTimeout timeout => w <| requestTimeout := timeout |>
  | WithConnectTimeout timeout => w <| connectTimeout := timeout |>
  end.

(** [nats.DefaultURL]. *)
Definition DefaultURL : string := "nats://127.0.0.1:4222".

Definition nats_defaults : options :=
  mkOptions (fun _ => Ret ErrNil) DefaultURL "foobar" "foobar" (6 * Second) (2 * Second).

Definition newOptions (opts : list Option) : options :=
  fold_left (fun w opt => apply opt w) opts nats_defaults.

(** * The client library *)

(** What the worker asks of a connection: [Connect] takes the address and the timeouts of
    connecting and draining. *)
Class natsClient (W : Type) := {
  Connect : string -> Z -> Z -> io W error;
  QueueSubscribe : string -> string -> io W error;
  Publish : string -> string -> io W error;
  Close : io W unit
}.

(** Where a connection stands; [Shut] is [IsClosed]. *)
Inductive conn := Open | Draining | Shut.

(** * State *)

(** Where a call stands. [Request] finds [startOnce] used up by the constructor. *)
Inductive call_pc :=
| RequestSelect
| RequestGot (n : nat)
| RequestDone (result : error + nat * Message)
| ShutdownSwap
| ShutdownStop                                   (* in stopOnce *)
| ShutdownDrain
| ShutdownWait
| ShutdownTasks
| ShutdownDone (err : error).

(** The fields of [Worker]; [logged] are the messages whose republication was logged as
    failed. *)
Record nats (W : Type) := mkNats {
  client : W;
  link : conn;
  stopFlag : bool;
  stopOnce : bool;
  exited : bool;
  closed : bool;
  hand : handoff string;
  logged : list string;
  calls : gmap nat call_pc
}.
Arguments mkNats {W} _ _ _ _ _ _ _ _ _.
Arguments client {W} _.
Arguments link {W} _.
Arguments stopFlag {W} _.
Arguments stopOnce {W} _.
Arguments exited {W} _.
Arguments closed {W} _.
Arguments hand {W} _.
Arguments logged {W} _.
Arguments calls {W} _.

Section nats.
Context {W : Type} `{!natsClient W}.
Context (order : list (string * string) -> list (string * string)).
Context (unmarshal : string -> error + Message).

(** ** Construction *)

(** The worker of [opts] on a new connection. *)
Definition initial (w : W) : nats W := mkNats w Open false false false false no_offers [] ∅.

(** [startConsumer] of a new worker; a failed one closes the connection again. *)
Definition NewWorkerE (args : list Option) : io W (error + options) :=
  let o := newOptions args in
  err ← Connect (addr o) (connectTimeout o) (connectTimeout o);
  if negb (is_nil err) then mret (inl (safe_Wrap "connect to NATS" err))
  else
    err ← QueueSubscribe (subj o) (queue o);
    if negb (is_nil err) then _ ← Close; mret (inl (Wrap "subscribe to NATS queue" err))
    else mret (inr o).

Definition NewWorker (args : list Option) : io W (go options) :=
  r ← NewWorkerE args;
  mret match r with inl _ => Panic "NewWorker" | inr o => Ret o end.

Context (opts : options).
Implicit Types s : nats W.

Definition with_call (t : nat) (p : call_pc) s : nats W := s <| @calls W := <[t := p]> (calls s) |>.

(** ** handleMessage *)

(** The library calls the handler while the connection is not closed. *)
Definition deliver (n : nat) (data : string) s : option (go (nats W)) :=
  match link s with
  | Shut => None
  | _ => match offer_new n data Entering (hand s) with
         | Some h => Some (Ret (s <| @hand W := h |>))
         | None => None
         end
  end.

Definition select (n : nat) (choice : select_choice) s : option (go (nats W)) :=
  match offer_select n choice (hand s) with
  | Some (Ret h) => Some (Ret (s <| @hand W := h |>))
  | Some (Panic why) => Some (Panic why)
  | None => None
  end.

(** The stop case: the message is published again, a failure is logged, and [exitOnce]
    closes [exit]. *)
Definition republish (n : nat) s : option (go (nats W)) :=
  match offer_end n (hand s) with
  | Some (data, h) =>
      let '(err, w) := Publish (subj opts) data (client s) in
      Some (Ret (s <| @hand W := h |> <| @client W := w |> <| @exited W := true |>
                   <| @logged W := if is_nil err then logged s else logged s ++ [data] |>))
  | None => None
  end.

(** ** Request *)

Definition take (t n : nat) s : option (go (nats W)) :=
  match calls s !! t, offer_take t n (hand s) with
  | Some RequestSelect, Some h => Some (Ret (with_call t (RequestGot n) (s <| @hand W := h |>)))
  | _, _ => None
  end.

Definition receive (t n : nat) s : option (go (nats W)) :=
  match offers (hand s) !! n with
  | Some (data, _) =>
      let result := match DecodeE order unmarshal data DefaultMaxMessageBytes with
                    | inl err => inl (Wrap "decode NATS message" err)
                    | inr message => inr (n, message)
                    end in
      Some (Ret (with_call t (RequestDone result) s))
  | None => None
  end.

(** ** Shutdown *)

Definition swap (t : nat) s : nats W :=
  if stopFlag s then with_call t (ShutdownDone ErrQueueShutdown) s
  else with_call t ShutdownStop (s <| @stopFlag W := true |>).

Definition stop (t : nat) s : go (nats W) :=
  if stopOnce s then Ret (with_call t (ShutdownDone ErrNil) s)
  else
    match close_stop (hand s) with
    | Ret h => Ret (with_call t ShutdownDrain (s <| @hand W := h |> <| @stopOnce W := true |>))
    | Panic why => Panic why
    end.

(** [Drain] starts draining; with an error it has closed the connection. *)
Definition drain (t : nat) (err : error) s : nats W :=
  with_call t ShutdownWait
    match link s with
    | Shut => s
    | _ => s <| @link W := if is_nil err then Draining else Shut |>
    end.

Definition close (t : nat) s : go (nats W) :=
  match close_tasks (hand s) with
  | Ret h => Ret (with_call t (ShutdownDone ErrNil) (s <| @hand W := h |>))
  | Panic why => Panic why
  end.

(** A step of call [t]; [answer] is the error a library call returns; [None] while the call
    is blocked or has returned. *)
Definition call_step (t : nat) (answer : error) (p : call_pc) s : option (go (nats W)) :=
  match p with
  | RequestSelect =>
      if tasks_closed (hand s) then Some (Ret (with_call t (RequestDone (inl ErrQueueHasBeenClosed)) s)) else None
  | RequestGot n => receive t n s
  | ShutdownSwap => Some (Ret (swap t s))
  | ShutdownStop => Some (stop t s)
  | ShutdownDrain => Some (Ret (drain t answer s))
  | ShutdownWait => if closed s then Some (Ret (with_call t ShutdownTasks s)) else None
  | ShutdownTasks => Some (close t s)
  | RequestDone _ | ShutdownDone _ => None
  end.

(** [Queue]. *)
Definition submit (bytes : string) s : error * nats W :=
  if stopFlag s then (ErrQueueShutdown, s)
  else let '(err, w) := Publish (subj opts) bytes (client s) in (err, s <| @client W := w |>).

(** ** Events *)

Inductive event :=
| Request (t : nat)
| Shutdown (t : nat)
| Submit (bytes : string)
| Step (t : nat) (answer : error)
| Timeout (t : nat)
| Deliver (n : nat) (data : string)
| Select (n : nat) (choice : select_choice)
| Republish (n : nat)
| Take (t n : nat)
| Drained                                           (* the connection closes, no handler runs *)
| Lost                                              (* it closes at any time *)
| ClosedHandler.                                    (* the library reports it *)

Definition enter (t : nat) (p : call_pc) s : option (go (nats W)) :=
  match calls s !! t with Some _ => None | None => Some (Ret (with_call t p s)) end.

Definition handler_runs (o : string * offer_pc) : bool := running o.2.

(** The library closes the connection. *)
Definition shut s : option (go (nats W)) :=
  match link s with Shut => None | _ => Some (Ret (s <| @link W := Shut |>)) end.

Definition step (e : event) s : option (go (nats W)) :=
  match e with
  | Request t => enter t RequestSelect s
  | Shutdown t => enter t ShutdownSwap s
  | Submit bytes => Some (Ret (submit bytes s).2)
  | Step t answer => match calls s !! t with Some p => call_step t answer p s | None => None end
  | Timeout t =>
      match calls s !! t with
      | Some RequestSelect => Some (Ret (with_call t (RequestDone (inl ErrNoTaskInQueue)) s))
      | _ => None
      end
  | Deliver n data => deliver n data s
  | Select n choice => select n choice s
  | Republish n => republish n s
  | Take t n => take t n s
  | Drained => if existsb (fun kv => handler_runs kv.2) (map_to_list (offers (hand s))) then None else shut s
  | Lost => shut s
  | ClosedHandler =>
      match link s with
      | Shut => if closed s then None else Some (Ret (s <| @closed W := true |>))
      | _ => None
      end
  end.

Fixpoint run (es : list event) s : option (go (nats W)) :=
  match es with
  | [] => Some (Ret s)
  | e :: es => match step e s with Some (Ret s) => run es s | r => r end
  end.
End nats.
