(* ===== verification/NatsSafety.v ===== *)
(** Safety of the Core NATS worker: its shutdown, the messages it hands over, and what a
    connection that is lost can do to it. *)

From S2P Require Import Prelude GoStd Sentinels Contract Failure Job Status Records Server Scripts Valkey Handoff Nats.

(** The history of a client: the calls of [Publish] with their answers. It says nothing of
    the server: a publication without an error may be in a buffer of the client, and be
    lost with the connection. *)
Class NatsHistory (W : Type) `{!natsClient W} := {
  publications : W -> list (string * string * error);
  Publish_law t data w err w' : Publish t data w = (err, w') -> publications w' = publications w ++ [(t, data, err)]
}.

(** How often a message was given to the client. *)
Definition times {W : Type} `{!natsClient W, !NatsHistory W} (data : string) (w : W) : nat :=
  length (List.filter (fun p : string * string * error => p.1.2 == data) (publications w)).

(** The handlers of a message that were stopped. *)
Definition withdrawn (data : string) (o : string * offer_pc) : nat :=
  match o with (d, Withdrawn) => Nat.b2n (d == data) | _ => 0 end.

(** * The shutdown *)

Definition closing (p : call_pc) : bool :=
  match p with
  | ShutdownStop | ShutdownDrain | ShutdownWait | ShutdownTasks => true
  | ShutdownDone err => is_nil err
  | _ => false
  end.

(** How far the shutdown at [p] is: stop closed, connection reported closed, tasks closed. *)
Definition phase (p : call_pc) : bool * bool * bool :=
  match p with
  | ShutdownStop => (false, false, false)
  | ShutdownDrain | ShutdownWait => (true, false, false)
  | ShutdownTasks => (true, true, false)
  | _ => (true, true, true)
  end.

Section safety.
Context {W : Type} `{NC : !natsClient W, NB : !NatsHistory W}.
Context (order : list (string * string) -> list (string * string)) (unmarshal : string -> error + Message).
Context (opts : options).
Implicit Types s : nats W.

Definition phase_ok s (p : call_pc) : Prop :=
  let '(a, b, c) := phase p in
  stopOnce s = a /\ tasks_closed (hand s) = c /\ (b = true -> closed s = true).

Record nats_ok s : Prop := {
  no_hand : handoff_ok (hand s);
  no_once : stopped (hand s) = stopOnce s;
  no_open : stopFlag s = false -> phase_ok s ShutdownStop /\ forall t p, calls s !! t = Some p -> closing p = false;
  no_closing : stopFlag s = true -> exists t p, calls s !! t = Some p /\ closing p = true;
  no_sole t t' p p' : calls s !! t = Some p -> closing p = true -> calls s !! t' = Some p' -> closing p' = true -> t = t';
  no_phase t p : calls s !! t = Some p -> closing p = true -> phase_ok s p;
  no_shut : closed s = true -> link s = Shut;
  no_quiet : link s = Shut -> quiet (hand s)
}.

Lemma nats_initial (w : W) : nats_ok (initial w).
Proof. by split. Qed.

(** Tasks are closed after the connection. *)
Lemma tasks_shut s : nats_ok s -> tasks_closed (hand s) = true -> link s = Shut.
Proof.
  intros Hok Hc. destruct (stopFlag s) eqn:Ef.
  - destruct (no_closing _ Hok Ef) as (t & p & Ht & Hp). pose proof (no_phase _ Hok _ _ Ht Hp) as H. unfold phase_ok in H.
    apply (no_shut _ Hok). destruct p; simpl in H; naive_solver congruence.
  - destruct (no_open _ Hok Ef) as [(_ & H & _) _]. congruence.
Qed.

(** A change outside of the calls. *)
Lemma nats_frame s s' :
  nats_ok s -> calls s' = calls s -> stopFlag s' = stopFlag s -> stopOnce s' = stopOnce s ->
  tasks_closed (hand s') = tasks_closed (hand s) -> stopped (hand s') = stopped (hand s) -> handoff_ok (hand s') ->
  (closed s = true -> closed s' = true) -> (closed s' = true -> link s' = Shut) -> (link s' = Shut -> quiet (hand s')) ->
  nats_ok s'.
Proof.
  intros [Hh Ho Hop Hcl Hs Hp Hsh Hq] Ec Ef Eo Et Est Hh' Hc Hsh' Hq'.
  assert (Hph : forall p, phase_ok s p -> phase_ok s' p).
  { intros p. unfold phase_ok. rewrite Eo, Et. destruct (phase p) as [[a b] c]. naive_solver. }
  split; rewrite ?Ec, ?Ef, ?Eo; auto; try congruence.
  - intros H. destruct (Hop H) as [H1 H2]. auto.
  - intros t p Ht Hc'. eauto.
Qed.

(** A call other than the shutdown moves on. *)
Lemma nats_move t p' s :
  nats_ok s -> (forall p, calls s !! t = Some p -> closing p = false) -> closing p' = false -> nats_ok (with_call t p' s).
Proof.
  intros [Hh Ho Hop Hcl Hs Hp Hsh Hq] Hc Hc'. destruct s; simpl in *.
  assert (Hget : forall u r, <[t := p']> calls !! u = Some r -> closing r = true -> calls !! u = Some r).
  { intros u r. rewrite lookup_insert_Some. intros [[<- <-]|[_ H]] Hr; [congruence|done]. }
  split; simpl; try done.
  - intros H. destruct (Hop H) as [H1 H2]. split; [done|]. intros u r. rewrite lookup_insert_Some.
    intros [[<- <-]|[_ Hr]]; [done|eauto].
  - intros H. destruct (Hcl H) as (u & r & Hr & Hcr). exists u, r. rewrite lookup_insert_ne; [done|].
    intros <-. specialize (Hc _ Hr). congruence.
  - intros u u' r r' H1 H2 H3 H4. eauto.
  - intros u r H Hr. eapply (Hp u r); eauto.
Qed.

(** The shutdown moves on. *)
Lemma nats_advance t p p' s s' :
  nats_ok s -> calls s !! t = Some p -> closing p = true -> closing p' = true ->
  calls s' = <[t := p']> (calls s) -> stopFlag s' = stopFlag s -> handoff_ok (hand s') ->
  stopped (hand s') = stopOnce s' -> phase_ok s' p' -> (closed s' = true -> link s' = Shut) ->
  (link s' = Shut -> quiet (hand s')) -> nats_ok s'.
Proof.
  intros [Hh Ho Hop Hcl Hs Hp Hsh Hq] Ht Hc Hc' Ec Ef Hh' Est Hph Hsh' Hq'.
  assert (Hget : forall u r, calls s' !! u = Some r -> closing r = true -> u = t /\ r = p').
  { intros u r. rewrite Ec, lookup_insert_Some. intros [[<- <-]|[Hne H]] Hr; [done|]. by destruct Hne; eapply Hs. }
  split; auto.
  - rewrite Ef. intros H. destruct (Hop H) as [_ H2]. specialize (H2 _ _ Ht). congruence.
  - intros _. exists t, p'. rewrite Ec, lookup_insert_eq. done.
  - intros u u' r r' H1 H2 H3 H4. destruct (Hget _ _ H1 H2), (Hget _ _ H3 H4). congruence.
  - intros u r H1 H2. by destruct (Hget _ _ H1 H2) as [_ ->].
Qed.

Lemma nats_swap t s : nats_ok s -> calls s !! t = Some ShutdownSwap -> nats_ok (swap t s).
Proof.
  intros Hok Ht. unfold swap. destruct (stopFlag s) eqn:Ef; [apply nats_move; naive_solver|].
  destruct Hok as [Hh Ho Hop _ _ _ Hsh Hq]. destruct (Hop Ef) as [Hpr Hnc].
  assert (Hget : forall u r, <[t := ShutdownStop]> (calls s) !! u = Some r -> closing r = true -> u = t /\ r = ShutdownStop).
  { intros u r. rewrite lookup_insert_Some. intros [[<- <-]|[Hne H]] Hr; [done|]. specialize (Hnc _ _ H). congruence. }
  destruct s; simpl in *. split; simpl; try done.
  - intros _. exists t, ShutdownStop. by rewrite lookup_insert_eq.
  - intros u u' r r' H1 H2 H3 H4. destruct (Hget _ _ H1 H2), (Hget _ _ H3 H4). congruence.
  - intros u r H1 H2. by destruct (Hget _ _ H1 H2) as [_ ->].
Qed.

Lemma nats_stop t s : nats_ok s -> calls s !! t = Some ShutdownStop -> exists s', stop t s = Ret s' /\ nats_ok s'.
Proof.
  intros Hok Ht. destruct (no_phase _ Hok _ _ Ht eq_refl) as (H1 & H2 & _). unfold stop. rewrite H1.
  destruct (close_stop (hand s)) as [h|] eqn:E.
  2:{ unfold close_stop in E. rewrite (no_once _ Hok), H1 in E. done. }
  eexists. split; [done|]. destruct (close_stop_ok _ _ (no_hand _ Hok) E) as (Hh & Hs & Hcl & Ho).
  eapply (nats_advance t ShutdownStop ShutdownDrain s); [done..|by destruct s|by destruct s|by destruct s|by destruct s| | |].
  - unfold phase_ok. destruct s; simpl in *. split; [done|]. split; [congruence|done].
  - destruct s; simpl. apply (no_shut _ Hok).
  - intros Hl. assert (Hq : quiet (hand s)) by (apply (no_quiet _ Hok); by destruct s).
    assert (quiet h); [|by destruct s]. intros n m pc. rewrite Ho, lookup_fmap.
    destruct (offers (hand s) !! n) as [[m' p]|] eqn:En; simpl; [|done].
    specialize (Hq _ _ _ En). destruct p; try done; simpl; intros [= _ <-]; done.
Qed.

Lemma nats_drain t s : nats_ok s -> calls s !! t = Some ShutdownDrain -> nats_ok (drain t ErrNil s).
Proof.
  intros Hok Ht. destruct (no_phase _ Hok _ _ Ht eq_refl) as (H1 & H2 & _). unfold drain.
  assert (Hl : closed s = true -> link s = Shut) by apply Hok. assert (Hq : link s = Shut -> quiet (hand s)) by apply Hok.
  eapply (nats_advance t ShutdownDrain ShutdownWait s); destruct s as [? [] ? ? ? ? ? ? ?]; simpl in *; try done; try apply Hok.
  all: intros H; by specialize (Hl H).
Qed.

Lemma nats_close t s : nats_ok s -> calls s !! t = Some ShutdownTasks -> exists s', close t s = Ret s' /\ nats_ok s'.
Proof.
  intros Hok Ht. destruct (no_phase _ Hok _ _ Ht eq_refl) as (H1 & H2 & H3). specialize (H3 eq_refl).
  assert (Hs : stopped (hand s) = true) by by rewrite (no_once _ Hok).
  unfold close. rewrite (close_tasks_ok _ (no_hand _ Hok) Hs H2). eexists. split; [done|].
  eapply (nats_advance t ShutdownTasks (ShutdownDone ErrNil) s); destruct s; simpl in *; try done; try apply Hok.
  split; [|done]. intros _. simpl. by apply (ho_parked _ (no_hand _ Hok)).
Qed.

(** A handler that runs moves on. *)
Lemma nats_handler n m p p' w l x s :
  nats_ok s -> offers (hand s) !! n = Some (m, p) -> running p = true -> (p' = Parked -> stopped (hand s) = false) ->
  nats_ok (mkNats w (link s) (stopFlag s) (stopOnce s) x (closed s) (set_offer n m p' (hand s)) l (calls s)).
Proof.
  intros Hok Hn Hr Hp. assert (Hl : link s <> Shut).
  { intros Hl. specialize (no_quiet _ Hok Hl _ _ _ Hn). congruence. }
  apply (nats_frame s); simpl; try done; [by apply set_offer_ok; [apply Hok|]|apply Hok].
Qed.

Lemma nats_select n choice s r : nats_ok s -> select n choice s = Some r -> exists s', r = Ret s' /\ nats_ok s'.
Proof.
  intros Hok. unfold select, offer_select. destruct (offers (hand s) !! n) as [[m []]|] eqn:En; try done.
  assert (tasks_closed (hand s) = false) as Hcl.
  { destruct (tasks_closed (hand s)) eqn:E; [|done].
    by specialize (no_quiet _ Hok (tasks_shut s Hok E) _ _ _ En). }
  rewrite Hcl, orb_false_r. destruct choice; [| |done].
  - destruct (stopped (hand s)) eqn:Es; [done|]. intros [= <-]. eexists. split; [done|].
    pose proof (nats_handler n m Entering Parked (client s) (logged s) (exited s) s Hok En eq_refl) as H. destruct s. by apply H.
  - destruct (stopped (hand s)) eqn:Es; [|done]. intros [= <-]. eexists. split; [done|].
    pose proof (nats_handler n m Entering Stopping (client s) (logged s) (exited s) s Hok En eq_refl) as H. destruct s. by apply H.
Qed.

(** ** Orderly runs

    The connection closes only when no handler runs: it is not [Lost], and [Drain] starts
    draining. *)
Definition orderly (e : event) : bool :=
  match e with Lost => false | Step _ err => is_nil err | _ => true end.

Lemma nats_shut s r : nats_ok s -> quiet (hand s) -> shut s = Some r -> exists s', r = Ret s' /\ nats_ok s'.
Proof.
  intros Hok Hq. unfold shut. destruct (link s) eqn:E; try done; intros [= <-]; eexists; (split; [done|]).
  all: apply (nats_frame s); destruct s; simpl in *; try done; apply Hok.
Qed.

Lemma nats_step e s r :
  nats_ok s -> orderly e = true -> step order unmarshal opts e s = Some r -> exists s', r = Ret s' /\ nats_ok s'.
Proof.
  intros Hok He. assert (Hnew : forall t p, calls s !! t = None -> closing p = false -> nats_ok (with_call t p s)).
  { intros t p Ht Hc. apply nats_move; [done|congruence|done]. }
  destruct e; cbn [step]; try done.
  - unfold enter. destruct (calls s !! t) eqn:E; [done|]. intros [= <-]. eauto.
  - unfold enter. destruct (calls s !! t) eqn:E; [done|]. intros [= <-]. eauto.
  - intros [= <-]. eexists. split; [done|]. unfold submit. destruct (stopFlag s); [done|].
    destruct (Publish _ _ _) as [err w]. apply (nats_frame s); destruct s; simpl in *; try done; apply Hok.
  - simpl in He. apply is_nil_iff in He as ->. destruct (calls s !! t) as [p|] eqn:Et; [|done]. destruct p; simpl; try done.
    + destruct (tasks_closed _); [|done]. intros [= <-]. eexists. split; [done|]. apply nats_move; naive_solver.
    + unfold receive. destruct (offers (hand s) !! n) as [[m ?]|]; [|done]. intros [= <-]. eexists. split; [done|].
      apply nats_move; naive_solver.
    + intros [= <-]. eauto using nats_swap.
    + intros [= <-]. by apply nats_stop.
    + intros [= <-]. eauto using nats_drain.
    + destruct (closed s) eqn:Ec; [|done]. intros [= <-]. eexists. split; [done|].
      destruct (no_phase _ Hok _ _ Et eq_refl) as (H1 & H2 & _).
      eapply (nats_advance t ShutdownWait ShutdownTasks s); destruct s; simpl in *; try done; apply Hok.
    + intros [= <-]. by apply nats_close.
  - destruct (calls s !! t) as [[]|] eqn:Et; try done. intros [= <-]. eexists. split; [done|]. apply nats_move; naive_solver.
  - unfold deliver. destruct (link s) eqn:El; try done; unfold offer_new; (destruct (offers (hand s) !! n); [done|]);
      intros [= <-]; eexists; (split; [done|]).
    all: apply (nats_frame s); destruct s; simpl in *; try done; try apply Hok; try congruence.
    all: by apply set_offer_ok; [apply Hok|].
  - by apply nats_select.
  - unfold republish, offer_end. destruct (offers (hand s) !! n) as [[m []]|] eqn:En; try done.
    destruct (Publish _ _ _) as [err w]. intros [= <-]. eexists. split; [done|].
    pose proof (nats_handler n m Stopping Withdrawn w (if is_nil err then logged s else logged s ++ [m]) true s Hok En eq_refl) as H.
    destruct s. by apply H.
  - unfold take, offer_take. destruct (calls s !! t) as [[]|] eqn:Et; try done.
    destruct (offers (hand s) !! n) as [[m p]|] eqn:En; [|done]. destruct (undecided p) eqn:Eu; [|done].
    destruct (negb _); [|done]. intros [= <-]. eexists. split; [done|].
    assert (running p = true) as Hr by by destruct p.
    pose proof (nats_handler n m p (Taken t) (client s) (logged s) (exited s) s Hok En Hr) as H. destruct s; simpl in *.
    eapply nats_move in H; [exact H|done|simpl; naive_solver|done].
  - destruct (existsb _ _) eqn:E; [done|]. apply nats_shut; [done|]. intros n m p Hn. destruct (running p) eqn:Hr; [|done].
    assert (existsb (fun kv => handler_runs kv.2) (map_to_list (offers (hand s))) = true) as H; [|congruence].
    apply existsb_exists. exists (n, (m, p)). split; [by apply list_elem_of_In, elem_of_map_to_list|done].
  - destruct (link s) eqn:El; try done. destruct (closed s) eqn:Ec; [done|]. intros [= <-]. eexists. split; [done|].
    apply (nats_frame s); destruct s; simpl in *; try done; apply Hok.
Qed.

Lemma nats_run es s r :
  nats_ok s -> forallb orderly es = true -> run order unmarshal opts es s = Some r -> exists s', r = Ret s' /\ nats_ok s'.
Proof.
  revert s. induction es as [|e es IH]; intros s Hok; simpl; [intros _ [= <-]; eauto|].
  intros [He Hes]%andb_true_iff. destruct (step _ _ _ e s) as [r'|] eqn:E; [|done].
  destruct (nats_step e s r' Hok He E) as (s' & -> & Hok'). by apply IH.
Qed.

(** * The messages *)

Definition owner (p : call_pc) : bool :=
  match p with RequestGot _ | RequestDone _ => true | _ => false end.

Definition carried (p : call_pc) : option nat :=
  match p with RequestGot n | RequestDone (inr (n, _)) => Some n | _ => None end.

Definition undecodable (data : string) : Prop :=
  exists err, DecodeE order unmarshal data DefaultMaxMessageBytes = inl err.

(** The client accepted the message for its subject again, or refused it, which was logged. *)
Definition given_back (w : W) (log : list string) (data : string) : Prop :=
  (subj opts, data, ErrNil) ∈ publications w \/
  (data ∈ log /\ exists err, err <> ErrNil /\ (subj opts, data, err) ∈ publications w).

Abbreviation republished s data := (given_back (client s) (logged s) data).

Record custody_ok s : Prop := {
  co_custody : custody carried owner undecodable (hand s) (calls s);
  co_returned t n message : calls s !! t = Some (RequestDone (inr (n, message))) -> exists data,
    offers (hand s) !! n = Some (data, Taken t) /\ DecodeE order unmarshal data DefaultMaxMessageBytes = inr message;
  co_withdrawn n data : offers (hand s) !! n = Some (data, Withdrawn) -> republished s data;
  co_handled n data : offers (hand s) !! n <> Some (data, Discarded)
}.

Lemma custody_initial (w : W) : custody_ok (initial w).
Proof. split; [apply custody_empty|done..]. Qed.

Lemma publish_keeps t data w err w' x : Publish t data w = (err, w') -> x ∈ publications w -> x ∈ publications w'.
Proof. intros ->%Publish_law. rewrite elem_of_app. auto. Qed.

Lemma given_mono w w' log log' data :
  (forall x, x ∈ publications w -> x ∈ publications w') -> (forall x, x ∈ log -> x ∈ log') ->
  given_back w log data -> given_back w' log' data.
Proof. intros Hw Hl [H|(H & err & He & Hp)]; [left; auto|right]. split; [auto|]. exists err. auto. Qed.

(** A change that leaves the calls and the handlers alone. *)
Lemma custody_frame s s' :
  custody_ok s -> calls s' = calls s -> hand s' = hand s -> (forall data, republished s data -> republished s' data) ->
  custody_ok s'.
Proof. intros [H1 H2 H3 H4] Ec Eh Hr. split; rewrite ?Ec, ?Eh; eauto. Qed.

(** A call without a message moves on. *)
Lemma custody_move t p' s s' :
  custody_ok s -> (forall p, calls s !! t = Some p -> owner p = false) -> carried p' = None ->
  calls s' = <[t := p']> (calls s) -> hand s' = hand s -> client s' = client s -> logged s' = logged s -> custody_ok s'.
Proof.
  intros [H1 H2 H3 H4] Ho Hc Ec Eh Ew El. split; rewrite ?Ec, ?Eh, ?Ew, ?El; auto.
  - by apply custody_call.
  - intros u n message. rewrite lookup_insert_Some. intros [[_ ->]|[_ Hu]]; [done|eauto].
Qed.

(** The channel of tasks or of stopping is closed. *)
Lemma custody_hand h s :
  custody_ok s -> (forall d, custody carried owner d (hand s) (calls s) -> custody carried owner d h (calls s)) ->
  (forall n m t, offers (hand s) !! n = Some (m, Taken t) -> offers h !! n = Some (m, Taken t)) ->
  (forall n m p, running p = false -> offers h !! n = Some (m, p) -> offers (hand s) !! n = Some (m, p)) ->
  custody_ok (s <| @hand W := h |>).
Proof.
  intros [H1 H2 H3 H4] Hc Ht Hb. destruct s; simpl in *. split; simpl; [by apply Hc| | |].
  - intros t n message Hn. destruct (H2 _ _ _ Hn) as (data & Hd & He). exists data. auto.
  - intros n data Hn. apply (H3 n), (Hb n data Withdrawn); done.
  - intros n data Hn. eapply (H4 n data), (Hb n data Discarded); done.
Qed.

(** A handler that runs moves on, the broker with it. *)
Lemma custody_step n m p p' w x l s :
  custody_ok s -> offers (hand s) !! n = Some (m, p) \/ offers (hand s) !! n = None -> running p = true ->
  (forall t, p' <> Taken t) -> p' <> Discarded -> (forall y, y ∈ publications (client s) -> y ∈ publications w) ->
  (forall y, y ∈ logged s -> y ∈ l) -> (p' = Withdrawn -> given_back w l m) ->
  custody_ok (mkNats w (link s) (stopFlag s) (stopOnce s) x (closed s) (set_offer n m p' (hand s)) l (calls s)).
Proof.
  intros [H1 H2 H3 H4] Hn Hr Hp Hd Hw Hl Hwd.
  assert (Hne : forall t m', offers (hand s) !! n <> Some (m', Taken t)).
  { intros t m' H. destruct Hn as [Hn|Hn]; [|congruence]. rewrite Hn in H. injection H as -> ->. done. }
  split; simpl.
  - by apply custody_handler.
  - intros t i message Ht. destruct (H2 _ _ _ Ht) as (data & Hi & He). exists data. rewrite lookup_insert_ne; [done|].
    intros <-. by apply Hne in Hi.
  - intros i data. rewrite lookup_insert_Some. intros [[<- [= <- ->]]|[_ Hi]]; [auto|].
    eapply given_mono; [exact Hw|exact Hl|eauto].
  - intros i data. rewrite lookup_insert_Some. intros [[_ [= _ E]]|[_ Hi]]; [done|by eapply H4].
Qed.

Lemma custody_nats_call t answer p s s' :
  custody_ok s -> calls s !! t = Some p -> call_step order unmarshal t answer p s = Some (Ret s') -> custody_ok s'.
Proof.
  intros Hok Ht. assert (Hidle : forall p' x, owner p = false -> carried p' = None -> calls x = <[t := p']> (calls s) ->
    hand x = hand s -> client x = client s -> logged x = logged s -> custody_ok x).
  { intros p' x Ho. by apply custody_move; [|intros r Hr; rewrite Ht in Hr; by injection Hr as <-]. }
  destruct p; simpl; try done.
  - destruct (tasks_closed _); [|done]. intros [= <-]. eapply (Hidle (RequestDone (inl ErrQueueHasBeenClosed))); by destruct s.
  - unfold receive. destruct Hok as [H1 H2 H3 H4]. destruct (cu_carried _ _ _ _ _ H1 _ _ n Ht eq_refl) as (m & Hm). rewrite Hm.
    intros [= <-]. destruct (DecodeE order unmarshal m DefaultMaxMessageBytes) as [err|message] eqn:E.
    all: destruct s; simpl in *; split; simpl; try done.
    + eapply custody_return; [done|exact Ht|done|exact Hm|done|]. right. split; [done|]. by exists err.
    + intros u i x. rewrite lookup_insert_Some. intros [[_ ?]|[_ Hu]]; [done|eauto].
    + eapply custody_return; [done|exact Ht|done|exact Hm|done|]. by left.
    + intros u i x. rewrite lookup_insert_Some. intros [[<- [= <- <-]]|[_ Hu]]; [by exists m|eauto].
  - intros [= <-]. unfold swap. destruct (stopFlag s).
    + eapply (Hidle (ShutdownDone ErrQueueShutdown)); by destruct s.
    + eapply (Hidle ShutdownStop); by destruct s.
  - unfold stop. destruct (stopOnce s); [intros [= <-]; eapply (Hidle (ShutdownDone ErrNil)); by destruct s|].
    destruct (close_stop (hand s)) as [h|] eqn:E; [|done]. intros [= <-].
    eapply (custody_move t ShutdownDrain (s <| @hand W := h |>)).
    + apply custody_hand; [done|intros d Hd; by eapply custody_stop| |];
        unfold close_stop in E; (destruct (stopped (hand s)); [done|]); injection E as <-; simpl.
      * intros n m u Hn. by rewrite lookup_fmap, Hn.
      * intros n m p Hr Hn. apply wake_parked_back; [by destruct p|done].
    + intros p Hp. replace (calls (s <| @hand W := h |>)) with (calls s) in Hp by by destruct s.
      rewrite Ht in Hp. by injection Hp as <-.
    + done.
    + by destruct s.
    + by destruct s.
    + by destruct s.
    + by destruct s.
  - intros [= <-]. unfold drain. eapply (Hidle ShutdownWait); by destruct s as [? [] ? ? ? ? ? ? ?].
  - destruct (closed s); [|done]. intros [= <-]. eapply (Hidle ShutdownTasks); by destruct s.
  - unfold close. destruct (close_tasks (hand s)) as [h|] eqn:E; [|done]. intros [= <-].
    eapply (custody_move t (ShutdownDone ErrNil) (s <| @hand W := h |>)).
    + apply custody_hand; [done|intros d Hd; by eapply custody_closed| |];
        unfold close_tasks in E; (destruct (tasks_closed (hand s)); [done|]); (destruct (existsb _ _); [done|]); by injection E as <-.
    + intros p Hp. replace (calls (s <| @hand W := h |>)) with (calls s) in Hp by by destruct s.
      rewrite Ht in Hp. by injection Hp as <-.
    + done.
    + by destruct s.
    + by destruct s.
    + by destruct s.
    + by destruct s.
Qed.

Lemma custody_nats_step e s s' : custody_ok s -> step order unmarshal opts e s = Some (Ret s') -> custody_ok s'.
Proof.
  intros Hok. assert (Hnew : forall t p, calls s !! t = None -> carried p = None -> custody_ok (with_call t p s)).
  { intros t p Ht Hc. eapply (custody_move t p s); [done|congruence|done|by destruct s..]. }
  assert (Hsame : forall x, calls x = calls s -> hand x = hand s -> client x = client s -> logged x = logged s -> custody_ok x).
  { intros x Ec Eh Ew El. apply (custody_frame s); [done..|]. by rewrite Ew, El. }
  destruct e; cbn [step].
  - unfold enter. destruct (calls s !! t) eqn:E; [done|]. intros [= <-]. by apply Hnew.
  - unfold enter. destruct (calls s !! t) eqn:E; [done|]. intros [= <-]. by apply Hnew.
  - intros [= <-]. unfold submit. destruct (stopFlag s); [done|].
    destruct (Publish (subj opts) bytes (client s)) as [err w] eqn:Ep. apply (custody_frame s); [done|by destruct s..|].
    intros data H. replace (logged _) with (logged s) by by destruct s. replace (client _) with w by by destruct s.
    eapply given_mono; [intros x; by eapply publish_keeps|done|exact H].
  - destruct (calls s !! t) as [p|] eqn:Et; [|done]. by apply custody_nats_call.
  - destruct (calls s !! t) as [[]|] eqn:Et; try done. intros [= <-].
    eapply (custody_move t (RequestDone (inl ErrNoTaskInQueue)) s); [done|naive_solver|done|by destruct s..].
  - unfold deliver. destruct (link s) eqn:El; try done; unfold offer_new; (destruct (offers (hand s) !! n) eqn:En; [done|]);
      intros [= <-].
    all: pose proof (custody_step n data Entering Entering (client s) (exited s) (logged s) s Hok (or_intror En) eq_refl
           ltac:(done) ltac:(done) ltac:(done) ltac:(done) ltac:(done)) as H; by destruct s.
  - unfold select, offer_select. destruct (offers (hand s) !! n) as [[m []]|] eqn:En; try done.
    destruct choice; (destruct (_ : bool); [|]); try done; intros [= <-].
    + pose proof (custody_step n m Entering Parked (client s) (exited s) (logged s) s Hok (or_introl En) eq_refl
           ltac:(done) ltac:(done) ltac:(done) ltac:(done) ltac:(done)) as H. by destruct s.
    + pose proof (custody_step n m Entering Stopping (client s) (exited s) (logged s) s Hok (or_introl En) eq_refl
           ltac:(done) ltac:(done) ltac:(done) ltac:(done) ltac:(done)) as H. by destruct s.
  - unfold republish, offer_end. destruct (offers (hand s) !! n) as [[m []]|] eqn:En; try done.
    destruct (Publish (subj opts) m (client s)) as [err w] eqn:Ep. intros [= <-].
    pose proof (fun x => publish_keeps _ _ _ _ _ x Ep) as Hp. apply Publish_law in Ep as Ha.
    assert (Hin : (subj opts, m, err) ∈ publications w) by (rewrite Ha, elem_of_app; right; by apply list_elem_of_singleton).
    pose proof (custody_step n m Stopping Withdrawn w true (if is_nil err then logged s else logged s ++ [m]) s Hok
                  (or_introl En) eq_refl ltac:(done) ltac:(done) Hp) as H.
    assert (custody_ok (mkNats w (link s) (stopFlag s) (stopOnce s) true (closed s) (set_offer n m Withdrawn (hand s))
              (if is_nil err then logged s else logged s ++ [m]) (calls s))); [|by destruct s].
    apply H.
    + intros y Hy. destruct (is_nil err); [done|]. rewrite elem_of_app. auto.
    + intros _. destruct (is_nil err) eqn:Ee.
      * left. by apply is_nil_iff in Ee as ->.
      * right. split; [rewrite elem_of_app; right; by apply list_elem_of_singleton|]. exists err. split; [by intros ->|done].
  - unfold take. destruct (calls s !! t) as [[]|] eqn:Et; try done.
    destruct (offer_take t n (hand s)) as [h|] eqn:E; [|done]. intros [= <-]. destruct Hok as [H1 H2 H3 H4].
    pose proof (custody_take _ _ _ _ _ _ _ n _ (RequestGot n) H1 Et eq_refl eq_refl eq_refl E) as H1'.
    unfold offer_take in E. destruct (offers (hand s) !! n) as [[m p]|] eqn:En; [|done].
    destruct (undecided p) eqn:Eu; [|done]. destruct (negb _); [|done]. injection E as <-.
    destruct s; simpl in *. split; simpl; [done|..].
    + intros u i x. rewrite lookup_insert_Some. intros [[_ ?]|[_ Hu]]; [done|].
      destruct (H2 _ _ _ Hu) as (data & Hd & He). exists data. rewrite lookup_insert_ne; [done|].
      intros <-. rewrite En in Hd. injection Hd as -> ->. done.
    + intros i j. rewrite lookup_insert_Some. intros [[_ ?]|[_ Hi]]; [done|]. by apply (H3 i).
    + intros i j. rewrite lookup_insert_Some. intros [[_ ?]|[_ Hi]]; [done|by eapply H4].
  - destruct (existsb _ _); [done|]. unfold shut. destruct (link s); try done; intros [= <-]; apply Hsame; by destruct s.
  - unfold shut. destruct (link s); try done; intros [= <-]; apply Hsame; by destruct s.
  - destruct (link s); try done. destruct (closed s); [done|]. intros [= <-]. apply Hsame; by destruct s.
Qed.

Lemma custody_nats_run es s s' : custody_ok s -> run order unmarshal opts es s = Some (Ret s') -> custody_ok s'.
Proof.
  revert s. induction es as [|e es IH]; intros s Hok; simpl; [by intros [= <-]|].
  destruct (step _ _ _ e s) as [[s1|]|] eqn:E; try done. apply IH. by eapply custody_nats_step.
Qed.

(** ** How often a message is given back *)

Lemma times_publish t d data w err w' :
  Publish t d w = (err, w') -> times data w' = (times data w + Nat.b2n (d == data))%nat.
Proof. unfold times. intros ->%Publish_law. rewrite List.filter_app, length_app. simpl. by destruct (d == data). Qed.

(** A step gives a message back as often as it withdraws a handler of it. *)
Definition balanced (data : string) s s' : Prop :=
  (times data (client s') + tally (withdrawn data) (offers (hand s)) =
   times data (client s) + tally (withdrawn data) (offers (hand s')))%nat.

Lemma nats_balanced_same data s s' : client s' = client s -> hand s' = hand s -> balanced data s s'.
Proof. unfold balanced. by intros -> ->. Qed.

Lemma nats_balanced_offer data n m p p' s s' :
  client s' = client s -> hand s' = set_offer n m p' (hand s) -> p' <> Withdrawn ->
  offers (hand s) !! n = Some (m, p) /\ running p = true \/ offers (hand s) !! n = None -> balanced data s s'.
Proof.
  unfold balanced, set_offer. intros -> -> Hp' [[Hn Hr]|Hn]; simpl.
  - pose proof (tally_set (withdrawn data) _ _ _ (m, p') Hn) as H. assert (withdrawn data (m, p') = 0%nat) by by destruct p'.
    assert (withdrawn data (m, p) = 0%nat) by by destruct p. lia.
  - rewrite tally_new by done. assert (withdrawn data (m, p') = 0%nat) as -> by by destruct p'. lia.
Qed.

Lemma nats_balanced_call data t answer p s s' :
  call_step order unmarshal t answer p s = Some (Ret s') -> balanced data s s'.
Proof.
  destruct p; simpl; try done.
  - destruct (tasks_closed _); [|done]. intros [= <-]. by apply nats_balanced_same; destruct s.
  - unfold receive. destruct (offers (hand s) !! n) as [[m ?]|]; [|done]. intros [= <-]. by apply nats_balanced_same; destruct s.
  - intros [= <-]. unfold swap. destruct (stopFlag s); by apply nats_balanced_same; destruct s.
  - unfold stop, close_stop. destruct (stopOnce s); [intros [= <-]; by apply nats_balanced_same; destruct s|].
    destruct (stopped (hand s)); [done|]. intros [= <-]. unfold balanced. destruct s; simpl.
    rewrite tally_fmap; [done|]. by intros [? []].
  - intros [= <-]. unfold drain. by apply nats_balanced_same; destruct s as [? [] ? ? ? ? ? ? ?].
  - destruct (closed s); [|done]. intros [= <-]. by apply nats_balanced_same; destruct s.
  - unfold close, close_tasks. destruct (tasks_closed _); [done|]. destruct (existsb _ _); [done|]. intros [= <-].
    unfold balanced. by destruct s.
Qed.

Lemma nats_balanced_step data e s s' :
  e <> Submit data -> step order unmarshal opts e s = Some (Ret s') -> balanced data s s'.
Proof.
  intros He. destruct e; cbn [step].
  - unfold enter. destruct (calls s !! t); [done|]. intros [= <-]. by apply nats_balanced_same; destruct s.
  - unfold enter. destruct (calls s !! t); [done|]. intros [= <-]. by apply nats_balanced_same; destruct s.
  - intros [= <-]. unfold submit. destruct (stopFlag s); [done|].
    destruct (Publish (subj opts) bytes (client s)) as [err w] eqn:Ep. apply (times_publish _ _ data) in Ep.
    assert ((bytes == data) = false) as Hb by (apply String.eqb_neq; congruence).
    unfold balanced. destruct s; simpl in *. rewrite Ep, Hb. simpl. lia.
  - destruct (calls s !! t) as [p|]; [|done]. apply nats_balanced_call.
  - destruct (calls s !! t) as [[]|]; try done. intros [= <-]. by apply nats_balanced_same; destruct s.
  - unfold deliver, offer_new. destruct (link s); try done; (destruct (offers (hand s) !! n) eqn:En; [done|]); intros [= <-].
    all: eapply (nats_balanced_offer data n data0 Entering Entering); [by destruct s|by destruct s|done|by right].
  - unfold select, offer_select. destruct (offers (hand s) !! n) as [[m []]|] eqn:En; try done.
    destruct choice; (destruct (_ : bool); [|]); try done; intros [= <-].
    + eapply (nats_balanced_offer data n m Entering Parked); [by destruct s|by destruct s|done|by left].
    + eapply (nats_balanced_offer data n m Entering Stopping); [by destruct s|by destruct s|done|by left].
  - unfold republish, offer_end. destruct (offers (hand s) !! n) as [[m []]|] eqn:En; try done.
    destruct (Publish (subj opts) m (client s)) as [err w] eqn:Ep. intros [= <-]. apply (times_publish _ _ data) in Ep.
    pose proof (tally_set (withdrawn data) _ _ _ (m, Withdrawn) En) as Ht. unfold balanced. destruct s; simpl in *. lia.
  - unfold take, offer_take. destruct (calls s !! t) as [[]|]; try done.
    destruct (offers (hand s) !! n) as [[m p]|] eqn:En; [|done]. destruct (undecided p) eqn:Eu; [|done].
    destruct (negb _); [|done]. intros [= <-].
    eapply (nats_balanced_offer data n m p (Taken t)); [by destruct s|by destruct s|done|left]. split; [done|by destruct p].
  - destruct (existsb _ _); [done|]. unfold shut. destruct (link s); try done; intros [= <-]; by apply nats_balanced_same; destruct s.
  - unfold shut. destruct (link s); try done; intros [= <-]; by apply nats_balanced_same; destruct s.
  - destruct (link s); try done. destruct (closed s); [done|]. intros [= <-]. by apply nats_balanced_same; destruct s.
Qed.

Lemma nats_balanced_run data es s s' :
  Submit data ∉ es -> run order unmarshal opts es s = Some (Ret s') -> balanced data s s'.
Proof.
  revert s. induction es as [|e es IH]; intros s Hn; simpl; [intros [= <-]; by apply nats_balanced_same|].
  rewrite not_elem_of_cons in Hn. destruct Hn as [He Hn].
  destruct (step _ _ _ e s) as [[s1|]|] eqn:E; try done. intros Hr.
  apply (nats_balanced_step data) in E; [|by intros ->]. specialize (IH s1 Hn Hr). unfold balanced in *. lia.
Qed.

(** * Theorems *)

(** C18: As long as the connection closes only when no handler runs, nothing panics in the
    Core NATS worker, whatever the interleaving of requests, submissions, shutdowns and
    handlers: no channel is closed twice and nothing is sent on a closed one. One shutdown
    at most succeeds, and when it has, the connection is closed and was reported closed,
    tasks are closed and no handler runs. *)
Theorem nats_intake_safe w es r :
  forallb orderly es = true -> run order unmarshal opts es (initial w) = Some r ->
  exists s, r = Ret s /\
    (forall t t', calls s !! t = Some (ShutdownDone ErrNil) -> calls s !! t' = Some (ShutdownDone ErrNil) -> t = t') /\
    forall t, calls s !! t = Some (ShutdownDone ErrNil) ->
      link s = Shut /\ closed s = true /\ tasks_closed (hand s) = true /\ quiet (hand s).
Proof.
  intros Ho Hr. destruct (nats_run _ _ _ (nats_initial w) Ho Hr) as (s & -> & Hok). exists s. split; [done|].
  split; [intros t t' Ht Ht'; by eapply (no_sole _ Hok)|].
  intros t Ht. destruct (no_phase _ Hok _ _ Ht eq_refl) as (_ & Hc & Hcl). specialize (Hcl eq_refl).
  pose proof (no_shut _ Hok Hcl) as Hl. split_and!; [done..|by apply Hok].
Qed.

(** C17: The Core NATS worker hands over each message once. In every state it reaches, whatever
    becomes of the connection, a handler has returned only because one request received
    its message, or after it gave the message to the client to be published on its subject
    again, and what the client refused was logged. It gives back each message once: the
    client is asked to publish a message that the application does not submit exactly as
    often as a handler of it was stopped. Whether the server gets what the client accepted
    is not known to Core NATS, nor to the worker. A request receives one message at most,
    and returns its decoding, or fails because it cannot be decoded. *)
Theorem nats_hands_over_once w es s :
  run order unmarshal opts es (initial w) = Some (Ret s) ->
  (forall n data p, offers (hand s) !! n = Some (data, p) ->
     match p with
     | Taken t => exists pc, calls s !! t = Some pc /\
         (pc = RequestGot n \/
          (exists message, pc = RequestDone (inr (n, message)) /\
             DecodeE order unmarshal data DefaultMaxMessageBytes = inr message) \/
          (exists err, pc = RequestDone (inl err)) /\ undecodable data)
     | Withdrawn => given_back (client s) (logged s) data
     | Discarded => False
     | Entering | Parked | Stopping => True
     end) /\
  (forall data, Submit data ∉ es ->
     times data (client s) = (times data w + tally (withdrawn data) (offers (hand s)))%nat) /\
  (forall n n' m m' t, offers (hand s) !! n = Some (m, Taken t) -> offers (hand s) !! n' = Some (m', Taken t) -> n = n') /\
  (forall t n message, calls s !! t = Some (RequestDone (inr (n, message))) ->
     exists data, offers (hand s) !! n = Some (data, Taken t)).
Proof.
  intros Hr. pose proof (custody_nats_run _ _ _ (custody_initial w) Hr) as [[H1 H2 H3] H4 H5 H6]. split_and!; [| |done|].
  - intros n data [| | |t| |] Hn; try done; [|by apply H5 in Hn|by apply H6 in Hn].
    destruct (H1 _ _ _ Hn) as (pc & Hpc & Ho & Hc). exists pc. split; [done|]. destruct pc; try done; simpl in Hc.
    + destruct Hc as [[= ->]|[? _]]; [by left|done].
    + destruct result as [err|[i message]]; simpl in Hc.
      * destruct Hc as [?|[_ Ha]]; [done|]. right. right. split; [by eexists|done].
      * destruct Hc as [[= ->]|[? _]]; [|done]. right. left. exists message. split; [done|].
        destruct (H4 _ _ _ Hpc) as (data' & Hd & He). rewrite Hn in Hd. by injection Hd as ->.
  - intros data Hs. apply (nats_balanced_run data) in Hr; [|done]. unfold balanced in Hr. simpl in Hr.
    unfold tally at 1 in Hr. rewrite map_fold_empty in Hr. lia.
  - intros t n message Ht. destruct (H4 _ _ _ Ht) as (data & Hd & _). by exists data.
Qed.

(** Without that condition it can panic: [Drain] of a connection that is reconnecting closes
    it at once, so that the shutdown closes tasks while a handler has not come to its
    select yet, which then finds both of its channels closed. *)
Theorem nats_late_handler_panics (w : W) (data : string) (err : error) :
  err <> ErrNil ->
  run order unmarshal opts
    [Deliver 7 data; Shutdown 1; Step 1 ErrNil; Step 1 ErrNil; Step 1 err; ClosedHandler; Step 1 ErrNil;
     Step 1 ErrNil; Select 7 ToSend] (initial w) = Some (Panic "send on closed channel").
Proof. intros He. destruct err; try done; vm_compute; reflexivity. Qed.
End safety.

(** * A connection *)

Module SampleNats.
(** A client that remembers its publications and buffers nothing: it refuses them when it
    is [down]. *)
Record world := mkWorld { down : bool; history : list (string * string * error) }.

Definition publish (t data : string) (w : world) : error * world :=
  let err := if down w then Leaf "not connected" else ErrNil in
  (err, mkWorld (down w) (history w ++ [(t, data, err)])).

#[export] Instance sample_conn : natsClient world := {|
  Connect _ _ _ w := (ErrNil, w);
  QueueSubscribe _ _ w := (ErrNil, w);
  Publish := publish;
  Close w := (tt, w)
|}.

#[export] Instance sample_history : NatsHistory world.
Proof. refine {| publications := history |}. by intros t data w err w' [= <- <-]. Defined.

Definition idle : world := mkWorld false [].

Definition unmarshal (_ : string) : error + Message := inl (Leaf "not JSON").
Definition opts : options := newOptions [WithSubj "jobs"].

(** One message goes to a request, one waits when the worker is shut down. *)
Definition events : list event :=
  [Request 0; Deliver 7 "a"; Select 7 ToPark; Take 0 7; Step 0 ErrNil; Deliver 8 "b"; Select 8 ToPark;
   Shutdown 1; Step 1 ErrNil; Step 1 ErrNil; Step 1 ErrNil; Republish 8; Drained; ClosedHandler; Step 1 ErrNil; Step 1 ErrNil].

Lemma sample_run : exists s, run reverse unmarshal opts events (initial idle) = Some (Ret s) /\
  offers (hand s) !! 7%nat = Some ("a", Taken 0) /\ offers (hand s) !! 8%nat = Some ("b", Withdrawn) /\
  calls s !! 1%nat = Some (ShutdownDone ErrNil).
Proof.
  assert (Hsum : match run reverse unmarshal opts events (initial idle) with
    | Some (Ret s) => Some (offers (hand s) !! 7%nat, offers (hand s) !! 8%nat, calls s !! 1%nat)
    | _ => None
    end = Some (Some ("a", Taken 0), Some ("b", Withdrawn), Some (ShutdownDone ErrNil))) by (vm_compute; reflexivity).
  destruct (run reverse unmarshal opts events (initial idle)) as [[s|]|]; try discriminate Hsum.
  exists s. injection Hsum as H1 H2 H3. auto.
Qed.
End SampleNats.
Import SampleNats.

Lemma nats_intake_safe_witness :
  exists s, run reverse unmarshal opts events (initial idle) = Some (Ret s) /\
    calls s !! 1%nat = Some (ShutdownDone ErrNil) /\ tasks_closed (hand s) = true /\ quiet (hand s).
Proof.
  destruct sample_run as (s & E & _ & _ & Ht).
  destruct (nats_intake_safe _ _ _ _ _ _ (eq_refl : forallb orderly events = true) E) as (s1 & [= <-] & _ & Hs).
  destruct (Hs 1%nat Ht) as (_ & _ & H1 & H2). exists s. split; [exact E|]. split; [exact Ht|]. split; [exact H1|exact H2].
Defined.

Lemma nats_hands_over_once_witness :
  exists s, run reverse unmarshal opts events (initial idle) = Some (Ret s) /\
    given_back opts (client s) (logged s) "b" /\
    times "b" (client s) = (times "b" idle + tally (withdrawn "b") (offers (hand s)))%nat /\
    exists pc, calls s !! 0%nat = Some pc /\
      (pc = RequestGot 7 \/
       (exists message, pc = RequestDone (inr (7%nat, message)) /\
          DecodeE reverse unmarshal "a" DefaultMaxMessageBytes = inr message) \/
       (exists err, pc = RequestDone (inl err)) /\ undecodable reverse unmarshal "a").
Proof.
  destruct sample_run as (s & E & H7 & H8 & _).
  destruct (nats_hands_over_once _ _ _ _ _ _ E) as (H & Ht & _ & _).
  exists s. split; [exact E|]. split; [exact (H _ _ _ H8)|]. split; [|exact (H _ _ _ H7)].
  apply Ht. unfold events. rewrite !not_elem_of_cons. repeat (split; [discriminate|]). apply not_elem_of_nil.
Defined.

Lemma nats_late_handler_panics_witness :
  run reverse unmarshal opts
    [Deliver 7 "a"; Shutdown 1; Step 1 ErrNil; Step 1 ErrNil; Step 1 (Leaf "reconnecting"); ClosedHandler; Step 1 ErrNil;
     Step 1 ErrNil; Select 7 ToSend] (initial idle) = Some (Panic "send on closed channel").
Proof. exact (nats_late_handler_panics reverse unmarshal opts idle "a" (Leaf "reconnecting") ltac:(discriminate)). Defined.
