(* ===== verification/PubSub.v ===== *)
(** The Redis Pub/Sub worker (redisdb/): options, construction with its sentinel probe,
    submission, requests and shutdown, over the client library. *)

From S2P Require Import Prelude GoStd Sentinels Contract Control Failure Job Status Codec Records Stream Server Scripts Valkey ValkeyOptions RedisOptions Redis.

(** * Options *)

(** The logger only writes, and so does the debug mode. *)
Record options := mkOptions {
  P_runFunc : Message -> go error;
  P_addr : string;
  P_db : Z;
  P_connectionString : string;
  P_username : string;
  P_password : string;
  P_channelName : string;
  P_channelSize : Z;
  P_cluster : bool;
  P_sentinel : bool;
  P_masterName : string;
  P_tls : option tlsConfig;
  P_debug : bool;
  P_requestTimeout : Z;
  P_connectTimeout : Z
}.

(** The functions of the package that return an [Option]. *)
Inductive Option :=
| WithAddr (addr : string)
| WithDB (db : Z)
| WithCluster
| WithSentinel
| WithTLS
| WithSkipTLSVerify
| WithMasterName (masterName : string)
| WithChannelSize (size : Z)
| WithUsername (username : string)
| WithPassword (passwd : string)
| WithConnectionString (connectionString : string)
| WithChannel (channel : string)
| WithRunFunc (fn : Message -> go error)
| WithLogger
| WithDebug
| WithRequestTimeout (timeout : Z)
| WithConnectTimeout (timeout : Z).

Definition apply (option : Option) (w : options) : options :=
  match option with
  | WithAddr addr => w <| P_addr := addr |>
  | WithDB db => w <| P_db := db |>
  | WithCluster => w <| P_cluster := true |>
  | WithSentinel => w <| P_sentinel := true |>
  | WithTLS => w <| P_tls := Some (mkTls VersionTLS12 false) |>
  | WithSkipTLSVerify =>
      w <| P_tls := match P_tls w with
                    | None => Some (mkTls 0 true)
                    | Some tls => Some (mkTls (MinVersion tls) true)
                    end |>
  | WithMasterName masterName => w <| P_masterName := masterName |>
  | WithChannelSize size => w <| P_channelSize := size |>
  | WithUsername username => w <| P_username := username |>
  | WithPassword passwd => w <| P_password := passwd |>
  | WithConnectionString connectionString => w <| P_connectionString := connectionString |>
  | WithChannel channel => w <| P_channelName := channel |>
  | WithRunFunc fn => w <| P_runFunc := fn |>
  | WithLogger => w
  | WithDebug => w <| P_debug := true |>
  | WithRequestTimeout timeout => w <| P_requestTimeout := timeout |>
  | WithConnectTimeout timeout => w <| P_connectTimeout := timeout |>
  end.

Definition pubsub_defaults : options :=
  mkOptions (fun _ => Ret ErrNil) "" 0 "" "" "" "queue" 100 false false "" None false (6 * Second) (5 * Second).

Definition newOptions (opts : list Option) : options :=
  fold_left (fun w opt => apply opt w) opts pubsub_defaults.

(** * The client library *)

(** [redis.FailoverOptions], and [redis.Options] of a probe, as far as they are set. *)
Record failoverOptions := mkFailoverOptions {
  F_MasterName : string; SentinelAddrs : list string; F_Username : string; F_Password : string; F_DB : Z;
  F_TLS : option tlsConfig; F_DialTimeout : Z; F_DialerRetries : Z; F_MaxRetries : Z; F_ContextTimeoutEnabled : bool
}.

Record probeOptions := mkProbeOptions {
  B_Addr : string; B_Protocol : Z; B_TLS : option tlsConfig; B_DialTimeout : Z; B_DialerRetries : Z;
  B_ReadTimeout : Z; B_WriteTimeout : Z; B_MaxRetries : Z; B_ContextTimeoutEnabled : bool; B_DisableIdentity : bool
}.

(** What a new client is for. *)
Inductive target :=
| Failover (options : failoverOptions)
| Cluster (options : clusterOptions)
| Single (options : clientOptions)
| Sentinel (options : probeOptions).

(** The library; clients and subscriptions are handles. [ctx_Err] is [ctx.Err()] of the
    context with the connect timeout. *)
Class pubsubClient (W : Type) := {
  ParseURL : string -> error + clientOptions;
  NewClient : target -> io W nat;
  GetMasterAddrByName : nat -> string -> io W error;
  ctx_Err : io W error;
  Ping : nat -> io W error;
  Subscribe : nat -> string -> io W nat;
  Receive : nat -> io W error;
  Publish : nat -> string -> string -> io W error;
  Close : nat -> io W unit
}.

Section pubsub.
Context {W : Type} `{!pubsubClient W}.

Definition redisClientOptions (opts : options) : clientOptions :=
  mkClientOptions (P_addr opts) (P_username opts) (P_password opts) (P_db opts) (P_tls opts)
    (P_connectTimeout opts) 1 (-1) true.

Definition redisSentinelOptions (opts : options) : failoverOptions :=
  mkFailoverOptions (P_masterName opts) (Split "," (P_addr opts)) (P_username opts) (P_password opts) (P_db opts)
    (P_tls opts) (P_connectTimeout opts) 1 (-1) true.

Definition redisClusterOptions (opts : options) : clusterOptions :=
  mkClusterOptions (Split "," (P_addr opts)) (P_username opts) (P_password opts) (P_tls opts)
    (P_connectTimeout opts) 1 (-1) true.

(** * The sentinel probe *)

Definition redisSentinelAttemptTimeout (timeout : Z) (addressCount : nat) : Z :=
  Z.max (Z.quot timeout (Z.of_nat addressCount)) 1.

Definition redisSentinelProbeOptions (address : string) (tls : option tlsConfig) (timeout : Z) : probeOptions :=
  mkProbeOptions address 2 tls timeout 1 timeout timeout (-1) true true.

(** The loop over the addresses, with the failures so far. *)
Fixpoint probe_loop (masterName : string) (tls : option tlsConfig) (attemptTimeout : Z) (failures : list error)
    (addresses : list string) : io W error :=
  match addresses with
  | [] => mret (errors_Join failures)
  | address :: addresses =>
      client ← NewClient (Sentinel (redisSentinelProbeOptions address tls attemptTimeout));
      err ← GetMasterAddrByName client masterName;
      _ ← Close client;
      if is_nil err then mret ErrNil
      else
        expired ← ctx_Err;
        if negb (is_nil expired) then mret (errors_Join (failures ++ [err; expired]))
        else probe_loop masterName tls attemptTimeout (failures ++ [err]) addresses
  end.

Definition probeRedisSentinels (addresses : list string) (masterName : string) (tls : option tlsConfig) (timeout : Z)
    : io W error :=
  if (length addresses =? 0)%nat || (timeout <=? 0)%Z
  then mret (Leaf "redis Sentinel probe requires an address and timeout")
  else probe_loop masterName tls (redisSentinelAttemptTimeout timeout (length addresses)) [] addresses.

(** * Construction *)

(** A worker: its client, its subscription and the size of the channel it asks for. *)
Record Worker := mkPubSubWorker { W_opts : options; rdb : nat; pubsub : nat; channel_size : option Z }.

(** The options of a single client. *)
Definition client_options (opts : options) : error + clientOptions :=
  if P_connectionString opts != "" then
    match ParseURL (P_connectionString opts) with
    | inl err => inl (safe_Wrap "parse Redis connection string" err)
    | inr o => inr (o <| DialTimeout := P_connectTimeout opts |> <| DialerRetries := 1%Z |>
                      <| MaxRetries := (-1)%Z |> <| ContextTimeoutEnabled := true |>)
    end
  else inr (redisClientOptions opts).

Definition client_target (opts : options) (single : clientOptions) : target :=
  if P_sentinel opts then Failover (redisSentinelOptions opts)
  else if P_cluster opts then Cluster (redisClusterOptions opts)
  else Single single.

(** From the connected client to the worker. *)
Definition connect (opts : options) (single : clientOptions) : io W (error + Worker) :=
  rdb ← NewClient (client_target opts single);
  err ← Ping rdb;
  if negb (is_nil err) then _ ← Close rdb; mret (inl (Wrap "connect to Redis" err))
  else
    pubsub ← Subscribe rdb (P_channelName opts);
    err ← Receive pubsub;
    if negb (is_nil err)
    then _ ← Close pubsub; _ ← Close rdb; mret (inl (Wrap "subscribe to Redis channel" err))
    else mret (inr (mkPubSubWorker opts rdb pubsub
                      (if (1 <? P_channelSize opts)%Z then Some (P_channelSize opts) else None))).

Definition NewWorkerE (args : list Option) : io W (error + Worker) :=
  let opts := newOptions args in
  match client_options opts with
  | inl err => mret (inl err)
  | inr single =>
      if P_sentinel opts then
        err ← probeRedisSentinels (Split "," (P_addr opts)) (P_masterName opts) (P_tls opts) (P_connectTimeout opts);
        if negb (is_nil err) then mret (inl (safe_Wrap "connect to Redis Sentinel" err)) else connect opts single
      else connect opts single
  end.

Definition NewWorker (args : list Option) : io W (go Worker) :=
  r ← NewWorkerE args;
  mret match r with inl _ => Panic "NewWorker" | inr w => Ret w end.

(** * Calls *)

Context (order : list (string * string) -> list (string * string)).
Context (unmarshal : string -> error + Message).
Context (w : Worker).

(** The fields that change: the flag and the closed channel [stop]. *)
Record state := mkState { client : W; stopFlag : bool; stopped : bool }.

(** What the select of a request finds: a message, the closed channel, or its timer. *)
Inductive arrival := Arrived (payload : string) | ChannelClosed | TimerFired.

Definition Request (a : arrival) : error + Message :=
  match a with
  | Arrived payload =>
      match DecodeE order unmarshal payload DefaultMaxMessageBytes with
      | inl err => inl (Wrap "decode Redis Pub/Sub message" err)
      | inr data => inr data
      end
  | ChannelClosed => inl ErrQueueHasBeenClosed
  | TimerFired => inl ErrNoTaskInQueue
  end.

Definition Queue (bytes : string) (s : state) : error * state :=
  if stopFlag s then (ErrQueueShutdown, s)
  else let '(err, c) := Publish (rdb w) (P_channelName (W_opts w)) bytes (client s) in
       (err, mkState c (stopFlag s) (stopped s)).

(** The call that wins the swap closes the subscription, the client and [stop]. *)
Definition Shutdown (s : state) : go (error * state) :=
  if stopFlag s then Ret (ErrQueueShutdown, s)
  else
    let '(_, c) := Close (pubsub w) (client s) in
    let '(_, c) := Close (rdb w) c in
    if stopped s then Panic "close of closed channel" else Ret (ErrNil, mkState c true true).
End pubsub.
