(* ===== verification/PubSubSafety.v ===== *)
(** What construction and shutdown of the Redis Pub/Sub worker guarantee: the clients and
    subscriptions it opens are owned by a worker or closed again. *)

From S2P Require Import Prelude GoStd Sentinels Contract Control Failure Job Status Codec Records Stream Server Scripts Valkey ValkeyOptions RedisOptions Redis PubSub.

(** * What construction and shutdown guarantee *)

(** The clients and subscriptions that are open. *)
Class PubSubLaws (W : Type) `{!pubsubClient W} := {
  live : W -> gset nat;
  NewClient_law t w h w' : NewClient t w = (h, w') -> (h ∉ live w) /\ live w' = {[h]} ∪ live w;
  Subscribe_law c name w h w' : Subscribe c name w = (h, w') -> (h ∉ live w) /\ live w' = {[h]} ∪ live w;
  Close_law h w w' : Close h w = (tt, w') -> live w' = live w ∖ {[h]};
  GetMaster_law c name w err w' : GetMasterAddrByName c name w = (err, w') -> live w' = live w;
  ctx_Err_law w err w' : ctx_Err w = (err, w') -> live w' = live w;
  Ping_law c w err w' : Ping c w = (err, w') -> live w' = live w;
  Receive_law c w err w' : Receive c w = (err, w') -> live w' = live w;
  Publish_law c t b w err w' : Publish c t b w = (err, w') -> live w' = live w
}.

(** The time of all attempts is within the timeout, which has a nanosecond for each. *)
Lemma attempts_within timeout n :
  (0 < n)%nat -> (Z.of_nat n <= timeout)%Z -> (Z.of_nat n * redisSentinelAttemptTimeout timeout n <= timeout)%Z.
Proof.
  intros Hn Ht. unfold redisSentinelAttemptTimeout. rewrite Z.quot_div_nonneg by lia.
  pose proof (Z.mul_div_le timeout (Z.of_nat n)). assert (1 <= timeout / Z.of_nat n)%Z by (apply Z.div_le_lower_bound; lia). lia.
Qed.

Lemma join_last es e : e <> ErrNil -> errors_Join (es ++ [e]) <> ErrNil.
Proof.
  intros He. unfold errors_Join. rewrite List.filter_app. simpl. destruct e; try done; simpl;
    destruct (List.filter _ es); done.
Qed.

Section construction.
Context {W : Type} `{PC : !pubsubClient W, PL : !PubSubLaws W}.

(** The server of an address gave the address of the master. *)
Definition sentinel_answered (masterName : string) (tls : option tlsConfig) (timeout : Z) (address : string) : Prop :=
  exists c w1 w2 w3, NewClient (Sentinel (redisSentinelProbeOptions address tls timeout)) w1 = (c, w2) /\
    GetMasterAddrByName c masterName w2 = (ErrNil, w3).

Lemma open_close (t : target) (w1 w2 w3 w4 : W) c :
  NewClient t w1 = (c, w2) -> live w3 = live w2 -> Close c w3 = (tt, w4) -> live w4 = live w1.
Proof. intros [H1 H2]%NewClient_law H3 H4%Close_law. rewrite H4, H3, H2. set_solver. Qed.

(** The probe leaves no client open, and succeeds only when a sentinel answered. *)
Lemma probe_loop_spec masterName tls timeout addresses failures w err w' :
  probe_loop masterName tls timeout failures addresses w = (err, w') ->
  (failures = [] -> addresses <> []) -> (failures <> [] -> errors_Join failures <> ErrNil) ->
  live w' = live w /\ (err = ErrNil -> exists address, address ∈ addresses /\ sentinel_answered masterName tls timeout address).
Proof.
  revert failures w. induction addresses as [|address addresses IH]; intros failures w E Hne Hj; simpl in E.
  - injection E as <- <-. split; [done|]. intros He. destruct failures as [|e es]; [by specialize (Hne eq_refl)|].
    by apply (Hj ltac:(done)) in He.
  - apply io_bind_inv in E as (c & w1 & E1 & E). apply io_bind_inv in E as (e & w2 & E2 & E).
    apply io_bind_inv in E as ([] & w3 & E3 & E).
    pose proof (open_close _ _ _ _ _ _ E1 (GetMaster_law _ _ _ _ _ E2) E3) as Hl.
    destruct (is_nil e) eqn:Ee.
    + injection E as <- <-. split; [done|]. intros _. exists address. split; [by left|].
      apply is_nil_iff in Ee as ->. by exists c, w, w1, w2.
    + apply io_bind_inv in E as (x & w4 & E4 & E). apply ctx_Err_law in E4.
      assert (He : e <> ErrNil) by (intros ->; done).
      destruct (is_nil x) eqn:Ex; simpl in E.
      * destruct (IH _ _ E) as [H1 H2].
        { by destruct failures. }
        { intros _. by apply join_last. }
        split; [congruence|]. intros H. destruct (H2 H) as (a & Ha & Hs). exists a. split; [by right|done].
      * injection E as <- <-. split; [congruence|]. intros H. exfalso. revert H.
        replace (failures ++ [e; x]) with ((failures ++ [e]) ++ [x]) by by rewrite <- app_assoc.
        apply join_last. by intros ->.
Qed.

Lemma probe_spec addresses masterName tls timeout w err w' :
  probeRedisSentinels addresses masterName tls timeout w = (err, w') ->
  live w' = live w /\
  (err = ErrNil -> exists address, address ∈ addresses /\
     sentinel_answered masterName tls (redisSentinelAttemptTimeout timeout (length addresses)) address).
Proof.
  unfold probeRedisSentinels. destruct (_ || _) eqn:E; [by intros [= <- <-]|].
  intros Hp. apply (probe_loop_spec _ _ _ _ [] _ _ _ Hp); [|done]. intros _ ->. done.
Qed.

(** A constructed worker owns a client that answered and a subscription that was
    acknowledged; a failed construction leaves nothing open. *)
Definition owns (w0 w : W) (r : error + Worker) : Prop :=
  match r with
  | inl _ => live w = live w0
  | inr worker => (rdb worker ∉ live w0) /\ (pubsub worker ∉ live w0) /\ pubsub worker <> rdb worker /\
      live w = {[rdb worker; pubsub worker]} ∪ live w0
  end.

Lemma connect_owns opts single w r w' : connect opts single w = (r, w') -> owns w w' r.
Proof.
  unfold connect. intros (c & w1 & E1 & E)%io_bind_inv. apply io_bind_inv in E as (err & w2 & E2 & E).
  pose proof (Ping_law _ _ _ _ E2) as H2. destruct (is_nil err); simpl in E.
  - apply io_bind_inv in E as (p & w3 & E3 & E). apply io_bind_inv in E as (err' & w4 & E4 & E).
    pose proof (Receive_law _ _ _ _ E4) as H4. apply NewClient_law in E1 as [H1 H1']. apply Subscribe_law in E3 as [H3 H3'].
    destruct (is_nil err'); simpl in E.
    + injection E as <- <-. simpl. rewrite H2, H1' in *. split_and!; set_solver.
    + apply io_bind_inv in E as ([] & w5 & E5 & E). apply io_bind_inv in E as ([] & w6 & E6 & [= <- <-]).
      apply Close_law in E5, E6. simpl. rewrite E6, E5, H4, H3', H2, H1'. rewrite H2, H1' in H3. set_solver.
  - apply io_bind_inv in E as ([] & w3 & E3 & [= <- <-]). simpl. by eapply open_close.
Qed.

(** C19: The Redis Pub/Sub worker owns what it opens. A constructor that fails leaves no client
    and no subscription open, also not one of the sentinel probe; one that succeeds owns one
    client and one subscription, and with sentinels it needs an answer from one of the
    configured addresses. The first shutdown closes both and nothing else; later ones are
    refused and change nothing, and so is a submission. *)
Theorem pubsub_owns_resources args w r w' :
  NewWorkerE args w = (r, w') ->
  owns w w' r /\
  (forall worker, r = inr worker ->
     (P_sentinel (newOptions args) = true -> exists address, address ∈ Split "," (P_addr (newOptions args)) /\
        sentinel_answered (P_masterName (newOptions args)) (P_tls (newOptions args))
          (redisSentinelAttemptTimeout (P_connectTimeout (newOptions args)) (length (Split "," (P_addr (newOptions args)))))
          address) /\
     exists c, Shutdown worker (mkState w' false false) = Ret (ErrNil, mkState c true true) /\ live c = live w /\
       Shutdown worker (mkState c true true) = Ret (ErrQueueShutdown, mkState c true true) /\
       forall bytes, Queue worker bytes (mkState c true true) = (ErrQueueShutdown, mkState c true true)).
Proof.
  unfold NewWorkerE. cbv zeta. set (o := newOptions args). destruct (client_options o) as [err|single].
  { intros [= <- <-]. done. }
  intros E. assert (Hown : owns w w' r /\ (forall worker, r = inr worker -> P_sentinel o = true -> exists address,
    address ∈ Split "," (P_addr o) /\ sentinel_answered (P_masterName o) (P_tls o)
      (redisSentinelAttemptTimeout (P_connectTimeout o) (length (Split "," (P_addr o)))) address)).
  { destruct (P_sentinel o) eqn:Es; [|split; [by eapply connect_owns|done]].
    apply io_bind_inv in E as (err & w1 & E1 & E2). destruct (probe_spec _ _ _ _ _ _ _ E1) as [Hl Ha].
    destruct (is_nil err) eqn:En; simpl in E2.
    - apply is_nil_iff in En. split; [|intros; by apply Ha]. apply connect_owns in E2. unfold owns in *. by rewrite <- Hl.
    - injection E2 as <- <-. by split. }
  destruct Hown as [Ho Hs]. split; [done|]. intros worker ->. split; [by apply (Hs worker)|].
  destruct Ho as (H1 & H2 & H3 & H4). unfold Shutdown. simpl.
  destruct (Close (pubsub worker) w') as [[] w1] eqn:E1. destruct (Close (rdb worker) w1) as [[] w2] eqn:E2.
  apply Close_law in E1, E2. exists w2. split; [done|]. split; [rewrite E2, E1, H4; set_solver|done].
Qed.
End construction.

(** * A library *)

Module SamplePubSub.
(** The world is the set of open handles; every server answers. *)
#[export] Instance sample_library : pubsubClient (gset nat) := {|
  ParseURL _ := inl (Leaf "invalid URL");
  NewClient _ w := (fresh w, {[fresh w]} ∪ w);
  GetMasterAddrByName _ _ w := (ErrNil, w);
  ctx_Err w := (ErrNil, w);
  Ping _ w := (ErrNil, w);
  Subscribe _ _ w := (fresh w, {[fresh w]} ∪ w);
  Receive _ w := (ErrNil, w);
  Publish _ _ _ w := (ErrNil, w);
  Close h w := (tt, w ∖ {[h]})
|}.

#[export] Instance sample_laws : PubSubLaws (gset nat).
Proof.
  refine {| live := fun w => w |}; try by intros; simplify_eq/=.
  - intros t w h w' [= <- <-]. split; [apply is_fresh|done].
  - intros c name w h w' [= <- <-]. split; [apply is_fresh|done].
Defined.

Definition args : list Option := [WithSentinel; WithAddr "one:26379,two:26379"; WithMasterName "main"].

Definition made : (error + Worker) * gset nat := NewWorkerE args (∅ : gset nat).
End SamplePubSub.
Import SamplePubSub.

(** A worker behind two sentinels is made and shut down: nothing stays open. *)
Lemma pubsub_owns_resources_witness :
  exists worker w c, NewWorkerE args (∅ : gset nat) = (inr worker, w) /\ live w = {[rdb worker; pubsub worker]} /\
    Shutdown worker (mkState w false false) = Ret (ErrNil, mkState c true true) /\ live c = ∅.
Proof.
  assert (Hok : match made.1 with inr _ => true | inl _ => false end = true) by (vm_compute; reflexivity).
  destruct (NewWorkerE args (∅ : gset nat)) as [r w] eqn:E. unfold made in Hok. rewrite E in Hok.
  destruct (pubsub_owns_resources args (∅ : gset nat) r w E) as [Ho Hs].
  destruct r as [err|worker]; [discriminate Hok|]. destruct (Hs worker eq_refl) as (_ & c & Hd & Hl & _).
  exists worker, w, c. destruct Ho as (_ & _ & _ & Hw). split; [reflexivity|]. split; [|split; [exact Hd|exact Hl]].
  rewrite Hw. apply right_id_L. apply _.
Defined.
