(* ===== verification/Regexp.v ===== *)
(** Regular expressions as the regexp package reads them: the ways to match the front of a
    text, in the order of preference of the leftmost-first rule, with the text of each
    capturing group. The search is the relation [parses], in both directions. *)

From S2P Require Import Prelude.

(** * Expressions *)

Inductive regexp : Type :=
| Empty
| Class (p : ascii -> bool)
| Concat (a b : regexp)
| Alternate (a b : regexp)
| Star (a : regexp)
| Capture (n : nat) (a : regexp).

(** A character, and the operators [+] and [?], which prefer to take what they can. *)
Definition Literal (c : ascii) : regexp := Class (Ascii.eqb c).
Definition Plus (a : regexp) : regexp := Concat a (Star a).
Definition Quest (a : regexp) : regexp := Alternate a Empty.

(** The texts of the groups, in the order in which the groups end. *)
Definition captures : Type := list (nat * list ascii).

(** * The search *)

(** A way to match: the groups it sets and the text it leaves. *)
Definition way : Type := captures * list ascii.

Definition after (c : captures) (w : way) : way := (c ++ w.1, w.2).

(** A repetition takes another iteration first, and no iteration is empty: [fuel] is the
    length of the text. *)
Fixpoint repeat_ways (ways : list ascii -> list way) (fuel : nat) (s : list ascii) : list way :=
  match fuel with
  | O => [([], s)]
  | S fuel =>
      (ways s ≫= fun '(c, rest) =>
         if (length rest <? length s)%nat then after c <$> repeat_ways ways fuel rest else [])
      ++ [([], s)]
  end.

Fixpoint ways (r : regexp) (s : list ascii) : list way :=
  match r with
  | Empty => [([], s)]
  | Class p => match s with [] => [] | a :: s => if p a then [([], s)] else [] end
  | Concat a b => ways a s ≫= fun '(c, rest) => after c <$> ways b rest
  | Alternate a b => ways a s ++ ways b s
  | Star a => repeat_ways (ways a) (length s) s
  | Capture n a =>
      (fun '(c, rest) => (c ++ [(n, take (length s - length rest) s)], rest)) <$> ways a s
  end.

(** [FindStringSubmatch] of an expression between ^ and $: the preferred way that leaves
    nothing. *)
Definition FindStringSubmatch (r : regexp) (s : string) : option captures :=
  fst <$> head (List.filter (fun w : way => match w.2 with [] => true | _ => false end) (ways r (list_ascii_of_string s))).

Definition MatchString (r : regexp) (s : string) : bool :=
  match FindStringSubmatch r s with Some _ => true | None => false end.

(** A group is the last text it was set to, and empty when it was not set. *)
Definition group (c : captures) (n : nat) : string :=
  string_of_list_ascii (default [] (snd <$> last (List.filter (fun e => Nat.eqb e.1 n) c))).

(** * What an expression matches *)

Inductive parses : regexp -> list ascii -> captures -> Prop :=
| parses_Empty : parses Empty [] []
| parses_Class p a : p a = true -> parses (Class p) [a] []
| parses_Concat a b l1 l2 c1 c2 :
    parses a l1 c1 -> parses b l2 c2 -> parses (Concat a b) (l1 ++ l2) (c1 ++ c2)
| parses_left a b l c : parses a l c -> parses (Alternate a b) l c
| parses_right a b l c : parses b l c -> parses (Alternate a b) l c
| parses_stop a : parses (Star a) [] []
| parses_again a l1 l2 c1 c2 :
    l1 <> [] -> parses a l1 c1 -> parses (Star a) l2 c2 -> parses (Star a) (l1 ++ l2) (c1 ++ c2)
| parses_Capture n a l c : parses a l c -> parses (Capture n a) l (c ++ [(n, l)]).

Create HintDb regexp.
#[export] Hint Constructors parses : regexp.

(** A way of [r] on [s] takes a text that [r] parses. *)
Definition taken (r : regexp) (s : list ascii) (w : way) : Prop :=
  exists l, s = l ++ w.2 /\ parses r l w.1.

Lemma repeat_ways_sound a n s w :
  (forall s w, w ∈ ways a s -> taken a s w) -> w ∈ repeat_ways (ways a) n s -> taken (Star a) s w.
Proof.
  intros Ha. revert s w. induction n as [|n IH]; intros s w; simpl.
  { intros ->%list_elem_of_singleton. exists []. by split; [|constructor]. }
  intros [H| ->%list_elem_of_singleton]%elem_of_app; [|exists []; by split; [|constructor]].
  apply list_elem_of_bind in H as ([c rest] & H & (l & -> & Hl)%Ha). case_match eqn:E; [|by inv H].
  apply list_elem_of_fmap in H as ([c2 rest2] & -> & (l2 & Hl2 & Hp)%IH). simpl in *. subst rest.
  exists (l ++ l2). rewrite <- app_assoc. split; [done|]. constructor; [|done..]. intros ->. by apply Nat.ltb_lt in E; simpl in E; lia.
Qed.

Lemma ways_sound r s w : w ∈ ways r s -> taken r s w.
Proof.
  revert s w. induction r as [|p|a IHa b IHb|a IHa b IHb|a IHa|n a IHa]; intros s w; simpl.
  - intros ->%list_elem_of_singleton. exists []. by split; [|constructor].
  - destruct s as [|x s]; [by intros ?%elem_of_nil|]. destruct (p x) eqn:E; [|by intros ?%elem_of_nil].
    intros ->%list_elem_of_singleton. exists [x]. by split; [|constructor].
  - intros ([c rest] & H & (l & -> & Hl)%IHa)%list_elem_of_bind.
    apply list_elem_of_fmap in H as (w2 & -> & (l2 & E & Hp)%IHb). simpl in *. subst rest.
    exists (l ++ l2). rewrite <- app_assoc. split; [done|by constructor].
  - intros [(l & E & H)%IHa|(l & E & H)%IHb]%elem_of_app; exists l; eauto with regexp.
  - by apply repeat_ways_sound.
  - intros ([c rest] & -> & (l & -> & Hl)%IHa)%list_elem_of_fmap. exists l. split; [done|]. simpl in *.
    rewrite length_app, Nat.add_sub, take_app_length. eauto with regexp.
Qed.

Lemma repeat_ways_complete a l c :
  (forall l c rest, parses a l c -> (c, rest) ∈ ways a (l ++ rest)) ->
  parses (Star a) l c -> forall n rest, (length l <= n)%nat -> (c, rest) ∈ repeat_ways (ways a) n (l ++ rest).
Proof.
  intros Ha Hp. remember (Star a) as r eqn:Er.
  induction Hp as [| | | | | |a' l1 l2 c1 c2 Hne H1 _ H2 IH|]; simplify_eq; intros n rest Hn.
  { destruct n; simpl; [by left|]. apply elem_of_app. right. by left. }
  rewrite length_app in Hn. assert (0 < length l1)%nat by (destruct l1; simpl; [done|lia]).
  destruct n as [|n]; [lia|]. simpl. apply elem_of_app. left. rewrite <- app_assoc.
  apply list_elem_of_bind. exists (c1, l2 ++ rest). split; [|by apply Ha].
  rewrite (proj2 (Nat.ltb_lt _ _)) by (rewrite (length_app l1); lia).
  apply list_elem_of_fmap. exists (c2, rest). split; [done|]. apply IH; [done|lia].
Qed.

Lemma ways_complete r l c rest : parses r l c -> (c, rest) ∈ ways r (l ++ rest).
Proof.
  revert l c rest. induction r as [|p|a IHa b IHb|a IHa b IHb|a IHa|n a IHa]; intros l c rest H.
  - inv H. by left.
  - inv H. simpl. rewrite H1. by left.
  - inv H. simpl. rewrite <- app_assoc. apply list_elem_of_bind. exists (c1, l2 ++ rest). split; [|by apply IHa].
    apply list_elem_of_fmap. exists (c2, rest). split; [done|by apply IHb].
  - simpl. apply elem_of_app. inv H; [left|right]; auto.
  - simpl. apply repeat_ways_complete; [done..|]. rewrite length_app. lia.
  - inv H. simpl. apply list_elem_of_fmap. exists (c0, rest). split; [|by apply IHa].
    by rewrite length_app, Nat.add_sub, take_app_length.
Qed.

(** A submatch is a parse of the whole text, and there is one when the text has a parse. *)
Lemma find_sound r s c : FindStringSubmatch r s = Some c -> parses r (list_ascii_of_string s) c.
Proof.
  unfold FindStringSubmatch. intros ([c' rest] & H & ->)%fmap_Some.
  apply head_Some_elem_of, list_elem_of_In, filter_In in H as [(l & E & H)%list_elem_of_In%ways_sound Hr].
  destruct rest; [|done]. simpl in *. rewrite app_nil_r in E. by rewrite E.
Qed.

Lemma find_complete r s c : parses r (list_ascii_of_string s) c -> exists c', FindStringSubmatch r s = Some c'.
Proof.
  intros H. apply (ways_complete _ _ _ []) in H. rewrite app_nil_r in H. unfold FindStringSubmatch.
  destruct (List.filter _ _) as [|[c' rest] ws] eqn:E; [|by exists c'].
  exfalso. apply list_elem_of_In in H.
  pose proof (proj2 (filter_In (fun w : way => match w.2 with [] => true | _ => false end) _ _) (conj H eq_refl)) as Hin.
  rewrite E in Hin. done.
Qed.

Lemma match_iff r s : MatchString r s = true <-> exists c, parses r (list_ascii_of_string s) c.
Proof.
  unfold MatchString. split.
  - intros H. destruct (FindStringSubmatch r s) as [c|] eqn:E; [|done]. exists c. by apply find_sound.
  - intros [c [c' ->]%find_complete]. done.
Qed.

(** * The texts of each operator *)

Definition matched (r : regexp) (l : list ascii) : Prop := exists c, parses r l c.

Lemma matched_Class p l : matched (Class p) l <-> exists a, l = [a] /\ p a = true.
Proof. split; [intros [c H]; inv H; eauto|intros (a & -> & H); eexists; eauto with regexp]. Qed.

Lemma matched_Literal x l : matched (Literal x) l <-> l = [x].
Proof.
  unfold Literal. rewrite matched_Class. split.
  - by intros (a & -> & ->%Ascii.eqb_eq).
  - intros ->. exists x. by rewrite Ascii.eqb_refl.
Qed.

Lemma matched_Concat a b l : matched (Concat a b) l <-> exists l1 l2, l = l1 ++ l2 /\ matched a l1 /\ matched b l2.
Proof.
  split; [intros [c H]; inv H; unfold matched; eauto 7|]. intros (l1 & l2 & -> & [c1 H1] & [c2 H2]).
  eexists. eauto with regexp.
Qed.

Lemma matched_prefixed x r l : matched (Concat (Literal x) r) l <-> exists l2, l = x :: l2 /\ matched r l2.
Proof.
  rewrite matched_Concat. setoid_rewrite matched_Literal. split.
  - intros (? & l2 & -> & -> & H). by exists l2.
  - intros (l2 & -> & H). by exists [x], l2.
Qed.

Lemma matched_Alternate a b l : matched (Alternate a b) l <-> matched a l \/ matched b l.
Proof. split; [intros [c H]; inv H; unfold matched; eauto|intros [[c H]|[c H]]; eexists; eauto with regexp]. Qed.

Lemma matched_Quest a l : matched (Quest a) l <-> matched a l \/ l = [].
Proof.
  unfold Quest. rewrite matched_Alternate. apply or_iff_compat_l. split.
  - intros [c H]. by inv H.
  - intros ->. exists []. constructor.
Qed.

Lemma matched_Capture n a l : matched (Capture n a) l <-> matched a l.
Proof. split; [intros [c H]; inv H; by eexists|intros [c H]; eexists; eauto with regexp]. Qed.

Lemma matched_Star a l :
  matched (Star a) l <-> exists ls, l = mjoin ls /\ Forall (fun x => x <> [] /\ matched a x) ls.
Proof.
  split.
  - intros [c H]. remember (Star a) as r eqn:Er.
    induction H as [| | | | | |a' l1 l2 c1 c2 Hne H1 _ H2 IH|]; simplify_eq; [by exists []|].
    destruct (IH eq_refl) as (ls & -> & Hls). exists (l1 :: ls). split; [done|]. constructor; [|done]. split; [done|by exists c1].
  - intros (ls & -> & H). induction H as [|x ls [Hne [c1 Hx]] _ [c2 IH]]; [exists []; constructor|].
    exists (c1 ++ c2). by constructor.
Qed.

(** A repeated class sets no group. *)
Lemma parses_class_run p l c : parses (Star (Class p)) l c <-> c = [] /\ Forall p l.
Proof.
  split.
  - intros H. remember (Star (Class p)) as r eqn:Er.
    induction H as [| | | | | |a' l1 l2 c1 c2 Hne H1 _ H2 IH|]; simplify_eq; [done|].
    inv H1. destruct (IH eq_refl) as [-> Hl]. split; [done|]. constructor; [by apply Is_true_true|done].
  - intros [-> H]. induction H as [|x l Hx Hl IH]; [constructor|].
    apply (parses_again _ [x] l [] []); [done| |done]. constructor. by apply Is_true_true.
Qed.
