(* ===== verification/Semver.v ===== *)
(** The release helper: internal/semver/semver.go and cmd/semvercheck/main.go. Its patterns
    accept exactly the grammar of a semantic version, and its successor is the least later
    version of its kind, within the bounds of a machine integer. *)

From S2P Require Import Prelude GoStd Contract Codec Regexp.

(** * Patterns *)

Definition in_range (lo hi c : ascii) : bool :=
  (N_of_ascii lo <=? N_of_ascii c)%N && (N_of_ascii c <=? N_of_ascii hi)%N.

Definition is_digit (c : ascii) : bool := in_range "0" "9" c.
Definition is_positive (c : ascii) : bool := in_range "1" "9" c.
Definition is_letter (c : ascii) : bool := in_range "A" "Z" c || in_range "a" "z" c || Ascii.eqb "-" c.
Definition is_word (c : ascii) : bool := is_digit c || is_letter c.

(** 0|[1-9][0-9]* *)
Definition number : regexp :=
  Alternate (Literal "0") (Concat (Class is_positive) (Star (Class is_digit))).

(** 0|[1-9][0-9]*|[0-9]*[A-Za-z-][0-9A-Za-z-]* *)
Definition prerelease : regexp :=
  Alternate number
    (Concat (Star (Class is_digit)) (Concat (Class is_letter) (Star (Class is_word)))).

(** [0-9A-Za-z-]+ *)
Definition word : regexp := Plus (Class is_word).

Definition stableTagPattern : regexp :=
  Concat (Literal "v") (Concat (Capture 1 number) (Concat (Literal ".") (Concat (Capture 2 number)
    (Concat (Literal ".") (Capture 3 number))))).

Definition tagPattern : regexp :=
  Concat (Literal "v") (Concat (Capture 1 number) (Concat (Literal ".") (Concat (Capture 2 number)
    (Concat (Literal ".") (Concat (Capture 3 number)
    (Concat
      (Quest (Capture 4 (Concat (Literal "-")
        (Capture 5 (Concat (Capture 6 prerelease)
          (Star (Capture 7 (Concat (Literal ".") (Capture 8 prerelease)))))))))
      (Quest (Capture 9 (Concat (Literal "+")
        (Capture 10 (Concat word (Star (Capture 11 (Concat (Literal ".") word)))))))))))))).

(** * Tags *)

Definition ValidateTag (tag : string) : error :=
  if negb (MatchString tagPattern tag) then Leaf "tag must be a v-prefixed semantic version"
  else ErrNil.

(** The value of [strconv.Atoi] when its error is ignored: an integer out of range is the
    nearest one in range, anything else is 0. *)
Definition Atoi_value (s : string) : Z :=
  let l := list_ascii_of_string s in
  let '(neg, body) :=
    match l with
    | c :: rest => if Ascii.eqb c "-"%char then (true, rest)
                   else if Ascii.eqb c "+"%char then (false, rest) else (false, l)
    | [] => (false, l)
    end in
  match body with
  | [] => 0
  | _ =>
      match digits 0 body with
      | None => 0
      | Some v => if neg : bool then Z.max (- 2 ^ 63) (- v) else Z.min (2 ^ 63 - 1) v
      end
  end%Z.

(** fmt.Sprintf of v%d.%d.%d *)
Definition format (major minor patch : Z) : string :=
  "v" +:+ pretty major +:+ "." +:+ pretty minor +:+ "." +:+ pretty patch.

Definition NextStable (tag part : string) : error + string :=
  match FindStringSubmatch stableTagPattern tag with
  | None => inl (Leaf "current tag must be a stable semantic version")
  | Some matches =>
      let major := Atoi_value (group matches 1) in
      let minor := Atoi_value (group matches 2) in
      let patch := Atoi_value (group matches 3) in
      if part == "patch" then inr (format major minor (wrap_i64 (patch + 1)))
      else if part == "minor" then inr (format major (wrap_i64 (minor + 1)) 0)
      else if part == "major" then inr (format (wrap_i64 (major + 1)) 0 0)
      else inl (Leaf "release part must be patch, minor, or major")
  end.

(** * The command *)

(** What the command writes to the standard error. *)
Inductive complaint : Type :=
| CalculateNext (err : error)
| InvalidTag (tag : string) (err : error)
| Usage.

(** The exit status, the line on the standard output and the complaint. *)
Definition main (args : list string) : Z * option string * option complaint :=
  let validate tag :=
    let err := ValidateTag tag in
    if is_nil err then (0%Z, None, None) else (1%Z, None, Some (InvalidTag tag err)) in
  match args with
  | [_; command; part; tag] =>
      if command == "next"
      then match NextStable tag part with
           | inl err => (1%Z, None, Some (CalculateNext err))
           | inr next => (0%Z, Some next, None)
           end
      else (2%Z, None, Some Usage)
  | [_; tag] => validate tag
  | _ => (2%Z, None, Some Usage)
  end.
