(* ===== verification/SemverSafety.v ===== *)
(** The patterns of the release helper are the grammar of semantic versions, and the
    successor it computes is the least later version of its kind, as far as machine integers
    reach. *)

From S2P Require Import Prelude GoStd Contract Codec Regexp Semver.

(** * Decimal texts *)

Definition text (n : N) : list ascii := list_ascii_of_string (pretty n).

Lemma digit_char_classes n :
  (n < 10)%N -> is_digit (pretty_N_char n) = true /\ ((0 < n)%N -> is_positive (pretty_N_char n) = true).
Proof.
  intros Hn. assert (H : n ∈ N.of_nat <$> seq 0 10).
  { apply list_elem_of_fmap. exists (N.to_nat n). rewrite N2Nat.id, elem_of_seq. split; [done|lia]. }
  revert H. cbn. rewrite !elem_of_cons, elem_of_nil. intros H. repeat destruct H as [->|H]; done.
Qed.

Lemma digit_classes_char a :
  (is_digit a = true -> exists d, (d < 10)%N /\ a = pretty_N_char d) /\
  (is_positive a = true -> exists d, (0 < d < 10)%N /\ a = pretty_N_char d).
Proof.
  destruct a as [[] [] [] [] [] [] [] []]; vm_compute; split; intros [=];
    match goal with |- exists d, _ /\ ?a = _ => exists (N_of_ascii a - 48)%N; by vm_compute end.
Qed.

(** A positive number is printed as a positive digit and digits. *)
Lemma pretty_go_shape x s :
  (0 < x)%N -> exists a l, list_ascii_of_string (pretty_N_go x s) = a :: l ++ list_ascii_of_string s /\
    is_positive a = true /\ Forall is_digit l.
Proof.
  revert s. induction (N.lt_wf_0 x) as [x _ IH]. intros s Hx. rewrite pretty_N_go_step by lia.
  destruct (digit_char_classes (x mod 10)) as [Hd Hp]; [by apply N.mod_lt|].
  destruct (decide (x / 10 = 0)%N) as [E|E].
  - rewrite E, pretty_N_go_0. exists (pretty_N_char (x mod 10)), []. split; [done|]. split; [|done].
    apply Hp. pose proof (N.div_mod x 10). lia.
  - destruct (IH (x / 10)%N (N.div_lt x 10 Hx ltac:(lia)) (String (pretty_N_char (x mod 10)) s)) as (a & l & -> & Ha & Hl); [lia|].
    exists a, (l ++ [pretty_N_char (x mod 10)]). rewrite <- app_assoc. split; [done|]. split; [done|].
    apply Forall_app. split; [done|]. repeat constructor. by rewrite Hd.
Qed.

(** A positive digit and digits are the print of a positive number. *)
Lemma shape_pretty_go a l :
  is_positive a = true -> Forall is_digit l ->
  exists x, (0 < x)%N /\ forall s, list_ascii_of_string (pretty_N_go x s) = a :: l ++ list_ascii_of_string s.
Proof.
  intros Ha. induction l as [|b l IH] using rev_ind; intros Hl.
  - destruct (proj2 (digit_classes_char a) Ha) as (d & Hd & ->). exists d. split; [lia|]. intros s.
    rewrite pretty_N_go_step by lia. rewrite N.div_small, pretty_N_go_0, N.mod_small by lia. done.
  - apply Forall_app in Hl as [Hl Hb]. inv Hb as [|? ? Hb' _]. apply Is_true_true in Hb'.
    destruct (proj1 (digit_classes_char b) Hb') as (d & Hd & ->). destruct (IH Hl) as (x & Hx & Ex).
    exists (x * 10 + d)%N. split; [lia|]. intros s. rewrite pretty_N_go_step by lia.
    rewrite N.div_add_l, (N.div_small d), N.add_0_r by lia.
    rewrite (N.add_comm _ d), N.Div0.mod_add, N.mod_small by lia. rewrite Ex, <- app_assoc. done.
Qed.

Lemma text_pos n : (0 < n)%N -> exists a l, text n = a :: l /\ is_positive a = true /\ Forall is_digit l.
Proof.
  intros Hn. unfold text, pretty, pretty_N. rewrite decide_False by lia.
  destruct (pretty_go_shape n "" Hn) as (a & l & -> & Ha & Hl). exists a, l. by rewrite app_nil_r.
Qed.

Lemma text_shape a l : is_positive a = true -> Forall is_digit l -> exists n, a :: l = text n.
Proof.
  intros Ha Hl. destruct (shape_pretty_go a l Ha Hl) as (x & Hx & E). exists x.
  unfold text, pretty, pretty_N. rewrite decide_False by lia. by rewrite E, app_nil_r.
Qed.

Lemma positive_digit a : is_positive a = true -> is_digit a = true.
Proof. intros (d & Hd & ->)%digit_classes_char. apply digit_char_classes. lia. Qed.

Lemma text_digits n : text n <> [] /\ Forall is_digit (text n).
Proof.
  destruct (decide (n = 0)%N) as [->|Hn]; [split; [done|by repeat constructor]|].
  destruct (text_pos n ltac:(lia)) as (a & l & -> & Ha%positive_digit & Hl). split; [done|].
  constructor; [by rewrite Ha|done].
Qed.

Lemma text_inj n n' : text n = text n' -> n = n'.
Proof.
  intros E. apply (inj pretty). rewrite <- (string_of_list_ascii_of_string (pretty n)).
  unfold text in E. by rewrite E, string_of_list_ascii_of_string.
Qed.

Lemma number_parses l c : parses number l c <-> c = [] /\ exists n, l = text n.
Proof.
  split.
  - intros H. inv H as [| | |? ? ? ? H1|? ? ? ? H1| | |].
    + inv H1 as [|? ? E| | | | | |]. apply Ascii.eqb_eq in E as <-. split; [done|by exists 0%N].
    + inv H1 as [| |? ? ? ? ? ? H2 H3| | | | |]. inv H2. apply parses_class_run in H3 as [-> H3].
      split; [done|]. by apply text_shape.
  - intros [-> [n ->]]. destruct (decide (n = 0)%N) as [->|Hn]; [apply parses_left; by constructor|].
    destruct (text_pos n ltac:(lia)) as (a & l & -> & Ha & Hl). apply parses_right.
    apply (parses_Concat _ _ [a] l [] []); [by constructor|]. by apply parses_class_run.
Qed.

Lemma matched_number l : matched number l <-> exists n, l = text n.
Proof. unfold matched. setoid_rewrite number_parses. naive_solver. Qed.

(** * The grammar of versions *)

Record version : Type := Version {
  Major : N;
  Minor : N;
  Patch : N;
  Prerelease : list (list ascii);
  Build : list (list ascii)
}.

(** An identifier, and one of a prerelease: a numeric one has no leading zero. *)
Definition word_ok (l : list ascii) : Prop := l <> [] /\ Forall is_word l.

Definition prerelease_ok (l : list ascii) : Prop :=
  word_ok l /\ (Forall is_digit l -> exists n, l = text n).

Definition version_ok (v : version) : Prop :=
  Forall prerelease_ok (Prerelease v) /\ Forall word_ok (Build v).

(** Identifiers between dots, behind their mark. *)
Definition suffix (mark : ascii) (ids : list (list ascii)) : list ascii :=
  match ids with
  | [] => []
  | id :: ids => mark :: id ++ mjoin (cons "."%char <$> ids)
  end.

Definition version_text (v : version) : list ascii :=
  ("v" :: text (Major v) ++ "." :: text (Minor v) ++ "." :: text (Patch v) ++
   suffix "-" (Prerelease v) ++ suffix "+" (Build v))%char.

Lemma word_split a : is_word a = true -> is_digit a = false -> is_letter a = true.
Proof. unfold is_word. intros H E. by rewrite E in H. Qed.

Lemma letter_not_digit a : is_letter a = true -> is_digit a = false.
Proof. by destruct a as [[] [] [] [] [] [] [] []]. Qed.

Lemma digits_words l : Forall is_digit l -> Forall is_word l.
Proof. intros H. eapply Forall_impl; [done|]. intros a Ha. apply orb_prop_intro. by left. Qed.

(** A text has a first character outside a class, or none. *)
Lemma span_class (p : ascii -> bool) l :
  Forall p l \/ exists l1 a l2, l = l1 ++ a :: l2 /\ Forall p l1 /\ p a = false.
Proof.
  induction l as [|x l IH]; [by left|]. destruct (p x) eqn:E; [|right; by exists [], x, l].
  destruct IH as [H|(l1 & a & l2 & -> & H & Ha)].
  - left. constructor; [by rewrite E|done].
  - right. exists (x :: l1), a, l2. split; [done|]. split; [|done]. constructor; [by rewrite E|done].
Qed.

Lemma matched_class_run p l : matched (Star (Class p)) l <-> Forall p l.
Proof. unfold matched. setoid_rewrite parses_class_run. naive_solver. Qed.

Lemma matched_classes p q l :
  matched (Concat (Class p) (Star (Class q))) l <-> exists a l2, l = a :: l2 /\ p a = true /\ Forall q l2.
Proof.
  rewrite matched_Concat. setoid_rewrite matched_Class. setoid_rewrite matched_class_run. split.
  - intros (? & l2 & -> & (a & -> & Ha) & H). by exists a, l2.
  - intros (a & l2 & -> & Ha & H). exists [a], l2. eauto.
Qed.

Lemma matched_word l : matched word l <-> word_ok l.
Proof.
  unfold word, Plus, word_ok. rewrite matched_classes. split.
  - intros (a & l2 & -> & Ha & H). split; [done|]. constructor; [by rewrite Ha|done].
  - intros [Hne H]. destruct H as [|a l Ha Hl]; [done|]. exists a, l. split; [done|]. split; [by apply Is_true_true|done].
Qed.

Lemma matched_prerelease l : matched prerelease l <-> prerelease_ok l.
Proof.
  unfold prerelease, prerelease_ok, word_ok. rewrite matched_Alternate, matched_number, matched_Concat.
  setoid_rewrite matched_class_run. setoid_rewrite matched_classes. split.
  - intros [[n ->]|(l1 & ? & -> & H1 & (a & l2 & -> & Ha & H2))].
    + destruct (text_digits n) as [Hne Hd]. split; [|by exists n]. split; [done|by apply digits_words].
    + split.
      * split; [by destruct l1|]. apply Forall_app. split; [by apply digits_words|]. constructor; [|done].
        unfold is_word. rewrite Ha. by destruct (is_digit a).
      * intros [_ H]%Forall_app. inv H as [|? ? Hd _]. by rewrite (letter_not_digit a) in Hd.
  - intros [[Hne Hw] Hn]. destruct (span_class is_digit l) as [Hd|(l1 & a & l2 & -> & H1 & Ha)]; [by left; apply Hn|].
    right. apply Forall_app in Hw as [_ Hw]. inv Hw as [|? ? Hwa Hw2].
    exists l1, (a :: l2). split; [done|]. split; [done|]. exists a, l2. split; [done|]. split; [|done].
    apply word_split; [by apply Is_true_true|done].
Qed.

(** * What the pattern of a tag matches *)

Lemma matched_dotted (ok : list ascii -> Prop) n r l :
  (forall l, matched r l <-> ok l) ->
  matched (Star (Capture n (Concat (Literal ".") r))) l <->
  exists ids, Forall ok ids /\ l = mjoin (cons "."%char <$> ids).
Proof.
  intros Hr. rewrite matched_Star. setoid_rewrite matched_Capture. setoid_rewrite matched_prefixed. setoid_rewrite Hr.
  split.
  - intros (ls & -> & H). induction H as [|x ls (_ & id & -> & Hid) _ (ids & Hids & E)]; [by exists []|].
    exists (id :: ids). split; [by constructor|]. simpl. by rewrite E.
  - intros (ids & H & ->). exists (cons "."%char <$> ids). split; [done|].
    apply Forall_fmap. eapply Forall_impl; [done|]. intros id Hid. split; [done|]. by exists id.
Qed.

Lemma matched_suffix (ok : list ascii -> Prop) mark r r' i j n l :
  (forall l, matched r l <-> ok l) -> (forall l, matched r' l <-> ok l) ->
  matched (Quest (Capture i (Concat (Literal mark)
    (Capture j (Concat r (Star (Capture n (Concat (Literal ".") r')))))))) l <->
  exists ids, Forall ok ids /\ l = suffix mark ids.
Proof.
  intros Hr Hr'. rewrite matched_Quest, matched_Capture, matched_prefixed.
  setoid_rewrite matched_Capture. setoid_rewrite matched_Concat. setoid_rewrite Hr.
  setoid_rewrite (matched_dotted _ _ _ _ Hr'). split.
  - intros [(? & -> & id & ? & -> & Hid & ids & Hids & ->)| ->]; [|by exists []].
    exists (id :: ids). split; [by constructor|done].
  - intros ([|id ids] & H & ->); [by right|]. inv H. left. eexists. split; [done|]. eauto 10.
Qed.

Lemma matched_group n l : matched (Capture n prerelease) l <-> prerelease_ok l.
Proof. by rewrite matched_Capture, matched_prerelease. Qed.

(** A component of the version behind its mark. *)
Lemma matched_field mark n r l :
  matched (Concat (Literal mark) (Concat (Capture n number) r)) l <->
  exists k rest, l = mark :: text k ++ rest /\ matched r rest.
Proof.
  rewrite matched_prefixed. setoid_rewrite matched_Concat. setoid_rewrite matched_Capture.
  setoid_rewrite matched_number. split.
  - intros (? & -> & ? & rest & -> & [k ->] & H). by exists k, rest.
  - intros (k & rest & -> & H). eexists. split; [done|]. eauto 7.
Qed.

Lemma matched_tag l : matched tagPattern l <-> exists v, version_ok v /\ l = version_text v.
Proof.
  unfold tagPattern. rewrite matched_field. setoid_rewrite matched_field. setoid_rewrite matched_field.
  setoid_rewrite matched_Concat.
  setoid_rewrite (fun l => matched_suffix prerelease_ok "-" _ _ 4 5 7 l (matched_group 6) (matched_group 8)).
  setoid_rewrite (fun l => matched_suffix word_ok "+" _ _ 9 10 11 l matched_word matched_word). split.
  - intros (major & ? & -> & minor & ? & -> & patch & ? & -> & ? & ? & -> & (pre & Hp & ->) & build & Hb & ->).
    by exists (Version major minor patch pre build).
  - intros ([major minor patch pre build] & [Hp Hb] & ->). unfold version_text. simpl in *.
    do 2 eexists. split; [done|]. do 2 eexists. split; [done|]. do 2 eexists. split; [done|]. eauto 10.
Qed.

(** * A tag is read in one way *)

(** Behind texts of a class there is nothing, or something outside the class. *)
Definition stops (p : ascii -> bool) (l : list ascii) : Prop := match l with [] => True | a :: _ => p a = false end.

Lemma span_unique (p : ascii -> bool) l1 l2 r1 r2 :
  l1 ++ r1 = l2 ++ r2 -> Forall p l1 -> Forall p l2 -> stops p r1 -> stops p r2 -> l1 = l2 /\ r1 = r2.
Proof.
  intros E H1. revert l2 E. induction H1 as [|a l1 Ha _ IH]; intros l2 E H2 S1 S2.
  - destruct H2 as [|b l2 Hb _]; [done|]. simpl in E. subst r1. simpl in S1. by rewrite S1 in Hb.
  - destruct H2 as [|b l2 Hb H2].
    + simpl in E. subst r2. simpl in S2. by rewrite S2 in Ha.
    + injection E as -> E. destruct (IH _ E H2 S1 S2) as [-> ->]. done.
Qed.

Lemma dotted_unique ids ids' :
  Forall word_ok ids -> Forall word_ok ids' ->
  mjoin (cons "."%char <$> ids) = mjoin (cons "."%char <$> ids') -> ids = ids'.
Proof.
  intros H. revert ids'. induction H as [|id ids [_ Hid] _ IH]; intros ids' H' E; destruct H' as [|id' ids' [_ Hid'] H']; [done..|].
  injection E as E. apply (span_unique is_word) in E as [-> E]; [|done..|by destruct ids|by destruct ids'].
  by rewrite (IH _ H' E).
Qed.

Lemma suffix_unique mark ids ids' :
  Forall word_ok ids -> Forall word_ok ids' -> suffix mark ids = suffix mark ids' -> ids = ids'.
Proof.
  intros H H' E. destruct H as [|id ids [_ Hid] H], H' as [|id' ids' [_ Hid'] H']; [done..|].
  injection E as E. apply (span_unique is_word) in E as [-> E]; [|done..|by destruct ids|by destruct ids'].
  by rewrite (dotted_unique _ _ H H' E).
Qed.

Definition not_plus (a : ascii) : bool := negb (Ascii.eqb "+" a).

Lemma word_not_plus a : is_word a = true -> not_plus a = true.
Proof. by destruct a as [[] [] [] [] [] [] [] []]. Qed.

Lemma words_not_plus l : Forall is_word l -> Forall not_plus l.
Proof. intros H. eapply Forall_impl; [done|]. intros a Ha%Is_true_true%word_not_plus. by rewrite Ha. Qed.

Lemma suffix_not_plus ids : Forall word_ok ids -> Forall not_plus (suffix "-" ids).
Proof.
  intros H. destruct H as [|id ids [_ Hid] H]; [done|]. simpl. constructor; [done|].
  apply Forall_app. split; [by apply words_not_plus|].
  induction H as [|x ids [_ Hx] _ IH]; [done|]. simpl. constructor; [done|]. apply Forall_app. split; [by apply words_not_plus|done].
Qed.

Lemma field_unique k k' rest rest' :
  text k ++ rest = text k' ++ rest' -> stops is_digit rest -> stops is_digit rest' -> k = k' /\ rest = rest'.
Proof.
  intros E H H'. apply (span_unique is_digit) in E as [E ->]; [|apply text_digits..|done|done].
  by apply text_inj in E.
Qed.

Lemma version_unique v v' :
  version_ok v -> version_ok v' -> version_text v = version_text v' -> v = v'.
Proof.
  destruct v as [a b c p q], v' as [a' b' c' p' q']. unfold version_ok, version_text. simpl. intros [Hp Hq] [Hp' Hq'] E.
  assert (W : forall p, Forall prerelease_ok p -> Forall word_ok p).
  { intros ids H. eapply Forall_impl; [done|]. by intros ? []. }
  injection E as E. apply field_unique in E as [-> E]; [|done..].
  injection E as E. apply field_unique in E as [-> E]; [|done..].
  injection E as E. apply field_unique in E as [-> E]; [|by destruct p, q|by destruct p', q'].
  apply (span_unique not_plus) in E as [E1 E2]; [|by apply suffix_not_plus, W..|by destruct q|by destruct q'].
  apply suffix_unique in E1 as ->; [|by apply W..]. by apply suffix_unique in E2 as ->.
Qed.

Lemma valid_iff tag : ValidateTag tag = ErrNil <-> exists v, version_ok v /\ list_ascii_of_string tag = version_text v.
Proof.
  rewrite <- matched_tag. unfold matched. rewrite <- match_iff. unfold ValidateTag. by destruct (MatchString tagPattern tag).
Qed.

(** C37: The pattern of the release tags is the grammar of semantic versions. A tag is
    accepted exactly when it is v, three numbers without leading zeros, a prerelease of
    identifiers that are not numbers with leading zeros, and build identifiers, and no two
    versions have the same tag; the command exits with 0 on exactly these tags. *)
Theorem tag_grammar (tag : string) :
  (ValidateTag tag = ErrNil <-> exists v, version_ok v /\ list_ascii_of_string tag = version_text v) /\
  (forall program, main [program; tag] = (0%Z, None, None) <-> ValidateTag tag = ErrNil) /\
  (forall v v', version_ok v -> version_ok v' -> version_text v = version_text v' -> v = v').
Proof.
  split; [|split; [|exact version_unique]].
  - apply valid_iff.
  - intros program. simpl. by destruct (ValidateTag tag) eqn:E; unfold ValidateTag in E; case_match.
Qed.

(** * Successors *)

(** A stable version, and its tag. *)
Definition stable (v : N * N * N) : version := let '(major, minor, patch) := v in Version major minor patch [] [].
Definition stable_tag (v : N * N * N) : string := string_of_list_ascii (version_text (stable v)).

(** The groups of a stable tag are its components. *)
Definition fields (v : N * N * N) : captures :=
  let '(major, minor, patch) := v in [(1%nat, text major); (2%nat, text minor); (3%nat, text patch)].

Lemma stable_text v : list_ascii_of_string (stable_tag v) = version_text (stable v).
Proof. apply list_ascii_of_string_of_list_ascii. Qed.

Lemma stable_tag_inj v v' : stable_tag v = stable_tag v' -> v = v'.
Proof.
  intros E. assert (E' : version_text (stable v) = version_text (stable v')) by (rewrite <- !stable_text; by rewrite E).
  apply version_unique in E'; destruct v as [[]], v' as [[]]; [|done..]. simpl in E'. congruence.
Qed.

Lemma parses_literal x l c : parses (Literal x) l c <-> l = [x] /\ c = [].
Proof.
  split; [intros H; inv H as [|? ? E| | | | | |]; by apply Ascii.eqb_eq in E as <-|].
  intros [-> ->]. constructor. apply Ascii.eqb_refl.
Qed.

Lemma parses_number_group n l c : parses (Capture n number) l c <-> exists k, l = text k /\ c = [(n, text k)].
Proof.
  split.
  - intros H. inv H as [| | | | | | |? ? ? ? H1]. apply number_parses in H1 as [-> [k ->]]. by exists k.
  - intros (k & -> & ->). apply (parses_Capture n number (text k) []). apply number_parses. eauto.
Qed.

Lemma parses_stable l c : parses stableTagPattern l c <-> exists v, l = version_text (stable v) /\ c = fields v.
Proof.
  split.
  - intros H. unfold stableTagPattern in H.
    repeat match goal with
    | H : parses (Concat _ _) _ _ |- _ => inv H
    | H : parses (Literal _) _ _ |- _ => apply parses_literal in H as [-> ->]
    | H : parses (Capture _ number) _ _ |- _ => apply parses_number_group in H as (? & -> & ->)
    end.
    eexists (_, _, _). unfold version_text. simpl. by rewrite app_nil_r.
  - intros ([[major minor] patch] & -> & ->). unfold version_text. simpl. rewrite app_nil_r.
    apply (parses_Concat _ _ [_] _ []); [by apply parses_literal|].
    apply (parses_Concat _ _ _ _ [_]); [apply parses_number_group; eauto|].
    apply (parses_Concat _ _ [_] _ []); [by apply parses_literal|].
    apply (parses_Concat _ _ _ _ [_]); [apply parses_number_group; eauto|].
    apply (parses_Concat _ _ [_] _ []); [by apply parses_literal|]. apply parses_number_group; eauto.
Qed.

Lemma find_stable v : FindStringSubmatch stableTagPattern (stable_tag v) = Some (fields v).
Proof.
  destruct (find_complete stableTagPattern (stable_tag v) (fields v)) as [c E].
  { rewrite stable_text. apply parses_stable. eauto. }
  rewrite E. apply find_sound in E. rewrite stable_text in E. apply parses_stable in E as (v' & E & ->).
  assert (v = v') as ->; [|done]. apply stable_tag_inj. unfold stable_tag. by rewrite E.
Qed.

Lemma find_unstable tag : FindStringSubmatch stableTagPattern tag = None -> forall v, tag <> stable_tag v.
Proof. intros E v ->. by rewrite find_stable in E. Qed.

Lemma find_is_stable tag c : FindStringSubmatch stableTagPattern tag = Some c -> exists v, tag = stable_tag v /\ c = fields v.
Proof.
  intros (v & E & ->)%find_sound%parses_stable. exists v. split; [|done]. unfold stable_tag.
  by rewrite <- E, string_of_list_ascii_of_string.
Qed.

(** A component read as a machine integer saturates. *)
Lemma Atoi_text n : Atoi_value (string_of_list_ascii (text n)) = Z.min (2 ^ 63 - 1) (Z.of_N n).
Proof.
  unfold Atoi_value, text. rewrite list_ascii_of_string_of_list_ascii.
  destruct (pretty_read n) as (c & l & -> & H1 & H2 & E).
  by rewrite (proj2 (Ascii.eqb_neq _ _) H1), (proj2 (Ascii.eqb_neq _ _) H2), E.
Qed.

Definition saturate (n : N) : Z := Z.min (2 ^ 63 - 1) (Z.of_N n).

(** The order of versions, and the versions a part can lead to. *)
Definition before (v v' : N * N * N) : Prop :=
  let '(a, b, c) := v in let '(a', b', c') := v' in
  (a < a' \/ a = a' /\ (b < b' \/ b = b' /\ c < c'))%N.

Definition aligned (part : string) (v : N * N * N) : Prop :=
  let '(_, minor, patch) := v in
  (part = "minor" -> patch = 0%N) /\ (part = "major" -> minor = 0%N /\ patch = 0%N).

Definition least_after (part : string) (v v' : N * N * N) : Prop :=
  aligned part v' /\ before v v' /\ forall u, aligned part u -> before v u -> v' = u \/ before v' u.

(** The component a part increments, and those it keeps. *)
Definition incremented (part : string) (v : N * N * N) : N :=
  let '(major, minor, patch) := v in
  if part == "patch" then patch else if part == "minor" then minor else major.

Definition kept (part : string) (v : N * N * N) : list N :=
  let '(major, minor, _) := v in
  if part == "patch" then [major; minor] else if part == "minor" then [major] else [].

(** The greatest machine integer, and the components that are machine integers. *)
Definition max_int : N := 2 ^ 63 - 1.

Definition fits (n : N) : Prop := (n <= max_int)%N.

Definition clamp (v : N * N * N) : N * N * N :=
  let '(a, b, c) := v in (N.min max_int a, N.min max_int b, N.min max_int c).

Definition parts : list string := ["patch"; "minor"; "major"].

(** * What the successor of a tag is *)

Lemma next_of_stable v part :
  NextStable (stable_tag v) part =
  (let '(major, minor, patch) := v in
   if part == "patch" then inr (format (saturate major) (saturate minor) (wrap_i64 (saturate patch + 1)))
   else if part == "minor" then inr (format (saturate major) (wrap_i64 (saturate minor + 1)) 0)
   else if part == "major" then inr (format (wrap_i64 (saturate major + 1)) 0 0)
   else inl (Leaf "release part must be patch, minor, or major")).
Proof.
  unfold NextStable. rewrite find_stable. destruct v as [[major minor] patch].
  unfold group, fields. simpl List.filter. simpl. rewrite !Atoi_text. done.
Qed.

Lemma pretty_nonneg z : (0 <= z)%Z -> list_ascii_of_string (pretty z) = text (Z.to_N z).
Proof. intros Hz. destruct z; [done|done|lia]. Qed.

Lemma pretty_negative z : (z < 0)%Z -> exists l, list_ascii_of_string (pretty z) = ("-" :: l)%char.
Proof. intros Hz. destruct z; [done|done|by eexists]. Qed.

Lemma list_ascii_app s s' : list_ascii_of_string (s +:+ s') = list_ascii_of_string s ++ list_ascii_of_string s'.
Proof. induction s as [|a s IH]; [done|]. simpl. f_equal. exact IH. Qed.

Lemma format_text x y z :
  list_ascii_of_string (format x y z) =
  ("v" :: list_ascii_of_string (pretty x) ++ "." :: list_ascii_of_string (pretty y) ++ "." :: list_ascii_of_string (pretty z))%char.
Proof. unfold format. by rewrite !list_ascii_app. Qed.

Lemma format_stable x y z :
  (0 <= x)%Z -> (0 <= y)%Z -> (0 <= z)%Z -> format x y z = stable_tag (Z.to_N x, Z.to_N y, Z.to_N z).
Proof.
  intros Hx Hy Hz. rewrite <- (string_of_list_ascii_of_string (format x y z)), format_text.
  rewrite !pretty_nonneg by done. unfold stable_tag, version_text. simpl. by rewrite app_nil_r.
Qed.

Lemma stable_valid v : ValidateTag (stable_tag v) = ErrNil.
Proof. apply valid_iff. exists (stable v). rewrite stable_text. split; [by destruct v as [[]]|done]. Qed.

Lemma no_sign k rest l : text k ++ rest <> ("-" :: l)%char.
Proof. destruct (text_digits k) as [Hne Hd]. destruct Hd as [|a l' Ha _]; [done|]. by intros [= -> _]. Qed.

(** A negative component is not accepted, wherever it is. *)
Lemma negative_invalid x y z :
  (x < 0 \/ 0 <= x /\ y < 0 \/ 0 <= x /\ 0 <= y /\ z < 0)%Z -> ValidateTag (format x y z) <> ErrNil.
Proof.
  intros H ([a b c p q] & _ & E)%valid_iff. rewrite format_text in E. unfold version_text in E. simpl in E.
  injection E as E. destruct H as [[l Hx]%pretty_negative|H].
  { rewrite Hx in E. symmetry in E. by apply no_sign in E. }
  assert (Hx : (0 <= x)%Z) by lia. rewrite (pretty_nonneg x Hx) in E. apply field_unique in E as [_ E]; [|done..].
  injection E as E. destruct H as [[_ [l Hy]%pretty_negative]|(_ & Hy & [l Hz]%pretty_negative)].
  { rewrite Hy in E. symmetry in E. by apply no_sign in E. }
  rewrite (pretty_nonneg y Hy) in E. apply field_unique in E as [_ E]; [|done..].
  injection E as E. rewrite Hz in E. symmetry in E. by apply no_sign in E.
Qed.

Lemma saturate_clamp n : saturate n = Z.of_N (N.min max_int n).
Proof. unfold saturate, max_int. lia. Qed.

Lemma increment_room n :
  (n < max_int)%N -> wrap_i64 (saturate n + 1) = Z.of_N (N.min max_int n + 1).
Proof.
  intros H. rewrite saturate_clamp. unfold wrap_i64, max_int in *. rewrite N.min_r by lia. rewrite Z.mod_small by lia. lia.
Qed.

Lemma increment_full n : (max_int <= n)%N -> wrap_i64 (saturate n + 1) = (- 2 ^ 63)%Z.
Proof. intros H. unfold max_int in H. unfold saturate, wrap_i64. rewrite Z.min_l by lia. done. Qed.

Lemma saturate_nonneg n : (0 <= saturate n)%Z.
Proof. unfold saturate. lia. Qed.

(** The successor by hand. *)
Definition successor (part : string) (v : N * N * N) : N * N * N :=
  let '(major, minor, patch) := v in
  if part == "patch" then (major, minor, patch + 1)%N
  else if part == "minor" then (major, minor + 1, 0)%N else (major + 1, 0, 0)%N.

Lemma successor_least part v : part ∈ parts -> least_after part v (successor part v).
Proof.
  unfold parts. rewrite !elem_of_cons, elem_of_nil. destruct v as [[a b] c].
  intros [->|[->|[->|[]]]]; unfold least_after, successor, aligned, before; simpl;
    (split; [naive_solver lia|]); (split; [lia|]); intros [[a' b'] c'] [H1 H2] H.
  - destruct (decide ((a, b, c + 1)%N = (a', b', c'))) as [|E]; [by left|right].
    destruct (decide (a = a')) as [->|]; [|lia]. destruct (decide (b = b')) as [->|]; [|lia].
    assert (c' <> c + 1)%N by congruence. lia.
  - specialize (H1 eq_refl). subst c'. destruct (decide ((a, b + 1, 0)%N = (a', b', 0%N))) as [|E]; [by left|right].
    destruct (decide (a = a')) as [->|]; [|lia]. assert (b' <> b + 1)%N by congruence. lia.
  - destruct (H2 eq_refl) as [-> ->]. destruct (decide ((a + 1, 0, 0)%N = (a', 0%N, 0%N))) as [|E]; [by left|right].
    assert (a' <> a + 1)%N by congruence. lia.
Qed.

(** With room for the increment the answer is the successor of the version as it was read. *)
Lemma next_with_room part v :
  part ∈ parts -> (incremented part v < max_int)%N ->
  NextStable (stable_tag v) part = inr (stable_tag (successor part (clamp v))).
Proof.
  unfold parts. rewrite !elem_of_cons, elem_of_nil, next_of_stable. destruct v as [[a b] c].
  intros [->|[->|[->|[]]]] Hi; simpl in Hi |- *; rewrite (increment_room _ Hi), ?saturate_clamp, format_stable by lia;
    by rewrite ?N2Z.id.
Qed.

Lemma clamp_fits part v :
  part ∈ parts -> (incremented part v < max_int)%N -> Forall fits (kept part v) ->
  successor part (clamp v) = successor part v.
Proof.
  unfold parts. rewrite !elem_of_cons, elem_of_nil. destruct v as [[a b] c]. unfold fits.
  intros [->|[->|[->|[]]]]; simpl; rewrite ?Forall_cons; intros Hi Hf; repeat f_equal; naive_solver lia.
Qed.

(** A component that was read as less than it is makes the answer an earlier version. *)
Lemma clamp_earlier part v : part ∈ parts -> ~ Forall fits (kept part v) -> before (successor part (clamp v)) v.
Proof.
  unfold parts. rewrite !elem_of_cons, elem_of_nil. destruct v as [[a b] c]. unfold fits.
  intros [->|[->|[->|[]]]]; simpl; rewrite ?Forall_cons; intros Hf; [| |by destruct Hf].
  - destruct (decide (a <= max_int)%N) as [Ha|Ha]; [|left; lia]. right. split; [lia|].
    destruct (decide (b <= max_int)%N) as [Hb|Hb]; [|left; lia]. by destruct Hf.
  - destruct (decide (a <= max_int)%N) as [Ha|Ha]; [by destruct Hf|left; lia].
Qed.

Lemma next_overflows part v next :
  part ∈ parts -> (max_int <= incremented part v)%N -> NextStable (stable_tag v) part = inr next ->
  ValidateTag next <> ErrNil.
Proof.
  unfold parts. rewrite !elem_of_cons, elem_of_nil, next_of_stable. destruct v as [[a b] c].
  pose proof (saturate_nonneg a). pose proof (saturate_nonneg b).
  intros [->|[->|[->|[]]]] Hi; simpl in Hi |- *; rewrite (increment_full _ Hi); intros [= <-];
    apply negative_invalid; lia.
Qed.

Lemma next_answers part v :
  match NextStable (stable_tag v) part with inl _ => part ∉ parts | inr _ => part ∈ parts end.
Proof.
  rewrite next_of_stable. destruct v as [[a b] c]. unfold parts.
  destruct (String.eqb_spec part "patch") as [->|]; [set_solver|].
  destruct (String.eqb_spec part "minor") as [->|]; [set_solver|].
  destruct (String.eqb_spec part "major") as [->|]; set_solver.
Qed.

(** C38: What the release helper computes, at the width of a machine integer. It answers
    exactly for a stable tag and one of its three parts. When the component it increments
    is below the greatest integer and the components it keeps are machine integers, the
    answer is the tag of the least later version of that kind, and is accepted as a tag.
    When the incremented component is not below it, the answer is not a valid tag. When
    only a kept component is no machine integer, that component is read as the greatest one
    and the answer is the valid tag of an earlier version. *)
Theorem next_stable_least (tag part : string) :
  match NextStable tag part with
  | inl _ => ~ ((exists v, tag = stable_tag v) /\ part ∈ parts)
  | inr next =>
      exists v, tag = stable_tag v /\ part ∈ parts /\
        ((max_int <= incremented part v)%N -> ValidateTag next <> ErrNil) /\
        ((incremented part v < max_int)%N ->
           ValidateTag next = ErrNil /\
           exists v', next = stable_tag v' /\
             (Forall fits (kept part v) -> least_after part v v') /\
             (~ Forall fits (kept part v) -> before v' v))
  end.
Proof.
  destruct (FindStringSubmatch stableTagPattern tag) as [c|] eqn:E.
  - apply find_is_stable in E as (v & -> & _). pose proof (next_answers part v) as H.
    destruct (NextStable (stable_tag v) part) as [err|next] eqn:En; [by intros [_ Hp]|].
    exists v. split; [done|]. split; [done|]. split; [intros Hf; by eapply next_overflows|].
    intros Hr. rewrite (next_with_room _ _ H Hr) in En. injection En as <-. split; [apply stable_valid|].
    exists (successor part (clamp v)). split; [done|]. split; [|by apply clamp_earlier].
    intros Hf. rewrite (clamp_fits _ _ H Hr Hf). by apply successor_least.
  - pose proof (find_unstable _ E) as H. unfold NextStable. rewrite E. intros [[v ->] _]. by apply (H v).
Qed.

(** The tables of semver_test.go, and the two ways in which a version can be too large. *)
Example tag_tables :
  forallb (fun tag => is_nil (ValidateTag tag))
    ["v0.0.0"; "v1.2.3"; "v1.0.0-rc.1"; "v1.2.3-alpha-beta"; "v1.2.3+build.5"; "v1.2.3-rc.1+build.5"] = true /\
  forallb (fun tag => negb (is_nil (ValidateTag tag)))
    ["1.2.3"; "v01.2.3"; "v1.02.3"; "v1.2.03"; "v1.2"; "v1.2.3-"; "v1.2.3-.."; "v1.2.3-01"; "v1.2.3+"; "v1.2.3+bad..value"] = true /\
  NextStable "v1.2.3" "patch" = inr "v1.2.4" /\ NextStable "v1.2.3" "minor" = inr "v1.3.0" /\
  NextStable "v1.2.3" "major" = inr "v2.0.0" /\
  NextStable "v9223372036854775807.0.0" "major" = inr "v-9223372036854775808.0.0" /\
  NextStable "v9223372036854775808.0.0" "patch" = inr "v9223372036854775807.0.1".
Proof. vm_compute. by repeat split. Qed.
